(* ===== verification/_CoqProject ===== *)
-Q . S2P
Prelude.v
Text.v
Demo.v
Names.v
Payload.v
Frame.v
StateLog.v
Effects.v
Btree.v
Concurrency.v
Buckets.v
Rapid.v
Recovery.v
RapidLog.v
RapidSegment.v
RapidAppend.v
RapidArchive.v
RapidIndex.v
RapidArchiver.v
RapidSession.v
RapidSessionSafety.v
RapidDemo.v
Runtime.v
Activation.v
Ownership.v
Takeover.v
LocalStore.v
Safety.v
History.v
FileRefines.v
Lifecycle.v
Residency.v
LifecycleStore.v
Usage.v
Admission.v
HostStorage.v
LeaseMaintenance.v
Alarms.v
AlarmSchedule.v
Routes.v
Deployment.v
Routing.v
Pool.v
Sqlite.v
Capture.v
Protocol.v
ActorDatabase.v
DatabaseLaws.v
DatabaseSafety.v
DatabaseSession.v
DatabaseService.v
HostActorStorage.v
DatabaseServiceSafety.v
Durability.v
DatabaseDemo.v
ActorHost.v
ActorHostSafety.v
Executor.v
ExecutorSafety.v
ActorHostDemo.v
Sockets.v
SocketSafety.v
SocketBus.v
SocketBusSafety.v
SocketSession.v
SocketSessionSafety.v
SocketDemo.v
Tokens.v
HostHttp.v
Credentials.v
Dispatch.v
DispatchSafety.v
DispatchDemo.v
HostConfig.v
Assignment.v
AssignmentSafety.v
StorageAccess.v
LocalHosts.v
Telemetry.v
TelemetrySafety.v
