(* ===== verification/Prelude.v ===== *)
(** * Durable Actors: a verification development

    Durable Actors runs stateful actors. An actor is an object with durable state
    and a serialized stream of requests; it lives in one host process at a time,
    its state is a SQLite database whose commits are kept in object storage, and a
    control plane decides which host owns it. This library models the Rust
    implementation under [src/src] as executable functions, step functions and
    programs over shared storage, and proves what the parts promise to each other
    and to the callers. A property that the development is about has a number,
    C1 to C40, in the comment above its theorem.

    ** The parts of the program and how they interact

    - Storage. Objects live in buckets ([Bucket]: conditional writes); commits of an
      actor go to a snapshot store, either the bucket itself or append logs in
      several zones with an archive behind them. Ownership of an actor is a record
      in the authority bucket with a lease and an epoch.
    - Host. A host session claims an actor, renews its lease, and runs a mailbox
      that hands requests to the JavaScript process of the actor and publishes a
      state commit before it answers. It fences itself when its lease is in doubt.
    - Control plane. It routes a request to the owner or starts a host from a pool
      of spare sandboxes, issues credentials, limits organizations, schedules alarms,
      holds browser connections, and keeps lifecycle reports and traces.

    Requests flow [Dispatch] -> [Routing] -> [Assignment] -> [HostHttp] ->
    [ActorHost] -> [Executor] and [DatabaseService] -> [ActorDatabase] ->
    [HostStorage] -> [Runtime], [Activation] -> [Buckets] or [RapidSession].

    ** Files

    Shared: [Prelude] (bytes, results, machine integers, automation), [Text] (Rust's
    string and number primitives, and the classes of third-party operations with
    their laws), [Demo] (stand-ins for them in the witnesses), [Effects] (programs
    over the operations of storage, clock and locks; [run] executes one, [step] is
    the documented contract of an operation with all its faults), [Btree] (ordered
    maps, sorting), [Concurrency] (a rely-guarantee logic [wp] for such programs, and
    pools of them).

    Storage:
    - [Names]: actor/protocol.rs, actor_state.rs, storage_paths.rs, storage.rs,
      storage/stream.rs, host_leases.rs, placement.rs. [Payload]: payload.rs.
    - [StateLog]: state_log.rs, state_log/binary.rs, state_log/legacy.rs.
    - [Frame], [Rapid], [RapidLog], [RapidSegment], [RapidArchiver], [RapidSession]:
      bucket/rapid.rs and bucket/rapid/ (frame, standard, index, reader, archive,
      checkpoint, prepared, segment, writer).
    - [Buckets]: bucket.rs, bucket/file.rs, bucket/snapshots.rs. [Recovery]:
      bucket/recovery.rs. [StorageAccess]: bucket/access.rs.
    - [Runtime], [Activation]: bucket/runtime.rs, bucket/runtime/session.rs,
      bucket/runtime/activation.rs. [History]: bucket/runtime/history.rs.

    Host:
    - [HostStorage]: host/storage.rs and the lease fence of control_plane/client.rs.
      [LeaseMaintenance]: host/lease_maintenance.rs.
    - [Sqlite], [ActorDatabase], [DatabaseService]: host/actor_database.rs and
      host/actor_database/, actor/database.rs. [Capture]: litestream.rs,
      litestream/storage.rs. [HostActorStorage]: host/persistence.rs.
    - [Protocol]: the data of actor/protocol.rs, actor/socket.rs. [Executor]:
      actor/executor_connection.rs. [ActorHost]: host/actor_host.rs.
    - [HostHttp]: host/http.rs. [HostConfig]: host/config.rs and the assignment
      environment of sandbox/remote.rs. [Assignment]: host/assignment.rs,
      host/spare.rs, host/process.rs, sandbox/assignment.rs, sandbox/remote.rs.

    Control plane:
    - [Deployment]: control_plane/regions.rs, contracts.rs, admin.rs, bundle.rs.
      [Routes], [Routing]: control_plane/routes.rs, control_plane/service.rs.
      [Dispatch]: control_plane/invocation.rs, public_api.rs, socket_gateway.rs.
    - [Tokens]: control_plane/issuer.rs, auth.rs, session.rs, socket_ticket.rs.
    - [Admission]: control_plane/organization_limits.rs and its memory store.
      [Alarms], [AlarmSchedule]: control_plane/alarms.rs. [Pool]: sandbox/pool.rs
      and sandbox/pool/. [LocalHosts]: sandbox/local.rs, sandbox/local_store.rs.
    - [Sockets]: sockets/mod.rs, sockets/operations.rs, host/sockets.rs.
      [SocketBus]: control_plane/socket_bus.rs. [SocketSession]: sockets/browser.rs.
    - [Lifecycle], [LifecycleStore], [Residency]: actor_lifecycle.rs,
      actor_lifecycle/, host/lifecycle.rs. [Telemetry]: request_tracking.rs,
      request_traces.rs, request_traces/, control_plane/local_telemetry.rs.

    A file named [XSafety] has the theorems about the definitions of [X]; a file
    named [XDemo] runs them on concrete inputs and has the witnesses of theorems
    with hypotheses. A [Record] has the fields of the struct (with a prefix where
    names collide), an [Inductive] the constructors of the enum, and a function the
    name of the Rust function where that is free; the doc comments say where it is
    not.

    ** What the theorems show

    - Ownership and durability (C1 to C10): under any interleaving of host processes
      and any faults, ownership changes hands only after the lease has run out
      ([Safety]: C5, C6, C7). A commit is acknowledged only if it was kept before the
      lease ran out of a record of its epoch and session that the bucket holds or has
      held, and a takeover of an unsealed record with a lease at least as long adopts
      a base at least as new (C1); a takeover keeps what was stored before the lease
      expired (C2). The answer of an invocation whose transaction is new means that
      its commit is kept so (C3), and without append logs the head of a running
      database has a complete history ([Durability]: C4). The request completed last
      is answered again and not run again when it is retried next (C10). A host that
      says it has authority has a live lease, renewals and other tasks at work
      meanwhile ([HostStorage]: C8), and a request is answered with a result only when
      that is so ([ActorHostSafety]: C9). The world has a log of all writes with their
      times, so that "was recorded" and "was kept before" are facts of the world at
      hand; [own_inv] and [local_inv] of [Ownership] (records are well-formed, and a
      process remembers only records the bucket has held) hold at the start and are
      kept by every operation.
    - Errors (C11, C12): however often an invocation is sent again it runs at most
      once, is reported as not executed only if it did not run, and otherwise with the
      answer to its last try ([DispatchSafety]); a failed launch that does not say its
      outcome is unknown has started nothing ([AssignmentSafety]).
    - The mailbox and its database (C13 to C16): requests are answered exactly once
      and in order, one at a time, with progress; interleaved completions are
      published without gaps; lease maintenance runs on only inside the window it
      confirmed last.
    - Stores (C17 to C20, C34): after any appends every replica holds the acknowledged
      records and at most a part of one more, a fencing read is final, restoring a
      commit ends with a complete history, the file bucket refines the contract of the
      [Bucket] trait, the archive is one log.
    - Routing, credentials, configuration (C21 to C25): where a request goes, what a
      token and a storage credential open, and that a host becomes what was asked.
    - Alarms, executor, sockets (C26 to C33): deliveries that start soon after their
      claim exclude each other and alarms are not lost; replies and database calls
      stay with their invocation; browser events keep their order, with nothing after
      the end unless a handler outlives its five seconds; connections see exactly
      their effects, by a specification of one connection alone.
    - Pages of the request history (C35), limits of the pool (C36, C37), usage and
      residency (C38, C39), the commit format (C40).
    - Further theorems without a number: the archive queue ([RapidArchiver]), log
      sessions ([RapidSessionSafety]), indexes ([RapidIndex]), one process per actor
      on the development server ([LocalHosts]), the log histogram
      ([TelemetrySafety]), and those the listed ones rest on.

    ** Assumptions and bounds

    - [usize] is 64 bits wide. Machine integers are [N] or [Z] with the checked,
      wrapping or saturating operation of the source; [f64] is [SpecFloat].
    - The contract of the operations of storage and clock is [step] of [Effects]:
      each may fail, or take effect and lose its answer. Clocks are synchronized and
      do not go back; [Instant] is a monotonic count. Faults of the local file
      system are not modelled, nor panics and poisoned locks.
    - SHA-256, Base64, JSON, UUIDs, URLs, socket addresses, JWT signatures, SQLite,
      Litestream, Redis and Pub/Sub are third-party code: operations of a class or
      arguments, with documented laws as hypotheses where a theorem needs them.
      Every theorem with such a hypothesis has a witness with a concrete instance.
      C24 excludes colliding digests by hypothesis; the retries of C26 and C27 bound
      the jitter of the backoff library.
    - What other tasks do between two steps is an argument ([others], a program over
      the session they share), an event list or the environment of [wp]; background tasks advance when they are polled.
      Iteration orders of hash maps and caches are arguments or do not matter. SQL
      tables are lists of rows, a statement is one step.
    - Fuel: the routing loop has 121 turns, its 30 seconds at 250 ms; the reader of
      the executor has one unit more than the stream is long; publishing ready
      completions has one per waiting completion; the archive worker runs as many
      turns as the caller gives it, and its theorems hold for any. Loops of dispatch
      and of a session are functions of the list of their rounds or events.
    - Timings, metrics, log lines and trace records of the modelled handlers are left
      out, except where telemetry itself is the subject.

    ** Not modelled

    Calls of cloud services and servers (bucket/gcs.rs, bucket/rapid/gcs.rs,
    the Redis and PostgreSQL clients, sandbox/gke, sandbox/modal.rs,
    sandbox/secrets.rs, actor_lifecycle/pubsub.rs, request_traces/persistence/clickhouse):
    their text is queries and client calls, and their documented behaviour is what
    the models above assume. Wiring and process entry (main.rs, lib.rs,
    control_plane/process.rs, the rest of host/process.rs), endpoints that forward
    one call or render a page (control_plane/inspection.rs, contract_api.rs,
    discovery.rs, the listing endpoints of admin.rs and public_api.rs), the builder
    and watcher of the development server (control_plane/local.rs, local_build.rs,
    local_watch.rs), and the live feeds and metrics queries of the traces: they keep
    no state of an actor and decide nothing about one. *)

From Stdlib.Strings Require Export Byte.
From Stdlib Require Export NArith Lia.
From stdpp Require Export base gmap strings numbers option.
From stdpp Require Export list.

(** ** Bytes

    Rust's [String], [&str], [Bytes] and [Vec<u8>] are all sequences of bytes
    here, so [len()] is [length] and concatenation is [++]; a literal is written
    as in the source, [b"RLG1"]. *)

Abbreviation bytes := (list byte).

Definition b (s : string) : bytes := String.list_byte_of_string s.
Arguments b s%_string.

#[global] Instance byte_eq_decision : EqDecision byte := Byte.byte_eq_dec.

#[global] Instance byte_countable : Countable byte :=
  inj_countable Byte.to_N Byte.of_N Byte.of_to_N.

(** Length as the unsigned number the Rust code computes with. *)
Definition len {A} (l : list A) : N := N.of_nat (length l).

(** Rust's [&l[start..]] and [&l[..end]] with numeric bounds. *)
Definition takeN {A} (n : N) (l : list A) : list A := take (N.to_nat n) l.
Definition dropN {A} (n : N) (l : list A) : list A := drop (N.to_nat n) l.
Definition sliceN {A} (lo hi : N) (l : list A) : list A := takeN (hi - lo) (dropN lo l).

(** ** Errors

    [anyhow::Result]: an error carries the message of the failing check. *)

Inductive result (A : Type) : Type :=
| Ok (a : A)
| Err (e : string).
Arguments Ok {A} a.
Arguments Err {A} e%_string.

#[global] Instance result_ret : MRet result := @Ok.
#[global] Instance result_bind : MBind result := λ A B f m,
  match m with Ok a => f a | Err e => Err e end.
#[global] Instance result_fmap : FMap result := λ A B f m,
  match m with Ok a => Ok (f a) | Err e => Err e end.

(** [ensure!(condition, "message")] *)
Definition ensure (c : bool) (msg : string) : result unit :=
  if c then Ok () else Err msg.
Arguments ensure c msg%_string.

(** [option.context("message")] *)
Definition ctx {A} (o : option A) (msg : string) : result A :=
  match o with Some a => Ok a | None => Err msg end.
Arguments ctx {A} o msg%_string.

Definition is_ok {A} (r : result A) : bool :=
  match r with Ok _ => true | Err _ => false end.

(** [Result::ok] *)
Definition ok {A} (r : result A) : option A :=
  match r with Ok a => Some a | Err _ => None end.

(** Iteration with early exit: [for x in l { ... ? }]. *)
Fixpoint foldM {S A} (f : S → A → result S) (s : S) (l : list A) : result S :=
  match l with
  | [] => Ok s
  | x :: l => s' ← f s x; foldM f s' l
  end.

Fixpoint mapR {A B} (f : A → result B) (l : list A) : result (list B) :=
  match l with
  | [] => Ok []
  | x :: l => y ← f x; ys ← mapR f l; Ok (y :: ys)
  end.

(** ** Machine integers

    A [u64] (and, on the 64-bit targets the service runs on, a [usize]) is an
    [N] below [2^64]; every operation that can overflow in the source is written
    with the checked, wrapping or saturating function the source calls. *)

Definition u32_max : N := 4294967295.
Definition u64_max : N := 18446744073709551615.
Definition i64_max : Z := 9223372036854775807.

Definition is_u64 (n : N) : Prop := (n ≤ u64_max)%N.

(** [u64::checked_add], [u64::checked_sub], [saturating_add], [saturating_sub] *)
Definition checked_add (x y : N) : option N :=
  if (x + y <=? u64_max)%N then Some (x + y)%N else None.
Definition checked_sub (x y : N) : option N :=
  if (y <=? x)%N then Some (x - y)%N else None.
(** Arithmetic of a release build. *)
Definition wrap_u64 (n : N) : N := (n mod 18446744073709551616)%N.
Definition saturating_add (x y : N) : N := N.min (x + y) u64_max.
Definition saturating_sub (x y : N) : N := (x - y)%N.

(** [i64::checked_add] on non-negative operands. *)
Definition checked_add_i64 (x y : Z) : option Z :=
  if (x + y <=? i64_max)%Z then Some (x + y)%Z else None.

Declare Scope rust_scope.
Delimit Scope rust_scope with rust.
Notation "x == y" := (bool_decide (x = y)) (at level 70, no associativity) : rust_scope.
Notation "x != y" := (negb (bool_decide (x = y))) (at level 70, no associativity) : rust_scope.
Open Scope rust_scope.

(** ** Automation *)

Create HintDb rust.

Lemma bind_Ok {A B} (m : result A) (f : A → result B) y :
  m ≫= f = Ok y ↔ ∃ x, m = Ok x ∧ f x = Ok y.
Proof. destruct m; simpl; naive_solver. Qed.

Lemma ensure_Ok c msg u : ensure c msg = Ok u ↔ c = true.
Proof. unfold ensure. destruct c, u; naive_solver. Qed.

Lemma ctx_Ok {A} (o : option A) msg a : ctx o msg = Ok a ↔ o = Some a.
Proof. unfold ctx. destruct o; naive_solver. Qed.

Lemma fmap_Ok {A B} (f : A → B) (m : result A) y :
  f <$> m = Ok y ↔ ∃ x, m = Ok x ∧ y = f x.
Proof. destruct m; simpl; naive_solver. Qed.

Lemma ok_Some {A} (r : result A) a : ok r = Some a ↔ r = Ok a.
Proof. destruct r; simpl; naive_solver. Qed.

Lemma checked_add_Some x y z :
  checked_add x y = Some z ↔ z = (x + y)%N ∧ (x + y ≤ u64_max)%N.
Proof. unfold checked_add. destruct (N.leb_spec (x + y) u64_max); naive_solver lia. Qed.

Lemma checked_sub_Some x y z :
  checked_sub x y = Some z ↔ (y ≤ x)%N ∧ z = (x - y)%N.
Proof. unfold checked_sub. destruct (N.leb_spec y x); naive_solver lia. Qed.

(** Turns the hypotheses that say a chain of [?] returned into the facts each
    check established. *)
Ltac inv_ok :=
  repeat match goal with
  | H : mbind _ _ = Ok _ |- _ => apply bind_Ok in H as (? & ? & ?)
  | H : fmap _ _ = Ok _ |- _ => apply fmap_Ok in H as (? & ? & ?)
  | H : ensure _ _ = Ok _ |- _ => apply ensure_Ok in H
  | H : ctx _ _ = Ok _ |- _ => apply ctx_Ok in H
  | H : Ok _ = Ok _ |- _ => injection H as H
  | H : Err _ = Ok _ |- _ => discriminate H
  | H : mret _ = Ok _ |- _ => injection H as H
  | H : checked_add _ _ = Some _ |- _ => apply checked_add_Some in H as [? ?]
  | H : checked_sub _ _ = Some _ |- _ => apply checked_sub_Some in H as [? ?]
  | H : andb _ _ = true |- _ => apply andb_true_iff in H as [? ?]
  | H : bool_decide _ = true |- _ => apply bool_decide_eq_true in H
  | H : negb _ = true |- _ => apply negb_true_iff in H
  | H : bool_decide _ = false |- _ => apply bool_decide_eq_false in H
  | H : (_ <? _)%N = true |- _ => apply N.ltb_lt in H
  | H : (_ <=? _)%N = true |- _ => apply N.leb_le in H
  | H : (_ <? _)%N = false |- _ => apply N.ltb_ge in H
  | H : (_ <=? _)%N = false |- _ => apply N.leb_gt in H
  | H : (_ =? _)%N = true |- _ => apply N.eqb_eq in H
  end.

(** Right-nests appends and pushes heads out of them. *)
Ltac norm_app :=
  repeat first [rewrite <- app_assoc | rewrite <- app_comm_cons | rewrite app_nil_l].

(** Walks a call that is known to return forward: every check is discharged by
    rewriting with the hypothesis that its condition holds. *)
Ltac step_ok := simpl; unfold mbind, result_bind; simpl.

(** A call is known by its answer. *)
Lemma answer_of {A B} (p : A * B) a : fst p = a → p = (a, snd p).
Proof. destruct p. simpl. by intros <-. Qed.

(** ** Lists *)

Lemma forallb_Forall {A} (f : A → bool) l : forallb f l = true ↔ Forall (λ x, f x = true) l.
Proof.
  induction l as [|x l IH]; simpl; [by split|].
  by rewrite andb_true_iff, Forall_cons, IH.
Qed.

Lemma existsb_false {A} (f : A → bool) l : existsb f l = false ↔ Forall (λ x, f x = false) l.
Proof.
  induction l as [|x l IH]; simpl; [by split|].
  by rewrite orb_false_iff, Forall_cons, IH.
Qed.

Lemma Forall_not_elem {A} (P : A → Prop) l x : Forall P l → ¬ P x → x ∉ l.
Proof. rewrite Forall_forall. naive_solver. Qed.

Lemma len_app {A} (l k : list A) : len (l ++ k) = (len l + len k)%N.
Proof. unfold len. rewrite length_app. lia. Qed.

Lemma len_nil {A} : len (@nil A) = 0%N.
Proof. done. Qed.

Lemma len_cons {A} (x : A) l : len (x :: l) = (1 + len l)%N.
Proof. unfold len. simpl. lia. Qed.

Lemma to_nat_len {A} (l : list A) : N.to_nat (len l) = length l.
Proof. unfold len. lia. Qed.

Lemma takeN_app {A} (l k : list A) : takeN (len l) (l ++ k) = l.
Proof. unfold takeN. rewrite to_nat_len. apply take_app_length. Qed.

Lemma dropN_app {A} (l k : list A) : dropN (len l) (l ++ k) = k.
Proof. unfold dropN. rewrite to_nat_len. apply drop_app_length. Qed.

Lemma takeN_app_eq {A} n (l k : list A) : n = len l → takeN n (l ++ k) = l.
Proof. intros ->. apply takeN_app. Qed.

Lemma dropN_app_eq {A} n (l k : list A) : n = len l → dropN n (l ++ k) = k.
Proof. intros ->. apply dropN_app. Qed.

Lemma takeN_dropN {A} n (l : list A) : takeN n l ++ dropN n l = l.
Proof. apply take_drop. Qed.

Lemma len_takeN {A} n (l : list A) : len (takeN n l) = N.min n (len l).
Proof. unfold len, takeN. rewrite length_take. lia. Qed.

Lemma len_dropN {A} n (l : list A) : len (dropN n l) = (len l - n)%N.
Proof. unfold len, dropN. rewrite length_drop. lia. Qed.

Lemma takeN_all {A} n (l : list A) : (len l ≤ n)%N → takeN n l = l.
Proof. unfold len, takeN. intros. apply take_ge. lia. Qed.

Lemma dropN_all {A} n (l : list A) : (len l ≤ n)%N → dropN n l = [].
Proof. unfold len, dropN. intros. apply drop_ge. lia. Qed.

Lemma dropN_dropN {A} n m (l : list A) : dropN n (dropN m l) = dropN (m + n) l.
Proof. unfold dropN. rewrite drop_drop. f_equal. lia. Qed.

Lemma takeN_add {A} n m (l : list A) : takeN (n + m) l = takeN n l ++ takeN m (dropN n l).
Proof.
  unfold takeN, dropN. rewrite N2Nat.inj_add. symmetry. apply take_take_drop.
Qed.

Lemma dropN_0 {A} (l : list A) : dropN 0 l = l.
Proof. done. Qed.

Lemma sliceN_0 {A} n (l : list A) : sliceN 0 n l = takeN n l.
Proof. unfold sliceN. rewrite dropN_0. f_equal. lia. Qed.

Lemma sliceN_app {A} (l k m : list A) lo hi :
  lo = len l → hi = (len l + len k)%N → sliceN lo hi (l ++ k ++ m) = k.
Proof.
  intros -> ->. unfold sliceN. rewrite dropN_app.
  replace (len l + len k - len l)%N with (len k) by lia. apply takeN_app.
Qed.

Lemma len_sliceN {A} lo hi (l : list A) :
  (hi ≤ len l)%N → len (sliceN lo hi l) = (hi - lo)%N.
Proof. intros. unfold sliceN. rewrite len_takeN, len_dropN. lia. Qed.

Lemma sliceN_add {A} lo mid hi (l : list A) :
  (lo ≤ mid)%N → (mid ≤ hi)%N → sliceN lo hi l = sliceN lo mid l ++ sliceN mid hi l.
Proof.
  intros. unfold sliceN. replace (hi - lo)%N with ((mid - lo) + (hi - mid))%N by lia.
  rewrite takeN_add, dropN_dropN. do 3 f_equal. lia.
Qed.

Lemma sliceN_empty {A} lo (l : list A) : sliceN lo lo l = [].
Proof. unfold sliceN. by rewrite N.sub_diag. Qed.

#[export] Hint Rewrite @len_app @len_nil @len_cons @len_takeN @len_dropN @takeN_app
  @dropN_app @dropN_0 : rust.
