(* ===== verification/Text.v ===== *)
(** * Rust's string and number primitives

    The slice of [str], [u64] and [u32] that the sources call: prefix and suffix
    stripping, splitting, decimal and hexadecimal printing and parsing, and the
    little- and big-endian byte images, each with the round-trip lemmas the
    codecs and object names of the other files rest on. *)

From S2P Require Import Prelude.
Local Open Scope N_scope.

(** ** Characters *)

Definition byte_in (lo hi : N) (x : byte) : bool :=
  (lo <=? Byte.to_N x) && (Byte.to_N x <=? hi).

Definition is_ascii_digit : byte → bool := byte_in 48 57.
Definition is_ascii_lowercase : byte → bool := byte_in 97 122.
Definition is_ascii_uppercase : byte → bool := byte_in 65 90.
Definition is_ascii_alphanumeric (x : byte) : bool :=
  is_ascii_digit x || is_ascii_lowercase x || is_ascii_uppercase x.
Definition is_ascii_hexdigit (x : byte) : bool :=
  is_ascii_digit x || byte_in 97 102 x || byte_in 65 70 x.

(** [s.chars().any(char::is_control)] on UTF-8 text: the C0 range, DEL, and the
    C1 range U+0080..U+009F, whose encodings are [C2 80] .. [C2 9F]. *)
Fixpoint any_control (s : bytes) : bool :=
  match s with
  | [] => false
  | x :: s' =>
      byte_in 0 31 x || bool_decide (x = x7f)
      || (bool_decide (x = xc2) && match s' with y :: _ => byte_in 128 159 y | [] => false end)
      || any_control s'
  end.

(** [String::from_utf8]: well-formed UTF-8, without overlong forms, surrogates or
    code points above U+10FFFF. *)
Fixpoint utf8_valid (s : bytes) : bool :=
  let cont := byte_in 128 191 in
  match s with
  | [] => true
  | x :: s1 =>
      if byte_in 0 127 x then utf8_valid s1
      else match s1 with
      | [] => false
      | y :: s2 =>
          if byte_in 194 223 x then cont y && utf8_valid s2
          else match s2 with
          | [] => false
          | z :: s3 =>
              if byte_in 224 239 x then
                cont y && cont z
                && (if decide (x = xe0) then byte_in 160 191 y else true)
                && (if decide (x = xed) then byte_in 128 159 y else true)
                && utf8_valid s3
              else match s3 with
              | [] => false
              | t :: s4 =>
                  byte_in 240 244 x && cont y && cont z && cont t
                  && (if decide (x = xf0) then byte_in 144 191 y else true)
                  && (if decide (x = xf4) then byte_in 128 143 y else true)
                  && utf8_valid s4
              end
          end
      end
  end.

(** Characters with the Unicode [White_Space] property, as UTF-8. *)
Definition white_space : list bytes :=
  [[x09]; [x0a]; [x0b]; [x0c]; [x0d]; [x20]; [xc2; x85]; [xc2; xa0]; [xe1; x9a; x80];
   [xe2; x80; x80]; [xe2; x80; x81]; [xe2; x80; x82]; [xe2; x80; x83]; [xe2; x80; x84];
   [xe2; x80; x85]; [xe2; x80; x86]; [xe2; x80; x87]; [xe2; x80; x88]; [xe2; x80; x89];
   [xe2; x80; x8a]; [xe2; x80; xa8]; [xe2; x80; xa9]; [xe2; x80; xaf]; [xe2; x81; x9f];
   [xe3; x80; x80]].

(** ** Searching and splitting *)

Fixpoint strip_prefix (p s : bytes) : option bytes :=
  match p, s with
  | [], _ => Some s
  | x :: p, y :: s => if decide (x = y) then strip_prefix p s else None
  | _ :: _, [] => None
  end.

Definition starts_with (p s : bytes) : bool := bool_decide (is_Some (strip_prefix p s)).

Definition strip_suffix (p s : bytes) : option bytes :=
  let n := (length s - length p)%nat in
  if decide (drop n s = p) then Some (take n s) else None.

Definition ends_with (p s : bytes) : bool := bool_decide (is_Some (strip_suffix p s)).

(** [s.trim() == s] on UTF-8 text: neither the first nor the last character is
    white space. *)
Definition is_trimmed (s : bytes) : bool :=
  forallb (λ w, negb (starts_with w s) && negb (ends_with w s)) white_space.

(** [s.split(c)]: never empty; [""] gives one empty part. *)
Fixpoint split (c : byte) (s : bytes) : list bytes :=
  match s with
  | [] => [[]]
  | x :: s =>
      if decide (x = c) then [] :: split c s
      else match split c s with [] => [[x]] | p :: ps => (x :: p) :: ps end
  end.

Definition rsplit (c : byte) (s : bytes) : list bytes := reverse (split c s).

Fixpoint split_once (c : byte) (s : bytes) : option (bytes * bytes) :=
  match s with
  | [] => None
  | x :: s =>
      if decide (x = c) then Some ([], s)
      else '(l, r) ← split_once c s; Some (x :: l, r)
  end.

Definition rsplit_once (c : byte) (s : bytes) : option (bytes * bytes) :=
  '(l, r) ← split_once c (reverse s); Some (reverse r, reverse l).

(** [s.splitn(n, c)] *)
Fixpoint splitn (n : nat) (c : byte) (s : bytes) : list bytes :=
  match n with
  | O => []
  | S O => [s]
  | S n => match split_once c s with Some (l, r) => l :: splitn n c r | None => [s] end
  end.

(** [parts.join("/")] *)
Fixpoint join (c : byte) (ps : list bytes) : bytes :=
  match ps with
  | [] => []
  | [p] => p
  | p :: ps => p ++ c :: join c ps
  end.

(** [s.replace(c, d)] on single characters. *)
Definition replace_char (c d : byte) (s : bytes) : bytes :=
  (λ x, if decide (x = c) then d else x) <$> s.

(** [s.replace(from, to)] for a non-empty [from]; one unit of fuel per byte. *)
Fixpoint replace_fuel (fuel : nat) (from to s : bytes) : bytes :=
  match fuel, s with
  | O, _ | _, [] => s
  | S fuel, x :: s' =>
      match strip_prefix from s with
      | Some rest => to ++ replace_fuel fuel from to rest
      | None => x :: replace_fuel fuel from to s'
      end
  end.
Definition replace_str (from to s : bytes) : bytes := replace_fuel (length s) from to s.

(** [s.replacen(from, to, 1)] *)
Fixpoint replace_first (from to s : bytes) : bytes :=
  match strip_prefix from s with
  | Some rest => to ++ rest
  | None => match s with [] => [] | x :: s' => x :: replace_first from to s' end
  end.

(** [s.trim_end_matches(suffix)]; one unit of fuel per byte. *)
Fixpoint trim_end_fuel (fuel : nat) (p s : bytes) : bytes :=
  match fuel with
  | O => s
  | S fuel => match strip_suffix p s with Some s' => trim_end_fuel fuel p s' | None => s end
  end.
Definition trim_end_matches (p s : bytes) : bytes := trim_end_fuel (length s) p s.

(** ** Numbers as text *)

Definition digit_byte (d : N) : byte :=
  default x00 (Byte.of_N (if d <? 10 then 48 + d else 87 + d)).

(** [char::to_digit] for radix 10 and 16: both letter cases are accepted. *)
Definition byte_digit (base : N) (x : byte) : option N :=
  let n := Byte.to_N x in
  let d := if byte_in 48 57 x then Some (n - 48)
           else if byte_in 97 122 x then Some (n - 87)
           else if byte_in 65 90 x then Some (n - 55) else None in
  match d with Some d => if d <? base then Some d else None | None => None end.

(** Digits of [n], least significant first; [N.size_nat n + 1] steps suffice. *)
Fixpoint digits_le (fuel : nat) (base n : N) : list N :=
  match fuel with
  | O => []
  | S fuel => n mod base :: (if n <? base then [] else digits_le fuel base (n / base))
  end.

Definition show (base n : N) : bytes :=
  digit_byte <$> reverse (digits_le (S (N.size_nat n)) base n).

(** [format!("{n}")], [format!("{n:x}")] *)
Definition show_dec : N → bytes := show 10.
Definition show_hex : N → bytes := show 16.

(** [format!("{:0w$}")]: zero padding on the left up to width [w]. *)
Definition pad (w : nat) (s : bytes) : bytes := replicate (w - length s)%nat x30 ++ s.

(** [u64::from_str_radix]: an optional leading [+], then at least one digit, each
    step checked for overflow. [str::parse::<u64>] is the radix 10 case. *)
Definition parse_step (base : N) (acc : option N) (x : byte) : option N :=
  a ← acc; d ← byte_digit base x;
  if a * base + d <=? u64_max then Some (a * base + d) else None.

Definition parse_digits (base : N) (s : bytes) : option N :=
  foldl (parse_step base) (Some 0) s.

Definition from_str_radix (base : N) (s : bytes) : option N :=
  let s := match s with x2b :: ((_ :: _) as s') => s' | _ => s end in
  match s with [] => None | _ => parse_digits base s end.

Definition parse_u64 : bytes → option N := from_str_radix 10.

(** ** Fixed-width byte images *)

Definition byte_of (n : N) : byte := default x00 (Byte.of_N (n mod 256)).

(** [uN::to_le_bytes] and [uN::from_le_bytes] at a width in bytes. *)
Fixpoint to_le_bytes (w : nat) (n : N) : bytes :=
  match w with O => [] | S w => byte_of n :: to_le_bytes w (n / 256) end.

Fixpoint from_le_bytes (s : bytes) : N :=
  match s with [] => 0 | x :: s => Byte.to_N x + 256 * from_le_bytes s end.

(** [to_be_bytes] and [from_be_bytes]. *)
Definition to_be_bytes (w : nat) (n : N) : bytes := reverse (to_le_bytes w n).
Definition from_be_bytes (s : bytes) : N := from_le_bytes (reverse s).

(** ** Lemmas *)

Lemma strip_prefix_app p s : strip_prefix p (p ++ s) = Some s.
Proof. induction p as [|x p IH]; simpl; [done|]. by rewrite decide_True. Qed.

Lemma strip_prefix_Some p s r : strip_prefix p s = Some r ↔ s = p ++ r.
Proof.
  split; [|intros ->; apply strip_prefix_app].
  revert s; induction p as [|x p IH]; intros [|y s]; simpl; try naive_solver.
  case_decide; [|done]. intros ?%IH. naive_solver.
Qed.

Lemma strip_prefix_None p s : strip_prefix p s = None ↔ ¬ p `prefix_of` s.
Proof.
  split.
  - intros H [r ->]. by rewrite strip_prefix_app in H.
  - intros H. destruct (strip_prefix p s) as [r|] eqn:E; [|done].
    apply strip_prefix_Some in E as ->. destruct H. by exists r.
Qed.

Lemma starts_with_spec p s : starts_with p s = true ↔ p `prefix_of` s.
Proof.
  unfold starts_with. rewrite bool_decide_eq_true. split.
  - intros [r Hr]. apply strip_prefix_Some in Hr as ->. by exists r.
  - intros [r ->]. rewrite strip_prefix_app. by exists r.
Qed.

Lemma starts_with_app p s : starts_with p (p ++ s) = true.
Proof. apply starts_with_spec. by exists s. Qed.

Lemma strip_suffix_app p s : strip_suffix p (s ++ p) = Some s.
Proof.
  unfold strip_suffix. rewrite length_app, Nat.add_sub, drop_app_length.
  by rewrite decide_True, take_app_length.
Qed.

Lemma strip_suffix_Some p s r : strip_suffix p s = Some r ↔ s = r ++ p.
Proof.
  split; [|intros ->; apply strip_suffix_app].
  unfold strip_suffix. case_decide as E; [|done].
  intros [= <-]. rewrite <- E at 2. by rewrite take_drop.
Qed.

Lemma split_nonempty c s : split c s ≠ [].
Proof. destruct s; simpl; [done|]. case_decide; [done|]. by destruct (split _ _). Qed.

Lemma split_no_sep c s : c ∉ s → split c s = [s].
Proof.
  induction s as [|x s IH]; simpl; [done|]. rewrite not_elem_of_cons. intros [? ?].
  rewrite decide_False by done. by rewrite IH.
Qed.

Lemma split_app_sep c p s : c ∉ p → split c (p ++ c :: s) = p :: split c s.
Proof.
  induction p as [|x p IH]; simpl.
  - intros _. by rewrite decide_True.
  - rewrite not_elem_of_cons. intros [? ?]. rewrite decide_False by done. by rewrite IH.
Qed.

Lemma join_split c s : join c (split c s) = s.
Proof.
  induction s as [|x s IH]; simpl; [done|]. case_decide as E.
  - subst x. simpl. destruct (split c s) eqn:Es; [by apply split_nonempty in Es|].
    by rewrite IH.
  - destruct (split c s) as [|p ps] eqn:Es; [by apply split_nonempty in Es|].
    destruct ps; simpl in *; by rewrite IH.
Qed.

Lemma split_once_app c p s : c ∉ p → split_once c (p ++ c :: s) = Some (p, s).
Proof.
  induction p as [|x p IH]; simpl.
  - intros _. by rewrite decide_True.
  - rewrite not_elem_of_cons. intros [? ?]. rewrite decide_False by done.
    by rewrite IH.
Qed.

Lemma rsplit_once_app c p s : c ∉ s → rsplit_once c (p ++ c :: s) = Some (p, s).
Proof.
  intros Hs. unfold rsplit_once. rewrite reverse_app, reverse_cons, <- app_assoc. simpl.
  rewrite split_once_app by (by rewrite elem_of_reverse).
  simpl. by rewrite !reverse_involutive.
Qed.

Lemma split_once_Some c s l r : split_once c s = Some (l, r) → s = l ++ c :: r ∧ c ∉ l.
Proof.
  revert l r; induction s as [|x s IH]; intros l r; simpl; [done|].
  case_decide as E; [intros [= <- <-]; subst; split; [done|apply not_elem_of_nil]|].
  destruct (split_once c s) as [[l' r']|]; [|done]. simpl. intros [= <- <-].
  destruct (IH l' r' eq_refl) as [-> ?]. split; [done|]. by rewrite not_elem_of_cons.
Qed.

Lemma split_app_rev c p s : c ∉ s → rsplit c (p ++ c :: s) = s :: rsplit c p.
Proof.
  intros Hs. unfold rsplit.
  assert (split c (p ++ c :: s) = split c p ++ [s]) as ->; [|by rewrite reverse_app].
  induction p as [|x p IH]; simpl.
  - by rewrite decide_True, split_no_sep.
  - case_decide; simpl; rewrite IH; [done|].
    destruct (split c p) as [|q qs] eqn:Ep; [by apply split_nonempty in Ep|done].
Qed.

(** *** Digits *)

Lemma digit_byte_digit base d :
  d < base → base ≤ 16 → byte_digit base (digit_byte d) = Some d.
Proof.
  intros Hd Hb. assert (d < 16) as Hd' by lia.
  assert (byte_digit 16 (digit_byte d) = Some d) as H.
  { assert (∃ n, d = N.of_nat n ∧ (n < 16)%nat) as (n & -> & Hn)
      by (exists (N.to_nat d); lia).
    do 16 (destruct n as [|n]; [reflexivity|]). lia. }
  unfold byte_digit in *.
  repeat (case_match; simplify_eq; try done);
    repeat match goal with H : (_ <? _) = false |- _ => apply N.ltb_ge in H end; lia.
Qed.

Lemma digits_le_value fuel base n :
  2 ≤ base → n < 2 ^ N.of_nat fuel →
  foldr (λ d a, a * base + d) 0 (digits_le (S fuel) base n) = n.
Proof.
  intros Hb. revert n; induction fuel as [|fuel IH]; intros n Hn.
  - simpl. assert (n = 0) as -> by (simpl in Hn; lia).
    rewrite N.Div0.mod_0_l. destruct (N.ltb_spec 0 base); [done|lia].
  - remember (S fuel) as f. simpl. destruct (N.ltb_spec n base); simpl.
    + rewrite N.mod_small by done. lia.
    + subst f. rewrite IH.
      * rewrite (N.div_mod n base) at 3 by lia. lia.
      * apply N.Div0.div_lt_upper_bound.
        rewrite Nat2N.inj_succ, N.pow_succ_r' in Hn. nia.
Qed.

Lemma digits_le_lt fuel base n : 0 < base → Forall (λ d, d < base) (digits_le fuel base n).
Proof.
  intros Hb. revert n; induction fuel; intros n; simpl; constructor.
  - by apply N.mod_lt; lia.
  - case_match; [constructor|auto].
Qed.

Lemma digits_le_nonempty fuel base n : digits_le (S fuel) base n ≠ [].
Proof. done. Qed.

Lemma size_nat_bound n : n < 2 ^ N.of_nat (N.size_nat n).
Proof.
  pose proof (N.size_gt n) as H.
  replace (N.of_nat (N.size_nat n)) with (N.size n); [done|].
  destruct n as [|p]; [done|]. clear H. unfold N.size, N.size_nat.
  induction p as [p IH|p IH|]; cbn [Pos.size Pos.size_nat]; [..|done];
    by rewrite Nat2N.inj_succ, <- IH.
Qed.

Lemma show_value base n :
  2 ≤ base → foldr (λ d a, a * base + d) 0 (digits_le (S (N.size_nat n)) base n) = n.
Proof. intros. apply digits_le_value; [done|apply size_nat_bound]. Qed.

Lemma parse_digits_le base (ds : list N) :
  1 ≤ base ≤ 16 → Forall (λ d, d < base) ds →
  foldr (λ d a, a * base + d) 0 ds ≤ u64_max →
  parse_digits base (digit_byte <$> reverse ds) = Some (foldr (λ d a, a * base + d) 0 ds).
Proof.
  intros Hb. induction ds as [|d ds IH]; intros Hf Hv; [done|].
  apply Forall_cons in Hf as [Hd Hf]. simpl in Hv.
  unfold parse_digits in *. simpl.
  set (v := foldr _ 0 ds) in *.
  assert (v * 1 ≤ v * base) by (apply N.mul_le_mono_l; lia).
  rewrite reverse_cons, fmap_app, foldl_app, IH; [|done|lia].
  simpl. rewrite digit_byte_digit by lia. simpl.
  destruct (N.leb_spec (v * base + d) u64_max); [done|lia].
Qed.

(** Digits that parse at all parse to their value. *)
Lemma parse_digits_le_inv base (ds : list N) m :
  1 ≤ base ≤ 16 → Forall (λ d, d < base) ds →
  parse_digits base (digit_byte <$> reverse ds) = Some m → m = foldr (λ d a, a * base + d) 0 ds.
Proof.
  intros Hb. revert m; induction ds as [|d ds IH]; intros m Hf; [by intros [= <-]|].
  apply Forall_cons in Hf as [Hd Hf]. unfold parse_digits in *.
  rewrite reverse_cons, fmap_app, foldl_app. cbn [foldl fmap list_fmap].
  unfold parse_step at 1. intros (a & Ha & Hm)%bind_Some. rewrite digit_byte_digit in Hm by lia.
  simpl in Hm. case_match; [|done]. injection Hm as <-. simpl. by rewrite (IH a).
Qed.

Lemma digit_byte_not_plus base d : d < base → base ≤ 16 → digit_byte d ≠ x2b.
Proof.
  intros Hd Hb E. pose proof (digit_byte_digit base d Hd Hb) as H. rewrite E in H.
  unfold byte_digit in H. simpl in H. done.
Qed.

Lemma show_nonempty base n : show base n ≠ [].
Proof.
  unfold show. intros H%(f_equal length). rewrite length_fmap, length_reverse in H.
  pose proof (digits_le_nonempty (N.size_nat n) base n). by destruct (digits_le _ _ _).
Qed.

Lemma show_digits base n : 2 ≤ base → base ≤ 16 →
  Forall (λ x, ∃ d, d < base ∧ x = digit_byte d) (show base n).
Proof.
  intros. unfold show. apply Forall_fmap, Forall_reverse.
  eapply Forall_impl; [apply (digits_le_lt _ base n); lia|]. simpl. eauto.
Qed.

Lemma from_str_radix_digits base s :
  base ≤ 16 → s ≠ [] → Forall (λ x, ∃ d, d < base ∧ x = digit_byte d) s →
  from_str_radix base s = parse_digits base s.
Proof.
  intros Hb Hne Hf. unfold from_str_radix. destruct s as [|x s]; [done|].
  apply Forall_cons in Hf as [(d & Hd & ->) _].
  pose proof (digit_byte_not_plus base d Hd Hb).
  destruct (digit_byte d); done.
Qed.

(** Printing then parsing is the identity on machine integers. *)
Lemma parse_show base n :
  2 ≤ base ≤ 16 → n ≤ u64_max → from_str_radix base (show base n) = Some n.
Proof.
  intros Hb Hn. rewrite from_str_radix_digits; [|lia|apply show_nonempty|apply show_digits; lia].
  unfold show. rewrite parse_digits_le, show_value; try done; try lia.
  - apply digits_le_lt; lia.
  - rewrite show_value; lia.
Qed.

Lemma parse_digits_zeros base k s :
  2 ≤ base ≤ 16 → parse_digits base (replicate k x30 ++ s) = parse_digits base s.
Proof.
  intros Hb. unfold parse_digits. rewrite foldl_app. f_equal.
  induction k as [|k IH]; simpl; [done|].
  replace (byte_digit base x30) with (Some 0); simpl.
  - rewrite N.add_0_r. exact IH.
  - symmetry. apply (digit_byte_digit base 0); lia.
Qed.

Lemma parse_show_pad base w n :
  2 ≤ base ≤ 16 → n ≤ u64_max → from_str_radix base (pad w (show base n)) = Some n.
Proof.
  intros Hb Hn. rewrite from_str_radix_digits.
  - unfold pad. rewrite parse_digits_zeros by done.
    rewrite <- from_str_radix_digits; [by apply parse_show|lia|apply show_nonempty|].
    apply show_digits; lia.
  - lia.
  - unfold pad. pose proof (show_nonempty base n). by destruct (replicate _ _), (show base n).
  - unfold pad. apply Forall_app. split; [|apply show_digits; lia].
    apply Forall_replicate. exists 0. split; [lia|done].
Qed.

Lemma parse_show_inv base n m :
  2 ≤ base ≤ 16 → from_str_radix base (show base n) = Some m → m = n.
Proof.
  intros Hb. rewrite from_str_radix_digits; [|lia|apply show_nonempty|apply show_digits; lia].
  unfold show. intros Hm%parse_digits_le_inv; [|lia|apply digits_le_lt; lia].
  by rewrite Hm, show_value by lia.
Qed.

Lemma parse_show_pad_inv base w n m :
  2 ≤ base ≤ 16 → from_str_radix base (pad w (show base n)) = Some m → m = n.
Proof.
  intros Hb. rewrite from_str_radix_digits.
  - unfold pad. rewrite parse_digits_zeros by done.
    rewrite <- from_str_radix_digits; [by apply parse_show_inv|lia|apply show_nonempty|].
    apply show_digits; lia.
  - lia.
  - unfold pad. pose proof (show_nonempty base n). by destruct (replicate _ _), (show base n).
  - unfold pad. apply Forall_app. split; [|apply show_digits; lia].
    apply Forall_replicate. exists 0. split; [lia|done].
Qed.

(** *** Byte images *)

Lemma to_N_byte_of n : Byte.to_N (byte_of n) = n mod 256.
Proof.
  unfold byte_of. assert (n mod 256 < 256) as H by (apply N.mod_lt; lia).
  destruct (Byte.of_N (n mod 256)) as [x|] eqn:E; simpl.
  - by apply Byte.to_of_N in E.
  - apply Byte.of_N_None_iff in E. lia.
Qed.

Lemma length_to_le_bytes w n : length (to_le_bytes w n) = w.
Proof. revert n; induction w; intros; simpl; [done|]. by rewrite IHw. Qed.

Lemma from_to_le_bytes w n : n < 256 ^ N.of_nat w → from_le_bytes (to_le_bytes w n) = n.
Proof.
  revert n; induction w as [|w IH]; intros n Hn; simpl.
  - simpl in Hn. lia.
  - rewrite to_N_byte_of, IH.
    + rewrite (N.div_mod n 256) at 3 by lia. lia.
    + apply N.Div0.div_lt_upper_bound. rewrite Nat2N.inj_succ, N.pow_succ_r' in Hn. lia.
Qed.

Lemma from_to_be_bytes w n : n < 256 ^ N.of_nat w → from_be_bytes (to_be_bytes w n) = n.
Proof.
  intros. unfold from_be_bytes, to_be_bytes. rewrite reverse_involutive.
  by apply from_to_le_bytes.
Qed.

Lemma from_le_bytes_bound s : from_le_bytes s < 256 ^ len s.
Proof.
  induction s as [|x s IH]; [done|]. rewrite len_cons. simpl.
  rewrite N.add_1_l, N.pow_succ_r'.
  pose proof (Byte.to_N_bounded x). lia.
Qed.

Lemma show_elem_digit base n x :
  2 ≤ base → base ≤ 16 → x ∈ show base n → is_ascii_hexdigit x = true.
Proof.
  intros Hb Hb' Hx. pose proof (show_digits base n Hb Hb') as Hf.
  rewrite Forall_forall in Hf. destruct (Hf x Hx) as (d & Hd & ->).
  assert (∃ k, d = N.of_nat k ∧ (k < 16)%nat) as (k & -> & Hk) by (exists (N.to_nat d); lia).
  do 16 (destruct k as [|k]; [reflexivity|]). lia.
Qed.

Lemma pad_elem w s x : x ∈ pad w s → x = x30 ∨ x ∈ s.
Proof.
  unfold pad. rewrite elem_of_app, elem_of_replicate. naive_solver.
Qed.

Lemma show_length base n k :
  2 ≤ base → n < base ^ N.of_nat k → (0 < k)%nat → (length (show base n) ≤ k)%nat.
Proof.
  intros Hb Hn Hk. unfold show. rewrite length_fmap, length_reverse.
  generalize (S (N.size_nat n)) as fuel. revert n Hn Hk.
  induction k as [|k IH]; intros n Hn Hk [|fuel]; simpl; try lia.
  destruct (N.ltb_spec n base); simpl; [lia|].
  destruct k as [|k]; [simpl in Hn; lia|].
  apply le_n_S, IH; [|lia]. apply N.Div0.div_lt_upper_bound.
  rewrite Nat2N.inj_succ, N.pow_succ_r' in Hn. lia.
Qed.

Lemma length_pad_show base w n :
  2 ≤ base → n < base ^ N.of_nat w → (0 < w)%nat → length (pad w (show base n)) = w.
Proof.
  intros Hb Hn Hw. unfold pad. rewrite length_app, length_replicate.
  pose proof (show_length base n w Hb Hn Hw). lia.
Qed.

Lemma byte_of_to_N x : byte_of (Byte.to_N x) = x.
Proof. by destruct x. Qed.

Lemma to_from_le_bytes s : to_le_bytes (length s) (from_le_bytes s) = s.
Proof.
  induction s as [|x s IH]; simpl; [done|]. pose proof (Byte.to_N_bounded x).
  rewrite N.mul_comm. f_equal.
  - rewrite <- (byte_of_to_N x) at 2. unfold byte_of at 1 2.
    by rewrite N.Div0.mod_add, N.mod_small by lia.
  - rewrite N.div_add, N.div_small by lia. exact IH.
Qed.

Lemma to_from_le_bytes_w w s : length s = w → to_le_bytes w (from_le_bytes s) = s.
Proof. intros <-. apply to_from_le_bytes. Qed.

(** * Third-party code the sources call

    SHA-256 ([aws_lc_rs]), Base64 ([base64]), JSON ([serde_json] with the derived
    [Serialize]/[Deserialize] implementations) and UUID parsing ([uuid]) are not
    part of the repository. They are operations of the classes below, and what
    the sources rely on is a class of laws apart, so that a definition never
    depends on a law and a theorem says which ones it needs. *)

(** [digest(&SHA256, bytes)] *)
Class Digest := sha256 : bytes → bytes.

(** A SHA-256 digest is 32 bytes. *)
Class DigestLaws `{Digest} := { sha256_length s : length (sha256 s) = 32%nat }.

(** [URL_SAFE_NO_PAD.encode] and [URL_SAFE_NO_PAD.decode] *)
Class Base64 := {
  b64_encode : bytes → bytes;
  b64_decode : bytes → option bytes;
}.

(** The URL-safe alphabet: letters, digits, [-] and [_]. *)
Definition b64_char (x : byte) : bool :=
  is_ascii_alphanumeric x || (x == x2d) || (x == x5f).

Class Base64Laws `{Base64} := {
  b64_decode_encode s : b64_decode (b64_encode s) = Some s;
  b64_alphabet s : Forall (λ x, b64_char x = true) (b64_encode s);
  b64_length s : (len (b64_encode s) ≤ 2 * len s)%N;
}.

(** [serde_json::to_vec] and [serde_json::from_slice] at one type. *)
Class Json (A : Type) := {
  to_json : A → bytes;
  from_json : bytes → option A;
}.

(** A value printed as JSON reads back as itself. *)
Class JsonLaws (A : Type) `{Json A} := {
  from_to_json (a : A) : from_json (to_json a) = Some a;
}.

(** [Uuid::parse_str] succeeds. *)
Class UuidParse := uuid_parse : bytes → bool.

Lemma b64_encode_inj `{Base64Laws} s t : b64_encode s = b64_encode t → s = t.
Proof. intros E%(f_equal b64_decode). rewrite !b64_decode_encode in E. by simplify_eq. Qed.

Lemma to_json_inj `{JsonLaws A} (x y : A) : to_json x = to_json y → x = y.
Proof. intros E%(f_equal from_json). rewrite !from_to_json in E. by simplify_eq. Qed.

Lemma b64_not_elem `{Base64Laws} s x : b64_char x = false → x ∉ b64_encode s.
Proof.
  intros Hx. eapply Forall_not_elem; [apply b64_alphabet|]. simpl. congruence.
Qed.
