(* ===== verification/Demo.v ===== *)
(** * Concrete stand-ins for the third-party code

    The witnesses of the theorems evaluate the model at concrete inputs, so the
    classes of third-party operations in [Text] need concrete instances there: a hexadecimal codec
    over the URL-safe alphabet for Base64, a 32-byte mixing function for the
    digest and a self-delimiting serializer for JSON. They are not models of
    those libraries; they show that the laws the theorems assume can hold. A file
    imports the instances ([Stand_ins]) after its definitions and theorems. *)

From S2P Require Import Prelude Text.
Local Open Scope N_scope.

Module Stand_ins.

(** ** Base64 *)

Definition nibble (n : N) : byte := default x00 (Byte.of_N (97 + n)).

Definition demo_b64_encode (s : bytes) : bytes :=
  s ≫= λ x, [nibble (Byte.to_N x / 16); nibble (Byte.to_N x mod 16)].

Fixpoint demo_b64_decode (s : bytes) : option bytes :=
  match s with
  | [] => Some []
  | h :: l :: s =>
      x ← Byte.of_N ((Byte.to_N h - 97) * 16 + (Byte.to_N l - 97));
      t ← demo_b64_decode s; Some (x :: t)
  | _ => None
  end.

#[export] Instance demo_base64 : Base64 :=
  {| b64_encode := demo_b64_encode; b64_decode := demo_b64_decode |}.

Lemma demo_b64_length s : length (demo_b64_encode s) = (2 * length s)%nat.
Proof. unfold demo_b64_encode. induction s as [|x s IH]; [done|]. rewrite bind_cons, length_app, IH. simpl. lia. Qed.

#[export] Instance demo_base64_laws : Base64Laws.
Proof.
  split; unfold b64_encode, b64_decode; simpl.
  - induction s as [|x s IH]; [done|]. simpl. rewrite IH. by destruct x.
  - induction s as [|x s IH]; [constructor|]. simpl.
    constructor; [by destruct x|]. constructor; [by destruct x|done].
  - intros s. unfold len. rewrite demo_b64_length. lia.
Qed.

(** ** Digest *)

#[export] Instance demo_digest : Digest := λ s,
  to_le_bytes 32 (foldl (λ h x, (h * 1099511628211 + Byte.to_N x + 1) mod 2 ^ 256) 14695981039346656037 s).

#[export] Instance demo_digest_laws : DigestLaws.
Proof. split. intros s. apply length_to_le_bytes. Qed.

(** ** Serialization *)

Class Ser (A : Type) := {
  put : A → bytes;
  get : bytes → option (A * bytes);
  get_put a rest : get (put a ++ rest) = Some (a, rest);
}.

Fixpoint put_pos (p : positive) : bytes :=
  match p with xH => [x02] | xO p => x00 :: put_pos p | xI p => x01 :: put_pos p end.

Fixpoint get_pos (s : bytes) : option (positive * bytes) :=
  match s with
  | x02 :: s => Some (xH, s)
  | x00 :: s => '(p, s) ← get_pos s; Some (xO p, s)
  | x01 :: s => '(p, s) ← get_pos s; Some (xI p, s)
  | _ => None
  end.

Lemma get_put_pos p rest : get_pos (put_pos p ++ rest) = Some (p, rest).
Proof. induction p as [p IH|p IH|]; simpl; [by rewrite IH..|done]. Qed.

#[export] Instance ser_N : Ser N.
Proof.
  refine {| put n := put_pos (N.succ_pos n);
            get s := '(p, s) ← get_pos s; Some (Pos.pred_N p, s) |}.
  intros n rest. rewrite get_put_pos. simpl. by rewrite N.pos_pred_succ.
Defined.

#[export] Instance ser_byte : Ser byte.
Proof.
  refine {| put x := [x]; get s := match s with x :: s => Some (x, s) | [] => None end |}.
  done.
Defined.

Fixpoint get_list `{Ser A} (n : nat) (s : bytes) : option (list A * bytes) :=
  match n with
  | O => Some ([], s)
  | S n => '(x, s) ← get s; '(l, s) ← get_list n s; Some (x :: l, s)
  end.

Lemma get_put_list `{Ser A} (l : list A) rest :
  get_list (length l) ((l ≫= put) ++ rest) = Some (l, rest).
Proof.
  revert rest; induction l as [|x l IH]; intros rest; simpl; [done|].
  rewrite <- app_assoc, get_put. simpl. by rewrite IH.
Qed.

#[export] Instance ser_list `{Ser A} : Ser (list A).
Proof.
  refine {| put l := put (len l) ++ (l ≫= put);
            get s := '(n, s) ← get s; get_list (N.to_nat n) s |}.
  intros l rest. rewrite <- app_assoc, get_put. simpl.
  by rewrite to_nat_len, get_put_list.
Defined.

#[export] Instance ser_option `{Ser A} : Ser (option A).
Proof.
  refine {| put o := match o with Some a => x01 :: put a | None => [x00] end;
            get s := match s with
                     | x00 :: s => Some (None, s)
                     | x01 :: s => '(a, s) ← get s; Some (Some a, s)
                     | _ => None end |}.
  intros [a|] rest; simpl; [by rewrite get_put|done].
Defined.

#[export] Instance ser_bool : Ser bool.
Proof.
  refine {| put (c : bool) := [if c then x01 else x00];
            get s := match s with
                     | x00 :: s => Some (false, s) | x01 :: s => Some (true, s) | _ => None end |}.
  by intros [].
Defined.

#[export] Instance ser_prod `{Ser A, Ser B} : Ser (A * B).
Proof.
  refine {| put p := put p.1 ++ put p.2;
            get s := '(x, s) ← get s; '(y, s) ← get s; Some ((x, y), s) |}.
  intros [x y] rest; simpl. by rewrite <- app_assoc, get_put; simpl; rewrite get_put.
Defined.

#[export] Instance ser_Z : Ser Z.
Proof.
  refine {| put z := match z with Z0 => [x00] | Zpos p => x01 :: put_pos p
                             | Zneg p => x02 :: put_pos p end;
            get s := match s with
                     | x00 :: s => Some (Z0, s)
                     | x01 :: s => '(p, s) ← get_pos s; Some (Zpos p, s)
                     | x02 :: s => '(p, s) ← get_pos s; Some (Zneg p, s)
                     | _ => None end |}.
  intros [|p|p] rest; simpl; [done|by rewrite get_put_pos..].
Defined.

(** A type serialized through an isomorphic one. *)
Definition ser_iso {A B} `{Ser B} (f : A → B) (g : B → A) (Hgf : ∀ a, g (f a) = a) : Ser A.
Proof.
  refine {| put a := put (f a); get s := '(x, s) ← get s; Some (g x, s) |}.
  intros a rest. rewrite get_put. simpl. by rewrite Hgf.
Defined.

(** An object: an opening brace, then the fields. *)
#[export] Instance demo_json `{Ser A} : Json A := {|
  to_json a := x7b :: put a;
  from_json s := match s with
                 | x7b :: s => match get s with Some (a, []) => Some a | _ => None end
                 | _ => None end
|}.

#[export] Instance demo_json_laws `{Ser A} : JsonLaws A.
Proof.
  split. intros a. unfold from_json, to_json; simpl.
  by rewrite <- (app_nil_r (put a)), get_put.
Qed.

End Stand_ins.
