(* ===== verification/Names.v ===== *)
(** * Identities and object names

    Actor identities ([src/src/actor/protocol.rs], [src/src/actor_state.rs]), the
    layout of the buckets ([src/src/storage_paths.rs], [src/src/storage.rs]), host
    leases ([src/src/host_leases.rs]) and the references a commit leaves behind
    ([src/src/storage/stream.rs]).  Everything an actor owns in a bucket is found
    again from its name alone, so the theorems are that the names are injective
    and that the parsers invert the printers. *)

From S2P Require Import Prelude Text Demo.
Local Open Scope N_scope.

(** ** Data *)

Record ActorKey := {
  project_id : bytes;
  actor_name : bytes;
  actor_id : bytes;
}.

#[global] Instance ActorKey_eq_dec : EqDecision ActorKey.
Proof. solve_decision. Defined.

Record HostLease := {
  lease_id : bytes;
  session_id : bytes;
  route : bytes;
  expires_at_ms : N;
}.

#[global] Instance HostLease_eq_dec : EqDecision HostLease.
Proof. solve_decision. Defined.

Record HostLeaseRequest := {
  req_id : bytes;
  req_session_id : bytes;
  req_route : bytes;
  duration_ms : N;
}.

Record StateStream := {
  session : bytes;
  prefix : bytes;
  stream_owner_epoch : N;
  base_version : N;
}.

#[global] Instance StateStream_eq_dec : EqDecision StateStream.
Proof. solve_decision. Defined.

Record SnapshotRef := {
  object : bytes;
  ref_state_version : N;
  ref_request_id : bytes;
  digest : bytes;
}.

#[global] Instance SnapshotRef_eq_dec : EqDecision SnapshotRef.
Proof. solve_decision. Defined.

Record WritePlan := {
  plan_stream : StateStream;
  plan_state_version : N;
  object_name : bytes;
}.

(** ** Actor identities *)

Definition MAX_ACTOR_NAME_BYTES : N := 48.
Definition MAX_ACTOR_ID_BYTES : N := 128.
Definition MAX_METHOD_BYTES : N := 128.

Definition component_byte (x : byte) : bool :=
  is_ascii_alphanumeric x || (x == x2d) || (x == x5f) || (x == x2e).

Definition validate_component (name : string) (value : bytes) (max_bytes : N) : result unit :=
  ensure (value != []) (name +:+ " must not be empty");;
  ensure (len value <=? max_bytes) (name +:+ " is longer than its byte limit");;
  ensure (forallb component_byte value)
    (name +:+ " may contain only ASCII letters, digits, '.', '-', and '_'").

Definition validate_storage_key (key : bytes) : result unit :=
  ensure (key != []) "actor storage key must not be empty";;
  ensure (len key <=? 255) "actor storage key must be at most 255 bytes";;
  ensure ((key != b".") && (key != b".."))
    "actor storage key must not be a relative path component";;
  ensure (negb (existsb (λ x, (x == x2f) || (x == x5c)) key || any_control key))
    "actor storage key must not contain path separators or control characters".

Definition storage_key (a : ActorKey) : bytes :=
  b"object.v4." ++ project_id a ++ b":" ++ actor_name a ++ b":" ++ actor_id a.

Definition validate_actor (a : ActorKey) : result unit :=
  validate_component "project ID" (project_id a) 64;;
  validate_component "actor name" (actor_name a) MAX_ACTOR_NAME_BYTES;;
  validate_component "actor ID" (actor_id a) MAX_ACTOR_ID_BYTES;;
  validate_storage_key (storage_key a).

(** ** Leases and regions *)

Definition MAX_HOST_LEASE_DURATION_MS : N := 60000.

Definition validate_duration (r : HostLeaseRequest) : result unit :=
  ensure (0 <? duration_ms r) "host lease duration must be positive";;
  ensure (duration_ms r <=? MAX_HOST_LEASE_DURATION_MS)
    "host lease duration must not exceed 60000ms".

Definition region_byte (x : byte) : bool :=
  is_ascii_lowercase x || is_ascii_digit x || (x == x2e) || (x == x5f) || (x == x2d).

Definition validate_region (region : bytes) : result unit :=
  ensure ((region != []) && (len region <=? 64) && forallb region_byte region)
    "sandbox region is invalid".

(** ** Object names *)

Definition ROOT : bytes := b"durable-actors/v3/".

Section paths.
Context `{Digest} `{Base64}.

Definition component (value : bytes) : bytes := b64_encode value.

Definition decode_component (value : bytes) : result bytes :=
  s ← ctx (b64_decode value) "invalid base64";
  ensure (utf8_valid s) "invalid utf-8";;
  Ok s.

Definition actor_path (a : ActorKey) : bytes :=
  let hash := sha256 (storage_key a) in
  pad 2 (show_hex (Byte.to_N (default x00 (head hash)))) ++ b"/" ++ component (project_id a)
  ++ b"/" ++ component (actor_name a) ++ b"/" ++ component (actor_id a).

Definition snapshots (a : ActorKey) : result bytes :=
  validate_actor a;;
  Ok (ROOT ++ b"snapshots/" ++ actor_path a ++ b"/").

Definition actor_from_key (key : bytes) : result ActorKey :=
  rest ← ctx (strip_prefix (b"object.v4.") key) "invalid actor key";
  match split x3a rest with
  | [p; n; i] =>
      let actor := {| project_id := p; actor_name := n; actor_id := i |} in
      validate_actor actor;; Ok actor
  | _ => Err "invalid actor identity"
  end.

Definition owner (key : bytes) : result bytes :=
  actor ← actor_from_key key;
  Ok (ROOT ++ b"owners/" ++ actor_path actor ++ b".json").

Definition owner_in_project (key project : bytes) : bool :=
  match strip_prefix (ROOT ++ b"owners/") key with
  | Some path => bool_decide (split x2f path !! 1%nat = Some (component project))
  | None => false
  end.

Definition host_path (host : bytes) : bytes := ROOT ++ b"hosts/" ++ component host ++ b"/".

Definition session_path (host sess : bytes) : bytes :=
  host_path host ++ b"sessions/" ++ component sess.

Definition actor_from_snapshot (obj : bytes) : result ActorKey :=
  rest ← ctx (strip_prefix ROOT obj) "invalid snapshot root";
  match split x2f rest with
  | [k; _; p; n; i; _; _] =>
      ensure (k == b"snapshots") "invalid snapshot path";;
      p ← decode_component p;
      n ← decode_component n;
      i ← decode_component i;
      let actor := {| project_id := p; actor_name := n; actor_id := i |} in
      validate_actor actor;;
      pre ← snapshots actor;
      ensure (starts_with pre obj) "snapshot shard mismatch";;
      Ok actor
  | _ => Err "invalid snapshot path"
  end.

Definition valid_nonce (nonce : bytes) : bool :=
  (len nonce =? 32) && forallb is_ascii_hexdigit nonce.

Definition snapshot_object_name (a : ActorKey) (state_version : N) (nonce : bytes) : result bytes :=
  validate_actor a;;
  ensure (0 <? state_version) "actor state version must be positive";;
  ensure (valid_nonce nonce) "actor state object nonce is invalid";;
  pre ← snapshots a;
  Ok (pre ++ nonce ++ b"/" ++ show_dec state_version ++ b".json").

Definition validate_object_name (name : bytes) : result unit :=
  ensure (starts_with ROOT name && (len name <=? 1024) && negb (any_control name))
    "actor state object name is invalid".

Definition validate_snapshot_object_name (a : ActorKey) (state_version : N) (name : bytes)
    : result unit :=
  validate_object_name name;;
  pre ← snapshots a;
  let parts := split x2f (default [] (strip_prefix pre name)) in
  ensure (match parts with
          | [nonce; file] => valid_nonce nonce && (file == show_dec state_version ++ b".json")
          | _ => false
          end) "actor state object name does not match its commit".

Definition stream_object (s : StateStream) (version : N) : bytes :=
  prefix s ++ show_dec version ++ b".json".

Definition checksum (bs : bytes) : bytes := b64_encode (sha256 bs).

Definition verify (r : SnapshotRef) (bs : bytes) : result unit :=
  ensure (checksum bs == digest r) "snapshot checksum mismatch".

End paths.

Definition validate_bucket (bucket : bytes) : result unit :=
  ensure ((bucket != []) && is_trimmed bucket && (len bucket <=? 222)
          && negb (existsb (λ x, x == x2f) bucket)) "invalid storage bucket".

(** [snapshots::version]: the state version an object name ends in. *)
Definition object_version (obj : bytes) : option N :=
  file ← head (rsplit x2f obj);
  v ← strip_suffix (b".json") file;
  parse_u64 v.

(** The owner epoch and the state version an object name encodes. *)
Definition snapshot_position (obj : bytes) : option (N * N) :=
  match rsplit x2f obj with
  | file :: nonce :: _ =>
      v ← strip_suffix (b".json") file;
      version ← parse_u64 v;
      epoch ← from_str_radix 16 nonce;
      Some (epoch, version)
  | _ => None
  end.

(** ** Lemmas *)

Lemma digit_lookup_ascii x : is_ascii_digit x = true → Byte.to_N x < 128.
Proof. unfold is_ascii_digit, byte_in. intros. inv_ok. lia. Qed.

Lemma component_byte_ne x y :
  component_byte x = true → component_byte y = false → x ≠ y.
Proof. intros Hx Hy ->. congruence. Qed.

Lemma validate_component_spec n v k :
  validate_component n v k = Ok () ↔ v ≠ [] ∧ len v ≤ k ∧ Forall (λ x, component_byte x = true) v.
Proof.
  unfold validate_component. split.
  - intros Hv. inv_ok. by rewrite forallb_Forall in *.
  - intros (Hne & Hl & Hf%forallb_Forall). rewrite Hf.
    rewrite bool_decide_eq_false_2, (proj2 (N.leb_le _ _)) by done. done.
Qed.

Lemma component_no_control v :
  Forall (λ x, component_byte x = true) v → any_control v = false.
Proof.
  induction 1 as [|x v Hx _ IH]; simpl; [done|]. rewrite IH, orb_false_r.
  destruct x; try done; simpl in *; by destruct v.
Qed.

Lemma any_control_app s t :
  Forall (λ x, Byte.to_N x < 128) s → any_control (s ++ t) = any_control s || any_control t.
Proof.
  induction 1 as [|x s Hx Hs IH]; simpl; [done|]. rewrite IH.
  rewrite (bool_decide_eq_false_2 (x = xc2)) by (intros ->; simpl in Hx; lia).
  simpl. by rewrite !orb_assoc.
Qed.

Lemma component_ascii v :
  Forall (λ x, component_byte x = true) v → Forall (λ x, Byte.to_N x < 128) v.
Proof. intros Hv. eapply Forall_impl; [exact Hv|]. intros x. by destruct x. Qed.

Lemma component_utf8 v : Forall (λ x, component_byte x = true) v → utf8_valid v = true.
Proof.
  induction 1 as [|x v Hx _ IH]; simpl; [done|]. by destruct x.
Qed.

Lemma component_not_elem v x :
  Forall (λ y, component_byte y = true) v → component_byte x = false → x ∉ v.
Proof. intros Hv Hx. eapply Forall_not_elem; [exact Hv|]. simpl. congruence. Qed.

(** What a valid actor identity consists of. *)
Record valid_actor (a : ActorKey) : Prop := {
  va_project : Forall (λ x, component_byte x = true) (project_id a);
  va_name : Forall (λ x, component_byte x = true) (actor_name a);
  va_id : Forall (λ x, component_byte x = true) (actor_id a);
  va_project_len : len (project_id a) ≤ 64;
  va_name_len : len (actor_name a) ≤ 48;
  va_id_len : len (actor_id a) ≤ 128;
}.

Lemma validate_actor_valid a : validate_actor a = Ok () → valid_actor a.
Proof.
  unfold validate_actor. intros Hv. inv_ok.
  repeat match goal with u : unit |- _ => destruct u end.
  rewrite validate_component_spec in *. destruct_and!. by constructor.
Qed.

Section path_lemmas.
Context `{Digest} `{Base64Laws}.

Definition shard (a : ActorKey) : bytes :=
  pad 2 (show_hex (Byte.to_N (default x00 (head (sha256 (storage_key a)))))).

Lemma hex_component w n : Forall (λ x, is_ascii_hexdigit x = true) (pad w (show_hex n)).
Proof.
  apply Forall_forall. intros x [->|Hx]%pad_elem; [done|].
  eapply (show_elem_digit 16); [| |exact Hx]; lia.
Qed.

Lemma dec_component n : Forall (λ x, is_ascii_hexdigit x = true) (show_dec n).
Proof. apply Forall_forall. intros x Hx. eapply (show_elem_digit 10); [| |exact Hx]; lia. Qed.

Lemma hexdigit_component v :
  Forall (λ x, is_ascii_hexdigit x = true) v → Forall (λ x, component_byte x = true) v.
Proof. intros Hv. eapply Forall_impl; [exact Hv|]. intros x. by destruct x. Qed.

Lemma b64_component s : Forall (λ x, component_byte x = true) (b64_encode s).
Proof. eapply Forall_impl; [apply b64_alphabet|]. intros x. by destruct x. Qed.

Lemma shard_component a : Forall (λ x, component_byte x = true) (shard a).
Proof. apply hexdigit_component, hex_component. Qed.

Lemma file_component n : Forall (λ x, component_byte x = true) (show_dec n ++ b".json").
Proof.
  apply Forall_app. split; [apply hexdigit_component, dec_component|]. by repeat constructor.
Qed.

#[local] Hint Resolve b64_component shard_component file_component hexdigit_component : rust.

Lemma snapshots_eq a pre :
  snapshots a = Ok pre →
  validate_actor a = Ok () ∧
  pre = ROOT ++ b"snapshots" ++ x2f :: shard a ++ x2f :: b64_encode (project_id a)
        ++ x2f :: b64_encode (actor_name a) ++ x2f :: b64_encode (actor_id a) ++ [x2f].
Proof.
  unfold snapshots. intros Hs. inv_ok.
  match goal with u : unit |- _ => destruct u end. split; [done|]. subst.
  unfold actor_path, component, shard. by rewrite <- !app_assoc.
Qed.

Lemma valid_nonce_spec nonce :
  valid_nonce nonce = true ↔ len nonce = 32 ∧ Forall (λ x, is_ascii_hexdigit x = true) nonce.
Proof. unfold valid_nonce. by rewrite andb_true_iff, N.eqb_eq, forallb_Forall. Qed.

Lemma snapshot_object_name_eq a v nonce name :
  snapshot_object_name a v nonce = Ok name ↔
  validate_actor a = Ok () ∧ 0 < v ∧ valid_nonce nonce = true ∧
  ∃ pre, snapshots a = Ok pre ∧ name = pre ++ nonce ++ x2f :: show_dec v ++ b".json".
Proof.
  unfold snapshot_object_name. split.
  - intros Hn. inv_ok. repeat match goal with u : unit |- _ => destruct u end. subst.
    split_and!; [done..|]. eexists. split; [done|]. done.
  - intros (-> & Hv & -> & pre & -> & ->). simpl.
    by rewrite (proj2 (N.ltb_lt _ _) Hv).
Qed.

Ltac no_sep := eapply component_not_elem; [by eauto with rust|done].

Lemma split_snapshot_path a nonce v :
  Forall (λ x, is_ascii_hexdigit x = true) nonce →
  split x2f (b"snapshots" ++ x2f :: shard a ++ x2f :: b64_encode (project_id a)
    ++ x2f :: b64_encode (actor_name a) ++ x2f :: b64_encode (actor_id a)
    ++ x2f :: nonce ++ x2f :: show_dec v ++ b".json")
  = [b"snapshots"; shard a; b64_encode (project_id a); b64_encode (actor_name a);
     b64_encode (actor_id a); nonce; show_dec v ++ b".json"].
Proof.
  intros Hn. rewrite split_app_sep by (by vm_compute; set_solver).
  rewrite !split_app_sep by no_sep. by rewrite split_no_sep by no_sep.
Qed.

Lemma decode_component_encode s :
  Forall (λ x, component_byte x = true) s → decode_component (b64_encode s) = Ok s.
Proof.
  intros Hs. unfold decode_component. rewrite b64_decode_encode. simpl.
  by rewrite component_utf8.
Qed.

(** A storage key determines its actor: parsing the coordination key of a
    valid actor gives back exactly that actor. *)
Theorem actor_from_key_storage_key (a : ActorKey) :
  validate_actor a = Ok () → actor_from_key (storage_key a) = Ok a.
Proof.
  intros Hv. destruct (validate_actor_valid a Hv). unfold actor_from_key, storage_key.
  rewrite strip_prefix_app. simpl.
  change (b":") with [x3a]. simpl.
  rewrite !split_app_sep, split_no_sep by no_sep.
  destruct a as [p n i]; simpl in *. by rewrite Hv.
Qed.

(** The object a commit is written under identifies the actor it belongs to,
    whatever the version and the nonce of its stream. *)
Theorem actor_from_snapshot_object_name (a : ActorKey) (v : N) (nonce name : bytes) :
  snapshot_object_name a v nonce = Ok name → actor_from_snapshot name = Ok a.
Proof.
  intros (Hv & _ & [_ Hhex]%valid_nonce_spec & pre & Hs & ->)%snapshot_object_name_eq.
  pose proof (snapshots_eq a pre Hs) as [_ Hpre].
  destruct (validate_actor_valid a Hv). unfold actor_from_snapshot.
  rewrite Hpre at 1. rewrite <- app_assoc, strip_prefix_app. cbn [ctx mbind result_bind].
  norm_app.
  rewrite split_snapshot_path by done. simpl.
  rewrite !decode_component_encode by done. simpl.
  destruct a as [p n i]; simpl in *. rewrite Hv, Hs. simpl.
  by rewrite starts_with_app.
Qed.

Lemma snapshots_component_len a pre :
  snapshots a = Ok pre → len pre ≤ 600 ∧ Forall (λ x, Byte.to_N x < 128) pre ∧ any_control pre = false.
Proof.
  intros [Hv ->]%snapshots_eq. destruct (validate_actor_valid a Hv).
  assert (Forall (λ x, Byte.to_N x < 128) (ROOT ++ b"snapshots")) by (by repeat constructor).
  assert (any_control (ROOT ++ b"snapshots") = false) as Hroot by done.
  assert (len (shard a) = 2) as Hsh.
  { unfold len, shard, show_hex. rewrite length_pad_show; try done; try lia.
    pose proof (Byte.to_N_bounded (default x00 (head (sha256 (storage_key a))))). simpl. lia. }
  split_and!.
  - rewrite !len_app, !len_cons, !len_app, !len_cons, !len_app, !len_cons, !len_app, !len_cons, !len_app, Hsh.
    pose proof (b64_length (project_id a)). pose proof (b64_length (actor_name a)).
    pose proof (b64_length (actor_id a)). vm_compute (len ROOT). vm_compute (len (b"snapshots")).
    vm_compute (len [x2f]). lia.
  - rewrite app_assoc. do 5 rewrite ?Forall_app, ?Forall_cons.
    split_and!; first [done | by (apply component_ascii; eauto with rust) | by repeat constructor].
  - rewrite app_assoc, any_control_app, Hroot by done. simpl.
    repeat (rewrite any_control_app by (apply component_ascii; eauto with rust);
            rewrite component_no_control by eauto with rust; simpl). done.
Qed.

Lemma show_dec_len v : v ≤ u64_max → len (show_dec v) ≤ 20.
Proof.
  intros Hv. unfold len, show_dec. pose proof (show_length 10 v 20). unfold u64_max in *.
  assert (v < 10 ^ N.of_nat 20) by (simpl; lia). lia.
Qed.

(** The name check a reader applies to a listed object accepts exactly the
    names a commit of that actor and version is written under. *)
Theorem validate_snapshot_object_name_iff (a : ActorKey) (v : N) (name : bytes) :
  0 < v ≤ u64_max →
  validate_snapshot_object_name a v name = Ok () ↔ ∃ nonce, snapshot_object_name a v nonce = Ok name.
Proof.
  intros [Hv0 Hv]. setoid_rewrite snapshot_object_name_eq.
  unfold validate_snapshot_object_name. split.
  - intros Hn. inv_ok. repeat match goal with u : unit |- _ => destruct u end.
    rename x0 into pre. pose proof (snapshots_eq a pre ltac:(done)) as [Ha _].
    match goal with H : match split _ ?s with _ => _ end = true |- _ =>
      pose proof (join_split x2f s) as Hj; destruct (split x2f s) as [|nonce [|file [|]]] end; try done.
    inv_ok. subst file. simpl in Hj.
    destruct (strip_prefix pre name) as [rest|] eqn:E; simpl in *.
    + apply strip_prefix_Some in E as ->. subst rest. naive_solver.
    + apply (f_equal length) in Hj. rewrite length_app in Hj. simpl in Hj. lia.
  - intros (nonce & Ha & _ & Hn & pre & Hs & ->). rewrite Hs. simpl.
    pose proof Hn as [Hl Hhex]%valid_nonce_spec.
    destruct (snapshots_component_len a pre Hs) as (Hlen & Hasc & Hctl).
    rewrite strip_prefix_app. simpl.
    rewrite split_app_sep, split_no_sep, Hn, bool_decide_eq_true_2 by (done || no_sep).
    unfold validate_object_name.
    assert (starts_with ROOT (pre ++ nonce ++ x2f :: show_dec v ++ b".json") = true) as ->.
    { apply snapshots_eq in Hs as [_ ->]. rewrite <- app_assoc. apply starts_with_app. }
    rewrite any_control_app, Hctl, any_control_app, component_no_control by
      (done || eauto using component_ascii with rust).
    rewrite (proj2 (N.leb_le _ _)).
    + simpl. by rewrite component_no_control by eauto with rust.
    + rewrite !len_app, len_cons, len_app, Hl. pose proof (show_dec_len v Hv).
      vm_compute (len (b".json")). lia.
Qed.

Lemma rsplit_two c q x y : c ∉ x → c ∉ y → rsplit c (q ++ c :: x ++ c :: y) = y :: x :: rsplit c q.
Proof.
  intros Hx Hy. rewrite app_comm_cons, app_assoc, split_app_rev by done.
  by rewrite split_app_rev.
Qed.

Lemma snapshots_slash a pre : snapshots a = Ok pre → ∃ p, pre = p ++ [x2f].
Proof.
  unfold snapshots. intros Hs. inv_ok. subst.
  exists (ROOT ++ b"snapshots/" ++ actor_path a). by rewrite <- !app_assoc.
Qed.

(** A commit's name is parsed digit by digit. *)
Lemma name_parsed q e v :
  let name := q ++ x2f :: pad 32 (show_hex e) ++ x2f :: show_dec v ++ b".json" in
  object_version name = parse_u64 (show_dec v) ∧
  snapshot_position name =
    (v' ← parse_u64 (show_dec v); e' ← from_str_radix 16 (pad 32 (show_hex e)); Some (e', v')).
Proof.
  assert (x2f ∉ show_dec v ++ b".json") by no_sep.
  assert (x2f ∉ pad 32 (show_hex e)) by
    (eapply component_not_elem; [apply hexdigit_component, hex_component|done]).
  unfold snapshot_position, object_version.
  rewrite rsplit_two by done. cbn [head mbind option_bind]. by rewrite strip_suffix_app.
Qed.

(** The position parsed back from an object name is the owner epoch and the
    state version the writer put there, so newer commits compare greater. *)
Theorem snapshot_position_object_name (a : ActorKey) (epoch v : N) (name : bytes) :
  epoch ≤ u64_max → v ≤ u64_max →
  snapshot_object_name a v (pad 32 (show_hex epoch)) = Ok name →
  snapshot_position name = Some (epoch, v) ∧ object_version name = Some v.
Proof.
  intros He Hv (_ & _ & _ & pre & [p ->]%snapshots_slash & ->)%snapshot_object_name_eq.
  destruct (name_parsed p epoch v) as [E1 E2]. norm_app. rewrite E1, E2.
  unfold parse_u64, show_dec, show_hex.
  rewrite parse_show by lia. simpl. by rewrite parse_show_pad by lia.
Qed.

(** Two names under one actor's prefix: the second is told by its version. *)
Lemma object_name_under a e a' e' v' pre name :
  snapshot_object_name a 1 (pad 32 (show_hex e)) = Ok (pre ++ b"1.json") →
  snapshot_object_name a' v' (pad 32 (show_hex e')) = Ok name → pre `prefix_of` name →
  name = pre ++ show_dec v' ++ b".json".
Proof.
  intros (_ & _ & _ & p & Hp & E)%snapshot_object_name_eq (_ & _ & _ & p' & Hp' & ->)%snapshot_object_name_eq.
  apply snapshots_eq in Hp as [_ ->]. apply snapshots_eq in Hp' as [_ ->].
  set (n := pad 32 (show_hex e)) in *. set (n' := pad 32 (show_hex e')) in *.
  assert (pre = (ROOT ++ b"snapshots" ++ x2f :: shard a ++ x2f :: b64_encode (project_id a)
    ++ x2f :: b64_encode (actor_name a) ++ x2f :: b64_encode (actor_id a) ++ [x2f]) ++ n ++ [x2f]) as ->.
  { apply (app_inv_tail (b"1.json")). rewrite E. change (show_dec 1 ++ b".json") with (b"1.json").
    by norm_app. }
  intros [t Ht]. revert Ht. norm_app. intros Ht%app_inv_head.
  apply (f_equal (split x2f)) in Ht.
  assert (Forall (λ x, is_ascii_hexdigit x = true) n) by apply hex_component.
  assert (Forall (λ x, is_ascii_hexdigit x = true) n') by apply hex_component.
  rewrite split_snapshot_path in Ht by done.
  rewrite split_app_sep in Ht by (by vm_compute; set_solver).
  rewrite !split_app_sep in Ht by no_sep.
  injection Ht as -> -> -> -> -> _. by norm_app.
Qed.
End path_lemmas.

(** ** Witnesses *)

Import Stand_ins.

Definition demo_actor : ActorKey :=
  {| project_id := b"p1"; actor_name := b"Chat"; actor_id := b"lobby" |}.

Definition demo_nonce : bytes := pad 32 (show_hex 7).

Definition demo_name : bytes := default [] (ok (snapshot_object_name demo_actor 3 demo_nonce)).

Lemma actor_from_key_storage_key_witness :
  actor_from_key (storage_key demo_actor) = Ok demo_actor.
Proof. apply actor_from_key_storage_key. vm_compute. reflexivity. Defined.

Lemma actor_from_snapshot_object_name_witness : actor_from_snapshot demo_name = Ok demo_actor.
Proof. apply (actor_from_snapshot_object_name demo_actor 3 demo_nonce). vm_compute. reflexivity. Defined.

Lemma validate_snapshot_object_name_iff_witness :
  validate_snapshot_object_name demo_actor 3 demo_name = Ok () ∧
  ∃ nonce, snapshot_object_name demo_actor 3 nonce = Ok demo_name.
Proof.
  split; [vm_compute; reflexivity|].
  apply (validate_snapshot_object_name_iff demo_actor 3 demo_name); [vm_compute; split; discriminate || reflexivity|].
  vm_compute. reflexivity.
Defined.

Lemma snapshot_position_object_name_witness :
  snapshot_position demo_name = Some (7, 3) ∧ object_version demo_name = Some 3.
Proof.
  apply (snapshot_position_object_name demo_actor 7 3 demo_name);
    [vm_compute; discriminate|vm_compute; discriminate|vm_compute; reflexivity].
Defined.
