(* ===== verification/Payload.v ===== *)
(** * Object payloads ([src/src/payload.rs])

    A [Spool] collects the bytes of one storage object, in memory up to 64 KiB
    and in a temporary file beyond that; [Upload] hands an object to the storage
    client in 256 KiB chunks and [Download] collects one through a buffer of that
    size. The temporary file is modelled by its contents; failures of the file
    system itself are not modelled. *)

From S2P Require Import Prelude Text Demo.
Local Open Scope N_scope.

Definition BUFFER_BYTES : N := 64 * 1024.
Definition IO_BUFFER_BYTES : N := 256 * 1024.
Definition MAX_FILE_BYTES : N := 2 * 1024 * 1024 * 1024.

(** ** Spool *)

Record Spool := {
  memory : bytes;
  file : option bytes;
  spooled : N;   (** the field [length] *)
}.

Definition spool_new : Spool := {| memory := []; file := None; spooled := 0 |}.

(** [<Spool as Write>::write]; the whole slice is always accepted. *)
Definition spool_write (s : Spool) (bs : bytes) : result Spool :=
  total ← ctx (t ← checked_add (spooled s) (len bs);
               if t <=? MAX_FILE_BYTES then Some t else None)
            "temporary storage object exceeds 2 GiB";
  let s := match file s with
           | None => if BUFFER_BYTES <? total
                     then {| memory := []; file := Some (memory s); spooled := spooled s |}
                     else s
           | Some _ => s
           end in
  Ok match file s with
     | Some f => {| memory := memory s; file := Some (f ++ bs); spooled := total |}
     | None => {| memory := memory s ++ bs; file := None; spooled := total |}
     end.

(** [Write::write_all]: an empty slice is not written at all. *)
Definition write_all (s : Spool) (bs : bytes) : result Spool :=
  match bs with [] => Ok s | _ => spool_write s bs end.

Definition spool_finish (s : Spool) : bytes :=
  match file s with None => memory s | Some f => f end.

(** The chunks written one after the other, then [finish]. *)
Definition spool_all (chunks : list bytes) : result bytes :=
  s ← foldM write_all spool_new chunks; Ok (spool_finish s).

(** [payload::copy]: the reader's chunks, in order. *)
Definition copy (chunks : list bytes) : result bytes := spool_all chunks.

(** [payload::encode] *)
Definition payload_encode `{Json A} (value : A) : result bytes := spool_all [to_json value].

(** ** Upload *)

Record Upload := { upload_bytes : bytes; offset : N }.

Definition upload_new (bs : bytes) : Upload := {| upload_bytes := bs; offset := 0 |}.

Definition upload_next (u : Upload) : option (bytes * Upload) :=
  if offset u =? len (upload_bytes u) then None
  else let stop := N.min (len (upload_bytes u)) (offset u + IO_BUFFER_BYTES) in
       Some (sliceN (offset u) stop (upload_bytes u),
             {| upload_bytes := upload_bytes u; offset := stop |}).

Definition upload_seek (u : Upload) (off : N) : result Upload :=
  if len (upload_bytes u) <? off then Err "upload seek exceeds object"
  else Ok {| upload_bytes := upload_bytes u; offset := off |}.

(** Every chunk the client pulls; the fuel is the number of pulls allowed. *)
Fixpoint upload_drain (fuel : nat) (u : Upload) : option (list bytes) :=
  match fuel with
  | O => None
  | S fuel => match upload_next u with
              | None => Some []
              | Some (c, u) => cs ← upload_drain fuel u; Some (c :: cs)
              end
  end.

(** ** Download *)

Record Download := { spool : Spool; buffer : bytes }.

Definition download_new : Download := {| spool := spool_new; buffer := [] |}.

Definition download_flush (d : Download) : result Download :=
  s ← write_all (spool d) (buffer d); Ok {| spool := s; buffer := [] |}.

(** The loop of [Download::append]; every turn consumes a byte as long as the
    buffer is not full, so the length of the input is enough fuel. *)
Fixpoint download_loop (fuel : nat) (d : Download) (remaining : bytes) : result Download :=
  match fuel, remaining with
  | _, [] => Ok d
  | O, _ => Err "out of fuel"
  | S fuel, _ =>
      let n := N.min (len remaining) (IO_BUFFER_BYTES - len (buffer d)) in
      let d := {| spool := spool d; buffer := buffer d ++ takeN n remaining |} in
      d ← (if len (buffer d) =? IO_BUFFER_BYTES then download_flush d else Ok d);
      download_loop fuel d (dropN n remaining)
  end.

Definition download_append (d : Download) (bs : bytes) : result Download :=
  download_loop (length bs) d bs.

Definition download_finish (d : Download) : result bytes :=
  d ← download_flush d; Ok (spool_finish (spool d)).

Definition download_all (chunks : list bytes) : result bytes :=
  d ← foldM download_append download_new chunks; download_finish d.

(** ** Lemmas *)

(** What a spool has taken in, and where it keeps it. *)
Record spool_inv (s : Spool) (contents : bytes) : Prop := {
  si_contents : spool_finish s = contents;
  si_length : spooled s = len contents;
  si_small : file s = None → len contents ≤ BUFFER_BYTES;
  si_memory : is_Some (file s) → memory s = [];
  si_cap : len contents ≤ MAX_FILE_BYTES;
}.

Lemma spool_new_inv : spool_inv spool_new [].
Proof. by split. Qed.

Lemma spool_write_ok s c bs :
  spool_inv s c → len (c ++ bs) ≤ MAX_FILE_BYTES →
  ∃ s', spool_write s bs = Ok s' ∧ spool_inv s' (c ++ bs).
Proof.
  intros [Hc Hl Hs Hm Hcap] Hcap'. rewrite len_app in Hcap'. unfold spool_write.
  rewrite Hl. unfold checked_add.
  rewrite (proj2 (N.leb_le (len c + len bs) u64_max)) by
    (unfold u64_max, MAX_FILE_BYTES in *; lia).
  simpl. rewrite (proj2 (N.leb_le _ _) Hcap'). simpl. eexists. split; [done|].
  unfold spool_finish in Hc.
  destruct (file s) as [f|] eqn:Ef; simpl.
  - subst c. rewrite Ef. by split; simpl; rewrite ?len_app; auto.
  - subst c. destruct (N.ltb_spec BUFFER_BYTES (len (memory s) + len bs)); simpl.
    + split; simpl; rewrite ?len_app; done.
    + rewrite Ef. split; simpl; rewrite ?len_app; try done.
Qed.

Lemma spool_write_err s c bs :
  spool_inv s c → MAX_FILE_BYTES < len (c ++ bs) →
  spool_write s bs = Err "temporary storage object exceeds 2 GiB".
Proof.
  intros [Hc Hl _ _ _] Hcap. rewrite len_app in Hcap. unfold spool_write, checked_add.
  rewrite Hl. destruct (len c + len bs <=? u64_max); simpl; [|done].
  by rewrite (proj2 (N.leb_gt _ _) Hcap).
Qed.

Lemma write_all_ok s c bs :
  spool_inv s c → len (c ++ bs) ≤ MAX_FILE_BYTES →
  ∃ s', write_all s bs = Ok s' ∧ spool_inv s' (c ++ bs).
Proof.
  intros Hs Hc. destruct bs as [|x bs]; [|by apply spool_write_ok].
  rewrite app_nil_r. by exists s.
Qed.

Lemma write_all_err s c bs :
  spool_inv s c → MAX_FILE_BYTES < len (c ++ bs) →
  write_all s bs = Err "temporary storage object exceeds 2 GiB".
Proof.
  intros Hs Hc. destruct bs as [|x bs]; [|by eapply spool_write_err].
  rewrite app_nil_r in Hc. destruct Hs. lia.
Qed.

Lemma write_all_concat chunks s c :
  spool_inv s c →
  if len (c ++ concat chunks) <=? MAX_FILE_BYTES
  then ∃ s', foldM write_all s chunks = Ok s' ∧ spool_inv s' (c ++ concat chunks)
  else foldM write_all s chunks = Err "temporary storage object exceeds 2 GiB".
Proof.
  revert s c; induction chunks as [|bs chunks IH]; intros s c Hs; simpl.
  - rewrite app_nil_r. pose proof (si_cap _ _ Hs) as Hc.
    rewrite (proj2 (N.leb_le _ _) Hc). eauto.
  - destruct (N.leb_spec (len (c ++ bs)) MAX_FILE_BYTES) as [Hc|Hc].
    + destruct (write_all_ok s c bs Hs Hc) as (s' & -> & Hs'). simpl.
      specialize (IH s' (c ++ bs) Hs'). by rewrite <- app_assoc in IH.
    + rewrite (write_all_err s c bs Hs Hc). simpl.
      rewrite (proj2 (N.leb_gt _ _)); [done|]. rewrite !len_app in *. lia.
Qed.

(** Spooling a sequence of writes yields their concatenation when it is at
    most 2 GiB and the size error otherwise: how the bytes are cut into writes,
    and the switch from memory to a file, are not observable. *)
Theorem spool_all_spec (chunks : list bytes) :
  spool_all chunks =
  if len (concat chunks) <=? MAX_FILE_BYTES then Ok (concat chunks)
  else Err "temporary storage object exceeds 2 GiB".
Proof.
  unfold spool_all. pose proof (write_all_concat chunks spool_new [] spool_new_inv) as H.
  simpl in H. case_match.
  - destruct H as (s' & -> & Hs'). simpl. by rewrite (si_contents _ _ Hs').
  - by rewrite H.
Qed.

Lemma upload_next_rest u :
  offset u < len (upload_bytes u) →
  ∃ c u', upload_next u = Some (c, u') ∧ upload_bytes u' = upload_bytes u ∧
    offset u < offset u' ≤ len (upload_bytes u) ∧ len c ≤ IO_BUFFER_BYTES ∧
    dropN (offset u) (upload_bytes u) = c ++ dropN (offset u') (upload_bytes u).
Proof.
  intros Ho. unfold upload_next. rewrite (proj2 (N.eqb_neq _ _)) by lia.
  do 2 eexists. split; [done|]. simpl. unfold IO_BUFFER_BYTES.
  split_and!; [done|lia..| |].
  - rewrite len_sliceN; lia.
  - unfold sliceN. set (stop := N.min _ _).
    rewrite <- (takeN_dropN (stop - offset u) (dropN (offset u) (upload_bytes u))) at 1.
    rewrite dropN_dropN. do 2 f_equal. lia.
Qed.

Lemma upload_drain_rest fuel u :
  offset u ≤ len (upload_bytes u) → len (upload_bytes u) - offset u < N.of_nat fuel →
  ∃ cs, upload_drain fuel u = Some cs ∧ concat cs = dropN (offset u) (upload_bytes u) ∧
    Forall (λ c, len c ≤ IO_BUFFER_BYTES) cs.
Proof.
  revert u; induction fuel as [|fuel IH]; intros u Ho Hf; [lia|]. simpl.
  destruct (decide (offset u = len (upload_bytes u))) as [E|E].
  - unfold upload_next. rewrite (proj2 (N.eqb_eq _ _) E). exists [].
    by rewrite dropN_all by lia.
  - destruct (upload_next_rest u) as (c & u' & -> & Hb & Hu & Hc & Hd); [lia|].
    destruct (IH u') as (cs & -> & Hcs & Hl); [rewrite Hb; lia..|].
    eexists. split; [done|]. simpl. rewrite Hcs, Hb. split; [done|by constructor].
Qed.

(** An upload sends the object exactly: the chunks the client pulls, each of
    at most 256 KiB, concatenate to the object and then stop. *)
Theorem upload_sends_object (bs : bytes) :
  ∃ cs, upload_drain (S (length bs)) (upload_new bs) = Some cs ∧ concat cs = bs ∧
    Forall (λ c, len c ≤ IO_BUFFER_BYTES) cs.
Proof.
  apply (upload_drain_rest (S (length bs)) (upload_new bs)); simpl; [lia|].
  unfold len. lia.
Qed.

(** A download in progress: what went to the spool, and a buffer that has room. *)
Definition download_inv (d : Download) (contents : bytes) : Prop :=
  ∃ c, spool_inv (spool d) c ∧ contents = c ++ buffer d ∧ len (buffer d) < IO_BUFFER_BYTES.

Lemma download_flush_ok d c :
  spool_inv (spool d) c → len (c ++ buffer d) ≤ MAX_FILE_BYTES →
  ∃ s, download_flush d = Ok {| spool := s; buffer := [] |} ∧ spool_inv s (c ++ buffer d).
Proof.
  intros Hs Hc. unfold download_flush.
  destruct (write_all_ok _ _ _ Hs Hc) as (s & -> & ?). by exists s.
Qed.

Definition download_fill (d : Download) (remaining : bytes) : N * Download :=
  let n := N.min (len remaining) (IO_BUFFER_BYTES - len (buffer d)) in
  (n, {| spool := spool d; buffer := buffer d ++ takeN n remaining |}).

Lemma download_loop_S fuel d remaining :
  remaining ≠ [] →
  download_loop (S fuel) d remaining =
  (let '(n, d) := download_fill d remaining in
   d ← (if len (buffer d) =? IO_BUFFER_BYTES then download_flush d else Ok d);
   download_loop fuel d (dropN n remaining)).
Proof. by destruct remaining. Qed.

Lemma download_loop_ok fuel d c bs :
  download_inv d c → len (c ++ bs) ≤ MAX_FILE_BYTES → (length bs ≤ fuel)%nat →
  ∃ d', download_loop fuel d bs = Ok d' ∧ download_inv d' (c ++ bs).
Proof.
  revert d c bs; induction fuel as [|fuel IH]; intros d c bs Hd Hc Hf.
  - destruct bs; simpl in *; [|lia]. rewrite app_nil_r. eauto.
  - destruct (decide (bs = [])) as [->|Hne]; [rewrite app_nil_r; by eauto|].
    rename bs into rem.
    assert (0 < len rem) by (destruct rem; [done|rewrite len_cons; lia]).
    destruct Hd as (c0 & Hs & -> & Hb). rewrite download_loop_S by done.
    unfold download_fill. cbv zeta.
    set (n := N.min (len rem) (IO_BUFFER_BYTES - len (buffer d))).
    assert (0 < n ≤ len rem) by (unfold n; lia).
    assert (length (dropN n rem) ≤ fuel)%nat.
    { unfold dropN. rewrite length_drop. unfold len in *. lia. }
    assert (len (buffer d ++ takeN n rem) = len (buffer d) + n) as Hln.
    { rewrite len_app, len_takeN. lia. }
    assert (c0 ++ buffer d ++ takeN n rem ++ dropN n rem = c0 ++ buffer d ++ rem) as Hcat.
    { by rewrite takeN_dropN. }
    rewrite <- app_assoc in *. rewrite <- Hcat in *.
    assert (∃ d', (if len (buffer d ++ takeN n rem) =? IO_BUFFER_BYTES
                   then download_flush {| spool := spool d; buffer := buffer d ++ takeN n rem |}
                   else Ok {| spool := spool d; buffer := buffer d ++ takeN n rem |}) = Ok d' ∧
                  download_inv d' (c0 ++ buffer d ++ takeN n rem)) as (d' & Hd' & Hi).
    { case_match eqn:E.
      - apply N.eqb_eq in E.
        destruct (download_flush_ok {| spool := spool d; buffer := buffer d ++ takeN n rem |} c0)
          as (s & -> & Hsp); simpl; [done|rewrite !len_app in *; lia|].
        eexists. split; [done|]. eexists. split; [exact Hsp|]. by rewrite app_nil_r.
      - apply N.eqb_neq in E. eexists. split; [done|]. exists c0. simpl.
        split; [done|]. split; [done|]. rewrite Hln in *. unfold n in *. lia. }
    cbn [buffer]. rewrite Hd'. cbn [mbind result_bind].
    destruct (IH d' _ (dropN n rem) Hi) as (d'' & -> & Hd''); [|done|].
    + by rewrite <- !app_assoc.
    + eexists. split; [done|]. by rewrite <- !app_assoc in Hd''.
Qed.

(** A download reassembles the object: whatever network chunks it arrives in,
    and however they straddle the 256 KiB buffer, the result is their
    concatenation, for objects up to the spool's limit. *)
Theorem download_reassembles (chunks : list bytes) :
  len (concat chunks) ≤ MAX_FILE_BYTES → download_all chunks = Ok (concat chunks).
Proof.
  intros Hc. unfold download_all.
  assert (∀ d c, download_inv d c → len (c ++ concat chunks) ≤ MAX_FILE_BYTES →
    ∃ d', foldM download_append d chunks = Ok d' ∧ download_inv d' (c ++ concat chunks)) as H.
  { clear Hc. induction chunks as [|bs chunks IH]; intros d c Hd Hc; simpl.
    - rewrite app_nil_r. eauto.
    - simpl in Hc. destruct (download_loop_ok (length bs) d c bs Hd) as (d' & Hd' & Hi);
        [rewrite !len_app in *; lia|lia|].
      change (download_append d bs = Ok d') in Hd'. rewrite Hd'. simpl.
      rewrite app_assoc in *. auto. }
  destruct (H download_new []) as (d & -> & (c & Hs & Hcc & _)); [|done|].
  { exists []. split; [apply spool_new_inv|]. by split. }
  simpl in *. unfold download_finish.
  destruct (download_flush_ok d c Hs) as (s & -> & Hsp); [by rewrite <- Hcc|].
  simpl. by rewrite (si_contents _ _ Hsp), Hcc.
Qed.

Lemma download_reassembles_witness : download_all [b"LTX1"; []; b"data"] = Ok (b"LTX1data").
Proof. apply (download_reassembles [b"LTX1"; []; b"data"]). vm_compute. discriminate. Defined.
