(* ===== verification/Frame.v ===== *)
(** * Log records ([src/src/bucket/rapid/frame.rs])

    A log segment is a sequence of frames, each a 48-byte header (magic, state
    length, state version, SHA-256 over both and the state) followed by the state.
    Appends are not atomic, so a reader must accept exactly the complete frames
    and drop a torn tail. *)

From S2P Require Import Prelude Text Demo Payload.
Local Open Scope N_scope.

Definition HEADER : N := 48.

(** [frame::Record] *)
Record LogRecord := {
  version : N;
  state : bytes;
}.

#[global] Instance LogRecord_eq_dec : EqDecision LogRecord.
Proof. solve_decision. Defined.

Module Frame.
Section frame.
Context `{Digest}.

Definition checksum (header state : bytes) : bytes := sha256 (header ++ state).

(** The first 16 bytes of a header. *)
Definition preamble (r : LogRecord) : bytes :=
  b"RLG1" ++ to_le_bytes 4 (len (state r)) ++ to_le_bytes 8 (version r).

Definition encode (r : LogRecord) : result bytes :=
  ensure (0 <? version r) "invalid state version";;
  ensure (len (state r) <=? u32_max) "record length overflow";;
  spool_all [preamble r ++ checksum (preamble r) (state r); state r].

(** [frame::length]: the size of the frame a header announces. *)
Definition length (header : bytes) : result N :=
  ensure ((HEADER <=? len header) && (takeN 4 header == b"RLG1")) "invalid record header";;
  ctx (checked_add HEADER (from_le_bytes (sliceN 4 8 header))) "record length overflow".

(** The loop of [decode] from one frame boundary on: [previous] is the version of
    the last record read, and every turn consumes a header. *)
Fixpoint decode_loop (fuel : nat) (previous : option N) (rest : bytes) : result (list LogRecord) :=
  match fuel with
  | O => Err "out of fuel"
  | S fuel =>
      if len rest <? HEADER then Ok []
      else
        let header := takeN HEADER rest in
        stop ← length header;
        if len rest <? stop then Ok []
        else
          let v := from_le_bytes (sliceN 8 16 header) in
          ensure (0 <? v) "invalid state version";;
          ensure (match previous with
                  | Some p => bool_decide (checked_add p 1 = Some v)
                  | None => true
                  end) "nonconsecutive state versions";;
          let st := sliceN HEADER stop rest in
          ensure (checksum (takeN 16 header) st == sliceN 16 48 header) "corrupt log record";;
          rs ← decode_loop fuel (Some v) (dropN stop rest);
          Ok ({| version := v; state := st |} :: rs)
  end.

Definition decode (bs : bytes) : result (list LogRecord) := decode_loop (S (base.length bs)) None bs.

End frame.
End Frame.

(** ** Lemmas *)

(** The versions of a run of records that follows [previous]. *)
Fixpoint consecutive (previous : option N) (rs : list LogRecord) : Prop :=
  match rs with
  | [] => True
  | r :: rs =>
      0 < version r ≤ u64_max ∧ match previous with Some p => version r = p + 1 | None => True end ∧
      consecutive (Some (version r)) rs
  end.

Section frame_lemmas.
Context `{DigestLaws}.

(** The header and the bytes of one frame. *)
Definition frame_header (r : LogRecord) : bytes :=
  Frame.preamble r ++ Frame.checksum (Frame.preamble r) (state r).
Definition frame_bytes (r : LogRecord) : bytes := frame_header r ++ state r.

Lemma frame_encode_inv r bs :
  Frame.encode r = Ok bs → bs = frame_bytes r ∧ 0 < version r ∧ len (state r) ≤ u32_max.
Proof.
  unfold Frame.encode. intros He. inv_ok. rewrite spool_all_spec in *. case_match; [|done].
  inv_ok. subst. simpl. by rewrite app_nil_r.
Qed.

Lemma preamble_len r : len (Frame.preamble r) = 16.
Proof.
  unfold Frame.preamble. rewrite !len_app. unfold len. by rewrite !length_to_le_bytes.
Qed.

Lemma checksum_len h s : len (Frame.checksum h s) = 32.
Proof. unfold Frame.checksum, len. by rewrite sha256_length. Qed.

Lemma frame_header_len r : len (frame_header r) = HEADER.
Proof. unfold frame_header. by rewrite len_app, preamble_len, checksum_len. Qed.

Lemma frame_len r : len (frame_bytes r) = HEADER + len (state r).
Proof. unfold frame_bytes. by rewrite len_app, frame_header_len. Qed.

Lemma frame_header_split r :
  frame_header r = b"RLG1" ++ to_le_bytes 4 (len (state r)) ++ to_le_bytes 8 (version r)
                   ++ Frame.checksum (Frame.preamble r) (state r).
Proof. unfold frame_header. unfold Frame.preamble at 1. by rewrite <- !app_assoc. Qed.

Lemma header_length r :
  len (state r) ≤ u32_max → Frame.length (frame_header r) = Ok (HEADER + len (state r)).
Proof.
  intros Hs. unfold Frame.length. rewrite frame_header_len, frame_header_split.
  rewrite (takeN_app_eq 4 (b"RLG1")) by done.
  rewrite bool_decide_eq_true_2, N.leb_refl by done. cbn [andb ensure mbind result_bind].
  rewrite (sliceN_app (b"RLG1") (to_le_bytes 4 (len (state r)))); [|done|].
  - rewrite from_to_le_bytes by (unfold u32_max in *; simpl; lia).
    unfold checked_add. rewrite (proj2 (N.leb_le _ _)); [done|].
    unfold HEADER, u32_max, u64_max in *. lia.
  - unfold len. by rewrite length_to_le_bytes.
Qed.

Lemma header_version r :
  version r ≤ u64_max → from_le_bytes (sliceN 8 16 (frame_header r)) = version r.
Proof.
  intros Hv. rewrite frame_header_split, app_assoc.
  rewrite (sliceN_app (b"RLG1" ++ to_le_bytes 4 (len (state r))) (to_le_bytes 8 (version r)));
    [|rewrite !len_app; unfold len; by rewrite !length_to_le_bytes..].
  apply from_to_le_bytes. unfold u64_max in *. simpl. lia.
Qed.

Lemma header_preamble r : takeN 16 (frame_header r) = Frame.preamble r.
Proof. unfold frame_header. rewrite <- (preamble_len r). apply takeN_app. Qed.

Lemma header_checksum r :
  sliceN 16 48 (frame_header r) = Frame.checksum (Frame.preamble r) (state r).
Proof.
  unfold frame_header. rewrite <- (app_nil_r (Frame.checksum _ _)) at 1.
  apply sliceN_app; [by rewrite preamble_len|by rewrite preamble_len, checksum_len].
Qed.

(** One turn of the loop on a complete frame. *)
Lemma decode_loop_frame fuel prev r rest :
  len (state r) ≤ u32_max → 0 < version r ≤ u64_max →
  match prev with Some p => version r = p + 1 | None => True end →
  Frame.decode_loop (S fuel) prev (frame_bytes r ++ rest) =
  (rs ← Frame.decode_loop fuel (Some (version r)) rest; Ok (r :: rs)).
Proof.
  intros Hs Hv Hp. unfold frame_bytes. rewrite <- app_assoc.
  cbn [Frame.decode_loop].
  assert (len (frame_header r) = HEADER) as Hh by apply frame_header_len.
  rewrite (proj2 (N.ltb_ge _ _)) by (rewrite !len_app; lia).
  assert (takeN HEADER (frame_header r ++ state r ++ rest) = frame_header r) as -> by (rewrite <- Hh; apply takeN_app).
  rewrite header_length by done. cbn [mbind result_bind].
  rewrite (proj2 (N.ltb_ge _ _)) by (rewrite !len_app; lia).
  rewrite header_version by (done || lia).
  rewrite (proj2 (N.ltb_lt _ _)) by lia. cbn [ensure mbind result_bind].
  assert (match prev with Some p => bool_decide (checked_add p 1 = Some (version r)) | None => true end
          = true) as ->.
  { destruct prev as [p|]; [|done]. apply bool_decide_eq_true. unfold checked_add.
    rewrite (proj2 (N.leb_le _ _)) by lia. f_equal. lia. }
  cbn [ensure mbind result_bind].
  assert (sliceN HEADER (HEADER + len (state r)) (frame_header r ++ state r ++ rest) = state r) as ->.
  { apply sliceN_app; by rewrite Hh. }
  rewrite header_preamble, header_checksum, bool_decide_eq_true_2 by done.
  cbn [ensure mbind result_bind].
  assert (dropN (HEADER + len (state r)) (frame_header r ++ state r ++ rest) = rest) as ->.
  { rewrite app_assoc. replace (HEADER + len (state r)) with (len (frame_header r ++ state r)) by
      (by rewrite len_app, Hh). apply dropN_app. }
  by destruct r.
Qed.

Lemma decode_loop_tail fuel prev r tail :
  len (state r) ≤ u32_max → tail `prefix_of` frame_bytes r → tail ≠ frame_bytes r →
  Frame.decode_loop (S fuel) prev tail = Ok [].
Proof.
  intros Hs [k Hk] Hne. assert (len tail < HEADER + len (state r)) as Hlt.
  { rewrite <- frame_len, Hk, len_app. destruct k; [|rewrite len_cons; lia].
    by rewrite app_nil_r in Hk. }
  cbn [Frame.decode_loop]. destruct (N.ltb_spec (len tail) HEADER) as [|Hge]; [done|].
  assert (takeN HEADER tail = frame_header r) as ->.
  { transitivity (takeN HEADER (tail ++ k)).
    - unfold takeN. rewrite take_app_le; [done|]. unfold len in Hge. lia.
    - rewrite <- Hk. apply takeN_app_eq. by rewrite frame_header_len. }
  rewrite header_length by done. cbn [mbind result_bind].
  by rewrite (proj2 (N.ltb_lt _ _) Hlt).
Qed.

Lemma decode_loop_frames fuel prev rs tail :
  consecutive prev rs → Forall (λ r, len (state r) ≤ u32_max) rs →
  (length (concat (frame_bytes <$> rs)) < fuel)%nat →
  (∀ prev fuel, Frame.decode_loop (S fuel) prev tail = Ok []) →
  Frame.decode_loop fuel prev (concat (frame_bytes <$> rs) ++ tail) = Ok rs.
Proof.
  revert prev fuel; induction rs as [|r rs IH]; intros prev fuel Hc Hs Hf Ht;
    cbn [fmap list_fmap concat] in *.
  - destruct fuel; [simpl in Hf; lia|]. apply Ht.
  - destruct Hc as (Hv & Hp & Hc). apply Forall_cons in Hs as [Hr Hs].
    destruct fuel as [|fuel]; [lia|]. rewrite <- app_assoc, decode_loop_frame by done.
    pose proof (frame_len r) as Hl. unfold len, HEADER in Hl.
    rewrite length_app in Hf. by rewrite IH by (done || lia).
Qed.

Lemma encode_all_bytes rs fs :
  Forall2 (λ r f, Frame.encode r = Ok f) rs fs →
  fs = frame_bytes <$> rs ∧ Forall (λ r, len (state r) ≤ u32_max) rs.
Proof.
  induction 1 as [|r f rs fs Hr _ [-> IH]]; [done|].
  apply frame_encode_inv in Hr as (-> & _ & Hl). split; [done|by constructor].
Qed.

(** A log survives a crash in the middle of an append: after any number of
    complete frames with consecutive versions, whatever strict prefix of a further
    frame reached the disk (the empty one included), reading the log gives exactly
    the complete records. *)
Theorem frame_decode_torn (rs : list LogRecord) (fs : list bytes) (r : LogRecord) (f tail : bytes) :
  Forall2 (λ r f, Frame.encode r = Ok f) rs fs → consecutive None rs →
  Frame.encode r = Ok f → tail `prefix_of` f → tail ≠ f →
  Frame.decode (concat fs ++ tail) = Ok rs.
Proof.
  intros [-> Hs]%encode_all_bytes Hc (-> & _ & Hr)%frame_encode_inv Hp Hne.
  apply decode_loop_frames; [done|done|rewrite length_app; lia|].
  intros prev fuel. by eapply decode_loop_tail.
Qed.

(** The record a complete, accepted frame holds, read off its bytes. *)
Lemma frame_of_header header st :
  len header = HEADER → Frame.length header = Ok (HEADER + len st) →
  Frame.checksum (takeN 16 header) st = sliceN 16 48 header →
  header ++ st = frame_bytes {| version := from_le_bytes (sliceN 8 16 header); state := st |}.
Proof.
  intros Hl Hn Hc. unfold Frame.length in Hn. inv_ok.
  match goal with H : takeN 4 header = _ |- _ => rename H into Hm end.
  match goal with H : HEADER + len st = _ |- _ => rename H into Hst end.
  assert (len st = from_le_bytes (sliceN 4 8 header)) as Hst' by lia.
  assert (takeN 16 header = Frame.preamble {| version := from_le_bytes (sliceN 8 16 header); state := st |}) as Hp.
  { unfold Frame.preamble; cbn [version state]. rewrite Hst', !to_from_le_bytes_w, <- Hm.
    - unfold sliceN. change 16 with (4 + (4 + 8)).
      rewrite takeN_add, takeN_add, dropN_dropN. done.
    - apply Nat2N.inj. change (len (sliceN 8 16 header) = 8). rewrite len_sliceN; [done|].
      rewrite Hl. unfold HEADER. lia.
    - apply Nat2N.inj. change (len (sliceN 4 8 header) = 4). rewrite len_sliceN; [done|].
      rewrite Hl. unfold HEADER. lia. }
  unfold frame_bytes, frame_header; cbn [version state]. f_equal. rewrite <- Hp, Hc.
  unfold sliceN. rewrite (takeN_all (48 - 16)) by (rewrite len_dropN, Hl; done).
  symmetry. apply takeN_dropN.
Qed.

Lemma decode_loop_canonical fuel prev bs rs :
  Frame.decode_loop fuel prev bs = Ok rs →
  consecutive prev rs ∧ ∃ tail, bs = concat (frame_bytes <$> rs) ++ tail ∧
    (len tail < HEADER ∨ ∃ n, Frame.length (takeN HEADER tail) = Ok n ∧ len tail < n).
Proof.
  revert prev bs rs; induction fuel as [|fuel IH]; intros prev bs rs; cbn [Frame.decode_loop]; [done|].
  destruct (N.ltb_spec (len bs) HEADER) as [|Hge]; [intros [= <-]; split; [done|]; exists bs; auto|].
  intros (n & Hn & Hd)%bind_Ok.
  destruct (N.ltb_spec (len bs) n) as [|Hn']; [injection Hd as <-; split; [done|]; exists bs; eauto|].
  inv_ok. rename x1 into rs'. subst rs.
  match goal with H : Frame.decode_loop _ _ _ = Ok _ |- _ => apply IH in H as (Hc & tail & Ht & Hend) end.
  set (h := takeN HEADER bs) in *.
  assert (len h = HEADER) as Hh by (unfold h; rewrite len_takeN; lia).
  assert (HEADER ≤ n) as HHn by (unfold Frame.length in Hn; inv_ok; lia).
  assert (len (sliceN HEADER n bs) = n - HEADER) as Hls by (by apply len_sliceN).
  assert (bs = (h ++ sliceN HEADER n bs) ++ dropN n bs) as Hbs.
  { unfold h, sliceN. rewrite <- app_assoc. replace n with (HEADER + (n - HEADER)) at 2 by lia.
    rewrite <- dropN_dropN. by rewrite !takeN_dropN. }
  split.
  - simpl. split_and!; [lia| | |done].
    + pose proof (from_le_bytes_bound (sliceN 8 16 h)) as Hb.
      rewrite len_sliceN in Hb by (rewrite Hh; done). change (256 ^ (16 - 8)) with 18446744073709551616 in Hb. unfold u64_max. lia.
    + destruct prev as [p|]; [|done]. inv_ok. lia.
  - exists tail. split; [|done]. cbn [fmap list_fmap concat]. rewrite <- app_assoc, <- Ht.
    rewrite <- frame_of_header; [exact Hbs|done| |done].
    rewrite Hls, Hn. f_equal. lia.
Qed.

(** The states of decoded records have a 32-bit length. *)
Lemma decode_loop_small fuel prev bs rs :
  Frame.decode_loop fuel prev bs = Ok rs → Forall (λ r, len (state r) ≤ u32_max) rs.
Proof.
  revert prev bs rs; induction fuel as [|fuel IH]; intros prev bs rs; cbn [Frame.decode_loop]; [done|].
  destruct (N.ltb_spec (len bs) HEADER) as [|Hge]; [intros [= <-]; constructor|].
  intros (n & Hn & Hd)%bind_Ok.
  destruct (N.ltb_spec (len bs) n) as [|Hn']; [injection Hd as <-; constructor|].
  inv_ok. subst rs. constructor; [|by eapply IH]. cbn [state]. unfold Frame.length in Hn. inv_ok.
  pose proof (from_le_bytes_bound (sliceN 4 8 (takeN HEADER bs))) as Hb.
  rewrite len_sliceN in Hb by (rewrite ?len_takeN; unfold HEADER in *; lia).
  change (256 ^ (8 - 4)) with 4294967296 in Hb.
  rewrite len_sliceN by lia. unfold u32_max, HEADER in *. lia.
Qed.

(** A longer log begins with the same records. *)
Lemma decode_loop_grows fuel fuel' prev bs more rs rs' :
  Frame.decode_loop fuel prev bs = Ok rs → Frame.decode_loop fuel' prev (bs ++ more) = Ok rs' →
  rs `prefix_of` rs'.
Proof.
  revert fuel' prev bs rs rs'; induction fuel as [|fuel IH]; intros fuel' prev bs rs rs'; [done|].
  destruct fuel' as [|fuel']; [done|]. cbn [Frame.decode_loop].
  destruct (N.ltb_spec (len bs) HEADER) as [|Hge]; [intros [= <-] _; apply prefix_nil|].
  rewrite (proj2 (N.ltb_ge (len (bs ++ more)) HEADER)) by (rewrite len_app; lia).
  assert (∀ n, n ≤ len bs → takeN n (bs ++ more) = takeN n bs) as Ht.
  { intros n Hn. unfold takeN. rewrite take_app_le; [done|]. unfold len in Hn. lia. }
  assert (∀ n, n ≤ len bs → dropN n (bs ++ more) = dropN n bs ++ more) as Hd.
  { intros n Hn. unfold dropN. rewrite drop_app_le; [done|]. unfold len in Hn. lia. }
  rewrite Ht by done. intros (n & Hn & H1)%bind_Ok (n' & Hn' & H2)%bind_Ok. assert (n' = n) as -> by congruence.
  destruct (N.ltb_spec (len bs) n) as [|Hle]; [injection H1 as <-; apply prefix_nil|].
  rewrite (proj2 (N.ltb_ge (len (bs ++ more)) n)) in H2 by (rewrite len_app; lia).
  assert (HEADER ≤ n) as HHn by (unfold Frame.length in Hn; inv_ok; lia).
  assert (sliceN HEADER n (bs ++ more) = sliceN HEADER n bs) as Hs.
  { unfold sliceN. rewrite Hd by lia. unfold takeN. rewrite take_app_le; [done|].
    pose proof (len_dropN HEADER bs) as Hl. unfold len in *. lia. }
  rewrite Hs, Hd in H2 by done. inv_ok. subst. apply prefix_cons. by eapply IH.
Qed.

(** The loop never runs out of fuel: each turn drops a whole header. *)
Lemma decode_loop_total fuel prev bs :
  (length bs < fuel)%nat → Frame.decode_loop fuel prev bs ≠ Err "out of fuel".
Proof.
  revert prev bs; induction fuel as [|fuel IH]; intros prev bs Hf; cbn [Frame.decode_loop]; [lia|].
  destruct (len bs <? HEADER) eqn:Eb; [done|]. destruct (Frame.length _) as [n|e] eqn:En; cbn [mbind result_bind].
  2: { intros [= ->]. unfold Frame.length, ensure, ctx in En.
       destruct (_ && _); cbn in En; [|discriminate En]. destruct (checked_add _ _); discriminate En. }
  destruct (len bs <? n) eqn:En'; [done|]. inv_ok.
  assert (HEADER ≤ n) by (unfold Frame.length in En; inv_ok; lia).
  assert (length (dropN n bs) < fuel)%nat as Hd.
  { unfold dropN, len, HEADER in *. rewrite length_drop. lia. }
  pose proof (IH (Some (from_le_bytes (sliceN 8 16 (takeN HEADER bs)))) _ Hd) as IH'.
  unfold ensure. destruct (Frame.decode_loop fuel _ (dropN n bs)) as [rs|e];
    repeat (case_match; cbn [mbind result_bind]; try by intros [=]); exact IH'.
Qed.
(** Every accepted log is the encoding of what was read from it: its bytes
    are the frames of the returned records, whose versions are positive and
    consecutive, followed only by an incomplete frame. Nothing is skipped,
    reordered or altered, and reading always ends. *)
Theorem frame_decode_canonical (bs : bytes) (rs : list LogRecord) :
  Frame.decode bs ≠ Err "out of fuel" ∧
  (Frame.decode bs = Ok rs →
   consecutive None rs ∧ ∃ tail, bs = concat (frame_bytes <$> rs) ++ tail ∧
     (len tail < HEADER ∨ ∃ n, Frame.length (takeN HEADER tail) = Ok n ∧ len tail < n)).
Proof. split; [apply decode_loop_total; lia|apply decode_loop_canonical]. Qed.
End frame_lemmas.

(** ** Witnesses *)

Import Stand_ins.

Definition demo_records : list LogRecord :=
  [{| version := 4; state := b"one" |}; {| version := 5; state := b"two" |}].

Definition demo_frames : list bytes := (λ r, default [] (ok (Frame.encode r))) <$> demo_records.

Definition demo_next : LogRecord := {| version := 6; state := b"three" |}.

Definition demo_next_frame : bytes := default [] (ok (Frame.encode demo_next)).

Lemma frame_decode_torn_witness :
  Frame.decode (concat demo_frames ++ take 50 demo_next_frame) = Ok demo_records.
Proof.
  apply (frame_decode_torn demo_records demo_frames demo_next demo_next_frame).
  - apply Forall2_cons. split; [vm_compute; reflexivity|].
    apply Forall2_cons. split; [vm_compute; reflexivity|]. apply Forall2_nil. exact I.
  - vm_compute. repeat split; discriminate || reflexivity.
  - vm_compute. reflexivity.
  - exists (drop 50 demo_next_frame). symmetry. apply take_drop.
  - vm_compute. discriminate.
Defined.

Lemma frame_decode_canonical_witness :
  consecutive None demo_records ∧ ∃ tail, concat demo_frames = concat (frame_bytes <$> demo_records) ++ tail ∧
    (len tail < HEADER ∨ ∃ n, Frame.length (takeN HEADER tail) = Ok n ∧ len tail < n).
Proof. apply (proj2 (frame_decode_canonical _ _)). vm_compute. reflexivity. Defined.
