(* ===== verification/StateLog.v ===== *)
(** * Actor commits and their binary format

    [src/src/state_log.rs] with its codec ([src/src/state_log/binary.rs], DAS2),
    the JSON form written before it ([src/src/state_log/legacy.rs]), the LTX files
    a commit carries ([src/src/litestream/storage.rs]) and the stream a commit is
    named in ([src/src/storage/stream.rs]). *)

From S2P Require Import Prelude Text Demo Names Payload.
Local Open Scope N_scope.

(** [serde_json::Value]: carried, never inspected. *)
Class JsonValue := Value : Type.

(** ** Data *)

Record LtxFile := {
  level : N;
  first : N;
  last : N;
  data : bytes;
}.

Record SqliteSnapshot := {
  txid : N;
  parent : option SnapshotRef;
  files : list LtxFile;
}.

Record StateAttribution := {
  operation : bytes;
  connection_id : option bytes;
  committed_at_ms : N;
  interleaved : bool;
}.

Record RequestCompletion `{JsonValue} := { completion_result : Value }.

Record StateSnapshot `{JsonValue} := {
  attribution : option StateAttribution;
  state_version : N;
  owner_epoch : N;
  request_id : bytes;
  sqlite : SqliteSnapshot;
  completion : option RequestCompletion;
}.

Record LegacySnapshot `{JsonValue} := {
  legacy_attribution : option StateAttribution;
  legacy_state_version : N;
  legacy_owner_epoch : N;
  legacy_request_id : bytes;
  legacy_sqlite : SqliteSnapshot;
  legacy_result : Value;
}.

Record FileHeader := {
  header_level : N;
  header_first : N;
  header_last : N;
  header_bytes : N;
}.

Record Envelope (T : Type) := {
  value : T;
  file_headers : list FileHeader;
}.
Arguments value {T} _.
Arguments file_headers {T} _.
Arguments Build_Envelope {T} _ _.

(** ** LTX files *)

Definition ltx_validate (f : LtxFile) : result unit :=
  ensure ((level f =? 0) || (level f =? 9)) "invalid LTX level";;
  ensure ((0 <? first f) && (first f <=? last f)) "invalid LTX transaction range";;
  ensure ((level f != 9) || (first f =? 1)) "invalid LTX snapshot";;
  ensure (starts_with (b"LTX1") (data f)) "malformed LTX file".

(** The transaction loop of [SqliteSnapshot::validate]: [next] is the first
    transaction the following file must start at. *)
Definition ltx_step (next : N) (f : LtxFile) : result N :=
  ltx_validate f;;
  ensure (first f =? next) "SQLite transaction gap";;
  ctx (checked_add (last f) 1) "SQLite transaction overflow".

Definition sqlite_validate (s : SqliteSnapshot) (state_version : N) : result unit :=
  ensure (0 <? txid s) "SQLite transaction must be positive";;
  f ← ctx (head (files s)) "SQLite commit has no replication files";
  ensure (Bool.eqb (first f =? 1) (bool_decide (parent s = None))) "SQLite dependency mismatch";;
  match parent s with
  | Some p => ensure (ref_state_version p <? state_version) "SQLite dependency must precede its commit"
  | None => Ok ()
  end;;
  next ← foldM ltx_step (first f) (files s);
  ensure (bool_decide (checked_sub next 1 = Some (txid s))) "SQLite transaction mismatch".

(** ** The DAS2 container *)

Module Binary.

Definition MAGIC : bytes := b"DAS2".
Definition PREFIX : N := len MAGIC + 4.

Definition file_header (f : LtxFile) : FileHeader :=
  {| header_level := level f; header_first := first f; header_last := last f;
     header_bytes := len (data f) |}.

Definition is_binary (bs : bytes) : bool := starts_with MAGIC bs.

Definition encode `{Json (Envelope T)} (v : T) (fs : list LtxFile) : result bytes :=
  let header := to_json {| value := v; file_headers := file_header <$> fs |} in
  ensure (len header <=? u32_max) "state header too large";;
  spool_all (MAGIC :: to_le_bytes 4 (len header) :: header :: (data <$> fs)).

(** Cuts the payload after the headers into the files they announce. *)
Fixpoint cut_files (payload : bytes) (offset : N) (hs : list FileHeader)
    : result (N * list LtxFile) :=
  match hs with
  | [] => Ok (offset, [])
  | h :: hs =>
      stop ← ctx (e ← checked_add offset (header_bytes h);
                  if e <=? len payload then Some e else None) "truncated LTX data";
      let f := {| level := header_level h; first := header_first h; last := header_last h;
                  data := sliceN offset stop payload |} in
      '(o, fs) ← cut_files payload stop hs;
      Ok (o, f :: fs)
  end.

Definition decode `{Json (Envelope T)} (bs : bytes) : result (T * list LtxFile) :=
  ensure (is_binary bs && (PREFIX <=? len bs)) "not a binary state object";;
  let length := from_le_bytes (sliceN (len MAGIC) PREFIX bs) in
  start ← ctx (s ← checked_add PREFIX length; if s <=? len bs then Some s else None)
            "truncated state header";
  envelope ← ctx (from_json (A := Envelope T) (sliceN PREFIX start bs)) "invalid state header";
  let payload := dropN start bs in
  '(offset, fs) ← cut_files payload 0 (file_headers envelope);
  ensure (offset =? len payload) "unexpected bytes after LTX data";;
  Ok (value envelope, fs).

End Binary.

(** ** Commits *)

Definition with_files (s : SqliteSnapshot) (fs : list LtxFile) : SqliteSnapshot :=
  {| txid := txid s; parent := parent s; files := fs |}.

Section snapshot.
Context `{JsonValue}.

Definition with_sqlite (s : StateSnapshot) (q : SqliteSnapshot) : StateSnapshot :=
  {| attribution := attribution s; state_version := state_version s;
     owner_epoch := owner_epoch s; request_id := request_id s; sqlite := q;
     completion := completion s |}.

Definition snapshot_validate (s : StateSnapshot) : result unit :=
  ensure (0 <? state_version s) "actor state version must be positive";;
  ensure (0 <? owner_epoch s) "owner epoch must be positive";;
  ensure ((request_id s != []) && (len (request_id s) <=? 255)) "actor state request ID is invalid";;
  sqlite_validate (sqlite s) (state_version s).

Definition snapshot_new (version epoch : N) (request : bytes) (q : SqliteSnapshot) (res : Value)
    : result StateSnapshot :=
  let s := {| attribution := None; state_version := version; owner_epoch := epoch;
              request_id := request; sqlite := q; completion := Some {| completion_result := res |} |} in
  snapshot_validate s;; Ok s.

Definition legacy_snapshot (l : LegacySnapshot) : StateSnapshot :=
  {| attribution := legacy_attribution l; state_version := legacy_state_version l;
     owner_epoch := legacy_owner_epoch l; request_id := legacy_request_id l;
     sqlite := legacy_sqlite l; completion := Some {| completion_result := legacy_result l |} |}.

Context `{!Json (Envelope StateSnapshot), !Json StateSnapshot, !Json LegacySnapshot}.

Definition legacy_decode (bs : bytes) : option StateSnapshot := legacy_snapshot <$> from_json bs.

Definition snapshot_decode (bs : bytes) : result StateSnapshot :=
  s ← (if Binary.is_binary bs then
         '(s, fs) ← Binary.decode bs;
         ensure (match files (sqlite s) with [] => true | _ => false end) "duplicate LTX files";;
         Ok (with_sqlite s (with_files (sqlite s) fs))
       else ctx (match from_json bs with
                 | Some s => Some s
                 | None => legacy_decode bs
                 end) "invalid actor state");
  snapshot_validate s;;
  Ok s.

Definition snapshot_encode (s : StateSnapshot) : result bytes :=
  snapshot_validate s;;
  Binary.encode (with_sqlite s (with_files (sqlite s) [])) (files (sqlite s)).

Context `{Digest} `{Base64}.

Definition validate_object (s : StateSnapshot) (obj : bytes) : result unit :=
  match parent (sqlite s) with
  | Some p =>
      mine ← actor_from_snapshot obj;
      theirs ← actor_from_snapshot (object p);
      ensure (mine == theirs) "SQLite dependency belongs to another actor"
  | None => Ok ()
  end.

(** [SnapshotRef::new] *)
Definition snapshot_ref (obj : bytes) (s : StateSnapshot) (bs : bytes) : SnapshotRef :=
  {| object := obj; ref_state_version := state_version s; ref_request_id := request_id s;
     digest := checksum bs |}.

(** [StateStream::snapshot]: a commit accepted into a stream. *)
Definition stream_snapshot (st : StateStream) (bs : bytes) : result SnapshotRef :=
  s ← snapshot_decode bs;
  validate_object s (stream_object st (state_version s));;
  ensure ((owner_epoch s =? stream_owner_epoch st) && (base_version st <? state_version s))
    "snapshot belongs to another stream";;
  Ok (snapshot_ref (stream_object st (state_version s)) s bs).

End snapshot.

(** ** The container: lemmas *)

Definition total_data (fs : list LtxFile) : N := len (concat (data <$> fs)).

Lemma total_data_cons f fs : total_data (f :: fs) = len (data f) + total_data fs.
Proof. unfold total_data. simpl. by rewrite len_app. Qed.

Lemma cut_files_app pre fs post :
  len pre + total_data fs ≤ u64_max →
  Binary.cut_files (pre ++ concat (data <$> fs) ++ post) (len pre) (Binary.file_header <$> fs)
  = Ok (len pre + total_data fs, fs).
Proof.
  revert pre; induction fs as [|f fs IH]; intros pre Hl; cbn [fmap list_fmap Binary.cut_files].
  - unfold total_data. simpl. by rewrite N.add_0_r.
  - rewrite total_data_cons in Hl. cbn [concat Binary.file_header header_bytes].
    unfold checked_add. rewrite (proj2 (N.leb_le _ u64_max)) by lia.
    cbn [mbind option_bind]. rewrite (proj2 (N.leb_le _ _)) by (rewrite !len_app; lia).
    cbn [ctx mbind result_bind]. rewrite <- app_assoc.
    rewrite (sliceN_app pre (data f)) by done.
    rewrite app_assoc, <- len_app, IH by (rewrite len_app; lia).
    cbn. rewrite len_app, total_data_cons, N.add_assoc. by destruct f.
Qed.

(** A payload that ends before the announced files do is refused. *)
Lemma cut_files_short payload off fs r :
  len payload < off + total_data fs →
  Binary.cut_files payload off (Binary.file_header <$> fs) = Ok r → len payload < fst r.
Proof.
  revert off r; induction fs as [|f fs IH]; intros off r Hl; cbn [fmap list_fmap Binary.cut_files].
  - intros [= <-]. change (total_data []) with 0 in Hl. cbn [fst]. lia.
  - rewrite total_data_cons in Hl. intros Hc.
    apply bind_Ok in Hc as (stop & Hstop & Hc). apply ctx_Ok in Hstop.
    apply bind_Some in Hstop as (e & He & Hle). case_match eqn:E; [|done].
    injection Hle as <-. inv_ok. subst. destruct x as [o fs']. inv_ok. subst. simpl in *.
    eapply (IH (off + len (data f)) (o, fs')); [lia|done].
Qed.

Section binary_lemmas.
Context `{JsonLaws (Envelope T)}.

Lemma binary_encode_inv (v : T) fs bs :
  Binary.encode v fs = Ok bs →
  let header := to_json {| value := v; file_headers := Binary.file_header <$> fs |} in
  bs = Binary.MAGIC ++ to_le_bytes 4 (len header) ++ header ++ concat (data <$> fs) ∧
  len header ≤ u32_max ∧ len bs ≤ MAX_FILE_BYTES.
Proof.
  unfold Binary.encode. intros He. inv_ok. rewrite spool_all_spec in *.
  case_match; [|done]. inv_ok. subst. simpl. done.
Qed.

(** The header of an encoded object, whatever follows its payload. *)
Lemma binary_decode_header (v : T) fs payload :
  let header := to_json {| value := v; file_headers := Binary.file_header <$> fs |} in
  len header ≤ u32_max →
  Binary.decode (Binary.MAGIC ++ to_le_bytes 4 (len header) ++ header ++ payload) =
  ('(offset, fs') ← Binary.cut_files payload 0 (Binary.file_header <$> fs);
   ensure (offset =? len payload) "unexpected bytes after LTX data";;
   Ok (v, fs')).
Proof.
  intros header Hh. unfold Binary.decode, Binary.is_binary.
  assert (len (to_le_bytes 4 (len header)) = 4) as Hw by (unfold len; by rewrite length_to_le_bytes).
  change Binary.PREFIX with 8. change (len Binary.MAGIC) with 4 in *.
  rewrite starts_with_app. rewrite (proj2 (N.leb_le _ _)) by
    (rewrite len_app, (len_app (to_le_bytes _ _)), Hw; change (len Binary.MAGIC) with 4; lia).
  cbn [andb ensure mbind result_bind].
  rewrite (sliceN_app Binary.MAGIC (to_le_bytes 4 (len header))) by (done || rewrite Hw; done).
  rewrite from_to_le_bytes by (unfold u32_max in *; simpl; lia).
  unfold checked_add. rewrite (proj2 (N.leb_le _ u64_max)) by (unfold u32_max, u64_max in *; lia).
  cbn [mbind option_bind]. rewrite (proj2 (N.leb_le _ _)) by
    (rewrite !len_app, Hw; change (len Binary.MAGIC) with 4; lia).
  cbn [ctx mbind result_bind]. rewrite (app_assoc Binary.MAGIC).
  assert (len (Binary.MAGIC ++ to_le_bytes 4 (len header)) = 8) as Hp by (rewrite len_app, Hw; done).
  rewrite (sliceN_app (Binary.MAGIC ++ to_le_bytes 4 (len header)) header payload) by (by rewrite Hp).
  assert (from_json header = Some {| value := v; file_headers := Binary.file_header <$> fs |})
    as -> by apply from_to_json.
  cbn [ctx mbind result_bind file_headers value].
  rewrite app_assoc.
  replace (8 + len header) with (len ((Binary.MAGIC ++ to_le_bytes 4 (len header)) ++ header))
    by (by rewrite len_app, Hp).
  rewrite dropN_app. done.
Qed.

Lemma binary_decode_encode (v : T) fs bs :
  Binary.encode v fs = Ok bs → Binary.decode bs = Ok (v, fs).
Proof.
  intros (-> & Hh & Hl)%binary_encode_inv. rewrite binary_decode_header by done.
  pose proof (cut_files_app [] fs []) as Hc. rewrite app_nil_r, len_nil in Hc. simpl in Hc.
  rewrite Hc.
  - cbn. by rewrite N.eqb_refl.
  - rewrite !len_app in Hl. unfold total_data. unfold MAX_FILE_BYTES, u64_max in *. lia.
Qed.

(** The DAS2 container is lossless: decoding an encoded object gives back its
    value and its files, and nothing else is read as the same object. *)
Theorem binary_roundtrip (v v' : T) (fs fs' : list LtxFile) (bs : bytes) :
  Binary.encode v fs = Ok bs →
  Binary.decode bs = Ok (v, fs) ∧ (Binary.encode v' fs' = Ok bs → v' = v ∧ fs' = fs).
Proof.
  intros He%binary_decode_encode. split; [done|].
  intros He'%binary_decode_encode. rewrite He in He'. by simplify_eq.
Qed.

Lemma prefix_app_cases {A} (p l k : list A) :
  p `prefix_of` l ++ k → (p `prefix_of` l ∧ p ≠ l) ∨ ∃ q, p = l ++ q ∧ q `prefix_of` k.
Proof.
  revert p; induction l as [|x l IH]; intros p Hp; simpl in *; [right; by exists p|].
  destruct p as [|y p]; [left; split; [apply prefix_nil|done]|].
  pose proof (prefix_cons_inv_1 _ _ _ _ Hp) as ->. apply prefix_cons_inv_2 in Hp.
  destruct (IH p Hp) as [[? ?]|(q & -> & ?)]; [left|right; by exists q].
  split; [by apply prefix_cons|congruence].
Qed.

Lemma prefix_length_lt {A} (p l : list A) : p `prefix_of` l → p ≠ l → len p < len l.
Proof.
  intros [k ->] Hne. rewrite len_app. destruct k as [|x k]; [by rewrite app_nil_r in Hne|].
  rewrite len_cons. lia.
Qed.

(** An object whose header is cut short is refused. *)
Lemma binary_decode_short (w q : bytes) (n : N) :
  len w = 4 → from_le_bytes w = n → len q < n →
  Binary.decode (T := T) (Binary.MAGIC ++ w ++ q) = Err "truncated state header".
Proof.
  intros Hw Hn Hq. unfold Binary.decode, Binary.is_binary. rewrite starts_with_app.
  change Binary.PREFIX with 8. rewrite (proj2 (N.leb_le _ _)) by
    (rewrite !len_app, Hw; change (len Binary.MAGIC) with 4; lia).
  cbn [andb ensure mbind result_bind].
  rewrite (sliceN_app Binary.MAGIC w q) by (done || rewrite Hw; done). rewrite Hn.
  unfold checked_add. case_match; cbn [mbind option_bind]; [|done].
  by rewrite (proj2 (N.leb_gt _ _)) by (rewrite !len_app, Hw; change (len Binary.MAGIC) with 4; lia).
Qed.

Lemma binary_decode_tiny (p : bytes) :
  len p < 8 → Binary.decode (T := T) p = Err "not a binary state object".
Proof.
  intros Hp. unfold Binary.decode. change Binary.PREFIX with 8.
  rewrite (proj2 (N.leb_gt _ _)) by done. by rewrite andb_false_r.
Qed.

(** A truncated object is never accepted: decoding any strict prefix of an
    encoded object fails, wherever the cut falls. *)
Theorem binary_truncation (v : T) (fs : list LtxFile) (bs p : bytes) :
  Binary.encode v fs = Ok bs → p `prefix_of` bs → p ≠ bs →
  ∃ e, Binary.decode (T := T) p = Err e.
Proof.
  intros (-> & Hh & Hl)%binary_encode_inv Hpre Hne. set (header := to_json _) in *.
  assert (len (to_le_bytes 4 (len header)) = 4) as Hw by (unfold len; by rewrite length_to_le_bytes).
  rewrite app_assoc in Hpre. apply prefix_app_cases in Hpre as [[Hp Hp']|(q & -> & Hq)].
  { eexists. apply binary_decode_tiny. pose proof (prefix_length_lt _ _ Hp Hp') as Hlt.
    rewrite len_app, Hw in Hlt. exact Hlt. }
  rewrite <- app_assoc in *. apply prefix_app_cases in Hq as [[Hq Hq']|(r & -> & Hr)].
  { eexists. eapply binary_decode_short; [done| |by apply prefix_length_lt].
    apply from_to_le_bytes. unfold u32_max in *. simpl. lia. }
  unfold header. rewrite binary_decode_header by done. fold header.
  assert (len r < total_data fs) as Hlr by (apply prefix_length_lt; [done|congruence]).
  destruct (Binary.cut_files r 0 (Binary.file_header <$> fs)) as [[o fs']|e] eqn:Ec; simpl; [|eauto].
  pose proof (cut_files_short r 0 fs (o, fs') ltac:(lia) Ec) as Ho. simpl in Ho.
  rewrite (proj2 (N.eqb_neq o (len r))) by lia. simpl. eauto.
Qed.
End binary_lemmas.

(** ** Commits: lemmas *)

Lemma ltx_validate_range f : ltx_validate f = Ok () → 0 < first f ≤ last f.
Proof. unfold ltx_validate. intros Hv. inv_ok. lia. Qed.

Lemma ltx_step_inv next f next' :
  ltx_step next f = Ok next' → ltx_validate f = Ok () ∧ first f = next ∧ next' = last f + 1.
Proof.
  unfold ltx_step. intros Hs. inv_ok. repeat match goal with u : unit |- _ => destruct u end.
  done.
Qed.

(** A file holds transaction [t]. *)
Definition holds (t : N) (f : LtxFile) : Prop := first f ≤ t ≤ last f.

Lemma ltx_chain next fs next' :
  foldM ltx_step next fs = Ok next' →
  next ≤ next' ∧ Forall (λ f, ltx_validate f = Ok ()) fs ∧
  (∀ t, next ≤ t < next' ↔ ∃ i f, fs !! i = Some f ∧ holds t f) ∧
  (∀ i j f g t, fs !! i = Some f → fs !! j = Some g → holds t f → holds t g → i = j).
Proof.
  revert next; induction fs as [|f fs IH]; intros next; simpl.
  { intros [= <-]. split_and!; [lia|constructor| |done].
    intros t. split; [lia|intros (i & f & Hi & _); by rewrite lookup_nil in Hi]. }
  intros (n & (Hv & <- & ->)%ltx_step_inv & Hf)%bind_Ok.
  destruct (IH _ Hf) as (Hle & Hall & Hcov & Huniq). pose proof (ltx_validate_range f Hv).
  split_and!; [lia|by constructor| |].
  - intros t. split.
    + intros Ht. destruct (decide (t ≤ last f)) as [Htl|Htl].
      * exists 0%nat, f. split; [done|]. split; lia.
      * destruct (proj1 (Hcov t)) as (i & g & Hi & Hg); [lia|]. by exists (S i), g.
    + intros ([|i] & g & Hi & Hg); simpl in Hi; [simplify_eq; unfold holds in Hg; lia|].
      assert (last f + 1 ≤ t < next') by (apply Hcov; eauto). lia.
  - assert (∀ i g t, fs !! i = Some g → holds t g → holds t f → False) as Hno.
    { intros i g t Hi Hg Hh. assert (last f + 1 ≤ t < next') by (apply Hcov; eauto).
      unfold holds in Hh. lia. }
    intros [|i] [|j] g g' t Hi Hj Hg Hg'; simpl in *; simplify_eq; try done.
    + exfalso. eauto.
    + exfalso. eauto.
    + f_equal. eauto.
Qed.

(** The replication files of a valid commit form one unbroken history: they
    hold every transaction from the first one of the first file up to the
    commit's transaction, each exactly once, and the history is complete (starts
    at transaction 1) exactly when the commit has no parent. *)
Theorem sqlite_validate_history (s : SqliteSnapshot) (v : N) :
  sqlite_validate s v = Ok () →
  ∃ f0, head (files s) = Some f0 ∧
    (∀ t, first f0 ≤ t ≤ txid s ↔ ∃ i f, files s !! i = Some f ∧ holds t f) ∧
    (∀ i j f g t, files s !! i = Some f → files s !! j = Some g → holds t f → holds t g → i = j) ∧
    (first f0 = 1 ↔ parent s = None) ∧
    (∀ p, parent s = Some p → ref_state_version p < v).
Proof.
  unfold sqlite_validate. intros Hv. inv_ok. rename x0 into f0. exists f0.
  match goal with H : foldM _ _ _ = Ok _ |- _ => apply ltx_chain in H as (Hle & Hf & Hcov & Hu) end.
  split; [done|]. split_and!.
  - intros t. rewrite <- Hcov. lia.
  - done.
  - match goal with H : Bool.eqb _ _ = true |- _ => apply Bool.eqb_prop in H; rename H into Hp end.
    rewrite <- N.eqb_eq, Hp. apply bool_decide_eq_true.
  - intros p Hp. rewrite Hp in *. by inv_ok.
Qed.

Section snapshot_lemmas.
Context `{JsonValue} `{!Json (Envelope StateSnapshot), !Json StateSnapshot, !Json LegacySnapshot}.
Context `{!JsonLaws (Envelope StateSnapshot)}.

Lemma with_sqlite_files s fs :
  with_sqlite (with_sqlite s (with_files (sqlite s) []))
    (with_files (with_files (sqlite s) []) fs) = with_sqlite s (with_files (sqlite s) fs).
Proof. done. Qed.

(** C40. A commit survives storage: decoding an encoded commit gives back the
    commit, and only valid commits are encoded. *)
Theorem snapshot_roundtrip (s : StateSnapshot) (bs : bytes) :
  snapshot_encode s = Ok bs → snapshot_decode bs = Ok s ∧ snapshot_validate s = Ok ().
Proof.
  unfold snapshot_encode. intros Hs. inv_ok. match goal with u : unit |- _ => destruct u end.
  match goal with H : Binary.encode _ _ = Ok _, H' : snapshot_validate _ = Ok _ |- _ =>
    rename H into He, H' into Hv end. split; [|done].
  unfold snapshot_decode.
  assert (Binary.is_binary bs = true) as ->.
  { destruct (binary_encode_inv _ _ _ He) as [-> _]. apply starts_with_app. }
  rewrite (binary_decode_encode _ _ _ He). cbn [mbind result_bind files sqlite with_sqlite with_files ensure].
  assert (with_sqlite s (with_files (sqlite s) (files (sqlite s))) = s) as Hs.
  { by destruct s as [at_ sv oe rq [tx pa fs] co]. }
  change (with_sqlite _ _) with (with_sqlite s (with_files (sqlite s) (files (sqlite s)))).
  by rewrite Hs, Hv.
Qed.
End snapshot_lemmas.

(** ** Witnesses *)

Module Stand_in_commits.
Export Stand_ins.

#[export] Instance demo_value : JsonValue := bytes.

#[export] Instance ser_SnapshotRef : Ser SnapshotRef :=
  ser_iso (λ r, (object r, ref_state_version r, ref_request_id r, digest r))
          (λ '(o, v, q, d), Build_SnapshotRef o v q d) ltac:(by intros []).

#[export] Instance ser_LtxFile : Ser LtxFile :=
  ser_iso (λ f, (level f, first f, last f, data f))
          (λ '(l, a, z, d), Build_LtxFile l a z d) ltac:(by intros []).

#[export] Instance ser_SqliteSnapshot : Ser SqliteSnapshot :=
  ser_iso (λ s, (txid s, parent s, files s))
          (λ '(t, p, f), Build_SqliteSnapshot t p f) ltac:(by intros []).

#[export] Instance ser_StateAttribution : Ser StateAttribution :=
  ser_iso (λ a, (operation a, connection_id a, committed_at_ms a, interleaved a))
          (λ '(o, c, m, i), Build_StateAttribution o c m i) ltac:(by intros []).

#[export] Instance ser_RequestCompletion : Ser RequestCompletion :=
  @ser_iso RequestCompletion bytes _ completion_result (λ v, Build_RequestCompletion _ v) ltac:(by intros []).

#[export] Instance ser_StateSnapshot : Ser StateSnapshot :=
  ser_iso (λ s, (attribution s, state_version s, owner_epoch s, request_id s, sqlite s, completion s))
          (λ '(a, v, e, r, q, c), Build_StateSnapshot _ a v e r q c) ltac:(by intros []).

#[export] Instance ser_LegacySnapshot : Ser LegacySnapshot :=
  @ser_iso LegacySnapshot (option StateAttribution * N * N * bytes * SqliteSnapshot * bytes) _
    (λ s, (legacy_attribution s, legacy_state_version s, legacy_owner_epoch s,
           legacy_request_id s, legacy_sqlite s, legacy_result s))
    (λ '(a, v, e, r, q, c), Build_LegacySnapshot _ a v e r q c) ltac:(by intros []).

#[export] Instance ser_FileHeader : Ser FileHeader :=
  ser_iso (λ h, (header_level h, header_first h, header_last h, header_bytes h))
          (λ '(l, a, z, n), Build_FileHeader l a z n) ltac:(by intros []).

#[export] Instance ser_Envelope `{Ser T} : Ser (Envelope T) :=
  ser_iso (λ e, (value e, file_headers e)) (λ '(v, h), Build_Envelope v h) ltac:(by intros []).

End Stand_in_commits.
Import Stand_in_commits.

Definition demo_ltx (a z : N) : LtxFile :=
  {| level := 0; first := a; last := z; data := b"LTX1" ++ show_dec a |}.

Definition demo_snapshot (version epoch : N) (p : option SnapshotRef) (fs : list LtxFile) (tx : N)
    : StateSnapshot :=
  {| attribution := None; state_version := version; owner_epoch := epoch; request_id := b"r1";
     sqlite := {| txid := tx; parent := p; files := fs |};
     completion := Some {| completion_result := b"ok" : @Value demo_value |} |}.

Definition demo_commit : StateSnapshot := demo_snapshot 1 7 None [demo_ltx 1 2; demo_ltx 3 3] 3.

Definition demo_commit_bytes : bytes := default [] (ok (snapshot_encode demo_commit)).

Lemma binary_roundtrip_witness :
  Binary.decode (default [] (ok (Binary.encode 5 [demo_ltx 1 2]))) = Ok (5, [demo_ltx 1 2]).
Proof.
  refine (proj1 (binary_roundtrip 5 5 [demo_ltx 1 2] [] _ _)). vm_compute. reflexivity.
Defined.

Lemma binary_truncation_witness :
  ∃ e, Binary.decode (T := N) (take 20 (default [] (ok (Binary.encode 5 [demo_ltx 1 2])))) = Err e.
Proof.
  apply (binary_truncation 5 [demo_ltx 1 2] (default [] (ok (Binary.encode 5 [demo_ltx 1 2])))).
  - vm_compute. reflexivity.
  - eexists (drop 20 _). symmetry. apply take_drop.
  - vm_compute. discriminate.
Defined.

Lemma sqlite_validate_history_witness :
  ∃ f0, head (files (sqlite demo_commit)) = Some f0 ∧
    (∀ t, first f0 ≤ t ≤ 3 ↔ ∃ i f, files (sqlite demo_commit) !! i = Some f ∧ holds t f) ∧
    (∀ i j f g t, files (sqlite demo_commit) !! i = Some f → files (sqlite demo_commit) !! j = Some g →
      holds t f → holds t g → i = j) ∧
    (first f0 = 1 ↔ parent (sqlite demo_commit) = None) ∧
    (∀ p, parent (sqlite demo_commit) = Some p → ref_state_version p < 1).
Proof. apply (sqlite_validate_history (sqlite demo_commit) 1). vm_compute. reflexivity. Defined.

Lemma snapshot_roundtrip_witness :
  snapshot_decode demo_commit_bytes = Ok demo_commit ∧ snapshot_validate demo_commit = Ok ().
Proof. apply snapshot_roundtrip. vm_compute. reflexivity. Defined.
