(* ===== verification/Effects.v ===== *)
(** * Storage effects

    The storage code is asynchronous and runs against buckets that other
    processes change at the same time. A handler is a program over the operations
    of the [Bucket], [Clock], [LogZone] and [LogWriter] traits
    ([src/src/bucket.rs], [src/src/clock.rs], [src/src/bucket/rapid.rs]) and
    over the process's own locked state. The same program is executed
    ([run], a fault-free environment, for concrete inputs) and reasoned about
    ([wp], any interference and any documented fault between two operations). *)

From S2P Require Import Prelude Text StateLog.
Local Open Scope N_scope.

(** ** Operations *)

(** The two buckets of a deployment: ownership records, and archived state. With
    local persistence the authority bucket holds the state as well. *)
Inductive bucket_id := Authority | Archive.

#[global] Instance bucket_id_eq_dec : EqDecision bucket_id.
Proof. solve_decision. Defined.

#[global] Instance bucket_id_countable : Countable bucket_id :=
  inj_countable' (λ i, match i with Authority => true | Archive => false end)
    (λ c : bool, if c then Authority else Archive) ltac:(by intros []).

(** [BucketObject] *)
Record BucketObject := {
  generation : Z;
  obj_bytes : bytes;
}.

#[global] Instance BucketObject_eq_dec : EqDecision BucketObject.
Proof. solve_decision. Defined.

(** [Replica] *)
Record Replica := {
  replica_bucket : bytes;
  replica_object : bytes;
  replica_generation : Z;
}.

#[global] Instance Replica_eq_dec : EqDecision Replica.
Proof. solve_decision. Defined.

Section op.
Context (L : Type).

Inductive op : Type :=
| BucketGet (i : bucket_id) (key : bytes)
| BucketRange (i : bucket_id) (key : bytes) (start length : N)
| BucketCas (i : bucket_id) (key : bytes) (expected : option Z) (bs : bytes)
| BucketList (i : bucket_id) (pre : bytes)
| Now
(** The monotonic clock, which cannot fail. *)
| Instant
| NewUuid
| ZoneOpen (zone obj : bytes)
| ZoneRead (r : Replica) (fence : bool)
| ZoneReadRange (r : Replica) (start length : N)
| ZoneDelete (r : Replica)
| ZoneAppend (r : Replica) (bs : bytes)
| Compact (fs : list LtxFile)
(** Has the deadline in force passed? *)
| Timer
(** Which of two concurrent tasks runs next. *)
| Schedule
(** A critical section on the process's own state. *)
| Atomic {X : Type} (f : L → X * L).

Definition resp (o : op) : Type :=
  match o with
  | BucketGet _ _ | BucketRange _ _ _ _ => option BucketObject
  | BucketCas _ _ _ _ => bool
  | BucketList _ _ => list bytes
  | Now | Instant => N
  | NewUuid => bytes
  | ZoneOpen _ _ => Replica
  | ZoneRead _ _ | ZoneReadRange _ _ _ => bytes
  | ZoneDelete _ => unit
  | ZoneAppend _ _ => N
  | Compact _ => LtxFile
  | Timer | Schedule => bool
  | @Atomic X _ => X
  end.

(** A program either has a result or performs an operation and continues with
    whatever it answers, an error included. *)
Inductive prog (A : Type) : Type :=
| Done (r : result A)
| Op (o : op) (k : result (resp o) → prog A).
End op.

Arguments BucketGet {L}. Arguments BucketRange {L}. Arguments BucketCas {L}.
Arguments BucketList {L}. Arguments Now {L}. Arguments Instant {L}. Arguments NewUuid {L}.
Arguments ZoneOpen {L}. Arguments ZoneRead {L}. Arguments ZoneReadRange {L}.
Arguments ZoneDelete {L}. Arguments ZoneAppend {L}. Arguments Compact {L}.
Arguments Timer {L}. Arguments Schedule {L}. Arguments Atomic {L X}.
Arguments resp {L} o.
Arguments Done {L A} r. Arguments Op {L A} o k.

Section prog.
Context {L : Type}.
Implicit Types A B : Type.

#[global] Instance prog_ret : MRet (prog L) := λ A a, Done (Ok a).

Fixpoint prog_bind_ {A B} (f : A → prog L B) (p : prog L A) : prog L B :=
  match p with
  | Done (Ok a) => f a
  | Done (Err e) => Done (Err e)
  | Op o k => Op o (λ x, prog_bind_ f (k x))
  end.
#[global] Instance prog_bind : MBind (prog L) := @prog_bind_.

(** An operation with [?]. *)
Definition perform (o : op L) : prog L (resp o) := Op o Done.

(** A pure check or conversion with [?]. *)
Definition lift {A} (r : result A) : prog L A := Done r.

(** Turns a failure into a value: [match call.await { Ok(..) => .., Err(..) => .. }]. *)
Fixpoint attempt {A} (p : prog L A) : prog L (result A) :=
  match p with
  | Done r => Done (Ok r)
  | Op o k => Op o (λ x, attempt (k x))
  end.

(** [tokio::time::timeout]: the deadline is looked at first and after every
    operation, so an operation may have taken effect when it strikes. *)
Fixpoint deadline_go {A} (e : string) (p : prog L A) : prog L A :=
  match p with
  | Done r => Done r
  | Op o k => Op o (λ x, Op Timer (λ t : result bool,
      match t with Ok true => Done (Err e) | _ => deadline_go e (k x) end))
  end.

Definition deadline {A} (e : string) (p : prog L A) : prog L A :=
  Op Timer (λ t : result bool, match t with Ok true => Done (Err e) | _ => deadline_go e p end).

(** [bounded] of [src/src/bucket/rapid.rs]. *)
Definition bounded {A} (p : prog L A) : prog L A := deadline "log operation timed out" p.

(** [tokio::join!]: both tasks run to their end, interleaved operation by
    operation. *)
Fixpoint join {A B} (p : prog L A) : prog L B → prog L (result A * result B) :=
  match p with
  | Done r => λ q, s ← attempt q; Done (Ok (r, s))
  | Op o k =>
      fix go (q : prog L B) : prog L (result A * result B) :=
        match q with
        | Done s => r ← attempt (Op o k); Done (Ok (r, s))
        | Op o' k' => Op Schedule (λ left : result bool,
            match left with
            | Ok true => Op o (λ x, join (k x) q)
            | _ => Op o' (λ y, go (k' y))
            end)
        end
  end.

(** [tokio::try_join!] with the other task run on even when one has failed. *)
Definition try_join {A B} (p : prog L A) (q : prog L B) : prog L (A * B) :=
  '(r, s) ← join p q; x ← lift r; y ← lift s; mret (x, y).

(** [futures_util::future::join_all] *)
Fixpoint join_all {A} (ps : list (prog L A)) : prog L (list (result A)) :=
  match ps with
  | [] => mret []
  | p :: ps => '(r, rs) ← join p (join_all ps); rs ← lift rs; mret (r :: rs)
  end.

(** [tokio::select!] on two tasks: [f] goes on with the first one's result and
    the rest of the second, [g] the other way round; either may win when both are
    ready. *)
Fixpoint select {A B C} (f : result A → prog L B → prog L C) (g : prog L A → result B → prog L C)
    (p : prog L A) : prog L B → prog L C :=
  match p with
  | Done r => λ q, match q with
      | Done s => Op Schedule (λ left : result bool,
          match left with Ok true => f r q | _ => g (Done r) s end)
      | _ => f r q
      end
  | Op o k =>
      fix go (q : prog L B) : prog L C :=
        match q with
        | Done s => g (Op o k) s
        | Op o' k' => Op Schedule (λ left : result bool,
            match left with
            | Ok true => Op o (λ x, select f g (k x) q)
            | _ => Op o' (λ y, go (k' y))
            end)
        end
  end.

(** A loop body run over a list, with early exit on an error. *)
Fixpoint for_each {S A} (f : S → A → prog L S) (s : S) (l : list A) : prog L S :=
  match l with
  | [] => mret s
  | x :: l => s' ← f s x; for_each f s' l
  end.

Fixpoint mapP {A B} (f : A → prog L B) (l : list A) : prog L (list B) :=
  match l with
  | [] => mret []
  | x :: l => y ← f x; ys ← mapP f l; mret (y :: ys)
  end.

Definition atomic {X} (f : L → X * L) : prog L X := perform (Atomic f).
Definition bucket_get (i : bucket_id) (key : bytes) : prog L (option BucketObject) :=
  perform (BucketGet i key).
Definition bucket_range (i : bucket_id) (key : bytes) (start length : N)
    : prog L (option BucketObject) := perform (BucketRange i key start length).
Definition bucket_cas (i : bucket_id) (key : bytes) (gen : option Z) (bs : bytes) : prog L bool :=
  perform (BucketCas i key gen bs).
Definition bucket_list (i : bucket_id) (pre : bytes) : prog L (list bytes) :=
  perform (BucketList i pre).
Definition now_ms : prog L N := perform Now.
Definition instant : prog L N := perform Instant.
Definition new_uuid : prog L bytes := perform NewUuid.
Definition zone_open (z obj : bytes) : prog L Replica := perform (ZoneOpen z obj).
Definition zone_read (r : Replica) (fence : bool) : prog L bytes := perform (ZoneRead r fence).
Definition zone_read_range (r : Replica) (start length : N) : prog L bytes :=
  perform (ZoneReadRange r start length).
Definition zone_delete (r : Replica) : prog L unit := perform (ZoneDelete r).
Definition zone_append (r : Replica) (bs : bytes) : prog L N := perform (ZoneAppend r bs).
Definition compact (fs : list LtxFile) : prog L LtxFile := perform (Compact fs).

End prog.

(** ** The environment *)

(** An appendable object of a log zone. *)
Record zone_object := {
  zo_generation : Z;
  zo_bytes : bytes;
  zo_fenced : bool;
}.

Record world (L : Type) := {
  buckets : gmap (bucket_id * bytes) BucketObject;
  (** Every write of each object, the last one first: when, and what. No operation
      reads it; it is what the theorems about the past of a bucket speak of. *)
  write_log : gmap (bucket_id * bytes) (list (N * bytes));
  zone_objects : gmap (bytes * bytes) zone_object;
  clock : N;
  uuids : N;
  local : L;
}.
Arguments buckets {L}. Arguments write_log {L}. Arguments zone_objects {L}. Arguments clock {L}. Arguments uuids {L}.
Arguments local {L}. Arguments Build_world {L}.

Section env.
Context {L : Type}.
Implicit Types w : world L.

Definition writes w (i : bucket_id) (key : bytes) : list (N * bytes) := default [] (write_log w !! (i, key)).

Definition put_object w (i : bucket_id) (key : bytes) (o : BucketObject) : world L :=
  {| buckets := <[(i, key) := o]> (buckets w);
     write_log := <[(i, key) := (clock w, obj_bytes o) :: writes w i key]> (write_log w);
     zone_objects := zone_objects w; clock := clock w; uuids := uuids w; local := local w |}.
Definition set_zones w z : world L :=
  {| buckets := buckets w; write_log := write_log w; zone_objects := z; clock := clock w;
     uuids := uuids w; local := local w |}.
Definition set_clock w t : world L :=
  {| buckets := buckets w; write_log := write_log w; zone_objects := zone_objects w; clock := t;
     uuids := uuids w; local := local w |}.
Definition set_uuids w u : world L :=
  {| buckets := buckets w; write_log := write_log w; zone_objects := zone_objects w;
     clock := clock w; uuids := u; local := local w |}.
Definition set_local w l : world L :=
  {| buckets := buckets w; write_log := write_log w; zone_objects := zone_objects w;
     clock := clock w; uuids := uuids w; local := l |}.

Definition stored w (i : bucket_id) (key : bytes) : option BucketObject := buckets w !! (i, key).

(** The names of a bucket, in the order a listing returns them. *)
Fixpoint bytes_leb (s t : bytes) : bool :=
  match s, t with
  | [], _ => true
  | _ :: _, [] => false
  | x :: s, y :: t =>
      (Byte.to_N x <? Byte.to_N y) || ((Byte.to_N x =? Byte.to_N y) && bytes_leb s t)
  end.

Fixpoint insert_sorted (x : bytes) (l : list bytes) : list bytes :=
  match l with
  | [] => [x]
  | y :: l => if bytes_leb x y then x :: y :: l else y :: insert_sorted x l
  end.

Definition sort_names (l : list bytes) : list bytes := foldr insert_sorted [] l.

Definition bucket_names w (i : bucket_id) (pre : bytes) : list bytes :=
  sort_names (filter (λ key, starts_with pre key = true)
    ((map_to_list (buckets w)) ≫= λ '((j, key), _), if decide (i = j) then [key] else [])).

(** What the operation may answer, and the world it leaves behind. A read answers
    with the current object or fails; a conditional write takes effect only on the
    expected generation, and its answer can be lost or, after an internal retry,
    be a failed precondition although the write took effect. *)
Definition cas_applied w w' (i : bucket_id) (key : bytes) (expected : option Z) (bs : bytes) : Prop :=
  generation <$> stored w i key = expected ∧
  ∃ g : Z, (0 < g)%Z ∧ (∀ old, stored w i key = Some old → (generation old < g)%Z) ∧
    w' = put_object w i key {| generation := g; obj_bytes := bs |}.

Definition step (o : op L) : world L → result (resp o) → world L → Prop :=
  match o with
  | BucketGet i key => λ w (r : result (option BucketObject)) w', w' = w ∧
      (∀ x, r = Ok x → x = stored w i key)
  | BucketRange i key start length => λ w (r : result (option BucketObject)) w', w' = w ∧
      (∀ x, r = Ok x → match stored w i key with
         | None => x = None
         | Some o => (length = 0 ∨ start + length ≤ len (obj_bytes o)) ∧
             x = Some {| generation := generation o;
                         obj_bytes := sliceN start (start + length) (obj_bytes o) |}
         end)
  | BucketCas i key expected bs => λ w (r : result bool) w',
      (cas_applied w w' i key expected bs) ∨
      (w' = w ∧ r ≠ Ok true ∧ (r = Ok false → generation <$> stored w i key ≠ expected))
  | BucketList i pre => λ w (r : result (list bytes)) w', w' = w ∧
      (∀ ks, r = Ok ks → ks = bucket_names w i pre)
  | Now => λ w (r : result N) w', w' = w ∧ (∀ t, r = Ok t → t = clock w)
  | Instant => λ w (r : result N) w', w' = w ∧ r = Ok (clock w)
  | NewUuid => λ w (r : result bytes) w', r = Ok (show_dec (uuids w)) ∧ w' = set_uuids w (uuids w + 1)
  | ZoneOpen zone obj => λ w (r : result Replica) w',
      (w' = w ∧ ∃ e, r = Err e) ∨
      (zone_objects w !! (zone, obj) = None ∧
       ∃ g : Z, (0 < g)%Z ∧
         w' = set_zones w (<[(zone, obj) := {| zo_generation := g; zo_bytes := []; zo_fenced := false |}]>
                             (zone_objects w)) ∧
         (r = Ok {| replica_bucket := zone; replica_object := obj; replica_generation := g |} ∨
          ∃ e, r = Err e))
  | ZoneRead rep fence => λ w (r : result bytes) w',
      let key := (replica_bucket rep, replica_object rep) in
      match zone_objects w !! key with
      | Some z =>
          let w1 := set_zones w (<[key := {| zo_generation := zo_generation z; zo_bytes := zo_bytes z;
                                             zo_fenced := zo_fenced z || fence |}]> (zone_objects w)) in
          (w' = w ∧ ∃ e, r = Err e) ∨ (w' = w1 ∧ ∃ e, r = Err e) ∨
          (zo_generation z = replica_generation rep ∧ w' = w1 ∧ r = Ok (zo_bytes z))
      | None => w' = w ∧ ∃ e, r = Err e
      end
  | ZoneReadRange rep start length => λ w (r : result bytes) w', w' = w ∧
      (∀ x, r = Ok x → ∃ z, zone_objects w !! (replica_bucket rep, replica_object rep) = Some z ∧
         zo_generation z = replica_generation rep ∧ start + length ≤ len (zo_bytes z) ∧
         x = sliceN start (start + length) (zo_bytes z))
  | ZoneDelete rep => λ w (r : result unit) w',
      let key := (replica_bucket rep, replica_object rep) in
      (w' = w ∧ ∃ e, r = Err e) ∨
      match zone_objects w !! key with
      | Some z => if decide (zo_generation z = replica_generation rep)
                  then w' = set_zones w (delete key (zone_objects w))
                  else w' = w ∧ ∃ e, r = Err e
      | None => w' = w
      end
  | ZoneAppend rep bs => λ w (r : result N) w',
      let key := (replica_bucket rep, replica_object rep) in
      (w' = w ∧ ∃ e, r = Err e) ∨
      (∃ z p, zone_objects w !! key = Some z ∧ zo_generation z = replica_generation rep ∧
         zo_fenced z = false ∧ p `prefix_of` bs ∧
         w' = set_zones w (<[key := {| zo_generation := zo_generation z; zo_bytes := zo_bytes z ++ p;
                                       zo_fenced := false |}]> (zone_objects w)) ∧
         ((∃ e, r = Err e) ∨ (p = bs ∧ r = Ok (len (zo_bytes z ++ bs)))))
  | Compact fs => λ w (r : result LtxFile) w', w' = w
  | Timer | Schedule => λ w (r : result bool) w', w' = w ∧ ∃ c, r = Ok c
  | @Atomic _ X f => λ w (r : result X) w', r = Ok (f (local w)).1 ∧ w' = set_local w (f (local w)).2
  end.

(** The fault-free environment, as a function: no operation fails without a
    reason, no deadline strikes, the left task runs first. *)
Definition handle (o : op L) : world L → result (resp o) * world L :=
  match o with
  | BucketGet i key => λ w, (Ok (stored w i key), w)
  | BucketRange i key start length => λ w,
      (match stored w i key with
       | None => Ok None
       | Some o => if start + length <=? len (obj_bytes o)
                   then Ok (Some {| generation := generation o;
                                    obj_bytes := sliceN start (start + length) (obj_bytes o) |})
                   else Err "incomplete object range"
       end, w)
  | BucketCas i key expected bs => λ w,
      if decide (generation <$> stored w i key = expected)
      then (Ok true,
            let g := match stored w i key with Some o => (Z.max 0 (generation o) + 1)%Z | None => 1%Z end in
            put_object w i key {| generation := g; obj_bytes := bs |})
      else (Ok false, w)
  | BucketList i pre => λ w, (Ok (bucket_names w i pre), w)
  | Now => λ w, (Ok (clock w), w)
  | Instant => λ w, (Ok (clock w), w)
  | NewUuid => λ w, (Ok (show_dec (uuids w)), set_uuids w (uuids w + 1))
  | ZoneOpen zone obj => λ w,
      match zone_objects w !! (zone, obj) with
      | Some _ => (Err "object exists", w)
      | None => (Ok {| replica_bucket := zone; replica_object := obj; replica_generation := 1 |},
                 set_zones w (<[(zone, obj) := {| zo_generation := 1; zo_bytes := []; zo_fenced := false |}]>
                                (zone_objects w)))
      end
  | ZoneRead rep fence => λ w,
      let key := (replica_bucket rep, replica_object rep) in
      match zone_objects w !! key with
      | Some z => if decide (zo_generation z = replica_generation rep)
                  then (Ok (zo_bytes z),
                        set_zones w (<[key := {| zo_generation := zo_generation z; zo_bytes := zo_bytes z;
                                                 zo_fenced := zo_fenced z || fence |}]> (zone_objects w)))
                  else (Err "generation mismatch", w)
      | None => (Err "object missing", w)
      end
  | ZoneReadRange rep start length => λ w,
      (match zone_objects w !! (replica_bucket rep, replica_object rep) with
       | Some z => if (bool_decide (zo_generation z = replica_generation rep))
                      && (start + length <=? len (zo_bytes z))
                   then Ok (sliceN start (start + length) (zo_bytes z))
                   else Err "incomplete Rapid range"
       | None => Err "object missing"
       end, w)
  | ZoneDelete rep => λ w,
      let key := (replica_bucket rep, replica_object rep) in
      match zone_objects w !! key with
      | Some z => if decide (zo_generation z = replica_generation rep)
                  then (Ok (), set_zones w (delete key (zone_objects w)))
                  else (Err "generation mismatch", w)
      | None => (Ok (), w)
      end
  | ZoneAppend rep bs => λ w,
      let key := (replica_bucket rep, replica_object rep) in
      match zone_objects w !! key with
      | Some z => if (bool_decide (zo_generation z = replica_generation rep)) && negb (zo_fenced z)
                  then (Ok (len (zo_bytes z ++ bs)),
                        set_zones w (<[key := {| zo_generation := zo_generation z; zo_bytes := zo_bytes z ++ bs;
                                                 zo_fenced := false |}]> (zone_objects w)))
                  else (Err "writer was fenced", w)
      | None => (Err "object missing", w)
      end
  | Compact fs => λ w, (Err "compaction is not available", w)
  | Timer => λ w, (Ok false, w)
  | Schedule => λ w, (Ok true, w)
  | @Atomic _ X f => λ w, (Ok (f (local w)).1, set_local w (f (local w)).2)
  end.

Fixpoint run {A} (p : prog L A) (w : world L) : result A * world L :=
  match p with
  | Done r => (r, w)
  | Op o k => let '(x, w') := handle o w in run (k x) w'
  end.

End env.

(** ** Listings *)

Lemma bytes_leb_total s t : bytes_leb s t = true ∨ bytes_leb t s = true.
Proof.
  revert t; induction s as [|x s IH]; intros [|y t]; simpl; auto.
  rewrite !orb_true_iff, !andb_true_iff, !N.ltb_lt, !N.eqb_eq.
  destruct (N.lt_total (Byte.to_N x) (Byte.to_N y)) as [|[|]]; auto.
  destruct (IH t); auto.
Qed.

Lemma bytes_leb_antisym s t : bytes_leb s t = true → bytes_leb t s = true → s = t.
Proof.
  revert t; induction s as [|x s IH]; intros [|y t]; simpl; try done.
  rewrite !orb_true_iff, !andb_true_iff, !N.ltb_lt, !N.eqb_eq. intros Hs Ht.
  assert (Byte.to_N x = Byte.to_N y) as E by lia.
  f_equal; [|apply IH; destruct Hs, Ht; naive_solver lia].
  apply (f_equal Byte.of_N) in E. rewrite !Byte.of_to_N in E. congruence.
Qed.

Lemma bytes_leb_trans s t u : bytes_leb s t = true → bytes_leb t u = true → bytes_leb s u = true.
Proof.
  revert t u; induction s as [|x s IH]; intros [|y t] [|z u]; simpl; try done.
  rewrite !orb_true_iff, !andb_true_iff, !N.ltb_lt, !N.eqb_eq. intros Hs Ht.
  destruct Hs as [|[? Hs]], Ht as [|[? Ht]]; [left; lia..|]. right. split; [lia|by eapply IH].
Qed.

Lemma elem_of_insert_sorted x y l : x ∈ insert_sorted y l ↔ x = y ∨ x ∈ l.
Proof.
  induction l as [|z l IH]; simpl; [set_solver|]. case_match; rewrite ?elem_of_cons, ?IH; set_solver.
Qed.

Lemma elem_of_sort_names x l : x ∈ sort_names l ↔ x ∈ l.
Proof.
  unfold sort_names. induction l as [|y l IH]; simpl; [done|].
  by rewrite elem_of_insert_sorted, IH, elem_of_cons.
Qed.

Lemma elem_of_bucket_names {L} (w : world L) i pre k :
  k ∈ bucket_names w i pre ↔ (∃ o, stored w i k = Some o) ∧ pre `prefix_of` k.
Proof.
  unfold bucket_names. rewrite elem_of_sort_names, list_elem_of_filter, starts_with_spec, list_elem_of_bind.
  unfold stored. split.
  - intros [Hp ([[j k'] o] & Hk & Hin)]. split; [|done]. case_decide; [|set_solver].
    apply list_elem_of_singleton in Hk as ->. subst. exists o. by apply elem_of_map_to_list in Hin.
  - intros [[o Ho] Hp]. split; [done|]. exists ((i, k), o).
    rewrite decide_True by done. split; [set_solver|]. by apply elem_of_map_to_list.
Qed.

(** * Calls on a mutable receiver

    Methods that take [&mut self], or fields behind a lock: a program that also
    threads the receiver, and may fail after it has already changed it. *)

(** A call that may fail after it has already changed its receiver. *)
Definition stateful (L S A : Type) : Type := S → prog L (S * result A).

Section stateful.
Context {L S : Type}.

#[global] Instance stateful_ret : MRet (stateful L S) := λ A a s, mret (s, Ok a).
#[global] Instance stateful_bind : MBind (stateful L S) := λ A B f m s,
  '(s, r) ← m s;
  match r with Ok a => f a s | Err e => mret (s, Err e) end.

Definition get_state : stateful L S S := λ s, mret (s, Ok s).
Definition set_state (s : S) : stateful L S unit := λ _, mret (s, Ok ()).
Definition modify (f : S → S) : stateful L S unit := λ s, mret (f s, Ok ()).
(** A pure check with [?]. *)
Definition check {A} (r : result A) : stateful L S A := λ s, mret (s, r).
(** Another call with [?]. *)
Definition call {A} (p : prog L A) : stateful L S A := λ s, r ← attempt p; mret (s, r).
End stateful.


(** ** The same without effects on the environment *)

(** A call on a receiver of this process only. *)
Definition stated (S A : Type) : Type := S → S * result A.

Section stated.
Context {S : Type}.

#[global] Instance stated_ret : MRet (stated S) := λ A a s, (s, Ok a).
#[global] Instance stated_bind : MBind (stated S) := λ A B f m s,
  let '(s, r) := m s in
  match r with Ok a => f a s | Err e => (s, Err e) end.

Definition pure_check {A} (r : result A) : stated S A := λ s, (s, r).

(** A loop body run over a list, with early exit on an error. *)
Fixpoint each {A} (f : A → stated S unit) (l : list A) : stated S unit :=
  match l with
  | [] => mret ()
  | x :: l => f x;; each f l
  end.

(** As part of a program. *)
Definition locally {L A} (p : stated S A) : stateful L S A := λ s, mret (p s).
End stated.
