(* ===== verification/Btree.v ===== *)
(** * Ordered maps

    Rust's [BTreeMap] and [BTreeSet] as the sources use them: a list of bindings
    in increasing key order. *)

From S2P Require Import Prelude Text Effects.
From Stdlib Require Export Sorting.Sorted.
Local Open Scope N_scope.

(** A strict total order as a test. *)
Class KeyOrd (K : Type) `{EqDecision K} := {
  key_lt : K → K → bool;
  key_lt_irrefl k : key_lt k k = false;
  key_lt_trans j k l : key_lt j k = true → key_lt k l = true → key_lt j l = true;
  key_lt_total j k : key_lt j k = false → key_lt k j = false → j = k;
}.

#[global] Instance N_key_ord : KeyOrd N.
Proof.
  refine {| key_lt := N.ltb |}.
  - apply N.ltb_irrefl.
  - intros j k l. rewrite !N.ltb_lt. lia.
  - intros j k. rewrite !N.ltb_ge. lia.
Defined.

Fixpoint bytes_ltb (s t : bytes) : bool :=
  match s, t with
  | _, [] => false
  | [], _ :: _ => true
  | x :: s, y :: t =>
      (Byte.to_N x <? Byte.to_N y) || ((Byte.to_N x =? Byte.to_N y) && bytes_ltb s t)
  end.

#[global] Instance bytes_key_ord : KeyOrd bytes.
Proof.
  refine {| key_lt := bytes_ltb |}.
  - intros s. induction s as [|x s IH]; simpl; [done|]. by rewrite N.ltb_irrefl, IH, andb_false_r.
  - intros s. induction s as [|x s IH]; intros [|y t] [|z u]; simpl; try done.
    rewrite !orb_true_iff, !andb_true_iff, !N.ltb_lt, !N.eqb_eq. intros [|[? Hs]] [|[? Ht]]; [left; lia..|].
    right. split; [lia|by eapply IH].
  - intros s. induction s as [|x s IH]; intros [|y t]; simpl; try done.
    rewrite !orb_false_iff, !andb_false_iff, !N.ltb_ge, !N.eqb_neq. intros [? Hs] [? Ht].
    assert (Byte.to_N x = Byte.to_N y) as E by lia. f_equal; [|apply IH; naive_solver].
    apply (f_equal Byte.of_N) in E. rewrite !Byte.of_to_N in E. congruence.
Defined.

Section btree.
Context `{KeyOrd K} {A : Type}.
Implicit Types (k : K) (a : A) (m : list (K * A)).

Fixpoint bt_get (k : K) (m : list (K * A)) : option A :=
  match m with
  | [] => None
  | (j, a) :: m => if decide (j = k) then Some a else bt_get k m
  end.

Fixpoint bt_insert (k : K) (a : A) (m : list (K * A)) : list (K * A) :=
  match m with
  | [] => [(k, a)]
  | (j, c) :: m' =>
      if key_lt k j then (k, a) :: m
      else if decide (j = k) then (k, a) :: m'
      else (j, c) :: bt_insert k a m'
  end.

Fixpoint bt_remove (k : K) (m : list (K * A)) : list (K * A) :=
  match m with
  | [] => []
  | (j, c) :: m => if decide (j = k) then m else (j, c) :: bt_remove k m
  end.

(** Keys increase strictly. *)
Inductive increasing : list (K * A) → Prop :=
| inc_nil : increasing []
| inc_cons k a m : Forall (λ x, key_lt k (fst x) = true) m → increasing m → increasing ((k, a) :: m).

Lemma bt_insert_Forall (P : K * A → Prop) k a m : P (k, a) → Forall P m → Forall P (bt_insert k a m).
Proof.
  intros Hk. induction 1 as [|[j c] m Hj Hm IH]; simpl; [by repeat constructor|].
  case_match; [by repeat constructor|]. case_decide; by constructor.
Qed.

Lemma bt_insert_increasing k a m : increasing m → increasing (bt_insert k a m).
Proof.
  induction 1 as [|j c m Hj Hm IH]; simpl; [by repeat constructor|].
  destruct (key_lt k j) eqn:E.
  - constructor; [|by constructor]. constructor; [done|].
    eapply Forall_impl; [exact Hj|]. intros x Hx. simpl in *. by eapply key_lt_trans.
  - case_decide as Hd; [subst; by constructor|]. constructor; [|done].
    apply bt_insert_Forall; [|done]. simpl. destruct (key_lt j k) eqn:E'; [done|].
    by destruct Hd; apply key_lt_total.
Qed.

Lemma bt_get_lt k j m : Forall (λ x, key_lt j (fst x) = true) m → key_lt k j = true → bt_get k m = None.
Proof.
  intros Hm Hk. induction Hm as [|[i c] m Hi _ IH]; simpl in *; [done|]. rewrite decide_False; [done|].
  intros ->. pose proof (key_lt_trans _ _ _ Hk Hi). rewrite key_lt_irrefl in *. done.
Qed.

Lemma bt_get_insert k a j m :
  increasing m → bt_get j (bt_insert k a m) = if decide (k = j) then Some a else bt_get j m.
Proof.
  induction 1 as [|i c m Hi Hm IH]; simpl; [done|]. destruct (key_lt k i) eqn:E; simpl.
  - done.
  - destruct (decide (i = k)) as [->|Hd]; simpl.
    + by repeat case_decide.
    + rewrite IH. repeat case_decide; simplify_eq; done.
Qed.

Lemma bt_get_elem k a m : bt_get k m = Some a → (k, a) ∈ m.
Proof.
  induction m as [|[j c] m IH]; simpl; [done|]. case_decide; [intros [= ->]; subst; set_solver|].
  intros ?%IH. set_solver.
Qed.

Lemma bt_elem_get k a m : increasing m → (k, a) ∈ m → bt_get k m = Some a.
Proof.
  induction 1 as [|j c m Hj Hm IH]; [set_solver|]. intros [[= <- <-]|Hin]%elem_of_cons; simpl.
  - by rewrite decide_True.
  - rewrite decide_False; [by apply IH|]. intros ->. rewrite Forall_forall in Hj. specialize (Hj _ Hin).
    simpl in Hj. by rewrite key_lt_irrefl in Hj.
Qed.

(** A map is determined by its lookups. *)
Lemma bt_remove_Forall (P : K * A → Prop) k m : Forall P m → Forall P (bt_remove k m).
Proof. induction 1 as [|[j c] m Hj Hm IH]; simpl; [done|]. case_decide; [done|by constructor]. Qed.

Lemma bt_remove_increasing k m : increasing m → increasing (bt_remove k m).
Proof.
  induction 1 as [|j c m Hj Hm IH]; simpl; [constructor|]. case_decide; [done|]. constructor; [|done].
  by apply bt_remove_Forall.
Qed.

Lemma bt_remove_elem k m x : increasing m → x ∈ bt_remove k m → x ∈ m ∧ x.1 ≠ k.
Proof.
  induction 1 as [|j c m Hj Hm IH]; simpl; [by intros ?%elem_of_nil|]. case_decide as E.
  - subst. intros Hx. split; [set_solver|]. rewrite Forall_forall in Hj. specialize (Hj _ Hx).
    intros <-. by rewrite key_lt_irrefl in Hj.
  - intros [->|Hx]%elem_of_cons; [split; [set_solver|done]|]. destruct (IH Hx). split; [set_solver|done].
Qed.

Lemma bt_remove_length k m : is_Some (bt_get k m) → length m = S (length (bt_remove k m)).
Proof.
  induction m as [|[j c] m IH]; simpl; [by intros []|]. case_decide; [done|]. intros ?. simpl. by rewrite <- IH.
Qed.

Lemma bt_insert_length k a m : bt_get k m = None → length (bt_insert k a m) = S (length m).
Proof.
  induction m as [|[j c] m IH]; simpl; [done|]. case_decide as E; [done|]. intros Hk. destruct (key_lt k j); [done|].
  rewrite ?(decide_False (P := j = k)) by done. simpl. by rewrite IH.
Qed.

Lemma bt_ext m m' : increasing m → increasing m' → (∀ k, bt_get k m = bt_get k m') → m = m'.
Proof.
  intros Hm. revert m'. induction Hm as [|k a m Hk Hm IH]; intros m' Hm' E.
  { destruct m' as [|[j c] m']; [done|]. specialize (E j). simpl in E. by rewrite decide_True in E. }
  destruct Hm' as [|j c m' Hj Hm']; [specialize (E k); simpl in E; by rewrite decide_True in E|].
  assert (k = j) as <-.
  { apply key_lt_total.
    - destruct (key_lt k j) eqn:Ek; [|done]. specialize (E k). simpl in E. rewrite decide_True in E by done.
      rewrite decide_False, (bt_get_lt k j) in E; [done..|]. intros ->. by rewrite key_lt_irrefl in Ek.
    - destruct (key_lt j k) eqn:Ej; [|done]. specialize (E j). simpl in E. rewrite (decide_True _ _ (eq_refl j)) in E.
      rewrite decide_False, (bt_get_lt j k) in E; [done..|]. intros ->. by rewrite key_lt_irrefl in Ej. }
  pose proof (E k) as Ek. simpl in Ek. rewrite !decide_True in Ek by done. simplify_eq. f_equal. apply IH; [done|].
  intros i. specialize (E i). simpl in E. case_decide; [|done]. subst.
  assert (∀ m0 : list (K * A), Forall (λ x, key_lt i (fst x) = true) m0 → bt_get i m0 = None) as Hnone.
  { induction 1 as [|[l d] m0 Hl _ IHm]; simpl in *; [done|]. rewrite decide_False; [done|]. intros ->.
    by rewrite key_lt_irrefl in Hl. }
  by rewrite !Hnone.
Qed.

(** Inserting bindings one after the other: the last one of a key counts. *)
Definition bt_of_list (l : list (K * A)) : list (K * A) := foldl (λ m x, bt_insert x.1 x.2 m) [] l.

Lemma bt_of_list_snoc l x : bt_of_list (l ++ [x]) = bt_insert x.1 x.2 (bt_of_list l).
Proof. unfold bt_of_list. by rewrite foldl_app. Qed.

Lemma bt_of_list_increasing l : increasing (bt_of_list l).
Proof.
  induction l as [|x l IH] using rev_ind; [constructor|]. rewrite bt_of_list_snoc. by apply bt_insert_increasing.
Qed.

Lemma bt_get_of_list l k a : NoDup (fst <$> l) → bt_get k (bt_of_list l) = Some a ↔ (k, a) ∈ l.
Proof.
  induction l as [|[j c] l IH] using rev_ind; [set_solver|]. rewrite fmap_app. intros (Hl & Hn & _)%NoDup_app.
  rewrite bt_of_list_snoc, bt_get_insert, elem_of_app, list_elem_of_singleton by apply bt_of_list_increasing.
  simpl. case_decide as E; [subst|rewrite IH by done; naive_solver].
  split; [intros [= ->]; by right|]. intros [Hin|[= ->]]; [|done]. exfalso. apply (Hn k); [|set_solver].
  apply list_elem_of_fmap. by exists (k, a).
Qed.
End btree.

(** * Sorting and filtering of vectors

    Rust's [slice::sort_by], [Vec::dedup_by] and the ordering of strings and tuples
    as the sources use them. The sort is stable: elements that compare equal keep
    their order. *)

Section sorting.
Context {A : Type} (le : A → A → bool).

Fixpoint insert_by (x : A) (l : list A) : list A :=
  match l with
  | [] => [x]
  | y :: l => if le x y then x :: y :: l else y :: insert_by x l
  end.

(** [v.sort_by], the comparison given by [le]. *)
Definition sort_by (l : list A) : list A := foldr insert_by [] l.

Lemma insert_by_perm x l : insert_by x l ≡ₚ x :: l.
Proof.
  induction l as [|y l IH]; simpl; [done|]. case_match; [done|]. rewrite IH. by constructor.
Qed.

Lemma sort_by_perm l : sort_by l ≡ₚ l.
Proof.
  unfold sort_by. induction l as [|x l IH]; simpl; [done|]. by rewrite insert_by_perm, IH.
Qed.

Lemma elem_of_sort_by x l : x ∈ sort_by l ↔ x ∈ l.
Proof. by rewrite sort_by_perm. Qed.

Definition leP (x y : A) : Prop := le x y = true.

Section order.
Context (le_total : ∀ x y, le x y = true ∨ le y x = true).
Context (le_trans : ∀ x y z, le x y = true → le y z = true → le x z = true).

Lemma insert_by_sorted x l : StronglySorted leP l → StronglySorted leP (insert_by x l).
Proof.
  induction 1 as [|y l Hl IH Hy]; simpl; [by repeat constructor|].
  destruct (le x y) eqn:E.
  - constructor; [by constructor|]. constructor; [done|].
    eapply Forall_impl; [exact Hy|]. intros z Hz. by eapply le_trans.
  - constructor; [done|]. rewrite insert_by_perm. constructor; [|done].
    destruct (le_total x y); unfold leP; congruence.
Qed.

Lemma sort_by_sorted l : StronglySorted leP (sort_by l).
Proof. induction l as [|x l IH]; [constructor|]. by apply insert_by_sorted. Qed.
End order.

End sorting.

Section dedup.
Context {A : Type}.

(** [v.dedup_by(|a, b| same(a, b))]: drops an element that is the same as the last
    one kept. *)
Fixpoint dedup_from (same : A → A → bool) (last : A) (l : list A) : list A :=
  match l with
  | [] => []
  | x :: l => if same x last then dedup_from same last l else x :: dedup_from same x l
  end.

Definition dedup_by (same : A → A → bool) (l : list A) : list A :=
  match l with
  | [] => []
  | x :: l => x :: dedup_from same x l
  end.

Lemma dedup_from_elem same last l x : x ∈ dedup_from same last l → x ∈ l.
Proof.
  revert last; induction l as [|y l IH]; intros last; simpl; [done|].
  case_match; [|rewrite !elem_of_cons; intros [->|?]; [by left|]]; right; eauto.
Qed.

Lemma dedup_by_elem same l x : x ∈ dedup_by same l → x ∈ l.
Proof.
  destruct l; simpl; [done|]. rewrite !elem_of_cons. intros [->|?%dedup_from_elem]; auto.
Qed.

Lemma dedup_from_sorted R same last l : StronglySorted R l → StronglySorted R (dedup_from same last l).
Proof.
  intros Hl. revert last. induction Hl as [|x l Hl IH Hx]; intros last; simpl; [constructor|].
  case_match; [done|]. constructor; [done|]. rewrite Forall_forall in *.
  intros y Hy%dedup_from_elem. auto.
Qed.

Lemma dedup_by_sorted R same l : StronglySorted R l → StronglySorted R (dedup_by same l).
Proof.
  intros Hl. inversion Hl as [|x l' Hl' Hx]; subst; simpl; [constructor|].
  constructor; [by apply dedup_from_sorted|]. rewrite Forall_forall in *.
  intros y Hy%dedup_from_elem. auto.
Qed.

(** What [dedup_by] drops is represented by an element it keeps. *)
Lemma dedup_from_rep same (sm_refl : ∀ x, same x x = true) last l x :
  x ∈ l → same x last = true ∨ ∃ y, y ∈ dedup_from same last l ∧ same x y = true.
Proof.
  revert last; induction l as [|z l IH]; intros last; simpl; [by intros ?%elem_of_nil|].
  intros [->|Hx]%elem_of_cons.
  - destruct (same z last) eqn:E; [by left|]. right. exists z. split; [set_solver|done].
  - destruct (same z last) eqn:E; [by apply IH|]. right.
    destruct (IH z Hx) as [?|(y & ? & ?)]; [exists z|exists y]; set_solver.
Qed.

Lemma dedup_by_rep same (sm_refl : ∀ x, same x x = true) l x :
  x ∈ l → ∃ y, y ∈ dedup_by same l ∧ same x y = true.
Proof.
  destruct l as [|z l]; simpl; [by intros ?%elem_of_nil|]. intros [->|Hx]%elem_of_cons.
  - exists z. set_solver.
  - destruct (dedup_from_rep same sm_refl z l x Hx) as [?|(y & ? & ?)]; [exists z|exists y]; set_solver.
Qed.
End dedup.

(** Comparison of pairs, as Rust's tuples are ordered. *)
Definition pair_leb (p q : N * N) : bool := (fst p <? fst q) || ((fst p =? fst q) && (snd p <=? snd q)).
Definition pair_ltb (p q : N * N) : bool := (fst p <? fst q) || ((fst p =? fst q) && (snd p <? snd q)).

Lemma pair_leb_spec p q : pair_leb p q = true ↔ (fst p < fst q ∨ fst p = fst q ∧ snd p ≤ snd q).
Proof. unfold pair_leb. rewrite orb_true_iff, andb_true_iff, N.ltb_lt, N.eqb_eq, N.leb_le. done. Qed.

Lemma pair_ltb_spec p q : pair_ltb p q = true ↔ (fst p < fst q ∨ fst p = fst q ∧ snd p < snd q).
Proof. unfold pair_ltb. rewrite orb_true_iff, andb_true_iff, !N.ltb_lt, N.eqb_eq. done. Qed.

Lemma pair_leb_total p q : pair_leb p q = true ∨ pair_leb q p = true.
Proof. rewrite !pair_leb_spec. lia. Qed.

Lemma pair_leb_trans p q r : pair_leb p q = true → pair_leb q r = true → pair_leb p r = true.
Proof. rewrite !pair_leb_spec. lia. Qed.

Lemma pair_leb_antisym p q : pair_leb p q = true → pair_leb q p = true → p = q.
Proof. destruct p, q. rewrite !pair_leb_spec. simpl. intros. f_equal; lia. Qed.

Lemma pair_ltb_leb p q : pair_ltb p q = negb (pair_leb q p).
Proof.
  apply eq_true_iff_eq. rewrite negb_true_iff, <- not_true_iff_false, pair_leb_spec, pair_ltb_spec. lia.
Qed.

(** Lexicographic comparison of strings and further keys. *)
Definition lex_leb (s t : bytes) (rest : bool) : bool := bytes_ltb s t || ((s == t) && rest).
