(* ===== verification/Concurrency.v ===== *)
(** * Reasoning about programs that share storage

    [wp R G p Q w]: started in [w], whatever the environment does between two
    operations within [R] and whatever each operation answers, every step of [p]
    satisfies [G] and [p] ends with a result that satisfies [Q]. A pool of such
    programs, over any number of processes and tasks, then satisfies [G] at every
    step ([pool_guarantee]). *)

From S2P Require Import Prelude Effects.

Section wp.
Context {L : Type} (R G : world L → world L → Prop) `{!PreOrder R}.
Implicit Types w : world L.

Fixpoint wp {A} (p : prog L A) (Q : result A → world L → Prop) (w : world L) : Prop :=
  match p with
  | Done r => Q r w
  | Op o k => ∀ w1, R w w1 → ∀ x w2, step o w1 x w2 → G w1 w2 ∧ wp (k x) Q w2
  end.

Lemma wp_mono {A} (p : prog L A) (Q Q' : result A → world L → Prop) w :
  wp p Q w → (∀ r w', Q r w' → Q' r w') → wp p Q' w.
Proof.
  revert w; induction p as [r|o k IH]; simpl; [auto|].
  intros w Hp HQ w1 HR x w2 Hs. destruct (Hp w1 HR x w2 Hs). split; [done|]. by eapply IH.
Qed.

Lemma wp_bind {A B} (p : prog L A) (f : A → prog L B) Q w :
  wp p (λ r w', match r with Ok a => wp (f a) Q w' | Err e => Q (Err e) w' end) w →
  wp (p ≫= f) Q w.
Proof.
  unfold mbind, prog_bind. revert w; induction p as [[a|e]|o k IH]; simpl; [done..|].
  intros w Hp w1 HR x w2 Hs. destruct (Hp w1 HR x w2 Hs). split; [done|]. by apply IH.
Qed.

Lemma wp_attempt {A} (p : prog L A) Q w : wp p (λ r, Q (Ok r)) w → wp (attempt p) Q w.
Proof.
  revert w; induction p as [r|o k IH]; simpl; [done|].
  intros w Hp w1 HR x w2 Hs. destruct (Hp w1 HR x w2 Hs). split; [done|]. by apply IH.
Qed.

Lemma wp_lift {A} (r : result A) Q w : Q r w → wp (lift r) Q w.
Proof. done. Qed.

Lemma wp_ret {A} (a : A) Q w : Q (Ok a) w → wp (mret a) Q w.
Proof. done. Qed.

Lemma wp_perform (o : op L) Q w :
  (∀ w1, R w w1 → ∀ x w2, step o w1 x w2 → G w1 w2 ∧ Q x w2) → wp (perform o) Q w.
Proof. done. Qed.

(** A property the environment does not disturb. *)
Definition stable (P : world L → Prop) : Prop := ∀ w w', P w → R w w' → P w'.

(** Interference before the first operation is already accounted for. *)
Lemma wp_interfere {A} (p : prog L A) Q w w' :
  (∀ r, stable (Q r)) → wp p Q w → R w w' → wp p Q w'.
Proof.
  intros HQ. destruct p as [r|o k]; simpl; [by intros; eapply HQ|].
  intros Hp HR w1 HR1. apply Hp. by transitivity w'.
Qed.

(** What a program guarantees also tells where it has got to. *)
Lemma wp_reach {A} (p : prog L A) Q w :
  (∀ w1 w2, G w1 w2 → R w1 w2) → wp p Q w → wp p (λ r w', Q r w' ∧ R w w') w.
Proof.
  intros HGR. assert (∀ w0, R w0 w → wp p Q w → wp p (λ r w', Q r w' ∧ R w0 w') w) as Hgen;
    [|by apply Hgen].
  revert w; induction p as [r|o k IH]; simpl; [done|].
  intros w w0 H0 Hp w1 HR x w2 Hs. destruct (Hp w1 HR x w2 Hs) as [HG Hk]. split; [done|].
  apply IH; [|done]. transitivity w; [done|]. transitivity w1; [done|]. by apply HGR.
Qed.

Lemma wp_bind_lift {A B} (r : result A) (f : A → prog L B) Q w :
  (∀ e, Q (Err e) w) → (∀ a, r = Ok a → wp (f a) Q w) → wp (lift r ≫= f) Q w.
Proof. destruct r; simpl; eauto. Qed.

Lemma wp_select {A B C} (f : result A → prog L B → prog L C) g (p : prog L A) (q : prog L B) P Q Z w :
  (∀ w1 w2, G w1 w2 → R w1 w2) → (∀ w1 w2, w2 = w1 → G w1 w2) →
  (∀ r, stable (P r)) → (∀ r, stable (Q r)) →
  (∀ r q w, P r w → wp q Q w → wp (f r q) Z w) →
  (∀ p s w, wp p P w → Q s w → wp (g p s) Z w) →
  wp p P w → wp q Q w → wp (select f g p q) Z w.
Proof.
  intros HGR HG HP HQ Hf Hg. revert q w; induction p as [r|o k IHp]; intros q w Hp Hq.
  - destruct q as [s|o' k']; [|by apply Hf]. simpl. intros w1 HR t w2 [-> [c ->]].
    split; [by apply HG|]. simpl in *.
    destruct c; [apply Hf|apply Hg]; simpl; (by eapply HP) || (by eapply HQ).
  - revert w Hp Hq. induction q as [s|o' k' IHq]; intros w Hp Hq; [by apply Hg|].
    cbn [select]. intros w1 HR1 t w2 [-> [c ->]]. split; [by apply HG|].
    destruct c; intros w3 HR3 x w4 Hs; assert (R w w3) as HR by (by transitivity w1).
    + destruct (Hp w3 HR x w4 Hs) as [HG' Hk]. split; [done|]. apply IHp; [done|].
      eapply wp_interfere; [done|exact Hq|]. transitivity w3; [done|by apply HGR].
    + destruct (Hq w3 HR x w4 Hs) as [HG' Hk]. split; [done|]. apply IHq; [|done].
      eapply wp_interfere; [done|exact Hp|]. transitivity w3; [done|by apply HGR].
Qed.

(** The deadline may strike after any operation: [I] is what holds there. *)
Lemma wp_deadline_go_inv {A} e (p : prog L A) (I : world L → Prop) Q w :
  (∀ w1 w2, w2 = w1 → G w1 w2) → (∀ r, stable (Q r)) → stable I →
  (∀ w1 w2, I w1 → G w1 w2 → I w2) → (∀ w, I w → Q (Err e) w) →
  I w → wp p Q w → wp (deadline_go e p) Q w.
Proof.
  intros HG HQ HI HIG He. revert w; induction p as [r|o k IH]; simpl; [done|].
  intros w Hw Hp w1 HR x w2 Hs. destruct (Hp w1 HR x w2 Hs) as [? Hk]. split; [done|].
  assert (I w2) as Hw2 by (eapply HIG; [by eapply HI|done]).
  intros w3 HR3 t w4 [-> [c ->]]. split; [by apply HG|]. destruct c; simpl; [by apply He, (HI w2)|].
  apply IH; [by eapply HI|]. by eapply wp_interfere.
Qed.

Lemma wp_deadline_inv {A} e (p : prog L A) (I : world L → Prop) Q w :
  (∀ w1 w2, w2 = w1 → G w1 w2) → (∀ r, stable (Q r)) → stable I →
  (∀ w1 w2, I w1 → G w1 w2 → I w2) → (∀ w, I w → Q (Err e) w) →
  I w → wp p Q w → wp (deadline e p) Q w.
Proof.
  intros HG HQ HI HIG He Hw Hp. simpl. intros w1 HR t w2 [-> [c ->]]. split; [by apply HG|].
  destruct c; simpl; [by apply He, (HI w)|].
  apply (wp_deadline_go_inv e p I); [done..|by eapply HI|]. by eapply wp_interfere.
Qed.

Lemma wp_deadline {A} e (p : prog L A) Q w :
  (∀ w1 w2, w2 = w1 → G w1 w2) → (∀ r, stable (Q r)) → (∀ w, Q (Err e) w) →
  wp p Q w → wp (deadline e p) Q w.
Proof. intros. by apply (wp_deadline_inv e p (λ _, True)). Qed.

End wp.

(** Two tasks with their own rely and guarantee: each sees the other's steps and
    the environment's as interference. *)
Section join.
Context {L : Type} (R R1 R2 G G1 G2 : world L → world L → Prop) `{!PreOrder R, !PreOrder R1, !PreOrder R2}.
Hypothesis R_R1 : ∀ w1 w2, R w1 w2 → R1 w1 w2.
Hypothesis R_R2 : ∀ w1 w2, R w1 w2 → R2 w1 w2.
Hypothesis G1_R2 : ∀ w1 w2, G1 w1 w2 → R2 w1 w2.
Hypothesis G2_R1 : ∀ w1 w2, G2 w1 w2 → R1 w1 w2.
Hypothesis G1_G : ∀ w1 w2, G1 w1 w2 → G w1 w2.
Hypothesis G2_G : ∀ w1 w2, G2 w1 w2 → G w1 w2.
Hypothesis G_refl : ∀ w1 w2, w2 = w1 → G w1 w2.

(** The other task's finished result is carried along. *)
Lemma wp_frame {A} Ra Rb Ga `{!PreOrder Ra} (p : prog L A) P (F : world L → Prop) w :
  (∀ w1 w2, R w1 w2 → Ra w1 w2) → (∀ w1 w2, R w1 w2 → Rb w1 w2) → (∀ w1 w2, Ga w1 w2 → Rb w1 w2) →
  (∀ w1 w2, Ga w1 w2 → G w1 w2) → stable Rb F →
  wp Ra Ga p P w → F w → wp R G p (λ r w', P r w' ∧ F w') w.
Proof.
  intros Ha Hb Hg HG HF. revert w; induction p as [r|o k IH]; simpl; [done|].
  intros w Hp Hw w1 HR x w2 Hs. destruct (Hp w1 (Ha _ _ HR) x w2 Hs) as [HGa Hk].
  split; [by apply HG|]. apply IH; [done|]. eapply HF; [|by apply Hg]. by eapply HF; [|apply Hb].
Qed.

Lemma wp_join_par {A B} (p : prog L A) (q : prog L B) P Q w :
  (∀ r, stable R1 (P r)) → (∀ r, stable R2 (Q r)) →
  wp R1 G1 p P w → wp R2 G2 q Q w →
  wp R G (join p q) (λ r w', ∃ r1 r2, r = Ok (r1, r2) ∧ P r1 w' ∧ Q r2 w') w.
Proof.
  intros HP HQ. revert q w; induction p as [r|o k IHp]; intros q w Hp Hq.
  - simpl. apply wp_bind, wp_attempt.
    eapply wp_mono; [apply (wp_frame R2 R1 G2 q Q (P r)); auto|]. simpl. naive_solver.
  - revert w Hp Hq. induction q as [s|o' k' IHq]; intros w Hp Hq.
    + cbn [join]. apply wp_bind, wp_attempt.
      eapply wp_mono; [apply (wp_frame R1 R2 G1 (Op o k) P (Q s)); auto|]. simpl. naive_solver.
    + cbn [join]. intros w1 HR1 t w2 [-> [c ->]]. split; [by apply G_refl|].
      destruct c; intros w3 HR3 x w4 Hs; assert (R w w3) as HR by (by transitivity w1).
      * destruct (Hp w3 (R_R1 _ _ HR) x w4 Hs) as [HG' Hk]. split; [by apply G1_G|].
        apply IHp; [done|]. apply (wp_interfere R2 G2 _ _ w); [done|exact Hq|].
        transitivity w3; [by apply R_R2|by apply G1_R2].
      * destruct (Hq w3 (R_R2 _ _ HR) x w4 Hs) as [HG' Hk]. split; [by apply G2_G|].
        apply IHq; [|done]. apply (wp_interfere R1 G1 _ _ w); [done|exact Hp|].
        transitivity w3; [by apply R_R1|by apply G2_R1].
Qed.
End join.

(** Two tasks of one process under one rely and guarantee. *)
Lemma wp_join {L A B} (R G : world L → world L → Prop) `{!PreOrder R} (p : prog L A) (q : prog L B) P Q w :
  (∀ w1 w2, G w1 w2 → R w1 w2) → (∀ w1 w2, w2 = w1 → G w1 w2) →
  (∀ r, stable R (P r)) → (∀ r, stable R (Q r)) →
  wp R G p P w → wp R G q Q w →
  wp R G (join p q) (λ r w', ∃ r1 r2, r = Ok (r1, r2) ∧ P r1 w' ∧ Q r2 w') w.
Proof. intros. by apply (wp_join_par R R R G G G). Qed.

(** ** Results in every environment *)

Section yields.
Context {L : Type}.

(** Whatever its operations answer, [p] ends with a result that satisfies [Q]. *)
Fixpoint yields {A} (p : prog L A) (Q : result A → Prop) : Prop :=
  match p with
  | Done r => Q r
  | Op o k => ∀ x, yields (k x) Q
  end.

Lemma yields_mono {A} (p : prog L A) (Q Q' : result A → Prop) :
  yields p Q → (∀ r, Q r → Q' r) → yields p Q'.
Proof. induction p as [r|o k IH]; simpl; eauto. Qed.

Lemma yields_True {A} (p : prog L A) : yields p (λ _, True).
Proof. induction p as [r|o k IH]; simpl; eauto. Qed.

Lemma yields_bind {A B} (p : prog L A) (f : A → prog L B) Q :
  yields p (λ r, match r with Ok a => yields (f a) Q | Err e => Q (Err e) end) → yields (p ≫= f) Q.
Proof.
  unfold mbind, prog_bind. induction p as [[a|e]|o k IH]; simpl; [done..|].
  intros Hp x. by apply IH.
Qed.

Lemma yields_attempt {A} (p : prog L A) Q : yields p (λ r, Q (Ok r)) → yields (attempt p) Q.
Proof. induction p as [r|o k IH]; simpl; eauto. Qed.

(** A call of which nothing is known but that it may fail or return. *)
Lemma yields_call {A B} (p : prog L A) (f : A → prog L B) (Q : result B → Prop) :
  (∀ e, Q (Err e)) → (∀ a, yields (f a) Q) → yields (p ≫= f) Q.
Proof.
  intros He Hf. apply yields_bind. eapply yields_mono; [apply yields_True|].
  intros [a|e] _; auto.
Qed.

Lemma yields_lift {A B} (r : result A) (f : A → prog L B) (Q : result B → Prop) :
  (∀ e, Q (Err e)) → (∀ a, r = Ok a → yields (f a) Q) → yields (lift r ≫= f) Q.
Proof. destruct r; simpl; eauto. Qed.

Lemma run_yields {A} (p : prog L A) Q w : yields p Q → Q (run p w).1.
Proof.
  revert w; induction p as [r|o k IH]; simpl; [done|]. intros w Hp.
  destruct (handle o w) as [x w'] eqn:E. by apply IH.
Qed.

Lemma wp_yields (R G : world L → world L → Prop) {A} (p : prog L A) (Q : result A → Prop) w :
  (∀ w1 w2, G w1 w2) → yields p Q → wp R G p (λ r _, Q r) w.
Proof.
  intros HG. revert w; induction p as [r|o k IH]; simpl; [done|].
  intros w Hp w1 HR x w2 Hs. split; [done|]. by apply IH.
Qed.

(** What a program answers whatever the environment does, beside what it does to the
    environment. *)
Lemma wp_with_yields (R G : world L → world L → Prop) {A} (p : prog L A) Q (Q' : result A → Prop) w :
  wp R G p Q w → yields p Q' → wp R G p (λ r w', Q r w' ∧ Q' r) w.
Proof.
  revert w; induction p as [r|o k IH]; simpl; [done|]. intros w Hp Hy w1 HR x w2 Hs.
  destruct (Hp w1 HR x w2 Hs). split; [done|]. by apply IH.
Qed.
End yields.

(** ** Pools of tasks *)

Section pool.
Context {L : Type}.

(** Any number of processes, each with its own state, running any number of
    tasks over the shared storage. *)
Record pool := {
  shared : world L;
  locals : gmap nat L;
  tasks : list (nat * prog L ());
}.

(** The world a task of process [pid] sees. *)
Definition view (s : pool) (l : L) : world L := set_local (shared s) l.

Inductive pool_step : pool → pool → Prop :=
| pool_task s i pid l o k x w' :
    tasks s !! i = Some (pid, Op o k) → locals s !! pid = Some l →
    step o (view s l) x w' →
    pool_step s {| shared := set_local w' (local (shared s)); locals := <[pid := local w']> (locals s);
                   tasks := <[i := (pid, k x)]> (tasks s) |}
| pool_tick s t :
    (clock (shared s) ≤ t)%N →
    pool_step s {| shared := set_clock (shared s) t; locals := locals s; tasks := tasks s |}.

Context (R G : world L → world L → Prop) `{!PreOrder R}.

(** A task's step is an interference the other tasks of its process allow for, the
    tasks of another process see of it only what it does to the shared part, and
    time may pass. *)
Hypothesis G_R : ∀ w1 w2, G w1 w2 → R w1 w2.
Hypothesis G_R_other : ∀ w1 w2 l1 l2 m,
  G (set_local w1 l1) (set_local w2 l2) → R (set_local w1 m) (set_local w2 m).
Hypothesis tick_R : ∀ w t l,
  (clock w ≤ t)%N →
  R (set_local w l) (set_local (set_clock w t) l).

Definition pool_ok (s : pool) : Prop :=
  ∀ i pid p l, tasks s !! i = Some (pid, p) → locals s !! pid = Some l →
    wp R G p (λ _ _, True) (view s l).

Lemma wp_interfere_True {A} (p : prog L A) w w' :
  wp R G p (λ _ _, True) w → R w w' → wp R G p (λ _ _, True) w'.
Proof. intros. eapply wp_interfere; [done| |done|done]. by intros r w1 w2. Qed.

Lemma pool_step_ok s s' : pool_ok s → pool_step s s' → pool_ok s'.
Proof.
  intros Hok Hs. destruct Hs as [s i pid l o k x w' Hi Hl Hstep|s t Ht].
  - destruct (Hok i pid _ l Hi Hl (view s l) ltac:(reflexivity) x w' Hstep) as [HG Hk].
    intros j pid' p l' Hj Hl'. unfold view in *; simpl in *.
    change (set_local (set_local w' (local (shared s))) l') with (set_local w' l').
    rewrite lookup_insert in Hl'. destruct (decide (i = j)) as [<-|Hne].
    + rewrite list_lookup_insert_eq in Hj by (by eapply lookup_lt_Some). simplify_eq.
      rewrite decide_True in Hl' by done. simplify_eq. by destruct w'.
    + rewrite list_lookup_insert_ne in Hj by done. case_decide as Hpid.
      * subst pid'. simplify_eq. eapply wp_interfere_True; [eapply Hok; [exact Hj|exact Hl]|].
        unfold view. destruct w'. by apply G_R.
      * eapply wp_interfere_True; [eapply Hok; [exact Hj|exact Hl']|].
        apply (G_R_other _ _ l (local w')). by destruct w'.
  - intros i pid p l Hi Hl. simpl in *. eapply wp_interfere_True; [by eapply Hok|].
    by apply tick_R.
Qed.

(** What no interference disturbs holds of every process, whatever its tasks do. *)
Lemma pool_stable (I : world L → Prop) s s' :
  stable R I → pool_ok s → (∀ pid l, locals s !! pid = Some l → I (view s l)) → rtc pool_step s s' →
  ∀ pid l, locals s' !! pid = Some l → I (view s' l).
Proof.
  intros HI Hok Hl Hstar. induction Hstar as [|s s1 s' Hs _ IH]; [done|].
  apply IH; [by eapply pool_step_ok|]. destruct Hs as [s i pid l o k x w' Hi Hpid Hstep|s t Ht].
  - destruct (Hok i pid _ l Hi Hpid (view s l) ltac:(reflexivity) x w' Hstep) as [HG _].
    intros pid' l' Hl'. unfold view in *. simpl in *.
    change (set_local (set_local w' (local (shared s))) l') with (set_local w' l').
    rewrite lookup_insert in Hl'. case_decide as Hp.
    + simplify_eq. eapply HI; [by eapply Hl|]. destruct w'. by apply G_R.
    + eapply HI; [by eapply Hl|]. apply (G_R_other _ _ l (local w')). by destruct w'.
  - intros pid l Hpid. simpl in *. eapply HI; [by eapply Hl|]. by apply tick_R.
Qed.

(** Every step of a pool of well-behaved tasks satisfies the guarantee, or only
    lets time pass. *)
Lemma pool_guarantee s s' s'' :
  pool_ok s → rtc pool_step s s' → pool_step s' s'' →
  (∃ l l', G (set_local (shared s') l) (set_local (shared s'') l')) ∨
  (buckets (shared s'') = buckets (shared s') ∧ (clock (shared s') ≤ clock (shared s''))%N).
Proof.
  intros Hok Hstar Hstep. assert (pool_ok s') as Hok'.
  { induction Hstar; [done|]. eauto using pool_step_ok. }
  destruct Hstep as [s' i pid l o k x w' Hi Hl Hstep|s' t Ht]; [left|by right].
  destruct (Hok' i pid _ l Hi Hl (view s' l) ltac:(reflexivity) x w' Hstep) as [HG _].
  exists l, (local w'). unfold view in HG. simpl. by destruct w'.
Qed.

End pool.
Arguments pool : clear implicits.

(** ** Executing a pool

    The fault-free environment is one of the behaviours [step] allows, so a
    schedule can be executed. *)

Section exec.
Context {L : Type}.

Lemma handle_cas i key e bs (w : world L) x w' :
  handle (BucketCas i key e bs) w = (x, w') → step (BucketCas i key e bs) w x w'.
Proof.
  simpl. case_decide as He; intros E; simplify_eq; [left|by right].
  split; [done|]. eexists. split_and!; [| |done]; [by case_match; lia|]. intros old ->. lia.
Qed.

Lemma handle_step (o : op L) w x w' : handle o w = (x, w') → step o w x w'.
Proof.
  destruct o as [i key|i key start length|i key e bs|i pre| | | |zone obj|r fence|r start length|r|r bs|fs
                | | |X f]; [|..|]; try apply handle_cas;
    simpl; intros E; try (injection E as <- <-); eauto using eq_sym.
  - split; [done|]. by intros ? [= <-].
  - split; [done|]. intros y. case_match; [|by intros [= <-]]. case_match eqn:Hl; [|done].
    intros [= <-]. split; [right; by apply N.leb_le|done].
  - split; [done|]. by intros ? [= <-].
  - split; [done|]. by intros ? [= <-].
  - case_match; simplify_eq; [left; eauto|]. right. split; [done|]. exists 1%Z. eauto with lia.
  - case_match eqn:Hz; [|simplify_eq; eauto]. case_decide; simplify_eq; eauto 6.
  - split; [done|]. intros y Hy. case_match; [|done]. case_match eqn:Hc; [|done].
    apply andb_true_iff in Hc as [Hg%bool_decide_eq_true Hl%N.leb_le]. simplify_eq. eauto.
  - case_match eqn:Hz; [|simplify_eq; auto]. case_decide; simplify_eq; eauto.
  - case_match eqn:Hz; [|simplify_eq; eauto]. case_match eqn:Hc; simplify_eq; [|eauto].
    apply andb_true_iff in Hc as [Hg%bool_decide_eq_true Hf%negb_true_iff]. right.
    eexists _, bs. split_and!; [done..| |auto]. by f_equal.
Qed.

Inductive move :=
| Run (task : nat)
| Tick (now : N).

Definition exec_move (s : pool L) (m : move) : pool L :=
  match m with
  | Run i =>
      match tasks s !! i with
      | Some (pid, Op o k) =>
          match locals s !! pid with
          | Some l =>
              let '(x, w') := handle o (view s l) in
              {| shared := set_local w' (local (shared s)); locals := <[pid := local w']> (locals s);
                 tasks := <[i := (pid, k x)]> (tasks s) |}
          | None => s
          end
      | _ => s
      end
  | Tick t =>
      if (clock (shared s) <=? t)%N
      then {| shared := set_clock (shared s) t; locals := locals s; tasks := tasks s |}
      else s
  end.

Definition exec (s : pool L) (ms : list move) : pool L := foldl exec_move s ms.

Lemma exec_move_step s m : exec_move s m = s ∨ pool_step s (exec_move s m).
Proof.
  destruct m as [i|t]; simpl.
  - destruct (tasks s !! i) as [[pid [r|o k]]|] eqn:Hi; [by left| |by left].
    destruct (locals s !! pid) as [l|] eqn:Hl; [|by left]. destruct (handle o (view s l)) as [x w'] eqn:Hh.
    right. eapply pool_task; [done|done|by apply handle_step].
  - destruct (N.leb_spec (clock (shared s)) t); [right|by left]. by constructor.
Qed.

Lemma exec_steps s ms : rtc pool_step s (exec s ms).
Proof.
  revert s; induction ms as [|m ms IH]; intros s; [done|]. simpl. unfold exec in *. simpl.
  destruct (exec_move_step s m) as [->|Hs]; [apply IH|]. eapply rtc_l; [done|apply IH].
Qed.

Lemma exec_move_changed {A} (f : pool L → A) s m :
  f (exec_move s m) ≠ f s → pool_step s (exec_move s m).
Proof. destruct (exec_move_step s m) as [->|Hs]; done. Qed.
End exec.
