(* ===== verification/Buckets.v ===== *)
(** * Buckets and snapshot stores

    Conditional replacement over a bucket ([src/src/bucket.rs]), the file-backed
    bucket ([src/src/bucket/file.rs]), the snapshot store interface with its
    configuration and the bucket-backed implementation
    ([src/src/bucket/snapshots.rs]). *)

From S2P Require Import Prelude Text Demo Names Payload StateLog Effects Concurrency.
Local Open Scope N_scope.

(** ** Conditional replacement *)

Definition same_bytes (o : option BucketObject) (bs : bytes) : bool :=
  match o with Some obj => obj_bytes obj == bs | None => false end.

Definition replace {L} (i : bucket_id) (key : bytes) (gen : option Z) (bs : bytes) : prog L bool :=
  r ← attempt (bucket_cas i key gen bs);
  match r with
  | Ok true => mret true
  | _ =>
      o ← bucket_get i key;
      if same_bytes o bs then mret true else lift r
  end.

(** ** The file-backed bucket

    The directory is the map from object keys to file contents: eight bytes of
    generation, then the object. Lock files are hidden names and never objects;
    every conditional write runs under its object's lock. *)

Module FileBucket.

Abbreviation files := (gmap bytes bytes).

Definition valid_part (part : bytes) : bool :=
  (part != []) && negb (starts_with (b".") part) && negb (existsb (λ x, x == x5c) part).

Definition object_path (key : bytes) : result bytes :=
  ensure ((key != []) && forallb valid_part (split x2f key)) "invalid bucket object path";;
  Ok key.

(** [i64::from_be_bytes] of the first eight bytes. *)
Definition from_be_i64 (bs : bytes) : Z :=
  let n := Z.of_N (from_be_bytes bs) in
  if (n <? 2 ^ 63)%Z then n else (n - 2 ^ 64)%Z.

Definition to_be_i64 (z : Z) : bytes := to_be_bytes 8 (Z.to_N (z mod 2 ^ 64)).

Definition read_generation (content : bytes) : result Z :=
  ensure (8 <=? len content) "incomplete bucket object";;
  Ok (from_be_i64 (takeN 8 content)).

(** [open]: only a missing file is no error. A path below a file cannot be opened, and
    a directory cannot be read. *)
Definition open (fs : files) (path : bytes) : result (option bytes) :=
  ensure (forallb (λ file, negb (starts_with (file ++ [x2f]) path) && negb (starts_with (path ++ [x2f]) file))
            (elements (dom fs))) "not a regular file";;
  Ok (fs !! path).

Definition get (fs : files) (key : bytes) : result (option BucketObject) :=
  path ← object_path key;
  file ← open fs path;
  match file with
  | None => Ok None
  | Some content =>
      g ← read_generation content;
      bs ← copy [dropN 8 content];
      Ok (Some {| generation := g; obj_bytes := bs |})
  end.

Definition range (fs : files) (key : bytes) (start length : N) : result (option BucketObject) :=
  path ← object_path key;
  file ← open fs path;
  match file with
  | None => Ok None
  | Some content =>
      g ← read_generation content;
      from ← ctx (checked_add start 8) "range overflow";
      bs ← copy [takeN length (dropN from content)];
      ensure (len bs =? length) "incomplete object range";;
      Ok (Some {| generation := g; obj_bytes := bs |})
  end.

Definition compare_and_swap (fs : files) (key : bytes) (expected : option Z) (bs : bytes)
    : result (bool * files) :=
  path ← object_path key;
  file ← open fs path;
  current ← match file with
            | None => Ok None
            | Some content => g ← read_generation content; Ok (Some g)
            end;
  if decide (current ≠ expected) then Ok (false, fs)
  else
    next ← ctx (checked_add_i64 (default 0%Z current) 1) "bucket generation overflow";
    Ok (true, <[path := to_be_i64 next ++ bs]> fs).

Definition hidden (key : bytes) : bool := existsb (λ part, starts_with (b".") part) (split x2f key).

Definition list (fs : files) (pre : bytes) : list bytes :=
  sort_names (filter (λ key, hidden key = false ∧ starts_with pre key = true) (elements (dom fs))).

End FileBucket.

(** ** Snapshot stores *)

Record ArchiveBatchConfig := {
  batch_bytes : N;
  interval_ms : N;
}.

#[global] Instance ArchiveBatchConfig_eq_dec : EqDecision ArchiveBatchConfig.
Proof. solve_decision. Defined.

Record RapidBucket := {
  rapid_bucket : bytes;
  zone : bytes;
}.

#[global] Instance RapidBucket_eq_dec : EqDecision RapidBucket.
Proof. solve_decision. Defined.

Inductive RapidPlacement := All | Nearest.

#[global] Instance RapidPlacement_eq_dec : EqDecision RapidPlacement.
Proof. solve_decision. Defined.

Inductive SnapshotStoreConfig :=
| Local
| Rapid (rapid_buckets : list RapidBucket) (archive_bucket : bytes)
    (archive_batch : ArchiveBatchConfig) (placement : RapidPlacement).

#[global] Instance SnapshotStoreConfig_eq_dec : EqDecision SnapshotStoreConfig.
Proof. solve_decision. Defined.

Definition default_batch : ArchiveBatchConfig :=
  {| batch_bytes := 16 * 1024 * 1024; interval_ms := 10000 |}.

(** [Instant::now().checked_add(..)] can overflow only for intervals beyond the
    platform's clock range; [representable] stands for that test. *)
Definition batch_validate (representable : N → bool) (c : ArchiveBatchConfig) : result unit :=
  ensure ((0 <? batch_bytes c) && (batch_bytes c <=? u64_max - 8 * 1024 * 1024))
    "archive batch bytes must be positive and leave room for one record";;
  ensure ((0 <? interval_ms c) && representable (interval_ms c))
    "archive batch interval must be positive and representable".

Definition rapid_settings (c : SnapshotStoreConfig) : option (list RapidBucket * bytes) :=
  match c with
  | Local => None
  | Rapid bs archive _ _ => Some (bs, archive)
  end.

Definition same_backend (c d : SnapshotStoreConfig) : bool := rapid_settings c == rapid_settings d.

(** One turn of the loop over the Rapid buckets: the zones and names seen so far. *)
Definition rapid_bucket_step (archive : bytes) (seen : gset bytes * gset bytes) (p : RapidBucket)
    : result (gset bytes * gset bytes) :=
  validate_bucket (rapid_bucket p);;
  '(region, suffix) ← ctx (rsplit_once x2d (zone p)) "Rapid placement must name a Google Cloud zone";
  ensure (match suffix with [c] => is_ascii_lowercase c | _ => false end
          && match list.last region with Some c => is_ascii_digit c | None => false end)
    "invalid Rapid zone";;
  ensure (bool_decide (zone p ∉ seen.1)) "Rapid buckets must occupy distinct zones";;
  ensure (bool_decide (rapid_bucket p ∉ seen.2) && (rapid_bucket p != archive))
    "Rapid and Standard buckets must be distinct";;
  Ok ({[zone p]} ∪ seen.1, {[rapid_bucket p]} ∪ seen.2).

Definition config_validate (representable : N → bool) (c : SnapshotStoreConfig) : result unit :=
  match c with
  | Local => Ok ()
  | Rapid bs archive batch placement =>
      batch_validate representable batch;;
      ensure ((placement == All) || (len bs =? 2)) "nearest Rapid placement requires two zones";;
      ensure ((1 <=? len bs) && (len bs <=? 2)) "append logs require one or two Rapid zones";;
      validate_bucket archive;;
      foldM (rapid_bucket_step archive) (∅, ∅) bs;;
      Ok ()
  end.

Record PrefetchedCheckpoint := {
  pre_source : SnapshotRef;
  pre_bytes : option bytes;
}.

(** The [SnapshotStore] trait: what activation, recovery and writing need. *)
Class SnapshotStore (L : Type) := {
  ss_get : bytes → prog L (option bytes);
  ss_prefetch_checkpoint : SnapshotRef → prog L (option PrefetchedCheckpoint);
  ss_restore_prefetched : bytes → bytes → option PrefetchedCheckpoint → prog L SqliteSnapshot;
  ss_list : bytes → prog L (list bytes);
  ss_latest : bytes → prog L (option (bytes * bytes));
  ss_put : bytes → bytes → prog L unit;
  ss_start : StateStream → prog L unit;
  ss_recover : bytes → prog L (option (bytes * bytes));
  ss_finish : StateStream → prog L unit;
}.

(** ** The bucket-backed store *)

(** [Iterator::max_by_key]: the last of the maximal elements. *)
Fixpoint max_by_key {A} (key : A → N) (l : list A) : option A :=
  match l with
  | [] => None
  | x :: l => match max_by_key key l with
              | Some y => if key x <=? key y then Some y else Some x
              | None => Some x
              end
  end.

Module BucketSnapshots.
Section store.
Context {L : Type} (i : bucket_id).

Definition get (obj : bytes) : prog L (option bytes) :=
  o ← bucket_get i obj; mret (fmap (M:=option) obj_bytes o).

Definition list (pre : bytes) : prog L (list bytes) := bucket_list i pre.

Definition versions (keys : Datatypes.list bytes) : Datatypes.list (N * bytes) :=
  omap (λ key, v ← object_version key; Some (v, key)) keys.

Definition latest (pre : bytes) : prog L (option (bytes * bytes)) :=
  keys ← list pre;
  match max_by_key fst (versions keys) with
  | Some (_, key) => o ← get key; mret (fmap (M:=option) (λ bs, (key, bs)) o)
  | None => mret None
  end.

Definition put (obj bs : bytes) : prog L unit :=
  c ← replace i obj None bs;
  lift (ensure c "conflicting immutable snapshot").

(** The defaulted methods of the trait. *)
Definition recover (pre : bytes) : prog L (option (bytes * bytes)) :=
  o ← latest pre;
  match o with
  | Some (obj, bs) => put obj bs;; mret o
  | None => mret None
  end.

Definition prefetch_checkpoint (_ : SnapshotRef) : prog L (option PrefetchedCheckpoint) := mret None.
Definition start (_ : StateStream) : prog L unit := mret ().
Definition finish (_ : StateStream) : prog L unit := mret ().

End store.
End BucketSnapshots.
