(* ===== verification/Rapid.v ===== *)
(** * Append logs: names, manifests and indexes

    [src/src/bucket/rapid.rs], [src/src/bucket/rapid/standard.rs] and the pure part
    of [src/src/bucket/rapid/index.rs]. A stream of commits is a sequence of log
    segments; each segment has a manifest in the archive bucket naming its replicas
    in the log zones, markers for its life cycle, archived batches of whole frames
    and one index per batch. *)

From S2P Require Import Prelude Text Demo Names Payload Frame StateLog Effects Btree Concurrency Buckets.
Local Open Scope N_scope.

(** ** Data *)

Record Manifest := {
  format : N;
  manifest_id : bytes;
  manifest_stream : StateStream;
  first_version : N;
  replicas : list Replica;
}.

#[global] Instance Manifest_eq_dec : EqDecision Manifest.
Proof. solve_decision. Defined.

(** The fixed part of [LogStorage]: the zones by their bucket, the placement and
    the batch limits. Both the archive and the Standard copies are in one bucket. *)
Record LogStorage := {
  zones : list bytes;
  log_placement : RapidPlacement;
  batch : ArchiveBatchConfig;
}.

Record ClosedSegment := {
  last_version : N;
  end_offset : N;
}.

#[global] Instance ClosedSegment_eq_dec : EqDecision ClosedSegment.
Proof. solve_decision. Defined.

Record Entry := {
  entry_version : N;
  entry_start : N;
  entry_length : N;
}.

Record Index := {
  index_batch_key : bytes;
  index_records : list Entry;
}.

Record LiveRecord := {
  live_manifest : Manifest;
  live_start : N;
  live_length : N;
}.

(** The size of a record's frame. *)
Definition frame_len (r : LogRecord) : N := HEADER + len (state r).

Section names.
Context `{Digest} `{Base64} `{UuidParse}.

(** ** Physical names *)

Definition log_object_name (logical : bytes) : result bytes :=
  relative ← ctx (strip_prefix (ROOT ++ b"snapshots/") logical) "invalid snapshot root";
  match splitn 5 x2f relative with
  | [shard; p; n; i; rest] =>
      ensure (forallb (λ part, part != []) [shard; p; n; i]) "invalid snapshot actor prefix";;
      Ok (b"durable-actors-v3-snapshots-" ++ b64_encode (sha256 (Text.join x2f [shard; p; n; i]))
          ++ b"~" ++ replace_char x2f x7e rest)
  | _ => Err "invalid snapshot actor prefix"
  end.

Definition manifest_key (m : Manifest) : result bytes :=
  name ← log_object_name (prefix (manifest_stream m));
  Ok (name ++ b"log~" ++ manifest_id m ++ b".manifest").

Definition marker (m : Manifest) (kind : bytes) : result bytes :=
  k ← manifest_key m;
  Ok (replace_str (b".manifest") (b"." ++ kind) k).

(** The prefix of an actor's segments in the log zones. *)
Definition logs_prefix (actor : ActorKey) : result bytes :=
  s ← snapshots actor;
  name ← log_object_name s;
  Ok (replace_first (b"snapshots-") (b"logs-") name).

Definition manifest_object (m : Manifest) : result bytes :=
  actor ← actor_from_snapshot (stream_object (manifest_stream m) (first_version m));
  pre ← logs_prefix actor;
  Ok (pre ++ manifest_id m ++ b".segment").

(** One turn of the loop over the replicas: the buckets seen so far. *)
Definition replica_step (m : Manifest) (zs : list bytes) (seen : gset bytes) (r : Replica)
    : result (gset bytes) :=
  obj ← (if bool_decide (replica_bucket r ∉ seen) && bool_decide (replica_bucket r ∈ zs)
         then manifest_object m else Ok (replica_object r));
  ensure (bool_decide (replica_bucket r ∉ seen) && bool_decide (replica_bucket r ∈ zs)
          && (replica_object r == obj) && (0 <? replica_generation r)%Z)
    "invalid log replica descriptor";;
  Ok ({[replica_bucket r]} ∪ seen).

Definition manifest_validate (m : Manifest) (key pre : bytes) (zs : list bytes) : result unit :=
  let s := manifest_stream m in
  ensure ((format m =? 1) && (base_version s <? first_version m)) "invalid log manifest";;
  ensure (uuid_parse (manifest_id m)) "invalid segment ID";;
  k ← manifest_key m;
  ensure ((k == key) && starts_with pre (prefix s)) "manifest escaped its stream";;
  let obj := stream_object s (first_version m) in
  actor ← actor_from_snapshot obj;
  validate_snapshot_object_name actor (first_version m) obj;;
  ensure (bool_decide (rsplit x2f obj !! 1%nat = Some (pad 32 (show_hex (stream_owner_epoch s)))))
    "manifest epoch mismatch";;
  ensure (match replicas m with [] => false | _ => true end) "missing log replicas";;
  foldM (replica_step m zs) ∅ (replicas m);;
  Ok ().

(** [LogStorage::zone]: a zone is its bucket. *)
Definition zone_of (st : LogStorage) (r : Replica) : result bytes :=
  ctx (List.find (λ z, z == replica_bucket r) (zones st)) "log replica names an unconfigured zone".

Definition replica_zones (st : LogStorage) (m : Manifest) : result (list bytes) :=
  mapR (zone_of st) (replicas m).

(** ** Closed segments *)

Definition closed_validate (c : ClosedSegment) (m : Manifest) (stop : N) (rs : list LogRecord)
    : result unit :=
  ensure ((end_offset c =? stop) && (first_version m - 1 <=? last_version c)
          && match list.last rs with Some r => version r =? last_version c | None => true end)
    "incomplete replicated segment".

(** ** Batches *)

(** The part of a segment's keys before the extension. *)
Definition segment_stem (m : Manifest) : result bytes :=
  k ← manifest_key m; Ok (trim_end_matches (b".manifest") k).

Definition pad20 (n : N) : bytes := pad 20 (show_dec n).

Definition batch_key (m : Manifest) (start stop : N) : result bytes :=
  stem ← segment_stem m;
  Ok (stem ++ b"~" ++ pad20 start ++ b"~" ++ pad20 stop ++ b".batch").

(** The range a batch's name announces. *)
Definition batch_range (pre key : bytes) : result (N * N) :=
  range ← ctx (v ← strip_prefix pre key; strip_suffix (b".batch") v) "invalid archive batch key";
  '(a, z) ← ctx (split_once x7e range) "invalid archive batch range";
  start ← ctx (parse_u64 a) "invalid digit";
  stop ← ctx (parse_u64 z) "invalid digit";
  ensure (start <? stop) "invalid archive batch boundary";;
  Ok (start, stop).

(** ** Indexes *)

Definition index_key (m : Manifest) (a z : N) : result bytes :=
  name ← log_object_name (prefix (manifest_stream m));
  Ok (name ++ b"index~" ++ pad20 a ++ b"~" ++ pad20 z ++ b"~" ++ manifest_id m ++ b".idx").

Definition index_segment (key pre : bytes) (v : N) : result (option bytes) :=
  match strip_prefix (pre ++ b"index~") key ≫= strip_suffix (b".idx") with
  | None => Ok None
  | Some name =>
      match split x7e name with
      | [a; z; seg] =>
          a ← ctx (parse_u64 a) "invalid digit";
          z ← ctx (parse_u64 z) "invalid digit";
          ensure (a <=? z) "invalid archive index range";;
          Ok (if (a <=? v) && (v <=? z) then Some seg else None)
      | _ => Err "invalid archive index name"
      end
  end.

(** The entries of a batch of frames, from [start] on. *)
Fixpoint index_entries (start : N) (rs : list LogRecord) : N * list Entry :=
  match rs with
  | [] => (start, [])
  | r :: rs =>
      let e := {| entry_version := version r; entry_start := start; entry_length := frame_len r |} in
      let '(stop, es) := index_entries (start + frame_len r) rs in (stop, e :: es)
  end.

(** One turn of [Index::validate]: the offset reached and the previous version. *)
Definition entry_step (s : N * option N) (e : Entry) : result (N * option N) :=
  ensure ((entry_start e =? fst s) && (HEADER <=? entry_length e) && (entry_length e <=? HEADER + u32_max)
          && match snd s with
             | Some v => bool_decide (checked_add v 1 = Some (entry_version e))
             | None => true
             end) "invalid archive index entry";;
  o ← ctx (checked_add (fst s) (entry_length e)) "indexed offset overflow";
  Ok (o, Some (entry_version e)).

Definition index_validate (i : Index) (pre : bytes) : result unit :=
  name ← ctx (v ← strip_prefix pre (index_batch_key i); strip_suffix (b".batch") v)
           "archive index escaped its segment";
  '(a, z) ← ctx (split_once x7e name) "invalid indexed batch range";
  z ← ctx (parse_u64 z) "invalid digit";
  a ← ctx (parse_u64 a) "invalid digit";
  length ← ctx (checked_sub z a) "invalid indexed batch boundary";
  '(offset, _) ← foldM entry_step (0, None) (index_records i);
  ensure (match index_records i with [] => false | _ => true end && (offset =? length))
    "incomplete archive index".

(** [binary_search_by_key]: halving the candidates [lo, lo + size). *)
Fixpoint binary_search (fuel : nat) (es : list Entry) (v lo size : N) : option N :=
  match fuel with
  | O => None
  | S fuel =>
      if size =? 0 then None
      else
        let mid := lo + size / 2 in
        match es !! N.to_nat mid with
        | None => None
        | Some e =>
            if entry_version e =? v then Some mid
            else if entry_version e <? v
            then binary_search fuel es v (mid + 1) (size - size / 2 - 1)
            else binary_search fuel es v lo (size / 2)
        end
  end.

(** Walking back over the entries before the one found. *)
Fixpoint extend_back (first limit stop start : N) (back : list Entry) : N :=
  match back with
  | [] => start
  | e :: back =>
      if (entry_version e <? first) || (limit <? stop - entry_start e) then start
      else extend_back first limit stop (entry_start e) back
  end.

Definition index_range (i : Index) (first v limit : N) : result (N * N) :=
  let es := index_records i in
  last ← ctx (binary_search (S (length es)) es v 0 (len es)) "archive index record missing";
  e ← ctx (es !! N.to_nat last) "unreachable";
  let stop := entry_start e + entry_length e in
  let start := extend_back first limit stop (entry_start e) (reverse (takeN last es)) in
  Ok (start, stop - start).

End names.
