(* ===== verification/Recovery.v ===== *)
(** * Resolving a commit to a full database history ([src/src/bucket/recovery.rs])

    A commit carries only the transactions since its parent. Restoring it walks
    the parents back, verifying every dependency, until a commit without a parent
    or a checkpoint that stands for the rest of the history. *)

From S2P Require Import Prelude Text Demo Names Payload StateLog Effects Concurrency Buckets.
Local Open Scope N_scope.

Record Checkpoint := {
  source : SnapshotRef;
  cp_sqlite : SqliteSnapshot;
}.

Record ResolvedSqlite := {
  resolved : SqliteSnapshot;
  checkpoint_version : N;
  from_checkpoint : bool;
  parents : N;
  base_bytes : N;
  log_bytes : N;
}.

(** The [SnapshotHistory] trait; [St] is the state behind [&mut self]. *)
Class SnapshotHistory (L St : Type) := {
  history_read : St → bytes → prog L (St * bytes);
  history_checkpoint : St → bytes → prog L (St * option bytes);
}.

(** The walk so far: the state behind the history, the commit it has reached and
    the reference it was reached by, the prefetched checkpoint if still unused,
    the files collected (newest commit first) and the number of parents. *)
Record walk `{JsonValue} (St : Type) := {
  w_history : St;
  w_current : StateSnapshot;
  w_reference : SnapshotRef;
  w_prefetched : option PrefetchedCheckpoint;
  w_segments : list (list LtxFile);
  w_parents : N;
}.
Arguments w_history {_ St}. Arguments w_current {_ St}. Arguments w_reference {_ St}.
Arguments w_prefetched {_ St}. Arguments w_segments {_ St}. Arguments w_parents {_ St}.
Arguments Build_walk {_ St}.

Section recovery.
Context `{JsonValue} `{!Json (Envelope StateSnapshot), !Json StateSnapshot, !Json LegacySnapshot}.
Context `{!Json (Envelope Checkpoint), !Json Checkpoint} `{Digest} `{Base64}.

Definition checkpoint_encode (c : Checkpoint) : result bytes :=
  Binary.encode {| source := source c; cp_sqlite := with_files (cp_sqlite c) [] |} (files (cp_sqlite c)).

Definition checkpoint_decode (bs : bytes) (src : SnapshotRef) (tx : N) : result SqliteSnapshot :=
  c ← (if Binary.is_binary bs then
         '(c, fs) ← Binary.decode bs;
         ensure (match files (cp_sqlite c) with [] => true | _ => false end) "duplicate LTX files";;
         Ok {| source := source c; cp_sqlite := with_files (cp_sqlite c) fs |}
       else ctx (from_json bs) "invalid checkpoint");
  ensure (source c == src) "checkpoint source mismatch";;
  sqlite_validate (cp_sqlite c) (ref_state_version src);;
  ensure (bool_decide (parent (cp_sqlite c) = None) && (txid (cp_sqlite c) =? tx))
    "checkpoint transaction mismatch";;
  Ok (cp_sqlite c).

Context {L St : Type} `{!SnapshotHistory L St}.

(** The checkpoint that may replace the history behind the current commit. *)
Definition walk_checkpoint (w : walk St) : prog L (walk St * option bytes) :=
  match parent (sqlite (w_current w)) with
  | None => mret (w, None)
  | Some _ =>
      match w_prefetched w with
      | Some c =>
          mret ({| w_history := w_history w; w_current := w_current w; w_reference := w_reference w;
                   w_prefetched := None; w_segments := w_segments w; w_parents := w_parents w |},
                pre_bytes c)
      | None =>
          '(h, o) ← history_checkpoint (w_history w) (object (w_reference w));
          mret ({| w_history := h; w_current := w_current w; w_reference := w_reference w;
                   w_prefetched := None; w_segments := w_segments w; w_parents := w_parents w |}, o)
      end
  end.

(** One turn of the loop: the walk is over ([inl]) or goes on ([inr]). *)
Definition walk_step (w : walk St) : prog L ((bool * walk St) + walk St) :=
  '(w, cp) ← walk_checkpoint w;
  match cp with
  | Some bs =>
      q ← lift (checkpoint_decode bs (w_reference w) (txid (sqlite (w_current w))));
      mret (inl (true,
        {| w_history := w_history w; w_current := w_current w; w_reference := w_reference w;
           w_prefetched := w_prefetched w; w_segments := w_segments w ++ [files q];
           w_parents := w_parents w |}))
  | None =>
      let q := sqlite (w_current w) in
      let segments := w_segments w ++ [files q] in
      match parent q with
      | None =>
          mret (inl (false,
            {| w_history := w_history w; w_current := w_current w; w_reference := w_reference w;
               w_prefetched := w_prefetched w; w_segments := segments; w_parents := w_parents w |}))
      | Some p =>
          first ← lift (ctx (first <$> head (files q)) "SQLite commit has no replication files");
          '(h, bs) ← history_read (w_history w) (object p);
          lift (verify p bs);;
          next ← lift (snapshot_decode bs);
          lift (validate_object next (object p));;
          lift (ensure ((state_version next =? ref_state_version p) && (request_id next == ref_request_id p))
                  "SQLite dependency identity mismatch");;
          lift (ensure (bool_decide (checked_add (txid (sqlite next)) 1 = Some first))
                  "SQLite dependency transaction gap");;
          mret (inr
            {| w_history := h; w_current := next; w_reference := p; w_prefetched := w_prefetched w;
               w_segments := segments; w_parents := w_parents w + 1 |})
      end
  end.

(** [None] when the fuel runs out; [resolve] gives one turn per state version. *)
Fixpoint walk_loop (fuel : nat) (w : walk St) : prog L (option (bool * walk St)) :=
  match fuel with
  | O => mret None
  | S fuel =>
      r ← walk_step w;
      match r with inl over => mret (Some over) | inr w => walk_loop fuel w end
  end.

Definition size (fs : list LtxFile) : N := foldr (λ f n, len (data f) + n) 0 fs.

Definition resolve (h : St) (obj bs : bytes) (prefetched : option PrefetchedCheckpoint)
    : prog L (option ResolvedSqlite) :=
  current ← lift (snapshot_decode bs);
  lift (validate_object current obj);;
  let reference := snapshot_ref obj current bs in
  let prefetched := match prefetched with
                    | Some c => if decide (pre_source c = reference) then Some c else None
                    | None => None
                    end in
  over ← walk_loop (S (N.to_nat (state_version current)))
    {| w_history := h; w_current := current; w_reference := reference; w_prefetched := prefetched;
       w_segments := []; w_parents := 0 |};
  match over with
  | None => mret None
  | Some (cp, w) =>
      let base := match list.last (w_segments w) with Some fs => size fs | None => 0 end in
      mret (Some
        {| resolved := {| txid := txid (sqlite current); parent := None;
                          files := concat (reverse (w_segments w)) |};
           checkpoint_version := ref_state_version (w_reference w);
           from_checkpoint := cp;
           parents := w_parents w;
           base_bytes := base;
           log_bytes := foldr (λ fs n, size fs + n) 0 (w_segments w) - base |})
  end.

End recovery.

(** ** Histories over a snapshot store *)

Section stored_history.
Context {L : Type} (get : bytes → prog L (option bytes)).

(** [StoredHistory] *)
Definition stored_read (_ : unit) (obj : bytes) : prog L (unit * bytes) :=
  o ← get obj;
  bs ← lift (ctx o "SQLite dependency missing");
  mret ((), bs).

Definition stored_checkpoint (_ : unit) (obj : bytes) : prog L (unit * option bytes) :=
  o ← get (obj ++ b".checkpoint");
  mret ((), o).

Definition stored_history : SnapshotHistory L unit :=
  {| history_read := stored_read; history_checkpoint := stored_checkpoint |}.
End stored_history.

Section restore.
Context `{JsonValue} `{!Json (Envelope StateSnapshot), !Json StateSnapshot, !Json LegacySnapshot}.
Context `{!Json (Envelope Checkpoint), !Json Checkpoint} `{Digest} `{Base64}.
Context {L : Type}.

(** The trait's [restore_prefetched], over the store's own [get]. [resolve] never
    runs out of fuel ([resolve_complete]), so the last branch is not taken. *)
Definition restore_prefetched (get : bytes → prog L (option bytes)) (obj bs : bytes)
    (checkpoint : option PrefetchedCheckpoint) : prog L SqliteSnapshot :=
  r ← resolve (SnapshotHistory0 := stored_history get) () obj bs checkpoint;
  match r with Some res => mret (resolved res) | None => lift (Err "out of fuel") end.

(** The store over one bucket. *)
Definition bucket_store (i : bucket_id) : SnapshotStore L := {|
  ss_get := BucketSnapshots.get i;
  ss_prefetch_checkpoint := BucketSnapshots.prefetch_checkpoint;
  ss_restore_prefetched := restore_prefetched (BucketSnapshots.get i);
  ss_list := BucketSnapshots.list i;
  ss_latest := BucketSnapshots.latest i;
  ss_put := BucketSnapshots.put i;
  ss_start := BucketSnapshots.start;
  ss_recover := BucketSnapshots.recover i;
  ss_finish := BucketSnapshots.finish;
|}.
End restore.

(** ** Lemmas *)

Lemma foldM_app {S A} (f : S → A → result S) s l k :
  foldM f s (l ++ k) = (t ← foldM f s l; foldM f t k).
Proof.
  revert s; induction l as [|x l IH]; intros s; simpl; [done|].
  destruct (f s x) as [t|e]; simpl; [apply IH|done].
Qed.

Lemma sqlite_validate_chain s v :
  sqlite_validate s v = Ok () →
  ∃ f0, head (files s) = Some f0 ∧ foldM ltx_step (first f0) (files s) = Ok (txid s + 1) ∧
    (parent s = None → first f0 = 1) ∧ (∀ p, parent s = Some p → ref_state_version p < v).
Proof.
  unfold sqlite_validate. intros Hv. inv_ok. rename x0 into f0. exists f0.
  match goal with H : foldM _ _ _ = Ok _ |- _ => rename H into Hf end.
  split_and!; [done| | |].
  - rewrite Hf. f_equal. lia.
  - match goal with H : Bool.eqb _ _ = true |- _ => apply Bool.eqb_prop in H; rename H into Hp end.
    intros E. rewrite E, bool_decide_eq_true_2 in Hp by done. by apply N.eqb_eq.
  - intros p Hp. rewrite Hp in *. by inv_ok.
Qed.

Section recovery_lemmas.
Context `{JsonValue} `{!Json (Envelope StateSnapshot), !Json StateSnapshot, !Json LegacySnapshot}.
Context `{!Json (Envelope Checkpoint), !Json Checkpoint} `{Digest} `{Base64}.
Context {L St : Type} `{!SnapshotHistory L St}.

Lemma snapshot_decode_valid bs s :
  snapshot_decode bs = Ok s → snapshot_validate s = Ok ().
Proof.
  unfold snapshot_decode. intros Hd. inv_ok. subst. by match goal with u : unit |- _ => destruct u end.
Qed.

Lemma snapshot_validate_sqlite s :
  snapshot_validate s = Ok () → sqlite_validate (sqlite s) (state_version s) = Ok ().
Proof. unfold snapshot_validate. intros Hv. by inv_ok. Qed.

Lemma checkpoint_decode_chain bs src tx q :
  checkpoint_decode bs src tx = Ok q → foldM ltx_step 1 (files q) = Ok (tx + 1).
Proof.
  unfold checkpoint_decode. intros Hd. apply bind_Ok in Hd as (c & _ & Hd). inv_ok. subst.
  match goal with u : unit, H : sqlite_validate _ _ = Ok _ |- _ => destruct u;
    apply sqlite_validate_chain in H as (f0 & _ & Hf & Hp & _) end.
  match goal with H : parent _ = None |- _ => apply Hp in H; rewrite H in Hf end.
  by rewrite Hf.
Qed.

(** What the walk maintains: the commit it stands on is valid, and the files
    collected continue its transactions up to [tx]. *)
Definition walk_inv (tx : N) (top : N) (w : walk St) : Prop :=
  snapshot_validate (w_current w) = Ok () ∧
  ref_state_version (w_reference w) = state_version (w_current w) ∧ state_version (w_current w) ≤ top ∧
  foldM ltx_step (txid (sqlite (w_current w)) + 1) (concat (reverse (w_segments w))) = Ok (tx + 1).

Definition walk_over (tx : N) (top : N) (w : walk St) : Prop :=
  ref_state_version (w_reference w) ≤ top ∧
  foldM ltx_step 1 (concat (reverse (w_segments w))) = Ok (tx + 1).

Lemma concat_reverse_snoc {A} (l : list (list A)) x :
  concat (reverse (l ++ [x])) = x ++ concat (reverse l).
Proof. by rewrite reverse_app. Qed.

(** Every turn keeps the invariant, and goes on only with an older commit. *)
Lemma walk_step_inv tx top w :
  walk_inv tx top w →
  yields (walk_step w) (λ r, match r with
    | Ok (inl (_, w')) => walk_over tx top w'
    | Ok (inr w') => walk_inv tx top w' ∧ state_version (w_current w') < state_version (w_current w)
    | Err _ => True
    end).
Proof.
  intros (Hv & Href & Htop & Hc). unfold walk_step. apply yields_bind.
  apply (yields_mono _ (λ r, match r with
    | Ok (w', _) => w_current w' = w_current w ∧ w_reference w' = w_reference w ∧ w_segments w' = w_segments w
    | Err _ => True end)).
  { unfold walk_checkpoint. repeat (case_match; try done). apply yields_call; [done|].
    intros [h o]. done. }
  intros [[w' cp]|e]; [|done]. intros (Hcur & Hr & Hseg). rewrite Hcur, Hseg.
  pose proof (snapshot_validate_sqlite (w_current w) Hv) as Hqv.
  destruct (sqlite_validate_chain _ _ Hqv) as (f0 & Hf0 & Hf & Hp & Hlt).
  destruct cp as [bs|].
  - apply yields_lift; [done|]. intros q Hq%checkpoint_decode_chain. simpl. split; simpl; [by rewrite Hr, Href|].
    rewrite concat_reverse_snoc, foldM_app, Hq. exact Hc.
  - destruct (parent (sqlite (w_current w))) as [p|] eqn:Ep.
    + rewrite Hf0. simpl. apply yields_call; [done|]. intros [h bs].
      apply yields_lift; [done|]. intros ? _. apply yields_lift; [done|]. intros next Hnext.
      apply yields_lift; [done|]. intros ? _. apply yields_lift; [done|]. intros ? Hid.
      apply yields_lift; [done|]. intros ? Htx. inv_ok. simpl.
      assert (state_version next < state_version (w_current w)) as Hold.
      { match goal with H : state_version _ = _ |- _ => rewrite H end. by apply Hlt. }
      split; [|done]. split_and!; simpl; [by eapply snapshot_decode_valid|done|lia|].
        rewrite concat_reverse_snoc, foldM_app.
        replace (txid (sqlite next) + 1) with (first f0) by lia. by rewrite Hf.
    + simpl. split; simpl; [by rewrite Hr, Href|]. rewrite concat_reverse_snoc, foldM_app.
      rewrite (Hp eq_refl) in Hf. rewrite Hf. exact Hc.
Qed.

Lemma walk_loop_inv fuel tx top w :
  walk_inv tx top w → state_version (w_current w) < N.of_nat fuel →
  yields (walk_loop fuel w) (λ r, match r with
    | Ok (Some (_, w')) => walk_over tx top w' | Ok None => False | Err _ => True end).
Proof.
  revert w; induction fuel as [|fuel IH]; intros w Hw Hf; [lia|]. cbn [walk_loop].
  apply yields_bind. eapply yields_mono; [by apply walk_step_inv|].
  intros [[[c w']|w']|e]; [done| |done]. intros [Hw' Hlt]. apply IH; [done|lia].
Qed.

Lemma resolve_chain (h : St) (obj bs : bytes) (prefetched : option PrefetchedCheckpoint) :
  yields (resolve h obj bs prefetched) (λ r, match r with
    | Ok None => False
    | Ok (Some res) =>
        parent (resolved res) = None ∧
        foldM ltx_step 1 (files (resolved res)) = Ok (txid (resolved res) + 1) ∧
        ∃ s, snapshot_decode bs = Ok s ∧ txid (resolved res) = txid (sqlite s) ∧
          checkpoint_version res ≤ state_version s
    | Err _ => True
    end).
Proof.
  unfold resolve. apply yields_lift; [done|]. intros s Hs. apply yields_lift; [done|]. intros ? _.
  pose proof (snapshot_decode_valid _ _ Hs) as Hv.
  apply yields_bind. eapply yields_mono; [apply (walk_loop_inv _ (txid (sqlite s)) (state_version s))|].
  - by split_and!.
  - simpl. lia.
  - intros [[[c w]|]|e]; [|done..]. intros [Ht Ho]. simpl. eauto 6.
Qed.

(** C19. Restoring a commit always ends, and what it restores is the complete
    history of that commit: whatever the history source answers, either an error
    is reported or the files are an unbroken chain of valid LTX files from
    transaction 1 to the commit's transaction, from a checkpoint no newer than the
    commit. *)
Theorem resolve_complete (h : St) (obj bs : bytes) (prefetched : option PrefetchedCheckpoint) :
  yields (resolve h obj bs prefetched) (λ r, match r with
    | Ok None => False
    | Ok (Some res) =>
        parent (resolved res) = None ∧
        foldM ltx_step 1 (files (resolved res)) = Ok (txid (resolved res) + 1) ∧
        ∃ s, snapshot_decode bs = Ok s ∧ txid (resolved res) = txid (sqlite s) ∧
          checkpoint_version res ≤ state_version s
    | Err _ => True
    end).
Proof. apply resolve_chain. Qed.
End recovery_lemmas.
