(* ===== verification/RapidLog.v ===== *)
(** * Reading and archiving append logs

    The storage operations of [src/src/bucket/rapid/archive.rs],
    [src/src/bucket/rapid/reader.rs], [src/src/bucket/rapid/index.rs],
    [src/src/bucket/rapid/standard.rs] and [src/src/bucket/rapid/checkpoint.rs]
    over the archive bucket and the log zones. Metrics and log lines are left out. *)

From S2P Require Import Prelude Text Demo Names Payload Frame StateLog Effects Btree Concurrency Buckets Rapid Recovery.
Local Open Scope N_scope.

Abbreviation records_map := (list (bytes * bytes)).

(** The records a process has appended lately, where its local state keeps them. *)
Class HasLive (L : Type) := {
  live : L → list (N * LiveRecord);
  set_live : list (N * LiveRecord) → L → L;
}.

(** ** Pure parts *)

(** [insert] of [src/src/bucket/rapid/reader.rs] *)
Definition insert_record (m : records_map) (key bs : bytes) : result records_map :=
  ensure (match bt_get key m with Some prior => prior == bs | None => true end)
    "conflicting state records";;
  Ok (bt_insert key bs m).

(** One turn of the merge of archived and replicated records. *)
Definition merge_step (m : list (N * LogRecord)) (r : LogRecord) : result (list (N * LogRecord)) :=
  ensure (match bt_get (version r) m with Some prior => prior == r | None => true end)
    "conflicting archived record";;
  Ok (bt_insert (version r) r m).

(** One turn of the check over the archived records: the offset reached and the
    records so far, newest first. *)
Definition chain_step (s : N * list LogRecord) (x : N * LogRecord) : result (N * list LogRecord) :=
  ensure (fst x =? fst s) "gap in archived segment";;
  ensure (match snd s with
          | r :: _ => bool_decide (checked_add (version r) 1 = Some (version (snd x)))
          | [] => true
          end) "nonconsecutive archived versions";;
  Ok (fst s + frame_len (snd x), snd x :: snd s).

(** The copies of a segment must agree as far as both go; the longest is kept. *)
Fixpoint common_prefix_agrees (xs ys : list LogRecord) : bool :=
  match xs, ys with
  | x :: xs, y :: ys => (x == y) && common_prefix_agrees xs ys
  | _, _ => true
  end.

Definition select_step (selected rs : list LogRecord) : result (list LogRecord) :=
  ensure (common_prefix_agrees selected rs) "divergent log replicas";;
  Ok (if len selected <? len rs then rs else selected).

Section pure.
Context `{JsonValue} `{!Json (Envelope StateSnapshot), !Json StateSnapshot, !Json LegacySnapshot}.
Context `{Digest} `{Base64}.

(** A record belongs where its manifest says. *)
Definition record_belongs (m : Manifest) (r : LogRecord) (msg : string) : result unit :=
  s ← stream_snapshot (manifest_stream m) (state r);
  ensure ((object s == stream_object (manifest_stream m) (version r))
          && (first_version m <=? version r)) msg.

(** [validate] of [src/src/bucket/rapid/index.rs] *)
Definition record_validate (obj : bytes) (r : LogRecord) : result unit :=
  s ← snapshot_decode (state r);
  validate_object s obj;;
  ensure (bool_decide (object_version obj = Some (version r)) && (state_version s =? version r))
    "indexed record identity mismatch";;
  ensure (bool_decide (rsplit x2f obj !! 1%nat = Some (pad 32 (show_hex (owner_epoch s)))))
    "indexed record epoch mismatch".

Definition decode_step (pre : bytes) (s : N * records_map) (r : LogRecord) : result (N * records_map) :=
  let obj := pre ++ b"/" ++ show_dec (version r) ++ b".json" in
  record_validate obj r;;
  ensure (match bt_get obj (snd s) with None => true | Some _ => false end) "duplicate indexed record";;
  Ok (fst s + frame_len r, bt_insert obj (state r) (snd s)).

Definition decode_records (pre bs : bytes) : result records_map :=
  rs ← Frame.decode bs;
  '(length, m) ← foldM (decode_step pre) (0, []) rs;
  ensure (length =? len bs) "incomplete indexed range";;
  Ok m.

(** The records of one archived batch, entered by their offsets. *)
Definition batch_step (m : Manifest) (s : N * list (N * LogRecord)) (r : LogRecord)
    : result (N * list (N * LogRecord)) :=
  record_belongs m r "archive record identity mismatch";;
  ensure (match bt_get (fst s) (snd s) with Some prior => prior == r | None => true end)
    "conflicting archive overlap";;
  Ok (fst s + frame_len r, bt_insert (fst s) r (snd s)).

Definition batch_records (m : Manifest) (offsets : list (N * LogRecord)) (start stop : N) (bs : bytes)
    : result (list (N * LogRecord)) :=
  ensure (len bs =? stop - start) "archive batch length mismatch";;
  rs ← Frame.decode bs;
  '(offset, offsets) ← foldM (batch_step m) (start, offsets) rs;
  ensure (offset =? stop) "incomplete archive batch";;
  Ok offsets.

Definition archive_chain (offsets : list (N * LogRecord)) : result (N * list LogRecord) :=
  '(through, rs) ← foldM chain_step (0, []) offsets;
  Ok (through, reverse rs).

(** How much of a run of records goes into one batch: whole frames up to and
    including the one that reaches the limit. *)
Fixpoint batch_length (m : Manifest) (limit length : N) (rs : list LogRecord) : result N :=
  match rs with
  | [] => Ok length
  | r :: rs =>
      record_belongs m r "archive record identity mismatch";;
      if limit <=? length + frame_len r then Ok (length + frame_len r)
      else batch_length m limit (length + frame_len r) rs
  end.

(** [live_range]: the record of [obj] and the ones just before it in its segment. *)
Fixpoint extend_live (limit : N) (r : LiveRecord) (prior : list (N * LiveRecord)) : LiveRecord :=
  match prior with
  | [] => r
  | (_, p) :: prior =>
      if (manifest_id (live_manifest p) != manifest_id (live_manifest r))
         || (live_start p + live_length p != live_start r)
         || (limit <? live_length r + live_length p)
      then r
      else extend_live limit
             {| live_manifest := live_manifest r; live_start := live_start p;
                live_length := live_length r + live_length p |} prior
  end.

Definition live_range (records : list (N * LiveRecord)) (limit : N) (obj : bytes) (first : N)
    : option LiveRecord :=
  v ← object_version obj;
  r ← bt_get v records;
  if bool_decide (stream_object (manifest_stream (live_manifest r)) v = obj)
  then Some (extend_live limit r
               (reverse (List.filter (λ x, (first <=? fst x) && (fst x <? v)) records)))
  else None.

(** [LogStorage::remember]: at most 128 records, the oldest forgotten first. *)
Definition remember_live (m : Manifest) (offset v length : N) (records : list (N * LiveRecord))
    : list (N * LiveRecord) :=
  let rs := bt_insert v {| live_manifest := m; live_start := offset - length; live_length := length |}
              records in
  dropN (len rs - 128) rs.

End pure.

(** ** Standard copies ([GcsSnapshots]) *)

Section standard.
Context `{Digest} `{Base64} {L : Type}.

Definition std_put (obj bs : bytes) : prog L unit :=
  name ← lift (log_object_name obj);
  c ← replace Archive name None bs;
  lift (ensure c "conflicting immutable checkpoint").

Definition std_get (obj : bytes) : prog L (option bytes) :=
  name ← lift (log_object_name obj);
  o ← bucket_get Archive name;
  mret (fmap (M:=option) obj_bytes o).

Definition std_list (pre : bytes) : prog L (list bytes) :=
  physical ← lift (log_object_name pre);
  keys ← bucket_list Archive physical;
  lift (mapR (λ key,
    suffix ← ctx (strip_prefix physical key) "snapshot list escaped its prefix";
    Ok (pre ++ replace_char x7e x2f suffix)) keys).

Definition std_latest (pre : bytes) : prog L (option (bytes * bytes)) :=
  keys ← std_list pre;
  match max_by_key fst (BucketSnapshots.versions keys) with
  | Some (_, key) => o ← std_get key; mret (fmap (M:=option) (λ bs, (key, bs)) o)
  | None => mret None
  end.
End standard.

Section storage.
Context `{JsonValue} `{!Json (Envelope StateSnapshot), !Json StateSnapshot, !Json LegacySnapshot}.
Context `{!Json (Envelope Checkpoint), !Json Checkpoint} `{Digest} `{Base64} `{UuidParse}.
Context `{!Json Manifest, !Json ClosedSegment, !Json Index}.
Context {L : Type} `{!HasLive L} (st : LogStorage).

Definition bounded_replace (key bs : bytes) (msg : string) : prog L unit :=
  c ← bounded (replace Archive key None bs);
  lift (ensure c msg).

(** ** Replicas *)

Fixpoint read_range_from (rs : list Replica) (start length : N) : prog L bytes :=
  match rs with
  | [] => lift (Err "all Rapid archive sources unavailable")
  | r :: rs =>
      lift (zone_of st r);;
      x ← attempt (bounded (zone_read_range r start length));
      match x with Ok bs => mret bs | Err _ => read_range_from rs start length end
  end.

Definition read_range (m : Manifest) (start length : N) : prog L bytes :=
  read_range_from (replicas m) start length.

Definition read_replica (fence : bool) (r : Replica) : prog L bytes :=
  lift (zone_of st r);; bounded (zone_read r fence).

Definition read_replicas (m : Manifest) (fence : bool) : prog L (list LogRecord) :=
  reads ← join_all (read_replica fence <$> replicas m);
  copies ← lift (mapR Frame.decode (omap ok reads));
  lift (ensure (match copies with [] => false | _ => true end)
          "acknowledged log is unavailable in all configured zones");;
  lift (foldM select_step [] copies).

(** ** Archived batches *)

Definition archived_step (m : Manifest) (pre : bytes) (offsets : list (N * LogRecord)) (key : bytes)
    : prog L (list (N * LogRecord)) :=
  '(start, stop) ← lift (batch_range pre key);
  o ← bucket_get Archive key;
  o ← lift (ctx o "archive batch missing");
  lift (batch_records m offsets start stop (obj_bytes o)).

Definition archived (m : Manifest) : prog L (N * list LogRecord) :=
  stem ← lift (segment_stem m);
  let pre := stem ++ b"~" in
  keys ← bucket_list Archive pre;
  offsets ← for_each (archived_step m pre) [] keys;
  lift (archive_chain offsets).

Definition index_batch (m : Manifest) (batch_name bs : bytes) : prog L unit :=
  rs ← lift (Frame.decode bs);
  let '(stop, es) := index_entries 0 rs in
  lift (ensure (stop =? len bs) "incomplete indexed batch");;
  first ← lift (ctx (head es) "empty indexed batch");
  last ← lift (ctx (list.last es) "unreachable");
  key ← lift (index_key m (entry_version first) (entry_version last));
  bs ← lift (payload_encode {| index_batch_key := batch_name; index_records := es |});
  c ← replace Archive key None bs;
  lift (ensure c "conflicting archive index").

Definition put_batch (m : Manifest) (start : N) (bs : bytes) : prog L unit :=
  stop ← lift (ctx (checked_add start (len bs)) "batch offset overflow");
  key ← lift (batch_key m start stop);
  bounded_replace key bs "conflicting archive batch";;
  index_batch m key bs.

Definition put_marker (m : Manifest) (kind : bytes) (c : ClosedSegment) (msg : string) : prog L unit :=
  key ← lift (marker m kind);
  bs ← lift (payload_encode c);
  bounded_replace key bs msg.

Definition close_segment (m : Manifest) (c : ClosedSegment) : prog L unit :=
  put_marker m (b"closed") c "conflicting closed segment".

Definition mark_replicated (m : Manifest) (c : ClosedSegment) : prog L unit :=
  put_marker m (b"replicated") c "conflicting replication coverage".

Definition get_marker (m : Manifest) (kind : bytes) : prog L (option BucketObject) :=
  key ← lift (marker m kind); bucket_get Archive key.

Definition read_batch (m : Manifest) (start stop : N) : prog L bytes :=
  let requested := N.min (stop - start) (N.max (batch_bytes (batch st)) HEADER) in
  bs ← read_range m start requested;
  length ← lift (Frame.length bs);
  if length <=? requested then mret bs
  else
    lift (ensure (length <=? stop - start) "incomplete committed record");;
    tail ← read_range m (start + requested) (length - requested);
    lift (copy [bs; tail]).

(** [inl]: another worker has archived that far. *)
Definition upload_source (m : Manifest) (start stop : N) (cached : option bytes) : prog L (N + bytes) :=
  match cached with
  | Some bs => mret (inr bs)
  | None =>
      r ← attempt (read_batch m start stop);
      match r with
      | Ok bs => mret (inr bs)
      | Err e =>
          '(through, _) ← archived m;
          if start <? through then mret (inl (N.min through stop)) else lift (Err e)
      end
  end.

Definition upload (m : Manifest) (start stop : N) (cached : option bytes) : prog L N :=
  source ← upload_source m start stop cached;
  match source with
  | inl through => mret through
  | inr bs =>
      rs ← lift (Frame.decode bs);
      length ← lift (batch_length m (batch_bytes (batch st)) 0 rs);
      lift (ensure (0 <? length) "archive range has no complete record");;
      put_batch m start (takeN length bs);;
      mret (start + length)
  end.

(** The loop of [complete_segment]; [None] when it runs out of turns. *)
Fixpoint upload_all (fuel : nat) (m : Manifest) (through stop : N) : prog L (option unit) :=
  if through <? stop then
    match fuel with
    | O => mret None
    | S fuel => next ← upload m through stop None; upload_all fuel m next stop
    end
  else mret (Some ()).

(** Every upload makes progress, so [end_offset c - through] turns are enough. *)
Definition complete_segment (m : Manifest) (c : ClosedSegment) : prog L unit :=
  '(through, _) ← archived m;
  lift (ensure (through <=? end_offset c) "archive exceeds closed segment");;
  uploaded ← upload_all (N.to_nat (end_offset c - through)) m through (end_offset c);
  lift (ctx uploaded "out of turns");;
  '(stop, rs) ← archived m;
  lift (closed_validate c m stop rs);;
  mark_replicated m c.

Fixpoint delete_replicas (rs : list Replica) : prog L unit :=
  match rs with
  | [] => mret ()
  | r :: rs => lift (zone_of st r);; bounded (zone_delete r);; delete_replicas rs
  end.

Definition cleanup_segment (m : Manifest) : prog L unit :=
  o ← get_marker m (b"replicated");
  lift (ensure (match o with Some _ => true | None => false end) "cannot delete unreplicated segment");;
  delete_replicas (replicas m);;
  key ← lift (marker m (b"cleaned"));
  bounded_replace key (b"{}") "conflicting cleanup marker".

Definition get_manifest (key pre : bytes) (msg : string) : prog L Manifest :=
  o ← bucket_get Archive key;
  o ← lift (ctx o msg);
  m ← lift (ctx (from_json (obj_bytes o)) "invalid manifest");
  lift (manifest_validate m key pre (zones st));;
  mret m.

Definition sweep_segment (key : bytes) : prog L unit :=
  cleaned ← bucket_get Archive (replace_str (b".closed") (b".cleaned") key);
  match cleaned with
  | Some _ => mret ()
  | None =>
      let mkey := replace_str (b".closed") (b".manifest") key in
      o ← bucket_get Archive mkey;
      o ← lift (ctx o "closed segment manifest missing");
      m ← lift (ctx (from_json (obj_bytes o)) "invalid manifest");
      lift (manifest_validate m mkey (prefix (manifest_stream m)) (zones st));;
      o ← bucket_get Archive key;
      o ← lift (ctx o "closed segment marker missing");
      c ← lift (ctx (from_json (obj_bytes o)) "invalid closed segment");
      replicated ← get_marker m (b"replicated");
      match replicated with Some _ => mret () | None => complete_segment m c end;;
      cleanup_segment m
  end.

Definition sweep (pre : bytes) : prog L unit :=
  keys ← bucket_list Archive pre;
  for_each (λ _ key, attempt (sweep_segment key);; mret ()) ()
    (List.filter (λ k, ends_with (b".closed") k
       && negb (bool_decide (replace_str (b".closed") (b".cleaned") k ∈ keys))) keys).

(** ** Segments *)

Definition archived_closed (m : Manifest) (o : BucketObject) : prog L (list LogRecord) :=
  c ← lift (ctx (from_json (obj_bytes o)) "invalid closed segment");
  '(stop, rs) ← archived m;
  lift (closed_validate c m stop rs);;
  mret rs.

Definition read_segment (m : Manifest) (fence : bool) : prog L (list LogRecord) :=
  mark ← get_marker m (b"replicated");
  '(stop, arch) ← archived m;
  match mark with
  | Some o =>
      c ← lift (ctx (from_json (obj_bytes o)) "invalid closed segment");
      lift (closed_validate c m stop arch);;
      mret arch
  | None =>
      r ← attempt (read_replicas m fence);
      match r with
      | Ok rapid =>
          merged ← lift (foldM merge_step [] (arch ++ rapid));
          mret (snd <$> merged)
      | Err e =>
          mark ← get_marker m (b"replicated");
          match mark with
          | Some o => archived_closed m o
          | None => lift (Err e)
          end
      end
  end.

(** The batches of a recovered segment: [pending] are the frames not yet put, [length]
    their size, [offset] the end of the frame reached. *)
Fixpoint recover_batches (m : Manifest) (through offset length : N) (pending : list bytes)
    (rs : list LogRecord) : prog L unit :=
  match rs with
  | [] =>
      if 0 <? length then bs ← lift (spool_all pending); put_batch m through bs else mret ()
  | r :: rs =>
      frame ← lift (Frame.encode r);
      let offset := offset + len frame in
      if offset <=? through then recover_batches m through offset length pending rs
      else
        let pending := pending ++ [frame] in
        let length := length + len frame in
        if batch_bytes (batch st) <=? length then
          bs ← lift (spool_all pending);
          put_batch m through bs;;
          recover_batches m (through + length) offset 0 [] rs
        else recover_batches m through offset length pending rs
  end.

Definition recover_segment (m : Manifest) : prog L unit :=
  rs ← read_segment m true;
  replicated ← get_marker m (b"replicated");
  match replicated with
  | Some _ => mret ()
  | None =>
      '(through, _) ← archived m;
      let stop := foldr (λ r n, frame_len r + n) 0 rs in
      let closed := {| last_version := match list.last rs with
                                       | Some r => version r
                                       | None => first_version m - 1
                                       end;
                       end_offset := stop |} in
      mark ← get_marker m (b"closed");
      closed ← match mark with
               | Some o =>
                   c ← lift (ctx (from_json (obj_bytes o)) "invalid closed segment");
                   lift (closed_validate c m stop rs);;
                   mret c
               | None => mret closed
               end;
      recover_batches m through 0 0 [] rs;;
      mark ← get_marker m (b"closed");
      match mark with Some _ => mret () | None => close_segment m closed end;;
      mark_replicated m closed
  end.

(** ** Streams *)

Definition read_manifest (key pre : bytes) (fence : bool) : prog L (Manifest * list LogRecord) :=
  m ← get_manifest key pre "log manifest disappeared";
  rs ← read_segment m fence;
  mret (m, rs).

Definition segment_records (m : Manifest) (acc : records_map) (r : LogRecord) : result records_map :=
  record_belongs m r "log record identity mismatch";;
  insert_record acc (stream_object (manifest_stream m) (version r)) (state r).

Definition manifest_keys (keys : list bytes) : list bytes := List.filter (ends_with (b".manifest")) keys.

Definition records (pre : bytes) (fence : bool) : prog L records_map :=
  physical ← lift (log_object_name pre);
  keys ← bucket_list Archive physical;
  for_each (λ acc key,
    '(m, rs) ← read_manifest key pre fence;
    lift (foldM (segment_records m) acc rs)) [] (manifest_keys keys).

(** [Iterator::max_by_key] on an optional key: [None] is least. *)
Definition version_key (x : bytes * bytes) : N :=
  match object_version (fst x) with Some v => v + 1 | None => 0 end.

Definition log_latest (pre : bytes) (fence : bool) : prog L (option (bytes * bytes)) :=
  '(checkpoint, m) ← try_join (std_latest pre) (records pre fence);
  m ← lift (match checkpoint with Some (k, bs) => insert_record m k bs | None => Ok m end);
  mret (max_by_key version_key m).

(** ** Indexed and live reads *)

Definition live_records (obj : bytes) (first : N) : prog L (option records_map) :=
  r ← atomic (λ l, (live_range (live l) (batch_bytes (batch st)) obj first, l));
  match r with
  | None => mret None
  | Some r =>
      x ← attempt (read_range (live_manifest r) (live_start r) (live_length r));
      match x with
      | Ok bs =>
          '(pre, _) ← lift (ctx (rsplit_once x2f obj) "invalid snapshot object");
          m ← lift (decode_records pre bs);
          lift (ensure (match bt_get obj m with Some _ => true | None => false end) "live record missing");;
          mret (Some m)
      | Err _ => mret None
      end
  end.

Definition index_keys (pre : bytes) : prog L (list bytes) :=
  name ← lift (log_object_name pre);
  r ← attempt (bucket_list Archive (name ++ b"index~"));
  mret (match r with Ok keys => keys | Err _ => [] end).

Fixpoint read_indexed_from (obj pre physical : bytes) (first v : N) (keys : list bytes)
    : prog L (option records_map) :=
  match keys with
  | [] => mret None
  | key :: keys =>
      seg ← lift (index_segment key physical v);
      match seg with
      | None => read_indexed_from obj pre physical first v keys
      | Some seg =>
          o ← bucket_get Archive key;
          o ← lift (ctx o "archive index missing");
          i ← lift (ctx (from_json (obj_bytes o)) "invalid index");
          lift (index_validate i (physical ++ b"log~" ++ seg ++ b"~"));;
          '(start, length) ← lift (index_range i first v (batch_bytes (batch st)));
          b ← bucket_range Archive (index_batch_key i) start length;
          b ← lift (ctx b "indexed archive batch missing");
          m ← lift (decode_records pre (obj_bytes b));
          lift (ensure (match bt_get obj m with Some _ => true | None => false end) "indexed record missing");;
          mret (Some m)
      end
  end.

Definition read_indexed (obj : bytes) (first : N) (keys : list bytes) : prog L (option records_map) :=
  v ← lift (ctx (object_version obj) "invalid snapshot version");
  '(pre, _) ← lift (ctx (rsplit_once x2f obj) "invalid snapshot object");
  physical ← lift (log_object_name (pre ++ b"/"));
  read_indexed_from obj pre physical first v keys.

Definition indexed_records (obj : bytes) (first : N) (keys : list bytes) : prog L (option records_map) :=
  r ← attempt (read_indexed obj first keys);
  mret (match r with Ok m => m | Err _ => None end).

(** ** Restoring from the log ([LogHistory]) *)

Record EpochHistory := {
  epoch_records : option records_map;
  epoch_indexes : list bytes;
  epoch_indexed : records_map;
  epoch_checkpoints : list bytes;
}.

Abbreviation LogHistory := (list (bytes * EpochHistory)).

Definition open_epoch (h : LogHistory) (pre : bytes) : prog L (EpochHistory * LogHistory) :=
  match bt_get pre h with
  | Some e => mret (e, h)
  | None =>
      '(keys, indexes) ← try_join (std_list (pre ++ b"/")) (index_keys (pre ++ b"/"));
      let e := {| epoch_records := None; epoch_indexes := indexes; epoch_indexed := [];
                  epoch_checkpoints := List.filter (ends_with (b".checkpoint")) keys |} in
      mret (e, bt_insert pre e h)
  end.

(** The newest checkpoint at or before [v], or 0. *)
Definition first_needed (checkpoints : list bytes) (v : N) : N :=
  foldr N.max 0 (List.filter (λ u, u <=? v)
    (omap (λ key, k ← strip_suffix (b".checkpoint") key; object_version k) checkpoints)).

Definition with_indexed (e : EpochHistory) (m : records_map) : EpochHistory :=
  {| epoch_records := epoch_records e; epoch_indexes := epoch_indexes e; epoch_indexed := m;
     epoch_checkpoints := epoch_checkpoints e |}.

Definition with_records (e : EpochHistory) (m : records_map) : EpochHistory :=
  {| epoch_records := Some m; epoch_indexes := epoch_indexes e; epoch_indexed := epoch_indexed e;
     epoch_checkpoints := epoch_checkpoints e |}.

(** The records just read become the cache, and the object is taken out of it. *)
Definition take_indexed (h : LogHistory) (pre obj : bytes) (e : EpochHistory) (m : records_map)
    (msg : string) : prog L (LogHistory * bytes) :=
  bs ← lift (ctx (bt_get obj m) msg);
  mret (bt_insert pre (with_indexed e (bt_remove obj m)) h, bs).

Definition log_read (h : LogHistory) (obj : bytes) : prog L (LogHistory * bytes) :=
  '(pre, _) ← lift (ctx (rsplit_once x2f obj) "invalid snapshot name");
  '(e, h) ← open_epoch h pre;
  match epoch_records e ≫= bt_get obj with
  | Some bs => mret (h, bs)
  | None =>
      match bt_get obj (epoch_indexed e) with
      | Some bs => mret (bt_insert pre (with_indexed e (bt_remove obj (epoch_indexed e))) h, bs)
      | None =>
          v ← lift (ctx (object_version obj) "invalid snapshot version");
          let first := first_needed (epoch_checkpoints e) v in
          found ← live_records obj first;
          match found with
          | Some m => take_indexed h pre obj e m "live SQLite dependency missing"
          | None =>
              o ← std_get obj;
              match o with
              | Some bs => mret (h, bs)
              | None =>
                  found ← indexed_records obj first (epoch_indexes e);
                  match found with
                  | Some m => take_indexed h pre obj e m "indexed SQLite dependency missing"
                  | None =>
                      '(h, m) ← match epoch_records e with
                                | Some m => mret (h, m)
                                | None =>
                                    m ← records (pre ++ b"/") false;
                                    mret (bt_insert pre (with_records e m) h, m)
                                end;
                      bs ← lift (ctx (bt_get obj m) "SQLite dependency missing");
                      mret (h, bs)
                  end
              end
          end
      end
  end.

Definition log_checkpoint (h : LogHistory) (obj : bytes) : prog L (LogHistory * option bytes) :=
  let key := obj ++ b".checkpoint" in
  '(pre, _) ← lift (ctx (rsplit_once x2f obj) "invalid snapshot name");
  if match bt_get pre h with Some e => negb (bool_decide (key ∈ epoch_checkpoints e)) | None => false end
  then mret (h, None)
  else o ← std_get key; mret (h, o).

Definition log_history : SnapshotHistory L LogHistory :=
  {| history_read := log_read; history_checkpoint := log_checkpoint |}.

Definition log_restore (obj bs : bytes) (checkpoint : option PrefetchedCheckpoint)
    : prog L (option ResolvedSqlite) :=
  resolve (SnapshotHistory0 := log_history) [] obj bs checkpoint.

(** ** Checkpoints *)

Definition write_checkpoint (obj bs : bytes) : prog L (option N) :=
  s ← lift (snapshot_decode bs);
  match parent (sqlite s) with
  | None => mret (Some (size (files (sqlite s))))
  | Some _ =>
      let src := snapshot_ref obj s bs in
      let key := obj ++ b".checkpoint" in
      stored ← std_get key;
      match stored with
      | Some c =>
          q ← lift (checkpoint_decode c src (txid (sqlite s)));
          mret (Some (size (files q)))
      | None =>
          r ← log_restore obj bs None;
          q ← lift (ctx (fmap (M:=option) resolved r) "out of fuel");
          file ← match files q with
                 | [f] => if level f =? 9 then mret f else compact [f]
                 | fs => compact fs
                 end;
          bs ← lift (checkpoint_encode {| source := src;
                       cp_sqlite := {| txid := txid q; parent := None; files := [file] |} |});
          bounded (std_put key bs);;
          mret (Some (size [file]))
      end
  end.

End storage.
