(* ===== verification/RapidSegment.v ===== *)
(** * Opening and appending to log segments

    [src/src/bucket/rapid/prepared.rs] and [src/src/bucket/rapid/segment.rs]. A
    segment is one appendable object in every zone it was placed in. A record is
    acknowledged only when every replica has flushed exactly its frame; after any
    other outcome the segment is never appended to again. *)

From S2P Require Import Prelude Text Demo Names Payload Frame StateLog Effects Btree Concurrency Buckets Rapid Recovery RapidLog.
Local Open Scope N_scope.

(** ** Tasks *)

Section tasks.
Context {L : Type} {A : Type}.

(** A spawned task is the rest of its program. It runs on for as long as the
    scheduler lets it. *)
Fixpoint poll (p : prog L A) : prog L (prog L A) :=
  match p with
  | Done r => mret (Done r)
  | Op o k => Op Schedule (λ go : result bool,
      match go with Ok true => Op o (λ x, poll (k x)) | _ => mret (Op o k) end)
  end.

Definition is_finished (p : prog L A) : bool := match p with Done _ => true | Op _ _ => false end.

(** A finished task of the list, if the scheduler takes one. *)
Fixpoint pick (before ps : list (prog L A)) : prog L (option (result A * list (prog L A))) :=
  match ps with
  | [] => mret None
  | Done r :: ps =>
      Op Schedule (λ take : result bool,
        match take with
        | Ok true => mret (Some (r, before ++ ps))
        | _ => pick (before ++ [Done r]) ps
        end)
  | p :: ps => pick (before ++ [p]) ps
  end.

(** [FuturesUnordered::next]: the tasks run side by side until one has ended. *)
Definition next_ready (ps : list (prog L A)) : prog L (option (result A * list (prog L A))) :=
  ps ← mapP poll ps;
  taken ← pick [] ps;
  match taken, ps with
  | Some x, _ => mret (Some x)
  | None, p :: ps => r ← attempt p; mret (Some (r, ps))
  | None, [] => mret None
  end.
End tasks.

(** ** Preparing a segment's replicas *)

(** A prepared segment: its name, and where the task that opens it works. The
    opens themselves run when the segment is taken. *)
Record Prepared := {
  prepared_id : bytes;
  prepared_prefix : bytes;
  prepared_zones : list bytes;
  prepared_placement : RapidPlacement;
}.

(** The slot of [LogStorage] for the segment prepared before activation. *)
Class HasPrepared (L : Type) := {
  prepared : L → option Prepared;
  set_prepared : option Prepared → L → L;
}.

Record Segment := {
  seg_manifest : Manifest;
  seg_zones : list bytes;
  (** The writers, each named by the replica it appends to. *)
  seg_writers : list Replica;
  seg_offset : N;
  seg_healthy : bool;
}.

Section prepare.
Context {L : Type}.

Definition prepared_new (pre : bytes) (zs : list bytes) (pl : RapidPlacement) : prog L Prepared :=
  id ← new_uuid;
  mret {| prepared_id := id; prepared_prefix := pre; prepared_zones := zs; prepared_placement := pl |}.

Definition discard_replica (zs : list bytes) (r : Replica) : prog L unit :=
  match List.find (λ z, z == replica_bucket r) zs with
  | Some _ => attempt (bounded (zone_delete r));; mret ()
  | None => mret ()
  end.

Definition open_all (zs : list bytes) (obj : bytes) : prog L (option (list Replica)) :=
  results ← join_all ((λ z, bounded (zone_open z obj)) <$> zs);
  let opened := omap ok results in
  if len opened =? len zs then mret (Some opened)
  else for_each (λ _, discard_replica zs) () opened;; mret None.

(** [discard]: later opens are deleted again; [n] bounds the tasks left. *)
Fixpoint discard (n : nat) (opens : list (prog L (bytes * result Replica))) : prog L unit :=
  match n with
  | O => mret ()
  | S n =>
      x ← next_ready opens;
      match x with
      | None => mret ()
      | Some (Ok (_, Ok r), opens) => attempt (bounded (zone_delete r));; discard n opens
      | Some (_, opens) => discard n opens
      end
  end.

(** The loop of [open_nearest]: the first zone to open is taken. The task that
    discards the others runs before the result is returned. *)
Fixpoint open_first (n : nat) (opens : list (prog L (bytes * result Replica)))
    : prog L (option (list Replica)) :=
  match n with
  | O => mret None
  | S n =>
      x ← next_ready opens;
      match x with
      | None => mret None
      | Some (Ok (_, Ok copy), opens) => discard (length opens) opens;; mret (Some [copy])
      | Some (_, opens) => open_first n opens
      end
  end.

Definition open_nearest (zs : list bytes) (obj : bytes) : prog L (option (list Replica)) :=
  open_first (length zs)
    ((λ z, r ← attempt (bounded (zone_open z obj)); mret (z, r)) <$> zs).

Definition prepared_take (p : Prepared) : prog L (option (list Replica)) :=
  let obj := prepared_prefix p ++ prepared_id p ++ b".segment" in
  match prepared_placement p with
  | All => open_all (prepared_zones p) obj
  | Nearest => open_nearest (prepared_zones p) obj
  end.
End prepare.

(** ** Segments *)

Section segment.
Context `{Digest} `{Base64} `{JsonValue} `{!Json Manifest}.
Context {L : Type} `{!HasPrepared L}.

(** The prepared segment if there is one, else one in the zones already chosen for
    the session, else one placed by the configuration. *)
Definition segment_replicas (st : LogStorage) (pre : bytes) (placed : option (list bytes))
    : prog L Prepared :=
  slot ← atomic (λ l, (prepared l, set_prepared None l));
  match slot with
  | Some p =>
      lift (ensure (prepared_prefix p == pre) "prepared log belongs to another actor");;
      mret p
  | None =>
      match placed with
      | Some zs => prepared_new pre zs All
      | None => prepared_new pre (zones st) (log_placement st)
      end
  end.

Definition segment_open (st : LogStorage) (s : StateStream) (first : N) (placed : option (list bytes))
    : prog L (option Segment) :=
  actor ← lift (actor_from_snapshot (stream_object s first));
  pre ← lift (logs_prefix actor);
  p ← segment_replicas st pre placed;
  opened ← prepared_take p;
  match opened with
  | None => mret None
  | Some rs =>
      let m := {| format := 1; manifest_id := prepared_id p; manifest_stream := s;
                  first_version := first; replicas := rs |} in
      zs ← lift (replica_zones st m);
      key ← lift (manifest_key m);
      bs ← lift (payload_encode m);
      bounded_replace key bs "conflicting log manifest";;
      mret (Some {| seg_manifest := m; seg_zones := zs; seg_writers := rs; seg_offset := 0;
                    seg_healthy := true |})
  end.

Definition set_health (s : Segment) (offset : N) (healthy : bool) : Segment :=
  {| seg_manifest := seg_manifest s; seg_zones := seg_zones s; seg_writers := seg_writers s;
     seg_offset := offset; seg_healthy := healthy |}.

(** What is checked and computed before any replica is touched: the frame and the
    offset every replica has to reach. *)
Definition plan_append (s : Segment) (v : N) (bs : bytes) : result (bytes * N) :=
  ensure (seg_healthy s) "uncertain log append requires activation recovery";;
  frame ← Frame.encode {| version := v; state := bs |};
  expected ← ctx (checked_add (seg_offset s) (len frame)) "log offset overflow";
  Ok (frame, expected).

Definition flush_replicas (ws : list Replica) (frame : bytes) (expected : N) : prog L unit :=
  flushed ← bounded (join_all ((λ r, zone_append r frame) <$> ws));
  lift (mapR (λ x : result N, o ← x; ensure (o =? expected) "unexpected persisted log offset") flushed);;
  mret ().

(** The segment comes back changed even when the append fails. *)
Definition segment_append (s : Segment) (v : N) (bs : bytes) : prog L (Segment * result bytes) :=
  match plan_append s v bs with
  | Err e => mret (s, Err e)
  | Ok (frame, expected) =>
      r ← attempt (flush_replicas (seg_writers s) frame expected);
      mret (match r with
            | Ok _ => (set_health s expected true, Ok frame)
            | Err e => (set_health s (seg_offset s) false, Err e)
            end)
  end.

End segment.
