(* ===== verification/RapidAppend.v ===== *)
(** * Acknowledged appends and fencing

    The durability argument of the append logs: an acknowledged record is on every
    replica of its segment, and a fencing read by the next owner returns at least
    the records that are on every replica, then or later. *)

From S2P Require Import Prelude Text Demo Names Payload Frame StateLog Effects Btree Concurrency Buckets Rapid Recovery RapidLog RapidSegment.
Local Open Scope N_scope.

Definition replica_key (r : Replica) : bytes * bytes := (replica_bucket r, replica_object r).

Section appends.
Context {L : Type}.
Implicit Types w : world L.

(** Replica [r] holds exactly [bs]. *)
Definition replica_holds w (r : Replica) (bs : bytes) : Prop :=
  ∃ z, zone_objects w !! replica_key r = Some z ∧ zo_generation z = replica_generation r ∧ zo_bytes z = bs.

(** What others may do to a segment while its writer is at work: read it, and
    fence it, but neither append to it nor delete it. *)
Definition replicas_kept (rs : list Replica) w1 w2 : Prop :=
  ∀ r bs, r ∈ rs → replica_holds w1 r bs → replica_holds w2 r bs.

#[global] Instance replicas_kept_preorder rs : PreOrder (replicas_kept rs).
Proof. split; [by intros w r bs|]. intros w1 w2 w3 H1 H2 r bs Hr Hb. eauto. Qed.

(** Replica [r] holds the log and some part of one more frame. *)
Definition partly_appended (log frame : bytes) w (r : Replica) : Prop :=
  ∃ p, p `prefix_of` frame ∧ replica_holds w r (log ++ p).

(** What an append does: it changes no bucket and no other object, and the
    replicas stay within one frame of the log. *)
Definition append_step (rs : list Replica) (log frame : bytes) w1 w2 : Prop :=
  buckets w2 = buckets w1 ∧
  (∀ key, key ∉ replica_key <$> rs → zone_objects w2 !! key = zone_objects w1 !! key) ∧
  (∀ r, r ∈ rs → partly_appended log frame w1 r → partly_appended log frame w2 r).

Lemma append_step_refl rs log frame w1 w2 : w2 = w1 → append_step rs log frame w1 w2.
Proof. by intros ->. Qed.

Lemma unchanged_holds w1 w2 r bs :
  zone_objects w2 !! replica_key r = zone_objects w1 !! replica_key r →
  replica_holds w1 r bs → replica_holds w2 r bs.
Proof. unfold replica_holds. by intros ->. Qed.

Lemma append_step_elsewhere rs rs' log frame w1 w2 :
  append_step rs log frame w1 w2 → (∀ r, r ∈ rs' → replica_key r ∉ replica_key <$> rs) →
  replicas_kept rs' w1 w2.
Proof.
  intros (_ & Hz & _) Hd r bs Hr. apply unchanged_holds. auto.
Qed.

Lemma append_step_mono rs rs' log frame w1 w2 :
  append_step rs log frame w1 w2 → rs ⊆ rs' →
  (∀ r, r ∈ rs' → r ∈ rs ∨ replica_key r ∉ replica_key <$> rs) → append_step rs' log frame w1 w2.
Proof.
  intros (Hb & Hz & Hp) Hsub Hor. split_and!; [done| |].
  - intros key Hk. apply Hz. contradict Hk. apply list_elem_of_fmap in Hk as (r & -> & Hr).
    apply list_elem_of_fmap_2. auto.
  - intros r Hr (p & Hpre & Hh). destruct (Hor r Hr) as [|Hne]; [apply Hp; [done|by exists p]|].
    exists p. split; [done|]. eapply unchanged_holds; [|done]. auto.
Qed.

(** ** One replica *)

(** What the answer of an append says of the replica. *)
Definition append_answer (log frame : bytes) (r : Replica) (x : result N) w : Prop :=
  ∃ p, p `prefix_of` frame ∧ replica_holds w r (log ++ p) ∧
    ∀ o, x = Ok o → p = frame ∧ o = len (log ++ frame).

Lemma append_answer_stable log frame r rs x :
  r ∈ rs → stable (replicas_kept rs) (append_answer log frame r x).
Proof. intros Hr w1 w2 (p & ? & ? & ?) Hk. exists p. eauto. Qed.

Lemma zone_append_spec r log frame w :
  replica_holds w r log →
  wp (replicas_kept [r]) (append_step [r] log frame) (zone_append r frame) (append_answer log frame r) w.
Proof.
  intros Hw w1 HR x w2 Hs. assert (replica_holds w1 r log) as H1 by (apply HR; [set_solver|done]).
  destruct Hs as [(-> & e & ->)|(z & p & Hz & Hg & Hf & Hp & -> & Hx)].
  - split; [by apply append_step_refl|]. exists []. rewrite app_nil_r. split_and!; [apply prefix_nil|done..].
  - destruct H1 as (z' & Hz' & Hg' & Hb). assert (z' = z) as -> by (unfold replica_key in *; congruence).
    assert (∀ w0 : world L, replica_holds (set_zones w0 (<[(replica_bucket r, replica_object r) :=
      {| zo_generation := zo_generation z; zo_bytes := zo_bytes z ++ p; zo_fenced := false |}]>
        (zone_objects w0))) r (log ++ p)) as Hh.
    { intros w0. eexists. split; [apply lookup_insert_eq|]. simpl. by rewrite <- Hb. }
    split.
    + split_and!; [done| |].
      * intros key Hk. apply lookup_insert_ne. intros <-. apply Hk. set_solver.
      * intros r' ->%list_elem_of_singleton _. by exists p.
    + exists p. split_and!; [done|apply Hh|]. intros o ->. destruct Hx as [(e & [=])|[-> [= ->]]].
      by rewrite Hb.
Qed.

(** ** Every replica *)

Definition append_answers (log frame : bytes) (rs : list Replica) (xs : list (result N)) w : Prop :=
  Forall2 (λ r x, append_answer log frame r x w) rs xs.

Lemma append_answers_stable log frame rs rs' xs :
  rs ⊆ rs' → stable (replicas_kept rs') (append_answers log frame rs xs).
Proof.
  intros Hsub w1 w2 Ha Hk. induction Ha as [|r x rs xs Hr _ IH]; constructor.
  - eapply append_answer_stable; [|done..]. set_solver.
  - apply IH. set_solver.
Qed.

Lemma append_all_spec rs log frame w :
  NoDup (replica_key <$> rs) → (∀ r, r ∈ rs → replica_holds w r log) →
  wp (replicas_kept rs) (append_step rs log frame) (join_all ((λ r, zone_append r frame) <$> rs))
    (λ x w', ∃ xs, x = Ok xs ∧ append_answers log frame rs xs w') w.
Proof.
  revert w; induction rs as [|r rs IH]; intros w Hnd Hh; [by exists []; split; [|constructor]|].
  cbn [fmap list_fmap join_all] in *. apply NoDup_cons in Hnd as [Hr Hnd]. apply wp_bind.
  assert (∀ r', r' ∈ rs → replica_key r' ≠ replica_key r) as Hdiff.
  { intros r' Hr' E. apply Hr. rewrite <- E. by apply list_elem_of_fmap_2. }
  eapply wp_mono.
  { apply (wp_join_par _ (replicas_kept [r]) (replicas_kept rs) _ (append_step [r] log frame)
      (append_step rs log frame)) with (P := append_answer log frame r)
      (Q := λ x w', ∃ xs, x = Ok xs ∧ append_answers log frame rs xs w').
    - intros w1 w2 Hk r' bs ->%list_elem_of_singleton. apply Hk. set_solver.
    - intros w1 w2 Hk r' bs Hr'. apply Hk. set_solver.
    - intros w1 w2 Hs. eapply append_step_elsewhere; [done|]. intros r' Hr' Hin. apply (Hdiff r' Hr').
      set_solver.
    - intros w1 w2 Hs. eapply append_step_elsewhere; [done|]. by intros r' ->%list_elem_of_singleton.
    - intros w1 w2 Hs. eapply append_step_mono; [done|set_solver|]. intros r' [->|Hr']%elem_of_cons;
        [left; set_solver|right]. intros Hin. apply (Hdiff r' Hr'). set_solver.
    - intros w1 w2 Hs. eapply append_step_mono; [done|set_solver|]. by intros r' [->|Hr']%elem_of_cons; [right|left].
    - apply append_step_refl.
    - intros x. apply append_answer_stable. set_solver.
    - intros x w1 w2 (xs & -> & Ha) Hk. exists xs. split; [done|]. by eapply append_answers_stable.
    - apply zone_append_spec, Hh. set_solver.
    - apply IH; [done|]. set_solver. }
  intros x w' (x1 & x2 & -> & H1 & xs & -> & Hxs). simpl. exists (x1 :: xs). split; [done|]. by constructor.
Qed.

Lemma append_answers_partly log frame rs xs w r :
  append_answers log frame rs xs w → r ∈ rs → partly_appended log frame w r.
Proof.
  intros Ha Hr. apply list_elem_of_lookup in Hr as [i Hi].
  destruct (Forall2_lookup_l _ _ _ _ _ Ha Hi) as (x & _ & p & ? & ? & _). by exists p.
Qed.

(** All answers are the expected offset only if every replica has the frame. *)
Lemma append_answers_all log frame rs xs w us expected :
  append_answers log frame rs xs w →
  mapR (λ x : result N, o ← x; ensure (o =? expected) "unexpected persisted log offset") xs = Ok us →
  ∀ r, r ∈ rs → replica_holds w r (log ++ frame).
Proof.
  intros Ha. revert us. induction Ha as [|r x rs xs Hr _ IH]; intros us Hm r' Hin; [set_solver|].
  cbn [mapR] in Hm. inv_ok. subst x. apply elem_of_cons in Hin as [->|Hin]; [|by eapply IH].
  destruct Hr as (p & _ & Hh & Ho). by destruct (Ho _ eq_refl) as [-> _].
Qed.
End appends.

(** ** The writer of a segment *)

Section writer.
Context `{DigestLaws} {L : Type}.
Implicit Types w : world L.

(** A healthy segment: every replica holds the same log, up to its offset. *)
Definition segment_log (s : Segment) (log : bytes) w : Prop :=
  len log = seg_offset s ∧ ∀ r, r ∈ seg_writers s → replica_holds w r log.

Lemma flush_spec rs log frame expected w :
  NoDup (replica_key <$> rs) → (∀ r, r ∈ rs → replica_holds w r log) →
  wp (replicas_kept rs) (append_step rs log frame) (flush_replicas rs frame expected) (λ x w',
    match x with
    | Ok _ => ∀ r, r ∈ rs → replica_holds w' r (log ++ frame)
    | Err _ => ∀ r, r ∈ rs → partly_appended log frame w' r
    end) w.
Proof.
  intros Hnd Hh. unfold flush_replicas. apply wp_bind.
  assert (stable (replicas_kept rs) (λ w : world L, ∀ r, r ∈ rs → partly_appended log frame w r)) as HI.
  { intros w1 w2 H1 Hk r Hr. destruct (H1 r Hr) as (p & ? & ?). exists p. eauto. }
  eapply wp_mono.
  { eapply (wp_deadline_inv _ _ _ _ (λ w, ∀ r, r ∈ rs → partly_appended log frame w r)
      (λ x w, match x with Ok xs => append_answers log frame rs xs w
              | Err _ => ∀ r, r ∈ rs → partly_appended log frame w r end)).
    - apply append_step_refl.
    - intros [xs|e] w1 w2 Hx Hk; [by eapply append_answers_stable|by eapply HI].
    - done.
    - intros w1 w2 H1 (_ & _ & Hp) r Hr. auto.
    - done.
    - intros r Hr. exists []. rewrite app_nil_r. split; [apply prefix_nil|auto].
    - eapply wp_mono; [by apply append_all_spec|]. by intros ? w' (xs & -> & Ha). }
  intros [xs|e] w' Hx; [|done]. apply wp_bind_lift.
  - intros e r Hr. by eapply append_answers_partly.
  - intros us Hus. simpl. by eapply append_answers_all.
Qed.

(** An append that fails either left the segment as it was, or leaves it unhealthy. *)
Lemma append_spec (s : Segment) (v : N) (bs log : bytes) w :
  let frame := frame_bytes {| version := v; state := bs |} in
  NoDup (replica_key <$> seg_writers s) → segment_log s log w →
  wp (replicas_kept (seg_writers s)) (append_step (seg_writers s) log frame)
    (segment_append s v bs) (λ res w', ∃ s' x, res = Ok (s', x) ∧ seg_writers s' = seg_writers s ∧
      match x with
      | Ok f => f = frame ∧ seg_healthy s' = true ∧ segment_log s' (log ++ frame) w'
      | Err _ => (s' = s ∧ segment_log s log w') ∨
          (seg_healthy s' = false ∧ ∀ r, r ∈ seg_writers s → partly_appended log frame w' r)
      end) w.
Proof.
  intros frame Hnd [Hlen Hh]. unfold segment_append.
  destruct (plan_append s v bs) as [[f expected]|e] eqn:Ep; [|exists s, (Err e); split_and!; [done..|by left]].
  unfold plan_append in Ep. inv_ok.
  match goal with E : Frame.encode _ = Ok _ |- _ => apply frame_encode_inv in E as (E & _); fold frame in E end.
  subst. apply wp_bind, wp_attempt. eapply wp_mono; [by apply flush_spec|].
  intros [u|e] w' Hx; simpl; (eexists _, _; split; [done|]); simpl; split_and!; try done; [|by right].
  split; [by rewrite len_app, Hlen|done].
Qed.

(** The appends a session makes, one after the other. *)
Fixpoint segment_appends (s : Segment) (records : list (N * bytes)) : prog L (Segment * list (result bytes)) :=
  match records with
  | [] => mret (s, [])
  | (v, bs) :: records =>
      '(s, x) ← segment_append s v bs;
      '(s, xs) ← segment_appends s records;
      mret (s, x :: xs)
  end.

Definition acknowledged_frames (xs : list (result bytes)) : bytes :=
  concat (omap (λ x, match x with Ok f => Some f | Err _ => None end) xs).

Lemma acknowledged_Ok f xs : acknowledged_frames (Ok f :: xs) = f ++ acknowledged_frames xs.
Proof. done. Qed.

Lemma acknowledged_Err e xs : acknowledged_frames (Err e :: xs) = acknowledged_frames xs.
Proof. done. Qed.

Definition record_frame (r : N * bytes) : bytes := frame_bytes {| version := r.1; state := r.2 |}.

(** An unhealthy segment refuses every append, without touching its replicas. *)
Lemma unhealthy_appends (s : Segment) records :
  seg_healthy s = false →
  segment_appends s records = mret (s, (λ _, Err "uncertain log append requires activation recovery") <$> records).
Proof.
  intros Hs. induction records as [|[v bs] records IH]; [done|]. simpl. unfold segment_append, plan_append.
  rewrite Hs. simpl. by rewrite IH.
Qed.

(** What a sequence of appends may do: no bucket and no other object is touched. *)
Definition appends_step (rs : list Replica) w1 w2 : Prop :=
  buckets w2 = buckets w1 ∧ ∀ key, key ∉ replica_key <$> rs → zone_objects w2 !! key = zone_objects w1 !! key.

Lemma wp_guar {A} (R G G' : world L → world L → Prop) (p : prog L A) Q w :
  (∀ w1 w2, G w1 w2 → G' w1 w2) → wp R G p Q w → wp R G' p Q w.
Proof.
  intros HG. revert w; induction p as [r|o k IH]; simpl; [done|]. intros w Hp w1 HR x w2 Hs.
  destruct (Hp w1 HR x w2 Hs). split; [by apply HG|]. by apply IH.
Qed.

(** C17. A log append is acknowledged only when every replica has persisted exactly the
    record's frame, and an append that may have left a part of its frame behind is the
    last one. After any sequence of appends, whatever failed in them, every replica
    holds the log followed by the frames of the acknowledged records in their order,
    and after those at most a part of one further frame, of a record that was not
    acknowledged; when the segment is still healthy there is no such part, and the
    segment is ready for the next append at the end. Meanwhile no bucket and no other
    object is touched. *)
Theorem append_acknowledged (s : Segment) (records : list (N * bytes)) (log : bytes) w :
  NoDup (replica_key <$> seg_writers s) → segment_log s log w →
  wp (replicas_kept (seg_writers s)) (appends_step (seg_writers s))
    (segment_appends s records) (λ res w', ∃ s' xs, res = Ok (s', xs) ∧
      Forall2 (λ record x, ∀ f, x = Ok f → f = record_frame record) records xs ∧
      (∀ r, r ∈ seg_writers s → ∃ p, replica_holds w' r (log ++ acknowledged_frames xs ++ p) ∧
         (p = [] ∨ ∃ i record e, records !! i = Some record ∧ xs !! i = Some (Err e) ∧ p `prefix_of` record_frame record)) ∧
      (seg_healthy s' = true → segment_log s' (log ++ acknowledged_frames xs) w')) w.
Proof.
  revert s log w. induction records as [|[v bs] records IH]; intros s log w Hnd Hlog; simpl.
  - exists s, []. unfold acknowledged_frames. simpl. rewrite app_nil_r.
    split_and!; [done|constructor| |done]. intros r Hr. exists []. rewrite app_nil_r. split; [by apply Hlog|by left].
  - apply wp_bind. eapply wp_mono.
    { eapply wp_guar; [|by apply append_spec]. by intros w1 w2 (? & ? & _). }
    intros ? w1 (s1 & x & -> & Hws & Hx). apply wp_bind. rewrite <- Hws in *.
    destruct x as [f|e]; [destruct Hx as (-> & _ & Hlog1)|destruct Hx as [[-> Hlog1]|[Hbad Hpart]]].
    + eapply wp_mono; [by apply (IH s1 _ w1 Hnd Hlog1)|]. intros ? w2 (s2 & xs & -> & Hf & Hrep & Hend). simpl.
      exists s2, (Ok (record_frame (v, bs)) :: xs). rewrite acknowledged_Ok.
      split_and!; [done|constructor; [by intros ? [= <-]|done]| |by rewrite app_assoc].
      intros r Hr. destruct (Hrep r Hr) as (p & Hp & Ho). exists p. rewrite <- !app_assoc in *. split; [done|].
      destruct Ho as [->|(i & rec & e & Hi & Hxi & Hpre)]; [by left|]. right. by exists (S i), rec, e.
    + eapply wp_mono; [by apply (IH s _ w1 Hnd Hlog1)|]. intros ? w2 (s2 & xs & -> & Hf & Hrep & Hend). simpl.
      exists s2, (Err e :: xs). rewrite acknowledged_Err.
      split_and!; [done|constructor; [done|done]| |done]. intros r Hr. destruct (Hrep r Hr) as (p & Hp & Ho).
      exists p. split; [done|]. destruct Ho as [->|(i & rec & e' & Hi & Hxi & Hpre)]; [by left|].
      right. by exists (S i), rec, e'.
    + rewrite (unhealthy_appends _ _ Hbad). simpl. eexists s1, (Err e :: _). split; [done|].
      assert (acknowledged_frames (Err e :: ((λ _, Err "uncertain log append requires activation recovery") <$> records)) = [])
        as ->.
      { unfold acknowledged_frames. simpl. clear. induction records; simpl; auto. }
      split_and!; [constructor; [done|]| |congruence].
      * apply Forall2_fmap_r, Forall_Forall2_diag, Forall_forall. by intros ? _ f [=].
      * intros r Hr. destruct (Hpart r Hr) as (p & Hpre & Hp). exists p. split; [done|]. right. by exists 0%nat, (v, bs), e.
Qed.
End writer.

(** ** Reading what the previous owner wrote *)

Section fencing.
Context `{DigestLaws} {L : Type} (st : LogStorage).
Implicit Types w : world L.

(** What may happen to the replicas of a segment that is not deleted: they grow
    until they are fenced and stay as they are from then on. *)
Definition replicas_grow (rs : list Replica) w1 w2 : Prop :=
  ∀ r z1, r ∈ rs → zone_objects w1 !! replica_key r = Some z1 → ∃ z2,
    zone_objects w2 !! replica_key r = Some z2 ∧ zo_generation z2 = zo_generation z1 ∧
    zo_bytes z1 `prefix_of` zo_bytes z2 ∧
    (zo_fenced z1 = true → zo_fenced z2 = true ∧ zo_bytes z2 = zo_bytes z1).

#[global] Instance replicas_grow_preorder rs : PreOrder (replicas_grow rs).
Proof.
  split; [by intros w r z1 _ Hz; exists z1|]. intros w1 w2 w3 H1 H2 r z1 Hr Hz.
  destruct (H1 r z1 Hr Hz) as (z2 & Hz2 & Hg2 & Hp2 & Hf2).
  destruct (H2 r z2 Hr Hz2) as (z3 & Hz3 & Hg3 & Hp3 & Hf3). exists z3.
  split_and!; [done|congruence|by etrans|]. intros Hf. destruct (Hf2 Hf) as [Hf' E].
  destruct (Hf3 Hf') as [? E']. split; [done|congruence].
Qed.

(** Replica [r] is fenced and holds [bs]: it will never hold anything else. *)
Definition final_log (r : Replica) (bs : bytes) w : Prop :=
  ∃ z, zone_objects w !! replica_key r = Some z ∧ zo_generation z = replica_generation r ∧
    zo_bytes z = bs ∧ zo_fenced z = true.

Lemma final_log_stable rs r bs : r ∈ rs → stable (replicas_grow rs) (final_log r bs).
Proof.
  intros Hr w1 w2 (z & Hz & Hg & Hb & Hf) Hk. destruct (Hk r z Hr Hz) as (z2 & Hz2 & Hg2 & _ & Hf2).
  destruct (Hf2 Hf) as [? E]. exists z2. split_and!; [done|congruence..|done].
Qed.

Lemma final_logs_stable all rs (xs : list (result bytes)) :
  rs ⊆ all → stable (replicas_grow all) (λ w, Forall2 (λ r x, ∀ bs, x = Ok bs → final_log r bs w) rs xs).
Proof.
  intros Hsub w1 w2 Hf Hk. induction Hf as [|r x rs xs Hx _ IH]; constructor.
  - intros bs Hbs. eapply final_log_stable; [|by eauto|done]. set_solver.
  - apply IH. set_solver.
Qed.

Lemma read_replica_spec rs r w :
  r ∈ rs →
  wp (replicas_grow rs) (replicas_grow rs) (read_replica st true r)
    (λ x w', ∀ bs, x = Ok bs → final_log r bs w') w.
Proof.
  intros Hr. unfold read_replica. apply wp_bind_lift; [done|]. intros z _.
  apply wp_deadline; [apply _|by intros ? ? ->| |done|].
  - intros x w1 w2 Hx Hk bs Hbs. eapply final_log_stable; eauto.
  - intros w1 _ x w2 Hs. simpl in Hs.
    destruct (zone_objects w1 !! (replica_bucket r, replica_object r)) as [o|] eqn:Ho.
    2: { destruct Hs as [-> [e ->]]. done. }
    set (w1' := set_zones w1 _) in Hs.
    assert (replicas_grow rs w1 w1') as Hg1.
    { intros r' z1 _ Hz1. unfold w1'. simpl. destruct (decide (replica_key r' = replica_key r)) as [E|Hne].
      - rewrite E. unfold replica_key. rewrite lookup_insert_eq. eexists. split; [done|]. simpl.
        rewrite E in Hz1. unfold replica_key in Hz1. simplify_eq. rewrite orb_true_r. by split_and!.
      - rewrite lookup_insert_ne by (intros E; by apply Hne). by exists z1. }
    destruct Hs as [(-> & e & ->)|[(-> & e & ->)|(Hg & -> & ->)]]; split; [done..|].
    intros bs [= <-]. eexists. split; [apply lookup_insert_eq|]. simpl. by rewrite orb_true_r.
Qed.

(** Reading every replica: each answer is that replica's final log. *)
Lemma read_all_spec all rs w :
  rs ⊆ all →
  wp (replicas_grow all) (replicas_grow all) (join_all (read_replica st true <$> rs))
    (λ x w', ∃ xs, x = Ok xs ∧ Forall2 (λ r x, ∀ bs, x = Ok bs → final_log r bs w') rs xs) w.
Proof.
  revert w; induction rs as [|r rs IH]; intros w Hsub; [by exists []; split; [|constructor]|].
  cbn [fmap list_fmap join_all]. apply wp_bind.
  eapply wp_mono.
  { apply (wp_join (replicas_grow all) (replicas_grow all)) with
      (P := λ x w', ∀ bs, x = Ok bs → final_log r bs w')
      (Q := λ x w', ∃ xs, x = Ok xs ∧ Forall2 (λ r x, ∀ bs, x = Ok bs → final_log r bs w') rs xs).
    - done.
    - by intros ? ? ->.
    - intros x w1 w2 Hx Hk bs Hbs. eapply final_log_stable; eauto. set_solver.
    - intros x w1 w2 (xs & -> & Hf) Hk. exists xs. split; [done|]. eapply final_logs_stable; [|done..]. set_solver.
    - apply read_replica_spec. set_solver.
    - apply IH. set_solver. }
  intros x w' (x1 & x2 & -> & H1 & xs & -> & Hxs). simpl. exists (x1 :: xs). split; [done|]. by constructor.
Qed.

(** ** Choosing among the copies *)

Lemma common_prefix_agrees_prefix xs ys :
  common_prefix_agrees xs ys = true → xs `prefix_of` ys ∨ ys `prefix_of` xs.
Proof.
  revert ys; induction xs as [|x xs IH]; intros [|y ys]; simpl; try by (left; apply prefix_nil) || (right; apply prefix_nil).
  rewrite andb_true_iff, bool_decide_eq_true. intros [-> [|]%IH]; [left|right]; by apply prefix_cons.
Qed.

Lemma select_step_spec selected rs l :
  select_step selected rs = Ok l → selected `prefix_of` l ∧ rs `prefix_of` l ∧ (l = selected ∨ l = rs).
Proof.
  unfold select_step. intros Hs. inv_ok. subst l.
  assert (∀ xs ys : list LogRecord, xs `prefix_of` ys → len ys ≤ len xs → ys `prefix_of` xs) as Hle.
  { intros xs ys [k ->] Hl. rewrite len_app in Hl. destruct k; [by rewrite app_nil_r|rewrite len_cons in Hl; lia]. }
  match goal with E : common_prefix_agrees _ _ = true |- _ => apply common_prefix_agrees_prefix in E as Hp end.
  destruct (N.ltb_spec (len selected) (len rs)); destruct Hp as [Hp|Hp]; split_and!; auto; apply Hle; done || lia.
Qed.

Lemma select_all selected copies l :
  foldM select_step selected copies = Ok l →
  selected `prefix_of` l ∧ (∀ c, c ∈ copies → c `prefix_of` l) ∧ (l = selected ∨ l ∈ copies).
Proof.
  revert selected; induction copies as [|c copies IH]; intros selected Hf; cbn [foldM] in Hf; inv_ok.
  - subst. split_and!; [done|set_solver|auto].
  - match goal with E : select_step _ _ = Ok _ |- _ => apply select_step_spec in E as (Hs & Hc & Hor) end.
    match goal with E : foldM _ _ _ = Ok _ |- _ => apply IH in E as (Hs' & Hall & Hor') end. split_and!.
    + by etrans.
    + intros c' [->|Hin]%elem_of_cons; [by etrans|auto].
    + destruct Hor' as [->|]; [destruct Hor as [-> | ->]; [auto|right; set_solver]|right; set_solver].
Qed.

(** ** The fencing read *)

Lemma decoded_copies w rs (reads : list (result bytes)) copies :
  Forall2 (λ r x, ∀ bs, x = Ok bs → final_log r bs w) rs reads →
  mapR Frame.decode (omap ok reads) = Ok copies →
  ∀ c, c ∈ copies → ∃ r bs, r ∈ rs ∧ final_log r bs w ∧ Frame.decode bs = Ok c.
Proof.
  intros Hf. revert copies. induction Hf as [|r x rs reads Hx _ IH]; intros copies Hm c Hc.
  - cbn in Hm. inv_ok. subst. set_solver.
  - destruct x as [bs|e].
    + change (omap ok (Ok bs :: reads)) with (bs :: omap ok reads) in Hm. cbn [mapR] in Hm. inv_ok. subst copies.
      apply elem_of_cons in Hc as [->|Hc]; [exists r, bs; eauto using list_elem_of_here|].
      destruct (IH _ ltac:(done) c Hc) as (r' & bs' & ? & ? & ?). exists r', bs'. set_solver.
    + destruct (IH copies Hm c Hc) as (r' & bs' & ? & ? & ?). exists r', bs'. set_solver.
Qed.

(** C18. What a new owner reads is final. The fencing read answers with the records
    of some replica that will never change again, and every record that is on all
    replicas of the segment, at that time or at any later one, is in the answer: an
    append that was or ever will be acknowledged has been read, however the read
    and the appends interleave. *)
Theorem fenced_read_is_final (m : Manifest) w :
  let rs := replicas m in
  wp (replicas_grow rs) (replicas_grow rs) (read_replicas st m true) (λ x w', ∀ l, x = Ok l →
    (∃ r bs, r ∈ rs ∧ final_log r bs w' ∧ Frame.decode bs = Ok l) ∧
    ∀ w'' log acknowledged, replicas_grow rs w' w'' →
      (∀ r, r ∈ rs → ∃ more, replica_holds w'' r (log ++ more)) →
      Frame.decode log = Ok acknowledged → acknowledged `prefix_of` l) w.
Proof.
  intros rs. unfold read_replicas. apply wp_bind. eapply wp_mono; [by apply (read_all_spec rs rs)|].
  intros x w' (reads & -> & Hf). apply wp_bind_lift; [done|]. intros copies Hc.
  apply wp_bind_lift; [done|]. intros u Hne. apply wp_lift. intros l (_ & Hall & Hor)%select_all.
  pose proof (decoded_copies _ _ _ _ Hf Hc) as Hcopy.
  destruct copies as [|c copies]; [done|]. split.
  - assert (l ∈ c :: copies) as Hl.
    { destruct Hor as [->|]; [|done]. destruct (Hall c) as [k Hk]; [set_solver|].
      symmetry in Hk. apply app_eq_nil in Hk as [-> _]. set_solver. }
    destruct (Hcopy l Hl) as (r & bs & ? & ? & ?). eauto.
  - intros w'' log acked Hg Hh Hd. destruct (Hcopy c) as (r & bs & Hr & Hfin & Hdec); [set_solver|].
    destruct (Hh r Hr) as (more & z & Hz & _ & Hb).
    destruct (final_log_stable rs r bs Hr w' w'' Hfin Hg) as (z' & Hz' & _ & Hb' & _).
    assert (bs = log ++ more) as -> by congruence. etrans; [|apply (Hall c); set_solver].
    by eapply decode_loop_grows.
Qed.
End fencing.

(** ** Witnesses *)

Import Stand_ins.

Definition demo_replica (zone : bytes) : Replica :=
  {| replica_bucket := zone; replica_object := b"logs-x~1.segment"; replica_generation := 1 |}.

Definition demo_segment : Segment :=
  {| seg_manifest := {| format := 1; manifest_id := b"1";
       manifest_stream := {| session := b"s"; prefix := b"p/"; stream_owner_epoch := 1; base_version := 3 |};
       first_version := 4; replicas := [demo_replica (b"zone-a"); demo_replica (b"zone-b")] |};
     seg_zones := [b"zone-a"; b"zone-b"];
     seg_writers := [demo_replica (b"zone-a"); demo_replica (b"zone-b")];
     seg_offset := 0; seg_healthy := true |}.

Definition demo_storage : LogStorage :=
  {| zones := [b"zone-a"; b"zone-b"]; log_placement := All; batch := default_batch |}.

Definition demo_zones : world unit :=
  let z := {| zo_generation := 1; zo_bytes := []; zo_fenced := false |} in
  {| buckets := ∅; write_log := ∅;
     zone_objects := {[ (b"zone-a", b"logs-x~1.segment") := z; (b"zone-b", b"logs-x~1.segment") := z ]};
     clock := 0; uuids := 0; local := () |}.

(** Two records appended to two zones and read back with a fence, after which the
    writer is refused. *)
Definition demo_append_read : prog unit (list LogRecord * bool) :=
  '(s, _) ← segment_append demo_segment 4 (b"one");
  '(s, _) ← segment_append s 5 (b"two");
  l ← read_replicas demo_storage (seg_manifest s) true;
  '(s, r) ← segment_append s 6 (b"three");
  mret (l, match r with Ok _ => true | Err _ => seg_healthy s end).

Example demo_append_read_runs : (run demo_append_read demo_zones).1 = Ok (demo_records, false).
Proof. vm_compute. reflexivity. Qed.

Definition demo_appended : list (N * bytes) := [(4, b"one"); (5, b"two")].

Lemma append_acknowledged_witness :
  wp (replicas_kept (seg_writers demo_segment)) (appends_step (seg_writers demo_segment))
    (segment_appends demo_segment demo_appended) (λ res w', ∃ s' xs, res = Ok (s', xs) ∧
      Forall2 (λ record x, ∀ f, x = Ok f → f = record_frame record) demo_appended xs ∧
      (∀ r, r ∈ seg_writers demo_segment → ∃ p, replica_holds w' r ([] ++ acknowledged_frames xs ++ p) ∧
         (p = [] ∨ ∃ i record e, demo_appended !! i = Some record ∧ xs !! i = Some (Err e) ∧ p `prefix_of` record_frame record)) ∧
      (seg_healthy s' = true → segment_log s' ([] ++ acknowledged_frames xs) w')) demo_zones.
Proof.
  apply (append_acknowledged demo_segment demo_appended [] demo_zones).
  - apply (bool_decide_unpack _). vm_compute. reflexivity.
  - split; [reflexivity|]. intros r Hr. exists {| zo_generation := 1; zo_bytes := []; zo_fenced := false |}.
    apply elem_of_cons in Hr as [->|Hr]; [by split_and!|].
    apply list_elem_of_singleton in Hr as ->. by split_and!.
Defined.

Lemma fenced_read_is_final_witness :
  wp (replicas_grow (replicas (seg_manifest demo_segment))) (replicas_grow (replicas (seg_manifest demo_segment)))
    (read_replicas demo_storage (seg_manifest demo_segment) true) (λ x w', ∀ l, x = Ok l →
    (∃ r bs, r ∈ replicas (seg_manifest demo_segment) ∧ final_log r bs w' ∧ Frame.decode bs = Ok l) ∧
    ∀ w'' log acknowledged, replicas_grow (replicas (seg_manifest demo_segment)) w' w'' →
      (∀ r, r ∈ replicas (seg_manifest demo_segment) → ∃ more, replica_holds w'' r (log ++ more)) →
      Frame.decode log = Ok acknowledged → acknowledged `prefix_of` l) demo_zones.
Proof. apply (fenced_read_is_final demo_storage (seg_manifest demo_segment) demo_zones). Defined.
