(* ===== verification/RapidArchive.v ===== *)
(** * What is archived

    Uploads consist of whole records and always advance; and the batches of a
    segment that the reader accepts are slices of one log. *)

From S2P Require Import Prelude Text Demo Names Payload Frame StateLog Effects Btree Concurrency Buckets Rapid Recovery RapidLog.
Local Open Scope N_scope.

Section batches.
Context `{JsonValue} `{!Json (Envelope StateSnapshot), !Json StateSnapshot, !Json LegacySnapshot}.
Context `{DigestLaws} `{Base64}.

(** The bytes of a run of records, and how many they are. *)
Definition log_bytes_of (rs : list LogRecord) : bytes := concat (frame_bytes <$> rs).
Definition log_size (rs : list LogRecord) : N := foldr (λ r n, Rapid.frame_len r + n) 0 rs.

Lemma log_bytes_size rs : len (log_bytes_of rs) = log_size rs.
Proof.
  unfold log_bytes_of. induction rs as [|r rs IH]; [done|]. cbn [fmap list_fmap concat log_size foldr].
  rewrite len_app, Frame.frame_len. fold (log_size rs). by rewrite <- IH.
Qed.

Lemma log_bytes_app rs rs' : log_bytes_of (rs ++ rs') = log_bytes_of rs ++ log_bytes_of rs'.
Proof. unfold log_bytes_of. by rewrite fmap_app, concat_app. Qed.

Lemma log_size_app rs rs' : log_size (rs ++ rs') = log_size rs + log_size rs'.
Proof. by rewrite <- !log_bytes_size, log_bytes_app, len_app. Qed.

(** ** Uploads *)

Lemma batch_length_spec m limit length rs n :
  batch_length m limit length rs = Ok n → length < limit → ∃ k, (k ≤ base.length rs)%nat ∧
    n = length + log_size (take k rs) ∧
    Forall (λ r, record_belongs m r "archive record identity mismatch" = Ok ()) (take k rs) ∧
    (n < limit → k = base.length rs) ∧ length + log_size (take (pred k) rs) < limit ∧
    (rs ≠ [] → k ≠ 0%nat).
Proof.
  revert length; induction rs as [|r rs IH]; intros length Hb Hl; cbn [batch_length] in Hb.
  - injection Hb as <-. exists 0%nat. split_and!; [done|simpl; lia|constructor|done|simpl; lia|done].
  - apply bind_Ok in Hb as ([] & Hr & Hb). destruct (N.leb_spec limit (length + Rapid.frame_len r)) as [Hle|Hlt].
    + injection Hb as <-. exists 1%nat. cbn [take pred base.length]. rewrite take_0.
      cbn [log_size foldr]. split_and!; [lia|lia|by repeat constructor|lia|lia|done].
    + apply IH in Hb as (k & Hk & -> & Hall & Hfull & Hlast & _); [|done].
      exists (S k). cbn [take pred base.length log_size foldr].
      fold (log_size (take k rs)). split_and!; [lia|lia|by constructor|intros Hn; f_equal; apply Hfull; lia| |done].
      destruct k as [|k]; [simpl in *; lia|]. cbn [take pred log_size foldr] in *.
      fold (log_size (take k rs)) in *. lia.
Qed.

(** The records of a log that starts with whole frames. *)
Lemma decode_log rs tail :
  consecutive None rs → Forall (λ r, len (state r) ≤ u32_max) rs →
  (∀ prev fuel, Frame.decode_loop (S fuel) prev tail = Ok []) →
  Frame.decode (log_bytes_of rs ++ tail) = Ok rs.
Proof. intros. apply decode_loop_frames; [done..| |done]. unfold log_bytes_of. rewrite length_app. lia. Qed.

Lemma consecutive_take prev rs k : consecutive prev rs → consecutive prev (take k rs).
Proof.
  revert prev k; induction rs as [|r rs IH]; intros prev [|k]; simpl; [done..|]. intros (? & ? & ?). auto.
Qed.

(** What one upload archives is whole records: the part of the bytes it takes
    is exactly the frames of the first records read, all of which belong to the
    segment's stream; it takes everything there is, or stops at the first record
    that reaches the batch size. *)
Theorem batch_whole_records (m : Manifest) (limit : N) (bs : bytes) (rs : list LogRecord) (n : N) :
  Frame.decode bs = Ok rs → batch_length m limit 0 rs = Ok n → 0 < limit →
  ∃ k, takeN n bs = log_bytes_of (take k rs) ∧ Frame.decode (takeN n bs) = Ok (take k rs) ∧
    Forall (λ r, record_belongs m r "archive record identity mismatch" = Ok ()) (take k rs) ∧
    log_size (take (pred k) rs) < limit ∧ (n < limit → take k rs = rs) ∧ (rs ≠ [] → take k rs ≠ []).
Proof.
  intros Hd Hb Hl. destruct (decode_loop_canonical _ _ _ _ Hd) as (Hc & tail & -> & _).
  destruct (batch_length_spec _ _ _ _ _ Hb Hl) as (k & Hk & -> & Hall & Hfull & Hlast & Hne).
  assert (takeN (0 + log_size (take k rs)) (concat (frame_bytes <$> rs) ++ tail) = log_bytes_of (take k rs)) as Ht.
  { rewrite <- (take_drop k rs) at 2. rewrite fmap_app, concat_app, <- app_assoc.
    apply takeN_app_eq. rewrite N.add_0_l. symmetry. apply log_bytes_size. }
  exists k. rewrite Ht. split_and!; [done| |done|done| |].
  - rewrite <- (app_nil_r (log_bytes_of _)). apply decode_log; [by apply consecutive_take| |done].
    apply Forall_take. by eapply decode_loop_small.
  - intros Hn. rewrite (Hfull Hn). by rewrite firstn_all.
  - intros Hrs. specialize (Hne Hrs). by destruct rs, k.
Qed.
End batches.

Section uploads.
Context `{JsonValue} `{!Json (Envelope StateSnapshot), !Json StateSnapshot, !Json LegacySnapshot}.
Context `{Digest} `{Base64} `{!Json ClosedSegment, !Json Index}.
Context {L : Type} (st : LogStorage).

(** An upload that returns has advanced, whatever storage answers. *)
Lemma upload_advances m start stop cached :
  start < stop →
  yields (upload (L:=L) st m start stop cached) (λ r, ∀ n, r = Ok n → start < n).
Proof.
  intros Hlt. unfold upload. apply yields_bind.
  apply (yields_mono _ (λ r, ∀ n, r = Ok (inl n) → start < n)).
  - unfold upload_source. destruct cached; [done|]. apply yields_bind. apply yields_attempt.
    eapply yields_mono; [apply yields_True|]. intros [bs|e] _; simpl; [done|].
    apply yields_call; [done|]. intros [through rs]. destruct (N.ltb_spec start through); [|done].
    intros n [= <-]. lia.
  - intros [[n|bs]|e] Hs; [|clear Hs|done].
    + intros n' [= <-]. by apply Hs.
    + do 2 (apply yields_lift; [done|]; intros ? ?). apply yields_lift; [done|]. intros u Hu.
      apply yields_call; [done|]. intros []. intros n' [= <-]. inv_ok. lia.
Qed.

(** Completing a closed segment ends: uploading never runs out of turns, whatever
    storage answers and however small the batches are, because every upload that
    succeeds archives at least one more record. *)
Theorem upload_all_ends (m : Manifest) (through stop : N) :
  yields (upload_all (L:=L) st (N.to_nat (stop - through)) m through stop) (λ r, r ≠ Ok None).
Proof.
  remember (N.to_nat (stop - through)) as fuel eqn:Hf.
  assert (N.to_nat (stop - through) ≤ fuel)%nat as Hle by lia. clear Hf.
  revert through Hle; induction fuel as [|fuel IH]; intros through Hle; cbn [upload_all];
    (destruct (N.ltb_spec through stop) as [Hlt|]; [|done]); [lia|].
  apply yields_bind. eapply yields_mono; [by apply upload_advances|].
  intros [n|e] Hn; [|done]. apply IH. specialize (Hn n eq_refl). lia.
Qed.
End uploads.

(** ** The batches of a segment *)

(** The records of a log with the offsets they start at. *)
Fixpoint offsets_of (start : N) (rs : list LogRecord) : list (N * LogRecord) :=
  match rs with
  | [] => []
  | r :: rs => (start, r) :: offsets_of (start + Rapid.frame_len r) rs
  end.

(** Versions increase by one. *)
Definition successive (rs : list LogRecord) : Prop :=
  ∀ i r r', rs !! i = Some r → rs !! S i = Some r' → version r' = version r + 1.

Section archive.
Context `{JsonValue} `{!Json (Envelope StateSnapshot), !Json StateSnapshot, !Json LegacySnapshot}.
Context `{DigestLaws} `{Base64}.

Lemma offsets_of_elem start rs o r :
  (o, r) ∈ offsets_of start rs → ∃ pre post, rs = pre ++ r :: post ∧ o = start + log_size pre.
Proof.
  revert start; induction rs as [|x rs IH]; intros start; cbn [offsets_of]; [set_solver|].
  intros [[= -> ->]|Hin]%elem_of_cons.
  - exists [], rs. split; [done|]. simpl. lia.
  - apply IH in Hin as (pre & post & -> & ->). exists (x :: pre), post. split; [done|].
    cbn [log_size foldr]. fold (log_size pre). lia.
Qed.

(** The check over the sorted offsets accepts exactly a gapless log. *)
Lemma chain_spec t acc offsets through rs' :
  foldM chain_step (t, acc) offsets = Ok (through, rs') → ∃ rs, offsets = offsets_of t rs ∧
    through = t + log_size rs ∧ rs' = reverse rs ++ acc ∧
    (successive (reverse acc) → successive (reverse acc ++ rs)).
Proof.
  revert t acc; induction offsets as [|[o r] offsets IH]; intros t acc Hf; cbn [foldM] in Hf.
  - injection Hf as <- <-. exists []. rewrite app_nil_r. split_and!; [done|simpl; lia|done..].
  - apply bind_Ok in Hf as ([t1 acc1] & Hs & Hf). unfold chain_step in Hs. inv_ok. cbn [fst snd] in *.
    simplify_eq.
    apply IH in Hf as (rs & -> & -> & -> & Hsucc). exists (r :: rs). split_and!.
    + done.
    + cbn [log_size foldr]. fold (log_size rs). lia.
    + by rewrite reverse_cons, <- app_assoc.
    + intros Hacc. rewrite reverse_cons, <- app_assoc in Hsucc. apply Hsucc. clear Hsucc IH.
      intros i a b Ha Hb. destruct acc as [|y acc].
      { rewrite reverse_nil in *. by destruct i. }
      match goal with E : context [checked_add] |- _ => apply bool_decide_eq_true, checked_add_Some in E as [Hv _] end.
      rewrite reverse_cons in *.
      destruct (decide (i = length (reverse acc))) as [->|Hne].
      * rewrite <- app_assoc in Ha, Hb. cbn [app] in Ha, Hb. rewrite list_lookup_middle in Ha by done.
        rewrite (cons_middle y), app_assoc, list_lookup_middle in Hb by (rewrite length_app; simpl; lia).
        congruence.
      * assert (i < length (reverse acc))%nat.
        { apply lookup_lt_Some in Hb. rewrite !length_app in Hb. simpl in Hb. lia. }
        rewrite lookup_app_l in Ha by (rewrite length_app; simpl; lia).
        rewrite lookup_app_l in Hb by (rewrite length_app; simpl; lia). by eapply Hacc.
Qed.

(** A run of records that sits in a log at consecutive offsets is a slice of it. *)
Lemma run_is_slice all start rs :
  (∀ x, x ∈ offsets_of start rs → x ∈ offsets_of 0 all) →
  log_bytes_of rs = sliceN start (start + log_size rs) (log_bytes_of all) ∧
  (rs ≠ [] → start + log_size rs ≤ log_size all).
Proof.
  revert start; induction rs as [|r rs IH]; intros start Hin.
  - rewrite N.add_0_r, sliceN_empty. done.
  - cbn [offsets_of] in Hin. destruct (IH (start + Rapid.frame_len r)) as [Hs Hle]; [set_solver|].
    destruct (offsets_of_elem 0 all start r) as (pre & post & -> & E); [set_solver|]. rewrite N.add_0_l in E.
    assert (log_bytes_of (r :: rs) = frame_bytes r ++ log_bytes_of rs) as -> by done.
    assert (log_size (r :: rs) = Rapid.frame_len r + log_size rs) as -> by done.
    assert (log_size (pre ++ r :: post) = log_size pre + (Rapid.frame_len r + log_size post)) as Hall
      by apply log_size_app.
    split.
    + rewrite (sliceN_add start (start + Rapid.frame_len r)) by lia.
      rewrite Hs at 1. rewrite N.add_assoc. f_equal.
      rewrite log_bytes_app. assert (log_bytes_of (r :: post) = frame_bytes r ++ log_bytes_of post) as -> by done.
      symmetry. apply sliceN_app; rewrite ?log_bytes_size; [done|]. rewrite E. by rewrite Frame.frame_len.
    + intros _. destruct rs as [|r' rs]; [simpl; lia|]. specialize (Hle ltac:(done)). lia.
Qed.

(** ** One batch *)

Lemma batch_range_inv pre key a z : batch_range pre key = Ok (a, z) → pre `prefix_of` key ∧ a < z.
Proof.
  unfold batch_range. intros Hr. apply bind_Ok in Hr as (range & Hs & Hr). inv_ok.
  apply bind_Some in Hs as (v & Hv & _). apply strip_prefix_Some in Hv as ->. split; [by eexists|].
  repeat case_match; inv_ok. simplify_eq. done.
Qed.

Lemma batch_fold_spec m start offsets rs stop offsets' :
  increasing offsets → foldM (batch_step m) (start, offsets) rs = Ok (stop, offsets') →
  increasing offsets' ∧ stop = start + log_size rs ∧
  (∀ o r, bt_get o offsets = Some r → bt_get o offsets' = Some r) ∧
  (∀ o r, (o, r) ∈ offsets_of start rs → bt_get o offsets' = Some r) ∧
  (∀ o r, bt_get o offsets' = Some r → bt_get o offsets = Some r ∨ (o, r) ∈ offsets_of start rs).
Proof.
  revert start offsets; induction rs as [|r rs IH]; intros start offsets Hi Hf; cbn [foldM] in Hf.
  - injection Hf as <- <-. split_and!; [done|simpl; lia|done|set_solver|auto].
  - apply bind_Ok in Hf as ([o1 off1] & Hs & Hf). unfold batch_step in Hs. inv_ok. cbn [fst snd] in *. simplify_eq.
    match goal with E : match bt_get _ _ with _ => _ end = true |- _ => rename E into Hprior end.
    assert (∀ o y, bt_get o offsets = Some y → bt_get o (bt_insert start r offsets) = Some y) as Hkeep.
    { intros o y Hx. rewrite bt_get_insert by done. case_decide; [|done]. subst. rewrite Hx in Hprior.
      by apply bool_decide_eq_true in Hprior as ->. }
    apply IH in Hf as (Hi' & -> & Hold & Hnew & Honly); [|by apply bt_insert_increasing]. split_and!.
    + done.
    + cbn [log_size foldr]. fold (log_size rs). lia.
    + auto.
    + intros o y [[= -> ->]|Hin]%elem_of_cons; [|auto]. apply Hold. rewrite bt_get_insert by done.
      by rewrite decide_True.
    + intros o y [Ho|Ho]%Honly; [|right; cbn [offsets_of]; set_solver].
      rewrite bt_get_insert in Ho by done. case_decide; [|auto]. simplify_eq. right. cbn [offsets_of]. set_solver.
Qed.

Lemma batch_records_spec m offsets start stop bs offsets' :
  increasing offsets → start < stop → batch_records m offsets start stop bs = Ok offsets' → ∃ rs,
    bs = log_bytes_of rs ∧ stop = start + log_size rs ∧ increasing offsets' ∧
    (∀ o r, bt_get o offsets = Some r → bt_get o offsets' = Some r) ∧
    (∀ o r, (o, r) ∈ offsets_of start rs → bt_get o offsets' = Some r) ∧
    (∀ o r, bt_get o offsets' = Some r → bt_get o offsets = Some r ∨ (o, r) ∈ offsets_of start rs).
Proof.
  intros Hi Hlt Hb. unfold batch_records in Hb. inv_ok.
  match goal with E : Frame.decode _ = Ok ?x |- _ => rename x into rs, E into Hd end.
  match goal with x : (N * list (N * LogRecord))%type |- _ => destruct x as [off offs] end. inv_ok. simplify_eq.
  match goal with E : foldM _ _ _ = Ok _ |- _ => apply batch_fold_spec in E as (? & Hst & ? & ? & ?); [|done] end.
  exists rs. split_and!; try done. destruct (decode_loop_canonical _ _ _ _ Hd) as (_ & tail & Hbs & _).
  fold (log_bytes_of rs) in Hbs. rewrite Hbs, len_app, log_bytes_size in *.
  assert (tail = []) as -> by (destruct tail; [done|rewrite len_cons in *; lia]). apply app_nil_r.
Qed.

(** ** All batches *)

Context {L : Type}.
Implicit Types w : world L.

(** Others leave the segment's batches alone. *)
Definition batches_kept (pre : bytes) w1 w2 : Prop :=
  ∀ key, pre `prefix_of` key → stored w2 Archive key = stored w1 Archive key.

#[global] Instance batches_kept_preorder pre : PreOrder (batches_kept pre).
Proof. split; [by intros w key|]. intros w1 w2 w3 E1 E2 key Hk. by rewrite E2, E1. Qed.

(** The batch named [key] has been entered into [offsets]. *)
Definition entered (pre : bytes) (offsets : list (N * LogRecord)) w (key : bytes) : Prop :=
  ∃ start rs o, batch_range pre key = Ok (start, start + log_size rs) ∧ rs ≠ [] ∧
    stored w Archive key = Some o ∧ obj_bytes o = log_bytes_of rs ∧
    ∀ x r, (x, r) ∈ offsets_of start rs → bt_get x offsets = Some r.

(** Every record comes from a batch. *)
Definition covered (pre : bytes) (offsets : list (N * LogRecord)) (keys : list bytes) : Prop :=
  ∀ x r, bt_get x offsets = Some r → ∃ key start stop, key ∈ keys ∧
    batch_range pre key = Ok (start, stop) ∧ start ≤ x ∧ x + Rapid.frame_len r ≤ stop.

Lemma archived_step_spec m pre offsets key keys w :
  increasing offsets → pre `prefix_of` key → Forall (entered pre offsets w) keys → covered pre offsets keys →
  wp (batches_kept pre) (λ _ _, True) (archived_step m pre offsets key) (λ x w', ∀ offsets', x = Ok offsets' →
    batches_kept pre w w' ∧ increasing offsets' ∧ Forall (entered pre offsets' w) (keys ++ [key]) ∧
    covered pre offsets' (keys ++ [key])) w.
Proof.
  intros Hi Hp He Hc. unfold archived_step. apply wp_bind_lift; [done|]. intros [start stop] Hr.
  apply wp_bind. intros w1 HR x w2 [-> Hx]. split; [done|]. destruct x as [o|e]; [|done].
  apply wp_bind_lift; [done|]. intros o' Ho'. inv_ok. apply wp_lift. intros offsets' Hb.
  destruct (batch_range_inv _ _ _ _ Hr) as [_ Hlt].
  apply batch_records_spec in Hb as (rs & Hbs & -> & Hi' & Hold & Hnew & Honly); [|done..].
  split_and!; [done|done| |].
  - apply Forall_app. split.
    + eapply Forall_impl; [exact He|]. intros k (a & rs' & o2 & ? & ? & ? & ? & ?).
      exists a, rs', o2. split_and!; auto.
    + repeat constructor. exists start, rs, o'. split_and!; [done| | |done|done].
      * intros ->. simpl in Hlt. lia.
      * rewrite <- HR by done. rewrite <- (Hx _ eq_refl). done.
  - intros x r [Ho|Ho]%Honly.
    + destruct (Hc x r Ho) as (k & a & z & ? & ? & ? & ?). exists k, a, z. set_solver.
    + exists key, start, (start + log_size rs). split_and!; [set_solver|done|..];
        apply offsets_of_elem in Ho as (l & l' & -> & ->); [lia|].
      rewrite log_size_app. cbn [log_size foldr]. fold (log_size l'). lia.
Qed.

Lemma archived_keys_spec m pre keys done_ offsets w :
  increasing offsets → Forall (λ key, pre `prefix_of` key) keys →
  Forall (entered pre offsets w) done_ → covered pre offsets done_ →
  wp (batches_kept pre) (λ _ _, True) (for_each (archived_step m pre) offsets keys) (λ x w', ∀ offsets', x = Ok offsets' →
    batches_kept pre w w' ∧ increasing offsets' ∧ Forall (entered pre offsets' w) (done_ ++ keys) ∧
    covered pre offsets' (done_ ++ keys)) w.
Proof.
  revert done_ offsets w; induction keys as [|key keys IH]; intros done_ offsets w Hi Hp He Hc; cbn [for_each].
  - apply wp_ret. intros ? [= <-]. rewrite app_nil_r. by split_and!.
  - apply Forall_cons in Hp as [Hk Hp]. apply wp_bind.
    eapply wp_mono; [by apply archived_step_spec|]. intros [offs|e] w1 E1; [|done].
    destruct (E1 _ eq_refl) as (Hw & Hi' & He' & Hc').
    assert (∀ k offs, entered pre offs w k → pre `prefix_of` k → entered pre offs w1 k) as Hmove.
    { intros k o' (a & rs & ob & ? & ? & ? & ? & ?) Hpk. exists a, rs, ob. rewrite Hw by done. by split_and!. }
    assert (∀ k offs, entered pre offs w1 k → pre `prefix_of` k → entered pre offs w k) as Hback.
    { intros k o' (a & rs & ob & ? & ? & ? & ? & ?) Hpk. exists a, rs, ob. rewrite <- Hw by done. by split_and!. }
    assert (∀ k offs w', entered pre offs w' k → pre `prefix_of` k) as Hpre.
    { intros k o' w' (a & rs & ob & Hr & _). by apply batch_range_inv in Hr as [? _]. }
    eapply wp_mono.
    { apply (IH (done_ ++ [key])); [done|done| |done]. eapply Forall_impl; [exact He'|]. eauto. }
    intros x w' Hx offs' ->. destruct (Hx _ eq_refl) as (Hw' & ? & He2 & Hc2). rewrite <- app_assoc in *.
    split_and!; [by etrans|done| |done]. eapply Forall_impl; [exact He2|]. eauto.
Qed.

(** Every byte of a log belongs to one of its records. *)
Lemma offset_covered start rs i :
  start ≤ i → i < start + log_size rs →
  ∃ x r, (x, r) ∈ offsets_of start rs ∧ x ≤ i ∧ i < x + Rapid.frame_len r.
Proof.
  revert start; induction rs as [|r rs IH]; intros start Hlo Hhi.
  - simpl in Hhi. lia.
  - cbn [log_size foldr] in Hhi. fold (log_size rs) in Hhi. cbn [offsets_of].
    destruct (N.lt_ge_cases i (start + Rapid.frame_len r)).
    + exists start, r. set_solver by lia.
    + destruct (IH (start + Rapid.frame_len r)) as (x & r' & ? & ? & ?); [lia..|]. exists x, r'. set_solver.
Qed.

Lemma offsets_of_increasing start rs : increasing (offsets_of start rs).
Proof.
  revert start; induction rs as [|r rs IH]; intros start; constructor; [|done].
  apply Forall_forall. intros [x r'] (pre & post & -> & ->)%offsets_of_elem. simpl.
  apply N.ltb_lt. unfold Rapid.frame_len, HEADER. lia.
Qed.

(** C34. The archived batches of a segment are one log. Whenever the reader accepts
    them, there is a single gapless sequence of records with successive versions
    such that every stored batch is, byte for byte, the slice of that log its name
    announces, and every byte of the log is in some batch. *)
Theorem archive_is_one_log (m : Manifest) (stem : bytes) w :
  segment_stem m = Ok stem →
  let pre := stem ++ b"~" in
  wp (batches_kept pre) (λ _ _, True) (archived m) (λ x _, ∀ through rs, x = Ok (through, rs) →
    through = len (log_bytes_of rs) ∧ successive rs ∧
    (∀ key o, stored w Archive key = Some o → pre `prefix_of` key →
       ∃ start stop, batch_range pre key = Ok (start, stop) ∧ start < stop ≤ through ∧
         obj_bytes o = sliceN start stop (log_bytes_of rs)) ∧
    (∀ i, i < through → ∃ key start stop, is_Some (stored w Archive key) ∧
       batch_range pre key = Ok (start, stop) ∧ start ≤ i < stop)) w.
Proof.
  intros Hstem pre. unfold archived. rewrite Hstem. change (lift (Ok stem) ≫= ?f) with (f stem). cbv beta zeta.
  fold pre. apply wp_bind. intros w1 HR x w2 [-> Hx]. split; [done|]. destruct x as [keys|e]; [|done].
  specialize (Hx _ eq_refl) as ->. apply wp_bind.
  eapply wp_mono.
  { apply (archived_keys_spec m pre _ []); [constructor| |constructor|done].
    apply Forall_forall. by intros k [_ Hk]%elem_of_bucket_names. }
  intros [offsets|e] w' Ho; [|done]. destruct (Ho _ eq_refl) as (_ & Hi & He & Hc). simpl in He, Hc.
  apply wp_lift. intros through rs Hchain. unfold archive_chain in Hchain.
  apply bind_Ok in Hchain as ([t rs'] & Hf & E). injection E as -> <-.
  apply chain_spec in Hf as (rs & -> & -> & -> & Hsucc).
  rewrite N.add_0_l, app_nil_r, reverse_involutive, log_bytes_size. split_and!.
  - done.
  - apply Hsucc. by intros [].
  - intros key o Hk Hp. rewrite Forall_forall in He.
    destruct (He key) as (start & rs2 & o2 & Hr & Hne & Hs & Hb & Hin).
    { apply elem_of_bucket_names. split; [|done]. exists o. by rewrite HR. }
    rewrite HR in Hs by done. simplify_eq. exists start, (start + log_size rs2).
    destruct (run_is_slice rs start rs2) as [Hslice Hle].
    { intros [y r] Hy. apply bt_get_elem. by apply Hin. }
    apply batch_range_inv in Hr as Hlt. rewrite Hb. split_and!; [done|lia|by apply Hle|done].
  - intros i Hlt. destruct (offset_covered 0 rs i) as (y & r & Hy & ? & ?); [lia..|].
    destruct (Hc y r) as (key & start & stop & Hk & Hr & ? & ?).
    { apply bt_elem_get; [apply offsets_of_increasing|done]. }
    apply elem_of_bucket_names in Hk as [[o Hs] Hp]. rewrite HR in Hs by done.
    exists key, start, stop. split_and!; [by eexists|done|lia|lia].
Qed.
End archive.
