(* ===== verification/RapidIndex.v ===== *)
(** * Indexes find the records

    The index written beside every batch ([src/src/bucket/rapid/index.rs]) is
    accepted by its reader and leads it to the bytes of the record it looks for. *)

From S2P Require Import Prelude Text Demo Names Payload Frame StateLog Effects Btree Concurrency Buckets Rapid Recovery RapidLog RapidArchive.
Local Open Scope N_scope.

(** ** Batch names *)

Lemma pad20_no_tilde n : x7e ∉ pad20 n.
Proof.
  unfold pad20, show_dec. intros [E|Hin]%pad_elem; [done|].
  pose proof (show_digits 10 n ltac:(lia) ltac:(lia)) as Hd. rewrite Forall_forall in Hd.
  destruct (Hd _ Hin) as (d & Hlt & E). pose proof (digit_byte_digit 10 d Hlt ltac:(lia)) as Hb.
  by rewrite <- E in Hb.
Qed.

Lemma parse_pad20 n : n ≤ u64_max → parse_u64 (pad20 n) = Some n.
Proof. intros. unfold parse_u64, pad20, show_dec. apply parse_show_pad; [lia|done]. Qed.

(** ** Binary search *)

(** Entries with the versions [v0], [v0 + 1], ... *)
Definition versions_from (v0 : N) (es : list Entry) : Prop :=
  ∀ i e, es !! i = Some e → entry_version e = v0 + N.of_nat i.

Lemma binary_search_spec fuel es v0 v lo size :
  versions_from v0 es → (N.to_nat size < fuel)%nat → lo + size ≤ len es →
  binary_search fuel es v lo size =
    if (v0 + lo <=? v) && (v <? v0 + lo + size) then Some (v - v0) else None.
Proof.
  intros Hv. revert lo size; induction fuel as [|fuel IH]; intros lo size Hf Hl; [lia|].
  cbn [binary_search]. destruct (N.eqb_spec size 0) as [->|Hne].
  { rewrite N.add_0_r. destruct (N.leb_spec (v0 + lo) v), (N.ltb_spec v (v0 + lo)); done || lia. }
  assert (size / 2 < size) as Hmid by (apply N.div_lt; lia). set (mid := size / 2) in *.
  destruct (es !! N.to_nat (lo + mid)) as [e|] eqn:He.
  2: { apply lookup_ge_None in He. unfold len in Hl. lia. }
  specialize (Hv _ _ He). rewrite N2Nat.id in Hv. rewrite Hv.
  destruct (N.eqb_spec (v0 + (lo + mid)) v) as [<-|Hd].
  { destruct (N.leb_spec (v0 + lo) (v0 + (lo + mid))), (N.ltb_spec (v0 + (lo + mid)) (v0 + lo + size));
      simpl; try lia. f_equal. lia. }
  destruct (N.ltb_spec (v0 + (lo + mid)) v); rewrite IH by lia;
    repeat match goal with |- context [?a <=? ?b] => destruct (N.leb_spec a b) end;
    repeat match goal with |- context [?a <? ?b] => destruct (N.ltb_spec a b) end; simpl; done || lia.
Qed.

(** ** The entries of a batch *)

Lemma index_entries_spec start rs :
  (index_entries start rs).1 = start + log_size rs ∧
  length (index_entries start rs).2 = length rs ∧
  ∀ i r, rs !! i = Some r → (index_entries start rs).2 !! i =
    Some {| entry_version := version r; entry_start := start + log_size (take i rs);
            entry_length := Rapid.frame_len r |}.
Proof.
  revert start; induction rs as [|r rs IH]; intros start; cbn [index_entries].
  - split_and!; [simpl; lia|done|done].
  - destruct (IH (start + Rapid.frame_len r)) as (Hs & Hl & Hi).
    destruct (index_entries (start + Rapid.frame_len r) rs) as [stop es]. cbn [fst snd] in *.
    split_and!.
    + rewrite Hs. cbn [log_size foldr]. fold (log_size rs). lia.
    + simpl. by f_equal.
    + intros [|i] x Hx; simpl in Hx.
      * injection Hx as ->. cbn [take]. simpl. by rewrite N.add_0_r.
      * cbn [take]. simpl. rewrite (Hi i x Hx). f_equal. f_equal. cbn [log_size foldr].
        fold (log_size (take i rs)). lia.
Qed.

(** Records with successive versions, by position. *)
Lemma consecutive_lookup prev rs i r :
  consecutive prev rs → rs !! i = Some r → ∃ r0, head rs = Some r0 ∧ version r = version r0 + N.of_nat i.
Proof.
  intros Hc Hi. destruct rs as [|r0 rs]; [done|]. exists r0. split; [done|].
  destruct Hc as (_ & _ & Hc). revert r0 i Hc Hi. induction rs as [|x rs IH]; intros r0 i Hc Hi.
  - destruct i; [injection Hi as ->; lia|done].
  - destruct i as [|i]; [injection Hi as ->; lia|]. destruct Hc as (_ & Hx & Hc).
    rewrite (IH x i Hc Hi). lia.
Qed.

(** ** Validation *)

Lemma entries_validate prev start rs :
  consecutive prev rs → Forall (λ r, len (state r) ≤ u32_max) rs → start + log_size rs ≤ u64_max →
  ∃ last, foldM entry_step (start, prev) (index_entries start rs).2 = Ok (start + log_size rs, last).
Proof.
  revert prev start; induction rs as [|r rs IH]; intros prev start Hc Hs Hm; cbn [index_entries].
  - exists prev. simpl. by rewrite N.add_0_r.
  - destruct Hc as (Hv & Hp & Hc). apply Forall_cons in Hs as [Hr Hs].
    cbn [log_size foldr] in Hm |- *. fold (log_size rs) in Hm |- *.
    destruct (IH (Some (version r)) (start + Rapid.frame_len r)) as [last Hf]; [done|done|lia|].
    destruct (index_entries (start + Rapid.frame_len r) rs) as [stop es]. cbn [fst snd] in *.
    exists last. cbn [foldM].
    assert (entry_step (start, prev) {| entry_version := version r; entry_start := start;
      entry_length := Rapid.frame_len r |} = Ok (start + Rapid.frame_len r, Some (version r))) as ->.
    { unfold entry_step. cbn [fst snd entry_start entry_length entry_version]. rewrite N.eqb_refl.
      rewrite (proj2 (N.leb_le HEADER _)) by (unfold Rapid.frame_len; lia).
      rewrite (proj2 (N.leb_le _ (HEADER + u32_max))) by (unfold Rapid.frame_len; lia).
      assert (match prev with
              | Some v => bool_decide (checked_add v 1 = Some (version r)) | None => true end = true) as ->.
      { destruct prev as [p|]; [|done]. apply bool_decide_eq_true. unfold checked_add.
        rewrite (proj2 (N.leb_le _ _)) by lia. f_equal. lia. }
      cbn [andb ensure mbind result_bind]. unfold checked_add.
      by rewrite (proj2 (N.leb_le _ _)) by lia. }
    cbn [mbind result_bind]. rewrite Hf. by rewrite N.add_assoc.
Qed.

(** The name of a batch announces its range. *)
Lemma batch_name_range pre a z :
  a ≤ u64_max → z ≤ u64_max →
  let name := pre ++ pad20 a ++ b"~" ++ pad20 z ++ b".batch" in
  (v ← strip_prefix pre name; strip_suffix (b".batch") v) = Some (pad20 a ++ b"~" ++ pad20 z) ∧
  split_once x7e (pad20 a ++ b"~" ++ pad20 z) = Some (pad20 a, pad20 z) ∧
  parse_u64 (pad20 a) = Some a ∧ parse_u64 (pad20 z) = Some z.
Proof.
  intros Ha Hz name. split_and!.
  - unfold name. rewrite strip_prefix_app. cbn [mbind option_bind].
    replace (pad20 a ++ b"~" ++ pad20 z ++ b".batch") with ((pad20 a ++ b"~" ++ pad20 z) ++ b".batch")
      by (by rewrite <- !app_assoc). apply strip_suffix_app.
  - apply split_once_app, pad20_no_tilde.
  - by apply parse_pad20.
  - by apply parse_pad20.
Qed.

Section indexes.
Context `{DigestLaws} `{Base64}.

Lemma index_validates rs pre a z :
  consecutive None rs → Forall (λ r, len (state r) ≤ u32_max) rs → rs ≠ [] →
  z = a + log_size rs → z ≤ u64_max →
  index_validate {| index_batch_key := pre ++ pad20 a ++ b"~" ++ pad20 z ++ b".batch";
                    index_records := (index_entries 0 rs).2 |} pre = Ok ().
Proof.
  intros Hc Hs Hne Hz Hm. destruct (batch_name_range pre a z) as (E1 & E2 & E3 & E4); [lia|done|].
  unfold index_validate. cbn [index_batch_key index_records]. rewrite E1. cbn [ctx mbind result_bind].
  rewrite E2. cbn [ctx mbind result_bind]. rewrite E4. cbn [ctx mbind result_bind].
  rewrite E3. cbn [ctx mbind result_bind]. unfold checked_sub.
  rewrite (proj2 (N.leb_le _ _)) by lia. cbn [ctx mbind result_bind].
  destruct (entries_validate None 0 rs) as [last Hf]; [done|done|lia|]. rewrite Hf. cbn [mbind result_bind].
  destruct (index_entries_spec 0 rs) as (_ & Hl & _).
  destruct (index_entries 0 rs).2 as [|e es]; [by destruct rs|].
  rewrite (proj2 (N.eqb_eq _ _)) by lia. done.
Qed.

(** ** Looking a record up *)

(** Walking back over the first [k] records of a batch. *)
Lemma extend_back_spec first limit stop rs k start :
  (k ≤ length rs)%nat → start = log_size (take k rs) → ∃ j, (j ≤ k)%nat ∧
    extend_back first limit stop start (reverse (take k (index_entries 0 rs).2)) = log_size (take j rs) ∧
    (∀ i r, (j ≤ i < k)%nat → rs !! i = Some r → first ≤ version r) ∧
    (j = k ∨ stop - log_size (take j rs) ≤ limit).
Proof.
  destruct (index_entries_spec 0 rs) as (_ & Hl & Hi).
  revert start; induction k as [|k IH]; intros start Hk ->.
  - exists 0%nat. split_and!; [lia|done|lia|by left].
  - destruct (rs !! k) as [r|] eqn:Hr; [|apply lookup_ge_None in Hr; lia].
    rewrite (take_S_r _ _ _ (Hi k r Hr)), reverse_snoc. cbn [extend_back entry_version entry_start].
    rewrite N.add_0_l. destruct (N.ltb_spec (version r) first) as [|Hv]; cbn [orb].
    { exists (S k). split_and!; [lia|done|lia|by left]. }
    destruct (N.ltb_spec limit (stop - log_size (take k rs))) as [|Hlim].
    { exists (S k). split_and!; [lia|done|lia|by left]. }
    destruct (IH (log_size (take k rs))) as (j & Hj & He & Hf & Hor); [lia|done|].
    exists j. split_and!; [lia|done| |].
    + intros i x Hix Hx. destruct (decide (i = k)) as [->|]; [congruence|]. apply (Hf i); [lia|done].
    + right. destruct Hor as [->|]; done.
Qed.

(** The index of a batch leads to every record in it. Beside a batch of whole
    records, stored under its own name, the index that is written passes the
    reader's validation, and looking up the version of any of its records yields a
    range that ends with that record's frame and holds only whole records, all at
    least as new as requested, within the size limit unless it is that one record. *)
Theorem index_locates (m : Manifest) (stem key bs : bytes) (rs : list LogRecord)
    (start first limit : N) (i : nat) (r : LogRecord) :
  segment_stem m = Ok stem → batch_key m start (start + len bs) = Ok key → start + len bs ≤ u64_max →
  Frame.decode bs = Ok rs → len bs = log_size rs → rs !! i = Some r →
  let index := {| index_batch_key := key; index_records := (index_entries 0 rs).2 |} in
  index_validate index (stem ++ b"~") = Ok () ∧
  ∃ j from n, index_range index first (version r) limit = Ok (from, n) ∧ (j ≤ i)%nat ∧
    sliceN from (from + n) bs = log_bytes_of (drop j (take (S i) rs)) ∧
    (∀ k x, (j ≤ k < i)%nat → rs !! k = Some x → first ≤ version x) ∧ (j = i ∨ n ≤ limit).
Proof.
  intros Hstem Hkey Hm Hd Hlen Hi index. unfold batch_key in Hkey. rewrite Hstem in Hkey.
  cbn [mbind result_bind] in Hkey. injection Hkey as Hkey. destruct (decode_loop_canonical _ _ _ _ Hd) as (Hc & tail & Hbs & _).
  fold (log_bytes_of rs) in Hbs. assert (tail = []) as ->.
  { rewrite Hbs, len_app, log_bytes_size in Hlen. destruct tail; [done|]. rewrite len_cons in Hlen. lia. }
  rewrite app_nil_r in Hbs. split.
  { assert (key = (stem ++ b"~") ++ pad20 start ++ b"~" ++ pad20 (start + len bs) ++ b".batch") as Ek
      by (by rewrite <- Hkey, <- app_assoc).
    unfold index. rewrite Ek.
    apply index_validates; [done|by eapply decode_loop_small|by intros ->|lia|done]. }
  destruct (consecutive_lookup _ _ _ _ Hc Hi) as (r0 & Hhead & Hv).
  destruct (index_entries_spec 0 rs) as (_ & Hl & He).
  assert (i < length rs)%nat as Hil by (by eapply lookup_lt_Some).
  unfold index_range, index. cbn [index_records].
  rewrite (binary_search_spec _ _ (version r0)); [| |unfold len; lia|unfold len; lia].
  2: { intros k e Hk. assert (k < length rs)%nat as Hkl by (rewrite <- Hl; by eapply lookup_lt_Some).
       destruct (lookup_lt_is_Some_2 rs k Hkl) as [x Hx]. rewrite (He k x Hx) in Hk. injection Hk as <-.
       simpl. destruct (consecutive_lookup _ _ _ _ Hc Hx) as (r1 & Hh1 & ->). congruence. }
  rewrite (proj2 (N.leb_le _ _)) by lia.
  rewrite (proj2 (N.ltb_lt (version r) _)) by (unfold len; rewrite Hl; lia). cbn [andb ctx mbind result_bind].
  replace (version r - version r0) with (N.of_nat i) by lia. rewrite Nat2N.id, (He i r Hi).
  cbn [ctx mbind result_bind entry_start entry_length]. unfold takeN. rewrite Nat2N.id, N.add_0_l.
  destruct (extend_back_spec first limit (log_size (take i rs) + Rapid.frame_len r) rs i
              (log_size (take i rs))) as (j & Hj & Heq & Hf & Hor); [lia|done|].
  rewrite Heq. eexists j, _, _. split_and!; [done|done| |done|].
  - assert (log_size (take i rs) + Rapid.frame_len r = log_size (take (S i) rs)) as ->.
    { rewrite (take_S_r _ _ _ Hi), log_size_app. f_equal. symmetry. apply N.add_0_r. }
    assert (take (S i) rs = take j rs ++ drop j (take (S i) rs)) as Hcut.
    { rewrite <- (take_drop j (take (S i) rs)) at 1. f_equal. rewrite take_take. f_equal. lia. }
    set (run := drop j (take (S i) rs)) in *.
    assert (log_bytes_of rs = log_bytes_of (take j rs) ++ log_bytes_of run ++ log_bytes_of (drop (S i) rs)) as Hrs.
    { rewrite <- !log_bytes_app, app_assoc, <- Hcut. by rewrite take_drop. }
    rewrite Hcut, log_size_app, Hbs, Hrs. apply sliceN_app; rewrite !log_bytes_size; [done|]. lia.
  - destruct Hor as [->|]; [by left|by right].
Qed.
End indexes.

(** ** Witness *)

Import Stand_ins.

Definition demo_index_manifest : Manifest :=
  {| format := 1; manifest_id := b"id";
     manifest_stream := {| session := b"s"; prefix := b"durable-actors/v3/snapshots/0/p/n/i/e/";
                           stream_owner_epoch := 1; base_version := 3 |};
     first_version := 4; replicas := [] |}.

Definition demo_batch : bytes := concat demo_frames.

(** The second record of a batch of two, with room for one. *)
Lemma index_locates_witness :
  let index := {| index_batch_key := default [] (ok (batch_key demo_index_manifest 7 (7 + len demo_batch)));
                  index_records := (index_entries 0 demo_records).2 |} in
  index_validate index (default [] (ok (segment_stem demo_index_manifest)) ++ b"~") = Ok () ∧
  ∃ j from n, index_range index 4 5 60 = Ok (from, n) ∧ (j ≤ 1)%nat ∧
    sliceN from (from + n) demo_batch = log_bytes_of (drop j (take 2 demo_records)) ∧
    (∀ k x, (j ≤ k < 1)%nat → demo_records !! k = Some x → 4 ≤ version x) ∧ (j = 1%nat ∨ n ≤ 60).
Proof.
  apply (index_locates demo_index_manifest (default [] (ok (segment_stem demo_index_manifest)))
    (default [] (ok (batch_key demo_index_manifest 7 (7 + len demo_batch)))) demo_batch demo_records 7 4 60 1
    {| version := 5; state := b"two" |}); vm_compute; first [reflexivity | discriminate].
Defined.
