(* ===== verification/RapidArchiver.v ===== *)
(** * The archive worker

    The queue and the worker of [src/src/bucket/rapid/archive.rs]: acknowledged
    frames are uploaded to the archive in batches while the writer goes on
    appending. The queue keeps a bounded run of frames in memory; what it cannot
    keep is read back from the log zones. *)

From S2P Require Import Prelude Text Demo Names Payload Frame StateLog Effects Btree Concurrency Buckets Rapid Recovery RapidLog RapidSegment.
Local Open Scope N_scope.

(** ** The queue *)

Record Pending := {
  pending_end : N;
  pending_version : N;
  since : option N;
  cache_start : N;
  cache : list bytes;
  cache_bytes : N;
  pending_closed : bool;
}.

Definition pending_new (v : N) : Pending :=
  {| pending_end := 0; pending_version := v; since := None; cache_start := 0; cache := [];
     cache_bytes := 0; pending_closed := false |}.

(** [get_or_insert_with(Instant::now)] *)
Definition since_or (now : N) (s : option N) : option N := Some (default now s).

(** [Archiver::append]: the frame is kept in memory while the cache reaches to the
    end of the log and is below its limit. *)
Definition pending_append (limit : N) (frame : bytes) (v now : N) (p : Pending) : Pending :=
  let keep := (cache_start p + cache_bytes p =? pending_end p) && (cache_bytes p <? limit) in
  {| pending_end := pending_end p + len frame;
     pending_version := v;
     since := since_or now (since p);
     cache_start := cache_start p;
     cache := if keep then cache p ++ [frame] else cache p;
     cache_bytes := if keep then cache_bytes p + len frame else cache_bytes p;
     pending_closed := pending_closed p |}.

Definition pending_close (p : Pending) : Pending :=
  {| pending_end := pending_end p; pending_version := pending_version p; since := since p;
     cache_start := cache_start p; cache := cache p; cache_bytes := cache_bytes p;
     pending_closed := true |}.

(** [take_cache]: the frames kept from [through] on. *)
Definition take_cache (through : N) (p : Pending) : option (list bytes) * Pending :=
  if (cache_start p != through) || (cache_bytes p =? 0) then (None, p)
  else
    let start := cache_start p + cache_bytes p in
    (Some (cache p),
     {| pending_end := pending_end p; pending_version := pending_version p;
        since := if start =? pending_end p then None else since p;
        cache_start := start; cache := []; cache_bytes := 0;
        pending_closed := pending_closed p |}).

(** After an upload up to [through]. *)
Definition pending_uploaded (through now : N) (p : Pending) : Pending :=
  {| pending_end := pending_end p; pending_version := pending_version p;
     since := if through =? pending_end p then None else since_or now (since p);
     cache_start := match cache p with [] => through | _ => cache_start p end;
     cache := cache p; cache_bytes := cache_bytes p;
     pending_closed := pending_closed p |}.

(** The queues of a process, by the segment they belong to. *)
Class HasPending (L : Type) := {
  pending : bytes → L → Pending;
  set_pending : bytes → Pending → L → L;
}.

Definition update_pending {L} `{!HasPending L} {X} (id : bytes) (f : Pending → X * Pending) (l : L) : X * L :=
  let '(x, p) := f (pending id l) in (x, set_pending id p l).

(** ** The worker *)

(** What the worker knows at the head of its loop. *)
Record worker := {
  through : N;
  closed_published : bool;
  retry : bool;
}.

Section worker.
Context `{JsonValue} `{!Json (Envelope StateSnapshot), !Json StateSnapshot, !Json LegacySnapshot}.
Context `{Digest} `{Base64} `{!Json ClosedSegment, !Json Index}.
Context {L : Type} `{!HasPending L} (st : LogStorage).

(** Is a batch due? *)
Definition batch_due (p : Pending) (s : worker) (now : N) : bool :=
  (through s <? pending_end p) &&
  (pending_closed p || retry s || (batch_bytes (batch st) <=? pending_end p - through s)
   || match since p with Some at_ => at_ + interval_ms (batch st) <=? now | None => false end).

(** The upload of one batch; a failed one is retried, from the log zones. *)
Definition upload_turn (m : Manifest) (p : Pending) (s : worker) : prog L worker :=
  frames ← atomic (update_pending (manifest_id m) (take_cache (through s)));
  cached ← lift (match frames with
                 | Some fs => bs ← spool_all fs; Ok (Some bs)
                 | None => Ok None
                 end);
  r ← attempt (upload st m (through s) (pending_end p) cached);
  match r with
  | Ok next =>
      now ← instant;
      atomic (update_pending (manifest_id m) (λ p, ((), pending_uploaded next now p)));;
      mret {| through := next; closed_published := closed_published s; retry := false |}
  | Err _ => mret {| through := through s; closed_published := closed_published s; retry := true |}
  end.

(** One turn of [run]: [None] when the worker returns. Waiting for a wake-up or for
    the next deadline is a turn that changes nothing. *)
Definition archive_turn (m : Manifest) (s : worker) : prog L (option worker) :=
  p ← atomic (λ l, (pending (manifest_id m) l, l));
  let closed := {| last_version := pending_version p; end_offset := pending_end p |} in
  published ← (if pending_closed p && negb (closed_published s)
               then close_segment m closed;; mret true
               else mret (closed_published s));
  let s := {| through := through s; closed_published := published; retry := retry s |} in
  if (through s =? pending_end p) && pending_closed p then
    mark_replicated m closed;;
    attempt (cleanup_segment st m);;
    mret None
  else
    now ← instant;
    if batch_due p s now then s ← upload_turn m p s; mret (Some s) else mret (Some s).

Definition worker_start : worker := {| through := 0; closed_published := false; retry := false |}.

(** ** Handles *)

Record Archiver := {
  arch_manifest : Manifest;
  (** The rest of the worker's current turn. *)
  arch_task : prog L (option worker);
  arch_batch_bytes : N;
}.

Definition archiver_new (m : Manifest) (v : N) : prog L Archiver :=
  atomic (λ l, ((), set_pending (manifest_id m) (pending_new v) l));;
  mret {| arch_manifest := m; arch_task := archive_turn m worker_start;
          arch_batch_bytes := N.min (batch_bytes (batch st)) (1024 * 1024) |}.

Definition archiver_append (a : Archiver) (frame : bytes) (v : N) : prog L unit :=
  now ← instant;
  atomic (update_pending (manifest_id (arch_manifest a))
    (λ p, ((), pending_append (arch_batch_bytes a) frame v now p))).

Definition archiver_close (a : Archiver) : prog L unit :=
  atomic (update_pending (manifest_id (arch_manifest a)) (λ p, ((), pending_close p))).

Definition archiver_is_finished (a : Archiver) : bool :=
  match arch_task a with
  | Done (Ok (Some _)) | Op _ _ => false
  | Done _ => true
  end.

(** The worker runs to its end; the turns it may take within the time limit are
    bounded. *)
Fixpoint archive_await (turns : nat) (m : Manifest) (task : prog L (option worker)) : prog L unit :=
  s ← task;
  match s with
  | None => mret ()
  | Some s =>
      match turns with
      | O => lift (Err "log operation timed out")
      | S turns => archive_await turns m (archive_turn m s)
      end
  end.

Definition archiver_finish (turns : nat) (a : Archiver) : prog L unit :=
  archiver_close a;;
  bounded (archive_await turns (arch_manifest a) (arch_task a)).

(** The worker runs on for as long as the scheduler lets it. *)
Fixpoint archive_run (turns : nat) (m : Manifest) (task : prog L (option worker))
    : prog L (prog L (option worker)) :=
  task ← poll task;
  match turns, task with
  | S turns, Done (Ok (Some s)) => archive_run turns m (archive_turn m s)
  | _, _ => mret task
  end.

Definition archiver_run (turns : nat) (a : Archiver) : prog L Archiver :=
  task ← archive_run turns (arch_manifest a) (arch_task a);
  mret {| arch_manifest := arch_manifest a; arch_task := task; arch_batch_bytes := arch_batch_bytes a |}.

End worker.
Arguments Archiver : clear implicits.

(** ** The queue holds the log

    The writer appends to the queue while the worker takes frames out of it, in any
    order; what the worker gets is the log. *)

(** A queue and the frames acknowledged so far, after any sequence of critical
    sections of the writer and of the worker. The worker never reports more than
    has been appended. *)
Inductive queue (limit : N) : list bytes → Pending → Prop :=
| queue_new v : queue limit [] (pending_new v)
| queue_append fs p frame v now :
    queue limit fs p → queue limit (fs ++ [frame]) (pending_append limit frame v now p)
| queue_close fs p : queue limit fs p → queue limit fs (pending_close p)
| queue_take fs p t : queue limit fs p → queue limit fs (take_cache t p).2
| queue_uploaded fs p t now :
    t ≤ len (concat fs) → queue limit fs p → queue limit fs (pending_uploaded t now p).

(** The cached frames are a run of the log, and the cache stays below its limit
    and one frame. *)
Definition queue_inv (limit : N) (fs : list bytes) (p : Pending) : Prop :=
  pending_end p = len (concat fs) ∧ cache_bytes p = len (concat (cache p)) ∧
  (∃ pre post, concat fs = pre ++ concat (cache p) ++ post ∧ len pre = cache_start p) ∧
  (∀ most, Forall (λ f, len f ≤ most) fs → cache_bytes p ≤ limit + most).

Lemma concat_snoc {A} (ls : list (list A)) l : concat (ls ++ [l]) = concat ls ++ l.
Proof. rewrite concat_app. simpl. by rewrite app_nil_r. Qed.

Lemma queue_append_inv limit fs p frame v now :
  queue_inv limit fs p → queue_inv limit (fs ++ [frame]) (pending_append limit frame v now p).
Proof.
  intros (He & Hb & (pre & post & Hc & Hs) & Hm). unfold pending_append, queue_inv.
  cbn [pending_end cache_bytes cache cache_start]. rewrite concat_snoc, len_app, He.
  destruct (_ && _) eqn:Hk; (split; [done|]).
  - apply andb_true_iff in Hk as [Hend%N.eqb_eq Hlt%N.ltb_lt]. split_and!.
    + by rewrite concat_snoc, len_app, Hb.
    + exists pre, []. split; [|done]. assert (post = []) as ->.
      { rewrite Hc, !len_app, Hs, <- Hb in Hend. destruct post; [done|]. rewrite len_cons in Hend. lia. }
      by rewrite Hc, concat_snoc, !app_nil_r, app_assoc.
    + intros most [_ [Hf _]%Forall_cons]%Forall_app. lia.
  - split_and!; [done| |].
    + exists pre, (post ++ frame). split; [|done]. rewrite Hc. by rewrite <- !app_assoc.
    + intros most [Hf _]%Forall_app. auto.
Qed.

Lemma queue_take_inv limit fs p t : queue_inv limit fs p → queue_inv limit fs (take_cache t p).2.
Proof.
  intros (He & Hb & (pre & post & Hc & Hs) & Hm). unfold take_cache.
  destruct (_ || _); [by split_and!; eauto|]. unfold queue_inv.
  cbn [snd pending_end cache_bytes cache cache_start concat]. split_and!; [done|done| |lia].
  exists (pre ++ concat (cache p)), post. rewrite len_app, Hs, Hb. by rewrite Hc, <- app_assoc.
Qed.

Lemma queue_uploaded_inv limit fs p t now :
  t ≤ len (concat fs) → queue_inv limit fs p → queue_inv limit fs (pending_uploaded t now p).
Proof.
  intros Ht (He & Hb & (pre & post & Hc & Hs) & Hm). unfold pending_uploaded, queue_inv.
  cbn [pending_end cache_bytes cache cache_start]. split_and!; [done..| |done].
  destruct (cache p) as [|f c]; [|by exists pre, post].
  exists (takeN t (concat fs)), (dropN t (concat fs)). cbn [concat app].
  rewrite takeN_dropN, len_takeN. split; [done|]. lia.
Qed.

Lemma queue_invariant limit fs p : queue limit fs p → queue_inv limit fs p.
Proof.
  induction 1 as [v|fs p frame v now _ IH|fs p _ IH|fs p t _ IH|fs p t now Ht _ IH].
  - split_and!; [done|done|by exists [], []|]. simpl. lia.
  - by apply queue_append_inv.
  - exact IH.
  - by apply queue_take_inv.
  - by apply queue_uploaded_inv.
Qed.

(** Whatever the interleaving of writer and worker, the frames the worker takes
    for an upload from [t] are the log's own bytes from [t] on, at least one byte
    and none beyond the end of the log, and the memory the queue holds never
    exceeds its limit by more than one frame. *)
Theorem queue_serves_log (limit t : N) (fs taken : list bytes) (p p' : Pending) :
  queue limit fs p → take_cache t p = (Some taken, p') →
  concat taken = sliceN t (t + len (concat taken)) (concat fs) ∧
  0 < len (concat taken) ∧ t + len (concat taken) ≤ len (concat fs) ∧
  ∀ most, Forall (λ f, len f ≤ most) fs → len (concat taken) ≤ limit + most.
Proof.
  intros (He & Hb & (pre & post & Hc & Hs) & Hm)%queue_invariant Ht. unfold take_cache in Ht.
  destruct (_ || _) eqn:Hk; [done|]. injection Ht as <- _.
  apply orb_false_iff in Hk as [Hne Hz%N.eqb_neq].
  assert (cache_start p = t) as Hst by (by destruct (decide (cache_start p = t)); [|rewrite bool_decide_false in Hne]).
  split_and!.
  - rewrite Hc, <- Hst, <- Hs. symmetry. by apply sliceN_app.
  - lia.
  - rewrite Hc, !len_app. lia.
  - intros most Hf. rewrite <- Hb. auto.
Qed.

(** ** Witness *)

Definition demo_queue : Pending :=
  pending_append 10 (b"second") 2 7 (pending_append 10 (b"first") 1 5 (pending_new 0)).

Lemma queue_serves_log_witness :
  concat [b"first"; b"second"] = sliceN 0 (0 + len (concat [b"first"; b"second"])) (concat [b"first"; b"second"]) ∧
  0 < len (concat [b"first"; b"second"]) ∧
  0 + len (concat [b"first"; b"second"]) ≤ len (concat [b"first"; b"second"]) ∧
  ∀ most, Forall (λ f, len f ≤ most) [b"first"; b"second"] → len (concat [b"first"; b"second"]) ≤ 10 + most.
Proof.
  apply (queue_serves_log 10 0 [b"first"; b"second"] [b"first"; b"second"] demo_queue
           (take_cache 0 demo_queue).2).
  - apply (queue_append 10 [b"first"]), (queue_append 10 []), queue_new.
  - vm_compute. reflexivity.
Defined.
