(* ===== verification/RapidSession.v ===== *)
(** * Log sessions

    [src/src/bucket/rapid/writer.rs] and the checkpoint schedule of
    [src/src/bucket/rapid/checkpoint.rs]: the writer of one activation. It appends
    commits to the current segment, or puts them into the archive when no zone
    could be opened, rotates segments, schedules checkpoints, and drains everything
    when the activation ends. The session is behind a mutex, so its calls run one
    after the other; the tasks it has spawned go on between them. At the end, the
    snapshot store of [src/src/bucket/rapid.rs] that reads and writes through it. *)

From S2P Require Import Prelude Text Demo Names Payload Frame StateLog Effects Btree Concurrency Buckets Rapid Recovery RapidLog RapidSegment RapidArchiver.
Local Open Scope N_scope.

(** ** Checkpoint schedule *)

Definition MIN_LOG_BYTES : N := 1024 * 1024.
Definition MAX_LOG_VERSIONS : N := 256.

Record Progress (L : Type) := {
  completed : N;
  progress_base : N;
  logged : list (N * N);
  cp_task : option (N * prog L (option N));
  retry_at : option N;
}.
Arguments completed {L}. Arguments progress_base {L}. Arguments logged {L}. Arguments cp_task {L}.
Arguments retry_at {L}. Arguments Build_Progress {L}.

Section progress.
Context {L : Type}.
Implicit Types p : Progress L.

Definition progress_default : Progress L :=
  {| completed := 0; progress_base := 0; logged := []; cp_task := None; retry_at := None |}.

Definition progress_restored (r : ResolvedSqlite) (v : N) p : Progress L :=
  let done := N.max (completed p) (checkpoint_version r) in
  {| completed := done; progress_base := base_bytes r;
     logged := if done <? v then logged p ++ [(v, log_bytes r)] else logged p;
     cp_task := cp_task p; retry_at := retry_at p |}.

Definition progress_logged (v n : N) p : Progress L :=
  {| completed := completed p; progress_base := progress_base p; logged := logged p ++ [(v, n)];
     cp_task := cp_task p; retry_at := retry_at p |}.

Definition due (v : N) p : bool :=
  let n := foldr (λ x n, snd x + n) 0 (logged p) in
  (MAX_LOG_VERSIONS <=? v - completed p)
  || ((completed p <? v) && (N.max (progress_base p) MIN_LOG_BYTES <=? n)).

(** The versions at the front that a checkpoint of [v] covers. *)
Fixpoint drop_logged (v : N) (l : list (N * N)) : list (N * N) :=
  match l with
  | (u, n) :: l' => if u <=? v then drop_logged v l' else l
  | [] => []
  end.

Definition progress_completed (v : N) (bytes : option N) p : Progress L :=
  if v <=? completed p then p
  else {| completed := v; progress_base := default (progress_base p) bytes; logged := drop_logged v (logged p);
          cp_task := cp_task p; retry_at := retry_at p |}.

Definition with_task (t : option (N * prog L (option N))) p : Progress L :=
  {| completed := completed p; progress_base := progress_base p; logged := logged p; cp_task := t;
     retry_at := retry_at p |}.

Definition with_retry (at_ : option N) p : Progress L :=
  {| completed := completed p; progress_base := progress_base p; logged := logged p; cp_task := cp_task p;
     retry_at := at_ |}.

Definition collect p : prog L (Progress L) :=
  match cp_task p with
  | Some (v, Done (Ok bytes)) =>
      mret (with_retry None (progress_completed v bytes (with_task None p)))
  | Some (v, Done (Err _)) =>
      now ← instant;
      mret (with_retry (Some (now + 5000)) (with_task None p))
  | _ => mret p
  end.

Context `{JsonValue} `{!Json (Envelope StateSnapshot), !Json StateSnapshot, !Json LegacySnapshot}.
Context `{!Json (Envelope Checkpoint), !Json Checkpoint} `{Digest} `{Base64} `{UuidParse}.
Context `{!Json Manifest, !Json ClosedSegment, !Json Index} `{!HasLive L} (st : LogStorage).

Definition progress_start (obj bs : bytes) (v : N) p : Progress L :=
  with_task (Some (v, deadline "checkpoint timed out" (write_checkpoint st obj bs))) p.

Definition schedule (latest : option (bytes * bytes)) (v : N) p : prog L (Progress L) :=
  p ← collect p;
  if bool_decide (is_Some (cp_task p)) || negb (due v p) then mret p
  else
    now ← instant;
    if match retry_at p with Some at_ => now <? at_ | None => false end then mret p
    else mret (match latest with Some (obj, bs) => progress_start obj bs v p | None => p end).

(** [Progress::finish]: a task for an older version is aborted, and the one for
    this version is awaited up to the deadline. *)
Definition progress_finish (obj bs : bytes) (v : N) p : prog L (Progress L) :=
  p ← collect p;
  if v <=? completed p then mret p
  else
    let p := match cp_task p with
             | Some (running, _) => if running != v then with_task None p else p
             | None => p
             end in
    let p := match cp_task p with Some _ => p | None => progress_start obj bs v p end in
    match cp_task p with
    | None => mret p
    | Some (v, task) =>
        r ← attempt (deadline "deadline has elapsed" task);
        mret (match r with
              | Ok bytes => progress_completed v bytes (with_task None p)
              | Err _ => with_task None p
              end)
    end.
End progress.

(** ** Sessions *)

Definition ROTATION_INTERVAL : N := 60000.

Section session.
Context `{JsonValue} `{!Json (Envelope StateSnapshot), !Json StateSnapshot, !Json LegacySnapshot}.
Context `{!Json (Envelope Checkpoint), !Json Checkpoint} `{Digest} `{Base64} `{UuidParse}.
Context `{!Json Manifest, !Json ClosedSegment, !Json Index}.
Context {L : Type} `{!HasLive L} `{!HasPrepared L} `{!HasPending L}.
Context (st : LogStorage).
(** How many turns an archive worker may take within one time limit. *)
Context (turns : nat).

(** A segment being opened: the rest of the task. *)
Abbreviation Preparing := (prog L (option Segment)).

Record Session := {
  stream : StateStream;
  segment : option Segment;
  preparing : option Preparing;
  next : option Preparing;
  archive : option (Archiver L);
  retired : option (Archiver L);
  retirement_error : option string;
  latest : option (bytes * bytes);
  session_version : N;
  installed_at : N;
  standard : bool;
  healthy : bool;
  rotated : N;
  checkpoint : Progress L;
}.

(** *** Field updates *)

Definition with_segment (x : option Segment) (s : Session) : Session :=
  {| stream := stream s; segment := x; preparing := preparing s; next := next s;
     archive := archive s; retired := retired s; retirement_error := retirement_error s;
     latest := latest s; session_version := session_version s; installed_at := installed_at s;
     standard := standard s; healthy := healthy s; rotated := rotated s; checkpoint := checkpoint s |}.

Definition with_preparing (x n : option Preparing) (s : Session) : Session :=
  {| stream := stream s; segment := segment s; preparing := x; next := n;
     archive := archive s; retired := retired s; retirement_error := retirement_error s;
     latest := latest s; session_version := session_version s; installed_at := installed_at s;
     standard := standard s; healthy := healthy s; rotated := rotated s; checkpoint := checkpoint s |}.

Definition with_archivers (a r : option (Archiver L)) (e : option string) (s : Session) : Session :=
  {| stream := stream s; segment := segment s; preparing := preparing s; next := next s;
     archive := a; retired := r; retirement_error := e;
     latest := latest s; session_version := session_version s; installed_at := installed_at s;
     standard := standard s; healthy := healthy s; rotated := rotated s; checkpoint := checkpoint s |}.

Definition with_health (h : bool) (s : Session) : Session :=
  {| stream := stream s; segment := segment s; preparing := preparing s; next := next s;
     archive := archive s; retired := retired s; retirement_error := retirement_error s;
     latest := latest s; session_version := session_version s; installed_at := installed_at s;
     standard := standard s; healthy := h; rotated := rotated s; checkpoint := checkpoint s |}.

Definition with_latest (x : option (bytes * bytes)) (v : N) (p : Progress L) (s : Session) : Session :=
  {| stream := stream s; segment := segment s; preparing := preparing s; next := next s;
     archive := archive s; retired := retired s; retirement_error := retirement_error s;
     latest := x; session_version := v; installed_at := installed_at s;
     standard := standard s; healthy := healthy s; rotated := rotated s; checkpoint := p |}.

Definition with_rotated (t : N) (s : Session) : Session :=
  {| stream := stream s; segment := segment s; preparing := preparing s; next := next s;
     archive := archive s; retired := retired s; retirement_error := retirement_error s;
     latest := latest s; session_version := session_version s; installed_at := installed_at s;
     standard := standard s; healthy := healthy s; rotated := t; checkpoint := checkpoint s |}.

(** *** Operations *)

Definition session_open (s : StateStream) : prog L Session :=
  first ← lift (ctx (checked_add (base_version s) 1) "state version overflow");
  now ← instant;
  mret {| stream := s; segment := None; preparing := Some (segment_open st s first None); next := None;
          archive := None; retired := None; retirement_error := None; latest := None;
          session_version := base_version s; installed_at := base_version s; standard := false;
          healthy := true; rotated := now; checkpoint := progress_default |}.

Definition cached (s : Session) (obj : bytes) : option bytes :=
  match latest s with
  | Some (key, bs) => if bool_decide (key = obj) then Some bs else None
  | None => None
  end.

Definition install (x : option Segment) (s : Session) : prog L Session :=
  a ← match x with
      | Some seg => a ← archiver_new st (seg_manifest seg) (session_version s); mret (Some a)
      | None => mret None
      end;
  mret {| stream := stream s; segment := x; preparing := preparing s; next := next s;
          archive := a; retired := retired s; retirement_error := retirement_error s;
          latest := latest s; session_version := session_version s; installed_at := session_version s;
          standard := match x with Some _ => false | None => true end;
          healthy := healthy s; rotated := rotated s; checkpoint := checkpoint s |}.

(** The segment in preparation, if any, is awaited and becomes the current one. *)
Definition install_prepared : stateful L Session unit :=
  s ← get_state;
  match preparing s with
  | None => mret ()
  | Some task =>
      set_state (with_preparing None (next s) s);;
      seg ← call task;
      s ← get_state;
      s ← call (install seg s);
      set_state s
  end.

Definition retire_finished (s : Session) : prog L Session :=
  match retired s with
  | Some a =>
      if archiver_is_finished a then
        r ← attempt (archiver_finish st turns a);
        mret (with_archivers (archive s) None
                (match r with Ok _ => retirement_error s | Err e => Some e end) s)
      else mret s
  | None => mret s
  end.

Definition rotate (s : Session) : prog L Session :=
  s ← retire_finished s;
  now ← instant;
  if negb (healthy s) || standard s || bool_decide (is_Some (retired s))
     || (now - rotated s <? ROTATION_INTERVAL) || (session_version s =? installed_at s)
  then mret s
  else
    match checked_add (session_version s) 1 with
    | None => mret s
    | Some first =>
        let placed := fmap (M:=option) seg_zones (segment s) in
        let task := match next s with
                    | Some task => task
                    | None => segment_open st (stream s) first placed
                    end in
        task ← poll task;
        match task with
        | Op _ _ => mret (with_preparing (preparing s) (Some task) s)
        | Done r =>
            let s := with_preparing (preparing s) None s in
            s ← match r with
                | Ok (Some seg) =>
                    s ← match archive s with
                        | Some a => archiver_close a;; mret (with_archivers None (Some a) (retirement_error s) s)
                        | None => mret s
                        end;
                    install (Some seg) s
                | _ => mret s
                end;
            now ← instant;
            mret (with_rotated now s)
        end
    end.

(** The commit goes to the archive or to the current segment. *)
Definition write_commit (v : N) (obj bs : bytes) : stateful L Session unit :=
  install_prepared;;
  s ← get_state;
  if standard s then call (bounded (std_put obj bs))
  else
    seg ← check (ctx (segment s) "Rapid stream missing");
    '(seg, r) ← call (segment_append seg v bs);
    modify (with_segment (Some seg));;
    frame ← check r;
    call (atomic (λ l, ((), set_live (remember_live (seg_manifest seg) (seg_offset seg) v (len frame)
                                        (live l)) l)));;
    a ← check (ctx (archive s) "archive worker missing");
    call (archiver_append a frame v).

Definition session_put (obj bs : bytes) : stateful L Session unit :=
  s ← get_state;
  check (ensure (healthy s) "uncertain write requires activation recovery");;
  ref ← check (stream_snapshot (stream s) bs);
  check (ensure (object ref == obj) "snapshot belongs to another stream");;
  if bool_decide (cached s obj = Some bs) then mret ()
  else
    check (ensure (bool_decide (checked_add (session_version s) 1 = Some (ref_state_version ref)))
             "nonconsecutive state version");;
    s ← call (rotate s);
    set_state (with_health false s);;
    write_commit (ref_state_version ref) obj bs;;
    modify (λ s, with_health true
      (with_latest (Some (obj, bs)) (ref_state_version ref)
         (progress_logged (ref_state_version ref) (len bs) (checkpoint s)) s));;
    s ← get_state;
    p ← call (schedule st (latest s) (session_version s) (checkpoint s));
    set_state (with_latest (latest s) (session_version s) p s).

Definition session_restored (obj bs : bytes) (r : ResolvedSqlite) : stateful L Session unit :=
  q ← check (snapshot_decode bs);
  s ← get_state;
  if bool_decide (is_Some (latest s)) || (state_version q != base_version (stream s)) then mret ()
  else
    a ← check (actor_from_snapshot obj);
    b ← check (actor_from_snapshot (stream_object (stream s) (session_version s)));
    if a != b then mret ()
    else
      let p := progress_restored r (session_version s) (checkpoint s) in
      let s := with_latest (Some (obj, bs)) (session_version s) p s in
      set_state s;;
      p ← call (schedule st (latest s) (session_version s) (checkpoint s));
      set_state (with_latest (latest s) (session_version s) p s).

(** A replacement stream that was prepared but not installed has a manifest already
    and is closed empty. *)
Definition retire_next : stateful L Session unit :=
  s ← get_state;
  match next s with
  | None => mret ()
  | Some task =>
      set_state (with_preparing (preparing s) None s);;
      seg ← call task;
      match seg with
      | Some seg =>
          a ← call (archiver_new st (seg_manifest seg) (session_version s));
          call (archiver_finish st turns a)
      | None => mret ()
      end
  end.

Definition finish_archivers : stateful L Session unit :=
  s ← get_state;
  match archive s with
  | Some a =>
      set_state (with_archivers None (retired s) (retirement_error s) s);;
      call (archiver_finish st turns a)
  | None => mret ()
  end;;
  s ← get_state;
  match retired s with
  | Some a =>
      set_state (with_archivers (archive s) None (retirement_error s) s);;
      call (archiver_finish st turns a)
  | None => mret ()
  end.

Definition finish_archive : stateful L Session unit :=
  install_prepared;;
  retire_next;;
  finish_archivers;;
  s ← get_state;
  check (ensure (match retirement_error s with None => true | Some _ => false end)
           "previous archive retirement failed");;
  match latest s with
  | Some (obj, bs) => call (bounded (std_put obj bs))
  | None => mret ()
  end.

(** The tasks an interrupted drain has not finished are dropped with it. *)
Definition interrupted (s : Session) : Session :=
  with_archivers None None (retirement_error s) (with_preparing None None s).

Definition session_finish : stateful L Session unit :=
  s ← get_state;
  check (ensure (healthy s) "uncertain write cannot be sealed");;
  set_state (with_health false s);;
  drained ← (λ s, r ← attempt (deadline "archive drain timed out" (finish_archive s));
                  mret (match r with Ok x => x | Err e => (interrupted s, Err e) end));
  s ← get_state;
  match latest s with
  | Some (obj, bs) =>
      p ← call (progress_finish st obj bs (session_version s) (checkpoint s));
      modify (with_latest (latest s) (session_version s) p)
  | None => mret ()
  end;;
  modify (λ s, with_health true (with_segment None s)).

(** One round of [start_rotation]. *)
Definition rotation_turn (s : Session) : prog L Session :=
  s ← rotate s;
  if healthy s then
    p ← schedule st (latest s) (session_version s) (checkpoint s);
    mret (with_latest (latest s) (session_version s) p s)
  else mret s.

(** *** Background tasks *)

Definition poll_opt {A} (t : option (prog L A)) : prog L (option (prog L A)) :=
  match t with Some t => t ← poll t; mret (Some t) | None => mret None end.

Definition archiver_run_opt (a : option (Archiver L)) : prog L (option (Archiver L)) :=
  match a with Some a => a ← archiver_run st turns a; mret (Some a) | None => mret None end.

(** Every task of the session runs on for a while. *)
Definition run_tasks (s : Session) : prog L Session :=
  p ← poll_opt (preparing s);
  n ← poll_opt (next s);
  a ← archiver_run_opt (archive s);
  r ← archiver_run_opt (retired s);
  c ← match cp_task (checkpoint s) with
      | Some (v, t) => t ← poll t; mret (Some (v, t))
      | None => mret None
      end;
  mret (with_latest (latest s) (session_version s) (with_task c (checkpoint s))
          (with_archivers a r (retirement_error s) (with_preparing p n s))).
End session.

(** ** The log-backed snapshot store ([RapidSnapshots], [src/src/bucket/rapid.rs])

    The [SnapshotStore] of a deployment with append logs: reads try the session's
    last commit, the live records, the archived copies, the indexes and at last
    every segment; writes go through the session; recovery fences and archives
    every segment of the previous owners. The optional session is the state behind
    the mutex. *)

Section store.
Context `{JsonValue} `{!Json (Envelope StateSnapshot), !Json StateSnapshot, !Json LegacySnapshot}.
Context `{!Json (Envelope Checkpoint), !Json Checkpoint} `{Digest} `{Base64} `{UuidParse}.
Context `{!Json Manifest, !Json ClosedSegment, !Json Index}.
Context {L : Type} `{!HasLive L} `{!HasPrepared L} `{!HasPending L}.
Context (st : LogStorage) (turns : nat).

(** [RapidSnapshots::new] accepts one or two zones, of different buckets. *)
Definition rapid_new (representable : N → bool) (zs : list bytes) (placement : RapidPlacement)
    (b : ArchiveBatchConfig) : result LogStorage :=
  ensure (match zs with [_] => true | [a; b] => a != b | _ => false end)
    "one or two independent log replicas required";;
  batch_validate representable b;;
  Ok {| zones := zs; log_placement := placement; batch := b |}.

(** [RapidSnapshots::prepare] *)
Definition rapid_prepare (actor : ActorKey) : prog L unit :=
  pre ← lift (logs_prefix actor);
  p ← prepared_new pre (zones st) (log_placement st);
  atomic (λ l, ((), set_prepared (Some p) l)).

(** One round of [start_cleanup]. *)
Definition cleanup_turn (pre : bytes) : prog L unit :=
  attempt (sweep st pre);; mret ().

Definition rapid_get (session : option (Session (L:=L))) (obj : bytes) : prog L (option bytes) :=
  match session ≫= λ s, cached s obj with
  | Some bs => mret (Some bs)
  | None =>
      let v := object_version obj in
      found ← match v with Some v => live_records st obj v | None => mret None end;
      match found with
      | Some m => mret (bt_get obj m)
      | None =>
          o ← std_get obj;
          match o with
          | Some bs => mret (Some bs)
          | None =>
              '(pre, _) ← lift (ctx (rsplit_once x2f obj) "invalid snapshot name");
              keys ← index_keys (pre ++ b"/");
              v ← lift (ctx v "invalid snapshot version");
              found ← indexed_records st obj v keys;
              match found with
              | Some m => mret (bt_get obj m)
              | None => m ← records st (pre ++ b"/") false; mret (bt_get obj m)
              end
          end
      end
  end.

Definition rapid_prefetch (src : SnapshotRef) : prog L (option PrefetchedCheckpoint) :=
  o ← std_get (object src ++ b".checkpoint");
  mret (Some {| pre_source := src; pre_bytes := o |}).

Definition rapid_restore (obj bs : bytes) (c : option PrefetchedCheckpoint)
    : stateful L (option (Session (L:=L))) SqliteSnapshot :=
  r ← call (log_restore st obj bs c);
  r ← check (ctx r "out of turns");
  session ← get_state;
  match session with
  | Some s =>
      '(s, x) ← call (session_restored st obj bs r s);
      set_state (Some s);;
      check x
  | None => mret ()
  end;;
  mret (resolved r).

Definition rapid_list (pre : bytes) : prog L (list bytes) :=
  keys ← std_list pre;
  m ← records st pre false;
  let all := List.filter (λ k, bool_decide (is_Some (object_version k))) keys ++ (fst <$> m) in
  mret (fst <$> foldl (λ acc k, bt_insert k () acc) [] all).

Definition rapid_latest (pre : bytes) : prog L (option (bytes * bytes)) := log_latest st pre false.

Definition rapid_put (obj bs : bytes) : stateful L (option (Session (L:=L))) unit :=
  session ← get_state;
  s ← check (ctx session "log stream is not activated");
  '(s, r) ← call (session_put st turns obj bs s);
  set_state (Some s);;
  check r.

(** The prefix the cleanup task works on is computed here; the task itself is
    [cleanup_turn]. *)
Definition rapid_start (s : StateStream) : stateful L (option (Session (L:=L))) bytes :=
  session ← get_state;
  check (ensure (match session with None => true | Some _ => false end) "log stream is already activated");;
  opened ← call (session_open st s);
  set_state (Some opened);;
  actor ← check (actor_from_snapshot (stream_object s (base_version s)));
  pre ← check (snapshots actor);
  check (log_object_name pre).

Definition rapid_recover (pre : bytes) : prog L (option (bytes * bytes)) :=
  name ← lift (log_object_name pre);
  keys ← bucket_list Archive name;
  for_each (λ _ key,
    if ends_with (b".manifest") key then
      m ← get_manifest st key pre "manifest disappeared";
      recover_segment st m
    else mret ()) () keys;;
  l ← log_latest st pre false;
  match l with
  | Some (obj, bs) => std_put obj bs;; mret l
  | None => mret l
  end.

Definition rapid_finish (s : StateStream) : stateful L (option (Session (L:=L))) unit :=
  session ← get_state;
  active ← check (ctx session "log stream is not activated");
  check (ensure (bool_decide (stream active = s)) "cannot finish another log stream");;
  '(active, r) ← call (session_finish st turns active);
  set_state (Some active);;
  check r;;
  set_state None.
End store.
