(* ===== verification/RapidSessionSafety.v ===== *)
(** * Sessions stop when in doubt

    A session acknowledges commits one version after the other; when it cannot tell
    whether a commit was stored it refuses everything from then on, so that only
    recovery decides. Proved for every environment: whatever the other tasks and
    processes do, and whatever storage answers. *)

From S2P Require Import Prelude Text Demo Names Payload Frame StateLog Effects Btree Concurrency Buckets Rapid Recovery RapidLog RapidSegment RapidArchiver RapidSession.
Local Open Scope N_scope.

(** ** Checkpoint accounting *)

(** The schedule of a session that started at version [base] and has reached [v]:
    at most one restored history, which begins no later than the commit it restores
    (as [resolve] guarantees), then the commits, one version after the other;
    checkpoints complete at any time and in any order. *)
Inductive accounted {L : Type} (base : N) : N → Progress L → Prop :=
| accounted_new : accounted base base progress_default
| accounted_restored r p :
    accounted base base p → logged p = [] → checkpoint_version r ≤ base →
    accounted base base (progress_restored r base p)
| accounted_logged v n p : accounted base v p → accounted base (v + 1) (progress_logged (v + 1) n p)
| accounted_completed v u n p : accounted base v p → u ≤ v → accounted base v (progress_completed u n p)
| accounted_task v t p : accounted base v p → accounted base v (with_task t p)
| accounted_retry v t p : accounted base v p → accounted base v (with_retry t p).

Definition increasing_versions (l : list (N * N)) : Prop :=
  ∀ i j x y, (i < j)%nat → l !! i = Some x → l !! j = Some y → fst x < fst y.

Lemma increasing_versions_snoc l v n :
  increasing_versions l → Forall (λ x, fst x < v) l → increasing_versions (l ++ [(v, n)]).
Proof.
  intros Hi Hf i j x y Hij Hx Hy. destruct (decide (j < length l)%nat) as [Hj|Hj].
  - rewrite lookup_app_l in Hx, Hy by lia. exact (Hi i j x y Hij Hx Hy).
  - rewrite lookup_app_r in Hy by lia. apply list_lookup_singleton_Some in Hy as [Hj' <-].
    rewrite lookup_app_l in Hx by lia. rewrite Forall_forall in Hf. apply Hf. by eapply list_elem_of_lookup_2.
Qed.

Lemma increasing_versions_tail x l : increasing_versions (x :: l) → increasing_versions l ∧ Forall (λ y, fst x < fst y) l.
Proof.
  intros Hi. split.
  - intros i j a b Hij Ha Hb. apply (Hi (S i) (S j)); [lia|done..].
  - apply Forall_forall. intros y [i Hy]%list_elem_of_lookup. apply (Hi 0%nat (S i)); [lia|done..].
Qed.

(** Dropping from the front drops exactly the versions a checkpoint covers. *)
Lemma drop_logged_spec v l :
  increasing_versions l →
  increasing_versions (drop_logged v l) ∧ ∀ x, x ∈ drop_logged v l ↔ x ∈ l ∧ v < fst x.
Proof.
  induction l as [|[u n] l IH]; intros Hi; cbn [drop_logged].
  - split; [done|]. set_solver.
  - destruct (increasing_versions_tail _ _ Hi) as [Hl Hf]. destruct (N.leb_spec u v) as [Hle|Hlt].
    + destruct (IH Hl) as [Hd He]. split; [done|]. intros x. rewrite He, elem_of_cons. split; [tauto|].
      intros [[->|?] ?]; [simpl in *; lia|done].
    + split; [done|]. intros x. split; [|tauto]. intros Hx. split; [done|].
      apply elem_of_cons in Hx as [->|Hx]; [done|]. rewrite Forall_forall in Hf. specialize (Hf _ Hx).
      simpl in *. lia.
Qed.

(** What the schedule holds at version [v]. *)
Definition accounts {L : Type} (base v : N) (p : Progress L) : Prop :=
  completed p ≤ v ∧ increasing_versions (logged p) ∧
  (∀ u n, (u, n) ∈ logged p → completed p < u ≤ v) ∧
  (∀ u, base < u ≤ v → completed p < u → ∃ n, (u, n) ∈ logged p).

Lemma accounts_logged {L} base v n (p : Progress L) :
  accounts base v p → accounts base (v + 1) (progress_logged (v + 1) n p).
Proof.
  intros (Hle & Hi & Hr & Hc). unfold accounts. cbn [progress_logged logged completed]. split_and!.
  - lia.
  - apply increasing_versions_snoc; [done|]. apply Forall_forall. intros [u m] Hx. specialize (Hr u m Hx). simpl. lia.
  - intros u m [Hx|[= -> ->]%list_elem_of_singleton]%elem_of_app; [specialize (Hr u m Hx)|]; lia.
  - intros u Hu Hlt. destruct (decide (u = v + 1)) as [->|Hne]; [exists n; set_solver|].
    destruct (Hc u) as [m Hm]; [lia|done|]. exists m. set_solver.
Qed.

Lemma accounts_completed {L} base v u n (p : Progress L) :
  accounts base v p → u ≤ v → accounts base v (progress_completed u n p).
Proof.
  intros (Hle & Hi & Hr & Hc) Hu. unfold progress_completed. destruct (N.leb_spec u (completed p)); [done|].
  unfold accounts. cbn [logged completed]. destruct (drop_logged_spec u (logged p) Hi) as [Hd He]. split_and!.
  - done.
  - done.
  - intros x m Hx. apply He in Hx as [Hx Hlt]. specialize (Hr x m Hx). simpl in Hlt. lia.
  - intros x Hx Hlt. destruct (Hc x Hx ltac:(lia)) as [m Hm]. exists m. by apply He.
Qed.

Lemma accounts_restored {L} base r (p : Progress L) :
  accounts base base p → logged p = [] → checkpoint_version r ≤ base →
  accounts base base (progress_restored r base p).
Proof.
  intros (Hle & _ & Hr & _) Hl Hcp. unfold accounts, progress_restored. cbn [logged completed]. rewrite Hl.
  destruct (N.ltb_spec (N.max (completed p) (checkpoint_version r)) base); cbn [app]; split_and!.
  - lia.
  - intros i j x y Hij Hx Hy. apply list_lookup_singleton_Some in Hx as [-> _], Hy as [-> _]. lia.
  - intros u n Hx. apply list_elem_of_singleton in Hx. injection Hx as -> ->. lia.
  - lia.
  - lia.
  - by intros i.
  - set_solver.
  - lia.
Qed.

(** The checkpoint schedule counts every commit exactly once: the versions it
    still holds are increasing, each newer than the last completed checkpoint and
    none newer than the session, and every version committed by the session that
    no completed checkpoint covers is among them. *)
Theorem progress_accounts {L : Type} (base v : N) (p : Progress L) :
  accounted base v p →
  completed p ≤ v ∧ increasing_versions (logged p) ∧
  (∀ u n, (u, n) ∈ logged p → completed p < u ≤ v) ∧
  (∀ u, base < u ≤ v → completed p < u → ∃ n, (u, n) ∈ logged p).
Proof.
  change (accounted base v p → accounts base v p).
  induction 1; auto using accounts_logged, accounts_completed, accounts_restored.
  split_and!; [simpl; lia|by intros i|set_solver|lia].
Qed.

(** ** Witness *)

Definition demo_progress : Progress unit :=
  progress_completed 3 (Some 10) (progress_logged 4 70 (progress_logged 3 50 progress_default)).

Lemma progress_accounts_witness :
  completed demo_progress ≤ 4 ∧ increasing_versions (logged demo_progress) ∧
  (∀ u n, (u, n) ∈ logged demo_progress → completed demo_progress < u ≤ 4) ∧
  (∀ u, 2 < u ≤ 4 → completed demo_progress < u → ∃ n, (u, n) ∈ logged demo_progress).
Proof.
  apply (progress_accounts 2 4 demo_progress). apply accounted_completed; [|discriminate].
  apply (accounted_logged 2 3), (accounted_logged 2 2), accounted_new.
Defined.

(** ** Results of calls on a session *)

Section ends.
Context {L : Type}.

(** In any environment, [p] ends with a result that satisfies [Q]. *)
Definition ends {A} (p : prog L A) (Q : result A → Prop) : Prop :=
  ∀ w, wp (λ _ _, True) (λ _ _, True) p (λ r _, Q r) w.

Lemma session_ends_mono {A} (p : prog L A) (Q Q' : result A → Prop) :
  ends p Q → (∀ r, Q r → Q' r) → ends p Q'.
Proof. intros Hp HQ w. eapply wp_mono; [apply Hp|]. auto. Qed.

Lemma session_ends_bind {A B} (p : prog L A) (f : A → prog L B) (P : result A → Prop) Q :
  ends p P → (∀ a, P (Ok a) → ends (f a) Q) → (∀ e, P (Err e) → Q (Err e)) → ends (p ≫= f) Q.
Proof.
  intros Hp Hf He w. apply wp_bind. eapply wp_mono; [apply Hp|]. intros [a|e] w' HP; [by apply Hf|by apply He].
Qed.

Lemma ends_attempt {A} (p : prog L A) (Q : result (result A) → Prop) :
  ends p (λ r, Q (Ok r)) → ends (attempt p) Q.
Proof. intros Hp w. apply wp_attempt, Hp. Qed.

Lemma ends_True {A} (p : prog L A) : ends p (λ _, True).
Proof. intros w. apply wp_yields; [done|]. apply yields_True. Qed.

Lemma session_ends_ret {A} (a : A) (Q : result A → Prop) : Q (Ok a) → ends (mret a) Q.
Proof. by intros HQ w. Qed.

(** Calls of which nothing matters but that they end. *)
Lemma ends_attempt_any {A B} (p : prog L A) (f : result A → prog L B) Q :
  (∀ r, ends (f r) Q) → ends (attempt p ≫= f) Q.
Proof.
  intros Hf. eapply session_ends_bind; [apply (ends_attempt p (λ r, ∃ x, r = Ok x))| |].
  - eapply session_ends_mono; [apply ends_True|]. eauto.
  - intros a _. apply Hf.
  - by intros e [x [=]].
Qed.

Lemma ends_instant {B} (f : N → prog L B) Q : (∀ t, ends (f t) Q) → ends (instant ≫= f) Q.
Proof.
  intros Hf. apply (session_ends_bind _ _ (λ r, ∃ t, r = Ok t)); [|auto|by intros e [t [=]]].
  intros w w1 _ x w2 [_ ->]. split; [done|]. by eexists.
Qed.

Lemma ends_atomic {X B} (g : L → X * L) (f : X → prog L B) Q : (∀ x, ends (f x) Q) → ends (atomic g ≫= f) Q.
Proof.
  intros Hf. apply (session_ends_bind _ _ (λ r, ∃ x, r = Ok x)); [|auto|by intros e [x [=]]].
  intros w w1 _ x w2 [-> _]. split; [done|]. by eexists.
Qed.

Lemma ends_poll {A B} (t : prog L A) (f : prog L A → prog L B) Q : (∀ t, ends (f t) Q) → ends (poll t ≫= f) Q.
Proof.
  intros Hf. apply (session_ends_bind _ _ (λ r, ∃ x, r = Ok x)); [|auto|by intros e [x [=]]].
  intros w. revert w. induction t as [r|o k IH]; intros w; simpl; [eauto|].
  intros w1 _ x w2 [_ [c ->]]. split; [done|]. destruct c; simpl; [|eauto].
  intros w3 _ y w4 _. split; [done|]. apply IH.
Qed.

(** Calls that return their receiver. *)
Definition returns {S A} (m : stateful L S A) (s : S) (Q : S → result A → Prop) : Prop :=
  ends (m s) (λ r, ∃ s' x, r = Ok (s', x) ∧ Q s' x).

Lemma returns_mono {S A} (m : stateful L S A) s (Q Q' : S → result A → Prop) :
  returns m s Q → (∀ s' x, Q s' x → Q' s' x) → returns m s Q'.
Proof. intros Hm HQ. eapply session_ends_mono; [exact Hm|]. intros r (s' & x & -> & ?). eauto 6. Qed.

Lemma returns_bind {S A B} (m : stateful L S A) (f : A → stateful L S B) s (P : S → result A → Prop) Q :
  returns m s P → (∀ s' a, P s' (Ok a) → returns (f a) s' Q) → (∀ s' e, P s' (Err e) → Q s' (Err e)) →
  returns (m ≫= f) s Q.
Proof.
  intros Hm Hf He. apply (session_ends_bind _ _ (λ r, ∃ s' x, r = Ok (s', x) ∧ P s' x)); [done| |].
  - intros [s' x] (s1 & x1 & [= <- <-] & HP). destruct x as [a|e]; [by apply Hf|].
    apply session_ends_ret. eauto.
  - by intros e (s' & x & [=] & _).
Qed.

Lemma returns_get {S B} (f : S → stateful L S B) s Q : returns (f s) s Q → returns (get_state ≫= f) s Q.
Proof.
  intros Hf. apply (returns_bind _ _ _ (λ s' x, s' = s ∧ x = Ok s)).
  - apply session_ends_ret. eauto.
  - by intros s' a [-> [= ->]].
  - by intros s' e [_ [=]].
Qed.

Lemma returns_modify {S B} (g : S → S) (f : unit → stateful L S B) s Q :
  returns (f ()) (g s) Q → returns (modify g ≫= f) s Q.
Proof.
  intros Hf. apply (returns_bind _ _ _ (λ s' x, s' = g s ∧ x = Ok ())).
  - apply session_ends_ret. eauto.
  - by intros s' [] [-> _].
  - by intros s' e [_ [=]].
Qed.

Lemma returns_set {S B} (t : S) (f : unit → stateful L S B) s Q :
  returns (f ()) t Q → returns (set_state t ≫= f) s Q.
Proof. apply (returns_modify (λ _, t)). Qed.

Lemma returns_check {S A B} (r : result A) (f : A → stateful L S B) s Q :
  (∀ e, r = Err e → Q s (Err e)) → (∀ a, r = Ok a → returns (f a) s Q) → returns (check r ≫= f) s Q.
Proof.
  intros He Hf. apply (returns_bind _ _ _ (λ s' x, s' = s ∧ x = r)).
  - apply session_ends_ret. eauto.
  - intros s' a [-> <-]. by apply Hf.
  - intros s' e [-> <-]. by apply He.
Qed.

(** A call that leaves the receiver alone. *)
Lemma returns_call {S A} (p : prog L A) (s : S) (P : result A → Prop) :
  ends p P → returns (call p) s (λ s' x, s' = s ∧ P x).
Proof.
  intros Hp. apply (session_ends_bind _ _ (λ r, ∃ x, r = Ok x ∧ P x)).
  - apply ends_attempt. eapply session_ends_mono; [exact Hp|]. eauto.
  - intros x (x' & [= <-] & HP). apply session_ends_ret. eauto 6.
  - by intros e (x & [=] & _).
Qed.

Lemma returns_call_bind {S A B} (p : prog L A) (f : A → stateful L S B) s (P : result A → Prop) Q :
  ends p P → (∀ e, P (Err e) → Q s (Err e)) → (∀ a, P (Ok a) → returns (f a) s Q) → returns (call p ≫= f) s Q.
Proof.
  intros Hp He Hf. eapply returns_bind; [by apply returns_call| |].
  - intros s' a [-> HP]. by apply Hf.
  - intros s' e [-> HP]. by apply He.
Qed.
End ends.

(** ** Sessions *)

Section session.
Context `{JsonValue} `{!Json (Envelope StateSnapshot), !Json StateSnapshot, !Json LegacySnapshot}.
Context `{!Json (Envelope Checkpoint), !Json Checkpoint} `{Digest} `{Base64} `{UuidParse}.
Context `{!Json Manifest, !Json ClosedSegment, !Json Index}.
Context {L : Type} `{!HasLive L} `{!HasPrepared L} `{!HasPending L}.
Context (st : LogStorage) (turns : nat).
Implicit Types s : Session (L:=L).

(** Nothing a client can see has changed. *)
Definition same_commit s s' : Prop :=
  stream s' = stream s ∧ latest s' = latest s ∧ session_version s' = session_version s ∧
  healthy s' = healthy s.

Lemma same_commit_trans s1 s2 s3 : same_commit s1 s2 → same_commit s2 s3 → same_commit s1 s3.
Proof. unfold same_commit. intuition congruence. Qed.

Lemma install_same x s : ends (install st x s) (λ r, ∃ s', r = Ok s' ∧ same_commit s s').
Proof.
  unfold install. apply (session_ends_bind _ _ (λ r, ∃ a, r = Ok a)).
  - destruct x as [seg|]; [|by apply session_ends_ret; eauto]. unfold archiver_new.
    apply (session_ends_bind _ _ (λ r, ∃ a, r = Ok a)); [|by intros a _; apply session_ends_ret; eauto|by intros e [a [=]]].
    apply ends_atomic. intros []. apply session_ends_ret. eauto.
  - intros a _. apply session_ends_ret. by eexists.
  - by intros e [a [=]].
Qed.

Lemma retire_same s : ends (retire_finished st turns s) (λ r, ∃ s', r = Ok s' ∧ same_commit s s').
Proof.
  unfold retire_finished. destruct (retired s) as [a|]; [|by apply session_ends_ret; eexists].
  destruct (archiver_is_finished a); [|by apply session_ends_ret; eexists].
  apply ends_attempt_any. intros r. apply session_ends_ret. by eexists.
Qed.

Lemma rotate_same s : ends (rotate st turns s) (λ r, ∃ s', r = Ok s' ∧ same_commit s s').
Proof.
  unfold rotate. apply (session_ends_bind _ _ (λ r, ∃ s', r = Ok s' ∧ same_commit s s')); [apply retire_same| |].
  2: { by intros e (s' & [=] & _). }
  intros s1 (s1' & [= <-] & Hs1). apply ends_instant. intros now.
  destruct (_ || _); [apply session_ends_ret; eauto|].
  destruct (checked_add _ _) as [first|]; [|apply session_ends_ret; eauto].
  apply ends_poll. intros [r|o k]; [|apply session_ends_ret; eexists; split; [done|exact Hs1]].
  apply (session_ends_bind _ _ (λ r, ∃ s', r = Ok s' ∧ same_commit s s')).
  - destruct r as [[seg|]|e]; [|by apply session_ends_ret; eexists..].
    apply (session_ends_bind _ _ (λ r, ∃ s', r = Ok s' ∧ same_commit s s')).
    + cbn [archive with_preparing]. destruct (archive s1) as [a|]; [|by apply session_ends_ret; eexists].
      unfold archiver_close. apply ends_atomic. intros []. apply session_ends_ret. by eexists.
    + intros s2 (s2' & [= <-] & Hs2). eapply session_ends_mono; [apply install_same|].
      intros r (s3 & -> & Hs3). exists s3. split; [done|]. by eapply same_commit_trans.
    + by intros e (s' & [=] & _).
  - intros s2 (s2' & [= <-] & Hs2). apply ends_instant. intros now'. apply session_ends_ret. by eexists.
  - by intros e (s' & [=] & _).
Qed.

Lemma install_prepared_same s :
  returns (install_prepared st) s (λ s' _, same_commit s s').
Proof.
  unfold install_prepared. apply returns_get. destruct (preparing s) as [task|]; [|by apply session_ends_ret; eexists _, _].
  apply returns_set. apply (returns_call_bind _ _ _ (λ _, True)); [apply ends_True|done|]. intros seg _.
  apply returns_get. apply (returns_call_bind _ _ _ (λ r, ∃ s', r = Ok s' ∧ same_commit s s')).
  - eapply session_ends_mono; [apply install_same|]. intros r (s' & -> & Hs). eauto.
  - by intros e (s' & [=] & _).
  - intros s1 (s1' & [= <-] & Hs1). apply session_ends_ret. eauto.
Qed.

Lemma write_commit_same v obj bs s :
  returns (write_commit st v obj bs) s (λ s' _, same_commit s s').
Proof.
  unfold write_commit. eapply returns_bind; [apply install_prepared_same| |done].
  intros s1 [] Hs1. apply returns_get. destruct (standard s1).
  { eapply returns_mono; [apply (returns_call _ _ (λ _, True)), ends_True|]. by intros s' x [-> _]. }
  apply returns_check; [by intros|]. intros seg _.
  apply (returns_call_bind _ _ _ (λ _, True)); [apply ends_True|by intros|]. intros [seg' r] _.
  apply returns_modify. apply returns_check; [by intros|]. intros frame _.
  apply (returns_call_bind _ _ _ (λ _, True)); [apply ends_True|by intros|]. intros [] _.
  apply returns_check; [by intros|]. intros a _.
  eapply returns_mono; [apply (returns_call _ _ (λ _, True)), ends_True|]. by intros s' x [-> _].
Qed.

Lemma schedule_ends latest v (p : Progress L) : ends (schedule st latest v p) (λ r, ∃ p', r = Ok p').
Proof.
  unfold schedule. apply (session_ends_bind _ _ (λ r, ∃ p', r = Ok p')).
  - unfold collect. destruct (cp_task p) as [[u [[n|e]|o k]]|]; try by apply session_ends_ret; eauto.
    apply ends_instant. intros now. apply session_ends_ret. eauto.
  - intros p1 _. destruct (_ || _); [apply session_ends_ret; eauto|]. apply ends_instant. intros now.
    destruct (match retry_at p1 with Some _ => _ | None => _ end); apply session_ends_ret; eauto.
  - by intros e [p' [=]].
Qed.

(** Committing through a session. An acknowledged commit is the latest one: it
    either was already, or it belongs to the stream and is exactly one version
    newer. A refused or failed one leaves the version and the latest commit as
    they were, and unless it was refused before anything was attempted the session
    is unhealthy from then on. *)
Theorem session_put_consecutive (obj bs : bytes) s :
  returns (session_put st turns obj bs) s (λ s' x,
    stream s' = stream s ∧
    match x with
    | Ok _ => healthy s = true ∧ healthy s' = true ∧ latest s' = Some (obj, bs) ∧
        (s' = s ∨ session_version s' = session_version s + 1 ∧
           ∃ ref, stream_snapshot (stream s) bs = Ok ref ∧ object ref = obj ∧
             ref_state_version ref = session_version s')
    | Err _ => session_version s' = session_version s ∧ latest s' = latest s ∧
        (s' = s ∨ healthy s = true ∧ healthy s' = false)
    end).
Proof.
  unfold session_put. apply returns_get. apply returns_check; [by auto|]. intros u Hh. inv_ok.
  apply returns_check; [by auto|]. intros ref Href. apply returns_check; [by auto|]. intros u' Hobj. inv_ok.
  destruct (bool_decide (cached s obj = Some bs)) eqn:Hc.
  { apply session_ends_ret. exists s, (Ok ()). split; [done|]. split; [done|]. split_and!; [done|done| |by left].
    apply bool_decide_eq_true in Hc. unfold cached in Hc. destruct (latest s) as [[k b']|]; [|done].
    case_bool_decide; [|done]. congruence. }
  apply returns_check; [by auto|]. intros u'' Hv. inv_ok.
  apply (returns_call_bind _ _ _ (λ r, ∃ s', r = Ok s' ∧ same_commit s s')); [apply rotate_same| |].
  { by intros e (s' & [=] & _). }
  intros s1 (s1' & [= <-] & Hs1 & Hl1 & Hv1 & Hh1). apply returns_set.
  eapply returns_bind; [apply write_commit_same| |].
  2: { intros s2 e (Hs2 & Hl2 & Hv2 & Hh2). simpl in *. split; [congruence|]. split_and!; [congruence..|].
       right. split; [done|]. by rewrite Hh2. }
  intros s2 [] (Hs2 & Hl2 & Hv2 & Hh2). simpl in *. apply returns_modify, returns_get.
  apply (returns_call_bind _ _ _ (λ r, ∃ p', r = Ok p')); [apply schedule_ends|by intros e [p' [=]]|].
  intros p' _. apply session_ends_ret. eexists _, (Ok ()). split; [done|]. simpl. split; [congruence|].
  split_and!; [done|done|done|]. right. split; [congruence|]. exists ref. split_and!; [done|congruence|done].
Qed.

(** ** After a doubtful write *)

(** What can happen to a session: the calls of its owner, a round of the rotation
    task, and progress of its background tasks. *)
Inductive session_event :=
| Put (obj bs : bytes)
| Restored (obj bs : bytes) (r : ResolvedSqlite)
| Rotation
| Tasks
| Finish.

(** The session goes on whatever a call returned. *)
Definition outcome {A} (m : stateful L (Session (L:=L)) A) : stateful L (Session (L:=L)) (result A) :=
  λ s, '(s, r) ← m s; mret (s, Ok r).

(** The answers to the puts and finishes, in order. *)
Fixpoint session_events (es : list session_event) : stateful L (Session (L:=L)) (list (result unit)) :=
  match es with
  | [] => mret []
  | Put obj bs :: es => x ← outcome (session_put st turns obj bs); xs ← session_events es; mret (x :: xs)
  | Finish :: es => x ← outcome (session_finish st turns); xs ← session_events es; mret (x :: xs)
  | Restored obj bs r :: es => outcome (session_restored st obj bs r);; session_events es
  | Rotation :: es => s ← get_state; s ← call (rotation_turn st turns s); set_state s;; session_events es
  | Tasks :: es => s ← get_state; s ← call (run_tasks st turns s); set_state s;; session_events es
  end.

(** The session is unhealthy and still at version [v]. *)
Definition stopped (v : N) s : Prop := healthy s = false ∧ session_version s = v.

Lemma returns_outcome {A} (m : stateful L Session A) s (Q : Session → result A → Prop) :
  returns m s Q → returns (outcome m) s (λ s' x, ∃ r, x = Ok r ∧ Q s' r).
Proof.
  intros Hm. apply (session_ends_bind _ _ (λ r, ∃ s' x, r = Ok (s', x) ∧ Q s' x)); [exact Hm| |].
  - intros [s' x] (s1 & x1 & [= <- <-] & HQ). apply session_ends_ret. eauto 8.
  - by intros e (s' & x & [=] & _).
Qed.

Lemma put_refused v obj bs s :
  stopped v s → returns (session_put st turns obj bs) s (λ s' x, stopped v s' ∧ ∃ e, x = Err e).
Proof.
  intros [Hh Hv]. eapply returns_mono; [apply session_put_consecutive|].
  intros s' [u|e] [_ Hx]; [destruct Hx as [Hx _]; congruence|]. split; [|eauto].
  destruct Hx as (Hv' & _ & [->|[Hx _]]); [by split|congruence].
Qed.

Lemma finish_refused v s :
  stopped v s → returns (session_finish st turns) s (λ s' x, stopped v s' ∧ ∃ e, x = Err e).
Proof.
  intros Hs. unfold session_finish. apply returns_get. apply returns_check; [by eauto|].
  intros u Hh. inv_ok. destruct Hs. congruence.
Qed.

Lemma restored_stopped v obj bs r s :
  stopped v s → returns (session_restored st obj bs r) s (λ s' _, stopped v s').
Proof.
  intros Hs. unfold session_restored. apply returns_check; [done|]. intros q _. apply returns_get.
  destruct (_ || _); [by apply session_ends_ret; eauto|]. apply returns_check; [done|]. intros a _.
  apply returns_check; [done|]. intros b' _. destruct (_ != _); [by apply session_ends_ret; eauto|].
  apply returns_set. apply (returns_call_bind _ _ _ (λ _, True)); [apply ends_True|done|].
  intros p _. apply session_ends_ret. by eexists _, _.
Qed.

Lemma rotation_stopped v s :
  stopped v s → ends (rotation_turn st turns s) (λ r, ∃ s', r = Ok s' ∧ stopped v s').
Proof.
  intros [Hh Hv]. unfold rotation_turn. eapply session_ends_bind; [apply rotate_same| |].
  - intros s1 (s1' & [= <-] & _ & _ & Hv1 & Hh1). rewrite Hh1, Hh. apply session_ends_ret. eexists. split; [done|].
    split; congruence.
  - by intros e (s' & [=] & _).
Qed.

Lemma archive_run_ends n m t : ends (archive_run st n m t) (λ r, ∃ t', r = Ok t').
Proof.
  revert t; induction n as [|n IH]; intros t; cbn [archive_run]; apply ends_poll; intros t'.
  - apply session_ends_ret. eauto.
  - destruct t' as [[[w|]|e]|o k]; [apply IH|apply session_ends_ret; eauto..].
Qed.

Lemma archiver_run_ends a : ends (archiver_run_opt st turns a) (λ r, ∃ a', r = Ok a').
Proof.
  destruct a as [a|]; [|by apply session_ends_ret; eexists]. simpl. unfold archiver_run.
  eapply session_ends_bind; [eapply session_ends_bind; [apply archive_run_ends| |]| |].
  - intros t _. apply (session_ends_ret _ (λ r, ∃ a', r = Ok a')). eauto.
  - by intros e [t [=]].
  - intros a' _. apply session_ends_ret. eauto.
  - by intros e [t [=]].
Qed.

Lemma poll_opt_ends {A} (t : option (prog L A)) : ends (poll_opt t) (λ r, ∃ t', r = Ok t').
Proof. destruct t as [t|]; [|by apply session_ends_ret; eexists]. apply ends_poll. intros t'. apply session_ends_ret. eauto. Qed.

Lemma tasks_stopped v s :
  stopped v s → ends (run_tasks st turns s) (λ r, ∃ s', r = Ok s' ∧ stopped v s').
Proof.
  intros Hs. unfold run_tasks.
  eapply session_ends_bind; [apply poll_opt_ends| |by intros e [x [=]]]. intros p _.
  eapply session_ends_bind; [apply poll_opt_ends| |by intros e [x [=]]]. intros n _.
  eapply session_ends_bind; [apply archiver_run_ends| |by intros e [x [=]]]. intros a _.
  eapply session_ends_bind; [apply archiver_run_ends| |by intros e [x [=]]]. intros r _.
  eapply (session_ends_bind _ _ (λ r, ∃ c, r = Ok c)); [| |by intros e [x [=]]].
  - destruct (cp_task (checkpoint s)) as [[u t]|]; [|by apply session_ends_ret; eexists].
    apply ends_poll. intros t'. apply session_ends_ret. eauto.
  - intros c _. apply session_ends_ret. by eexists.
Qed.

Lemma stopped_events v es s :
  stopped v s →
  returns (session_events es) s (λ s' x, ∃ answers, x = Ok answers ∧ healthy s' = false ∧
    session_version s' = v ∧ Forall (λ a, ∃ e, a = Err e) answers).
Proof.
  assert (∀ xs e, Forall (λ a : result unit, ∃ e, a = Err e) xs →
    Forall (λ a : result unit, ∃ e, a = Err e) (Err e :: xs)) as Hcons by (intros; constructor; eauto).
  revert s; induction es as [|[obj bs|obj bs r| | |] es IH]; intros s Hs; cbn [session_events].
  - apply session_ends_ret. destruct Hs. eexists _, _. split; [done|]. exists []. split_and!; [done..|constructor].
  - eapply returns_bind; [by apply returns_outcome, put_refused| |by intros s' e (r & [=] & _)].
    intros s1 x (x' & [= <-] & Hs1 & e & ->). eapply returns_bind; [apply IH; exact Hs1| |by intros s' e' (r & [=] & _)].
    intros s2 xs (xs' & [= <-] & Hh & Hv & Hf). apply session_ends_ret. eexists _, _. split; [done|].
    eexists. split_and!; [done..|by apply Hcons].
  - eapply returns_bind; [by apply returns_outcome, restored_stopped| |by intros s' e (r' & [=] & _)].
    intros s1 x (x' & [= <-] & Hs1). by apply IH.
  - apply returns_get. eapply returns_call_bind; [by apply rotation_stopped|by intros e (s' & [=] & _)|].
    intros s1 (s1' & [= <-] & Hs1). apply returns_set. by apply IH.
  - apply returns_get. eapply returns_call_bind; [by apply tasks_stopped|by intros e (s' & [=] & _)|].
    intros s1 (s1' & [= <-] & Hs1). apply returns_set. by apply IH.
  - eapply returns_bind; [by apply returns_outcome, finish_refused| |by intros s' e (r & [=] & _)].
    intros s1 x (x' & [= <-] & Hs1 & e & ->). eapply returns_bind; [by apply IH| |by intros s' e' (r & [=] & _)].
    intros s2 xs (xs' & [= <-] & Hh & Hv & Hf). apply session_ends_ret. eexists _, _. split; [done|].
    eexists. split_and!; [done..|by apply Hcons].
Qed.

(** A session that could not tell whether a commit was stored never commits
    again: whatever its owner calls, however often it rotates and whatever its
    tasks do, every further put and finish is refused and its version stays. *)
Theorem unhealthy_session_stops (es : list session_event) s :
  healthy s = false →
  returns (session_events es) s (λ s' x, ∃ answers, x = Ok answers ∧ healthy s' = false ∧
    session_version s' = session_version s ∧ Forall (λ a, ∃ e, a = Err e) answers).
Proof. intros Hh. by apply stopped_events. Qed.
End session.
