(* ===== verification/RapidDemo.v ===== *)
(** * A log session from start to takeover

    One owner opens a session on two zones and commits twice; the next owner
    recovers what was committed. The scenario runs the definitions themselves, and
    its segment, log and archive are the concrete inputs of the witnesses. *)

From S2P Require Import Prelude Text Demo Names Payload Frame StateLog Effects Btree Concurrency Buckets Rapid Recovery RapidLog RapidSegment RapidArchive RapidArchiver RapidSession RapidSessionSafety.
Local Open Scope N_scope.

Module Stand_in_logs.
Export Stand_in_commits.

#[export] Instance ser_Z : Ser Z :=
  ser_iso (λ z, (bool_decide (0 ≤ z)%Z, Z.abs_N z))
          (λ '(c, n), if c then Z.of_N n else (- Z.of_N n)%Z)
          ltac:(intros z; simpl; case_bool_decide; lia).

#[export] Instance ser_StateStream : Ser StateStream :=
  ser_iso (λ s, (session s, prefix s, stream_owner_epoch s, base_version s))
          (λ '(i, p, e, v), Build_StateStream i p e v) ltac:(by intros []).

#[export] Instance ser_Replica : Ser Replica :=
  ser_iso (λ r, (replica_bucket r, replica_object r, replica_generation r))
          (λ '(a, o, g), Build_Replica a o g) ltac:(by intros []).

#[export] Instance ser_Manifest : Ser Manifest :=
  ser_iso (λ m, (format m, manifest_id m, manifest_stream m, first_version m, replicas m))
          (λ '(f, i, s, v, r), Build_Manifest f i s v r) ltac:(by intros []).

#[export] Instance ser_ClosedSegment : Ser ClosedSegment :=
  ser_iso (λ c, (last_version c, end_offset c)) (λ '(v, e), Build_ClosedSegment v e) ltac:(by intros []).

#[export] Instance ser_Entry : Ser Entry :=
  ser_iso (λ e, (entry_version e, entry_start e, entry_length e))
          (λ '(v, s, l), Build_Entry v s l) ltac:(by intros []).

#[export] Instance ser_Index : Ser Index :=
  ser_iso (λ i, (index_batch_key i, index_records i)) (λ '(k, r), Build_Index k r) ltac:(by intros []).

#[export] Instance ser_Checkpoint : Ser Checkpoint :=
  ser_iso (λ c, (source c, cp_sqlite c)) (λ '(s, q), Build_Checkpoint s q) ltac:(by intros []).

#[export] Instance demo_uuid : UuidParse := λ _, true.
End Stand_in_logs.
Import Stand_in_logs.

(** The local state of one process. *)
Record log_process := {
  demo_live : list (N * LiveRecord);
  demo_prepared : option Prepared;
  demo_pending : gmap bytes Pending;
}.

#[local] Instance log_process_live : HasLive log_process :=
  {| live := demo_live;
     set_live x l := {| demo_live := x; demo_prepared := demo_prepared l; demo_pending := demo_pending l |} |}.
#[local] Instance log_process_prepared : HasPrepared log_process :=
  {| prepared := demo_prepared;
     set_prepared x l := {| demo_live := demo_live l; demo_prepared := x; demo_pending := demo_pending l |} |}.
#[local] Instance log_process_pending : HasPending log_process :=
  {| pending id l := default (pending_new 0) (demo_pending l !! id);
     set_pending id p l := {| demo_live := demo_live l; demo_prepared := demo_prepared l;
                              demo_pending := <[id := p]> (demo_pending l) |} |}.

Definition demo_store : LogStorage :=
  {| zones := [b"zone-a"; b"zone-b"]; log_placement := All; batch := {| batch_bytes := 64; interval_ms := 1000 |} |}.

Definition demo_stream (epoch base : N) : StateStream :=
  {| session := b"s" ++ show_dec epoch;
     prefix := default [] (ok (snapshots demo_actor)) ++ pad 32 (show_hex epoch) ++ b"/";
     stream_owner_epoch := epoch; base_version := base |}.

Definition demo_commit_at (v : N) : bytes :=
  default [] (ok (snapshot_encode (demo_snapshot v 1 None [demo_ltx 1 v] v))).

Definition demo_object (v : N) : bytes := stream_object (demo_stream 1 0) v.

Definition demo_world : world log_process :=
  {| buckets := ∅; write_log := ∅; zone_objects := ∅; clock := 0; uuids := 0;
     local := {| demo_live := []; demo_prepared := None; demo_pending := ∅ |} |}.

(** The first owner: activation, two commits, and then it is gone. *)
Definition demo_first_owner : prog log_process (list (result unit)) :=
  '(s, _) ← rapid_start demo_store (demo_stream 1 0) None;
  '(s, r1) ← rapid_put demo_store 10 (demo_object 1) (demo_commit_at 1) s;
  '(s, r2) ← rapid_put demo_store 10 (demo_object 2) (demo_commit_at 2) s;
  '(s, r3) ← rapid_put demo_store 10 (demo_object 4) (demo_commit_at 4) s;
  mret [r1; r2; r3].

(** The next owner recovers the stream and reads the commits back. *)
Definition demo_next_owner : prog log_process (option bytes * option bytes * option bytes) :=
  l ← rapid_recover demo_store (prefix (demo_stream 1 0));
  x ← rapid_get demo_store None (demo_object 1);
  y ← rapid_get demo_store None (demo_object 2);
  mret (fmap (M:=option) fst l, x, y).

Definition demo_takeover : prog log_process (list (result unit) * (option bytes * option bytes * option bytes)) :=
  acks ← demo_first_owner; found ← demo_next_owner; mret (acks, found).

(** Both commits are acknowledged, the one that skips a version is refused, and the
    next owner finds exactly the acknowledged ones. *)
Example demo_takeover_runs : (run demo_takeover demo_world).1 =
  Ok ([Ok (); Ok (); Err "nonconsecutive state version"],
      (Some (demo_object 2), Some (demo_commit_at 1), Some (demo_commit_at 2))).
Proof. vm_compute. reflexivity. Qed.

(** ** Witnesses *)

Definition demo_manifest : Manifest :=
  {| format := 1; manifest_id := show_dec 0; manifest_stream := demo_stream 1 0; first_version := 1;
     replicas := [] |}.

Definition demo_log_records : list LogRecord :=
  [{| version := 1; state := demo_commit_at 1 |}; {| version := 2; state := demo_commit_at 2 |}].

Definition demo_log : bytes := concat ((λ r, default [] (ok (Frame.encode r))) <$> demo_log_records).

Definition demo_stem : bytes := default [] (ok (segment_stem demo_manifest)).

(** With a batch size of 64 bytes the first record already fills a batch. *)
Lemma batch_whole_records_witness :
  ∃ k, takeN 90 demo_log = log_bytes_of (take k demo_log_records) ∧
    Frame.decode (takeN 90 demo_log) = Ok (take k demo_log_records) ∧
    Forall (λ r, record_belongs demo_manifest r "archive record identity mismatch" = Ok ())
      (take k demo_log_records) ∧
    log_size (take (pred k) demo_log_records) < 64 ∧
    (90 < 64 → take k demo_log_records = demo_log_records) ∧
    (demo_log_records ≠ [] → take k demo_log_records ≠ []).
Proof.
  apply (batch_whole_records demo_manifest 64 demo_log demo_log_records 90).
  - vm_compute. reflexivity.
  - vm_compute. reflexivity.
  - reflexivity.
Defined.

(** The world that the takeover leaves: its archive holds the log of the first owner. *)
Definition demo_archived : world log_process := (run demo_takeover demo_world).2.

Lemma archive_is_one_log_witness :
  wp (batches_kept (demo_stem ++ b"~")) (λ _ _, True) (archived demo_manifest) (λ x _, ∀ through rs,
    x = Ok (through, rs) →
    through = len (log_bytes_of rs) ∧ successive rs ∧
    (∀ key o, stored demo_archived Archive key = Some o → (demo_stem ++ b"~") `prefix_of` key →
       ∃ start stop, batch_range (demo_stem ++ b"~") key = Ok (start, stop) ∧ start < stop ≤ through ∧
         obj_bytes o = sliceN start stop (log_bytes_of rs)) ∧
    (∀ i, i < through → ∃ key start stop, is_Some (stored demo_archived Archive key) ∧
       batch_range (demo_stem ++ b"~") key = Ok (start, stop) ∧ start ≤ i < stop)) demo_archived.
Proof. apply (archive_is_one_log demo_manifest demo_stem demo_archived). vm_compute. reflexivity. Defined.

(** The archive the takeover leaves is read as one log of two records. *)
Example demo_archive_reads :
  (run (archived demo_manifest) demo_archived).1 = Ok (len demo_log, demo_log_records).
Proof. vm_compute. reflexivity. Qed.

(** A session whose last append was in doubt. *)
Definition demo_doubtful : Session (L := log_process) :=
  {| stream := demo_stream 1 0; segment := None; preparing := None; next := None; archive := None;
     retired := None; retirement_error := None; latest := Some (demo_object 1, demo_commit_at 1);
     session_version := 1; installed_at := 0; standard := false; healthy := false; rotated := 0;
     checkpoint := progress_default |}.

Lemma unhealthy_session_stops_witness :
  returns (session_events demo_store 10 [Put (demo_object 2) (demo_commit_at 2); Rotation; Finish]) demo_doubtful
    (λ s' x, ∃ answers, x = Ok answers ∧ healthy s' = false ∧ session_version s' = 1 ∧
       Forall (λ a, ∃ e, a = Err e) answers).
Proof.
  apply (unhealthy_session_stops demo_store 10 [Put (demo_object 2) (demo_commit_at 2); Rotation; Finish]
           demo_doubtful). reflexivity.
Defined.
