(* ===== verification/Runtime.v ===== *)
(** * Ownership and the state behind it

    [src/src/bucket/runtime.rs] with [src/src/bucket/runtime/session.rs]: the
    ownership record of an actor in the authority bucket, what a host process
    remembers of the actors it owns, loading an actor's latest state, and the
    write path of a commit. Activation, renewal and release are in [Activation]. *)

From S2P Require Import Prelude Text Demo Names Payload StateLog Effects Concurrency Buckets Recovery.
Local Open Scope N_scope.

(** ** Data *)

Record Ownership := {
  persistence : SnapshotStoreConfig;
  sealed : bool;
  lease : HostLease;
  mutation : bytes;
  own_actor : ActorKey;
  epoch : N;
  region : bytes;
  base : option SnapshotRef;
}.

#[global] Instance Ownership_eq_dec : EqDecision Ownership.
Proof. solve_decision. Defined.

Record OwnershipHint := {
  hint_generation : Z;
  hint_record : Ownership;
}.

Record ObjectPlacement := {
  place_lease : HostLease;
  place_object : bytes;
  place_owner : bytes;
  place_owner_epoch : N;
  home_region : bytes;
  place_state_version : N;
  state_object : option bytes;
  last_request_id : option bytes;
}.

Record LoadedActor := {
  loaded_placement : ObjectPlacement;
  loaded_state : option bytes;
  loaded_checkpoint : option PrefetchedCheckpoint;
}.

Record UploadedSnapshots := {
  started : N;
  completed : N;
  up_latest : option SnapshotRef;
}.

Record LoadedSnapshot := {
  reference : SnapshotRef;
  loaded_bytes : bytes;
}.

(** The two locked maps of [RuntimeStorage], keyed by storage key and session. *)
Record process := {
  owned : gmap bytes Ownership;
  uploaded : gmap bytes UploadedSnapshots;
}.

Definition process_new : process := {| owned := ∅; uploaded := ∅ |}.

Definition set_owned (f : gmap bytes Ownership → gmap bytes Ownership) (p : process) : process :=
  {| owned := f (owned p); uploaded := uploaded p |}.

(** [HashMap::entry(session).or_default()] and a change to it. *)
Definition upload_entry (p : process) (session : bytes) : UploadedSnapshots :=
  default {| started := 0; completed := 0; up_latest := None |} (uploaded p !! session).

Definition set_upload (session : bytes) (u : UploadedSnapshots) (p : process) : process :=
  {| owned := owned p; uploaded := <[session := u]> (uploaded p) |}.

Definition set_lease (l : HostLease) (r : Ownership) : Ownership :=
  {| persistence := persistence r; sealed := sealed r; lease := l; mutation := mutation r;
     own_actor := own_actor r; epoch := epoch r; region := region r; base := base r |}.

(** ** Pure parts *)

Definition apply_snapshot (p : ObjectPlacement) (s : option SnapshotRef) : ObjectPlacement :=
  match s with
  | Some s =>
      {| place_lease := place_lease p; place_object := place_object p; place_owner := place_owner p;
         place_owner_epoch := place_owner_epoch p; home_region := home_region p;
         place_state_version := ref_state_version s; state_object := Some (object s);
         last_request_id := Some (ref_request_id s) |}
  | None => p
  end.

Definition placement (r : Ownership) : ObjectPlacement :=
  apply_snapshot
    {| place_lease := lease r; place_object := storage_key (own_actor r);
       place_owner := lease_id (lease r); place_owner_epoch := epoch r; home_region := region r;
       place_state_version := 0; state_object := None; last_request_id := None |}
    (base r).

(** Rust's order on [Option<(u64, u64)>]: [None] is least, pairs are lexicographic. *)
Definition position_lt (p q : option (N * N)) : bool :=
  match p, q with
  | _, None => false
  | None, Some _ => true
  | Some (e, v), Some (f, u) => (e <? f) || ((e =? f) && (v <? u))
  end.

(** The new value of [current]. *)
Definition advance (current candidate : option SnapshotRef) : result (option SnapshotRef) :=
  match candidate with
  | None => Ok current
  | Some c =>
      match current with
      | None => Ok (Some c)
      | Some cur =>
          ensure ((snapshot_position (object cur) != snapshot_position (object c)) || (cur == c))
            "conflicting snapshot witnesses";;
          Ok (Some (if position_lt (snapshot_position (object cur)) (snapshot_position (object c))
                    then c else cur))
      end
  end.

Section runtime.
Context `{JsonValue} `{!Json (Envelope StateSnapshot), !Json StateSnapshot, !Json LegacySnapshot}.
Context `{Digest} `{Base64} `{!Json Ownership}.

Definition stream (r : Ownership) : result StateStream :=
  name ← snapshot_object_name (own_actor r) 1 (pad 32 (show_hex (epoch r)));
  pre ← ctx (strip_suffix (b"1.json") name) "unreachable";
  Ok {| session := session_id (lease r); prefix := pre; stream_owner_epoch := epoch r;
        base_version := match base r with Some s => ref_state_version s | None => 0 end |}.

Definition write_plan (r : Ownership) (version : N) : result WritePlan :=
  ensure (0 <? version) "state version must be positive";;
  s ← stream r;
  Ok {| plan_stream := s; plan_state_version := version; object_name := stream_object s version |}.

Definition decode_snapshot (obj bs : bytes) : result LoadedSnapshot :=
  s ← snapshot_decode bs;
  ensure (bool_decide (snapshot_position obj = Some (owner_epoch s, state_version s)))
    "snapshot identity does not match its object";;
  Ok {| reference := snapshot_ref obj s bs; loaded_bytes := bs |}.

Definition decode_opt (o : option (bytes * bytes)) : result (option LoadedSnapshot) :=
  match o with
  | Some (key, bs) => s ← decode_snapshot key bs; Ok (Some s)
  | None => Ok None
  end.

Definition decode_ownership (config : SnapshotStoreConfig) (o : BucketObject) : result (Z * Ownership) :=
  record ← ctx (from_json (obj_bytes o)) "invalid ownership record";
  ensure (same_backend (persistence record) config)
    "actor persistence backend changed; an explicit state migration is required";;
  Ok (generation o, record).

(** ** Loading *)

Context (config : SnapshotStoreConfig) `{!SnapshotStore process}.

Definition read_persisted (obj : bytes) : prog process (option bytes) := ss_get obj.
Definition persist (obj bs : bytes) : prog process unit := ss_put obj bs.

Definition load (key : bytes) : prog process (option (Z * Ownership)) :=
  k ← lift (owner key);
  o ← bucket_get Authority k;
  match o with
  | Some obj => r ← lift (decode_ownership config obj); mret (Some r)
  | None => mret None
  end.

Definition load_latest (record : Ownership) (loaded : option LoadedSnapshot)
    : prog process (option LoadedSnapshot) :=
  candidate ← lift (advance (base record) (fmap (M:=option) reference loaded));
  match candidate with
  | Some s =>
      if decide (fmap (M:=option) reference loaded = Some s) then mret loaded
      else
        o ← read_persisted (object s);
        bs ← lift (ctx o "acknowledged snapshot is unavailable");
        lift (verify s bs);;
        mret (Some {| reference := s; loaded_bytes := bs |})
  | None => mret loaded
  end.

Definition latest (record : Ownership) (known : option LoadedSnapshot)
    : prog process (option LoadedSnapshot) :=
  s ← lift (stream record);
  o ← ss_latest (prefix s);
  found ← lift (decode_opt o);
  load_latest record (match found with Some _ => found | None => known end).

Definition current_placement (record : Ownership) : prog process ObjectPlacement :=
  s ← latest record None;
  mret (apply_snapshot (placement record) (fmap (M:=option) reference s)).

Definition get_owner_with_hint (key : bytes)
    : prog process (option ObjectPlacement * option OwnershipHint) :=
  o ← load key;
  mret (match o with
        | Some (g, record) =>
            (Some (placement record), Some {| hint_generation := g; hint_record := record |})
        | None => (None, None)
        end).

Definition get_placement (key : bytes) : prog process (option ObjectPlacement) :=
  o ← load key;
  match o with
  | Some (_, record) => p ← current_placement record; mret (Some p)
  | None => mret None
  end.

Definition read_snapshot (_region obj : bytes) : prog process bytes :=
  o ← read_persisted obj;
  lift (ctx o "snapshot unavailable").

(** ** What the process remembers *)

Definition remember_upload (record : Ownership) (s : LoadedSnapshot) (p : process) : process :=
  let u := upload_entry p (session_id (lease record)) in
  set_upload (session_id (lease record))
    {| started := started u; completed := completed u; up_latest := Some (reference s) |} p.

Definition remember_owned (record : Ownership) : process → process :=
  set_owned (insert (storage_key (own_actor record)) record).

Definition remember (record : Ownership) (snapshot : option LoadedSnapshot)
    : prog process LoadedActor :=
  match snapshot with
  | Some s => atomic (λ p, ((), remember_upload record s p))
  | None => mret ()
  end;;
  atomic (λ p, ((), remember_owned record p));;
  mret {| loaded_placement := apply_snapshot (placement record) (fmap (M:=option) reference snapshot);
          loaded_state := fmap (M:=option) loaded_bytes snapshot; loaded_checkpoint := None |}.

Definition load_actor (record : Ownership) : prog process LoadedActor :=
  s ← latest record None; remember record s.

Definition same_session (r : Ownership) (l : HostLease) : bool :=
  (lease_id (lease r) == lease_id l) && (session_id (lease r) == session_id l).

Definition activate_actor (actor : ActorKey) (l : HostLease) (reg : bytes) : prog process LoadedActor :=
  o ← load (storage_key actor);
  '(_, record) ← lift (ctx o "actor has no ownership");
  lift (ensure ((own_actor record == actor) && (region record == reg) && same_session record l)
          "actor ownership changed");;
  load_actor record.

Definition owned_actor (actor : ActorKey) (l : HostLease) (e : N) : prog process Ownership :=
  o ← load (storage_key actor);
  '(_, record) ← lift (ctx o "actor has no ownership");
  lift (ensure ((own_actor record == actor) && same_session record l && (epoch record =? e))
          "actor ownership changed");;
  mret record.

Definition load_owned_actor (actor : ActorKey) (l : HostLease) (e : N) : prog process LoadedActor :=
  record ← owned_actor actor l e; load_actor record.

Definition local_owned (key : bytes) : prog process (option Ownership) :=
  atomic (λ p, (owned p !! key, p)).

Definition prepare_actor_write (actor : ActorKey) (l : HostLease) (e version : N)
    : prog process WritePlan :=
  o ← local_owned (storage_key actor);
  record ← lift (ctx o "actor is not locally activated");
  lift (ensure (same_session record l && (epoch record =? e)) "actor ownership changed");;
  lift (write_plan record version).

(** ** The write path *)

Definition ensure_write_owner (plan : WritePlan) : prog process unit :=
  actor ← lift (actor_from_snapshot (object_name plan));
  o ← local_owned (storage_key actor);
  record ← lift (ctx o "actor is not locally activated");
  s ← lift (stream record);
  if decide (s = plan_stream plan) then
    now ← now_ms;
    lift (ensure (now <? expires_at_ms (lease record)) "actor write authority expired or changed")
  else lift (Err "actor write authority expired or changed").

Definition uploaded_latest (session : bytes) (p : SnapshotRef) : prog process bool :=
  atomic (λ l, (bool_decide ((u ← uploaded l !! session; up_latest u) = Some p), l)).

Definition upload_started (session : bytes) (p : process) : process :=
  let u := upload_entry p session in
  set_upload session {| started := started u + 1; completed := completed u; up_latest := up_latest u |} p.

Definition upload_completed (session : bytes) (s : SnapshotRef) (p : process) : result unit * process :=
  let u := upload_entry p session in
  match advance (up_latest u) (Some s) with
  | Ok latest => (Ok (), set_upload session
      {| started := started u; completed := completed u + 1; up_latest := latest |} p)
  | Err e => (Err e, set_upload session u p)
  end.

(** [Ok ()] is [StateWrite::Written]. *)
Definition write_snapshot (plan : WritePlan) (bs : bytes) : prog process unit :=
  ensure_write_owner plan;;
  s ← lift (stream_snapshot (plan_stream plan) bs);
  lift (ensure ((object s == object_name plan) && (ref_state_version s =? plan_state_version plan))
          "write plan does not match snapshot");;
  commit ← lift (snapshot_decode bs);
  match parent (sqlite commit) with
  | Some p =>
      known ← uploaded_latest (session (plan_stream plan)) p;
      if (known : bool) then mret ()
      else
        o ← read_persisted (object p);
        pbs ← lift (ctx o "SQLite dependency missing");
        lift (verify p pbs)
  | None => mret ()
  end;;
  atomic (λ l, ((), upload_started (session (plan_stream plan)) l));;
  persist (object s) bs;;
  ensure_write_owner plan;;
  r ← atomic (upload_completed (session (plan_stream plan)) s);
  lift r.

(** ** Draining a session *)

Definition upload_checkpoint (record : Ownership) (p : process) : result (option SnapshotRef) :=
  match uploaded p !! session_id (lease record) with
  | Some u =>
      ensure (started u =? completed u) "snapshot uploads did not complete successfully";;
      advance (base record) (up_latest u)
  | None => Ok (base record)
  end.

(** The result is the snapshot of a [SessionCheckpoint]. *)
Definition drain_activation (actor : ActorKey) (host sess : bytes) : prog process (option SnapshotRef) :=
  o ← local_owned (storage_key actor);
  record ← lift (ctx o "actor is not locally activated");
  lift (ensure ((lease_id (lease record) == host) && (session_id (lease record) == sess))
          "actor ownership changed");;
  checkpoint ← atomic (λ p, (upload_checkpoint record p, p));
  checkpoint ← lift checkpoint;
  s ← lift (stream record);
  ss_finish s;;
  mret checkpoint.

End runtime.
