(* ===== verification/Activation.v ===== *)
(** * Activation, renewal and release of ownership
    ([src/src/bucket/runtime/activation.rs])

    A host claims an actor by replacing its ownership record with one of the next
    epoch, after the previous lease has expired and with the previous owner's
    state recovered. Every change is one conditional write. *)

From S2P Require Import Prelude Text Demo Names Payload StateLog Effects Concurrency Buckets Recovery Runtime.
Local Open Scope N_scope.

Section activation.
Context `{JsonValue} `{!Json (Envelope StateSnapshot), !Json StateSnapshot, !Json LegacySnapshot}.
Context `{Digest} `{Base64} `{!Json Ownership}.
Context (config : SnapshotStoreConfig) `{!SnapshotStore process}.

Record ActivationRecovery := {
  rec_snapshot : option LoadedSnapshot;
  rec_checkpoint : option PrefetchedCheckpoint;
}.

(** ** The ownership record *)

Definition new_lease (req : HostLeaseRequest) : prog process HostLease :=
  lift (validate_duration req);;
  lift (ensure ((req_id req != []) && (req_session_id req != [])) "activation identity missing");;
  now ← now_ms;
  e ← lift (ctx (checked_add now (duration_ms req)) "lease expiration overflow");
  mret {| lease_id := req_id req; session_id := req_session_id req; route := req_route req;
          expires_at_ms := e |}.

Definition set_mutation (m : bytes) (r : Ownership) : Ownership :=
  {| persistence := persistence r; sealed := sealed r; lease := lease r; mutation := m;
     own_actor := own_actor r; epoch := epoch r; region := region r; base := base r |}.

Definition set_base (s : option SnapshotRef) (r : Ownership) : Ownership :=
  {| persistence := persistence r; sealed := sealed r; lease := lease r; mutation := mutation r;
     own_actor := own_actor r; epoch := epoch r; region := region r; base := s |}.

Definition set_sealed (c : bool) (r : Ownership) : Ownership :=
  {| persistence := persistence r; sealed := c; lease := lease r; mutation := mutation r;
     own_actor := own_actor r; epoch := epoch r; region := region r; base := base r |}.

(** The record comes back with the mutation it was written with. *)
Definition replace_activation (record : Ownership) (gen : option Z) : prog process (Ownership * bool) :=
  m ← new_uuid;
  let record := set_mutation m record in
  k ← lift (owner (storage_key (own_actor record)));
  bs ← lift (payload_encode record);
  c ← replace Authority k gen bs;
  mret (record, c).

Definition save_activation (record : Ownership) (gen : option Z) : prog process Ownership :=
  '(record, c) ← replace_activation record gen;
  lift (ensure c "actor activation changed concurrently");;
  mret record.

Definition different_session (r : Ownership) (req : HostLeaseRequest) : bool :=
  (lease_id (lease r) != req_id req) || (session_id (lease r) != req_session_id req).

Definition validate_activation (actor : ActorKey) (req : HostLeaseRequest) (reg : bytes)
    (current : option Ownership) : prog process unit :=
  match current with
  | None => mret ()
  | Some record =>
      lift (ensure (same_backend (persistence record) config)
        "actor persistence configuration changed; an explicit state migration is required");;
      lift (ensure ((own_actor record == actor) && (region record == reg)) "ownership scope cannot change");;
      lift (ensure (different_session record req) "activation session cannot be reused");;
      now ← now_ms;
      lift (ensure (expires_at_ms (lease record) <=? now) "previous owner lease is still active")
  end.

Definition activation_record (actor : ActorKey) (req : HostLeaseRequest) (reg : bytes)
    (current : option Ownership) : prog process Ownership :=
  e ← lift (ctx (match current with Some r => checked_add (epoch r) 1 | None => Some 1 end)
              "owner epoch overflow");
  l ← new_lease req;
  mret {| persistence := config; sealed := false; lease := l; mutation := []; own_actor := actor;
          epoch := e; region := reg; base := current ≫= base |}.

(** ** Recovering the previous owner's state *)

Definition load_activation_snapshot (record : Ownership) : prog process ActivationRecovery :=
  s ← load_latest record None;
  mret {| rec_snapshot := s; rec_checkpoint := None |}.

Definition prefetch_activation_checkpoint (record : Ownership)
    : prog process (option PrefetchedCheckpoint) :=
  match base record with
  | Some r =>
      c ← attempt (ss_prefetch_checkpoint r);
      mret (match c with Ok c => c | Err _ => None end)
  | None => mret None
  end.

Definition with_checkpoint (r : ActivationRecovery) (c : option PrefetchedCheckpoint)
    : ActivationRecovery := {| rec_snapshot := rec_snapshot r; rec_checkpoint := c |}.

Definition needs_checkpoint (r : ActivationRecovery) : result bool :=
  match rec_snapshot r with
  | Some s => c ← snapshot_decode (loaded_bytes s); Ok (bool_decide (parent (sqlite c) ≠ None))
  | None => Ok false
  end.

Definition recover_sealed_activation (record : Ownership) : prog process ActivationRecovery :=
  select
    (λ r checkpoint,
      recovery ← lift r;
      needed ← lift (needs_checkpoint recovery);
      if needed : bool then c ← checkpoint; mret (with_checkpoint recovery c)
      else mret recovery)
    (λ snapshot r, recovery ← snapshot; c ← lift r; mret (with_checkpoint recovery c))
    (load_activation_snapshot record)
    (prefetch_activation_checkpoint record).

Definition recover_activation (current : option Ownership) : prog process ActivationRecovery :=
  match current with
  | None => mret {| rec_snapshot := None; rec_checkpoint := None |}
  | Some record =>
      if sealed record then recover_sealed_activation record
      else
        s ← lift (stream record);
        o ← ss_recover (prefix s);
        recovered ← lift (decode_opt o);
        snapshot ← load_latest record recovered;
        mret {| rec_snapshot := snapshot; rec_checkpoint := None |}
  end.

(** ** Release *)

Definition released (record : Ownership) (checkpoint : option (option SnapshotRef)) : Ownership :=
  let l := lease record in
  let record := set_lease {| lease_id := lease_id l; session_id := session_id l; route := route l;
                             expires_at_ms := 0 |} record in
  match checkpoint with
  | Some s => set_sealed true (set_base s record)
  | None => record
  end.

(** [checkpoint] is the snapshot of the [SessionCheckpoint], if there is one. *)
Fixpoint release_loop (turns : nat) (actor : ActorKey) (host sess : bytes)
    (checkpoint : option (option SnapshotRef)) : prog process unit :=
  match turns with
  | O => lift (Err "actor activation kept changing during release")
  | S turns =>
      o ← load config (storage_key actor);
      match o with
      | None => mret ()
      | Some (g, record) =>
          if (lease_id (lease record) != host) || (session_id (lease record) != sess)
             || (expires_at_ms (lease record) =? 0)
          then mret ()
          else
            '(_, c) ← replace_activation (released record checkpoint) (Some g);
            if c : bool then mret () else release_loop turns actor host sess checkpoint
      end
  end.

Definition release_with_checkpoint (actor : ActorKey) (host sess : bytes)
    (checkpoint : option (option SnapshotRef)) : prog process unit :=
  release_loop 3 actor host sess checkpoint.

Definition release_activation (actor : ActorKey) (host sess : bytes) : prog process unit :=
  release_with_checkpoint actor host sess None.

(** ** Renewal *)

Definition renew_local (key : bytes) (e : N) (l : HostLease) (p : process) : result unit * process :=
  match owned p !! key with
  | Some mine =>
      if epoch mine =? e then (Ok (), set_owned (insert key (set_lease l mine)) p)
      else (Err "local ownership epoch changed", p)
  | None => (Ok (), p)
  end.

Definition renew_activation (actor : ActorKey) (req : HostLeaseRequest) : prog process HostLease :=
  o ← load config (storage_key actor);
  '(g, record) ← lift (ctx o "actor ownership missing");
  lift (ensure ((own_actor record == actor) && (lease_id (lease record) == req_id req)
                && (session_id (lease record) == req_session_id req)) "actor ownership changed");;
  now ← now_ms;
  lift (ensure (now <? expires_at_ms (lease record)) "expired activation cannot renew");;
  lift (ensure (route (lease record) == req_route req) "activation route cannot change");;
  l ← new_lease req;
  record ← save_activation (set_lease l record) (Some g);
  r ← atomic (renew_local (storage_key actor) (epoch record) l);
  lift r;;
  mret l.

(** ** Activation *)

(** A hint is used only when it names a sealed, expired record of another session. *)
Definition usable_hint (actor : ActorKey) (req : HostLeaseRequest) (reg : bytes) (now : N)
    (hint : OwnershipHint) : bool :=
  let r := hint_record hint in
  sealed r && (0 <? hint_generation hint)%Z && (own_actor r == actor) && (region r == reg)
  && (expires_at_ms (lease r) <=? now) && different_session r req.

(** The claim, and the state recovered for it: concurrently when the previous
    state is immutable, before the claim otherwise. *)
Definition recover_and_claim (current : option (Z * Ownership)) (record : Ownership)
    : prog process (result ActivationRecovery * (Ownership * bool)) :=
  let previous := fmap (M:=option) snd current in
  let gen := fmap (M:=option) fst current in
  if match previous with None => true | Some r => sealed r end then
    '(recovery, claimed) ← join (recover_activation previous) (replace_activation record gen);
    claimed ← lift claimed;
    mret (recovery, claimed)
  else
    recovery ← recover_activation previous;
    claimed ← replace_activation
                (set_base (fmap (M:=option) reference (rec_snapshot recovery)) record) gen;
    mret (Ok recovery, claimed).

(** One turn of the loop over [[owner_hint, None]]; [None] is [continue]. *)
Definition activation_turn (actor : ActorKey) (req : HostLeaseRequest) (reg : bytes)
    (new_actor : bool) (owner_hint hint : option OwnershipHint) : prog process (option LoadedActor) :=
  current ← match hint with
            | Some h => mret (Some (hint_generation h, hint_record h))
            | None =>
                if new_actor && match owner_hint with None => true | Some _ => false end
                then mret None
                else load config (storage_key actor)
            end;
  let previous := fmap (M:=option) snd current in
  validate_activation actor req reg previous;;
  record ← activation_record actor req reg previous;
  '(recovery, (record, replaced)) ← recover_and_claim current record;
  if negb replaced then
    lift (ensure (match hint with Some _ => true | None => false end)
            "actor activation changed concurrently");;
    mret None
  else
    match recovery with
    | Err e =>
        attempt (release_with_checkpoint actor (req_id req) (req_session_id req) (Some (base record)));;
        lift (Err e)
    | Ok recovery =>
        s ← lift (stream record);
        ss_start s;;
        loaded ← remember record (rec_snapshot recovery);
        mret (Some {| loaded_placement := loaded_placement loaded; loaded_state := loaded_state loaded;
                      loaded_checkpoint := rec_checkpoint recovery |})
    end.

Definition register_activation (actor : ActorKey) (req : HostLeaseRequest) (reg : bytes)
    (new_actor : bool) (owner_hint : option OwnershipHint) : prog process LoadedActor :=
  lift (validate_actor actor);;
  lift (validate_region reg);;
  lift (validate_duration req);;
  now ← now_ms;
  let owner_hint := match owner_hint with
                    | Some h => if usable_hint actor req reg now h then Some h else None
                    | None => None
                    end in
  r ← activation_turn actor req reg new_actor owner_hint owner_hint;
  match r with
  | Some loaded => mret loaded
  | None =>
      r ← activation_turn actor req reg new_actor owner_hint None;
      match r with
      | Some loaded => mret loaded
      | None => lift (Err "actor activation changed concurrently")
      end
  end.

End activation.
