(* ===== verification/Ownership.v ===== *)
(** * The ownership protocol

    What every storage operation of a host process guarantees to all the others,
    whatever runs concurrently and whatever fails: objects are only ever added or
    replaced by a newer generation, state objects are immutable, and an ownership
    record changes only by a first activation, a takeover after the lease expired,
    a renewal or a release ([own_step]). *)

From S2P Require Import Prelude Text Demo Names Payload StateLog Effects Concurrency Buckets Recovery Runtime Activation.
Local Open Scope N_scope.

(** ** Generic facts *)

Lemma payload_encode_Ok `{Json A} (v : A) bs : payload_encode v = Ok bs → bs = to_json v.
Proof.
  unfold payload_encode, spool_all. intros Hs.
  pose proof (write_all_concat [to_json v] spool_new [] spool_new_inv) as Hw.
  simpl in Hw. rewrite app_nil_r in Hw. case_match.
  - destruct Hw as (s & E & Hs'). simpl in Hs. rewrite E in Hs. simpl in Hs. injection Hs as <-.
    apply (si_contents _ _ Hs').
  - simpl in Hs. by rewrite Hw in Hs.
Qed.

(** ** How the shared storage evolves *)

Definition state_key (k : bytes) : Prop := (ROOT ++ b"snapshots/") `prefix_of` k.

Section evolves.
Context {L : Type}.
Implicit Types w : world L.

Definition last_write w (i : bucket_id) (k : bytes) : option N := fst <$> head (writes w i k).

(** A newer object, or a first one; a state object is never replaced. *)
Definition rewritten w1 w2 (i : bucket_id) (k : bytes) : Prop :=
  ∃ o t l, stored w2 i k = Some o ∧ writes w2 i k = (t, obj_bytes o) :: l ∧ clock w1 ≤ t ≤ clock w2 ∧
    (∀ old, stored w1 i k = Some old → (generation old < generation o)%Z ∧ ¬ state_key k).

(** Objects stay or are rewritten, and what was once written was written for good. *)
Definition evolves w1 w2 : Prop :=
  clock w1 ≤ clock w2 ∧
  ∀ i k, writes w1 i k `suffix_of` writes w2 i k ∧
    ((stored w2 i k = stored w1 i k ∧ writes w2 i k = writes w1 i k) ∨ rewritten w1 w2 i k).

#[global] Instance evolves_preorder : PreOrder evolves.
Proof.
  split.
  - intros w. split; [lia|]. split; [done|]. by left.
  - intros w1 w2 w3 [Hc1 H1] [Hc2 H2]. split; [lia|]. intros i k.
    destruct (H1 i k) as [Hl1 H1'], (H2 i k) as [Hl2 H2']. split; [by transitivity (writes w2 i k)|].
    destruct H2' as [[E2 L2]|(o & t & l & Ho & Ht & Hle & Hold)].
    + destruct H1' as [[E1 L1]|(o & t & l & Ho & Ht & Hle & Hold)]; [left; split; congruence|].
      right. exists o, t, l. rewrite E2, L2. split_and!; [done|done|lia|lia|done].
    + right. exists o, t, l. split_and!; [done|done|lia|lia|]. intros old Hs.
      destruct H1' as [[E1 _]|(o1 & t1 & l1 & Ho1 & _ & _ & Hold1)]; [apply Hold; congruence|].
      destruct (Hold1 _ Hs), (Hold _ Ho1). split; [lia|done].
Qed.

Lemma evolves_same w1 w2 :
  clock w1 ≤ clock w2 → buckets w2 = buckets w1 → write_log w2 = write_log w1 → evolves w1 w2.
Proof.
  intros Hc Hb Hw. split; [done|]. intros i k. unfold stored, writes. rewrite Hb, Hw. split; [done|by left].
Qed.

Lemma stored_put_object w i k o j k' :
  stored (put_object w i k o) j k' = if decide ((i, k) = (j, k')) then Some o else stored w j k'.
Proof. unfold stored. simpl. by rewrite lookup_insert. Qed.

Lemma writes_put_object w i k o j k' :
  writes (put_object w i k o) j k' =
  if decide ((i, k) = (j, k')) then (clock w, obj_bytes o) :: writes w i k else writes w j k'.
Proof. unfold writes at 1. simpl. rewrite lookup_insert. by case_decide. Qed.

Lemma evolves_cas w w' i k e bs :
  cas_applied w w' i k e bs → (e = None ∨ ¬ state_key k) → evolves w w'.
Proof.
  intros (He & g & Hg & Hold & ->) Hk. split; [done|]. intros j k'. unfold rewritten.
  rewrite stored_put_object, writes_put_object. case_decide as E; [|split; [done|by left]].
  injection E as <- <-. split; [by apply suffix_cons_r|]. right. eexists _, _, _. split_and!; [done|done|done|done|].
  intros old Hs. simpl. split; [by apply Hold|]. destruct Hk as [->|]; [|done].
  by rewrite Hs in He.
Qed.

(** An object stays, or a newer one takes its place. *)
Lemma evolves_stored w1 w2 i k o :
  evolves w1 w2 → stored w1 i k = Some o →
  ∃ o', stored w2 i k = Some o' ∧ (o' = o ∨ (generation o < generation o')%Z).
Proof.
  intros [_ He] Hs. destruct (He i k) as [_ [[E _]|(o' & t & l & Ho' & _ & _ & Hold)]].
  - exists o. split; [congruence|by left].
  - exists o'. destruct (Hold _ Hs). eauto.
Qed.

Lemma evolves_state_key w1 w2 i k o :
  evolves w1 w2 → state_key k → stored w1 i k = Some o →
  stored w2 i k = Some o ∧ last_write w2 i k = last_write w1 i k.
Proof.
  intros [_ He] Hk Hs. destruct (He i k) as [_ [[E Hl]|(o' & t & l & Ho' & _ & _ & Hold)]].
  - unfold last_write. rewrite Hl. split; [congruence|done].
  - by destruct (Hold _ Hs).
Qed.

(** What was written before the clock reached [t] was already there. *)
Lemma evolves_before w1 w2 i k o t :
  evolves w1 w2 → stored w2 i k = Some o → last_write w2 i k = Some t → t < clock w1 →
  stored w1 i k = Some o ∧ last_write w1 i k = Some t.
Proof.
  intros [_ He] Hs Ht Hlt. unfold last_write in *.
  destruct (He i k) as [_ [[E Hl]|(o' & t' & l & Ho' & Ht' & Hle & _)]].
  - rewrite <- Hl. split; congruence.
  - rewrite Ht' in Ht. simplify_eq/=. lia.
Qed.

Lemma evolves_written w1 w2 i k x : evolves w1 w2 → x ∈ writes w1 i k → x ∈ writes w2 i k.
Proof. intros [_ He]. destruct (He i k) as [[l ->] _]. set_solver. Qed.
End evolves.

(** ** Ownership records *)

(** What it is for a state object to be kept, in the sense of the snapshot store in
    use: before time [t], and with which content. *)
Class KeptBefore := {
  kept_before : world process → bytes → N → Prop;
  kept_bytes : world process → bytes → bytes → Prop;
}.

Section protocol.
Context `{Digest} `{Base64} `{!Json Ownership} `{!KeptBefore}.
Implicit Types w : world process.

Definition owner_key (k : bytes) : Prop := ∃ key, owner key = Ok k.

(** The names commits are stored under. *)
Definition state_name (k : bytes) : Prop :=
  ∃ a e v, snapshot_object_name a v (pad 32 (show_hex e)) = Ok k.

Definition recorded w (k : bytes) : option Ownership :=
  o ← stored w Authority k; from_json (obj_bytes o).

Record record_ok (k : bytes) (r : Ownership) : Prop := {
  ro_key : owner (storage_key (own_actor r)) = Ok k;
  ro_epoch : 1 ≤ epoch r;
  ro_sealed : sealed r = true → expires_at_ms (lease r) = 0;
}.

(** A lease never reaches further than the longest duration a request may ask for. *)
Definition lease_bound (now : N) (l : HostLease) : Prop :=
  expires_at_ms l ≤ now + MAX_HOST_LEASE_DURATION_MS.

Definition position (s : option SnapshotRef) : option (N * N) :=
  r ← s; snapshot_position (object r).

Definition position_le (p q : option (N * N)) : Prop := position_lt q p = false.

(** [s] is at least as new as every commit of [old]'s stream that was kept before
    [old]'s lease expired. *)
Definition covers w (old : Ownership) (s : option SnapshotRef) : Prop :=
  ∀ st v, is_u64 v → stream old = Ok st → kept_before w (stream_object st v) (expires_at_ms (lease old)) →
    position_le (Some (epoch old, v)) (position s).

Inductive own_step w : option Ownership → Ownership → Prop :=
| own_first r :
    epoch r = 1 → sealed r = false → base r = None → lease_bound (clock w) (lease r) →
    own_step w None r
| own_take old r :
    expires_at_ms (lease old) ≤ clock w →
    epoch r = epoch old + 1 → sealed r = false → lease_bound (clock w) (lease r) →
    own_actor r = own_actor old → region r = region old →
    same_backend (persistence old) (persistence r) = true →
    (lease_id (lease r), session_id (lease r)) ≠ (lease_id (lease old), session_id (lease old)) →
    (if sealed old then base r = base old
     else position_le (position (base old)) (position (base r)) ∧ covers w old (base r)) →
    own_step w (Some old) r
| own_renew old l m :
    sealed old = false → lease_bound (clock w) l → lease_id l = lease_id (lease old) →
    session_id l = session_id (lease old) → route l = route (lease old) →
    own_step w (Some old) (set_mutation m (set_lease l old))
| own_release old checkpoint m :
    expires_at_ms (lease old) ≠ 0 →
    own_step w (Some old) (set_mutation m (released old checkpoint)).

(** Every object under an owner's key is a record for that key, every state object
    has a commit's name, and an object holds what was written last, not in the
    future. *)
Definition own_inv w : Prop :=
  (∀ k o, owner_key k → stored w Authority k = Some o →
     ∃ r, from_json (obj_bytes o) = Some r ∧ record_ok k r) ∧
  (∀ k o v, state_key k → stored w Authority k = Some o → object_version k = Some v → state_name k) ∧
  (∀ i k o, stored w i k = Some o → ∃ t l, writes w i k = (t, obj_bytes o) :: l ∧ t ≤ clock w).

(** The authority bucket holds the record [r], or has held it. *)
Definition was_recorded w (key : bytes) (r : Ownership) : Prop :=
  ∃ k t bs, owner key = Ok k ∧ (t, bs) ∈ writes w Authority k ∧ from_json bs = Some r.

(** What a process remembers of an actor it owns agrees with a record the bucket has
    held, in its epoch and its lease. *)
Definition remembered w (key : bytes) (r : Ownership) : Prop :=
  ∃ r0, was_recorded w key r0 ∧ epoch r0 = epoch r ∧ lease r0 = lease r.

Definition local_inv w : Prop := ∀ key r, owned (local w) !! key = Some r → remembered w key r.

Definition guar w1 w2 : Prop :=
  evolves w1 w2 ∧
  (∀ k o, owner_key k → stored w2 Authority k = Some o →
     stored w1 Authority k = Some o ∨
     ∃ r, from_json (obj_bytes o) = Some r ∧ record_ok k r ∧ own_step w1 (recorded w1 k) r) ∧
  (∀ k o v, state_key k → stored w2 Authority k = Some o → object_version k = Some v →
     stored w1 Authority k = Some o ∨ state_name k) ∧
  (∀ key r, owned (local w2) !! key = Some r → owned (local w1) !! key = Some r ∨ remembered w2 key r).

Definition rely w1 w2 : Prop :=
  evolves w1 w2 ∧ (own_inv w1 → own_inv w2) ∧ (local_inv w1 → local_inv w2).

#[global] Instance rely_preorder : PreOrder rely.
Proof.
  split.
  - intros w. by split_and!.
  - intros w1 w2 w3 (E1 & I1 & L1) (E2 & I2 & L2). split_and!; [by transitivity w2|auto..].
Qed.

Lemma was_recorded_evolves w w' key r : evolves w w' → was_recorded w key r → was_recorded w' key r.
Proof. intros He (k & t & bs & Hk & Hin & Hr). exists k, t, bs. eauto using evolves_written. Qed.

Lemma was_recorded_later w w' key r : rely w w' → was_recorded w key r → was_recorded w' key r.
Proof. intros [He _]. by apply was_recorded_evolves. Qed.

Lemma remembered_evolves w w' key r : evolves w w' → remembered w key r → remembered w' key r.
Proof. intros He (r0 & Hr & E). exists r0. split; [by eapply was_recorded_evolves|done]. Qed.

(** What is stored has been recorded. *)
Lemma stored_was_recorded w key k o r :
  own_inv w → owner key = Ok k → stored w Authority k = Some o → from_json (obj_bytes o) = Some r →
  was_recorded w key r.
Proof.
  intros (_ & _ & I3) Hk Ho Hr. destruct (I3 _ _ _ Ho) as (t & l & Hw & _).
  exists k, t, (obj_bytes o). split_and!; [done|rewrite Hw; apply list_elem_of_here|done].
Qed.

Lemma evolves_inv w1 w2 :
  evolves w1 w2 → own_inv w1 →
  ∀ i k o, stored w2 i k = Some o → ∃ t l, writes w2 i k = (t, obj_bytes o) :: l ∧ t ≤ clock w2.
Proof.
  intros [Hc He] (_ & _ & I3) i k o Hs. destruct (He i k) as [_ [[E L]|(o' & t & l & Ho & Ht & Hle & _)]].
  - rewrite E in Hs. rewrite L. destruct (I3 _ _ _ Hs) as (t & l & Ht & Hle). exists t, l. split; [done|lia].
  - exists t, l. split; [congruence|lia].
Qed.

Lemma guar_rely w1 w2 : guar w1 w2 → rely w1 w2.
Proof.
  intros (He & Ho & Hn & Hl). split_and!; [done| |].
  - intros Hi. pose proof (evolves_inv _ _ He Hi) as I3. destruct Hi as (I1 & I2 & _). split_and!; [| |done].
    + intros k o Hk Hs. destruct (Ho k o Hk Hs) as [Hs1|(r & Hr & Hok & _)]; eauto.
    + intros k o v Hk Hs Hv. destruct (Hn k o v Hk Hs Hv); eauto.
  - intros Hi key r Hr. destruct (Hl key r Hr) as [Hr1|]; [|done]. eapply remembered_evolves; [done|by apply Hi].
Qed.

(** What another process sees of a step. *)
Lemma guar_rely_other w1 w2 l1 l2 m :
  guar (set_local w1 l1) (set_local w2 l2) → rely (set_local w1 m) (set_local w2 m).
Proof.
  intros HG. destruct (guar_rely _ _ HG) as (He & Hi & _). split_and!; [exact He|exact Hi|].
  intros Hl key r Hr. eapply (remembered_evolves (set_local w1 m)); [exact He|by apply Hl].
Qed.

Lemma guar_same w1 w2 :
  clock w2 = clock w1 → buckets w2 = buckets w1 → write_log w2 = write_log w1 →
  owned (local w2) = owned (local w1) → guar w1 w2.
Proof.
  intros Hc Hb Hw Hl. split; [apply evolves_same; [lia|done..]|].
  unfold stored. rewrite Hb, Hl. split_and!; by left.
Qed.

(** A program that keeps the invariant, whatever it runs next to. *)
Definition safe {A} (p : prog process A) (Q : A → world process → Prop) w : Prop :=
  own_inv w → wp rely guar p (λ r w', own_inv w' ∧ ∀ a, r = Ok a → Q a w') w.

Definition quiet {A} (p : prog process A) : Prop := ∀ w, safe p (λ _ _, True) w.

Lemma inv_stable : stable rely own_inv.
Proof. intros w w' Hw (_ & HR & _). auto. Qed.

Lemma local_inv_stable : stable rely local_inv.
Proof. intros w w' Hw (_ & _ & HR). auto. Qed.

Lemma safe_ret {A} (a : A) (Q : A → world process → Prop) w : Q a w → safe (mret a) Q w.
Proof. intros HQ Hw. simpl. split; [done|]. by intros ? [= <-]. Qed.

Lemma safe_err {A} e (Q : A → world process → Prop) w : safe (lift (Err e)) Q w.
Proof. intros Hw. by split. Qed.

Lemma safe_lift {A} (r : result A) (Q : A → world process → Prop) w :
  (∀ a, r = Ok a → Q a w) → safe (lift r) Q w.
Proof. intros HQ Hw. split; [done|]. auto. Qed.

Lemma safe_bind_lift {A B} (r : result A) (f : A → prog process B) Q w :
  (∀ a, r = Ok a → safe (f a) Q w) → safe (lift r ≫= f) Q w.
Proof. intros HQ Hw. apply wp_bind_lift; [by split|]. intros a Ha. by apply HQ. Qed.

Lemma safe_bind {A B} (p : prog process A) (f : A → prog process B) Q Q' w :
  safe p Q w → (∀ a w', rely w w' → Q a w' → safe (f a) Q' w') → safe (p ≫= f) Q' w.
Proof.
  intros Hp Hf Hw. apply wp_bind. eapply wp_mono; [apply (wp_reach rely guar); [exact guar_rely|by apply Hp]|].
  intros [a|e] w' [[Hw' HQ] HR]; [by eapply Hf; eauto|by split].
Qed.

Lemma safe_mono {A} (p : prog process A) (Q Q' : A → world process → Prop) w :
  safe p Q w → (∀ a w', rely w w' → Q a w' → Q' a w') → safe p Q' w.
Proof.
  intros Hp HQ Hw. eapply wp_mono; [apply (wp_reach rely guar); [exact guar_rely|by apply Hp]|].
  intros r w' [[Hw' Hq] HR]. split; [done|]. intros a ->. auto.
Qed.

(** The invariant may be assumed. *)
Lemma safe_inv {A} (p : prog process A) (Q : A → world process → Prop) w :
  (own_inv w → safe p Q w) → safe p Q w.
Proof. intros Hp Hw. by apply Hp. Qed.

Lemma safe_quiet {A} (p : prog process A) w : quiet p → safe p (λ _ _, True) w.
Proof. auto. Qed.

Lemma safe_yields {A} (p : prog process A) (Q : A → world process → Prop) (Q' : result A → Prop) w :
  safe p Q w → yields p Q' → safe p (λ a w', Q a w' ∧ Q' (Ok a)) w.
Proof.
  intros Hp Hy Hw. eapply wp_mono; [apply wp_with_yields; [by apply Hp|exact Hy]|].
  intros r w' [[? HQ] HQ']. split; [done|]. intros a ->. auto.
Qed.

Lemma quiet_bind {A B} (p : prog process A) (f : A → prog process B) :
  quiet p → (∀ a, quiet (f a)) → quiet (p ≫= f).
Proof. intros Hp Hf w. eapply safe_bind; [apply Hp|]. intros. apply Hf. Qed.

Lemma quiet_lift {A} (r : result A) : quiet (lift r).
Proof. intros w. by apply safe_lift. Qed.

Lemma quiet_ret {A} (a : A) : quiet (mret a).
Proof. intros w. by apply safe_ret. Qed.

Lemma quiet_attempt {A} (p : prog process A) : quiet p → quiet (attempt p).
Proof.
  intros Hp w Hw. apply wp_attempt. eapply wp_mono; [by apply Hp|]. intros r w' [? _]. by split.
Qed.

(** ** Operations *)

Lemma safe_op (o : op process) (Q : resp o → world process → Prop) w :
  (∀ w1 x w2, own_inv w1 → rely w w1 → step o w1 x w2 → guar w1 w2 ∧ ∀ a, x = Ok a → Q a w2) →
  safe (perform o) Q w.
Proof.
  intros Ho Hw. apply wp_perform. intros w1 HR x w2 Hs. pose proof (inv_stable _ _ Hw HR) as Hw1.
  destruct (Ho w1 x w2 Hw1 HR Hs) as [HG HQ]. split; [done|]. split; [|done].
  by apply (inv_stable _ _ Hw1), guar_rely.
Qed.

Lemma safe_get i k w : safe (bucket_get i k) (λ x w', x = stored w' i k) w.
Proof. apply safe_op. intros w1 x w2 _ _ [-> Hx]. split; [by apply guar_same|done]. Qed.

Lemma safe_list i pre w : safe (bucket_list i pre) (λ ks w', ks = bucket_names w' i pre) w.
Proof. apply safe_op. intros w1 x w2 _ _ [-> Hx]. split; [by apply guar_same|done]. Qed.

Lemma safe_now w : safe now_ms (λ t w', t = clock w') w.
Proof. apply safe_op. intros w1 x w2 _ _ [-> Hx]. split; [by apply guar_same|done]. Qed.

Lemma quiet_uuid : quiet new_uuid.
Proof. intros w. apply safe_op. intros w1 x w2 _ _ [-> ->]. split; [by apply guar_same|done]. Qed.

Lemma quiet_atomic {X} (f : process → X * process) : (∀ p, owned (f p).2 = owned p) → quiet (atomic f).
Proof. intros Hf w. apply safe_op. intros w1 x w2 _ _ [-> ->]. split; [by apply guar_same, Hf|done]. Qed.

(** A critical section that may also remember a record the bucket has held. *)
Lemma safe_atomic_owned {X} (f : process → X * process) w :
  (∀ p key r, owned (f p).2 !! key = Some r → owned p !! key = Some r ∨ remembered w key r) →
  safe (atomic f) (λ _ _, True) w.
Proof.
  intros Hf. apply safe_op. intros w1 x w2 _ [HR _] [-> ->]. split; [|done].
  split; [by apply evolves_same|]. split_and!; [by left..|]. intros key r Hr.
  destruct (Hf _ _ _ Hr) as [|Hm]; [by left|right]. by apply (remembered_evolves w).
Qed.

Lemma deadline_go_inv {A} e (p : prog process A) w :
  own_inv w → wp rely guar p (λ _ w', own_inv w') w →
  wp rely guar (deadline_go e p) (λ _ w', own_inv w') w.
Proof.
  revert w; induction p as [r|o k IH]; intros w Hw Hp; simpl; [done|].
  intros w1 HR x w2 Hs. destruct (Hp w1 HR x w2 Hs) as [HG Hk]. split; [done|].
  assert (own_inv w2) as Hw2 by (eapply inv_stable; [by eapply inv_stable|by apply guar_rely]).
  intros w3 HR3 t w4 [-> [c ->]]. split; [by apply guar_same|].
  pose proof (inv_stable _ _ Hw2 HR3) as Hw3. destruct c; [done|]. apply IH; [done|].
  eapply (wp_interfere rely guar); [intros r; exact inv_stable|exact Hk|done].
Qed.

Lemma quiet_deadline {A} e (p : prog process A) : quiet p → quiet (deadline e p).
Proof.
  intros Hp w Hw. cbn [deadline wp]. intros w1 HR t w2 [-> [c ->]].
  pose proof (inv_stable _ _ Hw HR) as Hw1. split; [by apply guar_same|]. destruct c; [by split|].
  eapply wp_mono; [apply deadline_go_inv; [done|]|by split].
  eapply wp_mono; [by apply Hp|]. by intros r w' [? _].
Qed.

Lemma owner_key_not_state k : owner_key k → ¬ state_key k.
Proof.
  intros [key Hk] [t Ht]. unfold owner in Hk. apply bind_Ok in Hk as (a & _ & Hk).
  injection Hk as <-. discriminate Ht.
Qed.

Lemma state_name_key k : state_name k → state_key k.
Proof.
  intros (a & e & v & Hk). unfold snapshot_object_name, snapshots in Hk. inv_ok. subst.
  eexists. rewrite <- !app_assoc. reflexivity.
Qed.

(** A conditional write that creates a state object. *)
Lemma quiet_create i k bs :
  state_key k → (state_name k ∨ object_version k = None) → quiet (bucket_cas i k None bs).
Proof.
  intros Hk Hn w. apply safe_op. intros w1 x w2 _ _ Hs. split; [|done].
  destruct Hs as [Hc|[-> _]]; [|by apply guar_same].
  split; [by eapply evolves_cas; eauto|]. destruct Hc as (_ & g & _ & _ & ->).
  split_and!; [| |by left].
  - intros k' o Ho Hs. rewrite stored_put_object in Hs. case_decide as E; [|by left].
    injection E as -> ->. by destruct (owner_key_not_state _ Ho).
  - intros k' o v Hk' Hs Hv. rewrite stored_put_object in Hs. case_decide as E; [|by left].
    injection E as -> ->. right. destruct Hn; [done|congruence].
Qed.

(** A conditional write of a record under its owner key. *)
Lemma safe_cas_owner k gen bs w :
  owner_key k →
  (∀ w1, rely w w1 → own_inv w1 → generation <$> stored w1 Authority k = gen →
     ∃ r, from_json bs = Some r ∧ record_ok k r ∧ own_step w1 (recorded w1 k) r) →
  safe (bucket_cas Authority k gen bs) (λ c w', c = true → obj_bytes <$> stored w' Authority k = Some bs) w.
Proof.
  intros Hk Hr. apply safe_op. intros w1 x w2 Hw1 HR Hs. split.
  2:{ intros c -> ->. destruct Hs as [(_ & g & _ & _ & ->)|(_ & Hno & _)]; [|done].
      by rewrite stored_put_object, decide_True. }
  destruct Hs as [Hc|[-> _]]; [|by apply guar_same].
  pose proof (owner_key_not_state _ Hk) as Hns.
  split; [by eapply evolves_cas; eauto|]. destruct Hc as (Hg & g & _ & _ & ->).
  split_and!; [| |by left].
  - intros k' o _ Hs. rewrite stored_put_object in Hs. case_decide as E; [|by left].
    injection E as ->. injection Hs as <-. right. by apply Hr.
  - intros k' o v Hk' Hs Hv. rewrite stored_put_object in Hs. case_decide as E; [|by left].
    by injection E as ->.
Qed.

(** [replace] follows a conditional write with a read. *)
Lemma safe_replace_from (i : bucket_id) k gen bs w :
  safe (bucket_cas i k gen bs) (λ c w', c = true → obj_bytes <$> stored w' i k = Some bs) w →
  safe (replace i k gen bs) (λ c w', c = true → obj_bytes <$> stored w' i k = Some bs) w.
Proof.
  intros Hc. unfold replace. intros Hw. apply wp_bind, wp_attempt.
  eapply wp_mono; [by apply Hc|]. intros r w' [Hw' Hr]. simpl.
  assert (∀ r : result bool, r ≠ Ok true →
    safe (o ← bucket_get i k; if same_bytes o bs then mret true else lift r)
      (λ c w', c = true → obj_bytes <$> stored w' i k = Some bs) w') as Hget.
  { intros r' Hr'. eapply safe_bind; [apply safe_get|]. intros o w2 _ ->.
    destruct (stored w2 i k) as [obj|] eqn:E; simpl;
      [|apply safe_lift; by intros c -> ->].
    case_bool_decide as Eb; [|apply safe_lift; by intros c -> ->]. apply safe_ret. intros _. rewrite E. simpl. by rewrite Eb. }
  destruct r as [[]|e]; [apply safe_ret; [by apply (Hr true)|done]|by apply Hget..].
Qed.

Lemma quiet_replace_from (i : bucket_id) k gen bs w :
  safe (bucket_cas i k gen bs) (λ _ _, True) w → safe (replace i k gen bs) (λ _ _, True) w.
Proof.
  intros Hc. unfold replace. intros Hw. apply wp_bind, wp_attempt.
  eapply wp_mono; [by apply Hc|]. intros r w' [Hw' _]. simpl.
  assert (∀ r, safe (o ← bucket_get i k; if same_bytes o bs then mret true else lift r)
                    (λ _ _, True) w') as Hget.
  { intros r'. eapply safe_bind; [apply safe_get|]. intros o w2 _ _.
    case_match; [by apply safe_ret|by apply safe_lift]. }
  destruct r as [[]|e]; [by apply safe_ret|by apply Hget..].
Qed.

Lemma quiet_replace_create i k bs :
  state_key k → (state_name k ∨ object_version k = None) → quiet (replace i k None bs).
Proof. intros Hk Hn w. by apply quiet_replace_from, quiet_create. Qed.

End protocol.

(** ** What a snapshot store promises *)

Section contract.
Context `{JsonValue} `{!Json (Envelope StateSnapshot), !Json StateSnapshot, !Json LegacySnapshot}.
Context `{Digest} `{Base64} `{!Json Ownership} `{!KeptBefore}.

Definition stream_of (s : StateStream) : Prop := ∃ r, stream r = Ok s.

(** The commit [o] is at least as new as every one kept before [t]. *)
Definition recovers (w : world process) (pre : bytes) (t : N) (o : option (bytes * bytes)) : Prop :=
  ∀ v, is_u64 v → kept_before w (pre ++ show_dec v ++ b".json") t →
    ∃ u bs, v ≤ u ∧ o = Some (pre ++ show_dec u ++ b".json", bs).

Class StoreContract `{!SnapshotStore process} : Prop := {
  sc_local w l obj t : kept_before (set_local w l) obj t ↔ kept_before w obj t;
  sc_back w1 w2 obj t :
    rely w1 w2 → state_key obj → t ≤ clock w1 → kept_before w2 obj t → kept_before w1 obj t;
  sc_forward w1 w2 obj t :
    rely w1 w2 → state_key obj → kept_before w1 obj t → kept_before w2 obj t;
  sc_mono w obj t t' : t ≤ t' → kept_before w obj t → kept_before w obj t';
  sc_bytes_forward w1 w2 obj bs :
    rely w1 w2 → state_key obj → kept_bytes w1 obj bs → kept_bytes w2 obj bs;
  sc_bytes_unique w obj bs bs' : kept_bytes w obj bs → kept_bytes w obj bs' → bs = bs';
  sc_get obj : quiet (ss_get obj);
  sc_prefetch r : quiet (ss_prefetch_checkpoint r);
  sc_restore obj bs c w :
    safe (ss_restore_prefetched obj bs c) (λ q _, ∀ s, snapshot_decode bs = Ok s → txid q = txid (sqlite s)) w;
  sc_latest pre : quiet (ss_latest pre);
  sc_list pre w : safe (ss_list pre) (λ ks _, Forall (λ k, pre `prefix_of` k) ks) w;
  sc_put obj bs w :
    state_name obj → safe (ss_put obj bs) (λ _ w', kept_before w' obj (clock w' + 1) ∧ kept_bytes w' obj bs) w;
  sc_start s : stream_of s → quiet (ss_start s);
  sc_recover s w :
    stream_of s → safe (ss_recover (prefix s)) (λ o w', ∀ t, t ≤ clock w → recovers w' (prefix s) t o) w;
  sc_finish s : stream_of s → quiet (ss_finish s);
}.
End contract.

(** ** The operations of a host process *)

Section operations.
Context `{JsonValue} `{!Json (Envelope StateSnapshot), !Json StateSnapshot, !Json LegacySnapshot}.
Context `{Digest} `{Base64} `{!Json Ownership} `{!JsonLaws Ownership}.
Context (config : SnapshotStoreConfig) `{!SnapshotStore process} `{!KeptBefore} `{!StoreContract}.
Implicit Types w : world process.

(** [r] was read from [k] at generation [g]. *)
Definition seen w (k : bytes) (g : Z) (r : Ownership) : Prop :=
  ∃ o, stored w Authority k = Some o ∧ (g ≤ generation o)%Z ∧
    (generation o = g → from_json (obj_bytes o) = Some r).

Lemma seen_evolves w1 w2 k g r : rely w1 w2 → seen w1 k g r → seen w2 k g r.
Proof.
  intros [He _] (o & Ho & Hg & Hr). destruct (evolves_stored _ _ _ _ _ He Ho) as (o' & Ho' & [->|Hlt]).
  - by exists o.
  - exists o'. split_and!; [done|lia|lia].
Qed.

Lemma seen_recorded w k g r :
  seen w k g r → generation <$> stored w Authority k = Some g → recorded w k = Some r.
Proof.
  intros (o & Ho & _ & Hr) Hg. unfold recorded. rewrite Ho in *. simpl in *. by simplify_eq; auto.
Qed.

Lemma safe_load key w :
  safe (load config key) (λ o w', ∀ g r, o = Some (g, r) →
    ∃ k, owner key = Ok k ∧ seen w' k g r ∧ record_ok k r ∧ was_recorded w' key r) w.
Proof.
  unfold load. apply safe_bind_lift. intros k Hk. intros Hw. apply wp_bind.
  eapply wp_mono; [apply (safe_get Authority k w Hw)|]. intros [[o|]|e] w' [Hw' Hx]; [| |by split].
  - specialize (Hx _ eq_refl). apply safe_bind_lift; [|done]. intros [g r] Hr. apply safe_ret.
    intros g' r' [= <- <-]. exists k. split; [done|].
    unfold decode_ownership in Hr. inv_ok. simplify_eq.
    destruct (proj1 Hw' k o) as (r' & Hr' & Hok); [by exists key|done|].
    simplify_eq. split_and!; [|done|by eapply stored_was_recorded]. exists o. split_and!; [done|simpl; lia|done].
  - by apply safe_ret.
Qed.

Lemma quiet_load key : quiet (load config key).
Proof. intros w. by eapply safe_mono; [apply safe_load|]. Qed.

Lemma safe_load_latest record loaded w :
  safe (load_latest record loaded)
    (λ s _, advance (base record) (reference <$> loaded) = Ok (reference <$> s)) w.
Proof.
  unfold load_latest. apply safe_bind_lift. intros c Hc. destruct c as [s|].
  - case_decide as E; [apply safe_ret; by rewrite Hc, E|].
    eapply safe_bind; [apply safe_quiet, sc_get|]. intros o w1 _ _.
    apply safe_bind_lift. intros bs _. apply safe_bind_lift. intros [] _. by apply safe_ret.
  - apply safe_ret. destruct loaded as [l|]; [|done]. simpl in *.
    destruct (base record); simpl in Hc; [|done]. by inv_ok.
Qed.

Lemma quiet_latest record known : quiet (latest record known).
Proof.
  intros w. unfold latest. apply safe_bind_lift. intros s _.
  eapply safe_bind; [apply safe_quiet, sc_latest|]. intros o w1 _ _. apply safe_bind_lift. intros f _.
  by eapply safe_mono; [apply safe_load_latest|].
Qed.

Lemma safe_remember record s w :
  was_recorded w (storage_key (own_actor record)) record →
  safe (remember record s) (λ la _, place_lease (loaded_placement la) = lease record) w.
Proof.
  intros Hrec. unfold remember.
  eapply safe_bind; [apply safe_quiet; destruct s; [by apply quiet_atomic|apply quiet_ret]|].
  intros [] w1 HR1 _. eapply safe_bind; [apply safe_atomic_owned|].
  { intros p key r. simpl. rewrite lookup_insert. case_decide as E; [|by left]. intros [= <-]. right.
    exists record. subst key. split; [by eapply was_recorded_later|done]. }
  intros [] w2 _ _. apply safe_ret. simpl. unfold placement. by destruct (base record), s.
Qed.

Lemma safe_new_lease req w :
  safe (new_lease req) (λ l w', lease_id l = req_id req ∧ session_id l = req_session_id req ∧
    route l = req_route req ∧ lease_bound (clock w') l ∧ clock w + duration_ms req ≤ expires_at_ms l) w.
Proof.
  unfold new_lease. apply safe_bind_lift. intros [] Hd. apply safe_bind_lift. intros [] _.
  eapply safe_bind; [apply safe_now|]. intros t w1 [[Hle _] _] ->. apply safe_bind_lift. intros e He.
  apply safe_ret. simpl. unfold validate_duration in Hd. inv_ok. subst. unfold lease_bound. simpl.
  split_and!; [done..|lia|lia].
Qed.

Lemma lease_bound_later l w1 w2 : rely w1 w2 → lease_bound (clock w1) l → lease_bound (clock w2) l.
Proof. unfold lease_bound. intros [[? _] _]. lia. Qed.

(** The conditional write of a record is safe when every record that can be there
    with the expected generation may be followed by it. *)
Lemma safe_replace_activation record gen w :
  (∀ m w1 k, rely w w1 → own_inv w1 → owner (storage_key (own_actor record)) = Ok k →
     generation <$> stored w1 Authority k = gen →
     record_ok k (set_mutation m record) ∧ own_step w1 (recorded w1 k) (set_mutation m record)) →
  safe (replace_activation record gen) (λ r w', (∃ m, r.1 = set_mutation m record) ∧
    (r.2 = true → was_recorded w' (storage_key (own_actor record)) r.1)) w.
Proof.
  intros Hr. unfold replace_activation. eapply safe_bind; [apply safe_quiet, quiet_uuid|].
  intros m w1 HR1 _. apply safe_bind_lift. intros k Hk. apply safe_bind_lift. intros bs Hbs.
  apply payload_encode_Ok in Hbs as ->.
  eapply safe_bind; [apply safe_replace_from, safe_cas_owner; [by eexists|]|].
  - intros w2 HR2 Hw2 Hg. exists (set_mutation m record).
    split; [apply from_to_json|]. apply Hr; [by transitivity w1|done..].
  - intros c w2 _ Hst. apply safe_inv. intros Hw2. apply safe_ret. split; [by exists m|]. simpl. intros ->.
    specialize (Hst eq_refl). destruct (stored w2 Authority k) as [o|] eqn:Ho; [|done].
    injection Hst as Ho'. eapply stored_was_recorded; [done|done|exact Ho|]. rewrite Ho'. apply from_to_json.
Qed.

(** ** Release and renewal *)

Lemma released_ok k m r checkpoint : record_ok k r → record_ok k (set_mutation m (released r checkpoint)).
Proof. intros [Hk He Hs]. by destruct checkpoint; constructor. Qed.

Lemma quiet_release_loop n actor host sess checkpoint :
  quiet (release_loop config n actor host sess checkpoint).
Proof.
  induction n as [|n IH]; [apply quiet_lift|]. intros w. cbn [release_loop].
  eapply safe_bind; [apply safe_load|]. intros [[g r]|] w1 HR Ho; [|by apply safe_ret].
  destruct (Ho _ _ eq_refl) as (k & Hk & Hseen & Hok & _). case_match eqn:E; [by apply safe_ret|].
  apply orb_false_iff in E as [_ E%N.eqb_neq].
  eapply safe_bind; [apply safe_replace_activation|].
  - intros m w2 k' HR2 Hw2 Hk' Hg. assert (own_actor (released r checkpoint) = own_actor r) as Ha
      by by destruct checkpoint.
    rewrite Ha, (ro_key _ _ Hok) in Hk'. simplify_eq. split; [by apply released_ok|].
    rewrite (seen_recorded _ _ _ _ (seen_evolves _ _ _ _ _ HR2 Hseen) Hg). by constructor.
  - intros [r' c] w2 _ _. destruct c; [by apply safe_ret|apply IH].
Qed.

(** The lease a request asked for at [w] or later. *)
Definition lease_for w (req : HostLeaseRequest) (l : HostLease) : Prop :=
  lease_id l = req_id req ∧ session_id l = req_session_id req ∧ clock w + duration_ms req ≤ expires_at_ms l.

Lemma lease_for_earlier w w' req l : rely w w' → lease_for w' req l → lease_for w req l.
Proof. unfold lease_for. intros [[? _] _] (? & ? & ?). split_and!; [done..|lia]. Qed.

Lemma safe_renew actor req w :
  safe (renew_activation config actor req) (λ l w', lease_for w req l ∧
    ∃ r, was_recorded w' (storage_key actor) r ∧ lease r = l ∧ own_actor r = actor) w.
Proof.
  unfold renew_activation. eapply safe_bind; [apply safe_load|].
  intros o w1 HR1 Ho. apply safe_bind_lift. intros [g r] Hgr%ctx_Ok.
  destruct (Ho _ _ Hgr) as (k & Hk & Hseen & Hok & _).
  apply safe_bind_lift. intros [] Hs. inv_ok. eapply safe_bind; [apply safe_now|].
  intros t w2 HR2 ->. apply safe_bind_lift. intros [] Hexp. inv_ok.
  apply safe_bind_lift. intros [] Hroute. inv_ok.
  eapply safe_bind; [apply safe_new_lease|]. intros l w3 HR3 (Hl1 & Hl2 & Hl3 & Hb & Hdur).
  assert (sealed r = false) as Hsealed.
  { destruct (sealed r) eqn:E; [|done]. pose proof (ro_sealed _ _ Hok E). lia. }
  assert (rely w w3) as HR by (transitivity w1; [done|]; by transitivity w2).
  assert (lease_for w req l) as Hfor.
  { apply (lease_for_earlier w w2); [by transitivity w1|]. by split_and!. }
  eapply (safe_bind _ _ (λ r' w', ∃ m, r' = set_mutation m (set_lease l r) ∧ was_recorded w' (storage_key actor) r')).
  { unfold save_activation. eapply safe_bind; [apply safe_replace_activation|].
    - intros m w4 k' HR4 Hw4 Hk' Hg. simpl in Hk'. rewrite (ro_key _ _ Hok) in Hk'. simplify_eq.
      split; [constructor; simpl; [apply Hok|apply Hok|congruence]|].
      assert (seen w4 k' g r) as Hseen4 by (eapply seen_evolves; [|exact Hseen];
        transitivity w2; [done|]; by transitivity w3).
      rewrite (seen_recorded _ _ _ _ Hseen4 Hg).
      constructor; [done|by eapply lease_bound_later|congruence..].
    - intros [r' c] w4 HR4 [[m Hm] Hrec]. apply safe_bind_lift. intros [] Hc. inv_ok. subst c.
      apply safe_ret. exists m. split; [done|]. specialize (Hrec eq_refl). simpl in Hrec. by subst actor. }
  intros r' w4 HR4 (m & Hm & Hrec). eapply safe_bind; [apply safe_atomic_owned|].
  { intros p key q. unfold renew_local. destruct (owned p !! storage_key actor) as [mine|]; [|by left].
    destruct (N.eqb_spec (epoch mine) (epoch r')) as [Ee|]; [|by left]. simpl.
    rewrite lookup_insert. case_decide as E; [|by left]. intros [= <-]. right. subst key. exists r'.
    split_and!; [done|done|by subst r']. }
  intros q w5 HR5 _. apply safe_bind_lift. intros [] _. apply safe_ret. split; [done|]. exists r'.
  split_and!; [by eapply was_recorded_later|by subst r'|by subst r'].
Qed.

Lemma quiet_renew actor req : quiet (renew_activation config actor req).
Proof. intros w. by eapply safe_mono; [apply safe_renew|]. Qed.
End operations.
