(* ===== verification/Takeover.v ===== *)
(** * Activation keeps the ownership protocol

    The claim of [src/src/bucket/runtime/activation.rs]: whatever the hint, the
    recovery and the environment do, the record it writes is a first activation or
    a takeover of an expired lease whose base covers the previous owner's commits. *)

From S2P Require Import Prelude Text Demo Names Payload StateLog Effects Concurrency Buckets Recovery Runtime Activation Ownership.
Local Open Scope N_scope.

(** ** Positions *)

Lemma position_lt_trans p q r : position_lt p q = true → position_lt q r = true → position_lt p r = true.
Proof.
  destruct p as [[]|], q as [[]|], r as [[]|]; simpl; try done.
  rewrite !orb_true_iff, !andb_true_iff, !N.ltb_lt, !N.eqb_eq. lia.
Qed.

Lemma position_le_trans p q r : position_le p q → position_le q r → position_le p r.
Proof.
  unfold position_le. destruct p as [[]|], q as [[]|], r as [[]|]; simpl; try done.
  rewrite !orb_false_iff, !andb_false_iff, !N.ltb_ge, !N.eqb_neq. lia.
Qed.

Lemma position_le_refl p : position_le p p.
Proof. unfold position_le. destruct p as [[]|]; simpl; [|done]. rewrite !N.ltb_irrefl. by rewrite andb_false_r. Qed.

Lemma position_lt_le p q : position_lt p q = true → position_le p q.
Proof.
  unfold position_le. destruct p as [[]|], q as [[]|]; simpl; try done.
  rewrite !orb_false_iff, !orb_true_iff, !andb_true_iff, !andb_false_iff, !N.ltb_ge, !N.eqb_neq, !N.ltb_lt, !N.eqb_eq. lia.
Qed.

Lemma position_le_version e v u : v ≤ u → position_le (Some (e, v)) (Some (e, u)).
Proof. intros. unfold position_le; simpl. rewrite N.ltb_irrefl, N.eqb_refl. simpl. apply N.ltb_ge. lia. Qed.

#[global] Instance position_le_preorder : PreOrder position_le.
Proof. split; [exact position_le_refl|exact position_le_trans]. Qed.

Lemma position_le_None p : position_le None p.
Proof. by destruct p as [[]|]. Qed.

(** The newer of the two snapshots is kept. *)
Lemma advance_position cur cand res :
  advance cur cand = Ok res →
  position_le (position cur) (position res) ∧ position_le (position cand) (position res) ∧
  (res = cur ∨ res = cand).
Proof.
  unfold advance, position. destruct cand as [c|].
  - destruct cur as [k|].
    + intros Ha. inv_ok. subst. simpl. case_match eqn:E; (split_and!; [| |auto]);
        [by apply position_lt_le|reflexivity|reflexivity|exact E].
    + intros [= <-]. split_and!; [apply position_le_None|reflexivity|auto].
  - intros [= <-]. split_and!; [reflexivity|apply position_le_None|auto].
Qed.

Section takeover.
Context `{JsonValue} `{!Json (Envelope StateSnapshot), !Json StateSnapshot, !Json LegacySnapshot}.
Context `{Digest} `{Base64} `{!Base64Laws} `{!Json Ownership} `{!JsonLaws Ownership}.
Context (config : SnapshotStoreConfig) `{!SnapshotStore process} `{!KeptBefore} `{!StoreContract}.
Implicit Types w : world process.

(** ** Streams *)

Lemma stream_inv r s :
  stream r = Ok s →
  snapshot_object_name (own_actor r) 1 (pad 32 (show_hex (epoch r))) = Ok (prefix s ++ b"1.json") ∧
  stream_owner_epoch s = epoch r ∧ session s = session_id (lease r).
Proof.
  unfold stream. intros Hs. inv_ok. subst. simpl.
  match goal with E : strip_suffix _ _ = Some _ |- _ => apply strip_suffix_Some in E as -> end. done.
Qed.

Lemma stream_prefix r s :
  stream r = Ok s →
  ∃ p, snapshots (own_actor r) = Ok p ∧ valid_nonce (pad 32 (show_hex (epoch r))) = true ∧
    prefix s = p ++ pad 32 (show_hex (epoch r)) ++ [x2f].
Proof.
  intros (Hn & _)%stream_inv. apply snapshot_object_name_eq in Hn as (_ & _ & Hnon & p & Hp & E).
  exists p. split_and!; [done..|]. apply (app_inv_tail (b"1.json")). rewrite E. by norm_app.
Qed.

Lemma stream_object_name r s v :
  stream r = Ok s → 0 < v →
  snapshot_object_name (own_actor r) v (pad 32 (show_hex (epoch r))) = Ok (stream_object s v).
Proof.
  intros (p & Hp & Hnon & E)%stream_prefix Hv. apply snapshot_object_name_eq.
  pose proof (snapshots_eq _ _ Hp) as [Ha _]. split_and!; [done..|]. exists p. split; [done|].
  unfold stream_object. rewrite E. by norm_app.
Qed.

Lemma stream_prefix_state r s : stream r = Ok s → state_key (prefix s).
Proof.
  intros (p & Hp & _ & ->)%stream_prefix. unfold snapshots in Hp. inv_ok. subst.
  eexists. norm_app. reflexivity.
Qed.

Lemma stream_object_state_key r s v : stream r = Ok s → state_key (stream_object s v).
Proof. intros Hs%stream_prefix_state. by apply prefix_app_r. Qed.

(** The epoch and version a stream's object is parsed back to. *)
Lemma stream_object_position r s v p :
  stream r = Ok s → snapshot_position (stream_object s v) = Some p → p = (epoch r, v).
Proof.
  intros (q & [q' ->]%snapshots_slash & _ & E)%stream_prefix. unfold stream_object. rewrite E.
  norm_app. rewrite (proj2 (name_parsed q' (epoch r) v)). intros Hp.
  apply bind_Some in Hp as (v' & Hv' & Hp). apply bind_Some in Hp as (e' & He' & Hp).
  injection Hp as <-. apply parse_show_inv in Hv'; [|lia]. apply parse_show_pad_inv in He'; [|lia].
  congruence.
Qed.

Lemma stream_object_version r s v :
  stream r = Ok s → object_version (stream_object s v) = parse_u64 (show_dec v).
Proof.
  intros (q & [q' ->]%snapshots_slash & _ & E)%stream_prefix. unfold stream_object. rewrite E.
  norm_app. apply (proj1 (name_parsed q' (epoch r) v)).
Qed.

(** ** Recovery *)

Lemma recovered_covers record s o found snapshot w w' :
  stream record = Ok s → expires_at_ms (lease record) ≤ clock w → rely w w' →
  recovers w (prefix s) (expires_at_ms (lease record)) o → decode_opt o = Ok found →
  advance (base record) (reference <$> found) = Ok (reference <$> snapshot) →
  covers w' record (reference <$> snapshot).
Proof.
  intros Hs Ht HR Hrec Hd Ha st v Hv Hst Hk. rewrite Hs in Hst. injection Hst as <-.
  apply (sc_back w) in Hk; [|done|by eapply stream_object_state_key|done].
  destruct (Hrec v Hv Hk) as (u & bs & Hle & ->). cbn [decode_opt] in Hd.
  apply bind_Ok in Hd as (ls & Hls & [= <-]). unfold decode_snapshot in Hls.
  apply bind_Ok in Hls as (c & Hc & Hls). apply bind_Ok in Hls as ([] & Hpos & [= <-]).
  apply ensure_Ok, bool_decide_eq_true in Hpos.
  apply advance_position in Ha as (_ & Hle' & _). etransitivity; [|exact Hle']. simpl.
  rewrite Hpos. apply (stream_object_position record s u) in Hpos as ->; [|done].
  by apply position_le_version.
Qed.

Lemma quiet_prefetch record : quiet (prefetch_activation_checkpoint record).
Proof.
  unfold prefetch_activation_checkpoint. destruct (base record); [|apply quiet_ret].
  apply quiet_bind; [apply quiet_attempt, sc_prefetch|]. intros. apply quiet_ret.
Qed.

Lemma quiet_load_activation_snapshot record : quiet (load_activation_snapshot record).
Proof.
  intros w. unfold load_activation_snapshot. eapply safe_bind; [apply safe_load_latest|].
  intros. by apply safe_ret.
Qed.

(** A program that keeps the invariant, from where it has got to. *)
Definition keeps {A} (p : prog process A) w : Prop := wp rely guar p (λ _ w', own_inv w') w.

Lemma quiet_keeps {A} (p : prog process A) w : quiet p → own_inv w → keeps p w.
Proof. intros Hp Hw. eapply wp_mono; [by apply Hp|]. by intros r w' [? _]. Qed.

Lemma keeps_bind {A B} (p : prog process A) (f : A → prog process B) w :
  keeps p w → (∀ a, quiet (f a)) → wp rely guar (p ≫= f) (λ r w', own_inv w' ∧ ∀ a, r = Ok a → True) w.
Proof.
  intros Hp Hf. apply wp_bind. eapply wp_mono; [exact Hp|]. intros [a|e] w' Hw'; [by apply Hf|done].
Qed.

Lemma quiet_recover_sealed record : quiet (recover_sealed_activation record).
Proof.
  intros w Hw. unfold recover_sealed_activation.
  apply (wp_select rely guar _ _ _ _ (λ _ w, own_inv w) (λ _ w, own_inv w)).
  - exact guar_rely.
  - intros w1 w2 ->. by apply guar_same.
  - intros r. exact inv_stable.
  - intros r. exact inv_stable.
  - intros r q w1 Hw1 Hq. apply wp_bind_lift; [done|]. intros recovery _.
    apply wp_bind_lift; [done|]. intros [] _; [|by split]. apply keeps_bind; [exact Hq|].
    intros c. apply quiet_ret.
  - intros p r w1 Hp Hw1. apply keeps_bind; [exact Hp|]. intros recovery.
    apply quiet_bind; [apply quiet_lift|]. intros c. apply quiet_ret.
  - by apply quiet_keeps; [apply quiet_load_activation_snapshot|].
  - by apply quiet_keeps; [apply quiet_prefetch|].
Qed.

Definition recovered_base (r : ActivationRecovery) : option SnapshotRef := reference <$> rec_snapshot r.

Lemma safe_recover_unsealed record w :
  sealed record = false → expires_at_ms (lease record) ≤ clock w →
  safe (recover_activation (Some record)) (λ r w', ∀ w2, rely w' w2 →
    position_le (position (base record)) (position (recovered_base r)) ∧
    covers w2 record (recovered_base r)) w.
Proof.
  intros Hseal Hexp. unfold recover_activation. rewrite Hseal. apply safe_bind_lift. intros s Hs.
  eapply safe_bind; [apply sc_recover; by exists record|]. intros o w1 HR1 Hrec.
  apply safe_bind_lift. intros found Hf. eapply safe_bind; [apply safe_load_latest|].
  intros snapshot w2 HR2 Ha. apply safe_ret. intros w3 HR3. unfold recovered_base. simpl.
  split; [by apply advance_position in Ha as (? & _)|].
  assert (clock w ≤ clock w1) by (destruct HR1 as [[? _] _]; done).
  eapply (recovered_covers record s o found snapshot w1); [done|lia|by transitivity w2|by apply Hrec|done..].
Qed.

Lemma quiet_recover_immutable previous :
  (∀ r, previous = Some r → sealed r = true) → quiet (recover_activation previous).
Proof.
  intros Hp. destruct previous as [r|]; [|apply quiet_ret]. simpl. rewrite Hp by done.
  apply quiet_recover_sealed.
Qed.

(** ** The claim *)

Lemma safe_validate actor req reg previous w :
  safe (validate_activation config actor req reg previous) (λ _ w', ∀ r, previous = Some r →
    same_backend (persistence r) config = true ∧ own_actor r = actor ∧ region r = reg ∧
    different_session r req = true ∧ expires_at_ms (lease r) ≤ clock w') w.
Proof.
  unfold validate_activation. destruct previous as [r|]; [|by apply safe_ret].
  do 3 (apply safe_bind_lift; intros [] ?). eapply safe_bind; [apply safe_now|]. intros t w1 _ ->.
  apply safe_lift. intros [] Hle. inv_ok. by intros ? [= <-].
Qed.

Lemma safe_activation_record actor req reg previous w :
  safe (activation_record config actor req reg previous) (λ r w',
    persistence r = config ∧ sealed r = false ∧ own_actor r = actor ∧ region r = reg ∧
    base r = (previous ≫= base) ∧ lease_bound (clock w') (lease r) ∧
    lease_for w req (lease r) ∧
    epoch r = match previous with Some p => epoch p + 1 | None => 1 end) w.
Proof.
  unfold activation_record. apply safe_bind_lift. intros e He%ctx_Ok.
  eapply safe_bind; [apply safe_new_lease|]. intros l w1 _ (Hid & Hses & _ & Hb & Hdur). apply safe_ret. simpl.
  split_and!; try done. destruct previous; inv_ok; [done|by simplify_eq].
Qed.

(** What is known of the record the claim replaces, and of the one it writes. *)
Record claim w (current : option (Z * Ownership)) (r : Ownership) : Prop := {
  cl_seen g old : current = Some (g, old) → ∃ k, seen w k g old ∧ record_ok k old;
  cl_expired g old : current = Some (g, old) → expires_at_ms (lease old) ≤ clock w;
  cl_scope g old : current = Some (g, old) → own_actor r = own_actor old ∧ region r = region old ∧
    same_backend (persistence old) (persistence r) = true;
  cl_session g old : current = Some (g, old) →
    (lease_id (lease r), session_id (lease r)) ≠ (lease_id (lease old), session_id (lease old));
  cl_epoch : epoch r = match current with Some (_, old) => epoch old + 1 | None => 1 end;
  cl_unsealed : sealed r = false;
  cl_lease : lease_bound (clock w) (lease r);
}.

Lemma claim_later w w' current r : rely w w' → claim w current r → claim w' current r.
Proof.
  intros HR []. assert (clock w ≤ clock w') by (destruct HR as [[? _] _]; done). constructor; try done.
  - intros g old E. destruct (cl_seen0 g old E) as (k & ? & ?). eauto using seen_evolves.
  - intros g old E. specialize (cl_expired0 g old E). lia.
  - by eapply lease_bound_later.
Qed.

Lemma claim_base s w current r : claim w current r → claim w current (set_base s r).
Proof. intros []. by constructor. Qed.

Definition base_ok w (current : option (Z * Ownership)) (r : Ownership) : Prop :=
  match current with
  | None => base r = None
  | Some (_, old) =>
      if sealed old then base r = base old
      else position_le (position (base old)) (position (base r)) ∧ covers w old (base r)
  end.

Lemma safe_claim current record w :
  claim w current record → (∀ w', rely w w' → base_ok w' current record) →
  safe (replace_activation record (fst <$> current)) (λ r w', (∃ m, r.1 = set_mutation m record) ∧
    (r.2 = true → was_recorded w' (storage_key (own_actor record)) r.1)) w.
Proof.
  intros Hc Hb. apply safe_replace_activation. intros m w1 k HR Hw1 Hk Hg.
  pose proof (claim_later _ _ _ _ HR Hc) as [Hseen Hexp Hscope Hsess Hep Hun Hl].
  specialize (Hb _ HR). destruct current as [[g old]|]; simpl in *.
  - destruct (Hseen g old eq_refl) as (k' & Hs & Hok). destruct (Hscope g old eq_refl) as (Ha & Hr & Hp).
    assert (k' = k) as -> by (pose proof (ro_key _ _ Hok); rewrite Ha in Hk; congruence).
    rewrite (seen_recorded _ _ _ _ Hs Hg). pose proof (ro_epoch _ _ Hok). split.
    + constructor; simpl; [done|lia|congruence].
    + constructor; simpl; eauto.
  - split; [constructor; simpl; [done|lia|congruence]|].
    unfold recorded. destruct (stored w1 Authority k); [done|]. by constructor.
Qed.

(** What the claim of [record] reports: if it was made, a record with the same lease
    was stored. *)
Definition claimed_ok (record : Ownership) (c : Ownership * bool) w' : Prop :=
  lease c.1 = lease record ∧ own_actor c.1 = own_actor record ∧
  (c.2 = true → was_recorded w' (storage_key (own_actor record)) c.1).

Lemma claimed_ok_later record c w' w'' : rely w' w'' → claimed_ok record c w' → claimed_ok record c w''.
Proof.
  intros HR (? & ? & Hrec). split_and!; [done..|]. intros Hc. eapply was_recorded_later; [done|by apply Hrec].
Qed.

Lemma safe_claimed current record w :
  claim w current record → (∀ w', rely w w' → base_ok w' current record) →
  safe (replace_activation record (fst <$> current)) (claimed_ok record) w.
Proof.
  intros Hc Hb. eapply safe_mono; [by apply safe_claim|]. intros [r c] w' HR' [[m Hm] Hrec].
  simpl in *. subst r. by split_and!.
Qed.

Lemma join_claim {A} (p : prog process A) (q : prog process (Ownership * bool)) record w :
  own_inv w → keeps p w → wp rely guar q (λ r w', own_inv w' ∧ ∀ c, r = Ok c → claimed_ok record c w') w →
  wp rely guar (join p q) (λ r w', own_inv w' ∧ ∀ a c, r = Ok (a, Ok c) → claimed_ok record c w') w.
Proof.
  intros Hw Hp Hq. eapply wp_mono;
    [apply (wp_join rely guar p q (λ _ w, own_inv w) (λ r w, own_inv w ∧ ∀ c, r = Ok c → claimed_ok record c w))|].
  - exact guar_rely.
  - intros w1 w2 ->. by apply guar_same.
  - intros r. exact inv_stable.
  - intros r w1 w2 [? Hr] HR. split; [by eapply inv_stable|]. intros c Hc. by eapply claimed_ok_later; [|apply Hr].
  - exact Hp.
  - exact Hq.
  - intros r w' (r1 & r2 & -> & ? & _ & Hc). split; [done|]. intros a c [= _ ->]. auto.
Qed.

Lemma safe_recover_and_claim current record w :
  claim w current record → base record = (snd <$> current) ≫= base →
  safe (recover_and_claim current record) (λ x, claimed_ok record x.2) w.
Proof.
  intros Hc Hb. unfold recover_and_claim.
  assert (∀ r, (snd <$> current) = Some r → sealed r = false → ∃ g, current = Some (g, r)) as Hcur.
  { destruct current as [[g r]|]; intros ? [= <-] _. by exists g. }
  case_match eqn:E.
  - intros Hw. apply wp_bind. eapply wp_mono; [apply (join_claim _ _ record); [done| |]|].
    + apply quiet_keeps; [|done]. apply quiet_recover_immutable. intros r Hr. by rewrite Hr in E.
    + apply (safe_claimed current); [exact Hc| |done].
      intros w1 _. unfold base_ok. destruct current as [[g old]|]; simpl in *; [by rewrite E|done].
    + intros [[recovery claimed]|e] w1 [Hw1 Hcl]; [|done]. apply safe_bind_lift; [|done].
      intros c Ec. apply safe_ret. simpl. subst claimed. by eapply Hcl.
  - destruct current as [[g old]|]; [|done]. simpl in E.
    eapply safe_bind; [apply safe_recover_unsealed; [done|by apply (cl_expired _ _ _ Hc g)]|].
    intros recovery w1 HR1 Hrec. eapply safe_bind.
    { apply (safe_claimed (Some (g, old))); [by apply claim_base, (claim_later w)|].
      intros w2 HR2. simpl. rewrite E. by apply Hrec. }
    intros c w2 _ Hcl. by apply safe_ret.
Qed.

(** ** Activation *)

(** The hint was read from the bucket at some time. *)
Definition hint_ok w (h : OwnershipHint) : Prop :=
  ∃ k, seen w k (hint_generation h) (hint_record h) ∧ record_ok k (hint_record h).

Lemma hint_ok_later w w' h : rely w w' → hint_ok w h → hint_ok w' h.
Proof. intros HR (k & ? & ?). exists k. eauto using seen_evolves. Qed.

Lemma safe_get_owner_with_hint key w :
  safe (get_owner_with_hint config key) (λ r w', ∀ h, r.2 = Some h → hint_ok w' h) w.
Proof.
  unfold get_owner_with_hint. eapply safe_bind; [apply safe_load|].
  intros [[g r]|] w1 _ Ho; apply safe_ret; [|done]. intros h [= <-].
  destruct (Ho _ _ eq_refl) as (k & _ & ? & ? & _). by exists k.
Qed.

(** The record to replace, from the hint or from the bucket. *)
Lemma safe_current actor (new_actor : bool) (owner_hint hint : option OwnershipHint) w :
  (∀ h, hint = Some h → hint_ok w h) →
  safe (match hint with
        | Some h => mret (Some (hint_generation h, hint_record h))
        | None => if new_actor && match owner_hint with None => true | Some _ => false end
                  then mret None else load config (storage_key actor)
        end)
    (λ c w', ∀ g r, c = Some (g, r) → ∃ k, seen w' k g r ∧ record_ok k r) w.
Proof.
  intros Hh. destruct hint as [h|].
  - apply safe_ret. intros g r [= <- <-]. by apply Hh.
  - case_match; [by apply safe_ret|]. eapply safe_mono; [apply safe_load|].
    intros o w1 _ Ho g r E. destruct (Ho g r E) as (k & _ & ? & ? & _). by exists k.
Qed.

Lemma different_session_spec r req :
  different_session r req = true →
  (req_id req, req_session_id req) ≠ (lease_id (lease r), session_id (lease r)).
Proof. unfold different_session. rewrite orb_true_iff. intros Hd [= E1 E2]. destruct Hd; inv_ok; congruence. Qed.

Lemma safe_activated actor (hint : option OwnershipHint) (req : HostLeaseRequest)
    (x : result ActivationRecovery * (Ownership * bool)) w :
  (x.2.2 = true → was_recorded w (storage_key (own_actor x.2.1)) x.2.1) →
  safe (let '(recovery, (record, replaced)) := x in
    if negb replaced then
      lift (ensure (match hint with Some _ => true | None => false end)
              "actor activation changed concurrently");;
      mret None
    else
      match recovery with
      | Err e =>
          attempt (release_with_checkpoint config actor (req_id req) (req_session_id req) (Some (base record)));;
          lift (Err e)
      | Ok recovery =>
          s ← lift (stream record);
          ss_start s;;
          loaded ← remember record (rec_snapshot recovery);
          mret (Some {| loaded_placement := loaded_placement loaded; loaded_state := loaded_state loaded;
                        loaded_checkpoint := rec_checkpoint recovery |})
      end)
    (λ o _, ∀ la, o = Some la → x.2.2 = true ∧ place_lease (loaded_placement la) = lease x.2.1) w.
Proof.
  destruct x as [recovery [record replaced]]. simpl. intros Hrec. destruct replaced; simpl negb; cbv iota.
  - destruct recovery as [recovery|e].
    + apply safe_bind_lift. intros s Hs.
      eapply safe_bind; [apply safe_quiet, sc_start; by exists record|]. intros _ w1 HR1 _.
      eapply safe_bind; [apply safe_remember; by eapply was_recorded_later, Hrec|]. intros la w2 _ Hla. apply safe_ret.
      intros ? [= <-]. split; [done|exact Hla].
    + eapply safe_bind; [apply safe_quiet, quiet_attempt, quiet_release_loop|]. intros. apply safe_err.
  - apply safe_bind_lift. intros [] _. by apply safe_ret.
Qed.

(** An activation of [actor] that ended in a stored record with the lease asked for. *)
Definition activated w (actor : ActorKey) (req : HostLeaseRequest) (la : LoadedActor) w' : Prop :=
  lease_for w req (place_lease (loaded_placement la)) ∧
  ∃ r, was_recorded w' (storage_key actor) r ∧ lease r = place_lease (loaded_placement la) ∧ own_actor r = actor.

Lemma activated_later w0 w actor req la w' w'' :
  rely w0 w → rely w' w'' → activated w actor req la w' → activated w0 actor req la w''.
Proof.
  intros HR0 HR' [Hl (r & Hr & E)]. split; [by eapply lease_for_earlier|]. exists r.
  split; [by eapply was_recorded_later|done].
Qed.

Lemma safe_activation_turn actor req reg new_actor owner_hint hint w :
  (∀ h, hint = Some h → hint_ok w h) →
  safe (activation_turn config actor req reg new_actor owner_hint hint)
    (λ o w', ∀ la, o = Some la → activated w actor req la w') w.
Proof.
  intros Hh. unfold activation_turn. eapply safe_bind; [by apply safe_current|].
  intros current w1 HR1 Hcur. eapply safe_bind; [apply safe_validate|]. intros [] w2 HR2 Hval.
  eapply safe_bind; [apply safe_activation_record|].
  intros record w3 HR3 (Hp & Hun & Ha & Hr & Hb & Hl & Hfor & Hep).
  assert (rely w w2) as HRw2 by (by transitivity w1). destruct (Hfor) as (Hid & Hses & _).
  eapply safe_bind; [apply safe_recover_and_claim; [|done]|].
  - assert (∀ g old, current = Some (g, old) → snd <$> current = Some old) as Hsnd by (by intros ?? ->).
    assert (clock w2 ≤ clock w3) by (destruct HR3 as [[? _] _]; done).
    constructor; try done.
    + intros g old E. destruct (Hcur g old E) as (k & ? & ?). exists k. split; [|done].
      eapply seen_evolves; [|done]. by transitivity w2.
    + intros g old E. destruct (Hval old (Hsnd _ _ E)) as (_ & _ & _ & _ & ?). lia.
    + intros g old E. destruct (Hval old (Hsnd _ _ E)) as (? & ? & ? & _ & _).
      rewrite Ha, Hr, Hp. done.
    + intros g old E. destruct (Hval old (Hsnd _ _ E)) as (_ & _ & _ & ? & _).
      rewrite Hid, Hses. by apply different_session_spec.
    + rewrite Hep. by destruct current as [[]|].
  - intros x w4 HR4 (El & Ea & Hrec). rewrite <- Ea in Hrec. eapply safe_mono; [by apply safe_activated|].
    intros o w5 HR5 Ho la Hla. destruct (Ho la Hla) as [Ec Elease]. apply (activated_later w w2 _ _ _ w5 w5); [done..|].
    split; [rewrite Elease, El; exact Hfor|]. exists (x.2.1). split_and!; [|done|by rewrite Ea].
    rewrite <- Ha, <- Ea. by eapply was_recorded_later, Hrec.
Qed.

Lemma safe_register actor req reg new_actor owner_hint w :
  (∀ h, owner_hint = Some h → hint_ok w h) →
  safe (register_activation config actor req reg new_actor owner_hint) (λ la w', activated w actor req la w') w.
Proof.
  intros Hh. unfold register_activation. do 3 (apply safe_bind_lift; intros [] _).
  eapply safe_bind; [apply safe_now|]. intros t w1 HR1 _. cbv zeta.
  set (hint := match owner_hint with Some _ => _ | None => _ end).
  assert (∀ h, hint = Some h → hint_ok w1 h) as Hh1.
  { intros h E. eapply hint_ok_later; [exact HR1|]. apply Hh. subst hint.
    destruct owner_hint; [|done]. by case_match; simplify_eq. }
  eapply safe_bind; [by apply safe_activation_turn|]. intros [la|] w2 HR2 Ha.
  { apply safe_ret. by apply (activated_later w w1 _ _ _ w2 w2); [| |apply Ha]. }
  eapply safe_bind; [by apply safe_activation_turn|]. intros [la|] w3 HR3 Hb; [|apply safe_err].
  apply safe_ret. by apply (activated_later w w2 _ _ _ w3 w3); [transitivity w1| |apply Hb].
Qed.

(** ** The remaining operations *)

Lemma safe_load_actor record w :
  was_recorded w (storage_key (own_actor record)) record → safe (load_actor record) (λ _ _, True) w.
Proof.
  intros Hrec. unfold load_actor. eapply safe_bind; [apply safe_quiet, quiet_latest|]. intros s w1 HR _.
  eapply safe_mono; [apply safe_remember; by eapply was_recorded_later|done].
Qed.

Lemma quiet_activate_actor actor l reg : quiet (activate_actor config actor l reg).
Proof.
  intros w. unfold activate_actor. eapply safe_bind; [apply safe_load|]. intros o w1 _ Ho.
  apply safe_bind_lift. intros [g r] Hgr%ctx_Ok. destruct (Ho _ _ Hgr) as (k & _ & _ & _ & Hrec).
  apply safe_bind_lift. intros [] He. inv_ok. apply safe_load_actor. by subst actor.
Qed.

Lemma quiet_load_owned_actor actor l e : quiet (load_owned_actor config actor l e).
Proof.
  intros w. unfold load_owned_actor. eapply (safe_bind _ _ (λ r w', was_recorded w' (storage_key (own_actor r)) r)).
  - unfold owned_actor. eapply safe_bind; [apply safe_load|]. intros o w1 _ Ho.
    apply safe_bind_lift. intros [g r] Hgr%ctx_Ok. destruct (Ho _ _ Hgr) as (k & _ & _ & _ & Hrec).
    apply safe_bind_lift. intros [] He. inv_ok. apply safe_ret. by subst actor.
  - intros r w1 _ Hrec. by apply safe_load_actor.
Qed.

Lemma quiet_ensure_write_owner plan : quiet (ensure_write_owner plan).
Proof.
  unfold ensure_write_owner. apply quiet_bind; [apply quiet_lift|]. intros a.
  apply quiet_bind; [by apply quiet_atomic|]. intros o. apply quiet_bind; [apply quiet_lift|]. intros r.
  apply quiet_bind; [apply quiet_lift|]. intros s. case_decide; [|apply quiet_lift].
  apply quiet_bind; [|intros; apply quiet_lift]. intros w. by eapply safe_mono; [apply safe_now|].
Qed.

Lemma safe_local_owned key w : safe (local_owned key) (λ o w', o = owned (local w') !! key) w.
Proof.
  apply safe_op. intros w1 x w2 _ _ [-> ->]. split; [by apply guar_same|]. by intros a [= <-].
Qed.

(** The bucket has held a record of the plan's epoch and session. *)
Definition write_authority (plan : WritePlan) w (record : Ownership) : Prop :=
  ∃ actor, actor_from_snapshot (object_name plan) = Ok actor ∧ was_recorded w (storage_key actor) record ∧
    epoch record = stream_owner_epoch (plan_stream plan) ∧
    session_id (lease record) = session (plan_stream plan).

Lemma write_authority_later plan w w' record : rely w w' → write_authority plan w record → write_authority plan w' record.
Proof. intros HR (a & ? & ? & ?). exists a. split_and!; [done|by eapply was_recorded_later|naive_solver..]. Qed.

(** The check passes only for a stream of a record, and only while the lease of a
    record of that epoch and session runs that the bucket has held. *)
Lemma safe_ensure_write_owner plan w :
  safe (ensure_write_owner plan) (λ _ w', stream_of (plan_stream plan) ∧
    (local_inv w → ∃ record, write_authority plan w' record ∧ clock w' < expires_at_ms (lease record))) w.
Proof.
  unfold ensure_write_owner. apply safe_bind_lift. intros a Ha.
  eapply safe_bind; [apply safe_local_owned|]. intros o w1 HR1 Ho. apply safe_bind_lift. intros r Hr%ctx_Ok.
  apply safe_bind_lift. intros s Hs. case_decide as E; [|apply safe_err]. subst s.
  eapply safe_bind; [apply safe_now|]. intros t w2 HR2 ->. apply safe_lift. intros [] Ht. inv_ok.
  split; [by exists r|]. intros Hl. apply (local_inv_stable _ _ Hl) in HR1. rewrite Ho in Hr.
  destruct (HR1 _ _ Hr) as (r0 & Hrec & He & El). exists r0. rewrite El. split; [|done]. exists a.
  destruct (stream_inv _ _ Hs) as (_ & -> & ->). rewrite El. split_and!; [done|by eapply was_recorded_later|done..].
Qed.

Lemma stream_state_name s v : stream_of s → 0 < v → state_name (stream_object s v).
Proof. intros [r Hr] Hv. eexists _, _, _. by apply (stream_object_name r). Qed.

(** What the snapshot of a plan is, and where it goes. *)
Lemma plan_snapshot st bs s plan :
  stream_of st → stream_snapshot st bs = Ok s →
  (object s == object_name plan) && (ref_state_version s =? plan_state_version plan) = true →
  object_name plan = stream_object st (plan_state_version plan) ∧ object s = object_name plan ∧
  state_name (object_name plan).
Proof.
  intros Hst Hs Hp. unfold stream_snapshot in Hs. apply bind_Ok in Hs as (c & Hc & Hs). inv_ok. subst. simpl in *.
  match goal with H : _ = plan_state_version _ |- _ => rewrite <- H end.
  match goal with H : stream_object _ _ = object_name _ |- _ => rewrite <- H end.
  split_and!; [done..|]. apply stream_state_name; [done|]. lia.
Qed.

(** An acknowledged commit is kept, and was kept before the lease of a record of the
    plan's epoch and session ran out. *)
Definition acknowledged (plan : WritePlan) (bs : bytes) w : Prop :=
  object_name plan = stream_object (plan_stream plan) (plan_state_version plan) ∧
  state_name (object_name plan) ∧ kept_bytes w (object_name plan) bs ∧
  ∃ record, write_authority plan w record ∧
    kept_before w (object_name plan) (expires_at_ms (lease record)).

Lemma safe_write_snapshot plan bs w :
  safe (write_snapshot plan bs) (λ _ w', local_inv w → acknowledged plan bs w') w.
Proof.
  unfold write_snapshot. eapply safe_bind; [apply safe_ensure_write_owner|].
  intros [] w1 HR1 [Hst _].
  apply safe_bind_lift. intros s Hs. apply safe_bind_lift. intros [] Hp%ensure_Ok.
  destruct (plan_snapshot _ _ _ _ Hst Hs Hp) as (Hobj & Hso & Hname).
  apply safe_bind_lift. intros commit _. eapply safe_bind; [apply safe_quiet|].
  - destruct (parent (sqlite commit)); [|apply quiet_ret].
    apply quiet_bind; [by apply quiet_atomic|]. intros []; [apply quiet_ret|].
    apply quiet_bind; [apply sc_get|]. intros o. apply quiet_bind; [apply quiet_lift|]. intros.
    apply quiet_lift.
  - intros [] w2 HR2 _. eapply safe_bind; [by apply safe_quiet, quiet_atomic|]. intros [] w3 HR3 _.
    rewrite Hso. eapply safe_bind; [by apply sc_put|]. intros [] w4 HR4 [Hkept Hbs].
    eapply safe_bind; [apply safe_ensure_write_owner|]. intros [] w5 HR5 [_ Hauth].
    eapply safe_bind; [apply safe_quiet, quiet_atomic|].
    { intros p. unfold upload_completed. by destruct (advance _ _). }
    intros q w6 HR6 _. apply safe_lift. intros [] _ Hl. pose proof (state_name_key _ Hname) as Hkey.
    destruct Hauth as (r & Hr & Hlive).
    { eapply local_inv_stable; [exact Hl|]. transitivity w1; [done|]. transitivity w2; [done|]. by transitivity w3. }
    split_and!; [done|done| |].
    { eapply sc_bytes_forward; [|done|exact Hbs]. by transitivity w5. }
    exists r. split; [by eapply write_authority_later|].
    eapply sc_forward; [exact HR6|done|]. eapply sc_forward; [exact HR5|done|].
    eapply sc_mono; [|exact Hkept]. assert (clock w4 ≤ clock w5) by (destruct HR5 as [[? _] _]; done). lia.
Qed.

(** A takeover of an unsealed record of that stream, with a lease that runs at least as
    long, adopts a base that is at least as new. *)
Definition survives (plan : WritePlan) w : Prop :=
  ∃ record, write_authority plan w record ∧
    kept_before w (object_name plan) (expires_at_ms (lease record)) ∧
    ∀ w2 old next, rely w w2 → own_step w2 (Some old) next → epoch next ≠ epoch old →
      sealed old = false → stream old = Ok (plan_stream plan) →
      expires_at_ms (lease record) ≤ expires_at_ms (lease old) → is_u64 (plan_state_version plan) →
      position_le (Some (epoch old, plan_state_version plan)) (position (base next)).

Lemma acknowledged_survives plan bs w : acknowledged plan bs w → survives plan w.
Proof.
  intros (Hobj & Hname & _ & record & Hauth & Hkept). exists record. split_and!; [done..|].
  intros w2 old next HR Hs He Hseal Hst Hle Hv.
  inversion Hs as [|? ? _ _ _ _ _ _ _ _ Hb|? ? ? ?|? c ?]; subst; [|done|by destruct c].
  rewrite Hseal in Hb. destruct Hb as [_ Hc]. apply (Hc _ _ Hv Hst). rewrite <- Hobj.
  eapply sc_forward; [exact HR|by apply state_name_key|]. by eapply sc_mono.
Qed.

Lemma acknowledged_later plan bs w w' : rely w w' → acknowledged plan bs w → acknowledged plan bs w'.
Proof.
  intros HR (Hobj & Hname & Hbs & record & Hauth & Hkept). pose proof (state_name_key _ Hname).
  split_and!; [done|done|by eapply sc_bytes_forward|]. exists record.
  split; [by eapply write_authority_later|by eapply sc_forward].
Qed.

Lemma quiet_write_snapshot plan bs : quiet (write_snapshot plan bs).
Proof. intros w. by eapply safe_mono; [apply safe_write_snapshot|]. Qed.

Lemma quiet_drain actor host sess : quiet (drain_activation actor host sess).
Proof.
  intros w. unfold drain_activation. eapply safe_bind; [by apply safe_quiet, quiet_atomic|]. intros o w1 _ _.
  apply safe_bind_lift. intros r _. apply safe_bind_lift. intros [] _.
  eapply safe_bind; [by apply safe_quiet, quiet_atomic|]. intros c w2 _ _. apply safe_bind_lift. intros c' _.
  apply safe_bind_lift. intros s Hs. eapply safe_bind; [apply safe_quiet, sc_finish; by exists r|].
  intros. by apply safe_ret.
Qed.

End takeover.
