(* ===== verification/LocalStore.v ===== *)
(** * The bucket-backed store keeps its contract

    [BucketSnapshots] ([src/src/bucket/snapshots.rs]) over the authority bucket, as
    a deployment with local persistence runs it: its recovery returns a commit at
    least as new as every one written to the stream before recovery began. *)

From S2P Require Import Prelude Text Demo Names Payload StateLog Effects Concurrency Buckets Recovery Runtime Activation Ownership Takeover.
Local Open Scope N_scope.

Lemma max_by_key_spec {A} (f : A → N) l :
  match max_by_key f l with
  | Some x => x ∈ l ∧ ∀ y, y ∈ l → f y ≤ f x
  | None => l = []
  end.
Proof.
  induction l as [|x l IH]; simpl; [done|]. destruct (max_by_key f l) as [y|].
  - destruct IH as [Hy Hle]. destruct (N.leb_spec (f x) (f y)).
    + split; [set_solver|]. intros z [->|Hz]%elem_of_cons; [done|by apply Hle].
    + split; [set_solver|]. intros z [->|Hz]%elem_of_cons; [done|]. specialize (Hle z Hz). lia.
  - subst. split; [set_solver|]. intros z [->|Hz]%elem_of_cons; [done|set_solver].
Qed.

Section store.
Context `{JsonValue} `{!Json (Envelope StateSnapshot), !Json StateSnapshot, !Json LegacySnapshot}.
Context `{!Json (Envelope Checkpoint), !Json Checkpoint}.
Context `{Digest} `{Base64} `{!Base64Laws} `{!Json Ownership}.

(** Kept means written to the bucket. *)
Definition bucket_kept : KeptBefore := {|
  kept_before w obj t :=
    ∃ o t', stored w Authority obj = Some o ∧ last_write w Authority obj = Some t' ∧ t' < t;
  kept_bytes w obj bs := ∃ o, stored w Authority obj = Some o ∧ obj_bytes o = bs;
|}.

Definition local_store : SnapshotStore process := bucket_store Authority.

#[local] Existing Instance bucket_kept.
#[local] Existing Instance local_store.

Lemma safe_bucket_get obj w :
  safe (BucketSnapshots.get Authority obj) (λ x w', x = obj_bytes <$> stored w' Authority obj) w.
Proof. eapply safe_bind; [apply safe_get|]. intros x w1 _ ->. by apply safe_ret. Qed.

Lemma quiet_bucket_get obj : quiet (BucketSnapshots.get Authority obj).
Proof. intros w. by eapply safe_mono; [apply safe_bucket_get|]. Qed.

Lemma safe_bucket_list pre w :
  safe (BucketSnapshots.list Authority pre) (λ ks w', ks = bucket_names w' Authority pre) w.
Proof. apply safe_list. Qed.

Lemma quiet_bucket_latest pre : quiet (BucketSnapshots.latest Authority pre).
Proof.
  intros w. unfold BucketSnapshots.latest. eapply safe_bind; [apply safe_bucket_list|].
  intros ks w1 _ _. destruct (max_by_key _ _) as [[v k]|]; [|by apply safe_ret].
  eapply safe_bind; [apply safe_quiet, quiet_bucket_get|]. intros. by apply safe_ret.
Qed.

(** A state object [replace] reports as created holds the bytes. *)
Lemma safe_replace_create k bs w :
  state_name k →
  safe (replace Authority k None bs)
    (λ c w', c = true → ∃ o, stored w' Authority k = Some o ∧ obj_bytes o = bs) w.
Proof.
  intros Hn Hw. unfold replace. apply wp_bind, wp_attempt. pose proof (state_name_key _ Hn) as Hk.
  eapply wp_mono; [apply (safe_op (BucketCas Authority k None bs) (λ c w', c = true →
    ∃ o, stored w' Authority k = Some o ∧ obj_bytes o = bs)); [|done]|].
  - intros w1 x w2 Hw1 _ Hs. split.
    + pose proof (quiet_create Authority k bs Hk (or_introl Hn) w1 Hw1 w1) as Hq.
      destruct (Hq (reflexivity _) x w2 Hs) as [HG _]. exact HG.
    + intros a -> ->. destruct Hs as [(_ & g & _ & _ & ->)|(_ & Hx & _)]; [|done].
      rewrite stored_put_object, decide_True by done. eauto.
  - intros r w' [Hw' Hr]. simpl.
    assert (∀ q, safe (o ← bucket_get Authority k; if same_bytes o bs then mret true else lift q)
      (λ c w'', c = true → q = Ok true ∨ ∃ o, stored w'' Authority k = Some o ∧ obj_bytes o = bs) w') as Hget.
    { intros q. eapply safe_bind; [apply safe_get|]. intros o w2 _ ->.
      destruct (same_bytes _ _) eqn:E.
      - apply safe_ret. intros _. right. unfold same_bytes in E.
        destruct (stored w2 Authority k) as [o|]; [|done]. apply bool_decide_eq_true in E. eauto.
      - apply safe_lift. intros c -> ->. by left. }
    destruct r as [[]|e]; [apply safe_ret; [|done]; intros _; by apply (Hr true)| |];
      (eapply wp_mono; [by apply Hget|]; intros c w2 [Hw2 Hc]; split; [done|];
       intros a -> ->; by destruct (Hc true eq_refl eq_refl)).
Qed.

Lemma safe_bucket_put obj bs w :
  state_name obj →
  safe (BucketSnapshots.put Authority obj bs)
    (λ _ w', kept_before w' obj (clock w' + 1) ∧ kept_bytes w' obj bs) w.
Proof.
  intros Hn. eapply safe_bind; [by apply safe_replace_create|]. intros c w1 _ Hc.
  apply safe_inv. intros (_ & _ & Htime). apply safe_lift. intros [] Hok. inv_ok.
  destruct (Hc Hok) as (o & Ho & Hbs). destruct (Htime _ _ _ Ho) as (t & l & Ht & Hle).
  split; [|by exists o]. exists o, t. unfold last_write. rewrite Ht. split_and!; [done|done|lia].
Qed.

(** The newest name of a listing, when every commit's name is well formed. *)
Lemma newest_name s w v k :
  own_inv w → stream_of s →
  max_by_key fst (BucketSnapshots.versions (bucket_names w Authority (prefix s))) = Some (v, k) →
  k = prefix s ++ show_dec v ++ b".json" ∧ state_name k ∧ ∃ o, stored w Authority k = Some o.
Proof.
  intros (_ & Hinv & _) [r Hr] Hm. pose proof (max_by_key_spec fst (BucketSnapshots.versions
    (bucket_names w Authority (prefix s)))) as Hspec. rewrite Hm in Hspec. destruct Hspec as [Hin _].
  unfold BucketSnapshots.versions in Hin. apply list_elem_of_omap in Hin as (k' & Hin & Hv).
  apply bind_Some in Hv as (v' & Hv & [= <- <-]).
  apply elem_of_bucket_names in Hin as [[o Ho] Hp].
  assert (state_key k') as Hk.
  { pose proof (stream_prefix_state _ _ Hr) as Hk. unfold state_key in *. by etrans. }
  destruct (Hinv _ _ _ Hk Ho Hv) as (a & e & u & Hn).
  destruct (stream_inv _ _ Hr) as (Hr1 & _).
  pose proof (object_name_under _ _ _ _ _ _ _ Hr1 Hn Hp) as E.
  split_and!; [|by exists a, e, u|by exists o].
  rewrite E. do 2 f_equal. change (prefix s ++ show_dec u ++ b".json") with (stream_object s u) in E.
  rewrite E, (stream_object_version r) in Hv by done. symmetry. f_equal.
  by apply parse_show_inv in Hv; [|lia].
Qed.

(** A commit written before the listing is in it. *)
Lemma listed s w1 w2 t v :
  stream_of s → t ≤ clock w1 → rely w1 w2 → is_u64 v → kept_before w2 (stream_object s v) t →
  (v, stream_object s v) ∈ BucketSnapshots.versions (bucket_names w1 Authority (prefix s)).
Proof.
  intros [r Hr] Ht [He _] Hv (o & t' & Ho & Ht' & Hlt).
  destruct (evolves_before _ _ _ _ _ _ He Ho Ht') as [Ho1 _]; [lia|].
  apply list_elem_of_omap. exists (stream_object s v). split.
  - apply elem_of_bucket_names. split; [by exists o|by apply prefix_app_r].
  - rewrite (stream_object_version r s v Hr). unfold parse_u64, show_dec.
    by rewrite parse_show by (done || lia).
Qed.

Lemma safe_bucket_latest s w :
  stream_of s →
  safe (BucketSnapshots.latest Authority (prefix s)) (λ o w',
    (∀ t, t ≤ clock w → recovers w' (prefix s) t o) ∧ ∀ k bs, o = Some (k, bs) → state_name k) w.
Proof.
  intros Hs. unfold BucketSnapshots.latest. eapply safe_bind; [apply safe_bucket_list|].
  intros ks w1 HR1 ->. apply safe_inv. intros Hw1.
  assert (clock w ≤ clock w1) by (destruct HR1 as [[? _] _]; done).
  pose proof (max_by_key_spec fst (BucketSnapshots.versions (bucket_names w1 Authority (prefix s)))) as Hmax.
  destruct (max_by_key _ _) as [[v k]|] eqn:Em.
  - destruct (newest_name _ _ _ _ Hw1 Hs Em) as (Hk & Hname & o & Ho). destruct Hmax as [_ Hmax].
    eapply safe_bind; [apply safe_bucket_get|]. intros x w2 HR2 ->. apply safe_ret.
    destruct (evolves_stored _ _ _ _ _ (proj1 HR2) Ho) as (o2 & -> & _).
    split; [|by intros ?? [= <- <-]]. intros t Ht u Hu Hkept. exists v, (obj_bytes o2).
    split; [|by rewrite Hk].
    eapply (listed s w1) in Hkept; [|done|lia|done|done]. by apply Hmax in Hkept.
  - apply safe_ret. split; [|done]. intros t Ht u Hu Hkept.
    eapply (listed s w1 w1) in Hkept; [|done|lia|done|done]. rewrite Hmax in Hkept. set_solver.
Qed.

(** Later worlds add nothing that was kept before. *)
Lemma recovers_later w1 w2 s t o :
  stream_of s → rely w1 w2 → t ≤ clock w1 → recovers w1 (prefix s) t o → recovers w2 (prefix s) t o.
Proof.
  intros [r Hr] [He _] Ht Hrec v Hv (x & t' & Hx & Ht' & Hlt). apply Hrec; [done|].
  destruct (evolves_before _ _ _ _ _ _ He Hx Ht'); [lia|]. by exists x, t'.
Qed.

Lemma safe_bucket_recover s w :
  stream_of s →
  safe (BucketSnapshots.recover Authority (prefix s))
    (λ o w', ∀ t, t ≤ clock w → recovers w' (prefix s) t o) w.
Proof.
  intros Hs. unfold BucketSnapshots.recover. eapply safe_bind; [by apply safe_bucket_latest|].
  intros o w1 HR1 [Hrec Hname]. assert (clock w ≤ clock w1) by (destruct HR1 as [[? _] _]; done).
  destruct o as [[k bs]|]; [|by apply safe_ret].
  eapply safe_bind; [apply safe_bucket_put; by eapply Hname|].
  intros [] w2 HR2 _. apply safe_ret. intros t Ht. eapply recovers_later; [done|done|lia|by apply Hrec].
Qed.

(** Restoring a commit only reads. *)
Lemma quiet_walk_step (get : bytes → prog process (option bytes)) (x : walk ()) :
  (∀ obj, quiet (get obj)) → quiet (walk_step (SnapshotHistory0 := stored_history get) x).
Proof.
  intros Hg. unfold walk_step. apply quiet_bind.
  { unfold walk_checkpoint. destruct (parent _); [|apply quiet_ret]. destruct (w_prefetched x); [apply quiet_ret|].
    apply quiet_bind; [|intros []; apply quiet_ret]. apply quiet_bind; [apply Hg|intros; apply quiet_ret]. }
  intros [y [bs|]]; [apply quiet_bind; [apply quiet_lift|intros; apply quiet_ret]|].
  destruct (parent _) as [p|]; [|apply quiet_ret]. apply quiet_bind; [apply quiet_lift|intros f].
  apply quiet_bind.
  { apply quiet_bind; [apply Hg|intros o]. apply quiet_bind; [apply quiet_lift|intros; apply quiet_ret]. }
  intros [[] bs]. do 5 (apply quiet_bind; [apply quiet_lift|intros ?]). apply quiet_ret.
Qed.

Lemma quiet_restore (get : bytes → prog process (option bytes)) obj bs c :
  (∀ obj, quiet (get obj)) → quiet (restore_prefetched get obj bs c).
Proof.
  intros Hg. unfold restore_prefetched, resolve. apply quiet_bind; [|intros [r|]; [apply quiet_ret|apply quiet_lift]].
  apply quiet_bind; [apply quiet_lift|intros current]. apply quiet_bind; [apply quiet_lift|intros []].
  apply quiet_bind; [|intros [[cp w]|]; apply quiet_ret].
  generalize (S (N.to_nat (state_version current))) as fuel.
  match goal with |- ∀ fuel, quiet (walk_loop fuel ?x) => generalize x end.
  intros x fuel. revert x. induction fuel as [|fuel IH]; intros x; simpl; [apply quiet_ret|].
  apply quiet_bind; [by apply quiet_walk_step|]. intros [over|y]; [apply quiet_ret|apply IH].
Qed.

Lemma restore_txid (get : bytes → prog process (option bytes)) obj bs c :
  yields (restore_prefetched get obj bs c)
    (λ r, match r with Ok q => ∀ s, snapshot_decode bs = Ok s → txid q = txid (sqlite s) | Err _ => True end).
Proof.
  unfold restore_prefetched. apply yields_bind. eapply yields_mono; [apply resolve_chain|].
  intros [[res|]|e]; simpl; [|done..]. intros (_ & _ & s & Hs & Ht & _) s' Hs'. congruence.
Qed.

#[global] Instance local_store_contract : StoreContract.
Proof.
  split.
  - done.
  - intros w1 w2 obj t [He _] _ Ht (o & t' & Ho & Ht' & Hlt).
    destruct (evolves_before _ _ _ _ _ _ He Ho Ht'); [lia|]. by exists o, t'.
  - intros w1 w2 obj t [He _] Hk (o & t' & Ho & Ht' & Hlt).
    destruct (evolves_state_key _ _ _ _ _ He Hk Ho) as [Ho2 Ht2]. exists o, t'. by rewrite Ht2.
  - intros w obj t t' Hle (o & t0 & Ho & Ht0 & Hlt). exists o, t0. split_and!; [done|done|lia].
  - intros w1 w2 obj bs [He _] Hk (o & Ho & Hbs). exists o.
    by destruct (evolves_state_key _ _ _ _ _ He Hk Ho) as [-> _].
  - intros w obj bs bs' (o & Ho & <-) (o' & Ho' & <-). by simplify_eq.
  - apply quiet_bucket_get.
  - intros r. apply quiet_ret.
  - intros obj bs c w. eapply safe_mono.
    + apply safe_yields; [apply safe_quiet, quiet_restore, quiet_bucket_get|apply restore_txid].
    + intros q w' _ [_ Hq]. exact Hq.
  - apply quiet_bucket_latest.
  - intros pre w. eapply safe_mono; [apply safe_list|]. intros ks w' _ ->.
    apply Forall_forall. intros k Hk%elem_of_bucket_names. apply Hk.
  - apply safe_bucket_put.
  - intros s _. apply quiet_ret.
  - intros s w. apply safe_bucket_recover.
  - intros s _. apply quiet_ret.
Qed.
End store.
