(* ===== verification/Safety.v ===== *)
(** * Safety of ownership

    Any number of host processes, each running any number of concurrent storage
    calls over the shared buckets, with every operation free to fail or to lose its
    answer, and time passing in between. *)

From S2P Require Import Prelude Text Demo Names Payload StateLog Effects Concurrency Buckets Recovery Runtime Activation Ownership Takeover LocalStore.
Local Open Scope N_scope.

(** ** Calls *)

(** The storage calls of a host process. [Register] with a hint looks the owner up
    first, as the control plane does before it starts a host; [Finish] drains the
    session and releases it, sealed if the drain succeeded. *)
Inductive call :=
| Register (actor : ActorKey) (req : HostLeaseRequest) (reg : bytes) (new_actor use_hint : bool)
| Activate (actor : ActorKey) (l : HostLease) (reg : bytes)
| LoadOwned (actor : ActorKey) (l : HostLease) (e : N)
| Renew (actor : ActorKey) (req : HostLeaseRequest)
| Release (actor : ActorKey) (host sess : bytes)
| Finish (actor : ActorKey) (host sess : bytes)
| Prepare (actor : ActorKey) (l : HostLease) (e version : N)
| WriteSnapshot (plan : WritePlan) (bs : bytes)
| GetPlacement (key : bytes).

Section calls.
Context `{JsonValue} `{!Json (Envelope StateSnapshot), !Json StateSnapshot, !Json LegacySnapshot}.
Context `{Digest} `{Base64} `{!Json Ownership}.
Context (config : SnapshotStoreConfig) `{!SnapshotStore process}.

(** [HostStorage::finish] of [src/src/host/storage.rs], less its local fence. *)
Definition finish_activation (actor : ActorKey) (host sess : bytes) : prog process unit :=
  completed ← attempt (deadline "snapshot drain timed out" (drain_activation actor host sess));
  deadline "ownership release timed out"
    (release_with_checkpoint config actor host sess (ok completed)).

Definition discard {A} (p : prog process A) : prog process unit := attempt p;; mret ().

Definition run_call (c : call) : prog process unit :=
  match c with
  | Register actor req reg new_actor use_hint =>
      if use_hint then
        discard ('(_, hint) ← get_owner_with_hint config (storage_key actor);
                 register_activation config actor req reg new_actor hint)
      else discard (register_activation config actor req reg new_actor None)
  | Activate actor l reg => discard (activate_actor config actor l reg)
  | LoadOwned actor l e => discard (load_owned_actor config actor l e)
  | Renew actor req => discard (renew_activation config actor req)
  | Release actor host sess => discard (release_activation config actor host sess)
  | Finish actor host sess => discard (finish_activation actor host sess)
  | Prepare actor l e version => discard (prepare_actor_write actor l e version)
  | WriteSnapshot plan bs => discard (write_snapshot plan bs)
  | GetPlacement key => discard (get_placement config key)
  end.

Fixpoint run_calls (cs : list call) : prog process unit :=
  match cs with
  | [] => mret ()
  | c :: cs => run_call c;; run_calls cs
  end.

(** Every task runs calls, and the buckets hold well-formed records and names. *)
Definition hosts `{!KeptBefore} (s : pool process) : Prop :=
  own_inv (shared s) ∧ ∀ i pid p, tasks s !! i = Some (pid, p) → ∃ cs, p = run_calls cs.
End calls.

Section safety.
Context `{JsonValue} `{!Json (Envelope StateSnapshot), !Json StateSnapshot, !Json LegacySnapshot}.
Context `{Digest} `{Base64} `{!Base64Laws} `{!Json Ownership} `{!JsonLaws Ownership}.
Context (config : SnapshotStoreConfig) `{!SnapshotStore process} `{!KeptBefore} `{!StoreContract}.

Lemma quiet_discard {A} (p : prog process A) : quiet p → quiet (discard p).
Proof. intros Hp. apply quiet_bind; [by apply quiet_attempt|]. intros. apply quiet_ret. Qed.

Lemma quiet_finish actor host sess : quiet (finish_activation config actor host sess).
Proof.
  apply quiet_bind; [by apply quiet_attempt, quiet_deadline, quiet_drain|]. intros.
  by apply quiet_deadline, quiet_release_loop.
Qed.

Lemma quiet_register_hinted actor req reg new_actor :
  quiet ('(_, hint) ← get_owner_with_hint config (storage_key actor);
         register_activation config actor req reg new_actor hint).
Proof.
  intros w. eapply safe_bind; [apply safe_get_owner_with_hint|].
  intros [p hint] w1 _ Hh. by eapply safe_mono; [apply safe_register|].
Qed.

Lemma quiet_get_placement key : quiet (get_placement config key).
Proof.
  unfold get_placement. apply quiet_bind; [apply quiet_load|]. intros [[g r]|]; [|apply quiet_ret].
  apply quiet_bind; [|intros; apply quiet_ret]. unfold current_placement.
  apply quiet_bind; [by apply quiet_latest|intros; apply quiet_ret].
Qed.

Lemma quiet_prepare actor l e version : quiet (prepare_actor_write actor l e version).
Proof.
  unfold prepare_actor_write. apply quiet_bind; [by apply quiet_atomic|intros].
  do 2 (apply quiet_bind; [apply quiet_lift|intros]). apply quiet_lift.
Qed.

Lemma quiet_run_call c : quiet (run_call config c).
Proof.
  destruct c as [? ? ? ? []| | | | | | | |]; simpl run_call; apply quiet_discard.
  - apply quiet_register_hinted.
  - intros w. by eapply safe_mono; [apply safe_register|].
  - by apply quiet_activate_actor.
  - by apply quiet_load_owned_actor.
  - by apply quiet_renew.
  - by apply quiet_release_loop.
  - apply quiet_finish.
  - apply quiet_prepare.
  - by apply quiet_write_snapshot.
  - apply quiet_get_placement.
Qed.

Lemma quiet_run_calls cs : quiet (run_calls config cs).
Proof.
  induction cs as [|c cs IH]; [apply quiet_ret|]. apply quiet_bind; [apply quiet_run_call|done].
Qed.

Lemma hosts_ok s : hosts config s → pool_ok rely guar s.
Proof.
  intros [Hw Hs] i pid p l Hi _. destruct (Hs i pid p Hi) as [cs ->].
  eapply wp_mono; [apply quiet_run_calls; exact Hw|done].
Qed.

Lemma rely_tick w t l : clock w ≤ t → rely (set_local w l) (set_local (set_clock w t) l).
Proof.
  intros Ht. assert (evolves (set_local w l) (set_local (set_clock w t) l)) as He by by apply evolves_same.
  split_and!; [done| |].
  - intros Hi. pose proof (evolves_inv _ _ He Hi) as I3. destruct Hi as (I1 & I2 & _). by split_and!.
  - intros Hl key r Hr. eapply remembered_evolves; [done|by apply Hl].
Qed.

(** Every step of the pool is a guarantee or lets time pass. *)
Lemma hosts_step s s' s'' :
  hosts config s → rtc pool_step s s' → pool_step s' s'' →
  (∃ l l', guar (set_local (shared s') l) (set_local (shared s'') l')) ∨
  (buckets (shared s'') = buckets (shared s') ∧ clock (shared s') ≤ clock (shared s'')).
Proof.
  intros Hs Hr Hstep. eapply (pool_guarantee rely guar); [| | |by apply hosts_ok|done|done].
  - exact guar_rely.
  - exact guar_rely_other.
  - intros. by apply rely_tick.
Qed.

Lemma covers_local w l old s : covers (set_local w l) old s → covers w old s.
Proof. intros Hc st v Hv Hst Hk. apply (Hc st v Hv Hst). by apply sc_local. Qed.

Lemma own_step_local w l old r : own_step (set_local w l) old r → own_step w old r.
Proof.
  intros Hs. destruct Hs as [|old r ???????? Hb|old l' m|]; [by constructor| |by constructor..].
  constructor; try done. destruct (sealed old); [done|]. destruct Hb as [? ?%covers_local]. done.
Qed.

(** What one step does to the record of one key. *)
Lemma hosts_record s s' s'' k :
  hosts config s → rtc pool_step s s' → pool_step s' s'' → owner_key k →
  recorded (shared s'') k = recorded (shared s') k ∨
  ∃ r, recorded (shared s'') k = Some r ∧ record_ok k r ∧
    own_step (shared s') (recorded (shared s') k) r.
Proof.
  intros Hs Hr Hstep Hk. destruct (hosts_step _ _ _ Hs Hr Hstep) as [(l & l' & [_ He] & HG & _)|[Hb _]].
  - destruct (stored (shared s'') Authority k) as [o|] eqn:Ho.
    + destruct (HG k o Hk Ho) as [Ho'|(r & Hj & Hok & Hst)].
      * left. unfold recorded. change (stored (set_local (shared s') l) Authority k) with
          (stored (shared s') Authority k) in Ho'. by rewrite Ho, Ho'.
      * right. exists r. unfold recorded at 1. rewrite Ho. split_and!; [done..|].
        by apply own_step_local in Hst.
    + left. destruct (He Authority k) as [_ [[E _]|(o & t & ? & Ho' & _)]].
      * change (stored (shared s'') Authority k = stored (shared s') Authority k) in E.
        unfold recorded. by rewrite E.
      * change (stored (shared s'') Authority k = Some o) in Ho'. congruence.
  - left. unfold recorded, stored in *. by rewrite Hb.
Qed.

(** C6. Whatever the processes do and whatever fails, an ownership record changes
    only by a step of the protocol: a first activation with epoch 1, a takeover of
    an expired lease by another session with the next epoch, a renewal of an
    unsealed record that keeps epoch, session and base, or a release. *)
Theorem ownership_protocol (s s' s'' : pool process) (k : bytes) :
  hosts config s → rtc pool_step s s' → pool_step s' s'' → owner_key k →
  recorded (shared s'') k = recorded (shared s') k ∨
  ∃ r, recorded (shared s'') k = Some r ∧ record_ok k r ∧
    own_step (shared s') (recorded (shared s') k) r.
Proof. apply hosts_record. Qed.

(** The same tenure of an actor: one host session and one route. *)
Definition tenure (r : Ownership) : bytes * bytes * bytes * ActorKey * bytes :=
  (lease_id (lease r), session_id (lease r), route (lease r), own_actor r, region r).

Lemma own_step_epoch w old r :
  own_step w (Some old) r → epoch old ≤ epoch r ∧ (epoch r = epoch old → tenure r = tenure old).
Proof.
  intros Hs. inversion Hs as [|? ? _ He|? l m ? ? E1 E2 E3|? c m]; subst; simpl.
  - rewrite He. lia.
  - split; [done|]. intros _. unfold tenure. simpl. congruence.
  - by destruct c.
Qed.

(** C7. Epochs fence: the epoch of an actor never decreases, and one epoch never
    changes hands, so two sessions never act under the same epoch. *)
Theorem epochs_fence (s s1 s2 : pool process) (k : bytes) (r1 : Ownership) :
  hosts config s → rtc pool_step s s1 → rtc pool_step s1 s2 → owner_key k →
  recorded (shared s1) k = Some r1 →
  ∃ r2, recorded (shared s2) k = Some r2 ∧ epoch r1 ≤ epoch r2 ∧
    (epoch r2 = epoch r1 → tenure r2 = tenure r1).
Proof.
  intros Hs H01 H12 Hk. revert r1. induction H12 as [s1|s1 s2 s3 Hstep H23 IH]; intros r1 Hr1; [by exists r1|].
  assert (∃ r2, recorded (shared s2) k = Some r2 ∧ epoch r1 ≤ epoch r2 ∧
    (epoch r2 = epoch r1 → tenure r2 = tenure r1)) as (r2 & Hr2 & Hle & Ht).
  { destruct (hosts_record _ _ _ _ Hs H01 Hstep Hk) as [E|(r & Hr & _ & Hst)].
    - exists r1. by rewrite E.
    - rewrite Hr1 in Hst. apply own_step_epoch in Hst. eauto. }
  destruct (IH ltac:(by eapply rtc_r) r2 Hr2) as (r3 & Hr3 & Hle' & Ht'). exists r3.
  split_and!; [done|lia|]. intros E. rewrite Ht' by lia. apply Ht. lia.
Qed.

(** C5. A lease excludes everyone else: while it has not expired, no step hands
    the actor to another session. *)
Theorem lease_excludes (s s' s'' : pool process) (k : bytes) (r : Ownership) :
  hosts config s → rtc pool_step s s' → pool_step s' s'' → owner_key k →
  recorded (shared s') k = Some r → clock (shared s') < expires_at_ms (lease r) →
  ∃ r', recorded (shared s'') k = Some r' ∧ epoch r' = epoch r ∧ tenure r' = tenure r.
Proof.
  intros Hs Hr Hstep Hk Hrec Hlive. destruct (hosts_record _ _ _ _ Hs Hr Hstep Hk) as [E|(r' & Hr' & _ & Hst)].
  - exists r. by rewrite E.
  - exists r'. split; [done|]. rewrite Hrec in Hst.
    pose proof (own_step_epoch _ _ _ Hst) as [_ Ht].
    assert (epoch r' = epoch r) as He by (inversion Hst as [|? ? Hx|? ? ? ?|? c ?]; subst; simpl;
      [lia|done|by destruct c]).
    split; [done|by apply Ht].
Qed.

(** C1. An acknowledged commit survives a takeover. Whatever interferes, a write is
    acknowledged only if the commit is kept under its name in the plan's stream with
    exactly the bytes written, and was kept before the lease ran out of a record of
    the plan's epoch and session that the authority bucket holds or has held; and a
    takeover of an unsealed record of that stream whose lease runs at least as long
    adopts a base that is at least as new. *)
Theorem acknowledged_commit_survives (plan : WritePlan) (bs : bytes) (w : world process) :
  own_inv w → local_inv w →
  wp rely guar (write_snapshot plan bs) (λ res w', res = Ok () →
    object_name plan = stream_object (plan_stream plan) (plan_state_version plan) ∧
    kept_bytes w' (object_name plan) bs ∧
    survives plan w') w.
Proof.
  intros Hw Hl. eapply wp_mono; [by apply safe_write_snapshot|]. intros r w' [_ Hack] Hok. specialize (Hack _ Hok Hl).
  split_and!; [apply Hack..|]. by eapply acknowledged_survives.
Qed.

(** Every process, at any time, sees well-formed records and remembers only records
    the bucket has held. *)
Lemma hosts_view s s' pid l :
  hosts config s → (∀ pid l, locals s !! pid = Some l → local_inv (view s l)) → rtc pool_step s s' →
  locals s' !! pid = Some l → own_inv (view s' l) ∧ local_inv (view s' l).
Proof.
  intros Hs Hl Hr Hpid. eapply (pool_stable rely guar _ _ _ (λ w, own_inv w ∧ local_inv w)); [..|done|done].
  - intros w w' [? ?] HR. split; [by eapply inv_stable|by eapply local_inv_stable].
  - by apply hosts_ok.
  - intros pid' l' Hp. split; [apply Hs|by eapply Hl].
  Unshelve. all: [> exact guar_rely|exact guar_rely_other|intros; by apply rely_tick].
Qed.
End safety.

(** ** Takeovers keep what was committed, with local persistence *)

Section local_safety.
Context `{JsonValue} `{!Json (Envelope StateSnapshot), !Json StateSnapshot, !Json LegacySnapshot}.
Context `{!Json (Envelope Checkpoint), !Json Checkpoint}.
Context `{Digest} `{Base64} `{!Base64Laws} `{!Json Ownership} `{!JsonLaws Ownership}.

#[local] Existing Instance bucket_kept.
#[local] Existing Instance local_store.

(** C2. No committed state is lost by a takeover: the lease it replaces has
    expired, and the base of the new record is the sealed base, or is at least as
    new as every commit the previous owner had stored before its lease expired. *)
Theorem takeover_keeps_commits (config : SnapshotStoreConfig) (s s' s'' : pool process) (k : bytes)
    (old r : Ownership) :
  hosts config s → rtc pool_step s s' → pool_step s' s'' → owner_key k →
  recorded (shared s') k = Some old → recorded (shared s'') k = Some r → epoch r ≠ epoch old →
  expires_at_ms (lease old) ≤ clock (shared s') ∧
  if sealed old then base r = base old
  else ∀ st v o t, stream old = Ok st → is_u64 v →
    stored (shared s') Authority (stream_object st v) = Some o →
    last_write (shared s') Authority (stream_object st v) = Some t →
    t < expires_at_ms (lease old) →
    position_le (Some (epoch old, v)) (position (base r)).
Proof.
  intros Hs Hr Hstep Hk Hold Hnew He.
  destruct (hosts_record _ _ _ _ _ Hs Hr Hstep Hk) as [E|(r' & Hr' & _ & Hst)]; [congruence|].
  rewrite Hold in Hst. simplify_eq. inversion Hst as [|? ? Hexp ???????  Hb|? ? ? ?|? c ?]; subst; simpl in *.
  - split; [done|]. destruct (sealed old); [done|]. destruct Hb as [_ Hc].
    intros st v o t Hst' Hv Ho Ht Hlt. apply (Hc st v Hv Hst'). by exists o, t.
  - done.
  - by destruct c.
Qed.
End local_safety.

(** ** Witnesses

    Host [h0] activates an actor and commits version 1; its lease expires; host
    [h1] takes over. *)

Module Stand_in_records.
Export Stand_in_commits.

#[export] Instance ser_ActorKey : Ser ActorKey :=
  ser_iso (λ a, (project_id a, actor_name a, actor_id a))
          (λ '(p, n, i), Build_ActorKey p n i) ltac:(by intros []).

#[export] Instance ser_HostLease : Ser HostLease :=
  ser_iso (λ l, (lease_id l, session_id l, route l, expires_at_ms l))
          (λ '(i, s, r, e), Build_HostLease i s r e) ltac:(by intros []).

#[export] Instance ser_RapidBucket : Ser RapidBucket :=
  ser_iso (λ p, (rapid_bucket p, zone p)) (λ '(p, z), Build_RapidBucket p z) ltac:(by intros []).

#[export] Instance ser_SnapshotStoreConfig : Ser SnapshotStoreConfig :=
  ser_iso
    (λ c, match c with
          | Local => None
          | Rapid bs a t p => Some (bs, a, batch_bytes t, interval_ms t, bool_decide (p = All))
          end)
    (λ o, match o with
          | None => Local
          | Some (bs, a, n, i, p) => Rapid bs a (Build_ArchiveBatchConfig n i) (if p then All else Nearest)
          end)
    ltac:(by intros [|? ? [] []]).

#[export] Instance ser_Ownership : Ser Ownership :=
  ser_iso (λ r, (persistence r, sealed r, lease r, mutation r, own_actor r, epoch r, region r, base r))
          (λ '(p, s, l, m, a, e, g, t), Build_Ownership p s l m a e g t) ltac:(by intros []).

#[export] Instance ser_Checkpoint : Ser Checkpoint :=
  ser_iso (λ c, (source c, cp_sqlite c)) (λ '(s, q), Build_Checkpoint s q) ltac:(by intros []).
End Stand_in_records.
Import Stand_in_records.

#[local] Existing Instance bucket_kept.
#[local] Existing Instance local_store.

Definition demo_request (host sess : string) : HostLeaseRequest :=
  {| req_id := b host; req_session_id := b sess; req_route := b"https://host"; duration_ms := 30000 |}.

Definition demo_region : bytes := b"us-east1".

Definition demo_state : bytes := default [] (ok (snapshot_encode (demo_snapshot 1 1 None [demo_ltx 1 1] 1))).

(** The record host [h0] writes first. *)
Definition demo_record : Ownership :=
  {| persistence := Local; sealed := false;
     lease := {| lease_id := b"h0"; session_id := b"s0"; route := b"https://host"; expires_at_ms := 30000 |};
     mutation := show_dec 0; own_actor := demo_actor; epoch := 1; region := demo_region; base := None |}.

Definition demo_plan : WritePlan :=
  default {| plan_stream := {| session := []; prefix := []; stream_owner_epoch := 0; base_version := 0 |};
             plan_state_version := 0; object_name := [] |} (ok (write_plan demo_record 1)).

Definition demo_pool : pool process :=
  {| shared := {| buckets := ∅; write_log := ∅; zone_objects := ∅; clock := 0; uuids := 0;
                  local := process_new |};
     locals := <[0%nat := process_new]> (<[1%nat := process_new]> ∅);
     tasks := [(0%nat, run_calls Local [Register demo_actor (demo_request "h0" "s0") demo_region false false;
                                       WriteSnapshot demo_plan demo_state]);
               (1%nat, run_calls Local [Register demo_actor (demo_request "h1" "s1") demo_region false false])] |}.

Definition demo_owner_key : bytes := default [] (ok (owner (storage_key demo_actor))).

(** Host [h0] has committed, and its lease has run out. *)
Definition demo_committed : pool process := exec demo_pool (replicate 14 (Run 0) ++ [Tick 30000]).

(** Host [h1] is about to write its record, and has written it. *)
Definition demo_claiming : pool process := exec demo_committed (replicate 9 (Run 1)).
Abbreviation demo_taken := (exec_move demo_claiming (Run 1)).

Definition demo_owned (s : pool process) : Ownership := default demo_record (recorded (shared s) demo_owner_key).

Lemma demo_hosts : hosts Local demo_pool.
Proof.
  split.
  - by split.
  - intros i pid p Hi.
    assert (Forall (λ x, ∃ cs, snd x = run_calls Local cs) (tasks demo_pool)) as Hf.
    { unfold demo_pool. cbn [tasks]. repeat constructor; eexists; reflexivity. }
    exact (Forall_lookup_1 _ _ _ _ Hf Hi).
Qed.

Lemma demo_key : owner_key demo_owner_key.
Proof. exists (storage_key demo_actor). vm_compute. reflexivity. Qed.

Lemma demo_committed_reached : rtc pool_step demo_pool demo_committed.
Proof. apply exec_steps. Qed.

Lemma demo_claiming_reached : rtc pool_step demo_pool demo_claiming.
Proof. etrans; [apply demo_committed_reached|]. apply exec_steps. Qed.

Lemma demo_claiming_record : recorded (shared demo_claiming) demo_owner_key = Some demo_record.
Proof. vm_compute. reflexivity. Qed.

Lemma demo_taken_epoch : (epoch <$> recorded (shared demo_taken) demo_owner_key) = Some 2.
Proof. vm_compute. reflexivity. Qed.

Lemma demo_take : pool_step demo_claiming demo_taken.
Proof.
  apply (exec_move_changed (λ s, epoch <$> recorded (shared s) demo_owner_key)).
  rewrite demo_taken_epoch, demo_claiming_record. discriminate.
Qed.

Lemma demo_taken_record : recorded (shared demo_taken) demo_owner_key = Some (demo_owned demo_taken).
Proof.
  unfold demo_owned. pose proof demo_taken_epoch as He.
  destruct (recorded (shared demo_taken) demo_owner_key); [done|done].
Qed.

Lemma demo_owned_epoch : epoch (demo_owned demo_taken) = 2.
Proof. vm_compute. reflexivity. Qed.

Lemma ownership_protocol_witness :
  recorded (shared demo_taken) demo_owner_key = recorded (shared demo_claiming) demo_owner_key ∨
  ∃ r, recorded (shared demo_taken) demo_owner_key = Some r ∧ record_ok demo_owner_key r ∧
    own_step (shared demo_claiming) (recorded (shared demo_claiming) demo_owner_key) r.
Proof.
  apply (ownership_protocol Local demo_pool demo_claiming demo_taken demo_owner_key).
  - exact demo_hosts.
  - exact demo_claiming_reached.
  - exact demo_take.
  - exact demo_key.
Defined.

Lemma epochs_fence_witness :
  ∃ r2, recorded (shared demo_taken) demo_owner_key = Some r2 ∧ 1 ≤ epoch r2 ∧
    (epoch r2 = 1 → tenure r2 = tenure demo_record).
Proof.
  apply (epochs_fence Local demo_pool demo_claiming demo_taken demo_owner_key demo_record).
  - exact demo_hosts.
  - exact demo_claiming_reached.
  - apply rtc_once, demo_take.
  - exact demo_key.
  - exact demo_claiming_record.
Defined.

(** While the lease runs, even with [h1] trying. *)
Definition demo_running : pool process := exec demo_pool (replicate 14 (Run 0) ++ [Run 1; Tick 29999]).

Lemma lease_excludes_witness :
  ∃ r', recorded (shared (exec_move demo_running (Tick 30000))) demo_owner_key = Some r' ∧
    epoch r' = 1 ∧ tenure r' = tenure demo_record.
Proof.
  apply (lease_excludes Local demo_pool demo_running (exec_move demo_running (Tick 30000))
           demo_owner_key demo_record).
  - exact demo_hosts.
  - apply exec_steps.
  - apply (pool_tick demo_running 30000). vm_compute. discriminate.
  - exact demo_key.
  - vm_compute. reflexivity.
  - vm_compute. reflexivity.
Defined.

Lemma takeover_keeps_commits_witness :
  30000 ≤ clock (shared demo_claiming) ∧
  ∀ st v o t, stream demo_record = Ok st → is_u64 v →
    stored (shared demo_claiming) Authority (stream_object st v) = Some o →
    last_write (shared demo_claiming) Authority (stream_object st v) = Some t →
    t < 30000 → position_le (Some (1, v)) (position (base (demo_owned demo_taken))).
Proof.
  apply (takeover_keeps_commits Local demo_pool demo_claiming demo_taken demo_owner_key demo_record
           (demo_owned demo_taken)).
  - exact demo_hosts.
  - exact demo_claiming_reached.
  - exact demo_take.
  - exact demo_key.
  - exact demo_claiming_record.
  - exact demo_taken_record.
  - rewrite demo_owned_epoch. discriminate.
Defined.

(** Host [h0] holds the actor and is about to write its first commit. *)
Definition demo_held : pool process := exec demo_pool (replicate 7 (Run 0)).
Definition demo_host : world process := view demo_held (default process_new (locals demo_held !! 0%nat)).

Lemma demo_host_ok : own_inv demo_host ∧ local_inv demo_host.
Proof.
  unfold demo_host. apply (hosts_view Local demo_pool demo_held 0).
  - exact demo_hosts.
  - intros pid l. unfold demo_pool. cbn [locals]. rewrite !lookup_insert. intros Hl key r Hr.
    repeat case_decide; simplify_eq; by rewrite lookup_empty in Hr.
  - apply exec_steps.
  - vm_compute. reflexivity.
Qed.

Lemma acknowledged_commit_survives_witness :
  (run (write_snapshot demo_plan demo_state) demo_host).1 = Ok () ∧
  wp rely guar (write_snapshot demo_plan demo_state) (λ res w', res = Ok () →
    object_name demo_plan = stream_object (plan_stream demo_plan) (plan_state_version demo_plan) ∧
    kept_bytes w' (object_name demo_plan) demo_state ∧
    survives demo_plan w') demo_host.
Proof.
  split; [vm_compute; reflexivity|].
  apply (acknowledged_commit_survives demo_plan demo_state demo_host); apply demo_host_ok.
Defined.
