(* ===== verification/History.v ===== *)
(** * State history ([src/src/bucket/runtime/history.rs])

    Listing and inspecting the commits of an actor. Two owners may have stored the
    same state version; the later epoch's commit is the one that counts. *)

From S2P Require Import Prelude Text Demo Names Payload StateLog Effects Concurrency Buckets Recovery Runtime Ownership Takeover.
From Stdlib Require Import Sorting.Sorted.
Local Open Scope N_scope.

Record StateRecord := {
  record_state_version : N;
  record_owner_epoch : N;
  record_request_id : bytes;
  record_attribution : option StateAttribution;
}.

Record InspectedState `{JsonValue} := {
  inspected_record : StateRecord;
  inspected_state : Value;
}.

Record StateHistoryPage := {
  records : list StateRecord;
  next_before : option N;
}.

(** Sorting by position, greatest first. *)
Fixpoint insert_position (x : (N * N) * bytes) (l : list ((N * N) * bytes)) : list ((N * N) * bytes) :=
  match l with
  | [] => [x]
  | y :: l => if position_lt (Some (fst x)) (Some (fst y)) then y :: insert_position x l else x :: y :: l
  end.

Definition sort_positions (l : list ((N * N) * bytes)) : list ((N * N) * bytes) :=
  foldr insert_position [] l.

(** [versions.retain] with [seen.insert(version)] *)
Fixpoint retain_first (seen : gset N) (l : list ((N * N) * bytes)) : list ((N * N) * bytes) :=
  match l with
  | [] => []
  | x :: l => if decide (snd (fst x) ∈ seen) then retain_first seen l
              else x :: retain_first ({[snd (fst x)]} ∪ seen) l
  end.

Section history.
Context `{JsonValue} `{!Json (Envelope StateSnapshot), !Json StateSnapshot, !Json LegacySnapshot}.
Context `{Digest} `{Base64} `{!Json StateRecord}.
Context `{!SnapshotStore process}.

(** Restoring a database and reading its fields ([restored_fields] of
    [src/src/litestream/storage.rs]) is Litestream and SQLite. *)
Context (restored_fields : list LtxFile → N → prog process Value).

Definition to_record (s : StateSnapshot) : StateRecord :=
  {| record_state_version := state_version s; record_owner_epoch := owner_epoch s;
     record_request_id := request_id s; record_attribution := attribution s |}.

(** The listed keys that name a commit of the actor. *)
Definition positioned (actor : ActorKey) (keys : list bytes) : list ((N * N) * bytes) :=
  omap (λ key,
    p ← snapshot_position key;
    if is_ok (validate_snapshot_object_name actor (snd p) key) then Some (p, key) else None) keys.

Definition select_versions (actor : ActorKey) (keys : list bytes) : list ((N * N) * bytes) :=
  retain_first ∅ (sort_positions (positioned actor keys)).

Definition stored_versions (actor : ActorKey) : prog process (list ((N * N) * bytes)) :=
  pre ← lift (snapshots actor);
  keys ← ss_list pre;
  mret (select_versions actor keys).

Definition read_sqlite (obj bs : bytes) : prog process SqliteSnapshot := ss_restore_prefetched obj bs None.

Definition read_stored_state (key : bytes) : prog process (option InspectedState) :=
  o ← read_persisted key;
  match o with
  | None => mret None
  | Some bs =>
      lift (decode_snapshot key bs);;
      s ← lift (snapshot_decode bs);
      q ← read_sqlite key bs;
      fields ← restored_fields (files q) (txid q);
      mret (Some {| inspected_record := to_record s; inspected_state := fields |})
  end.

Definition read_commit (key : bytes) : prog process (option StateSnapshot) :=
  o ← read_persisted key;
  match o with
  | None => mret None
  | Some bs =>
      l ← lift (decode_snapshot key bs);
      s ← lift (snapshot_decode (loaded_bytes l));
      mret (Some s)
  end.

Definition cache_history_record (key : bytes) (r : StateRecord) : prog process unit :=
  bs ← lift (payload_encode r);
  deadline "deadline has elapsed" (replace Authority key None bs);;
  mret ().

Definition history_record (snapshot_key : bytes) : prog process (option StateRecord) :=
  let key := snapshot_key ++ b".metadata" in
  cached ← bucket_get Authority key;
  match cached with
  | Some o => r ← lift (ctx (from_json (obj_bytes o)) "invalid history metadata"); mret (Some r)
  | None =>
      c ← read_commit snapshot_key;
      match c with
      | None => mret None
      | Some s =>
          let r := to_record s in
          attempt (cache_history_record key r);;
          mret (Some r)
      end
  end.

Definition inspect_state (actor : ActorKey) (version : option N) : prog process (option InspectedState) :=
  versions ← stored_versions actor;
  match List.find (λ x, match version with None => true | Some v => v =? snd (fst x) end) versions with
  | None => mret None
  | Some (_, key) => read_stored_state key
  end.

(** The versions a page shows, and whether there are more. *)
Definition page_versions (versions : list ((N * N) * bytes)) (before : option N) (limit : N)
    : list ((N * N) * bytes) * bool :=
  let versions := List.filter (λ x, match before with None => true | Some t => snd (fst x) <? t end) versions in
  (takeN limit versions, limit <? len versions).

(** The reads run up to eight at a time in the source, with their results in
    order; here they run one after the other. *)
Definition state_history (actor : ActorKey) (before : option N) (limit : N) : prog process StateHistoryPage :=
  versions ← stored_versions actor;
  let '(versions, more) := page_versions versions before limit in
  rs ← mapP (λ x, history_record (snd x)) versions;
  let rs := omap id rs in
  mret {| next_before := if more then fmap (M:=option) record_state_version (list.last rs) else None;
          records := rs |}.

End history.

(** ** Lemmas *)

Lemma elem_of_insert_position x y l : x ∈ insert_position y l ↔ x = y ∨ x ∈ l.
Proof.
  induction l as [|z l IH]; cbn [insert_position]; [set_solver|]. case_match; rewrite ?elem_of_cons, ?IH; set_solver.
Qed.

Lemma elem_of_sort_positions x l : x ∈ sort_positions l ↔ x ∈ l.
Proof.
  unfold sort_positions. induction l as [|y l IH]; simpl; [done|].
  by rewrite elem_of_insert_position, IH, elem_of_cons.
Qed.

(** Greatest position first. *)
Definition descending : list ((N * N) * bytes) → Prop :=
  StronglySorted (λ x y, position_le (Some (fst y)) (Some (fst x))).

Lemma insert_position_descending x l : descending l → descending (insert_position x l).
Proof.
  intros Hl. induction Hl as [|y l Hl IH Hy]; cbn [insert_position]; [by repeat constructor|].
  destruct (position_lt (Some (fst x)) (Some (fst y))) eqn:E.
  - constructor; [done|]. apply Forall_forall. intros z [->|Hz]%elem_of_insert_position.
    + by apply position_lt_le.
    + rewrite Forall_forall in Hy. by apply Hy.
  - constructor; [by constructor|]. constructor; [exact E|].
    eapply Forall_impl; [exact Hy|]. intros z Hz. simpl in Hz. etrans; [exact Hz|exact E].
Qed.

Lemma sort_positions_descending l : descending (sort_positions l).
Proof. induction l as [|x l IH]; simpl; [constructor|]. by apply insert_position_descending. Qed.

Lemma elem_of_retain_first seen x l :
  x ∈ retain_first seen l → x ∈ l ∧ snd (fst x) ∉ seen.
Proof.
  revert seen; induction l as [|y l IH]; intros seen; simpl; [set_solver|]. case_decide.
  - intros [? ?]%IH. set_solver.
  - intros [->|Hx]%elem_of_cons; [set_solver|]. apply IH in Hx. set_solver.
Qed.

(** Of the entries with one version, a sorted list keeps the greatest. *)
Lemma retain_first_greatest seen x l :
  descending l → x ∈ l → snd (fst x) ∉ seen →
  ∃ y, y ∈ retain_first seen l ∧ snd (fst y) = snd (fst x) ∧
    position_le (Some (fst x)) (Some (fst y)).
Proof.
  intros Hl. revert seen; induction Hl as [|y l Hl IH Hy]; intros seen Hx Hn; [set_solver|]. simpl.
  destruct (decide (snd (fst y) = snd (fst x))) as [E|E].
  - rewrite decide_False by congruence. exists y. split_and!; [set_solver|done|].
    apply elem_of_cons in Hx as [->|Hx]; [reflexivity|]. rewrite Forall_forall in Hy. by apply Hy.
  - assert (x ∈ l) as Hx' by (apply elem_of_cons in Hx as [->|]; done). case_decide.
    + by apply IH.
    + destruct (IH ({[snd (fst y)]} ∪ seen)) as (z & Hz & ? & ?); [done|set_solver|]. exists z. set_solver.
Qed.

Lemma retain_first_distinct seen l : NoDup (snd ∘ fst <$> retain_first seen l).
Proof.
  revert seen; induction l as [|x l IH]; intros seen; simpl; [constructor|]. case_decide; [done|].
  simpl. constructor; [|done]. intros (y & E & Hy)%list_elem_of_fmap.
  apply elem_of_retain_first in Hy as [_ Hy]. simpl in E. set_solver.
Qed.

Lemma retain_first_descending seen l : descending l → descending (retain_first seen l).
Proof.
  intros Hl. revert seen; induction Hl as [|y l Hl IH Hy]; intros seen; simpl; [constructor|].
  case_decide; [apply IH|]. constructor; [apply IH|]. apply Forall_forall. intros z Hz%elem_of_retain_first.
  rewrite Forall_forall in Hy. by apply Hy, Hz.
Qed.

Section history_lemmas.
Context `{Digest} `{Base64}.

(** The history of an actor shows each state version once, as the latest owner
    epoch stored it: the chosen commits are exactly named commits of the actor,
    their versions are distinct, they are ordered newest first, and no listed
    commit of the actor with the same version has a greater epoch. *)
Theorem select_versions_spec (actor : ActorKey) (keys : list bytes) :
  let chosen := select_versions actor keys in
  NoDup (snd ∘ fst <$> chosen) ∧ descending chosen ∧
  (∀ e v key, ((e, v), key) ∈ chosen → key ∈ keys ∧ snapshot_position key = Some (e, v) ∧
     validate_snapshot_object_name actor v key = Ok ()) ∧
  (∀ e v key, key ∈ keys → snapshot_position key = Some (e, v) →
     validate_snapshot_object_name actor v key = Ok () →
     ∃ e' key', ((e', v), key') ∈ chosen ∧ e ≤ e').
Proof.
  unfold select_versions. split_and!.
  - apply retain_first_distinct.
  - apply retain_first_descending, sort_positions_descending.
  - intros e v key [Hin _]%elem_of_retain_first. rewrite elem_of_sort_positions in Hin.
    apply list_elem_of_omap in Hin as (k & Hk & Hp). apply bind_Some in Hp as (p & Hp & Hv).
    case_match eqn:Hok; [|done]. simplify_eq. split_and!; [done..|].
    simpl in Hok. by destruct (validate_snapshot_object_name _ _ _) as [[]|].
  - intros e v key Hk Hp Hv.
    assert (((e, v), key) ∈ sort_positions (positioned actor keys)) as Hin.
    { apply elem_of_sort_positions, list_elem_of_omap. exists key. split; [done|].
      rewrite Hp. simpl. by rewrite Hv. }
    destruct (retain_first_greatest ∅ _ _ (sort_positions_descending _) Hin) as ([[e' v'] key'] & Hy & E & Hle);
      [set_solver|]. simpl in *. subst v'. exists e', key'. split; [done|].
    unfold position_le in Hle. simpl in Hle. apply orb_false_iff in Hle as [Hle _]. by apply N.ltb_ge.
Qed.
End history_lemmas.
