(* ===== verification/FileRefines.v ===== *)
(** * The file-backed bucket refines the bucket contract

    Every call of [FileBucket] ([src/src/bucket/file.rs]) behaves as the contract
    of the [Bucket] trait allows, so what is proved of programs over that contract
    holds on a single-machine deployment; and [replace] of [src/src/bucket.rs]
    reports exactly what happened when no one else writes the key. *)

From S2P Require Import Prelude Text Demo Names Payload StateLog Effects Concurrency Buckets.
Local Open Scope N_scope.

(** ** Sorting names *)

Lemma insert_sorted_swap x y l :
  insert_sorted x (insert_sorted y l) = insert_sorted y (insert_sorted x l).
Proof.
  induction l as [|z l IH]; simpl.
  - destruct (bytes_leb x y) eqn:Exy, (bytes_leb y x) eqn:Eyx; try done.
    + by rewrite (bytes_leb_antisym x y).
    + destruct (bytes_leb_total x y); congruence.
  - destruct (bytes_leb x z) eqn:Exz, (bytes_leb y z) eqn:Eyz; simpl; rewrite ?Exz, ?Eyz.
    + destruct (bytes_leb x y) eqn:Exy, (bytes_leb y x) eqn:Eyx; rewrite ?Exz, ?Eyz; try done.
      * by rewrite (bytes_leb_antisym x y).
      * destruct (bytes_leb_total x y); congruence.
    + destruct (bytes_leb y x) eqn:Eyx; [|done]. by rewrite (bytes_leb_trans y x z) in Eyz.
    + destruct (bytes_leb x y) eqn:Exy; [|done]. by rewrite (bytes_leb_trans x y z) in Exz.
    + by rewrite IH.
Qed.

Lemma sort_names_perm l k : l ≡ₚ k → sort_names l = sort_names k.
Proof.
  unfold sort_names. induction 1 as [|x l k _ IH|x y l|l k m _ IH1 _ IH2]; simpl;
    [done|by rewrite IH|apply insert_sorted_swap|congruence].
Qed.

(** ** The directory as a bucket *)

Definition file_object (content : bytes) : BucketObject :=
  {| generation := FileBucket.from_be_i64 (takeN 8 content); obj_bytes := dropN 8 content |}.

(** Files the bucket itself wrote: an accepted name, a generation and an object
    that fits in memory. *)
Definition well_formed (fs : FileBucket.files) : Prop :=
  map_Forall (λ key content, FileBucket.object_path key = Ok key ∧ 8 ≤ len content ∧
    len content ≤ MAX_FILE_BYTES ∧
    (0 < FileBucket.from_be_i64 (takeN 8 content) ≤ i64_max)%Z) fs.

Definition directory {L : Type} (i : bucket_id) (fs : FileBucket.files) (w : world L) : Prop :=
  ∀ key, stored w i key = file_object <$> fs !! key.

Lemma from_to_be_i64 z : (0 ≤ z ≤ i64_max)%Z → FileBucket.from_be_i64 (FileBucket.to_be_i64 z) = z.
Proof.
  intros Hz. unfold FileBucket.from_be_i64, FileBucket.to_be_i64, i64_max in *.
  rewrite Z.mod_small by lia. rewrite from_to_be_bytes.
  - rewrite Z2N.id by lia. destruct (Z.ltb_spec z (2 ^ 63)); lia.
  - change (256 ^ N.of_nat 8) with 18446744073709551616. lia.
Qed.

Lemma copy_small bs : len bs ≤ MAX_FILE_BYTES → copy [bs] = Ok bs.
Proof.
  intros Hl. unfold copy, spool_all.
  pose proof (write_all_concat [bs] spool_new [] spool_new_inv) as Hw.
  rewrite app_nil_l in Hw. cbn [concat] in Hw. rewrite app_nil_r, (proj2 (N.leb_le _ _) Hl) in Hw.
  destruct Hw as (s & -> & Hs). simpl. by rewrite (si_contents _ _ Hs).
Qed.

Lemma open_Ok fs path o : FileBucket.open fs path = Ok o → o = fs !! path.
Proof. unfold FileBucket.open. intros Ho. by inv_ok. Qed.

Lemma object_path_Ok key path : FileBucket.object_path key = Ok path → path = key.
Proof. unfold FileBucket.object_path. intros Hp. by inv_ok. Qed.

Section refines.
Context {L : Type}.
Implicit Types w : world L.

Lemma read_generation_small content :
  8 ≤ len content → FileBucket.read_generation content = Ok (FileBucket.from_be_i64 (takeN 8 content)).
Proof. intros Hl. unfold FileBucket.read_generation. by rewrite (proj2 (N.leb_le _ _) Hl). Qed.

Lemma get_refines i fs w key x :
  well_formed fs → directory i fs w → FileBucket.get fs key = Ok x → x = stored w i key.
Proof.
  intros Hwf Hd Hg. unfold FileBucket.get in Hg. apply bind_Ok in Hg as (p & ->%object_path_Ok & Hg).
  apply bind_Ok in Hg as (o & ->%open_Ok & Hg). rewrite Hd. destruct (fs !! key) as [c|] eqn:Ec; simpl in *; [|congruence].
  destruct (Hwf _ _ Ec) as (_ & Hl & Hcap & _). rewrite read_generation_small in Hg by done.
  cbn [mbind result_bind] in Hg. rewrite copy_small in Hg by (rewrite len_dropN; lia).
  cbn [mbind result_bind] in Hg. by injection Hg as <-.
Qed.

Lemma range_refines i fs w key start length x :
  well_formed fs → directory i fs w → FileBucket.range fs key start length = Ok x →
  step (BucketRange i key start length) w (Ok x) w.
Proof.
  intros Hwf Hd Hg. split; [done|]. intros y [= <-]. unfold FileBucket.range in Hg.
  apply bind_Ok in Hg as (p & ->%object_path_Ok & Hg).
  apply bind_Ok in Hg as (o & ->%open_Ok & Hg). rewrite Hd. destruct (fs !! key) as [c|] eqn:Ec; simpl in *; [|congruence].
  destruct (Hwf _ _ Ec) as (_ & Hl & Hcap & _). rewrite read_generation_small in Hg by done.
  cbn [mbind result_bind] in Hg. apply bind_Ok in Hg as (from & Hf & Hg). inv_ok.
  match goal with E : len _ = length |- _ => symmetry in E; revert E end. subst. intros Hlen.
  match goal with H : copy _ = Ok _ |- _ => rewrite copy_small in H by (rewrite len_takeN, len_dropN; lia);
    injection H as <- end.
  rewrite len_takeN, len_dropN in Hlen.
  rewrite len_dropN. split; [lia|]. do 2 f_equal. unfold sliceN.
  rewrite dropN_dropN. f_equal; [lia|]. f_equal. lia.
Qed.

Lemma cas_refines i fs fs' w key expected bs c :
  well_formed fs → directory i fs w → len bs + 8 ≤ MAX_FILE_BYTES →
  FileBucket.compare_and_swap fs key expected bs = Ok (c, fs') →
  ∃ w', step (BucketCas i key expected bs) w (Ok c) w' ∧ well_formed fs' ∧ directory i fs' w'.
Proof.
  intros Hwf Hd Hbs Hg. unfold FileBucket.compare_and_swap in Hg.
  apply bind_Ok in Hg as (p & Hp & Hg). pose proof (object_path_Ok _ _ Hp) as ->.
  apply bind_Ok in Hg as (o & ->%open_Ok & Hg).
  assert (match fs !! key with
          | Some content => g ← FileBucket.read_generation content; Ok (Some g)
          | None => Ok None
          end = Ok (generation <$> stored w i key)) as Hcur.
  { rewrite Hd. destruct (fs !! key) as [content|] eqn:Ec; [|done].
    destruct (Hwf _ _ Ec) as (_ & Hl & _). by rewrite read_generation_small. }
  rewrite Hcur in Hg. cbn [mbind result_bind] in Hg. case_decide as He.
  - injection Hg as <- <-. exists w. split_and!; [right; split_and!|..]; done.
  - apply bind_Ok in Hg as (next & Hn%ctx_Ok & Hg).
    assert (c = true ∧ fs' = <[key := FileBucket.to_be_i64 next ++ bs]> fs) as [-> ->]
      by (split; congruence). clear Hg.
    assert (0 < next ≤ i64_max ∧ ∀ old, stored w i key = Some old → generation old < next)%Z as [Hnext Hold].
    { unfold checked_add_i64 in Hn.
      destruct (Z.leb_spec (default 0%Z (generation <$> stored w i key) + 1) i64_max) as [Hle|]; [|done].
      injection Hn as <-. pose proof (Hd key) as Hk.
      destruct (fs !! key) as [content|] eqn:Ec; rewrite Hk in *; simpl in *.
      - destruct (Hwf _ _ Ec) as (_ & _ & _ & Hg). split; [lia|]. intros old [= <-]. simpl. lia.
      - split; [unfold i64_max; lia|]. by intros ? [=]. }
    assert (len (FileBucket.to_be_i64 next) = 8) as H8 by
      (unfold FileBucket.to_be_i64, to_be_bytes, len; rewrite length_reverse, length_to_le_bytes; done).
    assert (file_object (FileBucket.to_be_i64 next ++ bs) = {| generation := next; obj_bytes := bs |}) as Hobj.
    { unfold file_object. rewrite takeN_app_eq, dropN_app_eq by done. by rewrite from_to_be_i64 by lia. }
    assert (len (FileBucket.to_be_i64 next ++ bs) = 8 + len bs ∧
      FileBucket.from_be_i64 (takeN 8 (FileBucket.to_be_i64 next ++ bs)) = next) as [Hlen Hgen].
    { rewrite len_app, takeN_app_eq, from_to_be_i64 by (done || lia). by rewrite H8. }
    generalize dependent (FileBucket.to_be_i64 next ++ bs). intros content Hobj Hlen Hgen.
    exists (put_object w i key {| generation := next; obj_bytes := bs |}). split_and!.
    + left. split; [done|]. exists next. split_and!; [lia|done|reflexivity].
    + apply map_Forall_insert_2; [|done]. rewrite Hlen, Hgen. split_and!; [done|lia..].
    + intros key'. unfold stored. simpl. rewrite !lookup_insert.
      destruct (decide (key = key')) as [->|Hne].
      * rewrite decide_True by done. simpl. by rewrite Hobj.
      * rewrite decide_False by congruence. apply Hd.
Qed.

Lemma not_hidden key : FileBucket.object_path key = Ok key → FileBucket.hidden key = false.
Proof.
  unfold FileBucket.object_path, FileBucket.hidden. intros Hp. inv_ok.
  apply existsb_false. match goal with H : forallb _ _ = true |- _ => apply forallb_Forall in H;
    eapply Forall_impl; [exact H|] end.
  intros part Hv. unfold FileBucket.valid_part in Hv. by inv_ok.
Qed.

Lemma list_refines i fs w pre :
  well_formed fs → directory i fs w → FileBucket.list fs pre = bucket_names w i pre.
Proof.
  intros Hwf Hd. unfold FileBucket.list, bucket_names. apply sort_names_perm.
  apply NoDup_Permutation.
  - apply NoDup_filter, NoDup_elements.
  - apply NoDup_filter, NoDup_bind.
    + intros [[j1 k1] o1] [[j2 k2] o2] k H1 H2 Hk1 Hk2. repeat case_decide; try set_solver.
      apply list_elem_of_singleton in Hk1, Hk2. subst.
      apply elem_of_map_to_list in H1, H2. congruence.
    + intros [[j k] o] _. case_decide; [apply NoDup_singleton|apply NoDup_nil_2].
    + apply NoDup_map_to_list.
  - intros key. rewrite !list_elem_of_filter, elem_of_elements, elem_of_dom, list_elem_of_bind.
    split.
    + intros [[_ Hp] [c Hc]]. split; [done|]. exists ((i, key), file_object c).
      rewrite decide_True by done. split; [set_solver|]. apply elem_of_map_to_list.
      specialize (Hd key). unfold stored in Hd. by rewrite Hd, Hc.
    + intros [Hp ([[j k] o] & Hk & Hin)]. case_decide; [|set_solver].
      apply list_elem_of_singleton in Hk. subst. apply elem_of_map_to_list in Hin.
      specialize (Hd k). unfold stored in Hd. rewrite Hd in Hin.
      destruct (fs !! k) as [c|] eqn:Ec; [|done]. destruct (Hwf _ _ Ec) as (Hpath & _).
      split; [|done]. split; [by apply not_hidden|done].
Qed.
End refines.

(** C20. The file-backed bucket refines the bucket contract: from any directory the
    bucket itself wrote, every answer of [get], [range], [list] and
    [compare_and_swap] is one the contract allows, and a conditional write leaves a
    well-formed directory that holds the object with a larger generation. *)
Theorem file_bucket_refines {L : Type} (i : bucket_id) (fs : FileBucket.files) (w : world L) :
  well_formed fs → directory i fs w →
  (∀ key x, FileBucket.get fs key = Ok x → step (BucketGet i key) w (Ok x) w) ∧
  (∀ key start length x, FileBucket.range fs key start length = Ok x →
     step (BucketRange i key start length) w (Ok x) w) ∧
  (∀ pre, step (BucketList i pre) w (Ok (FileBucket.list fs pre)) w) ∧
  (∀ key expected bs c fs', len bs + 8 ≤ MAX_FILE_BYTES →
     FileBucket.compare_and_swap fs key expected bs = Ok (c, fs') →
     ∃ w', step (BucketCas i key expected bs) w (Ok c) w' ∧ well_formed fs' ∧ directory i fs' w').
Proof.
  intros Hwf Hd. split_and!.
  - intros key x Hg. split; [done|]. intros y [= <-]. by eapply get_refines.
  - intros key start length x Hg. by eapply range_refines.
  - intros pre. split; [done|]. intros ks [= <-]. by apply list_refines.
  - intros key expected bs c fs' Hbs Hc. by eapply cas_refines.
Qed.

(** ** Conditional replacement without competing writers *)

Section replace.
Context {L : Type} (i : bucket_id) (key : bytes).

(** Others may do anything but write [key]. *)
Definition same_object (w1 w2 : world L) : Prop := stored w2 i key = stored w1 i key.

#[local] Instance same_object_preorder : PreOrder same_object.
Proof. split; [done|]. intros w1 w2 w3 E1 E2. unfold same_object in *. congruence. Qed.

Lemma same_bytes_true o bs : same_bytes o bs = true ↔ obj_bytes <$> o = Some bs.
Proof. destruct o; simpl; [|done]. rewrite bool_decide_eq_true. naive_solver. Qed.

(** Conditional replacement reports what happened, although the answer of the
    write may have been lost or wrong: [true] means the object holds exactly these
    bytes, [false] that it was not written because its generation differed. *)
Theorem replace_reports (gen : option Z) (bs : bytes) (w : world L) :
  wp same_object (λ _ _, True) (replace i key gen bs) (λ r w',
    match r with
    | Ok true => obj_bytes <$> stored w' i key = Some bs ∧
        (stored w' i key = stored w i key ∨ generation <$> stored w i key = gen)
    | Ok false => stored w' i key = stored w i key ∧ generation <$> stored w i key ≠ gen
    | Err _ => stored w' i key = stored w i key ∨
        (generation <$> stored w i key = gen ∧ obj_bytes <$> stored w' i key = Some bs)
    end) w.
Proof.
  unfold replace. apply wp_bind, wp_attempt. intros w1 HR1 x w2 Hs. unfold same_object in HR1.
  split; [done|]. assert ((generation <$> stored w i key = gen ∧ obj_bytes <$> stored w2 i key = Some bs) ∨
    (stored w2 i key = stored w i key ∧ x ≠ Ok true ∧ (x = Ok false → generation <$> stored w i key ≠ gen)))
    as Hcase.
  { rewrite <- HR1. destruct Hs as [(He & g & _ & _ & ->)|(-> & Hx & Hf)]; [left|by right].
    split; [done|]. unfold stored. simpl. by rewrite lookup_insert_eq. }
  clear Hs. destruct x as [[]|e]; simpl; [destruct Hcase as [[]|(_ & Hx & _)]; [auto|by destruct Hx]| |];
    intros w3 HR3 y w4 [-> Hy]; (split; [done|]); unfold same_object in HR3; rewrite <- HR3 in Hcase;
    (destruct y as [o|e']; simpl; [specialize (Hy o eq_refl) as ->|tauto]);
    (destruct (same_bytes (stored w3 i key) bs) eqn:Eb; simpl).
  - apply same_bytes_true in Eb. tauto.
  - destruct Hcase as [[_ Hb%same_bytes_true]|(E & _ & Hg)]; [congruence|auto].
  - apply same_bytes_true in Eb. tauto.
  - tauto.
Qed.
End replace.

(** ** Witnesses *)

Definition demo_files : FileBucket.files :=
  {[ b"durable-actors/v3/owners/x.json" := FileBucket.to_be_i64 1 ++ b"record" ]}.

Definition demo_directory : world unit :=
  put_object {| buckets := ∅; write_log := ∅; zone_objects := ∅; clock := 0; uuids := 0; local := () |}
    Authority (b"durable-actors/v3/owners/x.json") {| generation := 1; obj_bytes := b"record" |}.

Lemma file_bucket_refines_witness :
  step (BucketGet Authority (b"durable-actors/v3/owners/x.json")) demo_directory
    (Ok (Some {| generation := 1; obj_bytes := b"record" |})) demo_directory.
Proof.
  refine (proj1 (file_bucket_refines Authority demo_files demo_directory _ _) _ _ _).
  - apply map_Forall_singleton. vm_compute. split_and!; done || discriminate.
  - intros key. unfold demo_files, demo_directory, stored. simpl buckets.
    destruct (decide (key = b"durable-actors/v3/owners/x.json")) as [->|Hne].
    + by rewrite lookup_insert_eq, lookup_singleton_eq.
    + rewrite lookup_insert_ne, lookup_singleton_ne by congruence. by rewrite lookup_empty.
  - vm_compute. reflexivity.
Defined.
