(* ===== verification/Lifecycle.v ===== *)
(** * Actor lifecycle reports

    [src/src/actor_lifecycle.rs], [src/src/actor_lifecycle/reconciliation.rs] and
    the reporter of [src/src/host/lifecycle.rs]: a host reports the life of its
    session as a numbered sequence; the control plane keeps the newest report of
    every actor, tells usage subscribers when a session starts and ends, and
    estimates the end of sessions it no longer hears from. *)

From S2P Require Import Prelude Text Demo Names Effects Btree.
Local Open Scope N_scope.

Definition STALE_AFTER_MS : N := 35000.
Definition HEARTBEAT_INTERVAL_MS : N := 10000.

Inductive LifecycleKind := Started | Heartbeat | Draining | Stopped.

#[global] Instance LifecycleKind_eq_dec : EqDecision LifecycleKind.
Proof. solve_decision. Defined.

(** [ResourceLimits] of [src/src/sandbox.rs] *)
Record ResourceLimits := {
  cpu_millis : N;
  cpu_limit_millis : option N;
  memory_mib : N;
  memory_limit_mib : option N;
}.

#[global] Instance ResourceLimits_eq_dec : EqDecision ResourceLimits.
Proof. solve_decision. Defined.

Record WaitingOperation := {
  waiting_id : bytes;
  operation : bytes;
}.

#[global] Instance WaitingOperation_eq_dec : EqDecision WaitingOperation.
Proof. solve_decision. Defined.

Record LifecycleReport := {
  kind : LifecycleKind;
  owner_epoch : N;
  sequence : N;
  started_at_ms : N;
  occurred_at_ms : N;
  resources : ResourceLimits;
  resident : option bool;
  last_active_at_ms : option N;
  waiting : list WaitingOperation;
}.

#[global] Instance LifecycleReport_eq_dec : EqDecision LifecycleReport.
Proof. solve_decision. Defined.

Record LifecycleEvent := {
  organization_id : option bytes;
  event_id : bytes;
  ev_actor : ActorKey;
  ev_host_id : bytes;
  ev_session_id : bytes;
  ev_region : bytes;
  received_at_ms : N;
  report : LifecycleReport;
}.

#[global] Instance LifecycleEvent_eq_dec : EqDecision LifecycleEvent.
Proof. solve_decision. Defined.

(** The order of the reports of one actor: owner epoch, then sequence. *)
Definition report_order (r : LifecycleReport) : N * N := (owner_epoch r, sequence r).

(** ** Residency *)

Inductive ActorResidency := Live | Dormant | Unknown.

#[global] Instance ActorResidency_eq_dec : EqDecision ActorResidency.
Proof. solve_decision. Defined.

Definition residency (event : LifecycleEvent) (now : N) : ActorResidency :=
  if kind (report event) == Stopped then Dormant
  else if STALE_AFTER_MS <? saturating_sub now (received_at_ms event) then Unknown
  else match resident (report event) with
       | Some true => Live
       | Some false => Dormant
       | None => Unknown
       end.

(** ** Usage updates *)

Record UsageUpdate := {
  usage_id : bytes;
  revision : N;
  ended_at_ms : option N;
  estimated : bool;
  update_event : LifecycleEvent;
}.

(** [UsageUpdate::from] *)
Definition usage_from (event : LifecycleEvent) : UsageUpdate :=
  {| usage_id := ev_host_id event ++ b":" ++ ev_session_id event;
     revision := wrap_u64 (sequence (report event) * 2);
     ended_at_ms := if kind (report event) == Stopped then Some (occurred_at_ms (report event)) else None;
     estimated := false;
     update_event := event |}.

Definition set_stopped (r : LifecycleReport) : LifecycleReport :=
  {| kind := Stopped; owner_epoch := owner_epoch r; sequence := sequence r;
     started_at_ms := started_at_ms r; occurred_at_ms := occurred_at_ms r; resources := resources r;
     resident := None; last_active_at_ms := last_active_at_ms r; waiting := [] |}.

Definition estimated_stop (event : LifecycleEvent) (now : N) : UsageUpdate :=
  let event :=
    {| organization_id := organization_id event; event_id := event_id event ++ b":estimated";
       ev_actor := ev_actor event; ev_host_id := ev_host_id event; ev_session_id := ev_session_id event;
       ev_region := ev_region event; received_at_ms := now; report := set_stopped (report event) |} in
  let update := usage_from event in
  {| usage_id := usage_id update; revision := wrap_u64 (revision update + 1);
     ended_at_ms := ended_at_ms update; estimated := true; update_event := update_event update |}.

(** ** The host's reporter ([src/src/host/lifecycle.rs]) *)

Module Reporter.

(** [ActorStatus] of [src/src/host/actor_host.rs] *)
Record ActorStatus := {
  status_waiting : list WaitingOperation;
  status_last_active : option N;
}.

(** What the reporter reads when it sends: the clock, which can fail, whether the
    executor has the actor in memory, and the status of the host. *)
Record reading := {
  now : option N;
  executor_resident : option bool;
  host_status : ActorStatus;
}.

(** The state of [run]: the running report and what [select!] still waits for. *)
Record state := {
  current : LifecycleReport;
  draining : bool;
  status_open : bool;
  residency_open : bool;
  running : bool;
}.

Definition new_report (epoch started : N) (limits : ResourceLimits) : LifecycleReport :=
  {| kind := Started; owner_epoch := epoch; sequence := 0; started_at_ms := started; occurred_at_ms := 0;
     resources := limits; resident := None; last_active_at_ms := None; waiting := [] |}.

(** [send]: the report handed to the transport, if the clock could be read. *)
Definition send (k : LifecycleKind) (s : reading) (r : LifecycleReport)
    : LifecycleReport * option LifecycleReport :=
  match now s with
  | None => (r, None)
  | Some t =>
      let stopped := k == Stopped in
      let r :=
        {| kind := k; owner_epoch := owner_epoch r; sequence := wrap_u64 (sequence r + 1);
           started_at_ms := started_at_ms r; occurred_at_ms := t; resources := resources r;
           resident := if stopped then Some false else executor_resident s;
           last_active_at_ms := status_last_active (host_status s);
           waiting := if stopped then [] else status_waiting (host_status s) |} in
      (r, Some r)
  end.

(** What one turn of [select!] can yield. *)
Inductive input :=
| Command (k : option LifecycleKind)
| Tick
| StatusChanged (open : bool)
| ResidencyChanged (open : bool).

(** The guards of the branches. *)
Definition enabled (i : input) (st : state) : bool :=
  running st &&
  match i with
  | Command _ => true
  | Tick => negb (draining st)
  | StatusChanged _ => negb (draining st) && status_open st
  | ResidencyChanged _ => negb (draining st) && residency_open st
  end.

Definition send_turn (k : LifecycleKind) (s : reading) (st : state) : state * option LifecycleReport :=
  let '(r, sent) := send k s (current st) in
  ({| current := r; draining := draining st || (k == Draining); status_open := status_open st;
      residency_open := residency_open st; running := k != Stopped |}, sent).

Definition turn (i : input) (s : reading) (st : state) : state * option LifecycleReport :=
  match i with
  | Command None =>
      ({| current := current st; draining := draining st; status_open := status_open st;
          residency_open := residency_open st; running := false |}, None)
  | Command (Some k) => send_turn k s st
  | Tick => send_turn Heartbeat s st
  | StatusChanged false =>
      ({| current := current st; draining := draining st; status_open := false;
          residency_open := residency_open st; running := running st |}, None)
  | ResidencyChanged false =>
      ({| current := current st; draining := draining st; status_open := status_open st;
          residency_open := false; running := running st |}, None)
  | StatusChanged true | ResidencyChanged true => send_turn Heartbeat s st
  end.

(** The loop, on the inputs that become ready; a disabled branch is never taken. *)
Fixpoint run_from (st : state) (ins : list (input * reading)) : list LifecycleReport :=
  match ins with
  | [] => []
  | (i, s) :: ins =>
      if enabled i st then
        let '(st, sent) := turn i s st in option_list sent ++ run_from st ins
      else run_from st ins
  end.

(** [start] and [run]: the first report is sent before the loop. *)
Definition run (epoch started : N) (limits : ResourceLimits) (residency_changes : bool) (first : reading)
    (ins : list (input * reading)) : list LifecycleReport :=
  let '(r, sent) := send Started first (new_report epoch started limits) in
  option_list sent ++
  run_from {| current := r; draining := false; status_open := true; residency_open := residency_changes;
              running := true |} ins.

End Reporter.
