(* ===== verification/Residency.v ===== *)
(** * Residency over time ([src/src/actor_lifecycle/residency.rs])

    The periods an observer is shown: for every instance of an actor, when it was
    live, dormant or not known, from the reports that were kept. The theorem says
    the periods are exactly the step function the reports define. *)

From S2P Require Import Prelude Text Demo Names Effects Btree Lifecycle.
Local Open Scope N_scope.

Definition EVENT_LIMIT : N := 10000.

Record ResidencyPeriod := {
  period_actor_id : bytes;
  status : ActorResidency;
  from_ms : N;
  to_ms : N;
}.

Record ResidencyHistory := {
  periods : list ResidencyPeriod;
  truncated : bool;
}.

(** [instances.entry(actor_id).or_default().push(event)] for every event. *)
Definition group_step (instances : list (bytes * list LifecycleEvent)) (e : LifecycleEvent) :=
  let k := actor_id (ev_actor e) in
  bt_insert k (default [] (bt_get k instances) ++ [e]) instances.

Definition group (events : list LifecycleEvent) : list (bytes * list LifecycleEvent) :=
  foldl group_step [] events.

(** [events.retain] with the running [latest_time] *)
Fixpoint retain_ordered (latest_time : N) (events : list LifecycleEvent) : list LifecycleEvent :=
  match events with
  | [] => []
  | e :: events =>
      let t := occurred_at_ms (report e) in
      let rest := retain_ordered (N.max latest_time t) events in
      if latest_time <=? t then e :: rest else rest
  end.

Definition order_leb (x y : LifecycleEvent) : bool :=
  pair_leb (report_order (report x)) (report_order (report y)).

Definition same_order (x y : LifecycleEvent) : bool :=
  report_order (report x) == report_order (report y).

Definition timeline (events : list LifecycleEvent) : list LifecycleEvent :=
  retain_ordered 0 (dedup_by same_order (sort_by order_leb events)).

(** [push]: [periods.last_mut()] is extended when the new period continues it. *)
Fixpoint push (periods : list ResidencyPeriod) (p : ResidencyPeriod) : list ResidencyPeriod :=
  if to_ms p <=? from_ms p then periods
  else
    match periods with
    | [] => [p]
    | [q] =>
        if (period_actor_id q == period_actor_id p) && (status q == status p) && (to_ms q =? from_ms p)
        then [{| period_actor_id := period_actor_id q; status := status q; from_ms := from_ms q;
                 to_ms := to_ms p |}]
        else [q; p]
    | q :: periods => q :: push periods p
    end.

Definition event_status (e : LifecycleEvent) : ActorResidency :=
  match kind (report e), resident (report e) with
  | Stopped, _ | _, Some false => Dormant
  | _, Some true => Live
  | _, None => Unknown
  end.

(** One turn of the loop over the events of an instance; [next] is the event after. *)
Definition push_event (from to : N) (a : bytes) (next : option LifecycleEvent)
    (acc : list ResidencyPeriod) (e : LifecycleEvent) : list ResidencyPeriod :=
  let t := occurred_at_ms (report e) in
  let start := N.max t from in
  let stop := match next with Some n => N.min (occurred_at_ms (report n)) to | None => to end in
  let known_until :=
    if kind (report e) == Stopped then stop else N.min (saturating_add t STALE_AFTER_MS) stop in
  let acc := push acc {| period_actor_id := a; status := event_status e; from_ms := start;
                         to_ms := known_until |} in
  push acc {| period_actor_id := a; status := Unknown; from_ms := N.max start known_until;
              to_ms := stop |}.

Fixpoint push_events (from to : N) (a : bytes) (acc : list ResidencyPeriod)
    (events : list LifecycleEvent) : list ResidencyPeriod :=
  match events with
  | [] => acc
  | e :: events => push_events from to a (push_event from to a (head events) acc e) events
  end.

Definition push_instance (from to : N) (acc : list ResidencyPeriod)
    (instance : bytes * list LifecycleEvent) : list ResidencyPeriod :=
  push_events from to (fst instance) acc (timeline (snd instance)).

Definition history (events : list LifecycleEvent) (from to : N) : ResidencyHistory :=
  {| truncated := EVENT_LIMIT <? len events;
     periods := foldl (push_instance from to) [] (group (takeN EVENT_LIMIT events)) |}.

(** ** The step function the reports define *)

(** A report that is not older than one that should precede it. *)
Definition settled (l : list LifecycleEvent) (e : LifecycleEvent) : Prop :=
  ∀ e', e' ∈ l → pair_ltb (report_order (report e')) (report_order (report e)) = true →
    occurred_at_ms (report e') ≤ occurred_at_ms (report e).

(** The report in force at time [t]: the last settled one at or before [t]. *)
Definition governs (l : list LifecycleEvent) (e : LifecycleEvent) (t : N) : Prop :=
  e ∈ l ∧ settled l e ∧ occurred_at_ms (report e) ≤ t ∧
  ∀ e', e' ∈ l → settled l e' →
    pair_ltb (report_order (report e)) (report_order (report e')) = true → t < occurred_at_ms (report e').

(** A stop is final; any other report is believed for [STALE_AFTER_MS]. *)
Definition status_at (e : LifecycleEvent) (t : N) : ActorResidency :=
  if kind (report e) == Stopped then Dormant
  else if t <? saturating_add (occurred_at_ms (report e)) STALE_AFTER_MS then
    match resident (report e) with Some true => Live | Some false => Dormant | None => Unknown end
  else Unknown.

(** One sequence number of one owner names one report. *)
Definition consistent (l : list LifecycleEvent) : Prop :=
  ∀ e e', e ∈ l → e' ∈ l → actor_id (ev_actor e) = actor_id (ev_actor e') →
    report_order (report e) = report_order (report e') → report e = report e'.

Lemma consistent_Forall l :
  consistent l ↔ Forall (λ e, Forall (λ e', actor_id (ev_actor e) = actor_id (ev_actor e') →
    report_order (report e) = report_order (report e') → report e = report e') l) l.
Proof.
  rewrite Forall_forall. setoid_rewrite Forall_forall. unfold consistent. split; eauto.
Qed.

#[global] Instance consistent_dec l : Decision (consistent l).
Proof.
  refine (match @decide _ _ with
          | left Hall => left (proj2 (consistent_Forall l) Hall)
          | right Hnot => right (λ Hc, Hnot (proj1 (consistent_Forall l) Hc))
          end).
Defined.

Definition of_instance (a : bytes) (l : list LifecycleEvent) : list LifecycleEvent :=
  filter (λ e, actor_id (ev_actor e) = a) l.

Definition in_period (p : ResidencyPeriod) (a : bytes) (s : ActorResidency) (t : N) : Prop :=
  period_actor_id p = a ∧ status p = s ∧ from_ms p ≤ t < to_ms p.

Definition covered (ps : list ResidencyPeriod) (a : bytes) (s : ActorResidency) (t : N) : Prop :=
  ∃ p, p ∈ ps ∧ in_period p a s t.

(** [q] comes after [p] and could not have been part of it. *)
Definition separate (p q : ResidencyPeriod) : Prop :=
  key_lt (period_actor_id p) (period_actor_id q) = true ∨
  period_actor_id p = period_actor_id q ∧
    (to_ms p < from_ms q ∨ to_ms p = from_ms q ∧ status p ≠ status q).

Definition well_formed (ps : list ResidencyPeriod) : Prop :=
  Sorted separate ps ∧ Forall (λ p, from_ms p < to_ms p) ps.

(** ** Pushing periods *)

#[local] Ltac bylia := intros; cbn beta in *; repeat match goal with
  | H : _ ∨ _ |- _ => destruct H
  | H : _ ∧ _ |- _ => destruct H
  end; solve [auto | right; split; [congruence | lia]].


(** Everything in [ps] ends by [lo], or belongs to an instance before [a]. *)
Definition ends_by (a : bytes) (lo : N) (ps : list ResidencyPeriod) : Prop :=
  Forall (λ p, key_lt (period_actor_id p) a = true ∨ period_actor_id p = a ∧ to_ms p ≤ lo) ps.

Lemma covered_cons p ps a s t : covered (p :: ps) a s t ↔ in_period p a s t ∨ covered ps a s t.
Proof. unfold covered. setoid_rewrite elem_of_cons. naive_solver. Qed.

Lemma covered_nil a s t : ¬ covered [] a s t.
Proof. intros (p & ?%elem_of_nil & _). done. Qed.

Lemma push_covered ps p a s t :
  Forall (λ p, from_ms p < to_ms p) ps → covered (push ps p) a s t ↔ covered ps a s t ∨ in_period p a s t.
Proof.
  induction 1 as [|q ps Hq Hps IH]; simpl.
  - destruct (N.leb_spec (to_ms p) (from_ms p)).
    + split; [by left|]. intros [?|(_ & _ & ?)]; [done|lia].
    + rewrite covered_cons. pose proof (covered_nil a s t). naive_solver.
  - destruct (N.leb_spec (to_ms p) (from_ms p)) as [Hle|Hlt].
    { split; [by left|]. intros [?|(_ & _ & ?)]; [done|lia]. }
    destruct ps as [|q' ps].
    + destruct (_ && _) eqn:E.
      * inv_ok. rewrite !covered_cons. pose proof (covered_nil a s t).
        unfold in_period. simpl. split.
        { intros [(? & ? & ?)|?]; [|done]. destruct (decide (t < to_ms q)); [left; left|right];
            split_and!; congruence || lia. }
        { intros [[(? & ? & ?)|?]|(? & ? & ?)]; [left|done|left]; split_and!; congruence || lia. }
      * rewrite !covered_cons. pose proof (covered_nil a s t). naive_solver.
    + rewrite !(covered_cons q), IH. naive_solver.
Qed.

Lemma push_head ps p q : head ps = Some q → ∃ q', head (push ps p) = Some q' ∧
  period_actor_id q' = period_actor_id q ∧ status q' = status q ∧ from_ms q' = from_ms q.
Proof.
  destruct ps as [|q0 ps]; intros [= ->]; simpl. case_match; [by exists q|].
  destruct ps; [case_match|]; eexists; (split; [reflexivity|done]).
Qed.

Lemma push_well_formed ps p a lo :
  well_formed ps → period_actor_id p = a → lo ≤ from_ms p → ends_by a lo ps →
  well_formed (push ps p) ∧ ends_by a (N.max lo (to_ms p)) (push ps p).
Proof.
  intros [Hs Hne] Ha Hlo. revert Hne. induction Hs as [|q ps Hs IH Hq]; intros Hne Hend; simpl.
  - unfold well_formed. destruct (N.leb_spec (to_ms p) (from_ms p)); [repeat constructor|].
    split; [split; repeat constructor; lia|]. constructor; [right; split; [done|lia]|done].
  - apply Forall_cons in Hne as [Hq0 Hne], Hend as [He Hend].
    assert (ends_by a (N.max lo (to_ms p)) (q :: ps)) as Hend'.
    { constructor; [bylia|]. eapply Forall_impl; [exact Hend|]. bylia. }
    destruct (N.leb_spec (to_ms p) (from_ms p)) as [Hle|Hlt]; [split; [split; by constructor|done]|].
    destruct ps as [|q' ps].
    + destruct (_ && _) eqn:E.
      * inv_ok. split; [split; repeat constructor; simpl; lia|].
        constructor; [|done]. right. simpl. split; [congruence|lia].
      * split; [split; [|by rewrite !Forall_cons]|].
        { constructor; [by repeat constructor|]. constructor. unfold separate.
          destruct He as [|[Ea He]]; [left; congruence|]. right. split; [congruence|].
          destruct (decide (to_ms q = from_ms p)) as [Et|]; [|left; lia]. right. split; [done|]. intros Est.
          rewrite Et, Est, N.eqb_refl, !bool_decide_eq_true_2 in E by congruence. done. }
        constructor; [bylia|]. constructor; [right; split; [done|lia]|done].
    + destruct (IH Hne Hend) as [[IHs IHne] IHe]. split; [split; [|by constructor]|].
      * constructor; [done|]. destruct (push_head (q' :: ps) p q' eq_refl) as (q2 & Hq2 & E1 & E2 & E3).
        destruct (push (q' :: ps) p) as [|? ?]; [done|]. injection Hq2 as ->. constructor.
        inversion Hq as [|? ? Hsep]; subst. unfold separate in *. by rewrite E1, E2, E3.
      * constructor; [|done]. bylia.
Qed.

Lemma push_period_well_formed acc a s f t lo :
  well_formed acc → ends_by a lo acc → lo ≤ f →
  well_formed (push acc {| period_actor_id := a; status := s; from_ms := f; to_ms := t |}) ∧
  ends_by a (N.max lo t) (push acc {| period_actor_id := a; status := s; from_ms := f; to_ms := t |}).
Proof.
  intros Hw He Hlo.
  exact (push_well_formed acc {| period_actor_id := a; status := s; from_ms := f; to_ms := t |} a lo
           Hw eq_refl Hlo He).
Qed.

(** ** The events of one instance *)

Definition time_le (x y : LifecycleEvent) : Prop :=
  occurred_at_ms (report x) ≤ occurred_at_ms (report y).

(** The last event at or before [t]. *)
Fixpoint last_at (events : list LifecycleEvent) (t : N) : option LifecycleEvent :=
  match events with
  | [] => None
  | e :: events =>
      match last_at events t with
      | Some x => Some x
      | None => if occurred_at_ms (report e) <=? t then Some e else None
      end
  end.

Lemma last_at_None events t :
  StronglySorted time_le events → (∀ e, head events = Some e → t < occurred_at_ms (report e)) →
  last_at events t = None.
Proof.
  intros Hs Hh. destruct Hs as [|e events Hs He]; [done|]. specialize (Hh e eq_refl).
  assert (Forall (λ x, t < occurred_at_ms (report x)) (e :: events)) as Hall.
  { constructor; [done|]. eapply Forall_impl; [exact He|]. unfold time_le. intros x ?. cbn beta in *. lia. }
  clear -Hall. induction Hall as [|x l Hx _ IH]; simpl; [done|]. rewrite IH.
  by destruct (N.leb_spec (occurred_at_ms (report x)) t); [lia|].
Qed.

Lemma last_at_Some events t e :
  head events = Some e → occurred_at_ms (report e) ≤ t → is_Some (last_at events t).
Proof.
  destruct events as [|x events]; intros [= ->] He; simpl. destruct (last_at events t); [done|].
  by destruct (N.leb_spec (occurred_at_ms (report e)) t); [|lia].
Qed.

(** The stretch of time event [e] is in force. *)
Definition stretch (from to : N) (next : option LifecycleEvent) (e : LifecycleEvent) (t : N) : Prop :=
  from ≤ t < to ∧ occurred_at_ms (report e) ≤ t ∧
  ∀ n, next = Some n → t < occurred_at_ms (report n).

Lemma push_event_covered from to a next acc e a' s t :
  well_formed acc → ends_by a (N.max (occurred_at_ms (report e)) from) acc →
  covered (push_event from to a next acc e) a' s t ↔
  covered acc a' s t ∨ (a' = a ∧ stretch from to next e t ∧ status_at e t = s).
Proof.
  intros Hw He. unfold push_event. cbn zeta.
  set (stop := match next with Some n => _ | None => _ end).
  set (known := if kind (report e) == Stopped then stop else _).
  set (te := occurred_at_ms (report e)) in *.
  assert (stretch from to next e t ↔ N.max te from ≤ t < stop) as Hst.
  { unfold stretch, stop. fold te. destruct next as [n|].
    - split; [intros (? & ? & Hn); specialize (Hn n eq_refl); lia|].
      intros ?. split_and!; [lia|lia|lia|]. intros ? [= <-]. lia.
    - split; [intros (? & ? & ?); lia|]. intros ?. split_and!; [lia|lia|lia|done]. }
  rewrite push_covered by (eapply push_well_formed; [done|done| |exact He]; simpl; lia).
  rewrite push_covered by apply Hw. rewrite Hst. unfold in_period. simpl.
  assert (known ≤ stop) as Hk by (unfold known; case_match; lia).
  assert (∀ s, N.max te from ≤ t < stop →
    status_at e t = s ↔ (t < known ∧ event_status e = s) ∨ (known ≤ t ∧ Unknown = s)) as Hs.
  { intros s' Ht. unfold status_at, event_status, known. fold te.
    destruct (kind (report e)); simpl; [| | |by intuition (lia || congruence)];
      destruct (N.ltb_spec t (saturating_add te STALE_AFTER_MS));
      destruct (resident (report e)) as [[]|]; intuition (lia || congruence). }
  split.
  - intros [[?|(<- & ? & ?)]|(<- & ? & ?)]; [by left|right..]; (split_and!; [done|lia..|]);
      apply Hs; [lia|left|lia|right]; (split; [lia|done]).
  - intros [?|(-> & Ht & H')]; [auto|]. apply (Hs s Ht) in H' as [[? <-]|[? <-]].
    + left. right. split_and!; [done|done|lia..].
    + right. split_and!; [done|done|lia..].
Qed.

Lemma push_event_well_formed from to a next acc e lo :
  well_formed acc → ends_by a (N.max (occurred_at_ms (report e)) from) acc →
  (∀ n, next = Some n → time_le e n ∧ occurred_at_ms (report n) ≤ lo) →
  well_formed (push_event from to a next acc e) ∧
  (is_Some next → ends_by a (N.max lo from) (push_event from to a next acc e)).
Proof.
  intros Hw He Hn. unfold push_event. cbn zeta.
  set (stop := match next with Some n => _ | None => _ end).
  set (known := if kind (report e) == Stopped then stop else _).
  assert (known ≤ stop) as Hk by (unfold known; case_match; lia).
  destruct (push_period_well_formed acc a (event_status e) (N.max (occurred_at_ms (report e)) from) known _
              Hw He) as [Hw1 He1]; [lia|].
  destruct (push_period_well_formed _ a Unknown
    (N.max (N.max (occurred_at_ms (report e)) from) known) stop _ Hw1 He1) as [Hw2 He2]; [lia|].
  split; [exact Hw2|]. intros [n En]. destruct (Hn n En) as [Hle Hlo]. unfold time_le in Hle.
  eapply Forall_impl; [exact He2|]. simpl. intros p Hp.
  assert (stop ≤ occurred_at_ms (report n)) by (unfold stop; rewrite En; lia).
  destruct Hp as [|[? ?]]; [by left|]. right. split; [done|lia].
Qed.

Lemma push_events_spec from to a events acc :
  StronglySorted time_le events → well_formed acc →
  (∀ e, head events = Some e → ends_by a (N.max (occurred_at_ms (report e)) from) acc) →
  well_formed (push_events from to a acc events) ∧
  ∀ a' s t, covered (push_events from to a acc events) a' s t ↔
    covered acc a' s t ∨
    (a' = a ∧ from ≤ t < to ∧ ∃ e, last_at events t = Some e ∧ status_at e t = s).
Proof.
  intros Hs. revert acc. induction Hs as [|e events Hs IH He]; intros acc Hw Hend; simpl.
  { split; [done|]. intros. split; [by left|]. intros [|(_ & _ & ? & [=] & _)]; done. }
  specialize (Hend e eq_refl).
  assert (∀ n, head events = Some n → time_le e n) as Hle.
  { intros n Hn. destruct events; simplify_eq/=. by apply Forall_cons in He as [? _]. }
  destruct (IH (push_event from to a (head events) acc e)) as [Hw' Hc].
  { apply (push_event_well_formed _ _ _ _ _ _ (default 0 (occurred_at_ms ∘ report <$> head events)) Hw Hend).
    intros n Hn. split; [auto|]. rewrite Hn. simpl. lia. }
  { intros n Hn. apply (push_event_well_formed _ _ _ _ _ _ (occurred_at_ms (report n)) Hw Hend); [|eauto].
    rewrite Hn. intros ? [= <-]. split; [auto|lia]. }
  split; [done|]. intros a' s t. rewrite Hc, push_event_covered by done. unfold stretch.
  destruct (last_at events t) as [x|] eqn:El.
  - assert (¬ ∀ n, head events = Some n → t < occurred_at_ms (report n)) as Hnot.
    { intros Hn. by rewrite last_at_None in El. }
    naive_solver.
  - assert (∀ n, head events = Some n → t < occurred_at_ms (report n)) as Hn.
    { intros n Hn. destruct (N.lt_ge_cases t (occurred_at_ms (report n))) as [|Hge]; [done|].
      apply (last_at_Some _ _ _ Hn) in Hge. rewrite El in Hge. by destruct Hge. }
    destruct (N.leb_spec (occurred_at_ms (report e)) t); naive_solver lia.
Qed.

(** ** The timeline keeps the settled reports *)

Definition before (x y : LifecycleEvent) : Prop :=
  pair_ltb (report_order (report x)) (report_order (report y)) = true.

Lemma before_neq x y : order_leb x y = true → same_order y x = false → before x y.
Proof.
  unfold order_leb, same_order, before. rewrite pair_ltb_leb, negb_true_iff. intros Hle Hne.
  destruct (pair_leb _ (report_order (report x))) eqn:E; [|done].
  apply bool_decide_eq_false in Hne. destruct Hne. by apply pair_leb_antisym.
Qed.

Lemma before_trans x y z : before x y → before y z → before x z.
Proof. unfold before. rewrite !pair_ltb_spec. lia. Qed.

Lemma dedup_from_strict last l :
  StronglySorted (leP order_leb) l → Forall (leP order_leb last) l →
  StronglySorted before (dedup_from same_order last l) ∧ Forall (before last) (dedup_from same_order last l).
Proof.
  intros Hs. revert last. induction Hs as [|x l Hs IH Hx]; intros last Hl; simpl; [split; constructor|].
  apply Forall_cons in Hl as [Hlx Hl]. destruct (same_order x last) eqn:E; [by apply IH|].
  destruct (IH x Hx) as [IHs IHf]. pose proof (before_neq _ _ Hlx E) as Hb.
  split; [by constructor|]. constructor; [done|]. eapply Forall_impl; [exact IHf|].
  intros y. by apply before_trans.
Qed.

Lemma dedup_sorted_strict l : StronglySorted before (dedup_by same_order (sort_by order_leb l)).
Proof.
  pose proof (sort_by_sorted order_leb (λ x y, pair_leb_total _ _) (λ x y z, pair_leb_trans _ _ _) l) as Hs.
  inversion Hs as [|x l' Hs' Hx]; subst; simpl; [constructor|].
  destruct (dedup_from_strict x l' Hs' Hx). by constructor.
Qed.

Lemma elem_of_retain_ordered t0 l x :
  StronglySorted before l →
  x ∈ retain_ordered t0 l ↔ x ∈ l ∧ t0 ≤ occurred_at_ms (report x) ∧
    ∀ y, y ∈ l → before y x → time_le y x.
Proof.
  intros Hs. revert t0. induction Hs as [|e l Hs IH He]; intros t0; simpl.
  { split; [by intros ?%elem_of_nil|]. by intros [?%elem_of_nil _]. }
  rewrite Forall_forall in He. unfold time_le in *.
  assert (∀ y, y ∈ l → ¬ before y e) as Hno.
  { intros y Hy Hb. pose proof (He y Hy) as Hb'. unfold before in *. rewrite pair_ltb_spec in *. lia. }
  assert (x ∈ (if t0 <=? occurred_at_ms (report e) then e :: retain_ordered (N.max t0 (occurred_at_ms (report e))) l
               else retain_ordered (N.max t0 (occurred_at_ms (report e))) l) ↔
          (x = e ∧ t0 ≤ occurred_at_ms (report e)) ∨ x ∈ retain_ordered (N.max t0 (occurred_at_ms (report e))) l) as ->.
  { destruct (N.leb_spec t0 (occurred_at_ms (report e))); [rewrite elem_of_cons; naive_solver|].
    split; [by right|]. intros [[_ ?]|?]; [lia|done]. }
  rewrite IH, elem_of_cons. split.
  - intros [[-> Hle]|(Hx & Hle & Hb)].
    + split_and!; [by left|done|]. intros y [->|Hy]%elem_of_cons Hyb; [lia|]. by destruct (Hno y Hy).
    + split_and!; [by right|lia|]. intros y [->|Hy]%elem_of_cons Hyb; [lia|auto].
  - intros ([->|Hx] & Hle & Hb); [by left|]. right. split_and!; [done| |].
    + assert (occurred_at_ms (report e) ≤ occurred_at_ms (report x)) by (apply Hb; [set_solver|auto]). lia.
    + intros y Hy Hyb. apply Hb; [set_solver|done].
Qed.

Lemma retain_ordered_before t0 l : StronglySorted before l → StronglySorted before (retain_ordered t0 l).
Proof.
  intros Hs. revert t0. induction Hs as [|e l Hs IH He]; intros t0; simpl; [constructor|].
  case_match; [|done]. constructor; [done|]. rewrite Forall_forall in *. intros x Hx.
  apply elem_of_retain_ordered in Hx as [Hx _]; auto.
Qed.

Lemma retain_ordered_time t0 l : StronglySorted before l → StronglySorted time_le (retain_ordered t0 l).
Proof.
  intros Hs. revert t0. induction Hs as [|e l Hs IH He]; intros t0; simpl; [constructor|].
  case_match; [|done]. constructor; [done|]. rewrite Forall_forall in *. intros x Hx.
  apply elem_of_retain_ordered in Hx as (_ & Hle & _); [|done]. unfold time_le. lia.
Qed.

Lemma elem_of_deduped l x : x ∈ dedup_by same_order (sort_by order_leb l) → x ∈ l.
Proof. intros Hx%dedup_by_elem. by apply elem_of_sort_by in Hx. Qed.

Lemma deduped_rep l x :
  x ∈ l → ∃ y, y ∈ dedup_by same_order (sort_by order_leb l) ∧
    report_order (report x) = report_order (report y).
Proof.
  intros Hx. destruct (dedup_by_rep same_order (λ x, bool_decide_eq_true_2 _ eq_refl) (sort_by order_leb l) x)
    as (y & Hy & E); [by apply elem_of_sort_by|]. exists y. split; [done|]. by apply bool_decide_eq_true in E.
Qed.

Lemma last_at_elem l t e : last_at l t = Some e → e ∈ l ∧ occurred_at_ms (report e) ≤ t.
Proof.
  revert e. induction l as [|x l IH]; simpl; [done|]. intros e. destruct (last_at l t) as [y|].
  - intros [= <-]. destruct (IH y eq_refl). set_solver.
  - destruct (N.leb_spec (occurred_at_ms (report x)) t); [|done]. intros [= <-]. set_solver.
Qed.

Lemma last_at_latest l t e :
  StronglySorted before l → StronglySorted time_le l → last_at l t = Some e →
  ∀ y, y ∈ l → before e y → t < occurred_at_ms (report y).
Proof.
  intros Hs. revert e. induction Hs as [|x l Hs IH Hx]; intros e Ht; simpl; [done|].
  apply StronglySorted_inv in Ht as [Ht Hxt]. destruct (last_at l t) as [z|] eqn:El.
  - intros [= <-] y [->|Hy]%elem_of_cons Hb; [|by eapply IH].
    apply last_at_elem in El as [Hz _]. rewrite Forall_forall in Hx. specialize (Hx z Hz).
    unfold before in *. rewrite pair_ltb_spec in *. lia.
  - destruct (N.leb_spec (occurred_at_ms (report x)) t); [|done]. intros [= <-] y [->|Hy]%elem_of_cons Hb.
    + unfold before in Hb. rewrite pair_ltb_spec in Hb. lia.
    + destruct (N.lt_ge_cases t (occurred_at_ms (report y))) as [|Hge]; [done|].
      destruct l as [|z l]; [by apply elem_of_nil in Hy|].
      destruct (last_at_Some (z :: l) t z eq_refl) as [? E]; [|congruence].
      apply StronglySorted_inv in Ht as [_ Hz]. rewrite Forall_forall in Hz. unfold time_le in Hz.
      apply elem_of_cons in Hy as [->|Hy]; [done|]. specialize (Hz y Hy). lia.
Qed.

Lemma last_at_exists l t y :
  y ∈ l → occurred_at_ms (report y) ≤ t → is_Some (last_at l t).
Proof.
  intros Hy Hle. induction l as [|x l IH]; [by apply elem_of_nil in Hy|]. simpl.
  apply elem_of_cons in Hy as [<-|Hy].
  - destruct (last_at l t); [done|]. by destruct (N.leb_spec (occurred_at_ms (report y)) t); [|lia].
  - destruct (IH Hy) as [? ->]. done.
Qed.

Section instance.
Context (l : list LifecycleEvent).
Context (same_report : ∀ e e', e ∈ l → e' ∈ l →
  report_order (report e) = report_order (report e') → report e = report e').

Lemma elem_of_timeline x : x ∈ timeline l → x ∈ l ∧ settled l x.
Proof.
  intros Hx. apply elem_of_retain_ordered in Hx as (Hx & _ & Hs); [|apply dedup_sorted_strict].
  pose proof (elem_of_deduped _ _ Hx). split; [done|]. intros y Hy Hb.
  destruct (deduped_rep l y Hy) as (y' & Hy' & E). rewrite (same_report y y'); [|by eauto using elem_of_deduped..].
  apply Hs; [done|]. unfold before. by rewrite <- E.
Qed.

Lemma settled_in_timeline x :
  x ∈ l → settled l x → ∃ y, y ∈ timeline l ∧ y ∈ l ∧ report y = report x.
Proof.
  intros Hx Hs. destruct (deduped_rep l x Hx) as (y & Hy & E).
  pose proof (elem_of_deduped _ _ Hy) as Hyl. pose proof (same_report x y Hx Hyl E) as Er.
  exists y. split_and!; [|done..]. apply elem_of_retain_ordered; [apply dedup_sorted_strict|].
  split_and!; [done|lia|]. intros z Hz%elem_of_deduped Hb. unfold time_le. rewrite <- Er.
  apply Hs; [done|]. by rewrite Er.
Qed.

Lemma timeline_governs t s :
  (∃ e, last_at (timeline l) t = Some e ∧ status_at e t = s) ↔
  (∃ e, governs l e t ∧ status_at e t = s).
Proof.
  pose proof (dedup_sorted_strict l) as Hd.
  pose proof (retain_ordered_before 0 _ Hd) as Hb. pose proof (retain_ordered_time 0 _ Hd) as Ht.
  assert (∀ e, last_at (timeline l) t = Some e → governs l e t) as Hgov.
  { intros e He. pose proof (last_at_elem _ _ _ He) as [Hin Hle].
    destruct (elem_of_timeline e Hin) as [Hel Hes]. split_and!; [done..|].
    intros e' He' Hs' Hlt. destruct (settled_in_timeline e' He' Hs') as (y & Hy & _ & Er).
    rewrite <- Er in Hlt |- *. by apply (last_at_latest (timeline l) t e). }
  split; [naive_solver|]. intros (e & (Hel & Hes & Hle & Hlast) & Hst).
  destruct (settled_in_timeline e Hel Hes) as (y & Hy & Hyl & Er).
  destruct (last_at_exists (timeline l) t y Hy) as [x Hx]; [by rewrite Er|].
  destruct (Hgov x Hx) as (Hxl & Hxs & Hxle & Hxlast). exists x. split; [done|].
  assert (report x = report e) as E; [|unfold status_at in *; by rewrite E].
  apply same_report; [done..|]. apply pair_leb_antisym; apply negb_false_iff; rewrite <- pair_ltb_leb;
    apply not_true_iff_false; intros Hlt.
  - specialize (Hlast x Hxl Hxs Hlt). lia.
  - specialize (Hxlast e Hel Hes Hlt). lia.
Qed.
End instance.

(** ** Grouping by instance *)

Lemma group_snoc l e : group (l ++ [e]) = group_step (group l) e.
Proof. unfold group. by rewrite foldl_app. Qed.

Lemma group_increasing l : increasing (group l).
Proof.
  induction l as [|e l IH] using rev_ind; [constructor|]. rewrite group_snoc. by apply bt_insert_increasing.
Qed.

Lemma group_get l a : default [] (bt_get a (group l)) = of_instance a l.
Proof.
  unfold of_instance. induction l as [|e l IH] using rev_ind; [done|].
  rewrite group_snoc, filter_app. unfold group_step. rewrite bt_get_insert by apply group_increasing.
  case_decide as E; subst; simpl.
  - rewrite IH. by rewrite filter_cons_True.
  - rewrite filter_cons_False by done. by rewrite filter_nil, app_nil_r.
Qed.

Lemma group_elem l a es : (a, es) ∈ group l → es = of_instance a l.
Proof. intros Hin%bt_elem_get; [|apply group_increasing]. by rewrite <- group_get, Hin. Qed.

Definition earlier (a : bytes) (ps : list ResidencyPeriod) : Prop :=
  Forall (λ p, key_lt (period_actor_id p) a = true) ps.

Lemma push_instance_spec from to acc k es :
  well_formed acc → earlier k acc →
  well_formed (push_instance from to acc (k, es)) ∧
  (∀ a, key_lt k a = true → earlier a (push_instance from to acc (k, es))) ∧
  ∀ a s t, covered (push_instance from to acc (k, es)) a s t ↔
    covered acc a s t ∨
    (a = k ∧ from ≤ t < to ∧ ∃ e, last_at (timeline es) t = Some e ∧ status_at e t = s).
Proof.
  intros Hw Hk. unfold push_instance. simpl.
  destruct (push_events_spec from to k (timeline es) acc) as [Hw' Hc];
    [apply retain_ordered_time, dedup_sorted_strict|done| |].
  { intros e _. eapply Forall_impl; [exact Hk|]. by left. }
  split_and!; [done| |done]. intros a Ha. unfold earlier. apply Forall_forall. intros p Hp.
  pose proof (proj1 (Forall_forall _ _) (proj2 Hw') p Hp) as Hne. cbn beta in Hne.
  destruct (proj1 (Hc (period_actor_id p) (status p) (from_ms p))) as [(q & Hq & E & _)|(E & _)].
  - exists p. unfold in_period. split_and!; [done..|lia|done].
  - rewrite <- E. eapply key_lt_trans; [|exact Ha]. by apply (proj1 (Forall_forall _ _) Hk).
  - by rewrite E.
Qed.

Lemma push_instances_spec from to m acc :
  increasing m → well_formed acc → Forall (λ x, earlier (fst x) acc) m →
  well_formed (foldl (push_instance from to) acc m) ∧
  ∀ a s t, covered (foldl (push_instance from to) acc m) a s t ↔
    covered acc a s t ∨
    ∃ es, (a, es) ∈ m ∧ from ≤ t < to ∧ ∃ e, last_at (timeline es) t = Some e ∧ status_at e t = s.
Proof.
  intros Hm. revert acc. induction Hm as [|k es m Hk Hm IH]; intros acc Hw Hf; simpl.
  { split; [done|]. intros. split; [by left|]. intros [|(es & ?%elem_of_nil & _)]; done. }
  apply Forall_cons in Hf as [Hf _]. simpl in Hf.
  destruct (push_instance_spec from to acc k es Hw Hf) as (Hw' & He & Hc).
  destruct (IH (push_instance from to acc (k, es))) as [Hw2 Hc2]; [done| |].
  { eapply Forall_impl; [exact Hk|]. intros [j c] Hj. simpl in *. by apply He. }
  split; [done|]. intros a s t. rewrite Hc2, Hc. setoid_rewrite elem_of_cons. clear.
  naive_solver.
Qed.

(** C39. The periods an observer is shown are the step function the reports define:
    an instance has status [s] at time [t] of the window exactly when the last
    settled report at or before [t] gives it, a report other than a stop counting
    for [STALE_AFTER_MS] only; the periods of an instance are disjoint, in order,
    not empty and not split. *)
Theorem history_is_step_function (events : list LifecycleEvent) (from to : N) :
  consistent (takeN EVENT_LIMIT events) →
  well_formed (periods (history events from to)) ∧
  ∀ a s t, covered (periods (history events from to)) a s t ↔
    from ≤ t < to ∧
    ∃ e, governs (of_instance a (takeN EVENT_LIMIT events)) e t ∧ status_at e t = s.
Proof.
  intros Hc. set (evs := takeN EVENT_LIMIT events) in *. unfold history. fold evs. cbn [periods].
  destruct (push_instances_spec from to (group evs) []) as [Hw Hcov];
    [apply group_increasing|repeat constructor|by apply Forall_forall; constructor|].
  split; [done|]. intros a s t. rewrite Hcov.
  assert (∀ e e', e ∈ of_instance a evs → e' ∈ of_instance a evs →
    report_order (report e) = report_order (report e') → report e = report e') as Hsame.
  { intros e e' [? ?]%list_elem_of_filter [? ?]%list_elem_of_filter. apply Hc; congruence. }
  rewrite <- (timeline_governs _ Hsame). split.
  - intros [?%covered_nil|(es & Hin & ? & He)]; [done|]. apply group_elem in Hin as ->. done.
  - intros [Ht (e & He & Hs)]. right. destruct (bt_get a (group evs)) as [es|] eqn:E.
    + apply bt_get_elem in E. exists es. split; [done|]. apply group_elem in E as ->. eauto.
    + pose proof (group_get evs a) as Hg. rewrite E in Hg. simpl in Hg. by rewrite <- Hg in He.
Qed.

(** ** An example *)

Definition demo_event (id : bytes) (epoch seq t : N) (k : LifecycleKind) (r : option bool) : LifecycleEvent :=
  {| organization_id := None; event_id := []; ev_host_id := []; ev_session_id := []; ev_region := [];
     ev_actor := {| project_id := b"p"; actor_name := b"room"; actor_id := id |}; received_at_ms := t;
     report := {| kind := k; owner_epoch := epoch; sequence := seq; started_at_ms := 0; occurred_at_ms := t;
                  resources := {| cpu_millis := 250; cpu_limit_millis := None; memory_mib := 256;
                                  memory_limit_mib := None |};
                  resident := r; last_active_at_ms := None; waiting := [] |} |}.

(** Two instances, reported out of order and partly twice; the third report of [a]
    carries a clock that ran backwards. *)
Definition demo_events : list LifecycleEvent :=
  [demo_event (b"a") 1 3 1500 Heartbeat (Some false); demo_event (b"z") 1 1 3000 Started (Some true);
   demo_event (b"a") 1 1 1000 Started (Some true); demo_event (b"a") 1 2 2000 Heartbeat (Some true);
   demo_event (b"a") 1 2 2000 Heartbeat (Some true); demo_event (b"z") 1 2 60000 Stopped None].

Example demo_history :
  (λ p, (period_actor_id p, status p, from_ms p, to_ms p)) <$> periods (history demo_events 500 90000) =
  [(b"a", Live, 1000, 37000); (b"a", Unknown, 37000, 90000);
   (b"z", Live, 3000, 38000); (b"z", Unknown, 38000, 60000); (b"z", Dormant, 60000, 90000)].
Proof. vm_compute. reflexivity. Qed.

Lemma history_is_step_function_witness :
  consistent (takeN EVENT_LIMIT demo_events) ∧
  ∃ e, governs (of_instance (b"a") demo_events) e 20000 ∧ status_at e 20000 = Live.
Proof.
  assert (consistent (takeN EVENT_LIMIT demo_events)) as Hc 
    by (apply (bool_decide_unpack _); vm_compute; exact I).
  split; [exact Hc|].
  apply (history_is_step_function demo_events 500 90000 Hc).
  exists {| period_actor_id := b"a"; status := Live; from_ms := 1000; to_ms := 37000 |}.
  split; [vm_compute; constructor|]. by split_and!.
Defined.
