(* ===== verification/LifecycleStore.v ===== *)
(** * The control plane's lifecycle store

    [LifecycleStore] and [MemoryLifecyclePersistence] of
    [src/src/actor_lifecycle.rs] and [MemoryUsageSessions] of
    [src/src/actor_lifecycle/reconciliation.rs]. A [moka] cache is a map from which
    entries may disappear at any time ([Evict]); its iteration order is not fixed,
    so operations that iterate take the order as an argument. *)

From S2P Require Import Prelude Text Demo Names Effects Btree Lifecycle Residency.
Local Open Scope N_scope.

Definition BATCH_SIZE : N := 128.

#[global] Instance ActorKey_countable : Countable ActorKey.
Proof.
  refine (inj_countable' (λ a, (project_id a, actor_name a, actor_id a))
    (λ x, {| project_id := x.1.1; actor_name := x.1.2; actor_id := x.2 |}) _). by intros [].
Defined.

(** ** The newest report of every actor *)

Record MemoryLifecyclePersistence := {
  newest : gmap ActorKey LifecycleEvent;
  log : gmap (ActorKey * bytes) LifecycleEvent;
}.

(** [MemoryLifecyclePersistence::record] *)
Definition persist (event : LifecycleEvent) (p : MemoryLifecyclePersistence) : MemoryLifecyclePersistence :=
  {| log := <[(ev_actor event, event_id event) := event]> (log p);
     newest :=
       match newest p !! ev_actor event with
       | Some old =>
           if pair_leb (report_order (report event)) (report_order (report old)) then newest p
           else <[ev_actor event := event]> (newest p)
       | None => <[ev_actor event := event]> (newest p)
       end |}.

Definition actor_leb (x y : LifecycleEvent) : bool :=
  lex_leb (actor_name (ev_actor x)) (actor_name (ev_actor y))
    (negb (bytes_ltb (actor_id (ev_actor y)) (actor_id (ev_actor x)))).

Definition latest (project : bytes) (p : MemoryLifecyclePersistence) : list LifecycleEvent :=
  sort_by actor_leb (filter (λ e, project_id (ev_actor e) = project) (snd <$> map_to_list (newest p))).

(** The turn of [history]'s loop: an event in the window is kept, of the others
    only the newest of each instance. *)
Definition history_step (project name : bytes) (from to : N)
    (acc : list LifecycleEvent * list (bytes * LifecycleEvent)) (event : LifecycleEvent) :=
  let '(events, previous) := acc in
  let a := ev_actor event in
  let t := occurred_at_ms (report event) in
  if (project_id a != project) || (actor_name a != name) || (to <? t) then acc
  else if from <=? t then (events ++ [event], previous)
  else
    match bt_get (actor_id a) previous with
    | Some old =>
        if pair_ltb (report_order (report old)) (report_order (report event))
        then (events, bt_insert (actor_id a) event previous) else acc
    | None => (events, bt_insert (actor_id a) event previous)
    end.

(** Newest first; then by instance and event, descending. *)
Definition recent_leb (x y : LifecycleEvent) : bool :=
  (occurred_at_ms (report y) <? occurred_at_ms (report x)) ||
  ((occurred_at_ms (report y) =? occurred_at_ms (report x)) &&
   lex_leb (actor_id (ev_actor y)) (actor_id (ev_actor x)) (negb (bytes_ltb (event_id x) (event_id y)))).

Definition same_event (x y : LifecycleEvent) : bool :=
  (ev_actor x == ev_actor y) && (event_id x == event_id y).

Definition stored_history (project name : bytes) (from to : N) (p : MemoryLifecyclePersistence)
    : list LifecycleEvent :=
  let '(events, previous) :=
    foldl (history_step project name from to) ([], [])
      ((snd <$> map_to_list (log p)) ++ (snd <$> map_to_list (newest p))) in
  takeN (EVENT_LIMIT + 1) (dedup_by same_event (sort_by recent_leb (events ++ (snd <$> previous)))).

(** [ActorInventoryReader::residency_history] *)
Definition residency_history (project name : bytes) (from to : N) (p : MemoryLifecyclePersistence)
    : ResidencyHistory :=
  history (stored_history project name from to p) from to.

(** ** Inventory *)

Record ActorInstanceOverview := {
  instance_actor_id : bytes;
  instance_status : ActorResidency;
  instance_last_active : option N;
  instance_waiting : option (list WaitingOperation);
}.

Record ActorInventory := {
  inventory_name : bytes;
  live : N;
  dormant : N;
  unknown : N;
  instances : list ActorInstanceOverview;
}.

Definition instance_overview (event : LifecycleEvent) (st : ActorResidency) : ActorInstanceOverview :=
  {| instance_actor_id := actor_id (ev_actor event); instance_status := st;
     instance_last_active := last_active_at_ms (report event);
     instance_waiting :=
       match st with
       | Unknown => None
       | Dormant => if kind (report event) == Stopped then Some [] else Some (waiting (report event))
       | Live => Some (waiting (report event))
       end |}.

Definition inventory_step (now : N) (actors : list (bytes * ActorInventory)) (event : LifecycleEvent) :=
  let st := residency event now in
  let name := actor_name (ev_actor event) in
  let a := default {| inventory_name := name; live := 0; dormant := 0; unknown := 0; instances := [] |}
             (bt_get name actors) in
  bt_insert name
    {| inventory_name := inventory_name a;
       live := live a + (if st == Live then 1 else 0);
       dormant := dormant a + (if st == Dormant then 1 else 0);
       unknown := unknown a + (if st == Unknown then 1 else 0);
       instances := instances a ++ [instance_overview event st] |} actors.

Definition actor_inventory (project : bytes) (now : N) (p : MemoryLifecyclePersistence)
    : list ActorInventory :=
  snd <$> foldl (inventory_step now) [] (latest project p).

(** ** Usage sessions *)

Record Session := {
  session_event : LifecycleEvent;
  session_estimated : bool;
}.

(** A report is new to the session it belongs to. *)
Definition stale_report (event : LifecycleEvent) (previous : Session) : bool :=
  (sequence (report event) <=? sequence (report (session_event previous))) ||
  (kind (report (session_event previous)) == Stopped).

Definition expired (now : N) (s : Session) : bool :=
  negb (session_estimated s) && (kind (report (session_event s)) != Stopped) &&
  (STALE_AFTER_MS <=? saturating_sub now (received_at_ms (session_event s))).

Section store.
Context `{Base64}.
(** [serde_json::to_string] of the tuple that names a session. *)
Context `{!Json (bytes * bytes * bytes * N)}.

Definition session_key (event : LifecycleEvent) : bytes :=
  to_json (storage_key (ev_actor event), ev_host_id event, ev_session_id event, owner_epoch (report event)).

Definition observe (event : LifecycleEvent) (sessions : gmap bytes Session) : bool * gmap bytes Session :=
  let previous := sessions !! session_key event in
  if from_option (stale_report event) false previous then (false, sessions)
  else (from_option session_estimated false previous,
        <[session_key event := {| session_event := event; session_estimated := false |}]> sessions).

(** The loop of [expire], in the given order, until a batch is full. *)
Fixpoint expire_loop (now : N) (order : list bytes) (sessions : gmap bytes Session)
    (out : list LifecycleEvent) : list LifecycleEvent * gmap bytes Session :=
  match order with
  | [] => (out, sessions)
  | key :: order =>
      match sessions !! key with
      | Some s =>
          if expired now s then
            let out := out ++ [session_event s] in
            let sessions := <[key := {| session_event := session_event s; session_estimated := true |}]> sessions in
            if len out =? BATCH_SIZE then (out, sessions) else expire_loop now order sessions out
          else expire_loop now order sessions out
      | None => expire_loop now order sessions out
      end
  end.

Definition expire (now : N) (order : list bytes) (sessions : gmap bytes Session)
    : list LifecycleEvent * gmap bytes Session :=
  expire_loop now order sessions [].

(** ** The store *)

(** A [LifecycleObserver] is told of every valid report. *)
Class LifecycleObserver (Obs : Type) := observe_report : LifecycleEvent → Obs → result unit * Obs.

Context {Obs : Type} `{!LifecycleObserver Obs}.

(** [published] is what was handed to the publisher, which may lose it. *)
Record LifecycleStore := {
  persistence : MemoryLifecyclePersistence;
  usage : bool;
  published : list UsageUpdate;
  usage_sessions : gmap bytes Session;
  observer : option Obs;
}.

Definition publish_usage (update : UsageUpdate) (s : LifecycleStore) : LifecycleStore :=
  if usage s then
    {| persistence := persistence s; usage := usage s; published := published s ++ [update];
       usage_sessions := usage_sessions s; observer := observer s |}
  else s.

Definition set_sessions (m : gmap bytes Session) (s : LifecycleStore) : LifecycleStore :=
  {| persistence := persistence s; usage := usage s; published := published s; usage_sessions := m;
     observer := observer s |}.

Definition boundary (event : LifecycleEvent) : bool :=
  (kind (report event) == Started) || (kind (report event) == Stopped).

Definition record_usage (event : LifecycleEvent) (s : LifecycleStore) : LifecycleStore :=
  if usage s then
    let s := if boundary event then publish_usage (usage_from event) s else s in
    let '(corrected, sessions) := observe event (usage_sessions s) in
    let s := set_sessions sessions s in
    if corrected && negb (boundary event) then publish_usage (usage_from event) s else s
  else s.

Definition check_report (r : LifecycleReport) : result unit :=
  ensure ((0 <? sequence r) && (sequence r <? 4503599627370496)) "invalid lifecycle sequence";;
  ensure (0 <? owner_epoch r) "invalid ownership epoch";;
  ensure (started_at_ms r <=? occurred_at_ms r) "invalid lifecycle time range".

(** [record]: the three parts run concurrently on separate state. *)
Definition record (event : LifecycleEvent) (s : LifecycleStore) : result unit * LifecycleStore :=
  match check_report (report event) with
  | Err e => (Err e, s)
  | Ok _ =>
      let s := record_usage event s in
      let '(observed, o) :=
        match observer s with
        | Some o => let '(r, o) := observe_report event o in (r, Some o)
        | None => (Ok (), None)
        end in
      (observed,
       {| persistence := persist event (persistence s); usage := usage s; published := published s;
          usage_sessions := usage_sessions s; observer := o |})
  end.

Definition reconcile (now : N) (order : list bytes) (s : LifecycleStore) : LifecycleStore :=
  let '(events, sessions) := expire now order (usage_sessions s) in
  foldl (λ s event, publish_usage (estimated_stop event now) s) (set_sessions sessions s) events.

(** ** Histories of a store *)

Inductive store_op :=
| RecordEvent (event : LifecycleEvent)
| Reconcile (now : N) (order : list bytes)
| Evict (key : bytes).

Definition store_step (o : store_op) (s : LifecycleStore) : LifecycleStore :=
  match o with
  | RecordEvent event => snd (record event s)
  | Reconcile now order => reconcile now order s
  | Evict key => set_sessions (delete key (usage_sessions s)) s
  end.

Definition store_run (ops : list store_op) (s : LifecycleStore) : LifecycleStore :=
  foldl (λ s o, store_step o s) s ops.
End store.
Arguments LifecycleStore : clear implicits.
