(* ===== verification/Usage.v ===== *)
(** * Usage accounting converges

    What usage subscribers learn of a session does not depend on the order in
    which its reports arrive, on reports that are lost or delivered twice, nor on
    estimates made in between. *)

From S2P Require Import Prelude Text Demo Names Effects Btree Lifecycle Residency LifecycleStore.
Local Open Scope N_scope.

Section usage.
Context `{Base64} `{!Json (bytes * bytes * bytes * N)} {Obs : Type} `{!LifecycleObserver Obs}.
Implicit Types (s : LifecycleStore Obs) (e : LifecycleEvent) (u : UsageUpdate).

(** ** One session of the store *)

Definition updates (k : bytes) (us : list UsageUpdate) : list UsageUpdate :=
  filter (λ u, session_key (update_event u) = k) us.

(** What the store knows and has told of the session [k]. *)
Definition view (k : bytes) s : option Session * list UsageUpdate :=
  (usage_sessions s !! k, updates k (published s)).

(** Every session is filed under its own key. *)
Definition filed (m : gmap bytes Session) : Prop :=
  ∀ k x, m !! k = Some x → session_key (session_event x) = k.

Lemma updates_app k us vs : updates k (us ++ vs) = updates k us ++ updates k vs.
Proof. apply filter_app. Qed.

Lemma updates_one k u :
  updates k [u] = if decide (session_key (update_event u) = k) then [u] else [].
Proof. done. Qed.

Lemma key_usage e : session_key (update_event (usage_from e)) = session_key e.
Proof. done. Qed.

Lemma key_estimated e now : session_key (update_event (estimated_stop e now)) = session_key e.
Proof. done. Qed.

(** Reporting to the session. *)
Definition session_report e (v : option Session * list UsageUpdate) : option Session * list UsageUpdate :=
  let fresh := negb (from_option (stale_report e) false (fst v)) in
  (if fresh then Some {| session_event := e; session_estimated := false |} else fst v,
   snd v ++ (if boundary e || (fresh && from_option session_estimated false (fst v)) then [usage_from e] else [])).

Lemma record_view e s k :
  usage s = true → is_ok (check_report (report e)) = true →
  view k (snd (record e s)) = if decide (session_key e = k) then session_report e (view k s) else view k s.
Proof.
  intros Hu Hok. unfold record. destruct (check_report (report e)) as [u|]; [|done].
  set (s' := record_usage e s).
  transitivity (view k s').
  { destruct (observer s') as [o|]; [|done]. by destruct (observe_report e o). }
  unfold s', record_usage. rewrite Hu. unfold publish_usage, session_report, observe, view.
  destruct (boundary e) eqn:Hb; [rewrite Hu|]; simpl;
    destruct (from_option (stale_report e) false (usage_sessions s !! session_key e)) eqn:Es; simpl;
    rewrite ?andb_false_r, ?andb_true_r; simpl.
  - rewrite updates_app, updates_one, key_usage. case_decide as E; [subst|by rewrite app_nil_r]. by rewrite Es.
  - rewrite updates_app, updates_one, key_usage, lookup_insert.
    case_decide as E; [subst|by rewrite app_nil_r]. by rewrite Es.
  - case_decide as E; [subst|done]. rewrite Es. simpl. by rewrite app_nil_r.
  - destruct (from_option session_estimated false _) eqn:Ec; simpl.
    + rewrite Hu. simpl. rewrite updates_app, updates_one, key_usage, lookup_insert.
      case_decide as E; [subst|by rewrite app_nil_r]. by rewrite Es, Ec.
    + rewrite lookup_insert. case_decide as E; [subst|done]. rewrite Es, Ec. by rewrite app_nil_r.
Qed.

Lemma record_refused e s : is_ok (check_report (report e)) = false → snd (record e s) = s.
Proof. unfold record. by destruct (check_report (report e)). Qed.

Lemma record_filed e s : filed (usage_sessions s) → filed (usage_sessions (snd (record e s))).
Proof.
  intros Hf. unfold record. destruct (check_report (report e)); [|done].
  set (s' := record_usage e s). assert (filed (usage_sessions s')) as Hf'.
  { unfold s', record_usage, publish_usage, observe. destruct (usage s) eqn:Hu; [|done].
    destruct (boundary e); simpl; rewrite ?Hu; simpl;
      destruct (from_option (stale_report e) false _); simpl; try done;
      rewrite ?andb_true_r, ?andb_false_r; simpl;
      try destruct (from_option session_estimated false _); simpl; rewrite ?Hu; simpl;
      intros k x; rewrite lookup_insert; case_decide; try (intros [= <-]); subst; auto. }
  destruct (observer s') as [o|]; [|done]. by destruct (observe_report e o).
Qed.

(** What an expiry does to one session: nothing, or its stop is estimated. *)
Inductive expiry (now : N) : option Session → option Session → list LifecycleEvent → Prop :=
| expiry_none x : expiry now x x []
| expiry_some x : expired now x = true →
    expiry now (Some x) (Some {| session_event := session_event x; session_estimated := true |}) [session_event x].

Definition events_of (k : bytes) (l : list LifecycleEvent) : list LifecycleEvent :=
  filter (λ e, session_key e = k) l.

Lemma events_of_app k l l' : events_of k (l ++ l') = events_of k l ++ events_of k l'.
Proof. apply filter_app. Qed.

Lemma expired_once now x : expired now {| session_event := x; session_estimated := true |} = false.
Proof. done. Qed.

Lemma expiry_trans now x y z es es' :
  expiry now x y es → expiry now y z es' → expiry now x z (es ++ es').
Proof.
  destruct 1 as [|x Hx]; [done|]. intros Hz. inversion Hz as [|? Hno]; subst; [by constructor|].
  by rewrite expired_once in Hno.
Qed.

Lemma expire_loop_view now order m out :
  filed m →
  ∃ fresh, fst (expire_loop now order m out) = out ++ fresh ∧ filed (snd (expire_loop now order m out)) ∧
    ∀ k, expiry now (m !! k) (snd (expire_loop now order m out) !! k) (events_of k fresh).
Proof.
  revert m out. induction order as [|key order IH]; intros m out Hf; simpl.
  { exists []. rewrite app_nil_r. split_and!; [done..|]. constructor. }
  destruct (m !! key) as [x|] eqn:Em; [|by apply IH].
  destruct (expired now x) eqn:Ex; [|by apply IH].
  set (m' := <[key := _]> m).
  assert (session_key (session_event x) = key) as Hkey by (by apply Hf).
  assert (filed m') as Hf'.
  { intros k y. unfold m'. rewrite lookup_insert. case_decide; [intros [= <-]; simpl; congruence|apply Hf]. }
  assert (∀ k, expiry now (m !! k) (m' !! k) (events_of k [session_event x])) as Hstep.
  { intros k. unfold m', events_of. rewrite lookup_insert, filter_cons, filter_nil. rewrite Hkey.
    case_decide as E; [subst|constructor]. rewrite Em. by constructor. }
  destruct (len (out ++ [session_event x]) =? BATCH_SIZE); simpl.
  { exists [session_event x]. by split_and!. }
  destruct (IH m' (out ++ [session_event x]) Hf') as (fresh & E & Hf2 & Hv).
  exists (session_event x :: fresh). rewrite E, <- app_assoc. split_and!; [done..|]. intros k.
  rewrite (events_of_app k [_] fresh : events_of k (_ :: fresh) = _). by eapply expiry_trans.
Qed.

Definition session_expiry now (x' : option Session) (es : list LifecycleEvent)
    (v : option Session * list UsageUpdate) : option Session * list UsageUpdate :=
  (x', snd v ++ ((λ e, estimated_stop e now) <$> es)).

Lemma publish_all_view now k es s :
  usage s = true →
  view k (foldl (λ s e, publish_usage (estimated_stop e now) s) s es) =
  (usage_sessions s !! k, updates k (published s) ++ ((λ e, estimated_stop e now) <$> events_of k es)).
Proof.
  revert s. induction es as [|e es IH]; intros s Hu; simpl; [by rewrite app_nil_r|].
  rewrite IH by (unfold publish_usage; by rewrite Hu). unfold publish_usage. rewrite Hu. simpl.
  rewrite updates_app, updates_one, key_estimated. unfold events_of. rewrite filter_cons.
  case_decide; simpl; by rewrite ?app_nil_r, <- ?app_assoc.
Qed.

Lemma publish_all_sessions now es s :
  usage_sessions (foldl (λ s e, publish_usage (estimated_stop e now) s) s es) = usage_sessions s ∧
  usage (foldl (λ s e, publish_usage (estimated_stop e now) s) s es) = usage s.
Proof.
  revert s. induction es as [|e es IH]; intros s; simpl; [done|]. destruct (IH (publish_usage (estimated_stop e now) s)) as [-> ->].
  unfold publish_usage. by destruct (usage s) eqn:E; simpl; rewrite ?E.
Qed.

Lemma reconcile_view now order k s :
  usage s = true → filed (usage_sessions s) →
  ∃ x' es, expiry now (fst (view k s)) x' es ∧ view k (reconcile now order s) = session_expiry now x' es (view k s) ∧
    filed (usage_sessions (reconcile now order s)) ∧ usage (reconcile now order s) = true.
Proof.
  intros Hu Hf. unfold reconcile, expire.
  destruct (expire_loop_view now order (usage_sessions s) [] Hf) as (fresh & E & Hf' & Hv).
  destruct (expire_loop now order (usage_sessions s) []) as [out m]. simpl in *. subst out.
  exists (m !! k), (events_of k fresh). destruct (publish_all_sessions now fresh (set_sessions m s)) as [-> ->].
  split_and!; [apply Hv| |done..]. by rewrite publish_all_view.
Qed.

(** ** Convergence *)

(** The reports of one session: one report per sequence number, the stop last. *)
Definition numbered (l : list LifecycleEvent) : Prop :=
  ∀ e e', e ∈ l → e' ∈ l →
    (sequence (report e) = sequence (report e') → report e = report e') ∧
    (kind (report e) = Stopped → sequence (report e') ≤ sequence (report e)).

Lemma numbered_Forall l :
  numbered l ↔ Forall (λ e, Forall (λ e',
    (sequence (report e) = sequence (report e') → report e = report e') ∧
    (kind (report e) = Stopped → sequence (report e') ≤ sequence (report e))) l) l.
Proof.
  rewrite Forall_forall. setoid_rewrite Forall_forall. unfold numbered. split; eauto.
Qed.

#[global] Instance numbered_dec l : Decision (numbered l).
Proof.
  refine (match @decide _ _ with
          | left Hall => left (proj2 (numbered_Forall l) Hall)
          | right Hnot => right (λ Hc, Hnot (proj1 (numbered_Forall l) Hc))
          end).
Defined.

Definition stopped (x : Session) : Prop := kind (report (session_event x)) = Stopped.

(** What is true of a session after the reports [seen]. *)
Record told (seen : list LifecycleEvent) (x : Session) (us : list UsageUpdate) : Prop := {
  t_event : session_event x ∈ seen;
  t_newest e : e ∈ seen → sequence (report e) ≤ sequence (report (session_event x));
  t_stopped : stopped x → session_estimated x = false ∧ usage_from (session_event x) ∈ us;
  t_estimated : session_estimated x = true → ∃ now, estimated_stop (session_event x) now ∈ us;
  t_running u : ¬ stopped x → session_estimated x = false → u ∈ us → ended_at_ms u ≠ None →
    ∃ u', u' ∈ us ∧ revision u < revision u';
  t_revision u : u ∈ us →
    revision u ≤ 2 * sequence (report (session_event x)) + (if session_estimated x then 1 else 0);
}.

Definition told_of (seen : list LifecycleEvent) (v : option Session * list UsageUpdate) : Prop :=
  (∀ u, u ∈ snd v → ∃ e, e ∈ seen ∧ (u = usage_from e ∨ ∃ now, u = estimated_stop e now)) ∧
  match fst v with
  | None => seen = []
  | Some x => told seen x (snd v)
  end.

Section one_session.
Context (all : list LifecycleEvent) (all_numbered : numbered all).
Context (all_valid : ∀ e, e ∈ all → sequence (report e) < 4503599627370496).

Lemma revision_usage e : e ∈ all → revision (usage_from e) = 2 * sequence (report e).
Proof.
  intros He%all_valid. unfold usage_from, wrap_u64. simpl. rewrite N.mod_small by lia. lia.
Qed.

Lemma revision_estimated e now : e ∈ all → revision (estimated_stop e now) = 2 * sequence (report e) + 1.
Proof.
  intros He%all_valid. unfold estimated_stop, usage_from, wrap_u64. simpl.
  rewrite (N.mod_small (sequence (report e) * 2)) by lia. rewrite N.mod_small by lia. lia.
Qed.

Lemma ended_usage e : ended_at_ms (usage_from e) ≠ None ↔ kind (report e) = Stopped.
Proof. unfold usage_from. simpl. case_bool_decide; naive_solver. Qed.

Lemma told_stale seen x us e :
  seen ⊆ all → e ∈ all → told seen x us → stale_report e x = true →
  told (seen ++ [e]) x (us ++ (if boundary e then [usage_from e] else [])).
Proof.
  intros Hsub He Hx Hst. pose proof (Hsub _ (t_event _ _ _ Hx)) as Hxa.
  assert (sequence (report e) ≤ sequence (report (session_event x))) as Hle.
  { apply orb_true_iff in Hst as [?|Hk]; inv_ok; [done|]. by apply (all_numbered _ _ Hxa He). }
  destruct Hx as [T1 T2 T3 T4 T5 T6]. constructor.
  - set_solver.
  - intros e' [?| ->%list_elem_of_singleton]%elem_of_app; auto.
  - intros Hs. split; [by apply T3|]. apply elem_of_app. left. by apply T3.
  - intros [now ?]%T4. exists now. set_solver.
  - intros u Hns Hne [Hu|Hu]%elem_of_app Hend; [destruct (T5 u Hns Hne Hu Hend) as (u' & ? & ?); set_solver|].
    destruct (boundary e); [|by apply elem_of_nil in Hu]. apply list_elem_of_singleton in Hu as ->.
    apply ended_usage in Hend. destruct Hns. unfold stopped. rewrite <- Hend. f_equal.
    apply (all_numbered _ _ Hxa He). pose proof (proj2 (all_numbered _ _ He Hxa) Hend). lia.
  - intros u [?|Hu]%elem_of_app; [auto|]. destruct (boundary e); [|by apply elem_of_nil in Hu].
    apply list_elem_of_singleton in Hu as ->. rewrite revision_usage by done. lia.
Qed.

(** A report newer than everything the session was told. *)
Lemma told_fresh seen us e (estimated : bool) :
  e ∈ all → (∀ e', e' ∈ seen → sequence (report e') ≤ sequence (report e)) →
  (∀ u, u ∈ us → revision u < 2 * sequence (report e)) →
  (estimated = false → ∀ u, u ∈ us → ended_at_ms u ≠ None → ∃ u', u' ∈ us ∧ revision u < revision u') →
  told (seen ++ [e]) {| session_event := e; session_estimated := false |}
    (us ++ (if boundary e || estimated then [usage_from e] else [])).
Proof.
  intros He Hnew Hrev Hrun. constructor; simpl.
  - set_solver.
  - intros e' [?| ->%list_elem_of_singleton]%elem_of_app; [auto|lia].
  - unfold stopped, boundary. simpl. intros ->. split; [done|]. set_solver.
  - done.
  - intros u Hns _ [Hu|Hu]%elem_of_app Hend.
    + destruct (boundary e || estimated) eqn:Eb.
      * exists (usage_from e). split; [set_solver|]. rewrite revision_usage by done. auto.
      * apply orb_false_iff in Eb as [_ Ee]. destruct (Hrun Ee u Hu Hend) as (u' & ? & ?). set_solver.
    + destruct (boundary e || estimated); [|by apply elem_of_nil in Hu].
      apply list_elem_of_singleton in Hu as ->. by apply ended_usage in Hend.
  - intros u [Hu|Hu]%elem_of_app; [specialize (Hrev u Hu); lia|].
    destruct (boundary e || estimated); [|by apply elem_of_nil in Hu].
    apply list_elem_of_singleton in Hu as ->. rewrite revision_usage by done. lia.
Qed.

Lemma told_of_report seen v e :
  seen ⊆ all → e ∈ all → 0 < sequence (report e) → told_of seen v → told_of (seen ++ [e]) (session_report e v).
Proof.
  intros Hsub He Hpos [Hfrom Hv]. destruct v as [o us]. simpl in *. split.
  { simpl. intros u [Hu|Hu]%elem_of_app.
    - destruct (Hfrom u Hu) as (e' & ? & ?). exists e'. set_solver.
    - exists e. case_match; [|by apply elem_of_nil in Hu]. apply list_elem_of_singleton in Hu as ->. set_solver. }
  destruct o as [x|]; simpl.
  - destruct (stale_report e x) eqn:Es; simpl.
    + rewrite orb_false_r. by apply told_stale.
    + apply orb_false_iff in Es as [Hlt Hns]. inv_ok. destruct Hv as [T1 T2 T3 T4 T5 T6]. apply told_fresh; [done|..].
      * intros e' He'. specialize (T2 e' He'). lia.
      * intros u Hu. specialize (T6 u Hu). destruct (session_estimated x); lia.
      * intros Hne u. by apply T5.
  - subst seen. assert (us = []) as -> by (destruct us as [|u us]; [done|];
      by destruct (Hfrom u) as (e' & ?%elem_of_nil & _); [left|]).
    apply (told_fresh [] [] e false); [done|set_solver..].
Qed.

Lemma told_of_expiry seen now v x' es :
  seen ⊆ all → told_of seen v → expiry now (fst v) x' es → told_of seen (session_expiry now x' es v).
Proof.
  intros Hsub [Hfrom Hv] Hx. destruct v as [o us]. simpl in *. unfold session_expiry. simpl.
  destruct Hx as [|x Hx]; simpl; [by rewrite app_nil_r|].
  destruct Hv as [T1 T2 T3 T4 T5 T6]. pose proof (Hsub _ T1) as Ha.
  unfold expired in Hx. inv_ok. split; simpl.
  - intros u [Hu| ->%list_elem_of_singleton]%elem_of_app; [auto|]. eauto.
  - constructor; simpl; [done|done|by intros Hs| |done|].
    + exists now. set_solver.
    + intros u [Hu| ->%list_elem_of_singleton]%elem_of_app; [specialize (T6 u Hu); destruct (session_estimated x); lia|].
      rewrite revision_estimated by done. lia.
Qed.

(** The newest update tells whether the session runs. *)
Lemma told_newest x us u :
  told all x us → (∀ u, u ∈ us → ∃ e, e ∈ all ∧ (u = usage_from e ∨ ∃ now, u = estimated_stop e now)) →
  u ∈ us → (∀ u', u' ∈ us → revision u' ≤ revision u) →
  ended_at_ms u = None ↔ session_estimated x = false ∧ ¬ stopped x.
Proof.
  intros [T1 T2 T3 T4 T5 T6] Hfrom Hu Hmax. split.
  - intros Hend. destruct (Hfrom u Hu) as (e & He & Hue). specialize (T6 u Hu).
    assert (u = usage_from e ∧ kind (report e) ≠ Stopped) as [-> Hk].
    { destruct Hue as [-> | [now ->]]; [|done]. split; [done|]. by intros ?%ended_usage. }
    rewrite revision_usage in * by done. split.
    + destruct (session_estimated x); [|done]. destruct (T4 eq_refl) as [now Hnow].
      specialize (Hmax _ Hnow). rewrite revision_estimated in Hmax by done. specialize (T2 e He). lia.
    + intros Hs. destruct (T3 Hs) as [_ Hx]. specialize (Hmax _ Hx). rewrite revision_usage in Hmax by done.
      apply Hk. unfold stopped in Hs. rewrite <- Hs. f_equal. apply all_numbered; [done..|].
      specialize (T2 e He). lia.
  - intros [Hne Hns]. destruct (ended_at_ms u) eqn:E; [|done].
    destruct (T5 u Hns Hne Hu) as (u' & Hu' & Hlt); [congruence|]. specialize (Hmax u' Hu'). lia.
Qed.

Lemma told_stop x us e :
  told all x us → e ∈ all → kind (report e) = Stopped →
  usage_from (session_event x) ∈ us ∧ report (session_event x) = report e ∧
  ∀ u, u ∈ us → revision u ≤ revision (usage_from (session_event x)).
Proof.
  intros [T1 T2 T3 T4 T5 T6] He Hk.
  assert (report (session_event x) = report e) as Er.
  { apply all_numbered; [done..|]. pose proof (proj2 (all_numbered _ _ He T1) Hk). specialize (T2 e He). lia. }
  destruct T3 as [Hne Hx]; [unfold stopped; congruence|]. split_and!; [done..|].
  intros u Hu. specialize (T6 u Hu). rewrite Hne in T6. rewrite revision_usage by done. lia.
Qed.
End one_session.

Definition accepted (e : LifecycleEvent) : bool := is_ok (check_report (report e)).

(** The accepted reports of a session, in the order they arrived. *)
Definition reports_of (k : bytes) (ops : list store_op) : list LifecycleEvent :=
  omap (λ o, match o with
             | RecordEvent e => if decide (session_key e = k ∧ accepted e = true) then Some e else None
             | _ => None
             end) ops.

Lemma accepted_sequence e :
  accepted e = true → 0 < sequence (report e) < 4503599627370496.
Proof.
  unfold accepted. destruct (check_report (report e)) eqn:E; [|done]. intros _. unfold check_report in E.
  inv_ok. done.
Qed.

Lemma reports_of_elem k ops e :
  e ∈ reports_of k ops ↔ RecordEvent e ∈ ops ∧ session_key e = k ∧ accepted e = true.
Proof.
  unfold reports_of. rewrite list_elem_of_omap. split.
  - intros ([e'|? ?|?] & Ho & E); [|done..]. case_decide as Hd; [|done]. injection E as <-. tauto.
  - intros [Ho Hd]. exists (RecordEvent e). split; [done|]. by rewrite decide_True.
Qed.

Lemma reports_of_snoc k ops o : reports_of k (ops ++ [o]) = reports_of k ops ++ reports_of k [o].
Proof. unfold reports_of. by rewrite omap_app. Qed.

Lemma reports_of_event k e :
  reports_of k [RecordEvent e] = if decide (session_key e = k ∧ accepted e = true) then [e] else [].
Proof. unfold reports_of. simpl. by case_decide. Qed.

Definition store_ok s : Prop := usage s = true ∧ filed (usage_sessions s).

Lemma record_usage_flag e s : usage (snd (record e s)) = usage s.
Proof.
  unfold record. destruct (check_report (report e)); [|done]. set (s' := record_usage e s).
  assert (usage s' = usage s) as E.
  { unfold s', record_usage, publish_usage. destruct (usage s) eqn:Hu; [|done]. rewrite ?Hu.
    destruct (boundary e); simpl; rewrite ?Hu; destruct (observe e _) as [c m]; simpl; destruct c; simpl;
      rewrite ?Hu; done. }
  destruct (observer s') as [o|]; [|done]. by destruct (observe_report e o).
Qed.

Lemma told_of_step k all seen o s :
  numbered all → (∀ e, e ∈ all → sequence (report e) < 4503599627370496) → seen ++ reports_of k [o] ⊆ all →
  o ≠ Evict k → store_ok s → told_of seen (view k s) →
  store_ok (store_step o s) ∧ told_of (seen ++ reports_of k [o]) (view k (store_step o s)).
Proof.
  intros Hn Hv [Hseen Hnew]%list_subseteq_app_iff_l Hev [Hu Hf] Ht. destruct o as [e|now order|key]; simpl.
  - rewrite reports_of_event in *.
    assert (store_ok (snd (record e s))) as Hok
      by (split; [by rewrite record_usage_flag|by apply record_filed]).
    split; [done|]. destruct (decide (session_key e = k ∧ accepted e = true)) as [[E Ea]|Hno].
    + rewrite record_view, decide_True by done. eapply (told_of_report all); [done..| | |done].
      { apply Hnew. by left. }
      { by apply accepted_sequence. }
    + rewrite app_nil_r. destruct (accepted e) eqn:Ea; [|by rewrite record_refused].
      rewrite record_view by done. rewrite decide_False; [done|]. intros ?. by apply Hno.
  - destruct (reconcile_view now order k s Hu Hf) as (x' & es & Hx & -> & ? & ?). split; [done|].
    unfold reports_of. simpl. rewrite app_nil_r. by eapply (told_of_expiry all).
  - split.
    + split; [done|]. intros k' x. simpl. rewrite lookup_delete. case_decide; [done|]. apply Hf.
    + unfold reports_of. simpl. rewrite app_nil_r. unfold view. simpl.
      rewrite lookup_delete_ne by congruence. done.
Qed.

Definition new_store (o : option Obs) : LifecycleStore Obs :=
  {| LifecycleStore.persistence := {| newest := ∅; log := ∅ |}; usage := true; published := [];
     usage_sessions := ∅; observer := o |}.

Lemma told_of_run k ops o :
  numbered (reports_of k ops) → Evict k ∉ ops →
  store_ok (store_run ops (new_store o)) ∧
  told_of (reports_of k ops) (view k (store_run ops (new_store o))).
Proof.
  intros Hn Hev.
  assert (∀ pre, pre `prefix_of` ops → store_ok (store_run pre (new_store o)) ∧
    told_of (reports_of k pre) (view k (store_run pre (new_store o)))) as Hpre; [|by apply Hpre].
  induction pre as [|op pre IH] using rev_ind; intros Hp.
  { split; [split; [done|intros ? ?; simpl; by rewrite lookup_empty]|]. split; [by intros ? ?%elem_of_nil|done]. }
  destruct IH as [IHs IHt]; [by eapply prefix_app_l|]. unfold store_run in *. rewrite foldl_snoc, reports_of_snoc.
  apply (told_of_step k (reports_of k ops)); [done| | | |done..].
  - intros e (_ & _ & He)%reports_of_elem. by apply accepted_sequence.
  - rewrite <- reports_of_snoc. intros e He. rewrite reports_of_elem in *. destruct Hp as [t ->]. set_solver.
  - intros ->. apply Hev. destruct Hp as [t ->]. set_solver.
Qed.

(** The update a subscriber keeps: the one with the greatest revision. *)
Definition newest_update (k : bytes) s u : Prop :=
  u ∈ updates k (published s) ∧ ∀ u', u' ∈ updates k (published s) → revision u' ≤ revision u.

(** The store holds the session for running. *)
Definition running (k : bytes) s : Prop :=
  ∃ x, usage_sessions s !! k = Some x ∧ session_estimated x = false ∧ kind (report (session_event x)) ≠ Stopped.

(** C38. However the reports of a session are delayed, reordered, repeated or lost,
    and whatever stops were estimated in between, the store keeps the report with
    the greatest number, the update with the greatest revision says that the
    session has ended exactly when the store does not hold it for running, and
    once the stop report has arrived that update is exact. *)
Theorem usage_converges (k : bytes) (ops : list store_op) (o : option Obs) :
  numbered (reports_of k ops) → Evict k ∉ ops →
  (∀ x e, usage_sessions (store_run ops (new_store o)) !! k = Some x → e ∈ reports_of k ops →
     sequence (report e) ≤ sequence (report (session_event x))) ∧
  (∀ u, newest_update k (store_run ops (new_store o)) u →
     (ended_at_ms u = None ↔ running k (store_run ops (new_store o)))) ∧
  (∀ e, e ∈ reports_of k ops → kind (report e) = Stopped →
     ∃ u, newest_update k (store_run ops (new_store o)) u ∧
       ended_at_ms u = Some (occurred_at_ms (report e)) ∧ estimated u = false).
Proof.
  intros Hn Hev. destruct (told_of_run k ops o Hn Hev) as [_ [Hfrom Ht]].
  set (s := store_run ops (new_store o)) in *.
  assert (∀ e, e ∈ reports_of k ops → sequence (report e) < 4503599627370496) as Hv.
  { intros e (_ & _ & He)%reports_of_elem. by apply accepted_sequence. }
  simpl in Hfrom, Ht. split_and!.
  - intros x e Hx He. rewrite Hx in Ht. by apply (t_newest _ _ _ Ht).
  - intros u [Hu Hmax]. unfold running. destruct (usage_sessions s !! k) as [x|] eqn:Ex.
    + rewrite (told_newest _ Hn Hv x _ u Ht Hfrom Hu Hmax). unfold stopped. naive_solver.
    + destruct (Hfrom u Hu) as (e & He & _). rewrite Ht in He. by apply elem_of_nil in He.
  - intros e He Hst. destruct (usage_sessions s !! k) as [x|] eqn:Ex; [|rewrite Ht in He; by apply elem_of_nil in He].
    destruct (told_stop _ Hn Hv x _ e Ht He Hst) as (Hin & Er & Hmax).
    exists (usage_from (session_event x)). split; [by split|]. unfold usage_from. simpl. by rewrite Er, Hst.
Qed.

(** ** Sessions that fall silent *)

Definition open (x : Session) : bool := negb (session_estimated x) && (kind (report (session_event x)) != Stopped).

Lemma expired_open now x : expired now x = true → open x = true.
Proof. unfold expired, open. by intros [? _]%andb_true_iff. Qed.

(** How many sessions could still be estimated to have ended. *)
Definition pending (m : gmap bytes Session) : nat := size (filter (λ kx, open (snd kx) = true) m).

Lemma pending_estimate m k x :
  m !! k = Some x → open x = true →
  (pending (<[k := {| session_event := session_event x; session_estimated := true |}]> m) + 1)%nat = pending m.
Proof.
  intros Hk Ho. unfold pending. rewrite map_filter_insert_False by done.
  rewrite map_filter_delete. rewrite map_size_delete_Some; [|by exists x; apply map_lookup_filter_Some].
  assert (0 < size (filter (λ kx, open (snd kx) = true) m))%nat; [|lia].
  apply Nat.neq_0_lt_0. intros E%map_size_empty_inv.
  assert (filter (λ kx, open (snd kx) = true) m !! k = Some x) as E' by (by apply map_lookup_filter_Some).
  by rewrite E, lookup_empty in E'.
Qed.

Lemma expired_stays now order m out k x y :
  filed m → m !! k = Some x → expired now x = false →
  snd (expire_loop now order m out) !! k = Some y → expired now y = false.
Proof.
  intros Hf Hx Hne Hy. destruct (expire_loop_view now order m out Hf) as (fresh & _ & _ & Hv).
  specialize (Hv k). rewrite Hx, Hy in Hv. inversion Hv; subst; done.
Qed.

(** A pass visits every session, or stops with a full batch. *)
Lemma expire_loop_batch now order m out :
  filed m → (length out < N.to_nat BATCH_SIZE)%nat →
  (pending (snd (expire_loop now order m out)) + length (fst (expire_loop now order m out)) =
   pending m + length out)%nat ∧
  ((length (fst (expire_loop now order m out)) = N.to_nat BATCH_SIZE) ∨
   ∀ k x, k ∈ order → snd (expire_loop now order m out) !! k = Some x → expired now x = false).
Proof.
  revert m out. induction order as [|key order IH]; intros m out Hf Hout.
  { split; [done|]. right. by intros k x ?%elem_of_nil. }
  assert (∀ m1 o1, filed m1 → (∀ x, m1 !! key = Some x → expired now x = false) →
    (∀ k x, k ∈ order → snd (expire_loop now order m1 o1) !! k = Some x → expired now x = false) →
    ∀ k x, k ∈ key :: order → snd (expire_loop now order m1 o1) !! k = Some x → expired now x = false) as Hcons.
  { intros m1 o1 Hf1 Hkey Hrest k x [-> | Hk]%elem_of_cons Hx; [|by eapply Hrest].
    destruct (m1 !! key) as [y|] eqn:Ey; [by eapply (expired_stays _ _ _ _ key y); eauto|].
    destruct (expire_loop_view now order m1 o1 Hf1) as (fresh & _ & _ & Hv). specialize (Hv key).
    rewrite Ey, Hx in Hv. inversion Hv. }
  simpl. destruct (m !! key) as [x|] eqn:Em.
  2:{ destruct (IH m out Hf Hout) as [E [?|Hr]]; split; auto. right. apply Hcons; [done| |done]. congruence. }
  destruct (expired now x) eqn:Ex.
  2:{ destruct (IH m out Hf Hout) as [E [?|Hr]]; split; auto. right. apply Hcons; [done| |done]. congruence. }
  set (m' := <[key := _]> m). pose proof (pending_estimate _ _ _ Em (expired_open _ _ Ex)) as Hp. fold m' in Hp.
  assert (filed m') as Hf'.
  { intros k y. unfold m'. rewrite lookup_insert. case_decide as E; [|apply Hf].
    intros [= <-]. simpl. rewrite <- E. by apply Hf. }
  destruct (N.eqb_spec (len (out ++ [session_event x])) BATCH_SIZE) as [E|Hne]; simpl.
  - rewrite length_app. simpl. split; [lia|]. left. rewrite len_app in E. unfold len in E. simpl in E. lia.
  - destruct (IH m' (out ++ [session_event x]) Hf') as [E Hr].
    { rewrite length_app. simpl. rewrite len_app in Hne. unfold len in Hne. simpl in Hne. lia. }
    rewrite length_app in E. simpl in E. split; [lia|]. destruct Hr as [?|Hr]; [by left|right].
    apply Hcons; [done| |done]. intros y. unfold m'. rewrite lookup_insert_eq. by intros [= <-].
Qed.

Lemma expired_later T now x : T ≤ now → expired T x = true → expired now x = true.
Proof.
  unfold expired. rewrite !andb_true_iff, !N.leb_le. unfold saturating_sub. intros ? [? ?]. split; [done|lia].
Qed.

(** One pass at a time after [T]: the pending sessions shrink by a batch, or none
    that was silent at [T] is left. *)
Lemma reconcile_progress T now order s :
  T ≤ now → store_ok s → (∀ k, is_Some (usage_sessions s !! k) → k ∈ order) →
  (pending (usage_sessions (reconcile now order s)) + N.to_nat BATCH_SIZE = pending (usage_sessions s))%nat ∨
  ∀ k x, usage_sessions (reconcile now order s) !! k = Some x → expired T x = false.
Proof.
  intros HT [Hu Hf] Hall.
  assert (usage_sessions (reconcile now order s) = snd (expire_loop now order (usage_sessions s) [])) as ->.
  { unfold reconcile, expire. destruct (expire_loop _ _ _ _) as [es m]. by rewrite (proj1 (publish_all_sessions _ _ _)). }
  destruct (expire_loop_batch now order (usage_sessions s) [] Hf) as [E Hr]; [by vm_compute; lia|].
  destruct Hr as [Hfull|Hr]; [left; simpl in E; lia|]. right. intros k x Hx.
  destruct (expired T x) eqn:Ex; [|done]. apply (expired_later T now) in Ex; [|done].
  rewrite (Hr k x) in Ex; [done| |done]. apply Hall.
  destruct (expire_loop_view now order (usage_sessions s) [] Hf) as (fresh & _ & _ & Hv).
  specialize (Hv k). rewrite Hx in Hv. inversion Hv; eauto.
Qed.

Definition rounds_of (rounds : list (N * list bytes)) : list store_op := (λ '(now, order), Reconcile now order) <$> rounds.

(** Every round is at [T] or later and visits every session. *)
Definition full_rounds (T : N) s (rounds : list (N * list bytes)) : Prop :=
  Forall (λ r, T ≤ fst r ∧ ∀ k, is_Some (usage_sessions s !! k) → k ∈ snd r) rounds.

Lemma reconcile_domain now order k s :
  store_ok s → is_Some (usage_sessions (reconcile now order s) !! k) ↔ is_Some (usage_sessions s !! k).
Proof.
  intros [Hu Hf]. destruct (reconcile_view now order k s Hu Hf) as (x' & es & Hx & Ev & _).
  injection Ev as -> _. simpl in Hx. by inversion Hx.
Qed.

(** A silent session keeps its last report, and is told to have ended once. *)
Definition silenced (T : N) (k : bytes) (x : Session) s : Prop :=
  usage_sessions s !! k = Some x ∨
  usage_sessions s !! k = Some {| session_event := session_event x; session_estimated := true |} ∧
  ∃ now, T ≤ now ∧ estimated_stop (session_event x) now ∈ published s.

Lemma reconcile_silenced T now order k x s :
  T ≤ now → store_ok s → silenced T k x s → silenced T k x (reconcile now order s).
Proof.
  intros HT [Hu Hf] Hx. destruct (reconcile_view now order k s Hu Hf) as (x' & es & Hexp & Ev & _).
  injection Ev as E1 E2. simpl in Hexp.
  assert (∀ u, u ∈ updates k (published (reconcile now order s)) → u ∈ published (reconcile now order s)) as Hup
    by (intros u [_ ?]%list_elem_of_filter; done).
  assert (∀ u, u ∈ published s → session_key (update_event u) = k → u ∈ published (reconcile now order s)) as Hold.
  { intros u ? ?. apply Hup. rewrite E2. apply elem_of_app. left. by apply list_elem_of_filter. }
  unfold silenced. rewrite E1. destruct Hx as [Hx|(Hx & t & Ht & Hu')]; rewrite Hx in Hexp.
  - inversion Hexp; subst; [by left|]. right. split; [done|]. exists now. split; [done|].
    apply Hup. rewrite E2. set_solver.
  - right. inversion Hexp as [|y Hy]; subst; [|by rewrite expired_once in Hy]. split; [done|]. exists t.
    split; [done|]. apply Hold; [done|]. rewrite key_estimated. apply (Hf k _ Hx).
Qed.

Lemma reconcile_ok now order s : store_ok s → store_ok (reconcile now order s).
Proof. intros [Hu Hf]. by destruct (reconcile_view now order [] s Hu Hf) as (? & ? & _ & _ & ? & ?). Qed.

Lemma cleared_stays T now order s :
  store_ok s → (∀ k x, usage_sessions s !! k = Some x → expired T x = false) →
  ∀ k x, usage_sessions (reconcile now order s) !! k = Some x → expired T x = false.
Proof.
  intros [Hu Hf] Hc k x. destruct (reconcile_view now order k s Hu Hf) as (x' & es & Hexp & Ev & _).
  injection Ev as -> _. intros ->. simpl in Hexp. inversion Hexp as [y E|y Hy E]; subst; [by eapply Hc|done].
Qed.

Lemma rounds_clear T rounds s :
  store_ok s → full_rounds T s rounds → (0 < length rounds)%nat →
  (pending (usage_sessions s) ≤ N.to_nat BATCH_SIZE * length rounds)%nat →
  ∀ k x, usage_sessions (store_run (rounds_of rounds) s) !! k = Some x → expired T x = false.
Proof.
  revert s. induction rounds as [|[now order] rounds IH]; intros s Hok Hr Hpos Hp; [simpl in Hpos; lia|].
  apply Forall_cons in Hr as [[HT Hall] Hr]. simpl in HT, Hall. unfold store_run in *. simpl.
  pose proof (reconcile_ok now order s Hok) as Hok'.
  assert (full_rounds T (reconcile now order s) rounds) as Hr'.
  { eapply Forall_impl; [exact Hr|]. intros r [? Hk]. split; [done|]. intros k. rewrite reconcile_domain by done. apply Hk. }
  assert (∀ s, store_ok s → (∀ k x, usage_sessions s !! k = Some x → expired T x = false) →
    ∀ k x, usage_sessions (foldl (λ s o, store_step o s) s (rounds_of rounds)) !! k = Some x → expired T x = false) as Hstay.
  { clear. induction rounds as [|[now order] rounds IH]; intros s Hok Hc; simpl; [done|].
    apply IH; [by apply reconcile_ok|by apply cleared_stays]. }
  destruct (reconcile_progress T now order s HT Hok Hall) as [Hfull|Hclear]; [|by apply Hstay].
  change (N.to_nat BATCH_SIZE) with 128%nat in *.
  destruct rounds as [|r rounds].
  - simpl. intros k x Hx. destruct (expired T x) eqn:Ex; [|done]. apply expired_open in Ex.
    assert (pending (usage_sessions (reconcile now order s)) = 0%nat) as E by (cbn [length] in Hp; lia).
    apply map_size_empty_inv in E.
    assert (filter (λ kx, open (snd kx) = true) (usage_sessions (reconcile now order s)) !! k = Some x) as E'
      by (by apply map_lookup_filter_Some). by rewrite E, lookup_empty in E'.
  - apply IH; [done..|simpl; lia|cbn [length] in *; lia].
Qed.

(** A session that falls silent is declared ended: once enough rounds have run to
    reach every session in batches of [BATCH_SIZE], every session that had been
    silent for [STALE_AFTER_MS] at [T] is marked, and an estimated stop with the
    time of its last report has been published. *)
Theorem silent_sessions_end (T : N) (rounds : list (N * list bytes)) s (k : bytes) (x : Session) :
  store_ok s → full_rounds T s rounds → (0 < length rounds)%nat →
  (pending (usage_sessions s) ≤ N.to_nat BATCH_SIZE * length rounds)%nat →
  usage_sessions s !! k = Some x → expired T x = true →
  usage_sessions (store_run (rounds_of rounds) s) !! k =
    Some {| session_event := session_event x; session_estimated := true |} ∧
  ∃ now, T ≤ now ∧ estimated_stop (session_event x) now ∈ published (store_run (rounds_of rounds) s).
Proof.
  intros Hok Hr Hpos Hp Hx Hexp. pose proof (rounds_clear T rounds s Hok Hr Hpos Hp) as Hclear.
  assert (silenced T k x (store_run (rounds_of rounds) s)) as [Hs|Hs]; [|rewrite (Hclear k x Hs) in Hexp; done|done].
  assert (silenced T k x s) as Hsil by (by left). clear Hx Hpos Hp Hclear. unfold store_run.
  assert (Forall (λ r, T ≤ fst r) rounds) as HT by (eapply Forall_impl; [exact Hr|]; by intros r [? _]). clear Hr.
  revert s Hok Hsil. induction HT as [|[now order] rounds HT _ IH]; intros s Hok Hsil; simpl; [done|].
  apply IH; [by apply reconcile_ok|by apply reconcile_silenced].
Qed.
End usage.

(** ** The reporter numbers its reports *)

Module Reports.
Import Reporter.

(** [draining] and [stop] are the only commands a host gives. *)
Definition host_input (i : input) : Prop :=
  match i with
  | Command (Some k) => k = Draining ∨ k = Stopped
  | _ => True
  end.

(** The reports that follow a report numbered [n]. *)
Record follows (n epoch started : N) (drained : bool) (rs : list LifecycleReport) : Prop := {
  f_sequence i r : rs !! i = Some r → sequence r = n + N.of_nat i + 1;
  f_scope r : r ∈ rs → owner_epoch r = epoch ∧ started_at_ms r = started;
  f_stop i r : rs !! i = Some r → kind r = Stopped → length rs = S i ∧ resident r = Some false ∧ waiting r = [];
  f_drained r : drained = true → r ∈ rs → kind r = Draining ∨ kind r = Stopped;
  f_draining i j r r' : rs !! i = Some r → kind r = Draining → (i < j)%nat → rs !! j = Some r' →
    kind r' = Draining ∨ kind r' = Stopped;
}.

Lemma follows_nil n epoch started d : follows n epoch started d [].
Proof. constructor; try done; intros; by (rewrite lookup_nil in * || set_solver). Qed.

Lemma follows_cons n epoch started d r rs :
  sequence r = n + 1 → owner_epoch r = epoch → started_at_ms r = started →
  (kind r = Stopped → rs = [] ∧ resident r = Some false ∧ waiting r = []) →
  (d = true → kind r = Draining ∨ kind r = Stopped) →
  follows (n + 1) epoch started (d || (kind r == Draining)) rs → follows n epoch started d (r :: rs).
Proof.
  intros Hseq He Hs Hst Hd [F1 F2 F3 F4 F5]. constructor.
  - intros [|i] x; simpl; [intros [= <-]; lia|]. intros Hi%F1. lia.
  - intros x [-> | ?]%elem_of_cons; [done|auto].
  - intros [|i] x; simpl; [intros [= <-] Hk; by destruct (Hst Hk) as [-> ?]|].
    intros Hi Hk. destruct (F3 i x Hi Hk) as [-> ?]. done.
  - intros x -> [-> | ?]%elem_of_cons; [auto|]. by apply F4.
  - intros [|i] [|j] x x'; simpl; try lia.
    + intros [= <-] Hk _ Hj. apply F4; [|by eapply list_elem_of_lookup_2].
      rewrite Hk, bool_decide_eq_true_2 by done. apply orb_true_r.
    + intros Hi Hk Hij Hj. eapply F5; [exact Hi|done| |exact Hj]. lia.
Qed.

Lemma run_stopped st ins : running st = false → run_from st ins = [].
Proof.
  intros Hr. induction ins as [|[i s] ins IH]; simpl; [done|]. unfold enabled. by rewrite Hr.
Qed.

Lemma run_from_follows st ins :
  Forall (λ x, host_input (fst x)) ins → sequence (current st) + len ins < 18446744073709551616 →
  follows (sequence (current st)) (owner_epoch (current st)) (started_at_ms (current st)) (draining st)
    (run_from st ins).
Proof.
  intros Hin. revert st. induction Hin as [|[i s] ins Hi Hin IH]; intros st; simpl; [intros; apply follows_nil|].
  rewrite len_cons. intros Hlen. destruct (enabled i st) eqn:Een; [|apply IH; lia].
  assert (∀ k, (k = Heartbeat → draining st = false) → k ≠ Started →
    follows (sequence (current st)) (owner_epoch (current st)) (started_at_ms (current st)) (draining st)
      (let '(st', sent) := send_turn k s st in option_list sent ++ run_from st' ins)) as Hsend.
  { intros k Hk Hns. unfold send_turn, send. destruct (now s) as [t|]; simpl.
    - assert (wrap_u64 (sequence (current st) + 1) = sequence (current st) + 1) as ->
        by (unfold wrap_u64; rewrite N.mod_small; lia).
      apply follows_cons; simpl; [done..| | |].
      + intros ->. split_and!; [by apply run_stopped|done..].
      + intros Hd. destruct k; [done|by rewrite Hk in Hd|by left|by right].
      + match goal with |- follows _ _ _ _ (run_from ?st' _) => apply (IH st') end. simpl. lia.
    - match goal with |- follows _ _ _ _ (run_from ?st' _) => destruct (IH st') as [F1 F2 F3 F4 F5] end;
        simpl in *; [lia|]. constructor; try done. intros r Hd. apply F4. by rewrite Hd. }
  assert (∀ st', current st' = current st → draining st' = draining st →
    follows (sequence (current st)) (owner_epoch (current st)) (started_at_ms (current st)) (draining st)
      (run_from st' ins)) as Hskip.
  { intros st' Ec Ed. rewrite <- Ec, <- Ed. apply IH. rewrite Ec. lia. }
  unfold enabled in Een. rewrite andb_true_iff in Een. destruct Een as [_ Een].
  destruct i as [[k|]| |[]|[]]; simpl in *; try (by apply Hskip); inv_ok; apply Hsend; try done.
  - by destruct Hi as [-> | ->].
  - by destruct Hi as [-> | ->].
Qed.

Lemma follows_numbered n epoch started d rs (l : list LifecycleEvent) :
  follows n epoch started d rs → (∀ e, e ∈ l → report e ∈ rs) → numbered l.
Proof.
  intros [F1 _ F3 _ _] Hl e e' He He'.
  apply Hl, list_elem_of_lookup_1 in He as [i Hi]. apply Hl, list_elem_of_lookup_1 in He' as [j Hj].
  pose proof (F1 _ _ Hi). pose proof (F1 _ _ Hj). split.
  - intros E. assert (i = j) as -> by lia. congruence.
  - intros Hk. destruct (F3 _ _ Hi Hk) as [Hlen _]. apply lookup_lt_Some in Hj. lia.
Qed.

(** A host session numbers its reports from 1 under its epoch, the stop is the
    last one and says that the actor is not resident, and no heartbeat follows the
    announcement to drain; so whatever part of its reports reaches the control
    plane, in whatever order, is [numbered] as its accounting needs. *)
Theorem reporter_numbers (epoch started : N) (limits : ResourceLimits) (changes : bool) (first : reading)
    (ins : list (input * reading)) :
  Forall (λ x, host_input (fst x)) ins → len ins < u64_max →
  follows 0 epoch started false (run epoch started limits changes first ins) ∧
  (is_Some (now first) → kind <$> head (run epoch started limits changes first ins) = Some Started) ∧
  ∀ l, (∀ e, e ∈ l → report e ∈ run epoch started limits changes first ins) → numbered l.
Proof.
  unfold u64_max. intros Hin Hlen.
  assert (follows 0 epoch started false (run epoch started limits changes first ins)) as Hf.
  { unfold run, send. destruct (now first) as [t|]; simpl.
    - apply follows_cons; simpl; [done..|].
      match goal with |- follows _ _ _ _ (run_from ?st' _) => apply (run_from_follows st') end; [done|].
      simpl. unfold wrap_u64. rewrite N.mod_small; lia.
    - match goal with |- follows _ _ _ _ (run_from ?st' _) => apply (run_from_follows st') end; [done|].
      simpl. lia. }
  split_and!; [done| |].
  - intros [t Ht]. unfold run, send. by rewrite Ht.
  - intros l. by apply (follows_numbered _ _ _ _ _ _ Hf).
Qed.
End Reports.

(** ** An example *)

Import Stand_ins.

#[local] Instance demo_session_key : Json (bytes * bytes * bytes * N) :=
  {| to_json := λ '(a, h, s, e), a ++ b" " ++ h ++ b" " ++ s ++ b" " ++ show_dec e; from_json := λ _, None |}.

#[local] Instance no_observer : LifecycleObserver unit := λ _ o, (Ok (), o).

Definition demo_reading (t : N) : Reporter.reading :=
  {| Reporter.now := Some t; Reporter.executor_resident := Some true;
     Reporter.host_status := {| Reporter.status_waiting := []; Reporter.status_last_active := None |} |}.

Definition demo_limits : ResourceLimits :=
  {| cpu_millis := 250; cpu_limit_millis := None; memory_mib := 256; memory_limit_mib := None |}.

Definition demo_inputs : list (Reporter.input * Reporter.reading) :=
  [(Reporter.Tick, demo_reading 11000); (Reporter.Command (Some Draining), demo_reading 12000);
   (Reporter.Tick, demo_reading 22000); (Reporter.Command (Some Stopped), demo_reading 23000)].

Definition demo_reports : list LifecycleReport :=
  Reporter.run 1 1000 demo_limits true (demo_reading 1000) demo_inputs.

Example demo_reports_sent :
  (λ r, (kind r, sequence r, occurred_at_ms r)) <$> demo_reports =
  [(Started, 1, 1000); (Heartbeat, 2, 11000); (Draining, 3, 12000); (Stopped, 4, 23000)].
Proof. vm_compute. reflexivity. Qed.

Lemma reporter_numbers_witness : sequence <$> last demo_reports = Some 4 ∧ Reports.follows 0 1 1000 false demo_reports.
Proof.
  split; [vm_compute; reflexivity|].
  apply (Reports.reporter_numbers 1 1000 demo_limits true (demo_reading 1000) demo_inputs); [|vm_compute; reflexivity].
  repeat (apply Forall_cons; split; [simpl; auto|]). constructor.
Defined.

Definition demo_arrival (received : N) (r : LifecycleReport) : LifecycleEvent :=
  {| organization_id := None; event_id := show_dec (sequence r);
     ev_actor := {| project_id := b"p"; actor_name := b"room"; actor_id := b"7" |}; ev_host_id := b"h";
     ev_session_id := b"s"; ev_region := b"r"; received_at_ms := received; report := r |}.

Definition demo_key : bytes := session_key (demo_arrival 0 (Reporter.new_report 1 1000 demo_limits)).

(** The second report comes first, the session is estimated to have ended, the third
    report corrects that, and the others arrive late. *)
Definition demo_ops : list store_op :=
  let arrive i t := RecordEvent <$> (demo_arrival t <$> demo_reports !! i) in
  omap id [arrive 1%nat 11010; Some (Reconcile 60000 [demo_key]); arrive 2%nat 60500; arrive 0%nat 60600;
           arrive 3%nat 61000; arrive 1%nat 61500].

Example demo_published :
  (λ u, (revision u, ended_at_ms u, estimated u)) <$> published (store_run demo_ops (new_store (Some ()))) =
  [(5, Some 11000, true); (6, None, false); (2, None, false); (8, Some 23000, false)].
Proof. vm_compute. reflexivity. Qed.

Lemma usage_converges_witness :
  ∃ u, newest_update demo_key (store_run demo_ops (new_store (Some ()))) u ∧
    ended_at_ms u = Some 23000 ∧ estimated u = false.
Proof.
  assert (numbered (reports_of demo_key demo_ops)) as Hn by (apply (bool_decide_unpack _); vm_compute; exact I).
  assert (∃ e, e ∈ reports_of demo_key demo_ops ∧ kind (report e) = Stopped ∧ occurred_at_ms (report e) = 23000)
    as (e & He & Hk & <-).
  { exists (default (demo_arrival 0 (Reporter.new_report 1 1000 demo_limits)) (reports_of demo_key demo_ops !! 3%nat)).
    split; [|by vm_compute]. apply (list_elem_of_lookup_2 _ 3%nat). vm_compute. reflexivity. }
  eapply (usage_converges demo_key demo_ops (Some ())); [exact Hn| |exact He|exact Hk].
  vm_compute. intros Hin. repeat (apply elem_of_cons in Hin as [Hin|Hin]; [discriminate Hin|]).
  by apply elem_of_nil in Hin.
Defined.

Definition demo_silent : LifecycleStore unit :=
  store_run (take 1 demo_ops) (new_store (Some ())).

Definition demo_session : Session :=
  {| session_event := demo_arrival 11010 (default (Reporter.new_report 1 1000 demo_limits) (demo_reports !! 1%nat));
     session_estimated := false |}.

Lemma sessions_of_first (event : LifecycleEvent) :
  check_report (report event) = Ok () →
  usage_sessions (record event (new_store (Some ()))).2 =
  {[session_key event := {| session_event := event; session_estimated := false |}]}.
Proof.
  intros E. unfold record. rewrite E. unfold record_usage, new_store. simpl.
  unfold publish_usage, observe. simpl. destruct (boundary event); simpl; by rewrite lookup_empty.
Qed.

Lemma demo_silent_sessions : usage_sessions demo_silent = {[demo_key := demo_session]}.
Proof.
  assert (take 1 demo_ops = [RecordEvent (session_event demo_session)]) as E by (vm_compute; reflexivity).
  assert (session_key (session_event demo_session) = demo_key) as K by (vm_compute; reflexivity).
  unfold demo_silent. rewrite E. cbn [store_run foldl store_step].
  rewrite sessions_of_first by (vm_compute; reflexivity). by rewrite K.
Qed.

Lemma demo_silent_ok : store_ok demo_silent.
Proof.
  split; [vm_compute; reflexivity|]. intros k y. rewrite demo_silent_sessions.
  intros [<- <-]%lookup_singleton_Some. vm_compute. reflexivity.
Qed.

Lemma silent_sessions_end_witness :
  ∃ now, estimated_stop (session_event demo_session) now ∈
    published (store_run (rounds_of [(60000, [demo_key])]) demo_silent).
Proof.
  destruct (silent_sessions_end 60000 [(60000, [demo_key])] demo_silent demo_key demo_session) as (_ & now & _ & Hin).
  - apply demo_silent_ok.
  - constructor; [|constructor]. split; [reflexivity|]. intros k [y Hy]. rewrite demo_silent_sessions in Hy.
    apply lookup_singleton_Some in Hy as [<- _]. simpl. by left.
  - simpl. lia.
  - rewrite demo_silent_sessions. vm_compute. lia.
  - rewrite demo_silent_sessions. apply lookup_singleton_eq.
  - vm_compute. reflexivity.
  - exists now. exact Hin.
Defined.
