(* ===== verification/Admission.v ===== *)
(** * Organization limits

    [src/src/control_plane/organization_limits.rs] and its in-memory reservation
    store ([organization_limits/memory.rs]): an actor may start only if its
    organization has a free slot and a token; slots are leases that lifecycle
    reports extend and a stop gives back. Tokens are IEEE 754 doubles, as in the
    source, with the operations of [SpecFloat]. The Redis store runs the same
    logic as a Lua script and is not modelled. *)

From Stdlib Require Import ZArith Floats.SpecFloat.
From S2P Require Import Prelude Text Demo Names Effects Btree Lifecycle Residency LifecycleStore.
Local Open Scope N_scope.

(** ** Doubles *)

Definition f64 : Type := spec_float.

(** [f64::from(n)] and [n as f64]: rounds to nearest, ties to even. *)
Definition f64_from (n : N) : f64 := binary_normalize 53 1024 (Z.of_N n) 0 false.
Definition f64_add : f64 → f64 → f64 := SFadd 53 1024.
Definition f64_sub : f64 → f64 → f64 := SFsub 53 1024.
Definition f64_mul : f64 → f64 → f64 := SFmul 53 1024.
Definition f64_div : f64 → f64 → f64 := SFdiv 53 1024.

(** [f64::min] on numbers *)
Definition f64_min (x y : f64) : f64 := if SFltb y x then y else x.

(** [x.ceil().max(1.0) as u64] *)
Definition ceil_at_least_one (x : f64) : N :=
  match x with
  | S754_finite false m e =>
      let up := match e with
                | Z.neg p => ((Z.pos m + (2 ^ Z.pos p - 1)) / 2 ^ Z.pos p)%Z
                | _ => (Z.pos m * 2 ^ e)%Z
                end in
      N.min (N.max 1 (Z.to_N up)) u64_max
  | S754_infinity false => u64_max
  | _ => 1
  end.

(** ** Limits *)

Definition LAUNCH_LEASE_MS : N := 180000.
Definition REPORT_LEASE_MS : N := STALE_AFTER_MS.

Record OrganizationLimits := {
  max_active_actors : N;
  starts_per_second : N;
  start_burst : N;
}.

Definition default_limits : OrganizationLimits :=
  {| max_active_actors := 500; starts_per_second := 50; start_burst := 100 |}.

Definition parse_u32 (s : bytes) : option N :=
  n ← parse_u64 s; if n <=? u32_max then Some n else None.

Definition parse_bool (s : bytes) : option bool :=
  if s == b"true" then Some true else if s == b"false" then Some false else None.

Definition positive (get : bytes → option bytes) (name : bytes) (dflt : N) : result N :=
  value ← match get name with
          | Some v => ctx (parse_u32 v) "must be a positive integer"
          | None => Ok dflt
          end;
  ensure (0 <? value) "must be a positive integer";;
  Ok value.

(** [OrganizationLimits::from_lookup] *)
Definition from_lookup (get : bytes → option bytes) (enabled : bool) : result (option OrganizationLimits) :=
  enabled ← match get (b"DURABLE_ACTORS_ORGANIZATION_LIMITS_ENABLED") with
            | Some v => ctx (parse_bool v) "DURABLE_ACTORS_ORGANIZATION_LIMITS_ENABLED must be boolean"
            | None => Ok enabled
            end;
  if negb enabled then Ok None
  else
    m ← positive get (b"DURABLE_ACTORS_ORGANIZATION_MAX_ACTIVE_ACTORS") (max_active_actors default_limits);
    r ← positive get (b"DURABLE_ACTORS_ORGANIZATION_ACTOR_STARTS_PER_SECOND") (starts_per_second default_limits);
    s ← positive get (b"DURABLE_ACTORS_ORGANIZATION_ACTOR_START_BURST") (start_burst default_limits);
    Ok (Some {| max_active_actors := m; starts_per_second := r; start_burst := s |}).

(** [u32::try_from(i64)] *)
Definition u32_try_from (z : Z) : result N :=
  if ((0 <=? z) && (z <=? Z.of_N u32_max))%Z then Ok (Z.to_N z) else Err "out of range integral type conversion attempted".

(** The row the database has for an organization: three nullable columns. *)
Definition limits_row : Type := option Z * option Z * option Z.

Definition column (c : option Z) (dflt : N) : result N :=
  match c with Some z => u32_try_from z | None => Ok dflt end.

(** [ActorAdmission::limits]; without a database, or without a row, the defaults. *)
Definition limits (defaults : OrganizationLimits) (row : option limits_row) : result OrganizationLimits :=
  match row with
  | None => Ok defaults
  | Some (m, r, s) =>
      m ← column m (max_active_actors defaults);
      r ← column r (starts_per_second defaults);
      s ← column s (start_burst defaults);
      Ok {| max_active_actors := m; starts_per_second := r; start_burst := s |}
  end.

(** ** Reservations *)

Record Activation := {
  organization : bytes;
  act_actor : ActorKey;
  act_host : bytes;
  act_session : bytes;
}.

#[global] Instance Activation_eq_dec : EqDecision Activation.
Proof. solve_decision. Defined.

#[global] Instance Activation_countable : Countable Activation.
Proof.
  refine (inj_countable' (λ a, (organization a, act_actor a, act_host a, act_session a))
    (λ x, {| organization := x.1.1.1; act_actor := x.1.1.2; act_host := x.1.2; act_session := x.2 |}) _).
  by intros [].
Defined.

Record Session := {
  s_epoch : N;
  s_sequence : N;
  s_stopped : bool;
  forget_at : N;
}.

Definition new_session : Session := {| s_epoch := 0; s_sequence := 0; s_stopped := false; forget_at := 0 |}.

Record Usage := {
  active : gmap Activation N;
  sessions : gmap Activation Session;
  tokens : option f64;
  refilled_at : N;
}.

Definition new_usage : Usage := {| active := ∅; sessions := ∅; tokens := None; refilled_at := 0 |}.

Definition prune (now : N) (u : Usage) : Usage :=
  {| active := filter (λ kx, now < snd kx) (active u);
     sessions := filter (λ kx, now < forget_at (snd kx)) (sessions u);
     tokens := tokens u; refilled_at := refilled_at u |}.

Inductive AdmissionRejected :=
| Quota (limit : N)
| Rate (retry_after_seconds : N).

Inductive outcome :=
| Reserved
| Rejected (e : AdmissionRejected)
| Failed (msg : string).
Arguments Failed msg%_string.

Definition consume (l : OrganizationLimits) (now : N) (u : Usage) : AdmissionRejected + Usage :=
  let rate := f64_from (starts_per_second l) in
  let burst := f64_from (start_burst l) in
  let available :=
    f64_min (f64_add (default burst (tokens u))
                     (f64_div (f64_mul (f64_from (saturating_sub now (refilled_at u))) rate) (f64_from 1000)))
            burst in
  if SFleb (f64_from 1) available then
    inr {| active := active u; sessions := sessions u; tokens := Some (f64_sub available (f64_from 1));
           refilled_at := N.max (refilled_at u) now |}
  else inl (Rate (ceil_at_least_one (f64_div (f64_sub (f64_from 1) available) rate))).

(** [MemoryReservations]: the usage of every organization, and how long a session is
    remembered. *)
Record MemoryReservations := {
  organizations : gmap bytes Usage;
  retention : N;
}.

Definition set_usage (org : bytes) (u : Usage) (m : MemoryReservations) : MemoryReservations :=
  {| organizations := <[org := u]> (organizations m); retention := retention m |}.

Definition usage_of (org : bytes) (m : MemoryReservations) : Usage :=
  default new_usage (organizations m !! org).

Definition forget_time (m : MemoryReservations) (now : N) : N := saturating_add now (retention m).

Definition reserve (a : Activation) (l : OrganizationLimits) (clock : result N) (m : MemoryReservations)
    : outcome * MemoryReservations :=
  match clock with
  | Err e => (Failed e, m)
  | Ok now =>
      let u := prune now (usage_of (organization a) m) in
      let pruned := set_usage (organization a) u m in
      match sessions u !! a with
      | Some st => if s_stopped st then (Failed "actor activation has already stopped", pruned) else (Reserved, pruned)
      | None =>
          if negb (N.of_nat (size (active u)) <? max_active_actors l) then (Rejected (Quota (max_active_actors l)), pruned)
          else
            match consume l now u with
            | inl e => (Rejected e, pruned)
            | inr u =>
                (Reserved,
                 set_usage (organization a)
                   {| active := <[a := saturating_add now LAUNCH_LEASE_MS]> (active u);
                      sessions := <[a := {| s_epoch := 0; s_sequence := 0; s_stopped := false;
                                            forget_at := forget_time m now |}]> (sessions u);
                      tokens := tokens u; refilled_at := refilled_at u |} m)
            end
      end
  end.

Definition release (a : Activation) (m : MemoryReservations) : MemoryReservations :=
  match organizations m !! organization a with
  | Some u =>
      set_usage (organization a)
        {| active := delete a (active u); sessions := delete a (sessions u); tokens := tokens u;
           refilled_at := refilled_at u |} m
  | None => m
  end.

(** A report that changes nothing: after the stop, of another epoch, or not newer. *)
Definition ignored (st : Session) (r : LifecycleReport) : bool :=
  s_stopped st || ((0 <? s_epoch st) && (s_epoch st != owner_epoch r)) || (sequence r <=? s_sequence st).

Definition observe_activation (a : Activation) (r : LifecycleReport) (clock : result N) (m : MemoryReservations)
    : result unit * MemoryReservations :=
  match clock with
  | Err e => (Err e, m)
  | Ok now =>
      let u := prune now (usage_of (organization a) m) in
      let st := default new_session (sessions u !! a) in
      if ignored st r then
        (Ok (), set_usage (organization a)
                  {| active := active u; sessions := <[a := st]> (sessions u); tokens := tokens u;
                     refilled_at := refilled_at u |} m)
      else
        let stop := kind r == Stopped in
        (Ok (), set_usage (organization a)
           {| active := if stop then delete a (active u) else <[a := saturating_add now REPORT_LEASE_MS]> (active u);
              sessions := <[a := {| s_epoch := owner_epoch r; s_sequence := sequence r; s_stopped := stop;
                                    forget_at := forget_time m now |}]> (sessions u);
              tokens := tokens u; refilled_at := refilled_at u |} m)
  end.

(** ** Admission *)

Section admission.
Context `{Base64}.

(** [ActorAdmission::reserve]; the row is what the database answers. *)
Definition admission_reserve (defaults : OrganizationLimits) (org : bytes) (actor : ActorKey)
    (host session : bytes) (row : result (option limits_row)) (clock : result N) (m : MemoryReservations)
    : outcome * MemoryReservations :=
  match validate_actor actor with
  | Err e => (Failed e, m)
  | Ok _ =>
      match (row ← row; limits defaults row) with
      | Err e => (Failed e, m)
      | Ok l => reserve {| organization := org; act_actor := actor; act_host := host; act_session := session |} l clock m
      end
  end.
End admission.

Definition activation_of (org : bytes) (event : LifecycleEvent) : Activation :=
  {| organization := org; act_actor := ev_actor event; act_host := ev_host_id event;
     act_session := ev_session_id event |}.

(** The store with the clock of the next call. *)
Definition observe_event (event : LifecycleEvent) (clock : result N) (m : MemoryReservations)
    : result unit * MemoryReservations :=
  match organization_id event with
  | None => (Err "lifecycle report has no organization", m)
  | Some org => observe_activation (activation_of org event) (report event) clock m
  end.

(** [ActorAdmission] observes the lifecycle store; its state is the reservations and
    what the clock will answer. *)
#[global] Instance admission_observer : LifecycleObserver (MemoryReservations * result N) :=
  λ event o, let '(r, m) := observe_event event (snd o) (fst o) in (r, (m, snd o)).

(** ** Histories of the reservations *)

Inductive reservation_op :=
| Reserve (a : Activation) (l : OrganizationLimits) (clock : result N)
| Release (a : Activation)
| Observe (a : Activation) (r : LifecycleReport) (clock : result N).

Definition reservation_step (o : reservation_op) (m : MemoryReservations) : MemoryReservations :=
  match o with
  | Reserve a l clock => snd (reserve a l clock m)
  | Release a => release a m
  | Observe a r clock => snd (observe_activation a r clock m)
  end.

(** A report that takes a slot its activation does not hold: it was never reserved, or
    its lease had run out. *)
Definition late (o : reservation_op) (m : MemoryReservations) : bool :=
  match o with
  | Observe a r (Ok now) =>
      let u := prune now (usage_of (organization a) m) in
      negb (ignored (default new_session (sessions u !! a)) r) && (kind r != Stopped) &&
      bool_decide (active u !! a = None)
  | _ => false
  end.

(** States reached with limits of at most [limit] slots and [n] late reports. *)
Inductive reached (limit : N) : nat → MemoryReservations → Prop :=
| reached_new r : reached limit 0 {| organizations := ∅; retention := r |}
| reached_step n m o :
    reached limit n m → match o with Reserve _ l _ => max_active_actors l ≤ limit | _ => True end →
    reached limit (n + (if late o m then 1 else 0)) (reservation_step o m).

(** The late reports of a run. *)
Fixpoint lates (ops : list reservation_op) (m : MemoryReservations) : nat :=
  match ops with
  | [] => 0
  | o :: ops => (if late o m then 1 else 0) + lates ops (reservation_step o m)
  end.

Definition within (limit : N) (o : reservation_op) : Prop :=
  match o with Reserve _ l _ => max_active_actors l ≤ limit | _ => True end.

Lemma reached_run limit ops n m :
  reached limit n m → Forall (within limit) ops →
  reached limit (n + lates ops m) (foldl (λ m o, reservation_step o m) m ops).
Proof.
  intros Hm Ho. revert n m Hm. induction Ho as [|o ops Ho _ IH]; intros n m Hm; simpl; [by rewrite Nat.add_0_r|].
  rewrite Nat.add_assoc. apply IH, reached_step; [done|exact Ho].
Qed.

Definition slots (org : bytes) (m : MemoryReservations) : nat := size (active (usage_of org m)).

Lemma usage_set org u m org' :
  usage_of org' (set_usage org u m) = if decide (org = org') then u else usage_of org' m.
Proof. unfold usage_of. simpl. rewrite lookup_insert. by case_decide. Qed.

Lemma size_filter_le {A} (P : Activation * A → Prop) `{∀ x, Decision (P x)} (m : gmap Activation A) :
  (size (filter P m) ≤ size m)%nat.
Proof. apply map_subseteq_size, map_filter_subseteq. Qed.

Lemma prune_slots now u : (size (active (prune now u)) ≤ size (active u))%nat.
Proof. apply size_filter_le. Qed.

Lemma delete_slots a (m : gmap Activation N) : (size (delete a m) ≤ size m)%nat.
Proof. apply map_subseteq_size, delete_subseteq. Qed.

Lemma insert_slots a t (m : gmap Activation N) :
  size (<[a := t]> m) = (size m + if decide (m !! a = None) then 1 else 0)%nat.
Proof.
  case_decide as E; [rewrite map_size_insert_None by done; lia|]. rewrite map_size_insert_Some; [lia|].
  by apply not_eq_None_Some.
Qed.

Lemma consume_active l now u u' : consume l now u = inr u' → active u' = active u ∧ sessions u' = sessions u.
Proof. unfold consume. case_match; [|done]. by intros [= <-]. Qed.

(** What a step does to the slots of one organization. *)
Lemma step_slots o m org :
  (slots org (reservation_step o m) ≤ slots org m + if late o m then 1 else 0)%nat ∨
  ∃ a l c, o = Reserve a l c ∧ N.of_nat (slots org (reservation_step o m)) ≤ max_active_actors l.
Proof.
  unfold slots. destruct o as [a l [now|e]|a|a r [now|e]]; cbn [reservation_step late];
    unfold reserve, observe_activation; cbn [snd]; try (left; lia).
  - set (u := prune now (usage_of (organization a) m)).
    pose proof (prune_slots now (usage_of (organization a) m)) as Hp. fold u in Hp.
    assert (size (active (usage_of org (set_usage (organization a) u m))) ≤ size (active (usage_of org m)) + 0)%nat as Hpr.
    { rewrite usage_set. case_decide; subst; lia. }
    destruct (sessions u !! a) as [st|]; [left; destruct (s_stopped st); exact Hpr|].
    destruct (N.ltb_spec (N.of_nat (size (active u))) (max_active_actors l)) as [Hlt|]; simpl; [|by left].
    destruct (consume l now u) as [e|u'] eqn:Ec; [by left|]. apply consume_active in Ec as [Ea _]. simpl.
    rewrite usage_set. case_decide; [|left; lia]. right. exists a, l, (Ok now). split; [done|]. simpl.
    rewrite insert_slots, Ea. case_decide; lia.
  - left. unfold release. destruct (organizations m !! organization a) as [u|] eqn:E; [|lia].
    rewrite usage_set. case_decide; subst; simpl; [|lia]. unfold usage_of. rewrite E. simpl.
    pose proof (delete_slots a (active u)). lia.
  - left. set (u := prune now (usage_of (organization a) m)).
    pose proof (prune_slots now (usage_of (organization a) m)) as Hp. fold u in Hp.
    destruct (ignored _ r) eqn:Ei; cbn [snd negb andb]; rewrite usage_set; case_decide; subst; cbn [active];
      try lia.
    destruct (kind r == Stopped) eqn:Ek; cbn [negb andb]; [pose proof (delete_slots a (active u)); lia|].
    rewrite insert_slots. destruct (decide (active u !! a = None)) as [E|E];
      [rewrite bool_decide_eq_true_2 by done|rewrite bool_decide_eq_false_2 by done]; lia.
Qed.

(** The slots of an organization never exceed the limit by more than the number
    of late reports, that is of running actors that were never reserved or whose
    lease had run out before they reported again; without such a report an
    organization never has more starting or running actors than its limit. *)
Theorem slots_bounded (limit : N) (n : nat) (m : MemoryReservations) (org : bytes) :
  reached limit n m → N.of_nat (slots org m) ≤ limit + N.of_nat n.
Proof.
  induction 1 as [r|n m o Hr IH Hl].
  - unfold slots, usage_of. simpl. rewrite lookup_empty. simpl. rewrite map_size_empty. lia.
  - destruct (step_slots o m org) as [Hle|(a & l & c & -> & Hle)].
    + destruct (late o m); lia.
    + simpl in Hl. lia.
Qed.

(** ** A stop is final *)

(** [a] has stopped, and the store remembers that until [until]. *)
Definition has_stopped (a : Activation) (until : N) (m : MemoryReservations) : Prop :=
  active (usage_of (organization a) m) !! a = None ∧
  ∃ st, sessions (usage_of (organization a) m) !! a = Some st ∧ s_stopped st = true ∧ until ≤ forget_at st.

(** Before [until], and not a release of [a]. *)
Definition keeps_stop (a : Activation) (until : N) (o : reservation_op) : Prop :=
  match o with
  | Reserve _ _ c | Observe _ _ c => ∀ now, c = Ok now → now < until
  | Release a' => a' ≠ a
  end.

Lemma prune_stopped a now until u st :
  now < until → active u !! a = None → sessions u !! a = Some st → until ≤ forget_at st →
  active (prune now u) !! a = None ∧ sessions (prune now u) !! a = Some st.
Proof.
  intros Hlt Ha Hs Hf. unfold prune. simpl. split.
  - apply map_lookup_filter_None. by left.
  - apply map_lookup_filter_Some. split; [done|]. simpl. lia.
Qed.

Lemma reserve_stopped a until l now m :
  has_stopped a until m → now < until → fst (reserve a l (Ok now) m) = Failed "actor activation has already stopped".
Proof.
  intros (Ha & st & Hs & Hst & Hf) Hlt. unfold reserve.
  destruct (prune_stopped a now until _ st Hlt Ha Hs Hf) as [_ ->]. by rewrite Hst.
Qed.

Lemma step_stopped a until o m :
  has_stopped a until m → keeps_stop a until o → has_stopped a until (reservation_step o m).
Proof.
  intros (Ha & st & Hs & Hst & Hf) Hk. unfold has_stopped.
  assert (∀ now, now < until → let u := prune now (usage_of (organization a) m) in
    active u !! a = None ∧ sessions u !! a = Some st) as Hp by (intros; by eapply prune_stopped).
  destruct o as [a' l [now|e]|a'|a' r [now|e]]; cbn [reservation_step keeps_stop] in *;
    unfold reserve, observe_activation; cbn [snd]; eauto.
  - specialize (Hp now (Hk now eq_refl)). destruct Hp as [Hpa Hps].
    set (u := prune now (usage_of (organization a') m)).
    assert (has_stopped a until (set_usage (organization a') u m)) as Hpr.
    { unfold has_stopped. rewrite usage_set. case_decide as E; [|eauto]. unfold u. rewrite E. eauto. }
    destruct (sessions u !! a') as [st'|] eqn:Es; [by destruct (s_stopped st')|].
    destruct (negb _); [done|]. destruct (consume l now u) as [?|u'] eqn:Ec; [done|].
    apply consume_active in Ec as [Ea Ese]. simpl. rewrite usage_set. case_decide as E; simpl; [|eauto].
    rewrite Ea, Ese. unfold u in *. rewrite E in *. assert (a' ≠ a) by congruence.
    rewrite !lookup_insert_ne by done. eauto.
  - unfold release. destruct (organizations m !! organization a') as [u|] eqn:E; [|eauto].
    rewrite usage_set. case_decide as Eo; simpl; [|eauto]. unfold usage_of in Ha, Hs. rewrite <- Eo, E in Ha, Hs.
    simpl in *. rewrite !lookup_delete_ne by done. eauto.
  - specialize (Hp now (Hk now eq_refl)). destruct Hp as [Hpa Hps].
    destruct (decide (a' = a)) as [->|Hne].
    + rewrite Hps. unfold ignored. simpl. rewrite Hst. simpl. rewrite usage_set, decide_True by done. simpl.
      rewrite lookup_insert_eq. eauto.
    + set (u := prune now (usage_of (organization a') m)).
      destruct (ignored _ r); simpl; rewrite usage_set; case_decide as E; simpl; eauto;
        unfold u; rewrite E; rewrite lookup_insert_ne by done.
      * eauto.
      * split; [|eauto]. destruct (kind r == Stopped); [rewrite lookup_delete_ne by done|rewrite lookup_insert_ne by done]; done.
Qed.

(** A stop is final: once the report that an activation stopped has been taken,
    the activation holds no slot, later reports of it change nothing, and starting
    it again is refused, whatever else happens, until the store forgets it. *)
Theorem stop_is_final (a : Activation) (r : LifecycleReport) (t : N) (m : MemoryReservations)
    (ops : list reservation_op) :
  kind r = Stopped →
  ignored (default new_session (sessions (prune t (usage_of (organization a) m)) !! a)) r = false →
  Forall (keeps_stop a (forget_time m t)) ops →
  let m' := foldl (λ m o, reservation_step o m) (snd (observe_activation a r (Ok t) m)) ops in
  active (usage_of (organization a) m') !! a = None ∧
  ∀ l now, now < forget_time m t → fst (reserve a l (Ok now) m') = Failed "actor activation has already stopped".
Proof.
  intros Hk Hi Hops m'. assert (has_stopped a (forget_time m t) m') as Hs.
  { unfold m'. clear m'.
    assert (has_stopped a (forget_time m t) (snd (observe_activation a r (Ok t) m))) as H0.
    { unfold observe_activation. rewrite Hi, Hk. simpl. unfold has_stopped.
      rewrite usage_set, decide_True by done. simpl. rewrite lookup_delete_eq, lookup_insert_eq.
      split; [done|]. eexists. split_and!; [done..|simpl; lia]. }
    revert H0. generalize (snd (observe_activation a r (Ok t) m)). induction Hops as [|o ops Ho _ IH]; intros m0 H0; simpl; [done|].
    apply IH. by apply step_stopped. }
  split; [apply Hs|]. intros l now. by apply reserve_stopped.
Qed.

(** ** An example *)

Definition demo_activation (session : bytes) : Activation :=
  {| organization := b"acme"; act_actor := {| project_id := b"p"; actor_name := b"room"; actor_id := session |};
     act_host := b"h"; act_session := session |}.

Definition demo_small : OrganizationLimits :=
  {| max_active_actors := 3; starts_per_second := 3; start_burst := 2 |}.

Definition demo_report (k : LifecycleKind) (seq : N) : LifecycleReport :=
  {| kind := k; owner_epoch := 1; sequence := seq; started_at_ms := 0; occurred_at_ms := 0;
     resources := {| cpu_millis := 250; cpu_limit_millis := None; memory_mib := 256; memory_limit_mib := None |};
     resident := None; last_active_at_ms := None; waiting := [] |}.

Definition demo_empty : MemoryReservations := {| organizations := ∅; retention := 86460000 |}.

Fixpoint demo_run (ops : list reservation_op) (m : MemoryReservations) : list outcome :=
  match ops with
  | [] => []
  | o :: ops =>
      match o with
      | Reserve a l c => [fst (reserve a l c m)]
      | _ => []
      end ++ demo_run ops (reservation_step o m)
  end.

(** Two starts empty the bucket, a third of a token is there 111 ms later, a whole one
    after 334 ms; then the slots are taken, until one is given back. *)
Definition demo_ops : list reservation_op :=
  let start s t := Reserve (demo_activation s) demo_small (Ok t) in
  [start (b"1") 1000; start (b"2") 1000; start (b"3") 1111; start (b"3") 1334; start (b"3") 1334;
   start (b"4") 9000; Observe (demo_activation (b"2")) (demo_report Stopped 7) (Ok 9100);
   start (b"4") 9200; start (b"2") 9300].

Example demo_outcomes :
  demo_run demo_ops demo_empty =
  [Reserved; Reserved; Rejected (Rate 1); Reserved; Reserved; Rejected (Quota 3); Reserved;
   Failed "actor activation has already stopped"].
Proof. vm_compute. reflexivity. Qed.

Lemma slots_bounded_witness :
  N.of_nat (slots (b"acme") (foldl (λ m o, reservation_step o m) demo_empty demo_ops)) ≤ 3 + N.of_nat 0.
Proof.
  apply (slots_bounded 3 0).
  change 0%nat with (0 + lates demo_ops demo_empty)%nat. apply reached_run; [constructor|].
  repeat (apply Forall_cons; split; [vm_compute; first [exact I|discriminate]|]). constructor.
Defined.

Lemma stop_is_final_witness :
  let m := foldl (λ m o, reservation_step o m) demo_empty (take 6 demo_ops) in
  fst (reserve (demo_activation (b"2")) demo_small (Ok 9300)
    (foldl (λ m o, reservation_step o m)
       (snd (observe_activation (demo_activation (b"2")) (demo_report Stopped 7) (Ok 9100) m))
       [Reserve (demo_activation (b"4")) demo_small (Ok 9200)])) =
  Failed "actor activation has already stopped".
Proof.
  intros m.
  apply (stop_is_final (demo_activation (b"2")) (demo_report Stopped 7) 9100 m
           [Reserve (demo_activation (b"4")) demo_small (Ok 9200)]).
  - reflexivity.
  - vm_compute. reflexivity.
  - constructor; [|constructor]. intros now [= <-]. vm_compute. reflexivity.
  - vm_compute. reflexivity.
Defined.
