(* ===== verification/HostStorage.v ===== *)
(** * The storage of a host session

    [HostStorage] of [src/src/host/storage.rs] and the [LeaseFence] of
    [src/src/control_plane/client.rs]. A host session may act on its actor only
    while it has a confirmed lease; the fence closes five seconds before the lease
    it last confirmed can run out, and once closed stays closed.

    The fields of a session are behind locks, and other tasks of the session run
    whenever one waits: [others] is what they do meanwhile, any calls of their own
    with what those do to the fields and to the buckets. *)

From S2P Require Import Prelude Text Demo Names Payload StateLog Effects Concurrency Buckets Recovery Runtime Activation Ownership Takeover.
Local Open Scope N_scope.

(** ** The lease fence *)

Module LeaseFence.

(** [Instant]s are readings of the monotonic clock, in milliseconds. *)
Record t := {
  deadline : option N;
  fenced : bool;
}.

Definition default : t := {| deadline := None; fenced := false |}.

Definition close (f : t) : t := {| deadline := deadline f; fenced := true |}.

(** [check]: the fence closes at its deadline. *)
Definition check (now : N) (f : t) : t * result unit :=
  match deadline f with
  | None => (f, Err "host lease is not confirmed yet")
  | Some d =>
      let f := if d <=? now then close f else f in
      (f, ensure (negb (fenced f)) "host session has no confirmed live lease")
  end.

Definition begin (now : N) (f : t) : t * result unit :=
  let '(f, r) := match deadline f with Some _ => check now f | None => (f, Ok ()) end in
  match r with
  | Err e => (f, Err e)
  | Ok _ => (f, ensure (negb (fenced f)) "host session is permanently fenced")
  end.

Definition SAFETY_MARGIN_MS : N := 5000.

Definition confirm (started duration now : N) (f : t) : t * result unit :=
  let '(f, r) := begin now f in
  match r with
  | Err e => (f, Err e)
  | Ok _ =>
      let d := started + saturating_sub duration SAFETY_MARGIN_MS in
      let f := if d <=? now then close f else f in
      match ensure (negb (fenced f)) "host lease response arrived after the safe lease window" with
      | Err e => (f, Err e)
      | Ok _ => ({| deadline := Some d; fenced := fenced f |}, Ok ())
      end
  end.
End LeaseFence.

(** ** The session *)

Record ActorActivation := {
  act_owner_epoch : N;
  act_state_version : N;
  act_state : option bytes;
}.

(** The locked fields of [HostStorage], and whether its token was cancelled. *)
Record HostStorage := {
  hs_fence : LeaseFence.t;
  hs_lease : option HostLease;
  hs_activation : option ActorActivation;
  hs_checkpoint : option PrefetchedCheckpoint;
  hs_stopped : bool;
}.

Definition host_storage_new : HostStorage :=
  {| hs_fence := LeaseFence.default; hs_lease := None; hs_activation := None; hs_checkpoint := None;
     hs_stopped := false |}.

Definition set_fence (f : LeaseFence.t) (s : HostStorage) : HostStorage :=
  {| hs_fence := f; hs_lease := hs_lease s; hs_activation := hs_activation s; hs_checkpoint := hs_checkpoint s;
     hs_stopped := hs_stopped s |}.
Definition set_current_lease (l : option HostLease) (s : HostStorage) : HostStorage :=
  {| hs_fence := hs_fence s; hs_lease := l; hs_activation := hs_activation s; hs_checkpoint := hs_checkpoint s;
     hs_stopped := hs_stopped s |}.
Definition set_activation (a : option ActorActivation) (s : HostStorage) : HostStorage :=
  {| hs_fence := hs_fence s; hs_lease := hs_lease s; hs_activation := a; hs_checkpoint := hs_checkpoint s;
     hs_stopped := hs_stopped s |}.
Definition set_checkpoint (c : option PrefetchedCheckpoint) (s : HostStorage) : HostStorage :=
  {| hs_fence := hs_fence s; hs_lease := hs_lease s; hs_activation := hs_activation s; hs_checkpoint := c;
     hs_stopped := hs_stopped s |}.

(** A caller goes on after a failed call. *)
Definition ignore_result {S A} (p : stateful process S A) : stateful process S unit :=
  λ s, '(s, _) ← p s; mret (s, Ok ()).

Section host.
Context `{JsonValue} `{!Json (Envelope StateSnapshot), !Json StateSnapshot, !Json LegacySnapshot}.
Context `{Digest} `{Base64} `{!Json Ownership}.
Context (config : SnapshotStoreConfig) `{!SnapshotStore process}.
(** The fields that never change. *)
Context (host session_id region : bytes) (actor : ActorKey) (new_actor : bool) (owner_hint : option OwnershipHint).
(** What the other tasks of the session do while one waits. *)
Context (others : stateful process HostStorage unit).
(** The alarm calls of the control plane. *)
Context (observer_get_alarm : prog process (option Z)) (observer_update_alarm : option Z → prog process unit).

Abbreviation hosted := (stateful process HostStorage).

(** [.await]: the call runs, and so do the other tasks. *)
Definition await {A} (p : prog process A) : hosted A :=
  r ← call (attempt p);
  ignore_result others;;
  check r.

(** An operation on the fence, under its lock. *)
Definition fence_op (f : LeaseFence.t → LeaseFence.t * result unit) : hosted unit :=
  s ← get_state;
  let '(fence, r) := f (hs_fence s) in
  set_state (set_fence fence s);;
  check r.

Definition ensure_authority : hosted unit :=
  s ← get_state;
  check (ensure (negb (hs_stopped s)) "host session is permanently fenced");;
  now ← call instant;
  fence_op (LeaseFence.check now).

Definition lease_or (msg : string) : hosted HostLease :=
  s ← get_state;
  check (ctx (hs_lease s) msg).

Definition current_lease : hosted HostLease :=
  ensure_authority;;
  lease_or "activation lease missing".

Definition get_alarm : hosted (option Z) :=
  ensure_authority;;
  t ← await observer_get_alarm;
  ensure_authority;;
  mret t.

Definition update_alarm (t : option Z) : hosted unit :=
  ensure_authority;;
  await (observer_update_alarm t);;
  ensure_authority.

Definition finish : hosted unit :=
  completed ← await (attempt (deadline "snapshot drain timed out" (drain_activation actor host session_id)));
  modify (λ s, set_fence (LeaseFence.close (hs_fence s)) s);;
  await (deadline "ownership release timed out"
    (release_with_checkpoint config actor host session_id (ok completed))).

Definition activation_of (l : LoadedActor) : ActorActivation :=
  {| act_owner_epoch := place_owner_epoch (loaded_placement l);
     act_state_version := place_state_version (loaded_placement l); act_state := loaded_state l |}.

Definition acquire_actor : hosted ActorActivation :=
  ensure_authority;;
  s ← get_state;
  match hs_activation s with
  | Some a => set_state (set_activation None s);; mret a
  | None =>
      l ← lease_or "host lease missing";
      loaded ← await (activate_actor config actor l region);
      ensure_authority;;
      mret (activation_of loaded)
  end.

Definition load_actor_state (epoch : N) : hosted (N * bytes) :=
  ensure_authority;;
  l ← lease_or "host lease missing";
  loaded ← await (load_owned_actor config actor l epoch);
  ensure_authority;;
  mret (place_state_version (loaded_placement loaded), default [] (loaded_state loaded)).

(** The object a commit is stored under, from its own epoch and version. *)
Definition own_object (s : StateSnapshot) : result bytes :=
  snapshot_object_name actor (state_version s) (pad 32 (show_hex (owner_epoch s))).

Definition read_sqlite (bs : bytes) : hosted SqliteSnapshot :=
  ensure_authority;;
  snapshot ← check (snapshot_decode bs);
  object ← check (own_object snapshot);
  s ← get_state;
  set_state (set_checkpoint None s);;
  await (ss_restore_prefetched object bs (hs_checkpoint s)).

Definition prepare_state_write (epoch version : N) : hosted WritePlan :=
  ensure_authority;;
  l ← lease_or "host lease missing";
  next ← check (ctx (checked_add version 1) "state version overflow");
  plan ← await (prepare_actor_write actor l epoch next);
  ensure_authority;;
  mret plan.

(** Only commits of a log-backed store keep a parent across activations. *)
Definition resume_parent (snapshot : StateSnapshot) (bs : bytes) : result (option SnapshotRef) :=
  match rapid_settings config with
  | None => Ok None
  | Some _ => object ← own_object snapshot; Ok (Some (snapshot_ref object snapshot bs))
  end.

(** [HostLeaseRegistry::register]; the first call claims the actor, later ones renew. *)
Definition register (req : HostLeaseRequest) : hosted HostLease :=
  check (ensure ((req_id req == host) && (req_session_id req == session_id)) "host lease scope mismatch");;
  await (mret ());;
  started ← call instant;
  fence_op (LeaseFence.begin started);;
  s ← get_state;
  l ← match hs_lease s with
      | None =>
          loaded ← await (register_activation config actor req region new_actor owner_hint);
          modify (λ s, set_activation (Some (activation_of loaded))
                         (set_checkpoint (loaded_checkpoint loaded) s));;
          mret (place_lease (loaded_placement loaded))
      | Some _ => await (renew_activation config actor req)
      end;
  now ← call instant;
  fence_op (LeaseFence.confirm started (duration_ms req) now);;
  modify (set_current_lease (Some l));;
  mret l.

Definition unregister (h sess : bytes) : hosted unit :=
  check (ensure ((h == host) && (sess == session_id)) "host lease scope mismatch");;
  finish.
End host.

(** ** The calls of a session *)

Inductive host_call :=
| EnsureAuthority
| CurrentLease
| GetAlarm
| UpdateAlarm (t : option Z)
| AcquireActor
| LoadActorState (epoch : N)
| ReadSqlite (bs : bytes)
| PrepareStateWrite (epoch version : N)
| RegisterLease (req : HostLeaseRequest)
| UnregisterLease (h sess : bytes).

Section calls.
Context `{JsonValue} `{!Json (Envelope StateSnapshot), !Json StateSnapshot, !Json LegacySnapshot}.
Context `{Digest} `{Base64} `{!Json Ownership}.
Context (config : SnapshotStoreConfig) `{!SnapshotStore process}.
Context (host session_id region : bytes) (actor : ActorKey) (new_actor : bool) (owner_hint : option OwnershipHint).
Context (others : stateful process HostStorage unit).
Context (observer_get_alarm : prog process (option Z)) (observer_update_alarm : option Z → prog process unit).

Definition host_call_run (c : host_call) : stateful process HostStorage unit :=
  match c with
  | EnsureAuthority => ignore_result ensure_authority
  | CurrentLease => ignore_result current_lease
  | GetAlarm => ignore_result (get_alarm others observer_get_alarm)
  | UpdateAlarm t => ignore_result (update_alarm others observer_update_alarm t)
  | AcquireActor => ignore_result (acquire_actor config region actor others)
  | LoadActorState e => ignore_result (load_actor_state config actor others e)
  | ReadSqlite bs => ignore_result (read_sqlite actor others bs)
  | PrepareStateWrite e v => ignore_result (prepare_state_write actor others e v)
  | RegisterLease req =>
      ignore_result (register config host session_id region actor new_actor owner_hint others req)
  | UnregisterLease h sess => ignore_result (unregister config host session_id actor others h sess)
  end.

Fixpoint host_calls_run (cs : list host_call) : stateful process HostStorage unit :=
  match cs with
  | [] => mret ()
  | c :: cs => host_call_run c;; host_calls_run cs
  end.
End calls.

(** ** Authority *)

Section authority.
Context `{JsonValue} `{!Json (Envelope StateSnapshot), !Json StateSnapshot, !Json LegacySnapshot}.
Context `{Digest} `{Base64} `{!Base64Laws} `{!Json Ownership} `{!JsonLaws Ownership}.
Context (config : SnapshotStoreConfig) `{!SnapshotStore process} `{!KeptBefore} `{!StoreContract}.
Context (host session_id region : bytes) (actor : ActorKey) (new_actor : bool) (owner_hint : option OwnershipHint).
Context (others : stateful process HostStorage unit).
Context (observer_get_alarm : prog process (option Z)) (observer_update_alarm : option Z → prog process unit).
Implicit Types (w : world process) (s : HostStorage).

(** [r] is or was in the bucket as the record of this session, and its lease outlives
    [d] by the safety margin. *)
Definition outlives w (d : N) (r : Ownership) : Prop :=
  was_recorded w (storage_key actor) r ∧ own_actor r = actor ∧
  lease_id (lease r) = host ∧ Names.session_id (lease r) = session_id ∧
  d + LeaseFence.SAFETY_MARGIN_MS ≤ expires_at_ms (lease r).

(** The process remembers what the bucket has held, and the deadline of the fence is
    covered by a lease that was stored. *)
Definition fence_ok w s : Prop :=
  local_inv w ∧ ∀ d, LeaseFence.deadline (hs_fence s) = Some d → ∃ r, outlives w d r.

Lemma fence_ok_later w w' s : rely w w' → fence_ok w s → fence_ok w' s.
Proof.
  intros HR [Hl Hf]. split; [by eapply local_inv_stable|]. intros d Hd. destruct (Hf d Hd) as (r & Hr & E).
  exists r. split; [by eapply was_recorded_later|done].
Qed.

(** A change of the fields that leaves the deadline alone. *)
Lemma fence_ok_same w s s' :
  LeaseFence.deadline (hs_fence s') = LeaseFence.deadline (hs_fence s) → fence_ok w s → fence_ok w s'.
Proof. unfold fence_ok. by intros ->. Qed.

(** The other tasks keep the fence covered themselves. *)
Definition others_cover : Prop :=
  ∀ s w, fence_ok w s → safe (others s) (λ x w', fence_ok w' x.1) w.

Context (others_ok : others_cover).
Context (get_alarm_quiet : quiet observer_get_alarm) (update_alarm_quiet : ∀ t, quiet (observer_update_alarm t)).

(** A call of the session that keeps the fence covered. *)
Definition held {A} (p : stateful process HostStorage A) (Q : A → HostStorage → world process → Prop) s w : Prop :=
  fence_ok w s → safe (p s) (λ x w', fence_ok w' x.1 ∧ ∀ a, x.2 = Ok a → Q a x.1 w') w.

Definition holds {A} (p : stateful process HostStorage A) : Prop := ∀ s w, held p (λ _ _ _, True) s w.

Lemma held_ret {A} (a : A) (Q : A → HostStorage → world process → Prop) s w : Q a s w → held (mret a) Q s w.
Proof. intros HQ Hf. apply safe_ret. split; [done|]. by intros ? [= <-]. Qed.

Lemma held_bind {A B} (p : stateful process HostStorage A) (f : A → stateful process HostStorage B) Q Q' s w :
  held p Q s w → (∀ a s' w', rely w w' → Q a s' w' → held (f a) Q' s' w') → held (p ≫= f) Q' s w.
Proof.
  intros Hp Hf Hs. eapply safe_bind; [by apply Hp|]. intros [s' [a|e]] w' HR [Hs' Ha].
  - by apply (Hf a s' w' HR (Ha a eq_refl)).
  - apply safe_ret. by split.
Qed.

Lemma held_mono {A} (p : stateful process HostStorage A) (Q Q' : A → HostStorage → world process → Prop) s w :
  held p Q s w → (∀ a s' w', Q a s' w' → Q' a s' w') → held p Q' s w.
Proof.
  intros Hp HQ Hs. eapply safe_mono; [by apply Hp|]. intros x w' _ [? Ha]. split; [done|]. eauto.
Qed.

Lemma held_check {A} (r : result A) (Q : A → HostStorage → world process → Prop) s w :
  (∀ a, r = Ok a → Q a s w) → held (check r) Q s w.
Proof. intros HQ Hf. apply safe_ret. by split. Qed.

Lemma held_get (Q : HostStorage → HostStorage → world process → Prop) s w : Q s s w → held get_state Q s w.
Proof. intros HQ Hf. apply safe_ret. split; [done|]. by intros ? [= <-]. Qed.

(** A change of the fields that leaves the fence covered. *)
Lemma held_set (f : HostStorage → HostStorage) (Q : unit → HostStorage → world process → Prop) s w :
  (fence_ok w s → fence_ok w (f s)) → Q () (f s) w → held (modify f) Q s w.
Proof. intros Hf HQ Hs. apply safe_ret. split; [auto|]. by intros [] _. Qed.

Lemma held_put s' (Q : unit → HostStorage → world process → Prop) s w :
  (fence_ok w s → fence_ok w s') → Q () s' w → held (set_state s') Q s w.
Proof. intros Hf HQ Hs. apply safe_ret. split; [auto|]. by intros [] _. Qed.

Lemma safe_attempt {A} (p : prog process A) (Q : A → world process → Prop) w :
  safe p Q w → safe (attempt p) (λ r w', ∀ a, r = Ok a → Q a w') w.
Proof.
  intros Hp Hw. apply wp_attempt. eapply wp_mono; [by apply Hp|]. intros r w' [? HQ]. split; [done|].
  intros ? [= <-]. done.
Qed.

Lemma held_call {A} (p : prog process A) (Q : A → world process → Prop) s w :
  safe p Q w → held (call p) (λ a s' w', s' = s ∧ Q a w') s w.
Proof.
  intros Hp Hf. unfold call. eapply safe_bind; [by apply safe_attempt|]. intros r w' HR Hr. apply safe_ret.
  split; [by eapply fence_ok_later|]. simpl. auto.
Qed.

Lemma held_await {A} (p : prog process A) (Q : A → world process → Prop) s w :
  (∀ a, stable rely (Q a)) → safe p Q w → held (await others p) (λ a _ w', Q a w') s w.
Proof.
  intros HQ Hp. unfold await. eapply held_bind; [apply held_call, safe_attempt, Hp|]. intros r s' w' _ [-> Hr].
  eapply (held_bind _ _ (λ _ _ w'', rely w' w'')).
  - intros Hf. unfold ignore_result. eapply safe_bind; [by apply others_ok|]. intros [s' x] w'' HR Hs'.
    by apply safe_ret.
  - intros [] s' w'' _ HR. apply held_check. intros a ->. eapply HQ; [by apply Hr|done].
Qed.

Lemma holds_await {A} (p : prog process A) : quiet p → holds (await others p).
Proof. intros Hp s w. eapply held_mono; [by apply (held_await p (λ _ _, True)); [|apply Hp]|done]. Qed.

Lemma holds_bind {A B} (p : stateful process HostStorage A) (f : A → stateful process HostStorage B) :
  holds p → (∀ a, holds (f a)) → holds (p ≫= f).
Proof. intros Hp Hf s w. eapply held_bind; [apply Hp|]. intros. apply Hf. Qed.

Lemma holds_ret {A} (a : A) : holds (mret a).
Proof. intros s w. by apply held_ret. Qed.

Lemma holds_check {A} (r : result A) : holds (check r).
Proof. intros s w. by apply held_check. Qed.

Lemma held_instant s w : held (call instant) (λ t s' w', s' = s ∧ t = clock w') s w.
Proof.
  eapply held_mono; [apply (held_call instant (λ t w', t = clock w'))|done].
  apply safe_op. intros w1 x w2 _ _ [-> ->]. split; [by apply guar_same|]. by intros ? [= <-].
Qed.

(** ** The fence keeps its deadline *)

Lemma check_deadline now f : LeaseFence.deadline (fst (LeaseFence.check now f)) = LeaseFence.deadline f.
Proof. unfold LeaseFence.check. destruct (LeaseFence.deadline f) eqn:E; simpl; [case_match|]; done. Qed.

Lemma check_Ok now f :
  snd (LeaseFence.check now f) = Ok () → ∃ d, LeaseFence.deadline f = Some d ∧ now < d ∧ LeaseFence.fenced f = false.
Proof.
  unfold LeaseFence.check. destruct (LeaseFence.deadline f) as [d|]; simpl; [|done].
  destruct (N.leb_spec d now); simpl; [done|]. intros Hr. inv_ok. by exists d.
Qed.

Lemma check_open now f :
  snd (LeaseFence.check now f) = Ok () → LeaseFence.fenced (fst (LeaseFence.check now f)) = false.
Proof.
  unfold LeaseFence.check. destruct (LeaseFence.deadline f); simpl; [|done]. intros Hr. inv_ok. done.
Qed.

Lemma begin_deadline now f : LeaseFence.deadline (fst (LeaseFence.begin now f)) = LeaseFence.deadline f.
Proof.
  unfold LeaseFence.begin. destruct (LeaseFence.deadline f) eqn:E; [|done]. rewrite <- E.
  pose proof (check_deadline now f) as Hd. by destruct (LeaseFence.check now f) as [g [u|e]].
Qed.

(** A confirmation keeps the deadline, or moves it to the end of the safe window. *)
Lemma confirm_deadline started duration now f :
  LeaseFence.deadline (fst (LeaseFence.confirm started duration now f)) = LeaseFence.deadline f ∨
  LeaseFence.deadline (fst (LeaseFence.confirm started duration now f)) =
    Some (started + saturating_sub duration LeaseFence.SAFETY_MARGIN_MS) ∧
  now < started + saturating_sub duration LeaseFence.SAFETY_MARGIN_MS.
Proof.
  unfold LeaseFence.confirm. pose proof (begin_deadline now f) as Hd.
  destruct (LeaseFence.begin now f) as [g [u|e]]; simpl in *; [|by left].
  destruct (N.leb_spec (started + saturating_sub duration LeaseFence.SAFETY_MARGIN_MS) now); simpl; [by left|].
  destruct (LeaseFence.fenced g); simpl; [by left|by right].
Qed.

Lemma held_fence_op (f : LeaseFence.t → LeaseFence.t * result unit) s w :
  (∀ d, LeaseFence.deadline (fst (f (hs_fence s))) = Some d →
     LeaseFence.deadline (hs_fence s) = Some d ∨ ∃ r, outlives w d r) →
  held (fence_op f) (λ _ s' w', w' = w ∧ s' = set_fence (fst (f (hs_fence s))) s ∧ snd (f (hs_fence s)) = Ok ()) s w.
Proof.
  intros Hd. unfold fence_op. eapply held_bind; [apply (held_get (λ a s' w', a = s ∧ s' = s ∧ w' = w)); done|].
  intros ? ? ? _ (-> & -> & ->). destruct (f (hs_fence s)) as [g r] eqn:E. simpl in *.
  eapply held_bind; [apply (held_put _ (λ _ s' w', s' = set_fence g s ∧ w' = w)); [|done]|].
  { intros [Hl Hf]. split; [done|]. intros d Hg. destruct (Hd d Hg) as [Hold|Hr]; [by apply Hf|done]. }
  intros [] ? ? _ (-> & ->). apply held_check. intros [] ->. done.
Qed.

(** The check passes only for a session that was not stopped nor fenced, and only
    while the clock is before the deadline. *)
Definition authorised s w : Prop :=
  hs_stopped s = false ∧ LeaseFence.fenced (hs_fence s) = false ∧
  ∃ r, outlives w (clock w) r ∧ clock w + LeaseFence.SAFETY_MARGIN_MS < expires_at_ms (lease r).

Lemma held_ensure_authority s w : held ensure_authority (λ _ s' w', authorised s' w') s w.
Proof.
  unfold ensure_authority. eapply held_bind; [apply (held_get (λ a s' w', a = s ∧ s' = s ∧ w' = w)); done|].
  intros ? ? ? _ (-> & -> & ->).
  eapply held_bind; [apply (held_check _ (λ _ s' w', s' = s ∧ w' = w ∧ hs_stopped s = false))|].
  { intros [] Hstop. inv_ok. done. }
  intros [] ? ? _ (-> & -> & Hstop).
  eapply held_bind; [apply held_instant|]. intros now s' w' HR [-> ->].
  intros Hf. eapply safe_mono; [apply held_fence_op; [|exact Hf]|].
  { intros d Hd. left. by rewrite check_deadline in Hd. }
  intros x w'' _ [Hx Hq]. split; [done|]. intros a Ha. destruct (Hq a Ha) as (-> & Es & Hok). rewrite Es.
  split; [done|]. split; [by apply check_open|].
  apply check_Ok in Hok as (d & Hd & Hlt & _). destruct (proj2 Hf d Hd) as (r & Hrec & Hact & Hh & Hs & Hle).
  exists r. unfold outlives. split_and!; [done..|lia|lia].
Qed.

Lemma holds_ensure_authority : holds ensure_authority.
Proof. intros s w. by eapply held_mono; [apply held_ensure_authority|]. Qed.

Lemma holds_lease_or msg : holds (lease_or msg).
Proof. intros s w. unfold lease_or. eapply held_bind; [by apply (held_get (λ _ _ _, True))|]. intros. by apply held_check. Qed.

(** The clock of the confirmation is not behind that of the request. *)
Lemma held_confirm req started s w :
  started ≤ clock w →
  (∃ r, was_recorded w (storage_key actor) r ∧ own_actor r = actor ∧ lease_id (lease r) = host ∧
     Names.session_id (lease r) = session_id ∧ started + duration_ms req ≤ expires_at_ms (lease r)) →
  ∀ now, now = clock w → held (fence_op (LeaseFence.confirm started (duration_ms req) now)) (λ _ _ _, True) s w.
Proof.
  intros Hle (r & Hrec & Ha & Hh & Hs & Hexp) now ->. eapply held_mono; [apply held_fence_op|done].
  intros d Hd. destruct (confirm_deadline started (duration_ms req) (clock w) (hs_fence s)) as [E|[E Hlt]];
    rewrite E in Hd; [by left|]. right. exists r. injection Hd as <-. unfold outlives, saturating_sub in *.
  split_and!; [done..|]. unfold LeaseFence.SAFETY_MARGIN_MS in *. lia.
Qed.

Lemma renewed_stable w0 req (l : HostLease) :
  stable rely (λ w, lease_for w0 req l ∧ ∃ r, was_recorded w (storage_key actor) r ∧ lease r = l ∧ own_actor r = actor).
Proof. intros w w' [Hl (r & Hr & E)] HR. split; [done|]. exists r. split; [by eapply was_recorded_later|done]. Qed.

Lemma held_register req s w :
  (∀ h, owner_hint = Some h → hint_ok w h) →
  held (register config host session_id region actor new_actor owner_hint others req) (λ _ _ _, True) s w.
Proof.
  intros Hh. unfold register. eapply held_bind.
  { apply (held_check _ (λ _ s' w', w' = w ∧ req_id req = host ∧ req_session_id req = session_id)).
    intros [] Hr. inv_ok. done. }
  intros [] s1 ? _ (-> & Hid & Hses). eapply held_bind; [apply (holds_await (mret ())), quiet_ret|].
  intros [] s2 w2 HR2 _. eapply held_bind; [apply held_instant|]. intros started s3 w3 HR3 [-> ->].
  eapply held_bind; [apply held_fence_op|].
  { intros d Hd. left. by rewrite begin_deadline in Hd. }
  intros [] s4 ? _ (-> & _). eapply held_bind; [by apply (held_get (λ _ _ w', w' = w3))|].
  intros s5 ? ? _ ->.
  eapply (held_bind _ _ (λ l s' w', rely w3 w' ∧ ∃ r, was_recorded w' (storage_key actor) r ∧ own_actor r = actor ∧
    lease_id (lease r) = host ∧ Names.session_id (lease r) = session_id ∧
    clock w3 + duration_ms req ≤ expires_at_ms (lease r))).
  { destruct (hs_lease s5).
    - intros Hf. eapply safe_mono; [apply (held_await _ _ _ _ (renewed_stable w3 req) (safe_renew config actor req w3) Hf)|].
      intros x w' HR [Hx Hq]. split; [done|]. intros l Hl.
      destruct (Hq l Hl) as [(Hi & Hse & Hle) (r & Hrec & <- & Hact)]. split; [done|]. exists r.
      split_and!; [done|done|congruence|congruence|done].
    - eapply held_bind; [apply held_await, (safe_register config actor req region new_actor owner_hint)|].
      { intros la w5 w6 Ha HR. by apply (activated_later w3 w3 _ _ _ w5 w6). }
      { intros h Eh. eapply hint_ok_later; [|by apply Hh]. by transitivity w2. }
      intros la s6 w6 HR6 [(Hi & Hse & Hle) (r & Hrec & El & Hact)].
      eapply held_bind; [apply (held_set _ (λ _ _ w', w' = w6)); [|done]|]; [done|].
      intros [] s7 ? _ ->. apply held_ret. split; [done|]. exists r. rewrite El.
      split_and!; [done|done|congruence|congruence|done]. }
  intros l s6 w6 _ (HR6 & Hlease). eapply held_bind; [apply held_instant|]. intros now s7 w7 HR7 [-> ->].
  eapply held_bind; [apply (held_confirm req (clock w3)); [| |done]|].
  - destruct HR6 as [[? _] _], HR7 as [[? _] _]. lia.
  - destruct Hlease as (r & Hr & E). exists r. split; [by eapply was_recorded_later|done].
  - intros [] s8 w8 _ _. eapply held_bind; [by apply (held_set _ (λ _ _ _, True))|]. intros. by apply held_ret.
Qed.

(** ** Every call keeps the fence covered *)

Ltac hold :=
  repeat lazymatch goal with
  | |- holds ensure_authority => apply holds_ensure_authority
  | |- holds (lease_or _) => apply holds_lease_or
  | |- holds (check _) => apply holds_check
  | |- holds (mret _) => apply holds_ret
  | |- holds (await _ _) => apply holds_await
  | |- holds (_ ≫= _) => apply holds_bind; [|intros ?]
  end.

Lemma holds_ignore {A} (p : stateful process HostStorage A) (s : HostStorage) w :
  held p (λ _ _ _, True) s w → held (ignore_result p) (λ _ _ _, True) s w.
Proof.
  intros Hp Hf. unfold ignore_result. eapply safe_bind; [by apply Hp|]. intros [s' r] w' _ [Hs' _].
  by apply safe_ret.
Qed.

Lemma holds_acquire : holds (acquire_actor config region actor others).
Proof.
  unfold acquire_actor. apply holds_bind; [apply holds_ensure_authority|intros []]. intros s w.
  eapply held_bind; [apply (held_get (λ a s' w', a = s ∧ s' = s ∧ w' = w)); done|].
  intros ? ? ? _ (-> & -> & ->). destruct (hs_activation s) as [a|].
  - eapply held_bind; [by apply (held_put _ (λ _ _ _, True))|]. intros. by apply held_ret.
  - apply holds_bind; [apply holds_lease_or|intros l].
    apply holds_bind; [apply holds_await; by apply quiet_activate_actor|intros la]. hold.
Qed.

Lemma holds_read_sqlite bs : holds (read_sqlite actor others bs).
Proof.
  unfold read_sqlite. apply holds_bind; [apply holds_ensure_authority|intros []].
  do 2 (apply holds_bind; [apply holds_check|intros ?]). intros s w.
  eapply held_bind; [apply (held_get (λ a s' w', a = s ∧ s' = s ∧ w' = w)); done|].
  intros ? ? ? _ (-> & -> & ->). eapply held_bind; [by apply (held_put _ (λ _ _ _, True))|].
  intros. apply holds_await. intros w1. eapply safe_mono; [apply sc_restore|done].
Qed.

Lemma holds_finish : holds (finish config host session_id actor others).
Proof.
  unfold finish. apply holds_bind.
  { apply holds_await, quiet_attempt, quiet_deadline. by apply quiet_drain. }
  intros c. apply holds_bind; [|intros; apply holds_await, quiet_deadline; by apply quiet_release_loop].
  intros s w. by apply (held_set _ (λ _ _ _, True)).
Qed.

Lemma quiet_prepared l e version : quiet (prepare_actor_write actor l e version).
Proof.
  unfold prepare_actor_write. apply quiet_bind; [by apply quiet_atomic|intros].
  do 2 (apply quiet_bind; [apply quiet_lift|intros]). apply quiet_lift.
Qed.

Abbreviation run := (host_call_run config host session_id region actor new_actor owner_hint others
  observer_get_alarm observer_update_alarm).
Abbreviation runs := (host_calls_run config host session_id region actor new_actor owner_hint others
  observer_get_alarm observer_update_alarm).

Lemma held_call_run c s w :
  (∀ h, owner_hint = Some h → hint_ok w h) → held (run c) (λ _ _ _, True) s w.
Proof.
  intros Hh. destruct c; simpl; apply holds_ignore; try (by apply held_register);
    match goal with |- held ?p _ _ _ => assert (holds p) as Hp; [|apply Hp] end.
  - apply holds_ensure_authority.
  - unfold current_lease. hold.
  - unfold get_alarm. hold. exact get_alarm_quiet.
  - unfold update_alarm. hold. apply update_alarm_quiet.
  - apply holds_acquire.
  - unfold load_actor_state. hold. by apply quiet_load_owned_actor.
  - apply holds_read_sqlite.
  - unfold prepare_state_write. hold. apply quiet_prepared.
  - unfold unregister. hold. apply holds_finish.
Qed.

Lemma held_calls_run cs s w :
  (∀ h, owner_hint = Some h → hint_ok w h) → held (runs cs) (λ _ _ _, True) s w.
Proof.
  revert s w. induction cs as [|c cs IH]; intros s w Hh; simpl; [by apply held_ret|].
  eapply held_bind; [by apply held_call_run|]. intros [] s' w' HR _. apply IH.
  intros h Eh. eapply hint_ok_later; [exact HR|auto].
Qed.

(** C8. A host session acts only under a live lease: whatever calls it has made since
    it was created, whatever failed, and whatever the other tasks of the session
    (renewals included) and the other hosts did meanwhile, when its authority check
    passes the session was neither stopped nor fenced, and the bucket holds or has
    held a record of this very session whose lease has more than the safety margin of
    five seconds left, so no step of the protocol hands that record on. The other tasks
    are any that keep the fence covered by such a record ([others_cover]), as every
    call of the session does. *)
Theorem authority_is_live (calls : list host_call) w :
  own_inv w → local_inv w → (∀ h, owner_hint = Some h → hint_ok w h) →
  wp rely guar ((runs calls;; ensure_authority) host_storage_new) (λ res w', ∀ s',
    res = Ok (s', Ok ()) → hs_stopped s' = false ∧ LeaseFence.fenced (hs_fence s') = false ∧ ∃ r,
      was_recorded w' (storage_key actor) r ∧ own_actor r = actor ∧
      lease_id (lease r) = host ∧ Names.session_id (lease r) = session_id ∧
      clock w' + LeaseFence.SAFETY_MARGIN_MS < expires_at_ms (lease r) ∧
      ∀ next, own_step w' (Some r) next → epoch next = epoch r) w.
Proof.
  intros Hw Hl Hh. eapply wp_mono.
  { assert (held (runs calls;; ensure_authority) (λ _ s' w', authorised s' w') host_storage_new w) as Hheld.
    { eapply held_bind; [by apply held_calls_run|]. intros [] s' w' _ _. apply held_ensure_authority. }
    apply Hheld; [|exact Hw]. split; [done|]. intros d Hd. discriminate Hd. }
  intros res w' [_ Hres] s' ->. destruct (proj2 (Hres _ eq_refl) _ eq_refl) as (Hst & Hf & r & (Hrec & Ha & Hi & Hs & _) & Hlive).
  split_and!; [done..|]. exists r. split_and!; [done..|]. intros next Hstep.
  inversion Hstep as [|? ? Hexp|? ? ? ?|? c ?]; subst; simpl; [lia|done|by destruct c].
Qed.
End authority.
