(* ===== verification/LeaseMaintenance.v ===== *)
(** * Lease maintenance ([src/src/host/lease_maintenance.rs])

    A host renews its lease in the background. The task knows only what it has
    confirmed itself: it ends, and tells the process that the lease is lost, at the
    latest when the last confirmed window closes. [poll] is one poll of the task's
    future; the executor polls it when a timer fires, when the renewal answers or
    when it is told to stop. *)

From S2P Require Import Prelude Text Demo Names Payload Effects Concurrency.
Local Open Scope N_scope.

(** The [HostLeaseRegistry] trait. *)
Class HostLeaseRegistry (L : Type) := {
  registry_register : HostLeaseRequest → prog L HostLease;
  registry_unregister : bytes → bytes → prog L unit;
}.

Record HostEndpoint := {
  endpoint_id : bytes;
  endpoint_route : bytes;
}.

Record HostLeaseMaintainer := {
  endpoint : HostEndpoint;
  maintained_session : bytes;
  lease_duration_ms : N;
  renew_every_ms : N;
}.

(** [HostLeaseMaintainer::new] *)
Definition maintainer_new (e : HostEndpoint) (session : bytes) (lease_duration renew_every : N)
    : result HostLeaseMaintainer :=
  ensure (lease_duration <=? u64_max) "out of range integral type conversion attempted";;
  ensure (0 <? lease_duration) "host lease duration must be positive";;
  ensure (0 <? renew_every) "host lease renewal interval must be positive";;
  ensure (renew_every <? lease_duration) "host lease renewal interval must be shorter than its duration";;
  ensure (session != []) "host session ID must not be empty";;
  Ok {| endpoint := e; maintained_session := session; lease_duration_ms := lease_duration;
        renew_every_ms := renew_every |}.

Record ConfirmedHostLease := {
  confirmed_lease : HostLease;
  local_deadline : N;
}.

Section maintenance.
Context {L : Type} `{!HostLeaseRegistry L} (m : HostLeaseMaintainer).

Definition renewal_request : HostLeaseRequest :=
  {| req_id := endpoint_id (endpoint m); req_session_id := maintained_session m;
     req_route := endpoint_route (endpoint m); duration_ms := lease_duration_ms m |}.

Definition renew_once_with_deadline : prog L ConfirmedHostLease :=
  local_now ← now_ms;
  valid_until ← lift (ctx (checked_add local_now (lease_duration_ms m)) "host lease expiration overflow");
  lease ← registry_register renewal_request;
  anchor ← instant;
  now ← now_ms;
  let remaining := saturating_sub valid_until now in
  lift (ensure (0 <? remaining) "host lease expired before its registration response arrived");;
  d ← lift (ctx (checked_add anchor remaining) "local host lease deadline overflow");
  mret {| confirmed_lease := lease; local_deadline := d |}.

Definition unregister : prog L unit := registry_unregister (endpoint_id (endpoint m)) (maintained_session m).

(** ** The renewal task *)

(** [renew_until_stopped]: waiting for the next renewal, or for its answer. *)
Inductive phase := Waiting (renew_at : N) | Renewing | Ended.

Record task := {
  task_phase : phase;
  deadline_ms : N;
  lease_lost : bool;
}.

(** [start], once the first registration was confirmed. *)
Definition task_start (c : ConfirmedHostLease) (now : N) : task :=
  {| task_phase := Waiting (now + renew_every_ms m); deadline_ms := local_deadline c; lease_lost := false |}.

Definition enter (p : phase) (t : task) : task :=
  {| task_phase := p; deadline_ms := deadline_ms t; lease_lost := lease_lost t |}.

(** [lease_lost.send(true)], and the task returns. *)
Definition lose (t : task) : task := {| task_phase := Ended; deadline_ms := deadline_ms t; lease_lost := true |}.

(** What a poll finds: the time, whether the task was told to stop, and the answer of
    the renewal if it is there. The branches of [select!] are tried in order. *)
Record wakeup := {
  at_ms : N;
  shutdown : bool;
  renewal : option (result ConfirmedHostLease);
}.

Definition poll (x : wakeup) (t : task) : task :=
  match task_phase t with
  | Ended => t
  | Waiting renew_at =>
      if shutdown x then enter Ended t
      else if deadline_ms t <=? at_ms x then lose t
      else if renew_at <=? at_ms x then enter Renewing t
      else t
  | Renewing =>
      if shutdown x then enter Ended t
      else if deadline_ms t <=? at_ms x then lose t
      else
        match renewal x with
        | Some (Ok c) =>
            {| task_phase := Waiting (at_ms x + renew_every_ms m); deadline_ms := local_deadline c;
               lease_lost := lease_lost t |}
        | Some (Err _) => enter (Waiting (at_ms x + renew_every_ms m)) t
        | None => t
        end
  end.

Definition polls (xs : list wakeup) (t : task) : task := foldl (λ t x, poll x t) t xs.
End maintenance.

(** ** What a confirmed window is worth *)

Section window.
Context {L : Type} `{!HostLeaseRegistry L} (m : HostLeaseMaintainer).
(** Others may do anything but turn the clock back. *)
Definition time_passes (w1 w2 : world L) : Prop := clock w1 ≤ clock w2.

#[local] Instance time_passes_preorder : PreOrder time_passes.
Proof. split; unfold time_passes; [intros ?; lia|intros ? ? ? ? ?; lia]. Qed.

(** The store stamps a lease with its own clock when it is asked or later. *)
Definition stamps (register : HostLeaseRequest → prog L HostLease) : Prop :=
  ∀ req w, wp time_passes time_passes (register req) (λ r w', time_passes w w' ∧
    ∀ l, r = Ok l → clock w + duration_ms req ≤ expires_at_ms l) w.

(** The window a host believes in closes before the lease it was given. *)
Definition good (c : ConfirmedHostLease) : Prop := local_deadline c ≤ expires_at_ms (confirmed_lease c).

Lemma wp_now Q w :
  (∀ w', time_passes w w' → Q (Ok (clock w')) w') → (∀ e w', time_passes w w' → Q (Err e) w') →
  wp time_passes time_passes (now_ms : prog L N) Q w.
Proof.
  intros HQ He. apply wp_perform. intros w1 HR x w2 [-> Hx]. split; [unfold time_passes; lia|].
  destruct x as [t|e]; [rewrite (Hx t eq_refl); auto|by apply He].
Qed.

Lemma wp_instant Q w :
  (∀ w', time_passes w w' → Q (Ok (clock w')) w') → wp time_passes time_passes (instant : prog L N) Q w.
Proof.
  intros HQ. apply wp_perform. intros w1 HR x w2 [-> ->]. split; [unfold time_passes; lia|]. auto.
Qed.

Lemma renew_good w :
  stamps registry_register →
  wp time_passes time_passes (renew_once_with_deadline m) (λ r _, ∀ c, r = Ok c → good c) w.
Proof.
  intros Hst. unfold renew_once_with_deadline. apply wp_bind, wp_now; [|done]. intros w1 _.
  apply wp_bind_lift; [done|]. intros valid Hv%ctx_Ok. apply checked_add_Some in Hv as [-> _].
  apply wp_bind. eapply wp_mono; [apply Hst|]. intros [l|e] w2 [Hc Hl]; [|done].
  specialize (Hl l eq_refl). simpl in Hl. apply wp_bind, wp_instant. intros w3 Hc3.
  apply wp_bind, wp_now; [|done]. intros w4 Hc4. cbv zeta.
  apply wp_bind_lift; [done|]. intros [] Hr. apply wp_bind_lift; [done|]. intros d Hd.
  inv_ok. simpl. intros c [= <-]. unfold good, saturating_sub, time_passes in *. simpl. subst. lia.
Qed.

(** The renewals that answered. *)
Definition answers (xs : list wakeup) : list ConfirmedHostLease :=
  omap (λ x, match renewal x with Some (Ok c) => Some c | _ => None end) xs.

(** An answer is only there for a renewal that is under way. *)
Definition in_flight (c0 : ConfirmedHostLease) (start : N) (xs : list wakeup) : Prop :=
  ∀ ys y zs, xs = ys ++ y :: zs → is_Some (renewal y) →
    task_phase (polls m ys (task_start m c0 start)) ∈ [Renewing; Ended].

Lemma answers_snoc xs x :
  answers (xs ++ [x]) = answers xs ++ (if renewal x is Some (Ok c) then [c] else []).
Proof. unfold answers. rewrite omap_app. f_equal. simpl. by destruct (renewal x) as [[]|]. Qed.

Lemma poll_lost x t : lease_lost (poll m x t) = false → lease_lost t = false.
Proof. unfold poll. by repeat case_match. Qed.

(** The deadline of a running task is that of the window confirmed last. *)
Lemma polls_deadline c0 start xs :
  Forall (λ x, shutdown x = false) xs → in_flight c0 start xs →
  let t := polls m xs (task_start m c0 start) in
  lease_lost t = false →
  (∃ c, last (c0 :: answers xs) = Some c ∧ deadline_ms t = local_deadline c) ∧ task_phase t ≠ Ended.
Proof.
  induction xs as [|x xs IH] using rev_ind; intros Hxs Hin; [simpl; intros _; split; [by exists c0|done]|].
  apply Forall_app in Hxs as [Hxs Hx]. rewrite Forall_singleton in Hx.
  assert (in_flight c0 start xs) as Hin'.
  { intros ys y zs -> Hy. apply (Hin ys y (zs ++ [x])); [by rewrite <- app_assoc|done]. }
  specialize (Hin xs x [] eq_refl). unfold polls in *. rewrite foldl_snoc. cbn zeta in *. intros Hlost.
  specialize (IH Hxs Hin' (poll_lost _ _ Hlost)). revert Hin Hlost IH. set (t := foldl _ _ xs).
  intros Hin Hlost ((c & Hc & Ed) & Hph). rewrite answers_snoc.
  assert ((∀ c', renewal x ≠ Some (Ok c')) →
    last (c0 :: answers xs ++ (if renewal x is Some (Ok c) then [c] else [])) = Some c) as Hsame.
  { intros Hr. destruct (renewal x) as [[c'|e]|]; [by destruct (Hr c')|..]; by rewrite app_nil_r. }
  unfold poll in *. rewrite Hx in *. destruct (task_phase t) as [at_| |] eqn:Ep; [| |done].
  - assert (∀ c', renewal x ≠ Some (Ok c')) as Hno.
    { intros c' Er. rewrite Er in Hin. specialize (Hin ltac:(eauto)). set_solver. }
    destruct (N.leb_spec (deadline_ms t) (at_ms x)); [done|].
    split; [exists c; split; [by apply Hsame|]|]; destruct (at_ <=? at_ms x); [done..|congruence].
  - destruct (N.leb_spec (deadline_ms t) (at_ms x)); [done|]. destruct (renewal x) as [[c'|e]|] eqn:Er.
    + split; [|done]. exists c'. split; [|done].
      change (c0 :: answers xs ++ [c']) with ((c0 :: answers xs) ++ [c']). apply last_snoc.
    + split; [|done]. exists c. by split; [apply Hsame|].
    + split; [|congruence]. exists c. by split; [apply Hsame|].
Qed.

(** C16. A host fences itself: every window it confirms closes no later than the lease
    the store stamped for it, and its renewal task, unless it was told to stop, has
    given up the lease at any time it runs that is not inside the window it confirmed
    last, so that running on means that the lease it registered last is still live. *)
Theorem maintenance_self_fences :
  stamps registry_register →
  (∀ w, wp time_passes time_passes (renew_once_with_deadline m) (λ r _, ∀ c, r = Ok c → good c) w) ∧
  ∀ c0 start xs x,
    Forall good (c0 :: answers xs) → Forall (λ x, shutdown x = false) (xs ++ [x]) → in_flight c0 start xs →
    lease_lost (polls m (xs ++ [x]) (task_start m c0 start)) = false →
    ∃ c, last (c0 :: answers xs) = Some c ∧ at_ms x < local_deadline c ∧
      local_deadline c ≤ expires_at_ms (confirmed_lease c).
Proof.
  intros Hst. split; [intros w; by apply renew_good|]. intros c0 start xs x Hg [Hxs Hx]%Forall_app Hin Hlost.
  rewrite Forall_singleton in Hx. unfold polls in Hlost. rewrite foldl_snoc in Hlost.
  destruct (polls_deadline c0 start xs Hxs Hin (poll_lost _ _ Hlost)) as [(c & Hc & Ed) Hph].
  exists c. split; [done|]. split; [|apply (proj1 (Forall_forall _ _) Hg); by apply last_Some_elem_of].
  rewrite <- Ed. unfold polls in *. set (t := foldl _ _ xs) in *. unfold poll in Hlost. rewrite Hx in Hlost.
  destruct (N.leb_spec (deadline_ms t) (at_ms x)); [|lia]. by destruct (task_phase t).
Qed.
End window.

(** ** An example *)

Definition demo_maintainer : HostLeaseMaintainer :=
  {| endpoint := {| endpoint_id := b"h"; endpoint_route := b"https://host" |}; maintained_session := b"s";
     lease_duration_ms := 30000; renew_every_ms := 10000 |}.

(** A store that stamps leases with the time of the request. *)
#[local] Instance demo_registry : HostLeaseRegistry unit := {|
  registry_register := λ req,
    t ← now_ms;
    mret {| lease_id := req_id req; session_id := req_session_id req; route := req_route req;
            expires_at_ms := t + duration_ms req |};
  registry_unregister := λ _ _, mret ();
|}.

Definition demo_window (t : N) : ConfirmedHostLease :=
  {| confirmed_lease := {| lease_id := b"h"; session_id := b"s"; route := b"https://host"; expires_at_ms := t |};
     local_deadline := t |}.

Definition demo_wakeup (t : N) (r : option (result ConfirmedHostLease)) : wakeup :=
  {| at_ms := t; shutdown := false; renewal := r |}.

(** One renewal is confirmed, the next never answers. *)
Definition demo_wakeups : list wakeup :=
  [demo_wakeup 10000 None; demo_wakeup 10050 (Some (Ok (demo_window 40000))); demo_wakeup 20050 None;
   demo_wakeup 39999 None].

Example demo_task :
  let t := polls demo_maintainer demo_wakeups (task_start demo_maintainer (demo_window 30000) 0) in
  (task_phase t, lease_lost t, lease_lost (poll demo_maintainer (demo_wakeup 40000 None) t)) = (Renewing, false, true).
Proof. vm_compute. reflexivity. Qed.

Lemma demo_in_flight : in_flight demo_maintainer (demo_window 30000) 0 (take 3 demo_wakeups).
Proof.
  intros ys y zs E Hy. destruct ys as [|y1 [|y2 [|y3 ys]]]; simpl in E; simplify_eq; try by destruct Hy.
  - vm_compute. by left.
  - by destruct ys.
Qed.

Lemma maintenance_self_fences_witness :
  ∃ c, last (demo_window 30000 :: answers (take 3 demo_wakeups)) = Some c ∧ 39999 < local_deadline c ∧
    local_deadline c ≤ expires_at_ms (confirmed_lease c).
Proof.
  apply (maintenance_self_fences demo_maintainer) with (start := 0) (x := demo_wakeup 39999 None).
  - intros req w. apply wp_bind, wp_now; [|by intros e w' Hw; split].
    intros w' Hw. split; [done|]. intros l [= <-]. simpl. unfold time_passes in Hw. lia.
  - vm_compute. repeat constructor; discriminate.
  - repeat constructor.
  - exact demo_in_flight.
  - vm_compute. reflexivity.
Defined.
