(* ===== verification/Alarms.v ===== *)
(** * Alarm stores

    The alarms of [src/src/control_plane/alarms.rs]: what a store promises
    ([AlarmStore] and its laws), the in-memory store, and the PostgreSQL store as
    operations on a table of rows. A claim is taken over by a later poll only when
    it has expired; a finished delivery clears an alarm only if the actor has not
    set it again meanwhile (its revision tells). *)

From stdpp Require Import sorting.
From S2P Require Import Prelude Text Names Btree LifecycleStore.
Local Open Scope N_scope.

(** ** Data *)

Record ClaimedAlarm := {
  alarm_actor : ActorKey;
  alarm_revision : N;
}.

#[global] Instance ClaimedAlarm_eq_dec : EqDecision ClaimedAlarm.
Proof. solve_decision. Defined.

Record MemoryAlarm := {
  al_revision : N;
  al_timestamp_ms : option Z;
  al_queued_at_ms : option Z;
}.

#[global] Instance MemoryAlarm_eq_dec : EqDecision MemoryAlarm.
Proof. solve_decision. Defined.

Definition queued_at (now : Z) (a : MemoryAlarm) : MemoryAlarm :=
  {| al_revision := al_revision a; al_timestamp_ms := al_timestamp_ms a; al_queued_at_ms := Some now |}.

Definition cleared (a : MemoryAlarm) : MemoryAlarm :=
  {| al_revision := al_revision a; al_timestamp_ms := None; al_queued_at_ms := None |}.

(** The time of an alarm that is due and not claimed, or whose claim expired. *)
Definition due_at (now expired_before : Z) (a : MemoryAlarm) : option Z :=
  match al_timestamp_ms a with
  | Some t =>
      if (t <=? now)%Z && from_option (λ q, (q <=? expired_before)%Z) true (al_queued_at_ms a)
      then Some t else None
  | None => None
  end.

(** ** What a store promises *)

(** [order] is the order in which the rows are visited: that of the hash map, or
    of the scan of a table, which skips rows locked by other transactions. *)
Class AlarmStore (St : Type) := {
  store_get : ActorKey → St → result (option Z);
  store_update : ActorKey → option Z → St → result unit * St;
  store_claim_due : Z → Z → N → list ActorKey → St → result (list ClaimedAlarm) * St;
  store_finish : ClaimedAlarm → St → result unit * St;
}.

Definition claim_of (a : ActorKey) (al : MemoryAlarm) : ClaimedAlarm :=
  {| alarm_actor := a; alarm_revision := al_revision al |}.

Class AlarmStoreLaws (St : Type) `{!AlarmStore St} := {
  alarm_of : St → ActorKey → option MemoryAlarm;
  (** Alarms of suspended organizations stay unclaimed. *)
  claimable : St → ActorKey → bool;
  store_ok : St → Prop;
  law_get : ∀ a s, store_ok s → store_get a s = Ok (alarm_of s a ≫= al_timestamp_ms);
  law_update : ∀ a t s r s', store_ok s → store_update a t s = (r, s') →
    store_ok s' ∧ match r with
    | Ok _ =>
        alarm_of s' a = Some {| al_revision := from_option al_revision 0 (alarm_of s a) + 1;
                                al_timestamp_ms := t; al_queued_at_ms := None |} ∧
        ∀ a', a' ≠ a → alarm_of s' a' = alarm_of s a'
    | Err _ => s' = s
    end;
  (** Only due alarms are claimed, the earliest first; an alarm that is passed
      over although it is due was passed over for a full batch of earlier ones. *)
  law_claim : ∀ now exp limit order s r s', store_ok s → NoDup order → (Z.of_N limit ≤ i64_max)%Z →
    store_claim_due now exp limit order s = (r, s') →
    store_ok s' ∧ ∃ cs, r = Ok cs ∧ len cs ≤ limit ∧ NoDup (alarm_actor <$> cs) ∧
    (∀ c, c ∈ cs → ∃ al t, alarm_of s (alarm_actor c) = Some al ∧ c = claim_of (alarm_actor c) al ∧
       due_at now exp al = Some t ∧ alarm_of s' (alarm_actor c) = Some (queued_at now al)) ∧
    (∀ a, a ∉ alarm_actor <$> cs → alarm_of s' a = alarm_of s a) ∧
    (∀ a al t, a ∈ order → claimable s a = true → alarm_of s a = Some al → due_at now exp al = Some t →
       a ∈ alarm_actor <$> cs ∨
       (len cs = limit ∧ ∀ c, c ∈ cs → ∃ al' t',
          alarm_of s (alarm_actor c) = Some al' ∧ due_at now exp al' = Some t' ∧ (t' ≤ t)%Z));
  law_finish : ∀ c s r s', store_ok s → store_finish c s = (r, s') →
    store_ok s' ∧
    match alarm_of s (alarm_actor c) with
    | Some al =>
        if al_revision al =? alarm_revision c then
          r = Ok () ∧ alarm_of s' (alarm_actor c) = Some (cleared al) ∧
          ∀ a, a ≠ alarm_actor c → alarm_of s' a = alarm_of s a
        else ∀ a, alarm_of s' a = alarm_of s a
    | None => ∀ a, alarm_of s' a = alarm_of s a
    end;
}.
Arguments claimable {_ _ _} _ _.
Arguments alarm_of {_ _ _} _ _.
Arguments store_ok {_ _ _} _.

(** ** The in-memory store *)

Abbreviation MemoryAlarmStore := (gmap ActorKey MemoryAlarm).

Definition memory_get (a : ActorKey) (m : MemoryAlarmStore) : result (option Z) :=
  Ok (m !! a ≫= al_timestamp_ms).

Definition memory_update (a : ActorKey) (t : option Z) (m : MemoryAlarmStore) : result unit * MemoryAlarmStore :=
  let revision :=
    match m !! a with
    | Some al => ctx (checked_add (al_revision al) 1) "alarm revision overflow"
    | None => Ok 1
    end in
  match revision with
  | Err e => (Err e, m)
  | Ok r => (Ok (), <[a := {| al_revision := r; al_timestamp_ms := t; al_queued_at_ms := None |}]> m)
  end.

Definition by_time (x y : Z * ActorKey) : bool := (fst x <=? fst y)%Z.

Definition memory_due (now exp : Z) (m : MemoryAlarmStore) (order : list ActorKey) : list (Z * ActorKey) :=
  omap (λ a, al ← m !! a; t ← due_at now exp al; Some (t, a)) order.

(** The closure that marks the selected alarms; a selected alarm that is not there
    would be a panic. *)
Fixpoint memory_mark (now : Z) (chosen : list (Z * ActorKey)) (m : MemoryAlarmStore)
    : result (list ClaimedAlarm) * MemoryAlarmStore :=
  match chosen with
  | [] => (Ok [], m)
  | (_, a) :: chosen =>
      match m !! a with
      | Some al =>
          let '(r, m) := memory_mark now chosen (<[a := queued_at now al]> m) in
          (cs ← r; Ok (claim_of a al :: cs), m)
      | None => (Err "selected alarm disappeared", m)
      end
  end.

Definition memory_claim_due (now exp : Z) (limit : N) (order : list ActorKey) (m : MemoryAlarmStore)
    : result (list ClaimedAlarm) * MemoryAlarmStore :=
  memory_mark now (takeN limit (sort_by by_time (memory_due now exp m order))) m.

Definition memory_finish (c : ClaimedAlarm) (m : MemoryAlarmStore) : result unit * MemoryAlarmStore :=
  (Ok (), match m !! alarm_actor c with
          | Some al => if al_revision al =? alarm_revision c then <[alarm_actor c := cleared al]> m else m
          | None => m
          end).

#[export] Instance memory_alarm_store : AlarmStore MemoryAlarmStore := {
  store_get := memory_get;
  store_update := memory_update;
  store_claim_due := memory_claim_due;
  store_finish := memory_finish;
}.

(** ** The PostgreSQL store *)

(** A row of [durable_actors_alarm]; [revision] is a [BIGINT]. *)
Record alarm_row := {
  row_actor : ActorKey;
  row_revision : Z;
  row_timestamp_ms : option Z;
  row_queued_at_ms : option Z;
}.

(** The table, whose primary key is the actor, and the projects of suspended
    organizations. *)
Record PostgresAlarmStore := {
  alarm_rows : list alarm_row;
  suspended : bytes → bool;
}.

Definition row_of (a : ActorKey) (r : alarm_row) : bool := row_actor r == a.

Definition with_rows (rows : list alarm_row) (s : PostgresAlarmStore) : PostgresAlarmStore :=
  {| alarm_rows := rows; suspended := suspended s |}.

Definition postgres_get (a : ActorKey) (s : PostgresAlarmStore) : result (option Z) :=
  Ok (List.find (row_of a) (alarm_rows s) ≫= row_timestamp_ms).

(** [INSERT ... ON CONFLICT DO UPDATE]; the statement fails when the revision
    leaves the range of [BIGINT]. *)
Definition postgres_update (a : ActorKey) (t : option Z) (s : PostgresAlarmStore) : result unit * PostgresAlarmStore :=
  match List.find (row_of a) (alarm_rows s) with
  | None =>
      (Ok (), with_rows (alarm_rows s ++
         [{| row_actor := a; row_revision := 1; row_timestamp_ms := t; row_queued_at_ms := None |}]) s)
  | Some r =>
      match checked_add_i64 (row_revision r) 1 with
      | None => (Err "bigint out of range", s)
      | Some v =>
          (Ok (), with_rows ((λ r, if row_of a r then
             {| row_actor := a; row_revision := v; row_timestamp_ms := t; row_queued_at_ms := None |} else r)
             <$> alarm_rows s) s)
      end
  end.

(** The common table expression [due]: [WHERE], [ORDER BY], [LIMIT]. *)
Definition row_due (now exp : Z) (s : PostgresAlarmStore) (r : alarm_row) : option (Z * ActorKey) :=
  match row_timestamp_ms r with
  | Some t =>
      if (t <=? now)%Z && from_option (λ q, (q <=? exp)%Z) true (row_queued_at_ms r) &&
         negb (suspended s (project_id (row_actor r)))
      then Some (t, row_actor r) else None
  | None => None
  end.

Definition rows_due (now exp : Z) (order : list ActorKey) (s : PostgresAlarmStore) : list (Z * ActorKey) :=
  omap (λ a, List.find (row_of a) (alarm_rows s) ≫= row_due now exp s) order.

Definition postgres_due (now exp : Z) (limit : N) (order : list ActorKey) (s : PostgresAlarmStore)
    : list (Z * ActorKey) :=
  takeN limit (sort_by by_time (rows_due now exp order s)).

Definition row_queued (now : Z) (r : alarm_row) : alarm_row :=
  {| row_actor := row_actor r; row_revision := row_revision r; row_timestamp_ms := row_timestamp_ms r;
     row_queued_at_ms := Some now |}.

Definition row_claim (r : alarm_row) : result ClaimedAlarm :=
  v ← ctx (if (row_revision r <? 0)%Z then None else Some (Z.to_N (row_revision r))) "negative alarm revision";
  Ok {| alarm_actor := row_actor r; alarm_revision := v |}.

Definition postgres_claim_due (now exp : Z) (limit : N) (order : list ActorKey) (s : PostgresAlarmStore)
    : result (list ClaimedAlarm) * PostgresAlarmStore :=
  if (i64_max <? Z.of_N limit)%Z then (Err "alarm batch size overflow", s)
  else
    let chosen := snd <$> postgres_due now exp limit order s in
    let hit r := bool_decide (row_actor r ∈ chosen) in
    (mapR row_claim (List.filter hit (alarm_rows s)),
     with_rows ((λ r, if hit r then row_queued now r else r) <$> alarm_rows s) s).

Definition postgres_finish (c : ClaimedAlarm) (s : PostgresAlarmStore) : result unit * PostgresAlarmStore :=
  if (i64_max <? Z.of_N (alarm_revision c))%Z then (Err "alarm revision overflow", s)
  else
    (Ok (), with_rows ((λ r, if row_of (alarm_actor c) r && (row_revision r =? Z.of_N (alarm_revision c))%Z then
        {| row_actor := row_actor r; row_revision := row_revision r; row_timestamp_ms := None;
           row_queued_at_ms := None |} else r) <$> alarm_rows s) s).

#[export] Instance postgres_alarm_store : AlarmStore PostgresAlarmStore := {
  store_get := postgres_get;
  store_update := postgres_update;
  store_claim_due := postgres_claim_due;
  store_finish := postgres_finish;
}.

(** ** Choosing what is due first *)

Lemma by_time_total x y : by_time x y = true ∨ by_time y x = true.
Proof. unfold by_time. rewrite !Z.leb_le. lia. Qed.

Lemma by_time_trans x y z : by_time x y = true → by_time y z = true → by_time x z = true.
Proof. unfold by_time. rewrite !Z.leb_le. lia. Qed.

Section choice.
Context (limit : N) (found : list (Z * ActorKey)).
Definition chosen : list (Z * ActorKey) := takeN limit (sort_by by_time found).

Lemma chosen_found x : x ∈ chosen → x ∈ found.
Proof. intros Hx. apply (elem_of_sort_by by_time). by apply subseteq_take in Hx. Qed.

Lemma chosen_length : len chosen ≤ limit.
Proof. unfold chosen. rewrite len_takeN. lia. Qed.

Lemma chosen_NoDup : NoDup found.*2 → NoDup chosen.*2.
Proof.
  intros Hf. unfold chosen, takeN. rewrite fmap_take. eapply sublist_NoDup; [|apply sublist_take].
  by rewrite sort_by_perm.
Qed.

Lemma passed_over x : x ∈ found → x ∈ chosen ∨ (len chosen = limit ∧ ∀ y, y ∈ chosen → (fst y ≤ fst x)%Z).
Proof.
  intros Hx. apply (elem_of_sort_by by_time) in Hx. unfold chosen.
  assert (StronglySorted (leP by_time) (sort_by by_time found)) as Hs
    by (apply sort_by_sorted; [apply by_time_total|apply by_time_trans]).
  revert Hx Hs. rewrite <- (takeN_dropN limit (sort_by by_time found)) at 1 2.
  intros [Hx|Hx]%elem_of_app Hs; [by left|]. right. split.
  - rewrite len_takeN. destruct (N.le_gt_cases limit (len (sort_by by_time found))); [lia|].
    rewrite dropN_all in Hx by lia. by apply elem_of_nil in Hx.
  - intros y Hy. apply Z.leb_le. by apply (StronglySorted_app_1_elem_of (leP by_time) _ _ _ _ Hs).
Qed.
End choice.

(** ** The in-memory store keeps its promises *)

Lemma memory_due_elem now exp m order t a :
  (t, a) ∈ memory_due now exp m order ↔ a ∈ order ∧ ∃ al, m !! a = Some al ∧ due_at now exp al = Some t.
Proof.
  unfold memory_due. rewrite list_elem_of_omap. split.
  - intros (k & Hk & E). destruct (m !! k) as [al|] eqn:Ea; simplify_eq/=.
    destruct (due_at now exp al) eqn:Ed; simplify_eq/=. eauto.
  - intros (Ho & al & Ea & Ed). exists a. split; [done|]. by rewrite Ea; simpl; rewrite Ed.
Qed.

Lemma memory_due_NoDup now exp m order : NoDup order → NoDup (memory_due now exp m order).*2.
Proof.
  induction 1 as [|a order Ha _ IH]; simpl; [constructor|].
  destruct (m !! a) as [al|]; simpl; [|done]. destruct (due_at now exp al) as [t|]; simpl; [|done].
  constructor; [|done]. intros ([t' k] & -> & Hk)%list_elem_of_fmap. simpl in *.
  apply Ha. by apply memory_due_elem in Hk as [Hk _].
Qed.

Lemma memory_mark_spec now ch m :
  NoDup ch.*2 → (∀ x, x ∈ ch → is_Some (m !! snd x)) →
  ∃ cs m', memory_mark now ch m = (Ok cs, m') ∧ alarm_actor <$> cs = ch.*2 ∧
    (∀ c, c ∈ cs → ∃ al, m !! alarm_actor c = Some al ∧ c = claim_of (alarm_actor c) al ∧
       m' !! alarm_actor c = Some (queued_at now al)) ∧
    (∀ a, a ∉ ch.*2 → m' !! a = m !! a).
Proof.
  revert m. induction ch as [|[t a] ch IH]; intros m Hn Hm; simpl.
  { exists [], m. split_and!; try done. by intros c ?%elem_of_nil. }
  rewrite fmap_cons in Hn. apply NoDup_cons in Hn as [Ha Hn]. cbn [snd] in Ha.
  destruct (Hm (t, a)) as [al Ea]; [by left|]. simpl in Ea. rewrite Ea.
  destruct (IH (<[a := queued_at now al]> m) Hn) as (cs & m' & -> & Hcs & Hc & Ho).
  { intros x Hx. rewrite lookup_insert_ne; [by apply Hm; right|]. intros ->. apply Ha. by apply list_elem_of_fmap_2. }
  exists (claim_of a al :: cs), m'. split_and!; [done|by rewrite fmap_cons, Hcs| |].
  - intros c [-> |Hin]%elem_of_cons.
    + exists al. simpl. rewrite Ho by done. by rewrite lookup_insert_eq.
    + destruct (Hc c Hin) as (al' & El & Hal). exists al'. rewrite lookup_insert_ne in El; [done|].
      intros ->. apply Ha. rewrite <- Hcs. by apply list_elem_of_fmap_2.
  - intros k [Hk Hk']%not_elem_of_cons. rewrite Ho by done. by rewrite lookup_insert_ne.
Qed.

#[export] Program Instance memory_alarm_laws : AlarmStoreLaws MemoryAlarmStore := {
  alarm_of m a := m !! a;
  claimable _ _ := true;
  store_ok _ := True;
}.
Next Obligation. done. Qed.
Next Obligation.
  intros a t m r m' _. simpl. unfold memory_update. intros E. split; [done|].
  destruct (m !! a) as [al|]; simpl in E.
  - destruct (checked_add (al_revision al) 1) eqn:Ec; simplify_eq/=; [|done].
    apply checked_add_Some in Ec as [<- _]. rewrite lookup_insert_eq. split; [done|].
    intros a' Hne. by rewrite lookup_insert_ne.
  - simplify_eq/=. rewrite lookup_insert_eq. split; [done|]. intros a' Hne. by rewrite lookup_insert_ne.
Qed.
Next Obligation.
  intros now exp limit order m r m' _ Ho _. simpl. unfold memory_claim_due. intros E. split; [done|].
  set (found := memory_due now exp m order) in *. change (takeN _ _) with (chosen limit found) in E.
  destruct (memory_mark_spec now (chosen limit found) m) as (cs & m'' & E' & Hcs & Hc & Hrest).
  { by apply chosen_NoDup, memory_due_NoDup. }
  { intros [t a] [_ (al & Ea & _)]%chosen_found%memory_due_elem. simpl. by exists al. }
  rewrite E' in E. injection E as <- <-. exists cs.
  assert (len cs = len (chosen limit found)) as Hlen.
  { unfold len. f_equal. rewrite <- (length_fmap alarm_actor), Hcs. apply length_fmap. }
  assert (∀ c, c ∈ cs → ∃ t, (t, alarm_actor c) ∈ chosen limit found) as Hin.
  { intros c Hc'. apply (list_elem_of_fmap_2 alarm_actor) in Hc'. rewrite Hcs in Hc'.
    apply list_elem_of_fmap in Hc' as ([t a] & -> & Hx). by exists t. }
  split_and!; [done|rewrite Hlen; apply chosen_length|rewrite Hcs; by apply chosen_NoDup, memory_due_NoDup| | |].
  - intros c Hc'. destruct (Hin c Hc') as [t Ht%chosen_found]. apply memory_due_elem in Ht as (_ & al & Ea & Ed).
    destruct (Hc c Hc') as (al' & Ea' & Ec & Eq). exists al', t. rewrite Ea' in Ea. by simplify_eq.
  - intros a Ha. rewrite Hcs in Ha. by apply Hrest.
  - intros a al t Hord _ Ea Ed. destruct (passed_over limit found (t, a)) as [Hx|[Hfull Hle]].
    { by apply memory_due_elem; eauto. }
    { left. rewrite Hcs. by apply (list_elem_of_fmap_2 snd) in Hx. }
    right. split; [by rewrite Hlen|]. intros c Hc'. destruct (Hin c Hc') as [t' Ht].
    specialize (Hle _ Ht). apply chosen_found, memory_due_elem in Ht as (_ & al' & Ea' & Ed'). eauto.
Qed.
Next Obligation.
  intros c m r m' _. simpl. unfold memory_finish. intros E. injection E as <- <-. split; [done|].
  destruct (m !! alarm_actor c) as [al|]; [|done]. destruct (al_revision al =? alarm_revision c); [|done].
  rewrite lookup_insert_eq. split_and!; [done..|]. intros a Ha. by rewrite lookup_insert_ne.
Qed.

(** ** The PostgreSQL store keeps its promises *)

Definition row_alarm (r : alarm_row) : MemoryAlarm :=
  {| al_revision := Z.to_N (row_revision r); al_timestamp_ms := row_timestamp_ms r;
     al_queued_at_ms := row_queued_at_ms r |}.

(** The primary key is unique and revisions are positive [BIGINT]s. *)
Record table_ok (s : PostgresAlarmStore) : Prop := {
  rows_unique : NoDup (row_actor <$> alarm_rows s);
  rows_revision : Forall (λ r, 1 ≤ row_revision r ≤ i64_max)%Z (alarm_rows s);
}.

Lemma find_row a rows r : List.find (row_of a) rows = Some r → r ∈ rows ∧ row_actor r = a.
Proof.
  intros [Hin E]%find_some. split; [by apply list_elem_of_In|]. by apply bool_decide_eq_true in E.
Qed.

Lemma find_row_elem rows r :
  NoDup (row_actor <$> rows) → r ∈ rows → List.find (row_of (row_actor r)) rows = Some r.
Proof.
  induction rows as [|x rows IH]; intros Hn Hr; [by apply elem_of_nil in Hr|].
  rewrite fmap_cons in Hn. apply NoDup_cons in Hn as [Hx Hn]. simpl. unfold row_of at 1.
  destruct (decide (row_actor x = row_actor r)) as [E|E].
  - rewrite (bool_decide_eq_true_2 _ E). apply elem_of_cons in Hr as [-> |Hr]; [done|].
    destruct Hx. rewrite E. by apply list_elem_of_fmap_2.
  - rewrite (bool_decide_eq_false_2 _ E). apply elem_of_cons in Hr as [-> |Hr]; [done|]. by apply IH.
Qed.

Lemma find_row_none a rows : List.find (row_of a) rows = None → a ∉ row_actor <$> rows.
Proof.
  intros E (r & -> & Hr)%list_elem_of_fmap. eapply find_none in E; [|by apply list_elem_of_In].
  by apply bool_decide_eq_false in E.
Qed.

Lemma find_row_snoc a rows x :
  List.find (row_of a) (rows ++ [x]) =
  match List.find (row_of a) rows with Some r => Some r | None => if row_of a x then Some x else None end.
Proof. induction rows as [|r rows IH]; simpl; [done|]. by destruct (row_of a r). Qed.

Section map_rows.
Context (f : alarm_row → alarm_row) (Hf : ∀ r, row_actor (f r) = row_actor r).

Lemma map_rows_actors (rows : list alarm_row) : row_actor <$> (f <$> rows) = row_actor <$> rows.
Proof. rewrite <- list_fmap_compose. apply list_fmap_ext. intros i r _. apply Hf. Qed.

Lemma find_map_rows a rows : List.find (row_of a) (f <$> rows) = f <$> List.find (row_of a) rows.
Proof.
  induction rows as [|r rows IH]; simpl; [done|]. unfold row_of at 1 3. rewrite Hf. by case_match.
Qed.

Lemma map_rows_ok s :
  table_ok s → (∀ r, r ∈ alarm_rows s → (1 ≤ row_revision (f r) ≤ i64_max)%Z) →
  table_ok (with_rows (f <$> alarm_rows s) s).
Proof.
  intros [Hn Hr] H. split; simpl; [by rewrite map_rows_actors|]. rewrite Forall_fmap, Forall_forall.
  exact H.
Qed.
End map_rows.

Lemma revision_range s r : table_ok s → r ∈ alarm_rows s → (1 ≤ row_revision r ≤ i64_max)%Z.
Proof. intros [_ H]. by rewrite Forall_forall in H; apply H. Qed.
#[local] Hint Resolve revision_range : core.

Lemma postgres_update_law a t s r s' :
  table_ok s → postgres_update a t s = (r, s') →
  table_ok s' ∧
  let get s a := row_alarm <$> List.find (row_of a) (alarm_rows s) in
  match r with
  | Ok _ =>
      get s' a = Some {| al_revision := from_option al_revision 0 (get s a) + 1;
                         al_timestamp_ms := t; al_queued_at_ms := None |} ∧
      ∀ a', a' ≠ a → get s' a' = get s a'
  | Err _ => s' = s
  end.
Proof.
  intros Hs. unfold postgres_update. destruct (List.find (row_of a) (alarm_rows s)) as [x|] eqn:Ex; simpl.
  - destruct (checked_add_i64 (row_revision x) 1) as [v|] eqn:Ev; intros E; injection E as <- <-; [|done].
    apply find_row in Ex as [Hx Hxa]. pose proof (revision_range _ _ Hs Hx) as Hr.
    unfold checked_add_i64 in Ev. case_match eqn:Hle; [|done]. injection Ev as <-.
    set (f := λ r, if row_of a r then _ else r).
    assert (∀ r, row_actor (f r) = row_actor r) as Hf.
    { intros y. unfold f, row_of. case_bool_decide; by subst. }
    split; [apply map_rows_ok; [done..|]|].
    { intros y Hy. unfold f. destruct (row_of a y); simpl; [|by eauto].
      split; [lia|]. revert Hle. rewrite ?andb_true_iff, ?Z.leb_le. lia. }
    split.
    + cbn [alarm_rows with_rows]; rewrite (find_map_rows f) by done. rewrite <- Hxa, find_row_elem by (done || apply Hs). simpl.
      unfold f, row_of at 1. rewrite bool_decide_eq_true_2 by done. simpl. unfold row_alarm. simpl.
      repeat f_equal. lia.
    + intros a' Hne. cbn [alarm_rows with_rows]; rewrite (find_map_rows f) by done. destruct (List.find (row_of a') _) as [y|] eqn:Ey; [|done].
      apply find_row in Ey as [_ <-]. simpl. unfold f, row_of. by rewrite bool_decide_eq_false_2.
  - intros E. injection E as <- <-. apply find_row_none in Ex as Hx. split.
    { destruct Hs as [Hn Hr]. split; simpl.
      - rewrite fmap_app. apply NoDup_app. split_and!; [done| |apply NoDup_singleton].
        intros y Hy ->%list_elem_of_singleton. done.
      - apply Forall_app. split; [done|]. apply Forall_singleton. simpl. unfold i64_max. lia. }
    split; [|intros a' Hne]; cbn [alarm_rows with_rows]; rewrite find_row_snoc.
    + rewrite Ex. unfold row_of. by rewrite bool_decide_eq_true_2.
    + destruct (List.find (row_of a') _); [done|]. unfold row_of. by rewrite bool_decide_eq_false_2.
Qed.

(** The rows [due] visits. *)
Lemma row_found_elem now exp s order t a :
  (t, a) ∈ rows_due now exp order s ↔
  a ∈ order ∧ suspended s (project_id a) = false ∧
  ∃ r, List.find (row_of a) (alarm_rows s) = Some r ∧ due_at now exp (row_alarm r) = Some t.
Proof.
  unfold rows_due. rewrite list_elem_of_omap. unfold row_due, due_at. split.
  - intros (k & Hk & E). destruct (List.find (row_of k) (alarm_rows s)) as [r|] eqn:Er; simplify_eq/=.
    apply find_row in Er as Hr. destruct Hr as [_ Hr].
    destruct (row_timestamp_ms r) as [u|] eqn:Et; [|done]. case_match eqn:Hc; [|done]. simplify_eq.
    apply andb_true_iff in Hc as [Hc Hs]. apply negb_true_iff in Hs. split_and!; [done..|].
    exists r. rewrite Er. split; [done|]. simpl. by rewrite Et, Hc.
  - intros (Ho & Hs & r & Er & Ed). exists a. split; [done|]. rewrite Er. simpl in *.
    apply find_row in Er as [_ <-]. destruct (row_timestamp_ms r); [|done]. rewrite Hs.
    case_match; simplify_eq. done.
Qed.

Lemma row_found_NoDup now exp s order :
  NoDup order → NoDup (rows_due now exp order s).*2.
Proof.
  induction 1 as [|a order Ha _ IH]; [constructor|]. unfold rows_due in *. cbn [omap list_omap].
  destruct (List.find (row_of a) (alarm_rows s) ≫= row_due now exp s) as [[t k]|] eqn:E; [|done].
  assert ((t, k) ∈ omap (λ a, List.find (row_of a) (alarm_rows s) ≫= row_due now exp s) [a]) as Hk
    by (simpl; rewrite E; by left). change (omap _ [a]) with (rows_due now exp [a] s) in Hk.
  apply row_found_elem in Hk as [->%list_elem_of_singleton _]. rewrite fmap_cons. constructor; [|done].
  intros ([t' k'] & E' & Hk)%list_elem_of_fmap. simpl in E'. subst k'.
  change (omap _ order) with (rows_due now exp order s) in Hk. by apply row_found_elem in Hk as [Hk _].
Qed.

Lemma mapR_row_claim rows :
  Forall (λ r, 1 ≤ row_revision r ≤ i64_max)%Z rows →
  mapR row_claim rows = Ok ((λ r, claim_of (row_actor r) (row_alarm r)) <$> rows).
Proof.
  induction 1 as [|r rows Hr _ IH]; [done|]. cbn [mapR]. rewrite IH. unfold row_claim.
  by rewrite (proj2 (Z.ltb_ge (row_revision r) 0)) by lia.
Qed.

Section postgres_claim.
Context (now exp : Z) (limit : N) (order : list ActorKey) (s : PostgresAlarmStore).
Context (Hs : table_ok s) (Ho : NoDup order).

Abbreviation found := (rows_due now exp order s).
Abbreviation hit := (λ r, bool_decide (row_actor r ∈ (chosen limit found).*2)).
Abbreviation claimed := (List.filter hit (alarm_rows s)).

Lemma claimed_elem r : r ∈ claimed ↔ r ∈ alarm_rows s ∧ row_actor r ∈ (chosen limit found).*2.
Proof. rewrite list_elem_of_In, filter_In, <- list_elem_of_In. by rewrite bool_decide_eq_true. Qed.

Lemma claimed_actors : row_actor <$> claimed ≡ₚ (chosen limit found).*2.
Proof.
  apply NoDup_Permutation; [|by apply chosen_NoDup, row_found_NoDup|].
  - eapply sublist_NoDup; [apply Hs|].
    generalize (alarm_rows s). induction l as [|r rows IH]; simpl; [done|]. case_match; by constructor.
  - intros a. rewrite list_elem_of_fmap. setoid_rewrite claimed_elem. split; [by intros (r & -> & _ & H)|].
    intros Ha. pose proof Ha as ([t k] & -> & Hx)%list_elem_of_fmap.
    apply chosen_found, row_found_elem in Hx as (_ & _ & r & Hr & _). apply find_row in Hr as [Hr E].
    exists r. simpl in *. by rewrite E.
Qed.

Lemma claimed_due r : r ∈ claimed → ∃ t, (t, row_actor r) ∈ chosen limit found ∧
  due_at now exp (row_alarm r) = Some t.
Proof.
  intros [Hr ([t k] & E & Hx)%list_elem_of_fmap]%claimed_elem. simpl in E. subst k. exists t. split; [done|].
  apply chosen_found, row_found_elem in Hx as (_ & _ & r' & Hr' & Ed).
  rewrite find_row_elem in Hr' by (done || apply Hs). by simplify_eq.
Qed.

Lemma claimed_length : len claimed = len (chosen limit found).
Proof.
  unfold len. f_equal. rewrite <- (length_fmap row_actor), claimed_actors. apply length_fmap.
Qed.
End postgres_claim.

#[export] Program Instance postgres_alarm_laws : AlarmStoreLaws PostgresAlarmStore := {
  alarm_of s a := row_alarm <$> List.find (row_of a) (alarm_rows s);
  claimable s a := negb (suspended s (project_id a));
  store_ok := table_ok;
}.
Next Obligation. intros a s _. simpl. unfold postgres_get. by destruct (List.find _ _). Qed.
Next Obligation. intros a t s r s' Hs E. exact (postgres_update_law a t s r s' Hs E). Qed.
Next Obligation.
  intros now exp limit order s r s' Hs Ho Hl. simpl. unfold postgres_claim_due.
  rewrite (proj2 (Z.ltb_ge i64_max (Z.of_N limit))) by lia. intros E. injection E as <- <-.
  change (postgres_due now exp limit order s) with (chosen limit (rows_due now exp order s)).
  set (hit := λ r, bool_decide _). set (f := λ r, if hit r then row_queued now r else r).
  assert (∀ r, row_actor (f r) = row_actor r) as Hf by (intros r; unfold f; by case_match).
  split. { apply map_rows_ok; [done..|]. intros r Hr. unfold f. case_match; simpl; eauto. }
  rewrite mapR_row_claim by (destruct Hs as [_ Hr]; apply Forall_forall; intros r Hin;
    apply claimed_elem in Hin as [Hin _]; by rewrite Forall_forall in Hr; apply Hr).
  eexists. split; [done|].
  assert (alarm_actor <$> ((λ r, claim_of (row_actor r) (row_alarm r)) <$> List.filter hit (alarm_rows s)) =
    row_actor <$> List.filter hit (alarm_rows s)) as Hact by by rewrite <- list_fmap_compose.
  assert (∀ c, c ∈ (λ r, claim_of (row_actor r) (row_alarm r)) <$> List.filter hit (alarm_rows s) →
    ∃ r t, c = claim_of (row_actor r) (row_alarm r) ∧ r ∈ List.filter hit (alarm_rows s) ∧
      (t, row_actor r) ∈ chosen limit (rows_due now exp order s) ∧ due_at now exp (row_alarm r) = Some t ∧
      List.find (row_of (row_actor r)) (alarm_rows s) = Some r) as Hc.
  { intros c (r & -> & Hr)%list_elem_of_fmap. destruct (claimed_due _ _ _ _ _ Hs r Hr) as (t & Ht & Ed).
    exists r, t. split_and!; [done..|]. apply claimed_elem in Hr as [Hr _]. apply find_row_elem; [apply Hs|done]. }
  assert (len (row_actor <$> List.filter hit (alarm_rows s)) = len (chosen limit (rows_due now exp order s))) as Hlen
    by (etrans; [|exact (claimed_length now exp limit order s Hs Ho)]; unfold len; by rewrite length_fmap).
  assert (row_actor <$> List.filter hit (alarm_rows s) ≡ₚ (chosen limit (rows_due now exp order s)).*2) as Hperm
    by exact (claimed_actors now exp limit order s Hs Ho).
  rewrite <- Hact in Hlen. unfold len in Hlen at 1. rewrite length_fmap in Hlen. fold (len (A:=ClaimedAlarm)) in Hlen.
  rewrite Hact. split_and!.
  - etrans; [|apply chosen_length]. apply N.eq_le_incl. exact Hlen.
  - rewrite Hperm. by apply chosen_NoDup, row_found_NoDup.
  - intros c Hin. destruct (Hc c Hin) as (r & t & -> & Hr & _ & Ed & Ef). exists (row_alarm r), t. simpl.
    rewrite find_map_rows, Ef by done. split_and!; [done..|]. simpl. unfold f, hit.
    apply claimed_elem in Hr as [_ Hr]. by rewrite bool_decide_eq_true_2.
  - intros a Ha. rewrite Hperm in Ha. simpl. rewrite find_map_rows by done.
    destruct (List.find (row_of a) (alarm_rows s)) as [r|] eqn:Ef; [|done]. apply find_row in Ef as [_ <-].
    simpl. unfold f, hit. by rewrite bool_decide_eq_false_2.
  - intros a al t Hord Hsus Ea Ed. apply negb_true_iff in Hsus.
    destruct (List.find (row_of a) (alarm_rows s)) as [r|] eqn:Ef; simplify_eq/=.
    destruct (passed_over limit (rows_due now exp order s) (t, a)) as [Hx|[Hfull Hle]].
    { apply row_found_elem. eauto. }
    { left. rewrite Hperm. by apply (list_elem_of_fmap_2 snd) in Hx. }
    right. split; [by rewrite <- Hfull|].
    intros c Hin. destruct (Hc c Hin) as (r' & t' & -> & _ & Ht & Ed' & Ef'). exists (row_alarm r'), t'.
    simpl. rewrite Ef'. split_and!; [done..|]. by apply (Hle _ Ht).
Qed.
Next Obligation.
  intros c s r s' Hs. simpl. unfold postgres_finish. intros E.
  destruct (i64_max <? Z.of_N (alarm_revision c))%Z eqn:Hbig.
  - injection E as <- <-. split; [done|]. destruct (List.find _ _) as [x|] eqn:Ef; [|done]. simpl.
    apply find_row in Ef as [Hx _]. apply (revision_range _ _ Hs) in Hx.
    destruct (Z.to_N (row_revision x) =? alarm_revision c) eqn:Er; [|done].
    apply N.eqb_eq in Er. apply Z.ltb_lt in Hbig. lia.
  - injection E as <- <-.
    set (f := λ r : alarm_row, if row_of (alarm_actor c) r && _ then _ else r).
    assert (∀ r, row_actor (f r) = row_actor r) as Hf by (intros r; unfold f; by case_match).
    split. { apply map_rows_ok; [done..|]. intros r Hr. unfold f. case_match; simpl; eauto. }
    assert (∀ a, a ≠ alarm_actor c → row_alarm <$> List.find (row_of a) (f <$> alarm_rows s) =
      row_alarm <$> List.find (row_of a) (alarm_rows s)) as Hother.
    { intros a Ha. rewrite find_map_rows by done. destruct (List.find (row_of a) _) as [y|] eqn:Ey; [|done].
      apply find_row in Ey as [_ <-]. simpl. unfold f, row_of. by rewrite bool_decide_eq_false_2. }
    cbn [alarm_rows with_rows]. destruct (List.find (row_of (alarm_actor c)) (alarm_rows s)) as [x|] eqn:Ef; simpl.
    + pose proof Ef as [Hx Hxa]%find_row. pose proof (revision_range _ _ Hs Hx) as Hr.
      destruct (N.eqb_spec (Z.to_N (row_revision x)) (alarm_revision c)) as [Er|Er].
      * split_and!; [done| |exact Hother]. rewrite find_map_rows, Ef by done. simpl. unfold f, row_of.
        rewrite bool_decide_eq_true_2, (proj2 (Z.eqb_eq _ _)) by (done || lia). done.
      * intros a. destruct (decide (a = alarm_actor c)) as [-> |]; [|by apply Hother].
        rewrite find_map_rows, Ef by done. simpl. unfold f. rewrite (proj2 (Z.eqb_neq _ _)) by lia.
        by rewrite andb_false_r.
    + intros a. destruct (decide (a = alarm_actor c)) as [-> |]; [|by apply Hother].
      by rewrite find_map_rows, Ef by done.
Qed.
