(* ===== verification/AlarmSchedule.v ===== *)
(** * Delivering alarms

    The scheduler of [src/src/control_plane/alarms.rs]: every process of the control
    plane polls the shared store, claims due alarms within its free slots and spawns
    a delivery for each, which retries with exponential backoff and then finishes
    the alarm. Processes may stop at any time and answers of the store may be lost.
    What is proved rests only on the laws of the store. *)

From stdpp Require Import sorting.
From S2P Require Import Prelude Text Names Btree LifecycleStore Alarms.
Local Open Scope N_scope.

Definition MAX_IN_FLIGHT : N := 100.
Definition MAX_ATTEMPTS : nat := 3.
Definition MIN_RETRY_DELAY_MS : N := 1000.
Definition ATTEMPT_TIMEOUT_MS : N := 60000.
Definition QUEUED_TIMEOUT_MS : Z := 300000.

(** ** One delivery *)

(** Why an attempt failed; [AccessDisabled] is told apart by [error.is]. *)
Inductive attempt_error :=
| AccessDisabled
| AttemptFailed (message : string).

(** What the actor does with an attempt: how long it takes and how it ends. *)
Definition behaviour : Type := N * (() + attempt_error).

(** [attempt]: [tokio::time::timeout] around the delivery. *)
Definition attempt_alarm (x : behaviour) : behaviour :=
  if fst x <=? ATTEMPT_TIMEOUT_MS then x
  else (ATTEMPT_TIMEOUT_MS, inr (AttemptFailed "alarm attempt timed out")).

(** The delays [backon] draws: [times] of them, doubling from [min], each with a
    jitter of at most its own length. *)
Definition exponential_with_jitter (min : N) (times : nat) (delays : list N) : Prop :=
  length delays = times ∧ ∀ i d, delays !! i = Some d → min * 2 ^ N.of_nat i ≤ d ≤ 2 * (min * 2 ^ N.of_nat i).

(** [attempt_with_retries]: how long it takes, how many attempts it makes and how
    the last one ends; [try i] is the behaviour of the [i]-th attempt. *)
Fixpoint attempt_with_retries (delays : list N) (try : nat → behaviour) (i : nat) : N * nat * (() + attempt_error) :=
  let '(d, r) := attempt_alarm (try i) in
  match r with
  | inl _ | inr AccessDisabled => (d, 1%nat, r)
  | inr (AttemptFailed _) =>
      match delays with
      | [] => (d, 1%nat, r)
      | wait :: delays =>
          let '(d', n, r') := attempt_with_retries delays try (S i) in (d + wait + d', S n, r')
      end
  end.

(** Whether [deliver] goes on to finish the alarm. *)
Definition finishes (r : () + attempt_error) : bool :=
  match r with inr AccessDisabled => false | _ => true end.

(** ** The processes and their deliveries *)

(** A spawned delivery: the clock reading the claim was made with, when the task
    starts, and what will happen to it. *)
Record delivery := {
  d_process : nat;
  d_alarm : ClaimedAlarm;
  d_claimed_ms : N;
  d_start_ms : N;
  d_delays : list N;
  d_try : nat → behaviour;
}.

Definition d_run (d : delivery) : N * nat * (() + attempt_error) := attempt_with_retries (d_delays d) (d_try d) 0.
Definition d_end_ms (d : delivery) : N := d_start_ms d + fst (fst (d_run d)).
Definition d_attempts (d : delivery) : nat := snd (fst (d_run d)).
Definition d_result (d : delivery) : () + attempt_error := snd (d_run d).

Section schedule.
Context {St : Type} `{!AlarmStore St} `{!AlarmStoreLaws St}.
(** The time from reading the clock for a poll to the start of its deliveries. *)
Context (latency : N).

(** [spawned], [set] and [settled] record what happened: every delivery, what each
    actor asked for last, and the deliveries that came to finish their alarm. *)
Record schedule := {
  time_ms : N;
  alarms : St;
  running : list delivery;
  spawned : list delivery;
  set_to : gmap ActorKey (N * option Z);
  settled : list delivery;
}.

Definition in_flight (p : nat) (s : schedule) : N := len (List.filter (λ d, Nat.eqb (d_process d) p) (running s)).

Definition free_slots (p : nat) (s : schedule) : N := saturating_sub MAX_IN_FLIGHT (in_flight p s).

(** [claim_due]: the clock must fit an [i64]. *)
Definition poll_claim (read : N) (limit : N) (order : list ActorKey) (st : St) : result (list ClaimedAlarm) * St :=
  if limit =? 0 then (Ok [], st)
  else if (i64_max <? Z.of_N read)%Z then (Err "alarm clock overflow", st)
  else store_claim_due (Z.of_N read) (Z.of_N read - QUEUED_TIMEOUT_MS)%Z limit order st.

(** The delivery that [run] spawns for a claim. *)
Definition spawned_for (p : nat) (read now : N) (c : ClaimedAlarm) (d : delivery) : Prop :=
  d_process d = p ∧ d_alarm d = c ∧ d_claimed_ms d = read ∧ now ≤ d_start_ms d ≤ read + latency ∧
  exponential_with_jitter MIN_RETRY_DELAY_MS (MAX_ATTEMPTS - 1) (d_delays d).

Inductive schedule_step : schedule → schedule → Prop :=
| step_time s t :
    time_ms s ≤ t →
    schedule_step s {| time_ms := t; alarms := alarms s; running := running s; spawned := spawned s;
                       set_to := set_to s; settled := settled s |}
(** An actor sets or removes its alarm. *)
| step_set s a t st :
    store_update a t (alarms s) = (Ok (), st) →
    schedule_step s {| time_ms := time_ms s; alarms := st; running := running s; spawned := spawned s;
                       set_to := <[a := (from_option al_revision 0 (alarm_of (alarms s) a) + 1, t)]> (set_to s);
                       settled := settled s |}
(** A turn of the loop of [run]. *)
| step_poll s p read order cs st ds :
    read ≤ time_ms s → NoDup order →
    poll_claim read (free_slots p s) order (alarms s) = (Ok cs, st) →
    Forall2 (spawned_for p read (time_ms s)) cs ds →
    schedule_step s {| time_ms := time_ms s; alarms := st; running := running s ++ ds;
                       spawned := spawned s ++ ds; set_to := set_to s; settled := settled s |}
(** The store made the claims, but the answer was lost. *)
| step_poll_lost s p read order r st :
    read ≤ time_ms s → NoDup order →
    poll_claim read (free_slots p s) order (alarms s) = (r, st) →
    schedule_step s {| time_ms := time_ms s; alarms := st; running := running s; spawned := spawned s;
                       set_to := set_to s; settled := settled s |}
(** A delivery is over; [finish] may fail without effect, or its answer be lost. *)
| step_finish s d before after r st :
    running s = before ++ d :: after → d_end_ms d ≤ time_ms s → finishes (d_result d) = true →
    store_finish (d_alarm d) (alarms s) = (r, st) →
    schedule_step s {| time_ms := time_ms s; alarms := st; running := before ++ after; spawned := spawned s;
                       set_to := set_to s; settled := settled s ++ [d] |}
| step_give_up s d before after :
    running s = before ++ d :: after → d_end_ms d ≤ time_ms s →
    schedule_step s {| time_ms := time_ms s; alarms := alarms s; running := before ++ after;
                       spawned := spawned s; set_to := set_to s; settled := settled s |}
(** A process stops: its deliveries are dropped. *)
| step_stop s p :
    schedule_step s {| time_ms := time_ms s; alarms := alarms s;
                       running := List.filter (λ d, negb (Nat.eqb (d_process d) p)) (running s);
                       spawned := spawned s; set_to := set_to s; settled := settled s |}.

(** A store before any alarm was set. *)
Definition schedule_start (s : schedule) : Prop :=
  store_ok (alarms s) ∧ (∀ a, alarm_of (alarms s) a = None) ∧ running s = [] ∧ spawned s = [] ∧
  set_to s = ∅ ∧ settled s = [].

Definition schedule_reach (s : schedule) : Prop := ∃ s0, schedule_start s0 ∧ rtc schedule_step s0 s.
End schedule.
Arguments schedule : clear implicits.

(** ** How long a delivery takes *)

Definition sum_delays (delays : list N) : N := foldr N.add 0 delays.

Lemma attempt_alarm_bound x : fst (attempt_alarm x) ≤ ATTEMPT_TIMEOUT_MS.
Proof. unfold attempt_alarm. destruct (N.leb_spec (fst x) ATTEMPT_TIMEOUT_MS); simpl; lia. Qed.

Lemma retries_spec delays try i d n r :
  attempt_with_retries delays try i = (d, n, r) →
  d ≤ N.of_nat (S (length delays)) * ATTEMPT_TIMEOUT_MS + sum_delays delays ∧
  match r with inr (AttemptFailed _) => n = S (length delays) | _ => True end.
Proof.
  revert i d n r. induction delays as [|w delays IH]; intros i d n r; simpl;
    pose proof (attempt_alarm_bound (try i)) as Hb; destruct (attempt_alarm (try i)) as [x [[]|[]]];
    simpl in Hb; intros E; try (injection E as <- <- <-; split; [lia|done]).
  destruct (attempt_with_retries delays try (S i)) as [[d' m] r'] eqn:Er. injection E as <- <- <-.
  apply IH in Er as [Hd Hn]. split; [lia|]. destruct r' as [|[]]; [done..|]. by rewrite Hn.
Qed.

(** Three attempts and two delays. *)
Lemma delivery_time d :
  exponential_with_jitter MIN_RETRY_DELAY_MS (MAX_ATTEMPTS - 1) (d_delays d) → d_end_ms d ≤ d_start_ms d + 186000.
Proof.
  intros [Hl Hd]. unfold d_end_ms, d_run.
  destruct (attempt_with_retries (d_delays d) (d_try d) 0) as [[t n] r] eqn:E. simpl.
  apply retries_spec in E as [Ht _]. rewrite Hl in Ht.
  destruct (d_delays d) as [|x [|y [|]]]; simpl in *; try done.
  pose proof (Hd 0%nat x eq_refl). pose proof (Hd 1%nat y eq_refl).
  unfold MIN_RETRY_DELAY_MS, ATTEMPT_TIMEOUT_MS in *. simpl in *. lia.
Qed.

(** A delivery that finishes its alarm delivered it, or failed three times. *)
Lemma finishes_tried d :
  exponential_with_jitter MIN_RETRY_DELAY_MS (MAX_ATTEMPTS - 1) (d_delays d) → finishes (d_result d) = true →
  d_result d = inl () ∨ (d_attempts d = MAX_ATTEMPTS ∧ ∃ m, d_result d = inr (AttemptFailed m)).
Proof.
  intros [Hl _]. unfold d_result, d_attempts, d_run.
  destruct (attempt_with_retries (d_delays d) (d_try d) 0) as [[t n] r] eqn:E. simpl.
  apply retries_spec in E as [_ Hn]. destruct r as [[]|[|m]]; simpl; [by left|done|].
  intros _. right. rewrite Hl in Hn. eauto.
Qed.

(** ** The invariant *)

Section schedule_invariant.
Context {St : Type} `{!AlarmStore St} `{!AlarmStoreLaws St}.
Context (latency : N).

(** The store has moved past a claim, or still holds it or a later one. *)
Definition covered (st : St) (d : delivery) : Prop :=
  ∃ al, alarm_of st (alarm_actor (d_alarm d)) = Some al ∧
    (alarm_revision (d_alarm d) < al_revision al ∨
     (alarm_revision (d_alarm d) = al_revision al ∧
      (al_timestamp_ms al = None ∨ ∃ q, al_queued_at_ms al = Some q ∧ (Z.of_N (d_claimed_ms d) ≤ q)%Z))).

(** A later claim of the same alarm waited for the earlier one to expire. *)
Definition apart (d1 d2 : delivery) : Prop :=
  d_alarm d1 = d_alarm d2 → (Z.of_N (d_claimed_ms d1) + QUEUED_TIMEOUT_MS ≤ Z.of_N (d_claimed_ms d2))%Z.

Definition well_spawned (d : delivery) : Prop :=
  d_claimed_ms d ≤ d_start_ms d ≤ d_claimed_ms d + latency ∧
  exponential_with_jitter MIN_RETRY_DELAY_MS (MAX_ATTEMPTS - 1) (d_delays d).

(** What an actor asked for last is still there, unless a delivery settled it. *)
Definition kept (s : schedule St) : Prop :=
  ∀ a r t, set_to s !! a = Some (r, t) → ∃ al, alarm_of (alarms s) a = Some al ∧ al_revision al = r ∧
    (al_timestamp_ms al = t ∨ (al_timestamp_ms al = None ∧ ∃ d, d ∈ settled s ∧
       d_alarm d = {| alarm_actor := a; alarm_revision := r |})).

Record schedule_ok (s : schedule St) : Prop := {
  ok_store : store_ok (alarms s);
  ok_spawned : Forall well_spawned (spawned s);
  ok_covered : Forall (covered (alarms s)) (spawned s);
  ok_apart : StronglySorted apart (spawned s);
  ok_running : running s ⊆ spawned s;
  ok_slots : ∀ p, in_flight p s ≤ MAX_IN_FLIGHT;
  ok_settled : Forall (λ d, well_spawned d ∧ finishes (d_result d) = true) (settled s);
  ok_kept : kept s;
}.

(** What a poll does to the store. *)
Definition polled (read limit : N) (st : St) (cs : list ClaimedAlarm) (st' : St) : Prop :=
  store_ok st' ∧ len cs ≤ limit ∧ NoDup (alarm_actor <$> cs) ∧
  (∀ c, c ∈ cs → ∃ al t, alarm_of st (alarm_actor c) = Some al ∧ c = claim_of (alarm_actor c) al ∧
     due_at (Z.of_N read) (Z.of_N read - QUEUED_TIMEOUT_MS)%Z al = Some t ∧
     alarm_of st' (alarm_actor c) = Some (queued_at (Z.of_N read) al)) ∧
  (∀ a, a ∉ alarm_actor <$> cs → alarm_of st' a = alarm_of st a).

Lemma polled_nothing read limit st : store_ok st → polled read limit st [] st.
Proof.
  intros Hs. split_and!; [done|rewrite len_nil; lia|constructor| |done]. by intros c ?%elem_of_nil.
Qed.

Lemma poll_claim_spec read limit order st r st' :
  store_ok st → NoDup order → limit ≤ MAX_IN_FLIGHT → poll_claim read limit order st = (r, st') →
  ∃ cs, polled read limit st cs st' ∧ (∀ cs', r = Ok cs' → cs' = cs).
Proof.
  intros Hs Ho Hl. unfold poll_claim.
  destruct (limit =? 0); [intros E; injection E as <- <-; exists []; split; [by apply polled_nothing|congruence]|].
  case_match; [intros E; injection E as <- <-; exists []; split; [by apply polled_nothing|congruence]|].
  intros E. eapply law_claim in E as (Hs' & cs & -> & Hlen & Hn & Hc & Hrest & _); [|done..|].
  - exists cs. split; [done|]. intros cs' [= <-]. done.
  - unfold MAX_IN_FLIGHT, i64_max in *. lia.
Qed.

Lemma due_unqueued now exp al t q :
  due_at now exp al = Some t → al_queued_at_ms al = Some q → (q ≤ exp)%Z ∧ al_timestamp_ms al = Some t.
Proof.
  unfold due_at. intros Hd Hq. rewrite Hq in Hd. destruct (al_timestamp_ms al) as [u|]; [|done].
  case_match eqn:Hc; [|done]. simplify_eq. apply andb_true_iff in Hc as [_ Hc]. simpl in Hc.
  split; [by apply Z.leb_le|done].
Qed.

Lemma due_set now exp al t : due_at now exp al = Some t → al_timestamp_ms al = Some t.
Proof. unfold due_at. destruct (al_timestamp_ms al); [|done]. case_match; congruence. Qed.

(** An alarm that is claimed again was claimed long ago. *)
Lemma claimed_again read st d al t :
  covered st d → alarm_of st (alarm_actor (d_alarm d)) = Some al → alarm_revision (d_alarm d) = al_revision al →
  due_at (Z.of_N read) (Z.of_N read - QUEUED_TIMEOUT_MS)%Z al = Some t →
  (Z.of_N (d_claimed_ms d) + QUEUED_TIMEOUT_MS ≤ Z.of_N read)%Z.
Proof.
  intros (al' & Ea & H) Ea' Er Hd. rewrite Ea in Ea'. simplify_eq. destruct H as [H|[_ [H|(q & Hq & Hle)]]].
  - lia.
  - apply due_set in Hd. congruence.
  - destruct (due_unqueued _ _ _ _ _ Hd Hq). lia.
Qed.

Lemma covered_polled read limit st cs st' d : polled read limit st cs st' → covered st d → covered st' d.
Proof.
  intros (_ & _ & _ & Hc & Hrest) Hd. pose proof Hd as (al & Ea & H).
  destruct (decide (alarm_actor (d_alarm d) ∈ alarm_actor <$> cs)) as [Hin|Hin].
  - apply list_elem_of_fmap in Hin as (c & Eac & Hin). destruct (Hc c Hin) as (al' & t & Ea' & _ & Hdue & Eq).
    rewrite <- Eac in Ea', Eq. rewrite Ea in Ea'. simplify_eq. exists (queued_at (Z.of_N read) al').
    split; [done|]. simpl. destruct H as [H|[H _]]; [by left|]. right. split; [done|]. right.
    eexists. split; [done|]. pose proof (claimed_again read st d al' t Hd Ea H Hdue).
    unfold QUEUED_TIMEOUT_MS in *. lia.
  - exists al. rewrite Hrest by done. done.
Qed.

Lemma covered_set a t st st' d :
  store_ok st → store_update a t st = (Ok (), st') → covered st d → covered st' d.
Proof.
  intros Hs E (al & Ea & H). apply law_update in E as (_ & Eq & Ho); [|done].
  destruct (decide (alarm_actor (d_alarm d) = a)) as [<- |Hne].
  - eexists. split; [exact Eq|]. simpl. rewrite Ea. simpl. left. destruct H as [?|[? _]]; lia.
  - exists al. by rewrite Ho.
Qed.

Lemma covered_finish c st r st' d :
  store_ok st → store_finish c st = (r, st') → covered st d → covered st' d.
Proof.
  intros Hs E (al & Ea & H). apply law_finish in E as (_ & E); [|done].
  destruct (alarm_of st (alarm_actor c)) as [x|] eqn:Ex; [|exists al; by rewrite E].
  destruct (al_revision x =? alarm_revision c); [|exists al; by rewrite E].
  destruct E as (_ & Eq & Ho). destruct (decide (alarm_actor (d_alarm d) = alarm_actor c)) as [Ec|Hne].
  - rewrite Ec in Ea. rewrite Ex in Ea. simplify_eq. exists (cleared al). rewrite Ec. split; [done|]. simpl.
    destruct H as [H|[H _]]; [by left|]. right. split; [done|]. by left.
  - exists al. by rewrite Ho.
Qed.

(** The deliveries a poll spawns: apart from every earlier one, covered and within
    the free slots. *)
Lemma spawn_covered p read now cs ds st st' limit :
  polled read limit st cs st' → Forall2 (spawned_for latency p read now) cs ds → Forall (covered st') ds.
Proof.
  intros (_ & _ & _ & Hc & _) H. apply Forall_forall. intros d Hd.
  apply list_elem_of_lookup in Hd as [i Hi]. eapply Forall2_lookup_r in Hi as (c & Hci & Hsp); [|done].
  unfold covered. destruct Hsp as (_ & -> & -> & _). destruct (Hc c) as (al & t & _ & Ec & _ & Eq); [by eapply list_elem_of_lookup_2|].
  exists (queued_at (Z.of_N read) al). split; [done|]. rewrite Ec. simpl. right.
  split; [done|]. right. eexists. split; [done|]. lia.
Qed.

Lemma spawn_apart p read now cs ds st st' limit old :
  polled read limit st cs st' → Forall2 (spawned_for latency p read now) cs ds →
  Forall (covered st) old → StronglySorted apart old → StronglySorted apart (old ++ ds).
Proof.
  intros (_ & _ & Hn & Hc & _) H Hold Hs. apply StronglySorted_app_2; [|done|].
  - intros d1 d2 Hd1 Hd2 E. rewrite Forall_forall in Hold. apply Hold in Hd1.
    apply list_elem_of_lookup in Hd2 as [i Hi]. eapply Forall2_lookup_r in Hi as (c & Hci & Hsp); [|done].
    destruct Hsp as (_ & Ec & -> & _). apply list_elem_of_lookup_2, Hc in Hci as (al & t & Ea & Er & Hd & _).
    rewrite Ec in E. eapply claimed_again; [done|by rewrite E| |done]. by rewrite E, Er.
  - clear Hs Hold Hc. revert ds H. induction cs as [|c cs IH]; intros ds H;
      apply Forall2_cons_inv_l in H || apply Forall2_nil_inv_l in H; [subst; constructor|].
    destruct H as (d & ds' & Hd & Hds & ->). rewrite fmap_cons in Hn. apply NoDup_cons in Hn as [Hx Hn].
    constructor; [by apply IH|]. apply Forall_forall. intros d' Hd' E.
    apply list_elem_of_lookup in Hd' as [i Hi]. eapply Forall2_lookup_r in Hi as (c' & Hci & Hsp); [|done].
    destruct Hd as (_ & Ed & _), Hsp as (_ & Ed' & _). destruct Hx. rewrite <- Ed, E, Ed'.
    apply list_elem_of_fmap_2. by eapply list_elem_of_lookup_2.
Qed.

Lemma spawn_slots p read now cs ds (s : schedule St) :
  Forall2 (spawned_for latency p read now) cs ds → len cs ≤ free_slots p s →
  (∀ q, in_flight q s ≤ MAX_IN_FLIGHT) →
  ∀ q, len (List.filter (λ d, Nat.eqb (d_process d) q) (running s ++ ds)) ≤ MAX_IN_FLIGHT.
Proof.
  intros H Hl Hs q. rewrite List.filter_app, len_app. specialize (Hs q). unfold in_flight in Hs.
  assert (len (List.filter (λ d, Nat.eqb (d_process d) q) ds) ≤ if Nat.eqb p q then len ds else 0) as Hds.
  { clear Hl Hs. induction H as [|c d cs ds (Hp & _) _ IH]; simpl; [destruct (Nat.eqb p q); rewrite len_nil; lia|].
    rewrite Hp. destruct (Nat.eqb p q); [rewrite !len_cons; lia|done]. }
  apply Forall2_length in H as Hlen. unfold free_slots, saturating_sub, in_flight in Hl.
  destruct (Nat.eqb_spec p q) as [<- |_]; [|lia]. unfold len in *. rewrite Hlen in Hl. lia.
Qed.

Lemma filter_in_flight q f (l : list delivery) :
  len (List.filter (λ d, Nat.eqb (d_process d) q) (List.filter f l)) ≤
  len (List.filter (λ d, Nat.eqb (d_process d) q) l).
Proof.
  induction l as [|d l IH]; simpl; [lia|]. destruct (f d); simpl; destruct (Nat.eqb (d_process d) q);
    rewrite ?len_cons; lia.
Qed.

Lemma removed_in_flight q before d (after : list delivery) :
  len (List.filter (λ d, Nat.eqb (d_process d) q) (before ++ after)) ≤
  len (List.filter (λ d, Nat.eqb (d_process d) q) (before ++ d :: after)).
Proof.
  rewrite !List.filter_app, !len_app. simpl. destruct (Nat.eqb (d_process d) q); rewrite ?len_cons; lia.
Qed.

Lemma kept_set s a t st :
  store_ok (alarms s) → store_update a t (alarms s) = (Ok (), st) → kept s →
  kept {| time_ms := time_ms s; alarms := st; running := running s; spawned := spawned s;
          set_to := <[a := (from_option al_revision 0 (alarm_of (alarms s) a) + 1, t)]> (set_to s);
          settled := settled s |}.
Proof.
  intros Hs E Hk k r u. simpl. apply law_update in E as (_ & Eq & Ho); [|done].
  destruct (decide (a = k)) as [<- |Hne].
  - rewrite lookup_insert_eq. intros [= <- <-]. eexists. split; [exact Eq|]. simpl. split; [done|]. by left.
  - rewrite lookup_insert_ne by done. rewrite Ho by done. apply Hk.
Qed.

Lemma kept_polled read limit s cs st ds ru sp :
  polled read limit (alarms s) cs st → kept s →
  kept {| time_ms := ds; alarms := st; running := ru; spawned := sp; set_to := set_to s; settled := settled s |}.
Proof.
  intros (_ & _ & _ & Hc & Hrest) Hk a r t Hset. simpl in *. destruct (Hk a r t Hset) as (al & Ea & Er & H).
  destruct (decide (a ∈ alarm_actor <$> cs)) as [Hin|Hin]; [|exists al; by rewrite Hrest].
  apply list_elem_of_fmap in Hin as (c & -> & Hin). destruct (Hc c Hin) as (al' & u & Ea' & _ & _ & Eq).
  rewrite Ea in Ea'. simplify_eq. exists (queued_at (Z.of_N read) al'). by rewrite Eq.
Qed.

Lemma kept_finish s d r st ru :
  store_ok (alarms s) → store_finish (d_alarm d) (alarms s) = (r, st) → kept s →
  kept {| time_ms := time_ms s; alarms := st; running := ru; spawned := spawned s; set_to := set_to s;
          settled := settled s ++ [d] |}.
Proof.
  intros Hs E Hk a v t Hset. simpl in *. destruct (Hk a v t Hset) as (al & Ea & Er & H).
  assert (∀ al', alarm_of st a = Some al' → al' = al → ∃ al', alarm_of st a = Some al' ∧ al_revision al' = v ∧
    (al_timestamp_ms al' = t ∨ (al_timestamp_ms al' = None ∧ ∃ d', d' ∈ settled s ++ [d] ∧
       d_alarm d' = {| alarm_actor := a; alarm_revision := v |}))) as Hsame.
  { intros al' Eal ->. exists al. split_and!; [done..|]. destruct H as [H|(H & d' & Hd' & E')]; [by left|].
    right. split; [done|]. exists d'. rewrite elem_of_app. eauto. }
  apply law_finish in E as (_ & E); [|done].
  destruct (alarm_of (alarms s) (alarm_actor (d_alarm d))) as [x|] eqn:Ex; [|apply (Hsame al); by rewrite ?E].
  destruct (N.eqb_spec (al_revision x) (alarm_revision (d_alarm d))) as [Ev|]; [|apply (Hsame al); by rewrite ?E].
  destruct E as (_ & Eq & Ho). destruct (decide (a = alarm_actor (d_alarm d))) as [-> |Hne];
    [|apply (Hsame al); by rewrite ?Ho].
  rewrite Ex in Ea. simplify_eq. exists (cleared al). split_and!; [done..|]. right. split; [done|].
  exists d. split; [rewrite elem_of_app; right; by left|]. rewrite Ev. by destruct (d_alarm d).
Qed.

Lemma poll_spawned p read now cs ds :
  read ≤ now → Forall2 (spawned_for latency p read now) cs ds → Forall well_spawned ds.
Proof.
  intros Hle. induction 1 as [|c d cs ds (_ & _ & Hc & Hst & Hj) _ IH]; constructor; [|done].
  split; [rewrite Hc; lia|done].
Qed.

Lemma schedule_step_ok s s' : schedule_ok s → schedule_step latency s s' → schedule_ok s'.
Proof.
  intros [Hs Hsp Hcov Hap Hrun Hsl Hset Hk] Hst. destruct Hst; unfold in_flight in Hsl.
  - by split.
  - pose proof (law_update _ _ _ _ _ Hs H) as [Hs' _]. split; simpl; try done; [|by apply kept_set].
    eapply Forall_impl; [exact Hcov|]. intros d. exact (covered_set _ _ _ _ d Hs H).
  - eapply poll_claim_spec in H1 as (cs' & Hp & Hcs); [|done..|unfold free_slots, saturating_sub; lia].
    specialize (Hcs cs eq_refl). subst cs'. pose proof Hp as (Hs' & Hlen & _). split; simpl.
    + done.
    + apply Forall_app. split; [done|]. exact (poll_spawned _ _ _ _ _ H H2).
    + apply Forall_app. split; [|exact (spawn_covered _ _ _ _ _ _ _ _ Hp H2)].
      eapply Forall_impl; [exact Hcov|]. intros d. exact (covered_polled _ _ _ _ _ d Hp).
    + exact (spawn_apart _ _ _ _ _ _ _ _ _ Hp H2 Hcov Hap).
    + intros d. rewrite !elem_of_app. intros [?|?]; [left; by apply Hrun|by right].
    + exact (spawn_slots _ _ _ _ _ s H2 Hlen Hsl).
    + done.
    + by eapply kept_polled.
  - eapply poll_claim_spec in H1 as (cs' & Hp & _); [|done..|unfold free_slots, saturating_sub; lia].
    pose proof Hp as (Hs' & _). split; simpl; try done; [|by eapply kept_polled].
    eapply Forall_impl; [exact Hcov|]. intros d. exact (covered_polled _ _ _ _ _ d Hp).
  - pose proof (law_finish _ _ _ _ Hs H2) as [Hs' _]. rewrite H in Hrun, Hsl. split; simpl; try done.
    + eapply Forall_impl; [exact Hcov|]. intros d'. exact (covered_finish _ _ _ _ d' Hs H2).
    + intros d' Hd'. apply Hrun. apply elem_of_app in Hd' as [?|?]; apply elem_of_app; [by left|right; by right].
    + intros p. etrans; [apply (removed_in_flight p before d after)|apply Hsl].
    + apply Forall_app. split; [done|]. apply Forall_singleton. split; [|done].
      rewrite Forall_forall in Hsp. apply Hsp, Hrun, elem_of_app. right. by left.
    + by eapply kept_finish.
  - rewrite H in Hrun, Hsl. split; simpl; try done.
    + intros d' Hd'. apply Hrun. apply elem_of_app in Hd' as [?|?]; apply elem_of_app; [by left|right; by right].
    + intros p. etrans; [apply (removed_in_flight p before d after)|apply Hsl].
  - split; simpl; try done.
    + intros d Hd. apply Hrun. by apply list_elem_of_In, filter_In in Hd as [?%list_elem_of_In _].
    + intros q. etrans; [apply filter_in_flight|apply Hsl].
Qed.

Lemma schedule_reach_ok s : schedule_reach latency s → schedule_ok s.
Proof.
  intros (s0 & (Hs & Hn & Hr & Hsp & Hset & Hdone) & H).
  assert (schedule_ok s0) as H0.
  { split; rewrite ?Hsp, ?Hdone; try done; try by constructor.
    - by rewrite Hr.
    - intros p. unfold in_flight. rewrite Hr. simpl. rewrite len_nil. lia.
    - intros a r t. by rewrite Hset, lookup_empty. }
  clear Hs Hn Hr Hsp Hset Hdone. induction H as [|x y z Hxy _ IH]; [done|]. apply IH. by eapply schedule_step_ok.
Qed.

(** C26. However the processes of the control plane poll, stop and lose answers, no
    process ever delivers more alarms at a time than it has slots, and two
    deliveries of the same setting of an alarm never overlap: the earlier one has
    made its last attempt before the later one starts, as long as deliveries start
    within 113 seconds of the clock reading they were claimed with. *)
Theorem alarm_deliveries_exclusive (s : schedule St) :
  latency ≤ 113000 → schedule_reach latency s →
  (∀ p, in_flight p s ≤ MAX_IN_FLIGHT) ∧
  ∀ before d1 between d2 after, spawned s = before ++ d1 :: between ++ d2 :: after →
    d_alarm d1 = d_alarm d2 → d_end_ms d1 < d_start_ms d2.
Proof.
  intros Hlat Hs. apply schedule_reach_ok in Hs as []. split; [done|].
  intros before d1 between d2 after E Ha. rewrite E in ok_apart0, ok_spawned0.
  apply Forall_app in ok_spawned0 as [_ ok_spawned0]. apply Forall_cons in ok_spawned0 as [[H1 Hj] ok_spawned0].
  apply Forall_app in ok_spawned0 as [_ ok_spawned0]. apply Forall_cons in ok_spawned0 as [[H2 _] _].
  apply StronglySorted_app_1_r, StronglySorted_cons in ok_apart0 as [Hap _].
  apply Forall_app in Hap as [_ Hap]. apply Forall_cons in Hap as [Hap _]. specialize (Hap Ha).
  pose proof (delivery_time d1 Hj). unfold QUEUED_TIMEOUT_MS in Hap. lia.
Qed.

(** C27. No alarm is lost: what an actor asked for last is what its store answers,
    until a delivery of that very setting was carried out or was tried as often as
    the scheduler tries; a removed alarm does not come back. *)
Theorem alarms_not_lost (s : schedule St) a r t :
  schedule_reach latency s → set_to s !! a = Some (r, t) →
  store_get a (alarms s) = Ok t ∨
  (store_get a (alarms s) = Ok None ∧ ∃ d, d ∈ settled s ∧ d_alarm d = {| alarm_actor := a; alarm_revision := r |} ∧
     (d_result d = inl () ∨ (d_attempts d = MAX_ATTEMPTS ∧ ∃ m, d_result d = inr (AttemptFailed m)))).
Proof.
  intros Hs Hset. apply schedule_reach_ok in Hs as []. destruct (ok_kept0 a r t Hset) as (al & Ea & Er & H).
  rewrite law_get, Ea by done. simpl. destruct H as [-> |(-> & d & Hd & Ed)]; [by left|]. right. split; [done|].
  exists d. split_and!; [done..|]. rewrite Forall_forall in ok_settled0. apply ok_settled0 in Hd as [[_ Hj] Hf].
  by apply finishes_tried.
Qed.
End schedule_invariant.

(** ** Witnesses *)

Definition demo_alarm_actor : ActorKey := {| project_id := b"p"; actor_name := b"n"; actor_id := b"7" |}.
Definition demo_claim : ClaimedAlarm := {| alarm_actor := demo_alarm_actor; alarm_revision := 1 |}.

(** The first process stops in the middle of its delivery; the second one claims
    the alarm five minutes later, is failed once and then succeeds. *)
Definition demo_first : delivery :=
  {| d_process := 0; d_alarm := demo_claim; d_claimed_ms := 100; d_start_ms := 100; d_delays := [1000; 2000];
     d_try := λ _, (90000, inl ()) |}.

Definition demo_second : delivery :=
  {| d_process := 1; d_alarm := demo_claim; d_claimed_ms := 300100; d_start_ms := 300150; d_delays := [1500; 2000];
     d_try := λ i, match i with O => (20, inr (AttemptFailed "connection refused")) | _ => (30, inl ()) end |}.

Definition demo_empty : schedule MemoryAlarmStore :=
  {| time_ms := 0; alarms := ∅; running := []; spawned := []; set_to := ∅; settled := [] |}.

Definition demo_set : schedule MemoryAlarmStore :=
  {| time_ms := 100; alarms := (store_update demo_alarm_actor (Some 50%Z) ∅).2; running := []; spawned := [];
     set_to := <[demo_alarm_actor := (1, Some 50%Z)]> ∅; settled := [] |}.

Definition demo_claimed : schedule MemoryAlarmStore :=
  {| time_ms := 300120; alarms := (poll_claim 100 100 [demo_alarm_actor] (alarms demo_set)).2; running := [];
     spawned := [demo_first]; set_to := set_to demo_set; settled := [] |}.

Definition demo_reclaimed : schedule MemoryAlarmStore :=
  {| time_ms := 400000; alarms := (poll_claim 300100 100 [demo_alarm_actor] (alarms demo_claimed)).2;
     running := [demo_second]; spawned := [demo_first; demo_second]; set_to := set_to demo_set; settled := [] |}.

Definition demo_finished : schedule MemoryAlarmStore :=
  {| time_ms := 400000; alarms := (store_finish demo_claim (alarms demo_reclaimed)).2; running := [];
     spawned := [demo_first; demo_second]; set_to := set_to demo_set; settled := [demo_second] |}.

Lemma demo_set_reach : rtc (schedule_step 1000) demo_empty demo_set.
Proof.
  eapply rtc_l; [apply (step_set 1000 demo_empty demo_alarm_actor (Some 50%Z)); apply answer_of; vm_compute; reflexivity|].
  eapply rtc_l; [apply (step_time 1000 _ 100); vm_compute; discriminate|]. apply rtc_refl.
Qed.

Lemma demo_jitter x y : 1000 ≤ x ≤ 2000 → 2000 ≤ y ≤ 4000 →
  exponential_with_jitter MIN_RETRY_DELAY_MS (MAX_ATTEMPTS - 1) [x; y].
Proof.
  intros Hx Hy. split; [done|]. unfold MIN_RETRY_DELAY_MS.
  intros [|[|i]] d E; simpl in E; simplify_eq; simpl; lia.
Qed.

Lemma demo_claimed_reach : rtc (schedule_step 1000) demo_set demo_claimed.
Proof.
  eapply rtc_l; [eapply (step_poll 1000 demo_set 0 100 [demo_alarm_actor] [demo_claim] _ [demo_first])|].
  - vm_compute. discriminate.
  - apply NoDup_singleton.
  - apply answer_of. vm_compute. reflexivity.
  - constructor; [|constructor]. unfold spawned_for. simpl. split_and!; [done..|lia|lia|]. apply demo_jitter; lia.
  - eapply rtc_l; [apply (step_stop 1000 _ 0)|].
    eapply rtc_l; [apply (step_time 1000 _ 300120); vm_compute; discriminate|]. apply rtc_refl.
Qed.

Lemma demo_reclaimed_reach : rtc (schedule_step 1000) demo_claimed demo_reclaimed.
Proof.
  eapply rtc_l; [eapply (step_poll 1000 demo_claimed 1 300100 [demo_alarm_actor] [demo_claim] _ [demo_second])|].
  - vm_compute. discriminate.
  - apply NoDup_singleton.
  - apply answer_of. vm_compute. reflexivity.
  - constructor; [|constructor]. unfold spawned_for. simpl. split_and!; [done..|lia|lia|]. apply demo_jitter; lia.
  - eapply rtc_l; [apply (step_time 1000 _ 400000); vm_compute; discriminate|]. apply rtc_refl.
Qed.

Lemma demo_finished_reach : schedule_reach 1000 demo_finished.
Proof.
  exists demo_empty. split; [by repeat split|].
  etrans; [apply demo_set_reach|]. etrans; [apply demo_claimed_reach|]. etrans; [apply demo_reclaimed_reach|].
  eapply rtc_l; [|apply rtc_refl].
  apply (step_finish 1000 demo_reclaimed demo_second [] [] (Ok ())); [done|vm_compute; discriminate|done|done].
Qed.

Lemma alarm_deliveries_exclusive_witness : d_end_ms demo_first < d_start_ms demo_second.
Proof.
  apply (proj2 (alarm_deliveries_exclusive 1000 demo_finished ltac:(lia) demo_finished_reach) [] demo_first []
    demo_second []); reflexivity.
Defined.

Lemma alarms_not_lost_witness :
  d_attempts demo_second = 2%nat ∧
  (store_get demo_alarm_actor (alarms demo_finished) = Ok (Some 50%Z) ∨
   (store_get demo_alarm_actor (alarms demo_finished) = Ok None ∧
    ∃ d, d ∈ settled demo_finished ∧ d_alarm d = demo_claim ∧
      (d_result d = inl () ∨ (d_attempts d = MAX_ATTEMPTS ∧ ∃ m, d_result d = inr (AttemptFailed m))))).
Proof.
  split; [reflexivity|].
  apply (alarms_not_lost 1000 demo_finished demo_alarm_actor 1 (Some 50%Z) demo_finished_reach).
  apply lookup_insert_eq.
Defined.
