(* ===== verification/Routes.v ===== *)
(** * Routes to actor hosts

    The route cache of [src/src/control_plane/routes.rs] with its in-memory store:
    where an actor's host is, or that this host is shutting down. An entry lives
    for a while after it was written or renewed and may be dropped earlier when
    the cache is full; a deployment retires every active route at once by counting
    up a generation. The Redis store runs the same logic as scripts. *)

From S2P Require Import Prelude Text Demo Names Payload Frame StateLog Effects Concurrency Buckets Rapid Runtime Lifecycle LifecycleStore.
Local Open Scope N_scope.

Definition LIVENESS_MS : N := 3 * HEARTBEAT_INTERVAL_MS.
Definition SHUTDOWN_RETENTION_MS : N := 2 * MAX_HOST_LEASE_DURATION_MS.

Record RouteIdentity := {
  id_host : bytes;
  id_session : bytes;
  id_epoch : N;
}.

#[global] Instance RouteIdentity_eq_dec : EqDecision RouteIdentity.
Proof. solve_decision. Defined.

Record CachedRoute := {
  cached_placement : ObjectPlacement;
  host_config_key : bytes;
  overrides_regions : bool;
}.

Inductive RouteEntry :=
| Active (route : CachedRoute)
| RouteDraining (id : RouteIdentity)
| RouteStopped (id : RouteIdentity).

Definition identity_of (p : ObjectPlacement) : RouteIdentity :=
  {| id_host := place_owner p; id_session := session_id (place_lease p); id_epoch := place_owner_epoch p |}.

Definition identity (e : RouteEntry) : RouteIdentity :=
  match e with
  | Active r => identity_of (cached_placement r)
  | RouteDraining id | RouteStopped id => id
  end.

Definition rank (e : RouteEntry) : N :=
  match e with Active _ => 0 | RouteDraining _ => 1 | RouteStopped _ => 2 end.

Definition supersedes (e current : RouteEntry) : bool :=
  if identity e == identity current then rank current <=? rank e
  else id_epoch (identity current) <? id_epoch (identity e).

Definition is_active (id : RouteIdentity) (e : RouteEntry) : bool :=
  match e with Active _ => identity e == id | _ => false end.

Definition lifetime (e : RouteEntry) : N :=
  match e with Active _ => LIVENESS_MS | _ => SHUTDOWN_RETENTION_MS end.

Record Stamped := {
  stamp : N;
  entry : RouteEntry;
}.

Definition visible (generation : N) (s : Stamped) : bool :=
  (stamp s =? generation) || match entry s with Active _ => false | _ => true end.

(** The cache holds every value with the time at which it expires. *)
Record MemoryRoutes := {
  entries : gmap ActorKey (Stamped * N);
  generation : N;
}.

Definition new_routes : MemoryRoutes := {| entries := ∅; generation := 0 |}.

(** [Cache::get] *)
Definition cache_get (now : N) (a : ActorKey) (m : MemoryRoutes) : option Stamped :=
  match entries m !! a with
  | Some (s, expires) => if now <? expires then Some s else None
  | None => None
  end.

(** [Op::Put]: the value lives as long as [EntryLifetime] says. *)
Definition cache_put (now : N) (a : ActorKey) (s : Stamped) (m : MemoryRoutes) : MemoryRoutes :=
  {| entries := <[a := (s, now + lifetime (entry s))]> (entries m); generation := generation m |}.

Definition cache_remove (a : ActorKey) (m : MemoryRoutes) : MemoryRoutes :=
  {| entries := delete a (entries m); generation := generation m |}.

(** ** The operations of the store *)

Definition route_get (now : N) (a : ActorKey) (m : MemoryRoutes) : option RouteEntry :=
  match cache_get now a m with
  | Some s => if visible (generation m) s then Some (entry s) else None
  | None => None
  end.

Definition route_write (now : N) (a : ActorKey) (e : RouteEntry) (observed : option N) (m : MemoryRoutes)
    : MemoryRoutes :=
  let g := generation m in
  let current := match cache_get now a m with
                 | Some s => if visible g s then Some s else None
                 | None => None
                 end in
  if from_option (λ o, o != g) false observed || from_option (λ s, negb (supersedes e (entry s))) false current
  then m
  else cache_put now a {| stamp := g; entry := e |} m.

Definition route_remember (now : N) (a : ActorKey) (r : CachedRoute) (g : option N) (m : MemoryRoutes) : MemoryRoutes :=
  match g with Some g => route_write now a (Active r) (Some g) m | None => m end.

Definition route_put (now : N) (a : ActorKey) (e : RouteEntry) (m : MemoryRoutes) : MemoryRoutes :=
  route_write now a e None m.

Definition update_if_active (now : N) (a : ActorKey) (id : RouteIdentity)
    (op : Stamped → MemoryRoutes → MemoryRoutes) (m : MemoryRoutes) : MemoryRoutes :=
  match cache_get now a m with
  | Some s => if is_active id (entry s) then op s m else m
  | None => m
  end.

Definition route_renew (now : N) (a : ActorKey) (id : RouteIdentity) (m : MemoryRoutes) : MemoryRoutes :=
  update_if_active now a id (cache_put now a) m.

Definition route_remove (now : N) (a : ActorKey) (id : RouteIdentity) (m : MemoryRoutes) : MemoryRoutes :=
  update_if_active now a id (λ _, cache_remove a) m.

(** [fetch_add] wraps around. *)
Definition remove_project (m : MemoryRoutes) : MemoryRoutes :=
  {| entries := entries m; generation := (generation m + 1) mod 2 ^ 64 |}.

(** [ControlPlaneService::follow_host_route]: what a host's report does to its
    route. *)
Definition follow_host_route (now : N) (a : ActorKey) (host session : bytes) (r : LifecycleReport)
    (m : MemoryRoutes) : MemoryRoutes :=
  let id := {| id_host := host; id_session := session; id_epoch := owner_epoch r |} in
  match kind r with
  | Started | Heartbeat => route_renew now a id m
  | Draining => route_put now a (RouteDraining id) m
  | Stopped => route_put now a (RouteStopped id) m
  end.

(** ** Histories *)

Inductive route_op :=
| Remember (a : ActorKey) (r : CachedRoute) (observed : option N)
| Report (a : ActorKey) (host session : bytes) (r : LifecycleReport)
| Forget (a : ActorKey) (id : RouteIdentity)
| Deploy
| Expel (a : ActorKey).

Definition route_step (m : MemoryRoutes) (x : N * route_op) : MemoryRoutes :=
  let '(now, o) := x in
  match o with
  | Remember a r g => route_remember now a r g m
  | Report a host session r => follow_host_route now a host session r m
  | Forget a id => route_remove now a id m
  | Deploy => remove_project m
  | Expel a => cache_remove a m
  end.

Definition route_run (ops : list (N * route_op)) : MemoryRoutes := foldl route_step new_routes ops.

(** ** Where an active route comes from *)

Definition report_identity (host session : bytes) (r : LifecycleReport) : RouteIdentity :=
  {| id_host := host; id_session := session; id_epoch := owner_epoch r |}.

Definition deploys (ops : list (N * route_op)) : N :=
  len (List.filter (λ x, match snd x with Deploy => true | _ => false end) ops).

(** Nothing in [ops] says that the host shut down: every such report was about an
    older host. *)
Definition no_shutdown (a : ActorKey) (id : RouteIdentity) (ops : list (N * route_op)) : Prop :=
  ∀ t host session r, (t, Report a host session r) ∈ ops → kind r = Draining ∨ kind r = Stopped →
    report_identity host session r ≠ id ∧ owner_epoch r ≤ id_epoch id.

(** The route was remembered at [t] or the host sent a sign of life at [touched]. *)
Definition alive_at (a : ActorKey) (id : RouteIdentity) (t : N) (post : list (N * route_op)) (touched : N) : Prop :=
  touched = t ∨ ∃ host session r, (touched, Report a host session r) ∈ post ∧
    (kind r = Started ∨ kind r = Heartbeat) ∧ report_identity host session r = id.

Definition justified (ops : list (N * route_op)) (a : ActorKey) (g : N) (r : CachedRoute) (expires : N) : Prop :=
  ∃ pre t post, ops = pre ++ (t, Remember a r (Some g)) :: post ∧ g = generation (route_run pre) ∧
    no_shutdown a (identity_of (cached_placement r)) post ∧
    ∃ touched, alive_at a (identity_of (cached_placement r)) t post touched ∧ expires = touched + LIVENESS_MS.

Definition all_justified (ops : list (N * route_op)) (m : MemoryRoutes) : Prop :=
  ∀ a g r x, entries m !! a = Some ({| stamp := g; entry := Active r |}, x) → justified ops a g r x.

Lemma route_run_snoc ops x : route_run (ops ++ [x]) = route_step (route_run ops) x.
Proof. unfold route_run. by rewrite foldl_app. Qed.

Lemma write_generation now a e o m : generation (route_write now a e o m) = generation m.
Proof. unfold route_write. by case_match. Qed.

Lemma update_generation now a id op m :
  (∀ s m, generation (op s m) = generation m) → generation (update_if_active now a id op m) = generation m.
Proof. intros H. unfold update_if_active. by repeat case_match. Qed.

Lemma step_generation m t o :
  generation (route_step m (t, o)) =
  match o with Deploy => (generation m + 1) mod 2 ^ 64 | _ => generation m end.
Proof.
  destruct o as [a r [g|]|a h s r|a id| |a]; simpl; try done.
  - apply write_generation.
  - unfold follow_host_route. destruct (kind r); by (apply write_generation || apply update_generation).
  - by apply update_generation.
Qed.

Lemma run_generation ops : generation (route_run ops) = deploys ops mod 2 ^ 64.
Proof.
  unfold deploys. induction ops as [|[t o] ops IH] using rev_ind; [done|].
  rewrite route_run_snoc, step_generation, List.filter_app, len_app, IH.
  destruct o; simpl; rewrite ?len_nil, ?N.add_0_r; try done. by rewrite N.Div0.add_mod_idemp_l.
Qed.

(** Every change of the cache at an actor. *)
Lemma route_entries_write now a e o m :
  route_write now a e o m = m ∧
    (from_option (λ o, o != generation m) false o = true ∨
     ∃ s x, entries m !! a = Some (s, x) ∧ supersedes e (entry s) = false) ∨
  route_write now a e o m = cache_put now a {| stamp := generation m; entry := e |} m ∧
    from_option (λ o, o != generation m) false o = false.
Proof.
  unfold route_write, cache_get. destruct (from_option _ false o) eqn:Eo; simpl; [left; by eauto|].
  destruct (entries m !! a) as [[s x]|] eqn:E; simpl; [|by right].
  destruct (now <? x); simpl; [|by right]. destruct (visible (generation m) s); simpl; [|by right].
  destruct (supersedes e (entry s)) eqn:Es; simpl; [by right|]. left. split; [done|]. right. eauto.
Qed.

Lemma lookup_cache_put now a s m k :
  entries (cache_put now a s m) !! k = if decide (a = k) then Some (s, now + lifetime (entry s)) else entries m !! k.
Proof. simpl. destruct (decide (a = k)) as [<- |]; [by rewrite lookup_insert_eq|by rewrite lookup_insert_ne]. Qed.

Lemma justified_snoc ops y a g r x :
  justified ops a g r x → no_shutdown a (identity_of (cached_placement r)) [y] → justified (ops ++ [y]) a g r x.
Proof.
  intros (pre & t & post & -> & Hg & Hn & touched & Ht & Hx) Hy. exists pre, t, (post ++ [y]).
  rewrite <- app_assoc. split_and!; [done..| |].
  - intros t' h s r' [Hin|Hin]%elem_of_app; [by eapply Hn|by eapply Hy].
  - exists touched. split; [|done]. destruct Ht as [->|(h & s & r' & Hin & Hk)]; [by left|].
    right. exists h, s, r'. rewrite elem_of_app. eauto.
Qed.

(** A report about another actor, or no report of a shutdown. *)
Lemma no_shutdown_other a id t o :
  (∀ h s r, o = Report a h s r → kind r = Draining ∨ kind r = Stopped → False) → no_shutdown a id [(t, o)].
Proof. intros H t' h s r Hin%list_elem_of_singleton Hk. simplify_eq. by destruct (H h s r). Qed.

Lemma shutdown_justified ops t a h s r e :
  kind r = Draining ∨ kind r = Stopped → 0 < rank e → identity e = report_identity h s r →
  all_justified ops (route_run ops) →
  all_justified (ops ++ [(t, Report a h s r)]) (route_put t a e (route_run ops)).
Proof.
  intros Hk Hr Hid Hall a' g cr x. unfold route_put.
  destruct (route_entries_write t a e None (route_run ops)) as [[-> Hw]|[-> _]].
  - intros E. apply justified_snoc; [by apply Hall|]. intros t' h' s' r' Hin%list_elem_of_singleton _. simplify_eq.
    destruct Hw as [Hw|(st & y & Ey & Es)]; [done|]. rewrite E in Ey. simplify_eq. unfold supersedes in Es.
    simpl in Es. rewrite Hid in Es. case_bool_decide as Ei.
    + apply N.leb_gt in Es. lia.
    + apply N.ltb_ge in Es. done.
  - rewrite lookup_cache_put. case_decide as Ea.
    + intros E. simplify_eq. simpl in Hr. lia.
    + intros E. apply justified_snoc; [by apply Hall|]. apply no_shutdown_other. intros h' s' r' E'. simplify_eq.
Qed.

Lemma alive_justified ops t a h s r :
  kind r = Started ∨ kind r = Heartbeat → all_justified ops (route_run ops) →
  all_justified (ops ++ [(t, Report a h s r)]) (route_renew t a (report_identity h s r) (route_run ops)).
Proof.
  intros Hk Hall a' g cr x E.
  assert (∀ id, no_shutdown a' id [(t, Report a h s r)]) as Hn.
  { intros id. apply no_shutdown_other. intros h' s' r' E'. simplify_eq. destruct Hk as [->| ->]; by intros []. }
  unfold route_renew, update_if_active in E.
  destruct (cache_get t a (route_run ops)) as [st|] eqn:Es; [|apply justified_snoc; [by apply Hall|done]].
  destruct (is_active (report_identity h s r) (entry st)) eqn:Ea; [|apply justified_snoc; [by apply Hall|done]].
  rewrite lookup_cache_put in E. case_decide as Eq; [|apply justified_snoc; [by apply Hall|done]].
  simplify_eq. unfold cache_get in Es. destruct (entries (route_run ops) !! a') as [[st y]|] eqn:El; [|done].
  case_match; [|done]. simplify_eq. apply bool_decide_eq_true in Ea. simpl in Ea.
  destruct (Hall _ _ _ _ El) as (pre & t0 & post & -> & Hg & Hnp & _).
  exists pre, t0, (post ++ [(t, Report a' h s r)]). rewrite <- app_assoc. split_and!; [done..| |].
  - intros t' h' s' r' [Hin|Hin]%elem_of_app; [by eapply Hnp|by eapply Hn].
  - exists t. split; [|done]. right. exists h, s, r. rewrite elem_of_app, list_elem_of_singleton. eauto.
Qed.

Lemma run_justified ops : all_justified ops (route_run ops).
Proof.
  induction ops as [|[t o] ops IH] using rev_ind; [intros a g r x E; simpl in E; by rewrite lookup_empty in E|].
  rewrite route_run_snoc. destruct o as [a r [g|]|a h s r|a id| |a]; simpl.
  - intros a' g' r' x. destruct (route_entries_write t a (Active r) (Some g) (route_run ops)) as [[-> _]|[-> Hg]].
    + intros E. apply justified_snoc; [by apply IH|by apply no_shutdown_other].
    + rewrite lookup_cache_put. case_decide as Ea; [|intros E; apply justified_snoc; [by apply IH|by apply no_shutdown_other]].
      intros E. simplify_eq. simpl in Hg. apply negb_false_iff, bool_decide_eq_true in Hg. subst g.
      exists ops, t, []. split_and!; [done..|by intros ? ? ? ? ?%elem_of_nil|]. exists t. split; [by left|done].
  - intros a' g' r' x E. apply justified_snoc; [by apply IH|by apply no_shutdown_other].
  - unfold follow_host_route. destruct (kind r) eqn:Ek; try (apply alive_justified; auto; fail);
      apply shutdown_justified; auto; simpl; lia.
  - intros a' g' r' x E. unfold route_remove, update_if_active in E.
    apply justified_snoc; [|by apply no_shutdown_other]. repeat case_match; try by apply IH.
    simpl in E. apply lookup_delete_Some in E as [_ E]. by apply IH.
  - intros a' g' r' x E. apply justified_snoc; [by apply IH|by apply no_shutdown_other].
  - intros a' g' r' x E. simpl in E. apply lookup_delete_Some in E as [_ E].
    apply justified_snoc; [by apply IH|by apply no_shutdown_other].
Qed.

(** C22. A cached active route can be trusted: it was remembered under the project
    generation that was current then, no deployment changed anything since, every
    shutdown report that arrived since was about an older host, and the route was
    remembered, or the host was heard of, less than the liveness period ago. *)
Theorem cached_route_is_fresh ops now a r :
  len ops < 2 ^ 64 → route_get now a (route_run ops) = Some (Active r) →
  ∃ pre t g post, ops = pre ++ (t, Remember a r (Some g)) :: post ∧ g = generation (route_run pre) ∧
    (∀ t', (t', Deploy) ∉ post) ∧ no_shutdown a (identity_of (cached_placement r)) post ∧
    ∃ touched, alive_at a (identity_of (cached_placement r)) t post touched ∧ now < touched + LIVENESS_MS.
Proof.
  intros Hlen. unfold route_get, cache_get. destruct (entries (route_run ops) !! a) as [[[g e] x]|] eqn:E; [|done].
  destruct (N.ltb_spec now x) as [Hx|]; [|done]. unfold visible. simpl.
  destruct (N.eqb_spec g (generation (route_run ops))) as [Hg|Hg]; simpl; [|by destruct e].
  intros [= ->]. destruct (run_justified ops a g r x E) as (pre & t & post & Eo & Hpre & Hn & touched & Ht & ->).
  exists pre, t, g, post. split_and!; [done..| |done|eauto]. intros t' Hin.
  assert (deploys ops = deploys pre + deploys post) as Hd.
  { rewrite Eo. unfold deploys. rewrite List.filter_app, len_app. done. }
  assert (deploys ops ≤ len ops) as Hle.
  { unfold deploys, len. pose proof (List.filter_length_le (λ x : N * route_op, match snd x with Deploy => true | _ => false end) ops).
    lia. }
  assert (0 < deploys post) as Hpos.
  { unfold deploys, len. apply list_elem_of_In in Hin. destruct (List.filter _ post) eqn:Ef; [|simpl; lia].
    assert ((t', Deploy) ∈ ([] : list (N * route_op))) as ?%elem_of_nil; [|done].
    rewrite <- Ef. apply list_elem_of_In, filter_In. done. }
  rewrite Hpre, !run_generation, !N.mod_small in Hg by lia. lia.
Qed.

(** ** A witness *)

Definition demo_route_actor : ActorKey := {| project_id := b"p"; actor_name := b"n"; actor_id := b"7" |}.

Definition demo_route (host session : bytes) (epoch : N) : CachedRoute :=
  {| cached_placement :=
       {| place_lease := {| lease_id := host; session_id := session; route := b"http://h"; expires_at_ms := 60000 |};
          place_object := b"o"; place_owner := host; place_owner_epoch := epoch; home_region := b"canada";
          place_state_version := 0; state_object := None; last_request_id := None |};
     host_config_key := b"k"; overrides_regions := false |}.

Definition demo_host_report (k : LifecycleKind) (epoch seq : N) : LifecycleReport :=
  {| kind := k; owner_epoch := epoch; sequence := seq; started_at_ms := 0; occurred_at_ms := 0;
     resources := {| cpu_millis := 250; cpu_limit_millis := None; memory_mib := 256; memory_limit_mib := None |};
     resident := None; last_active_at_ms := None; waiting := [] |}.

(** A route is remembered under an old generation, which has no effect; then the
    host is found again, its predecessor reports that it stopped, and it is heard of. *)
Definition demo_route_ops : list (N * route_op) :=
  [(0, Deploy); (5, Remember demo_route_actor (demo_route (b"h1") (b"s1") 1) (Some 0));
   (10, Remember demo_route_actor (demo_route (b"h2") (b"s2") 2) (Some 1));
   (15, Report demo_route_actor (b"h1") (b"s1") (demo_host_report Stopped 1 9));
   (20, Report demo_route_actor (b"h2") (b"s2") (demo_host_report Heartbeat 2 3))].

Lemma cached_route_is_fresh_witness :
  ∃ pre t g post,
    demo_route_ops = pre ++ (t, Remember demo_route_actor (demo_route (b"h2") (b"s2") 2) (Some g)) :: post ∧
    ∀ t', (t', Deploy) ∉ post.
Proof.
  destruct (cached_route_is_fresh demo_route_ops 30010 demo_route_actor (demo_route (b"h2") (b"s2") 2))
    as (pre & t & g & post & E & _ & Hd & _); [vm_compute; reflexivity|vm_compute; reflexivity|].
  exists pre, t, g, post. split; [exact E|exact Hd].
Defined.
