(* ===== verification/Deployment.v ===== *)
(** * Deployments

    What a project deploys: regions ([src/src/control_plane/regions.rs]), the
    sandbox options of an actor ([contracts.rs]), the bundle of compiled code
    ([src/src/bundle.rs]) and the launch specification of its hosts with the key
    that tells two configurations apart ([admin.rs]). *)

From Stdlib Require Import ZArith Floats.SpecFloat.
From S2P Require Import Prelude Text Demo Names Effects Btree Lifecycle Residency LifecycleStore Admission.
Local Open Scope N_scope.

(** ** Regions *)

Definition ALL_REGIONS : list bytes :=
  [b"canada"; b"north-america-east"; b"north-america-central"; b"north-america-south"; b"north-america-west";
   b"europe-west"; b"asia-southeast"].

(** The Google Cloud regions whose zones are recognised. *)
Definition zoned_regions : list bytes :=
  [b"us-east1"; b"northamerica-northeast1"; b"northamerica-northeast2"; b"us-east4"; b"us-east5"; b"us-central1";
   b"us-south1"; b"us-west1"; b"us-west2"; b"us-west3"; b"us-west4"; b"europe-west1"; b"europe-west3";
   b"europe-west4"; b"asia-southeast1"; b"asia-southeast2"].

Definition region_table : list (list bytes * bytes) :=
  [([b"northamerica-northeast1"; b"northamerica-northeast2"], b"canada");
   ([b"us-east-1"; b"us-east-2"; b"us-east1"; b"us-east4"; b"us-east5"; b"us-ashburn-1"; b"eastus"; b"eastus2"],
    b"north-america-east");
   ([b"us-central1"; b"us-chicago-1"; b"centralus"; b"northcentralus"], b"north-america-central");
   ([b"us-south1"; b"southcentralus"], b"north-america-south");
   ([b"us-west-1"; b"us-west-2"; b"us-west1"; b"us-west2"; b"us-west3"; b"us-west4"; b"us-phoenix-1";
     b"us-sanjose-1"; b"westus"; b"westus2"; b"westus3"; b"westcentralus"], b"north-america-west");
   ([b"eu-west-1"; b"eu-west-3"; b"eu-central-1"; b"europe-west1"; b"europe-west3"; b"europe-west4";
     b"eu-frankfurt-1"; b"eu-paris-1"; b"westeurope"], b"europe-west");
   ([b"ap-southeast-1"; b"asia-southeast1"; b"asia-southeast2"; b"ap-singapore-1"; b"southeastasia"],
    b"asia-southeast")].

(** The region of a zone, or the name itself. *)
Definition zone_location (region : bytes) : bytes :=
  match rsplit_once x2d region with
  | Some (base, zone) =>
      if bool_decide (zone ∈ [b"a"; b"b"; b"c"; b"d"; b"f"]) && bool_decide (base ∈ zoned_regions) then base else region
  | None => region
  end.

Definition storage_region (region : bytes) : result bytes :=
  let location := zone_location region in
  if bool_decide (location ∈ ALL_REGIONS) then Ok region
  else
    match List.find (λ row, bool_decide (location ∈ fst row)) region_table with
    | Some (_, r) => Ok r
    | None => Err "workflow region has no storage-region mapping"
    end.

(** ** Sandbox options *)

(** [serde_json::Number] *)
Class JsonNumber (Number : Type) := as_f64 : Number → option f64.

Record SandboxOptions (Number : Type) := {
  sb_cpu : option Number;
  sb_cpu_limit : option Number;
  sb_memory_mib : option N;
  sb_memory_limit_mib : option N;
  sb_regions : option (list bytes);
  idle_timeout_ms : option N;
}.
Arguments sb_cpu {_} _.
Arguments sb_cpu_limit {_} _.
Arguments sb_memory_mib {_} _.
Arguments sb_memory_limit_mib {_} _.
Arguments sb_regions {_} _.
Arguments idle_timeout_ms {_} _.

(** [f64::round] as an integer: halves go away from zero. *)
Definition round_z (x : f64) : Z :=
  match x with
  | S754_finite s m e =>
      let r := match e with
               | Z.neg p => ((Z.pos m + 2 ^ (Z.pos p - 1)) / 2 ^ Z.pos p)%Z
               | _ => (Z.pos m * 2 ^ e)%Z
               end in
      if s then (- r)%Z else r
  | _ => 0%Z
  end.

Definition f64_round (x : f64) : f64 := binary_normalize 53 1024 (round_z x) 0 false.

(** [x.round() as u32]: saturating, and zero for not-a-number. *)
Definition round_u32 (x : f64) : N :=
  match x with
  | S754_infinity false => u32_max
  | _ => N.min (Z.to_N (round_z x)) u32_max
  end.

(** Bounds of resources an operator allows. *)
Record ResourceBounds := {
  cpu_range : N * N;
  memory_range : N * N;
}.

Definition default_bounds : ResourceBounds := {| cpu_range := (125, 4000); memory_range := (256, 4096) |}.

Definition default_resources : ResourceLimits :=
  {| cpu_millis := 250; cpu_limit_millis := None; memory_mib := 256; memory_limit_mib := Some 256 |}.

Definition in_range (r : N * N) (x : N) : bool := (fst r <=? x) && (x <=? snd r).

Section options.
Context {Number : Type} `{!JsonNumber Number}.
Abbreviation SandboxOptions := (SandboxOptions Number).

Definition default_options : SandboxOptions :=
  {| sb_cpu := None; sb_cpu_limit := None; sb_memory_mib := None; sb_memory_limit_mib := None; sb_regions := None;
     idle_timeout_ms := None |}.

Definition millis (cores : option Number) : option N :=
  c ← cores; x ← as_f64 c; Some (round_u32 (f64_mul x (f64_from 1000))).

Definition fill (request limit : option N) (default_request : N) (default_limit : option N) : N * option N :=
  match request, limit with
  | Some request, None => (request, (λ l, N.max l request) <$> default_limit)
  | None, Some limit => (N.min default_request limit, Some limit)
  | request, limit => (default default_request request, match limit with Some l => Some l | None => default_limit end)
  end.

Definition resources_of (o : SandboxOptions) (defaults : ResourceLimits) : ResourceLimits :=
  let '(cpu, cpu_limit) := fill (millis (sb_cpu o)) (millis (sb_cpu_limit o))
                             (cpu_millis defaults) (cpu_limit_millis defaults) in
  let '(memory, memory_limit) := fill (sb_memory_mib o) (sb_memory_limit_mib o)
                                   (memory_mib defaults) (memory_limit_mib defaults) in
  {| cpu_millis := cpu; cpu_limit_millis := cpu_limit; memory_mib := memory; memory_limit_mib := memory_limit |}.

Definition check_bounds (o : SandboxOptions) (bounds : ResourceBounds) : result unit :=
  foldM (λ _ x, ensure (in_range (cpu_range bounds) x) "sandbox CPU must be in the range of this server") ()
    (omap id [millis (sb_cpu o); millis (sb_cpu_limit o)]);;
  foldM (λ _ x, ensure (in_range (memory_range bounds) x) "sandbox memory must be in the range of this server") ()
    (omap id [sb_memory_mib o; sb_memory_limit_mib o]).

(** [0.1] and [1e-8] are the doubles nearest to these numbers. *)
Definition whole_millis (cpu : f64) : bool :=
  let x := f64_mul cpu (f64_from 1000) in
  SFleb (f64_div (f64_from 1) (f64_from 10)) cpu && SFleb cpu (f64_from 64) &&
  SFltb (SFabs (f64_sub x (f64_round x))) (f64_div (f64_from 1) (f64_from 100000000)).

Definition at_most (request limit : option N) : bool :=
  match request, limit with Some r, Some l => r <=? l | _, _ => true end.

Definition validate_options (o : SandboxOptions) : result unit :=
  foldM (λ _ cpu, cpu ← ctx (as_f64 cpu) "invalid sandbox CPU";
           ensure (whole_millis cpu) "sandbox CPU must be 0.1–64 cores in increments of 0.001") ()
    (omap id [sb_cpu o; sb_cpu_limit o]);;
  foldM (λ _ m, ensure (in_range (128, 262144) m) "sandbox memory must be 128–262144 MiB") ()
    (omap id [sb_memory_mib o; sb_memory_limit_mib o]);;
  ensure (at_most (millis (sb_cpu o)) (millis (sb_cpu_limit o))) "sandbox cpu must not exceed cpuLimit";;
  ensure (at_most (sb_memory_mib o) (sb_memory_limit_mib o)) "sandbox memoryMiB must not exceed memoryLimitMiB";;
  ensure (from_option (in_range (1, 86400000)) true (idle_timeout_ms o)) "sandbox idle timeout must be 1–86400000 ms";;
  ensure (from_option (λ rs, (rs != []) && bool_decide (NoDup rs) && forallb (λ r, bool_decide (r ∈ ALL_REGIONS)) rs)
            true (sb_regions o))
    "sandbox regions must be a nonempty list of unique supported regions".
End options.

(** ** Bundles *)

Inductive path_component := RootDir | CurDir | ParentDir | Normal (name : bytes).

#[global] Instance path_component_eq_dec : EqDecision path_component.
Proof. solve_decision. Defined.

(** [Path::components] on Unix: repeated slashes and inner dots vanish. *)
Definition path_part (s : bytes) : option path_component :=
  if (s == []) || (s == b".") then None else Some (if s == b".." then ParentDir else Normal s).

Definition components (path : bytes) : list path_component :=
  let parts := split x2f path in
  (if starts_with [x2f] path then [RootDir] else if head parts == Some (b".") then [CurDir] else [])
  ++ omap path_part parts.

Definition is_normal (p : path_component) : bool := match p with Normal _ => true | _ => false end.

Definition validate_path (path : bytes) : result unit :=
  ensure ((path != []) && forallb is_normal (components path)) "artifact path must stay inside the customer directory".

Record BundleFile := {
  file_path : bytes;
  file_object : bytes;
  file_generation : Z;
  file_sha256 : bytes;
}.

Record ActorBundle := {
  bundle_bucket : bytes;
  bundle_files : list BundleFile;
}.

(** [ActorBundle::entrypoint] *)
Definition bundle_entrypoint (u : ActorBundle) : result bytes :=
  match List.filter (λ f, (file_path f == b"actors.mjs") || (file_path f == b"actors.pyz")) (bundle_files u) with
  | [f] => Ok (file_path f)
  | _ => Err "actor artifact requires exactly one compiled entrypoint"
  end.

Section bundle.
Context `{Digest} `{Base64}.

(** The loop of [ActorBundle::validate]; [paths] are those seen so far. *)
Definition validate_file (paths : list bytes) (f : BundleFile) : result (list bytes) :=
  validate_path (file_path f);;
  ensure (negb (bool_decide (file_path f ∈ paths))) "duplicate artifact path";;
  ensure ((0 <? file_generation f)%Z && (file_object f != [])) "invalid artifact identity";;
  sha ← ctx (b64_decode (file_sha256 f)) "invalid base64";
  ensure (len sha =? 32) "invalid artifact identity";;
  Ok (file_path f :: paths).

Definition validate_bundle (u : ActorBundle) : result unit :=
  validate_bucket (bundle_bucket u);;
  foldM validate_file [] (bundle_files u);;
  bundle_entrypoint u;;
  Ok ().

Context `{!Json ActorBundle}.

Definition bundle_encode (u : ActorBundle) : result bytes :=
  validate_bundle u;;
  Ok (b"gcs:" ++ b64_encode (to_json u)).

Definition bundle_decode (encoded : bytes) : result ActorBundle :=
  s ← ctx (strip_prefix (b"gcs:") encoded) "GCS artifact reference required";
  j ← ctx (b64_decode s) "invalid base64";
  u ← ctx (from_json j) "invalid JSON";
  validate_bundle u;;
  Ok u.

(** A path below a directory, as the file system follows it. *)
Definition follow (dir : list bytes) (p : path_component) : list bytes :=
  match p with
  | RootDir => []
  | CurDir => dir
  | ParentDir => removelast dir
  | Normal s => dir ++ [s]
  end.

Definition destination (root : list bytes) (path : bytes) : list bytes := foldl follow root (components path).

(** The files of a host, by their path from the root. *)
Abbreviation file_tree := (gmap (list bytes) bytes).

(** [install_file]: the chunks go to a temporary file, which takes the place of the
    destination when the digest is right; a chunk may fail to arrive. *)
Definition install_file (root : list bytes) (artifact : BundleFile) (chunks : list (result bytes)) (t : file_tree)
    : result unit * file_tree :=
  let r :=
    validate_path (file_path artifact);;
    data ← foldM (λ acc c, chunk ← c; Ok (acc ++ chunk)) [] chunks;
    ensure (b64_encode (sha256 data) == file_sha256 artifact) "artifact digest mismatch";;
    Ok data in
  match r with
  | Ok data => (Ok (), <[destination root (file_path artifact) := data]> t)
  | Err e => (Err e, t)
  end.

(** [install]: downloads run four at a time and end in any order; the first error
    stops the others. [done] is the order in which they end. *)
Fixpoint install_each (root : list bytes) (read : BundleFile → list (result bytes)) (done : list BundleFile)
    (t : file_tree) : result unit * file_tree :=
  match done with
  | [] => (Ok (), t)
  | f :: done =>
      let '(r, t) := install_file root f (read f) t in
      match r with Ok _ => install_each root read done t | Err e => (Err e, t) end
  end.

Definition install (u : ActorBundle) (root : list bytes) (read : BundleFile → list (result bytes))
    (done : list BundleFile) (t : file_tree) : result unit * file_tree :=
  match validate_bundle u with
  | Ok _ => install_each root read done t
  | Err e => (Err e, t)
  end.
End bundle.

(** ** Launch specifications *)

Inductive ImagePolicy := PlatformImage | CustomImage.

Record HostLaunchSpec (Number : Type) := {
  sandboxes : list (bytes * SandboxOptions Number);
  spec_project_id : bytes;
  organization_id : bytes;
  image_policy : ImagePolicy;
  image_ref : bytes;
  code_snapshot : option bytes;
  working_directory : bytes;
  actor_entrypoint : option bytes;
  secret_refs : list bytes;
}.
Arguments sandboxes {_} _.
Arguments spec_project_id {_} _.
Arguments organization_id {_} _.
Arguments image_policy {_} _.
Arguments image_ref {_} _.
Arguments code_snapshot {_} _.
Arguments working_directory {_} _.
Arguments actor_entrypoint {_} _.
Arguments secret_refs {_} _.

Section spec.
Context {Number : Type} `{!JsonNumber Number}.
Context `{Digest} `{Base64} `{!Json ActorBundle}.
(** [serde_json::to_vec] of what identifies a configuration. *)
Context `{!Json (bytes * list bytes * bytes * option bytes * bytes * option bytes), !Json bytes,
          !Json (list (bytes * SandboxOptions Number))}.
Abbreviation HostLaunchSpec := (HostLaunchSpec Number).

(** [self.sandboxes.get(name)] of a [BTreeMap] *)
Definition sandbox_of (name : bytes) (spec : HostLaunchSpec) : option (SandboxOptions Number) :=
  snd <$> List.find (λ x, fst x == name) (sandboxes spec).

Definition spec_identity (spec : HostLaunchSpec) : bytes :=
  to_json (spec_project_id spec, secret_refs spec, image_ref spec, code_snapshot spec, working_directory spec,
           actor_entrypoint spec)
  ++ to_json (organization_id spec)
  ++ (if sandboxes spec is [] then [] else to_json (sandboxes spec)).

Definition config_key (spec : HostLaunchSpec) : bytes := b"cfg." ++ b64_encode (sha256 (spec_identity spec)).

Definition host_matches_config (host config : bytes) : bool := starts_with (b"host.v3." ++ config ++ b".") host.

Definition validate_spec (spec : HostLaunchSpec) : result unit :=
  foldM (λ _ x, validate_component "actor name" (fst x) 255;; validate_options (snd x)) () (sandboxes spec);;
  validate_component "project ID" (spec_project_id spec) 64;;
  validate_component "organization ID" (organization_id spec) 64;;
  match code_snapshot spec with
  | Some snapshot =>
      manifest ← bundle_decode snapshot;
      ensure (working_directory spec == b"/customer") "snapshot deployments must use /customer";;
      name ← bundle_entrypoint manifest;
      ensure (default (b"actors.mjs") (actor_entrypoint spec) == name)
        "compiled entrypoint must be actors.mjs or actors.pyz"
  | None => Ok ()
  end;;
  ensure ((image_ref spec != []) && (len (image_ref spec) <=? 255))
    "sandbox image reference must contain between 1 and 255 bytes";;
  ensure (starts_with [x2f] (working_directory spec) && (len (working_directory spec) <=? 1024))
    "host working directory must be an absolute path of at most 1024 bytes";;
  ensure (from_option (λ e, (e != []) && (len e <=? 1024)) true (actor_entrypoint spec))
    "actor entrypoint must contain between 1 and 1024 bytes";;
  ensure (len (secret_refs spec) <=? 16) "at most 16 secret references are allowed";;
  foldM (λ _ r, validate_component "secret reference" r 255) () (secret_refs spec).
End spec.

(** ** Resources *)

Definition fits (request : N) (limit : option N) : Prop := ∀ l, limit = Some l → request ≤ l.

Lemma fill_fits request limit default_request default_limit r l :
  at_most request limit = true → fits default_request default_limit →
  fill request limit default_request default_limit = (r, l) →
  fits r l ∧ (∀ x, request = Some x → r = x) ∧ (∀ x, limit = Some x → l = Some x).
Proof.
  unfold fill, fits. intros Hm Hd.
  destruct request as [q|], limit as [m|]; intros E; injection E as <- <-; simpl in *.
  - apply N.leb_le in Hm. naive_solver.
  - split_and!; [|naive_solver..]. intros l (x & _ & ->)%fmap_Some. lia.
  - split_and!; [|naive_solver..]. intros l [= <-]. lia.
  - split_and!; [done|naive_solver..].
Qed.

Lemma foldM_ensure {A} (p : A → bool) msg l u :
  foldM (λ _ x, ensure (p x) msg) () l = Ok u → Forall (λ x, p x = true) l.
Proof.
  induction l as [|x l IH]; simpl; [constructor|]. intros ([] & Hx%ensure_Ok & E)%bind_Ok.
  constructor; [done|]. by apply IH.
Qed.

(** Sandbox options that are accepted give consistent resources: whatever an
    actor asks for is granted as asked, the operator's defaults fill the rest, and
    no request exceeds its limit as long as the defaults are consistent. *)
Theorem resources_consistent {Number} `{!JsonNumber Number} (o : SandboxOptions Number) (d : ResourceLimits) :
  validate_options o = Ok () →
  fits (cpu_millis d) (cpu_limit_millis d) → fits (memory_mib d) (memory_limit_mib d) →
  let r := resources_of o d in
  fits (cpu_millis r) (cpu_limit_millis r) ∧ fits (memory_mib r) (memory_limit_mib r) ∧
  (∀ x, millis (sb_cpu o) = Some x → cpu_millis r = x) ∧
  (∀ x, millis (sb_cpu_limit o) = Some x → cpu_limit_millis r = Some x) ∧
  (∀ x, sb_memory_mib o = Some x → memory_mib r = x ∧ 128 ≤ x ≤ 262144) ∧
  (∀ x, sb_memory_limit_mib o = Some x → memory_limit_mib r = Some x ∧ 128 ≤ x ≤ 262144).
Proof.
  unfold validate_options. intros Hv Hc Hm. inv_ok. unfold resources_of.
  destruct (fill (millis _) _ _ _) as [c cl] eqn:Ec, (fill (sb_memory_mib o) _ _ _) as [m ml] eqn:Em.
  apply fill_fits in Ec as (Hc1 & Hc2 & Hc3); [|done..]. apply fill_fits in Em as (Hm1 & Hm2 & Hm3); [|done..].
  assert (∀ x, x ∈ omap id [sb_memory_mib o; sb_memory_limit_mib o] → 128 ≤ x ≤ 262144) as Hrange.
  { match goal with H : foldM _ _ (omap id [sb_memory_mib o; _]) = _ |- _ => pose proof (foldM_ensure _ _ _ _ H) as Hf end.
    intros y Hx. rewrite Forall_forall in Hf. specialize (Hf y Hx). unfold in_range in Hf. cbn [fst snd] in Hf.
    apply andb_true_iff in Hf as [?%N.leb_le ?%N.leb_le]. done. }
  simpl. split_and!; try done.
  - intros y Hx. split; [by apply Hm2|]. apply Hrange. rewrite Hx. by left.
  - intros y Hx. split; [by apply Hm3|]. apply Hrange. rewrite Hx. destruct (sb_memory_mib o); [right|]; by left.
Qed.

(** ** Bundles *)

Definition component_name (p : path_component) : list bytes := match p with Normal s => [s] | _ => [] end.

Lemma follow_normal dir cs :
  forallb is_normal cs = true → foldl follow dir cs = dir ++ (cs ≫= component_name) ∧
  (cs ≠ [] → cs ≫= component_name ≠ []).
Proof.
  revert dir. induction cs as [|c cs IH]; intros dir; simpl; [by rewrite app_nil_r|].
  intros [Hc Hcs]%andb_true_iff. destruct (IH (follow dir c) Hcs) as [-> _]. destruct c; try done. simpl.
  rewrite <- app_assoc. done.
Qed.

(** A path whose components are all normal has at least one. *)
Lemma components_nonempty path : path ≠ [] → components path ≠ [].
Proof.
  intros Hp. unfold components. destruct (starts_with [x2f] path) eqn:Es; [done|].
  destruct (split x2f path) as [|s parts] eqn:Ep; [by apply split_nonempty in Ep|].
  assert (s ≠ []) as Hs.
  { intros ->. destruct path as [|x path]; [done|]. simpl in Ep. unfold starts_with in Es.
    apply bool_decide_eq_false in Es. destruct (decide (x = x2f)) as [-> |Hne].
    - apply Es. by exists path.
    - simpl in *. repeat case_match; simplify_eq; try done; try by (apply bool_decide_eq_true in H; subst; done). }
  cbn [head omap list_omap]. unfold path_part at 1. rewrite (bool_decide_eq_false_2 (s = [])) by done. simpl.
  destruct (decide (s = b".")) as [-> |Hd]; [done|].
  rewrite (bool_decide_eq_false_2 (s = b".")) by done. simpl. by case_match.
Qed.

Lemma valid_destination root path :
  validate_path path = Ok () → ∃ names, names ≠ [] ∧ destination root path = root ++ names.
Proof.
  unfold validate_path, destination. intros Hv. inv_ok.
  destruct (follow_normal root (components path)) as [E Hn]; [done|]. rewrite E.
  eexists. split; [|done]. apply Hn. by apply components_nonempty.
Qed.

Section bundle_spec.
Context `{Digest} `{Base64}.

Lemma install_file_spec root f chunks t r t' :
  install_file root f chunks t = (r, t') →
  match r with
  | Ok _ => ∃ names data, names ≠ [] ∧ destination root (file_path f) = root ++ names ∧
      b64_encode (sha256 data) = file_sha256 f ∧ t' = <[destination root (file_path f) := data]> t
  | Err _ => t' = t
  end.
Proof.
  unfold install_file. destruct (validate_path (file_path f)) as [[]|] eqn:Ev; simpl; [|by intros [= <- <-]].
  destruct (foldM _ [] chunks) as [data|]; simpl; [|by intros [= <- <-]].
  destruct (decide (b64_encode (sha256 data) = file_sha256 f)) as [E|E].
  - rewrite bool_decide_eq_true_2 by done. simpl. intros [= <- <-].
    destruct (valid_destination root _ Ev) as (names & Hn & Ed). eauto 10.
  - rewrite bool_decide_eq_false_2 by done. simpl. by intros [= <- <-].
Qed.

(** What lies at [p] is a file of the bundle, checked against its digest. *)
Definition installed (files : list BundleFile) (root : list bytes) (t : gmap (list bytes) bytes) (p : list bytes) : Prop :=
  ∃ f names data, f ∈ files ∧ names ≠ [] ∧ p = root ++ names ∧ p = destination root (file_path f) ∧
    t !! p = Some data ∧ b64_encode (sha256 data) = file_sha256 f.

Lemma install_each_spec files root read done t r t' :
  done ⊆ files → install_each root read done t = (r, t') →
  (∀ p, t' !! p = t !! p ∨ installed files root t' p) ∧
  (r = Ok () → ∀ f, f ∈ done → installed files root t' (destination root (file_path f))).
Proof.
  revert t. induction done as [|f done IH]; intros t Hsub; simpl.
  { intros [= <- <-]. split; [by left|]. by intros _ f ?%elem_of_nil. }
  destruct (install_file root f (read f) t) as [rf tf] eqn:Ef. apply install_file_spec in Ef.
  destruct rf as [[]|e]; [|intros [= <- <-]; subst tf; split; [by left|done]].
  destruct Ef as (names & data & Hn & Ed & Es & ->). intros E.
  destruct (IH _ (λ x Hx, Hsub x (list_elem_of_further _ _ _ Hx)) E) as [Hp Hr].
  assert (∀ p, t' !! p = t !! p ∨ installed files root t' p) as Hall.
  { intros p. destruct (Hp p) as [Eq|]; [|by right].
    destruct (decide (destination root (file_path f) = p)) as [<- |Hne].
    - right. rewrite lookup_insert_eq in Eq. exists f, names, data. split_and!; try done. apply Hsub. by left.
    - left. by rewrite lookup_insert_ne in Eq. }
  split; [done|]. intros -> f' [-> |Hf']%elem_of_cons; [|by apply Hr].
  destruct (Hp (destination root (file_path f))) as [Eq|]; [|done].
  rewrite lookup_insert_eq in Eq. exists f, names, data. split_and!; try done. apply Hsub. by left.
Qed.

(** Installing a bundle writes only below the customer directory, whatever
    paths it names and however the downloads fail or end, and only files whose
    content has the digest of a file of the bundle; when it succeeds, every file
    of the bundle is there. *)
Theorem install_stays_inside u root read done t r t' :
  done ≡ₚ bundle_files u → install u root read done t = (r, t') →
  (∀ p, t' !! p = t !! p ∨ installed (bundle_files u) root t' p) ∧
  (r = Ok () → ∀ f, f ∈ bundle_files u → installed (bundle_files u) root t' (destination root (file_path f))).
Proof.
  intros Hd. unfold install. destruct (validate_bundle u); [|by intros [= <- <-]; split; [left|]].
  intros E. apply install_each_spec with (files := bundle_files u) in E as [Hp Hr].
  - split; [done|]. intros Er f Hf. apply Hr; [done|]. by rewrite Hd.
  - intros f. by rewrite Hd.
Qed.

Context `{!Base64Laws} `{!Json ActorBundle} `{!JsonLaws ActorBundle}.

Lemma bundle_roundtrip u s : bundle_encode u = Ok s → bundle_decode s = Ok u.
Proof.
  unfold bundle_encode, bundle_decode. intros ([] & Hv & [= <-])%bind_Ok.
  change (x67 :: x63 :: x73 :: x3a :: ?l) with (b"gcs:" ++ l).
  rewrite strip_prefix_app. simpl. rewrite b64_decode_encode. simpl. rewrite from_to_json. simpl. by rewrite Hv.
Qed.
End bundle_spec.

(** ** Configurations *)

Lemma prefix_before_dot (x y r : bytes) : x2e ∉ x → x2e ∉ y → (y ++ [x2e]) `prefix_of` (x ++ x2e :: r) → x = y.
Proof.
  intros Hx Hy [k E]. rewrite <- app_assoc in E. simpl in E.
  apply (f_equal (split_once x2e)) in E. rewrite !split_once_app in E by done. by simplify_eq.
Qed.

Lemma no_dot `{Base64Laws} s : x2e ∉ b64_encode s.
Proof. apply (Forall_not_elem (λ x, b64_char x = true)); [apply b64_alphabet|done]. Qed.

(** A host that was launched for a configuration is taken for a host of another
    deployment exactly if that has the same configuration key. *)
Theorem host_matches_own_config {Number} `{Digest} `{Base64} `{!Base64Laws}
    `{!Json (bytes * list bytes * bytes * option bytes * bytes * option bytes), !Json bytes,
      !Json (list (bytes * SandboxOptions Number))} (spec spec' : HostLaunchSpec Number) (uuid : bytes) :
  host_matches_config (b"host.v3." ++ config_key spec ++ b"." ++ uuid) (config_key spec') = true ↔
  config_key spec = config_key spec'.
Proof.
  unfold host_matches_config. rewrite starts_with_spec. split.
  - intros Hp. apply prefix_app_inv in Hp. unfold config_key in *. rewrite <- !app_assoc in Hp.
    apply prefix_app_inv in Hp. f_equal. eapply (prefix_before_dot _ _ uuid); [apply no_dot..|exact Hp].
  - intros ->. apply prefix_app. rewrite app_assoc. by eexists.
Qed.

(** ** Witnesses *)

Module Stand_in_numbers.
Export Stand_ins.

#[export] Instance number_f64 : JsonNumber f64 := λ x, Some x.

(** Serializers that keep what the witnesses tell apart. *)
#[export] Instance json_identity : Json (bytes * list bytes * bytes * option bytes * bytes * option bytes) :=
  {| to_json '(project, _, image, _, _, _) := project ++ [x2c] ++ image; from_json _ := None |}.
#[export] Instance json_text : Json bytes := {| to_json s := s; from_json s := Some s |}.
#[export] Instance json_sandboxes : Json (list (bytes * SandboxOptions f64)) :=
  {| to_json l := concat (fst <$> l); from_json _ := None |}.
End Stand_in_numbers.
Import Stand_in_numbers.

(** Half a core is asked for, and a memory limit. *)
Definition demo_options : SandboxOptions f64 :=
  {| sb_cpu := Some (f64_div (f64_from 1) (f64_from 2)); sb_cpu_limit := None; sb_memory_mib := None;
     sb_memory_limit_mib := Some 192; sb_regions := Some [b"canada"; b"europe-west"]; idle_timeout_ms := None |}.

Example demo_resources :
  resources_of demo_options default_resources =
  {| cpu_millis := 500; cpu_limit_millis := None; memory_mib := 192; memory_limit_mib := Some 192 |}.
Proof. vm_compute. reflexivity. Qed.

Lemma resources_consistent_witness :
  fits (memory_mib (resources_of demo_options default_resources))
    (memory_limit_mib (resources_of demo_options default_resources)).
Proof.
  apply (resources_consistent demo_options default_resources); [vm_compute; reflexivity|intros l E; discriminate E|].
  intros l E. injection E as <-. simpl. lia.
Defined.

Definition demo_content : bytes := b"export default 1".

Definition demo_bundle : ActorBundle :=
  {| bundle_bucket := b"artifacts";
     bundle_files := [{| file_path := b"actors.mjs"; file_object := b"o"; file_generation := 7;
                         file_sha256 := b64_encode (sha256 demo_content) |}] |}.

Example demo_paths :
  (is_ok ∘ validate_path <$> [b"a/../../etc"; b"/etc/passwd"; b"./a"; b""; b"a//./b"]) =
  [false; false; false; false; true].
Proof. vm_compute. reflexivity. Qed.

Lemma install_stays_inside_witness :
  installed (bundle_files demo_bundle) [b"customer"]
    (install demo_bundle [b"customer"] (λ _, [Ok (b"export "); Ok (b"default 1")]) (bundle_files demo_bundle) ∅).2
    [b"customer"; b"actors.mjs"].
Proof.
  assert (fst (install demo_bundle [b"customer"] (λ _, [Ok (b"export "); Ok (b"default 1")]) (bundle_files demo_bundle) ∅)
    = Ok ()) as E by (vm_compute; reflexivity).
  apply (proj2 (install_stays_inside demo_bundle _ _ (bundle_files demo_bundle) _ _ _ (reflexivity _) (answer_of _ _ E))
    eq_refl (default {| file_path := []; file_object := []; file_generation := 0; file_sha256 := [] |}
               (head (bundle_files demo_bundle)))).
  by left.
Defined.

Definition demo_spec (image : bytes) : HostLaunchSpec f64 :=
  {| sandboxes := [(b"room", demo_options)]; spec_project_id := b"p"; organization_id := b"o";
     image_policy := CustomImage; image_ref := image; code_snapshot := None; working_directory := b"/srv";
     actor_entrypoint := None; secret_refs := [] |}.

Lemma host_matches_own_config_witness :
  host_matches_config (b"host.v3." ++ config_key (demo_spec (b"i:1")) ++ b"." ++ b"u") (config_key (demo_spec (b"i:1"))) = true ∧
  config_key (demo_spec (b"i:1")) ≠ config_key (demo_spec (b"i:2")).
Proof.
  split; [|vm_compute; discriminate].
  apply (host_matches_own_config (demo_spec (b"i:1")) (demo_spec (b"i:1")) (b"u")). reflexivity.
Defined.
