(* ===== verification/Routing.v ===== *)
(** * Finding or starting the host of an actor

    The routing of [src/src/control_plane/service.rs]: a cached route is used if
    there is one; otherwise the deployment and the stored owner decide whether the
    owner's host is still good or a new one is started, in the regions the
    deployment allows. Timings and log lines are left out. *)

From S2P Require Import Prelude Text Demo Names Payload StateLog Effects Btree Concurrency Buckets Recovery Runtime Lifecycle Residency LifecycleStore Admission Routes Deployment.
Local Open Scope N_scope.

Definition FALLBACK_REGION : bytes := b"north-america-central".

(** The errors that callers tell apart with [error.is]; any other is an [Err]. *)
Inductive routing_error :=
| RegionConflict
| ShuttingDownHost (lease : HostLease) (id : RouteIdentity)
| AssignmentOutcomeUnknown
| AdmissionFailure
| AccessIsDisabled.

(** A request of the control plane: its answer or a typed error, or it fails. *)
Definition service (L A : Type) : Type := prog L (A + routing_error).

Section service_monad.
Context {L : Type}.

#[global] Instance service_ret : MRet (service L) := λ A a, (mret (M:=prog L) (inl a)).
#[global] Instance service_bind : MBind (service L) := λ A B f m,
  mbind (M:=prog L) (λ r, match r with inl a => f a | inr e => mret (M:=prog L) (inr e) end) m.

Definition raise {A} (e : routing_error) : service L A := mret (M:=prog L) (inr e).
(** A call whose errors are not told apart, with [?]. *)
Definition await_call {A} (p : prog L A) : service L A := mbind (M:=prog L) (λ a, mret (M:=prog L) (inl a)) p.
Definition checked {A} (r : result A) : service L A := await_call (lift r).
(** [match call.await { Ok(..) => .., Err(error) => .. }] *)
Definition try_call {A} (p : service L A) : service L (result (A + routing_error)) := await_call (attempt p).
(** Hands an error on. *)
Definition rethrow {A} (r : result (A + routing_error)) : service L A := lift r.
End service_monad.

Inductive HostState := Cold | Warm.

Record RoutedActor (Value : Type) := {
  routed_reply : option Value;
  routed_state : HostState;
  routed_placement : ObjectPlacement;
  routed_config_key : bytes;
}.
Arguments routed_reply {_} _.
Arguments routed_state {_} _.
Arguments routed_placement {_} _.
Arguments routed_config_key {_} _.

Record ActorTarget (Value : Type) := {
  target_reply : option Value;
  target_state : HostState;
  target_region : bytes;
  target_route : bytes;
  target_token : bytes;
  target_epoch : N;
  target_identity : RouteIdentity;
}.
Arguments target_reply {_} _.
Arguments target_state {_} _.
Arguments target_region {_} _.
Arguments target_route {_} _.
Arguments target_token {_} _.
Arguments target_epoch {_} _.
Arguments target_identity {_} _.

(** The state of the process that holds the routes. *)
Class HasRoutes (L : Type) := {
  get_routes : L → MemoryRoutes;
  set_routes : MemoryRoutes → L → L;
}.

Definition with_state {V} (s : HostState) (t : RoutedActor V) : RoutedActor V :=
  {| routed_reply := routed_reply t; routed_state := s; routed_placement := routed_placement t;
     routed_config_key := routed_config_key t |}.

(** ** Where an actor may be placed *)

Section regions.
Context {Number : Type} `{Digest} `{!Json (ActorKey * bytes)}.

(** The regions a deployment pins an actor to. *)
Definition pinned_regions (spec : HostLaunchSpec Number) (actor : ActorKey) : option (list bytes) :=
  o ← sandbox_of (actor_name actor) spec; sb_regions o.

Definition select_target_region (current : option ObjectPlacement) (requested : bytes) : result bytes :=
  match current with
  | Some p => Ok (home_region p)
  | None =>
      let region := match storage_region requested with Ok r => r | Err _ => FALLBACK_REGION end in
      validate_region region;;
      Ok region
  end.

(** The key by which [sort_by_cached_key] orders the regions. *)
Definition region_key (actor : ActorKey) (requested region : bytes) : bool * bytes :=
  (region != requested, sha256 (to_json (actor, region))).

Definition region_leb (actor : ActorKey) (requested x y : bytes) : bool :=
  let '(kx, dx) := region_key actor requested x in
  let '(ky, dy) := region_key actor requested y in
  if Bool.eqb kx ky then bytes_leb dx dy else negb kx.

Definition placement_regions (spec : HostLaunchSpec Number) (actor : ActorKey) (requested : bytes)
    (assignment : option bytes) (current : option ObjectPlacement) : result (list bytes + routing_error) :=
  let allowed := pinned_regions spec actor in
  match (match assignment with Some r => Some r | None => home_region <$> current end) with
  | Some region =>
      if from_option (λ rs, negb (bool_decide (region ∈ rs))) false allowed then Ok (inr RegionConflict)
      else Ok (inl [region])
  | None =>
      requested ← select_target_region None requested;
      match allowed with
      | None => Ok (inl [requested])
      | Some rs => Ok (inl (sort_by (region_leb actor requested) rs))
      end
  end.
End regions.

Section routing.
Context {L Number Operation Value : Type} `{!HasRoutes L}.
Context `{Digest} `{Base64} `{!Json (ActorKey * bytes)}.
Context `{!Json (bytes * list bytes * bytes * option bytes * bytes * option bytes), !Json bytes,
          !Json (list (bytes * SandboxOptions Number))}.
Abbreviation HostLaunchSpec := (HostLaunchSpec Number).
Abbreviation RoutedActor := (RoutedActor Value).
Abbreviation ActorTarget := (ActorTarget Value).

(** The traits the service is built on: the registry of deployments, the stored
    placements, the provisioner of hosts and the issuer of tokens. *)
Context (launch_spec : bytes → prog L (option HostLaunchSpec)).
Context (organization_access_enabled : option bytes → prog L bool).
Context (get_owner_with_hint : bytes → prog L (option ObjectPlacement * option OwnershipHint)).
Context (provision_host : HostLaunchSpec → bytes → ActorKey → bool → option OwnershipHint → option Operation →
                          service L (HostLease * N * option Value)).
Context (wait_ready : bytes → prog L unit).
Context (issue_invocation_target : ActorKey → ObjectPlacement → bytes → result bytes).
Context (sleep_ms : N → prog L unit).
(** [ControlPlaneService::region] *)
Context (self_region : option bytes).

Definition default_region : bytes := default FALLBACK_REGION self_region.

Definition validate_home_region (assignment : option bytes) : result unit :=
  match assignment with Some r => validate_region r | None => Ok () end.

(** An operation on the route cache, at the time it is made. *)
Definition routes_op {X} (f : N → MemoryRoutes → X * MemoryRoutes) : prog L X :=
  now ← instant;
  atomic (λ l, let '(x, m) := f now (get_routes l) in (x, set_routes m l)).

Definition routes_get (actor : ActorKey) : prog L (option RouteEntry) :=
  routes_op (λ now m, (route_get now actor m, m)).
Definition routes_generation : prog L (option N) := routes_op (λ _ m, (Some (generation m), m)).
Definition routes_remember (actor : ActorKey) (r : CachedRoute) (g : option N) : prog L unit :=
  routes_op (λ now m, ((), route_remember now actor r g m)).

Definition runtime_deployment (project : bytes) : service L (option HostLaunchSpec) :=
  spec ← await_call (launch_spec project);
  enabled ← await_call (organization_access_enabled (organization_id <$> spec));
  if enabled : bool then mret spec else raise AccessIsDisabled.

Definition cached_of (overrides : bool) (t : RoutedActor) : CachedRoute :=
  {| cached_placement := routed_placement t; host_config_key := routed_config_key t; overrides_regions := overrides |}.

Definition active_target (actor : ActorKey) (current : option ObjectPlacement) (spec : HostLaunchSpec)
    : service L (option RoutedActor) :=
  match current with
  | None => mret None
  | Some p =>
      if negb (host_matches_config (place_owner p) (config_key spec)) then mret None
      else
        let lease := place_lease p in
        if lease_id lease != place_owner p then mret None
        else
          now ← await_call now_ms;
          if expires_at_ms lease <=? now then mret None
          else
            let id := identity_of p in
            e ← await_call (routes_get actor);
            match e with
            | Some (RouteDraining i) | Some (RouteStopped i) =>
                if i == id then raise (ShuttingDownHost lease id)
                else
                  await_call (wait_ready (place_owner p));;
                  mret (Some {| routed_reply := None; routed_state := Warm; routed_placement := p;
                                routed_config_key := config_key spec |})
            | _ =>
                await_call (wait_ready (place_owner p));;
                mret (Some {| routed_reply := None; routed_state := Warm; routed_placement := p;
                              routed_config_key := config_key spec |})
            end
  end.

Definition ensure_actor_host (actor : ActorKey) (spec : HostLaunchSpec) (current : option ObjectPlacement)
    (requested_region : bytes) (hint : option OwnershipHint) (operation : option Operation) : service L RoutedActor :=
  let region := from_option home_region requested_region current in
  '(lease, owner_epoch, reply) ← provision_host spec region actor (bool_decide (current = None)) hint operation;
  checked (ensure (0 <? owner_epoch) "host readiness returned no ownership epoch");;
  mret {| routed_reply := reply; routed_state := Cold;
          routed_placement :=
            {| place_lease := lease; place_object := storage_key actor; place_owner := lease_id lease;
               place_owner_epoch := owner_epoch; home_region := region; place_state_version := 0;
               state_object := None; last_request_id := None |};
          routed_config_key := config_key spec |}.

(** The loop of [provision_in_regions]; [all] are all the regions. [get_owner] is
    [get_owner_with_hint] without the hint ([src/src/placement.rs]). *)
Fixpoint provision_from (actor : ActorKey) (spec : HostLaunchSpec) (current : option ObjectPlacement)
    (hint : option OwnershipHint) (all : list bytes) (operation : option Operation) (regions : list bytes)
    (last_error : option (result (RoutedActor + routing_error))) : service L RoutedActor :=
  match regions with
  | [] =>
      match last_error with
      | Some e => rethrow e
      | None => checked (Err "actor has no eligible sandbox region")
      end
  | region :: regions =>
      r ← try_call (ensure_actor_host actor spec current region hint operation);
      match r with
      | Ok (inl target) => mret target
      | Ok (inr AssignmentOutcomeUnknown) => raise AssignmentOutcomeUnknown
      | Ok (inr AdmissionFailure) => raise AdmissionFailure
      | error =>
          '(now_owned, _) ← await_call (get_owner_with_hint (storage_key actor));
          match now_owned with
          | Some p =>
              if negb (bool_decide (home_region p ∈ all)) then raise RegionConflict
              else
                target ← active_target actor now_owned spec;
                match target with
                | Some target => mret (with_state Cold target)
                | None => rethrow error
                end
          | None => provision_from actor spec current hint all operation regions (Some error)
          end
      end
  end.

Definition provision_in_regions (actor : ActorKey) (spec : HostLaunchSpec) (current : option ObjectPlacement)
    (hint : option OwnershipHint) (regions : list bytes) (operation : option Operation) : service L RoutedActor :=
  provision_from actor spec current hint regions operation regions None.

Definition route_actor (actor : ActorKey) (storage_region : bytes) (assigned : option bytes)
    (operation : option Operation) : service L RoutedActor :=
  checked (validate_home_region assigned);;
  generation ← await_call routes_generation;
  found ← runtime_deployment (project_id actor);
  spec ← checked (ctx found "project has no registered actor code");
  let overrides := bool_decide (is_Some (pinned_regions spec actor)) in
  if negb overrides && match self_region, assigned with Some d, Some a => d != a | _, _ => false end
  then raise RegionConflict
  else
    '(current, hint) ← await_call (get_owner_with_hint (storage_key actor));
    if match assigned, current with Some a, Some p => a != home_region p | _, _ => false end
    then raise RegionConflict
    else
      regions ← (lift (placement_regions spec actor storage_region assigned current) : service L (list bytes));
      active ← active_target actor current spec;
      match active with
      | Some target =>
          await_call (routes_remember actor (cached_of overrides target) generation);;
          mret target
      | None =>
          target ← provision_in_regions actor spec current hint regions operation;
          await_call (routes_remember actor (cached_of overrides target) generation);;
          mret target
      end.

(** [wait_for_shutdown]: looks every quarter of a second whether the host has gone;
    [turns] bounds how often. *)
Fixpoint wait_for_shutdown (turns : nat) (actor : ActorKey) (lease : HostLease) (id : RouteIdentity) : prog L unit :=
  match turns with
  | O => lift (Err "actor host is still shutting down; retry discovery")
  | S turns =>
      sleep_ms 250;;
      now ← now_ms;
      if expires_at_ms lease <=? now then mret ()
      else
        e ← routes_get actor;
        match e with
        | Some (RouteDraining i) => if i == id then wait_for_shutdown turns actor lease id else mret ()
        | _ => mret ()
        end
  end.

(** [route_actor_when_ready]: at most [turns] times around, as each takes at least
    the quarter of a second that a host is waited for. *)
Fixpoint route_actor_when_ready (turns : nat) (actor : ActorKey) (storage_region : bytes) (assigned : option bytes)
    (operation : option Operation) : service L RoutedActor :=
  match turns with
  | O => checked (Err "actor host is still shutting down; retry discovery")
  | S turns =>
      r ← try_call (route_actor actor storage_region assigned operation);
      match r with
      | Ok (inr (ShuttingDownHost lease id)) =>
          await_call (deadline "actor host is still shutting down; retry discovery"
                        (wait_for_shutdown (S turns) actor lease id));;
          route_actor_when_ready turns actor storage_region assigned operation
      | r => rethrow r
      end
  end.

Definition issue_actor_target (actor : ActorKey) (t : RoutedActor) : service L ActorTarget :=
  token ← checked (issue_invocation_target actor (routed_placement t) (routed_config_key t));
  let p := routed_placement t in
  mret {| target_reply := routed_reply t; target_state := routed_state t; target_region := home_region p;
          target_route := route (place_lease p); target_token := token; target_epoch := place_owner_epoch p;
          target_identity := identity_of p |}.

(** Half a minute of quarters of a second. *)
Definition REQUEST_TURNS : nat := 121.

Definition resolve_actor_route (actor : ActorKey) (assigned : option bytes) (operation : option Operation)
    : service L ActorTarget :=
  checked (validate_actor actor);;
  checked (validate_home_region assigned);;
  e ← await_call (routes_get actor);
  match e with
  | Some (Active cached) =>
      if match assigned with
         | Some a => (a != home_region (cached_placement cached)) ||
                     (negb (overrides_regions cached) && from_option (λ d, d != a) false self_region)
         | None => false
         end
      then raise RegionConflict
      else issue_actor_target actor {| routed_reply := None; routed_state := Warm;
             routed_placement := cached_placement cached; routed_config_key := host_config_key cached |}
  | _ =>
      target ← route_actor_when_ready REQUEST_TURNS actor default_region assigned operation;
      r ← try_call (issue_actor_target actor target);
      match r with
      | Ok (inl t) => mret t
      | error => if routed_reply target is Some _ then raise AssignmentOutcomeUnknown else rethrow error
      end
  end.
End routing.

(** ** What a request can answer *)

(** [J] is what the requests of a process keep true of its state: a program holds
    [Q] if from any state where [J] holds it answers as [Q] says and keeps [J] at
    every step, provided the other requests do. *)
Section keeping.
Context {L : Type} (J : L → Prop).

Definition kept_by (w w' : world L) : Prop := J (local w) → J (local w').

#[global] Instance kept_by_preorder : PreOrder kept_by.
Proof. split; unfold kept_by; [intros w; done|intros x y z; auto]. Qed.

Definition holds {A} (p : prog L A) (Q : result A → Prop) : Prop :=
  ∀ w, J (local w) → wp kept_by kept_by p (λ r w', J (local w') ∧ Q r) w.

Lemma holds_mono {A} (p : prog L A) (Q Q' : result A → Prop) : holds p Q → (∀ r, Q r → Q' r) → holds p Q'.
Proof. intros Hp HQ w Hw. eapply wp_mono; [by apply Hp|]. intros r w' []. auto. Qed.

Lemma holds_lift {A} (r : result A) (Q : result A → Prop) : Q r → holds (lift r) Q.
Proof. intros HQ w Hw. by apply wp_lift. Qed.

Lemma keeping_bind {A B} (p : prog L A) (f : A → prog L B) Q :
  holds p (λ r, match r with Ok a => holds (f a) Q | Err e => Q (Err e) end) → holds (p ≫= f) Q.
Proof.
  intros Hp w Hw. apply wp_bind. eapply wp_mono; [by apply Hp|]. intros [a|e] w' [HJ Hr]; [by apply Hr|done].
Qed.

Lemma holds_attempt {A} (p : prog L A) (Q : result A → Prop) :
  holds p Q → holds (attempt p) (λ r, ∀ x, r = Ok x → Q x).
Proof.
  intros Hp w Hw. apply wp_attempt. eapply wp_mono; [by apply Hp|]. intros r w' [HJ Hr]. split; [done|]. by intros x [= <-].
Qed.

Lemma holds_perform (o : op L) :
  (∀ w x w', step o w x w' → local w' = local w) → holds (perform o) (λ _, True).
Proof.
  intros Ho w Hw. apply wp_perform. intros w1 HR x w2 Hs. apply Ho in Hs. unfold kept_by in *. rewrite Hs. auto.
Qed.

Lemma holds_atomic {X} (f : L → X * L) (Q : result X → Prop) :
  (∀ l, J l → J (f l).2 ∧ Q (Ok (f l).1)) → holds (atomic f) Q.
Proof.
  intros Hf w Hw. apply wp_perform. intros w1 HR x w2 [-> ->]. unfold kept_by in *. simpl.
  split; [intros Hl; by apply Hf|]. apply Hf. auto.
Qed.

Lemma holds_deadline {A} e (p : prog L A) : holds p (λ _, True) → holds (deadline e p) (λ _, True).
Proof.
  intros Hp w Hw. apply (wp_deadline_inv kept_by kept_by e p (λ w, J (local w))).
  - intros w1 w2 ->. by unfold kept_by.
  - intros r w1 w2 [HJ _] HR. split; [by apply HR|done].
  - intros w1 w2 HJ HR. by apply HR.
  - intros w1 w2 HJ HG. by apply HG.
  - done.
  - done.
  - by apply Hp.
Qed.

Definition keeps {A} (p : prog L A) : Prop := holds p (λ _, True).

Lemma keeps_now : keeps now_ms.
Proof. apply holds_perform. by intros w x w' [-> _]. Qed.
Lemma keeps_instant : keeps instant.
Proof. apply holds_perform. by intros w x w' [-> _]. Qed.

(** A request that answers says [Q] of its answer. *)
Definition answers {A} (p : service L A) (Q : A → Prop) : Prop :=
  holds p (λ r, match r with Ok (inl a) => Q a | _ => True end).

Lemma answers_mono {A} (p : service L A) (Q Q' : A → Prop) : answers p Q → (∀ a, Q a → Q' a) → answers p Q'.
Proof. intros Hp HQ. eapply holds_mono; [exact Hp|]. intros [[a|e]|e]; auto. Qed.

Lemma answers_ret {A} (a : A) (Q : A → Prop) : Q a → answers (mret a) Q.
Proof. intros HQ. by apply holds_lift. Qed.

Lemma answers_raise {A} e (Q : A → Prop) : answers (raise e) Q.
Proof. by apply holds_lift. Qed.

Lemma answers_lift {A} (r : result (A + routing_error)) (Q : A → Prop) :
  (∀ a, r = Ok (inl a) → Q a) → answers (lift r : service L A) Q.
Proof. intros HQ. apply holds_lift. destruct r as [[a|e]|e]; auto. Qed.

Lemma answers_bind {A B} (p : service L A) (f : A → service L B) Q :
  answers p (λ a, answers (f a) Q) → answers (p ≫= f) Q.
Proof.
  intros Hp. apply keeping_bind. eapply holds_mono; [exact Hp|]. intros [[a|e]|e]; [auto| |auto].
  intros _. by apply holds_lift.
Qed.

Lemma answers_await {A B} (p : prog L A) (f : A → service L B) (P : result A → Prop) Q :
  holds p P → (∀ a, P (Ok a) → answers (f a) Q) → answers (await_call p ≫= f) Q.
Proof.
  intros Hp Hf. apply answers_bind, keeping_bind. eapply holds_mono; [exact Hp|].
  intros [a|e] Ha; [|done]. apply holds_lift. auto.
Qed.

(** A call of which only matters that it keeps [J]. *)
Lemma answers_then {A B} (p : prog L A) (f : A → service L B) Q :
  keeps p → (∀ a, answers (f a) Q) → answers (await_call p ≫= f) Q.
Proof. intros Hp Hf. eapply answers_await; [exact Hp|]. auto. Qed.

Lemma answers_checked {A B} (r : result A) (f : A → service L B) Q :
  (∀ a, r = Ok a → answers (f a) Q) → answers (checked r ≫= f) Q.
Proof.
  intros Hf. apply (answers_await _ _ (λ x, x = r)); [by apply holds_lift|]. intros a Ha. by apply Hf.
Qed.

Lemma answers_try {A B} (p : service L A) (f : result (A + routing_error) → service L B) P Q :
  answers p P → (∀ r, (∀ a, r = Ok (inl a) → P a) → answers (f r) Q) → answers (try_call p ≫= f) Q.
Proof.
  intros Hp Hf. eapply answers_await; [apply holds_attempt, Hp|]. intros r Hr. apply Hf. intros a ->.
  by specialize (Hr _ eq_refl).
Qed.
End keeping.

(** ** The order of regions *)

Section region_order.
Context {Number : Type} `{Digest} `{!Json (ActorKey * bytes)}.
Context (actor : ActorKey) (requested : bytes).

Lemma region_leb_total x y : region_leb actor requested x y = true ∨ region_leb actor requested y x = true.
Proof.
  unfold region_leb, region_key. destruct (x != requested), (y != requested); simpl; auto; apply bytes_leb_total.
Qed.

Lemma region_leb_trans x y z :
  region_leb actor requested x y = true → region_leb actor requested y z = true → region_leb actor requested x z = true.
Proof.
  unfold region_leb, region_key. destruct (x != requested), (y != requested), (z != requested); simpl; try done;
    apply bytes_leb_trans.
Qed.

(** Without an assignment or an owner, the regions a deployment pins an actor
    to are all tried, each as often as it is listed, and the region that was
    requested comes first if it is one of them. *)
Theorem placement_regions_order (spec : HostLaunchSpec Number) region rs :
  pinned_regions spec actor = Some rs → select_target_region None region = Ok requested →
  ∃ order, placement_regions spec actor region None None = Ok (inl order) ∧ order ≡ₚ rs ∧
    (requested ∈ rs → head order = Some requested).
Proof.
  intros Hp Hs. unfold placement_regions. rewrite Hp. cbn [from_option]. simpl fmap. cbv beta iota.
  rewrite Hs. exists (sort_by (region_leb actor requested) rs). split_and!; [done|apply sort_by_perm|].
  intros Hin. apply (elem_of_sort_by (region_leb actor requested)) in Hin.
  pose proof (sort_by_sorted _ region_leb_total region_leb_trans rs) as Hsorted.
  destruct (sort_by _ rs) as [|x l]; [by apply elem_of_nil in Hin|]. simpl.
  apply elem_of_cons in Hin as [-> |Hin]; [done|]. apply StronglySorted_inv in Hsorted as [_ Hx].
  rewrite Forall_forall in Hx. specialize (Hx requested Hin).
  unfold leP, region_leb, region_key in Hx. rewrite (bool_decide_eq_true_2 (requested = requested)) in Hx by done.
  simpl in Hx. destruct (decide (x = requested)) as [-> |Hne]; [done|].
  by rewrite bool_decide_eq_false_2 in Hx.
Qed.
End region_order.

(** ** Where a request is routed *)

Section routing_spec.
Context {L Number Operation Value : Type} `{!HasRoutes L}.
Context `{Digest} `{Base64} `{!Json (ActorKey * bytes)}.
Context `{!Json (bytes * list bytes * bytes * option bytes * bytes * option bytes), !Json bytes,
          !Json (list (bytes * SandboxOptions Number))}.
Context (launch_spec : bytes → prog L (option (HostLaunchSpec Number))).
Context (organization_access_enabled : option bytes → prog L bool).
Context (get_owner_with_hint : bytes → prog L (option ObjectPlacement * option OwnershipHint)).
Context (provision_host : HostLaunchSpec Number → bytes → ActorKey → bool → option OwnershipHint → option Operation →
                          service L (HostLease * N * option Value)).
Context (wait_ready : bytes → prog L unit).
Context (issue_invocation_target : ActorKey → ObjectPlacement → bytes → result bytes).
Context (sleep_ms : N → prog L unit).
Context (self_region : option bytes).

(** What the registry may answer for a project. *)
Context (deployed : bytes → HostLaunchSpec Number → Prop).

(** A placement a deployment allows for a request with this assignment. *)
Definition region_allowed (spec : HostLaunchSpec Number) (actor : ActorKey) (assigned : option bytes) (region : bytes) : Prop :=
  (∀ a, assigned = Some a → region = a) ∧
  match pinned_regions spec actor with
  | Some rs => region ∈ rs
  | None => ∀ a d, assigned = Some a → self_region = Some d → a = d
  end.

(** The host is new and owns the actor under a positive epoch, or it is a stored
    owner's and was launched for this configuration. *)
Definition own_host (spec : HostLaunchSpec Number) (p : ObjectPlacement) : Prop :=
  (0 < place_owner_epoch p ∧ place_owner p = lease_id (place_lease p)) ∨
  host_matches_config (place_owner p) (config_key spec) = true.

Definition well_routed (spec : HostLaunchSpec Number) (actor : ActorKey) (assigned : option bytes)
    (t : RoutedActor Value) : Prop :=
  region_allowed spec actor assigned (home_region (routed_placement t)) ∧
  routed_config_key t = config_key spec ∧ own_host spec (routed_placement t).

(** The routes a process has cached are routes to where deployments allow them. *)
Definition route_allowed (actor : ActorKey) (r : CachedRoute) : Prop :=
  ∃ spec, deployed (project_id actor) spec ∧ host_config_key r = config_key spec ∧ own_host spec (cached_placement r) ∧
    overrides_regions r = bool_decide (is_Some (pinned_regions spec actor)) ∧
    ∀ rs, pinned_regions spec actor = Some rs → home_region (cached_placement r) ∈ rs.

Definition routes_allowed (l : L) : Prop :=
  ∀ actor g r x, entries (get_routes l) !! actor = Some ({| stamp := g; entry := Active r |}, x) → route_allowed actor r.

Abbreviation answers := (answers routes_allowed).
Abbreviation keeps := (keeps routes_allowed).

(** The state of the process holds the routes, and the traits leave them alone. *)
Hypothesis routes_held : ∀ m l, get_routes (set_routes m l) = m.
Hypothesis registry_answers : ∀ project,
  holds routes_allowed (launch_spec project) (λ r, ∀ spec, r = Ok (Some spec) → deployed project spec).
Hypothesis access_keeps : ∀ o, keeps (organization_access_enabled o).
Hypothesis owner_keeps : ∀ key, keeps (get_owner_with_hint key).
Hypothesis provision_keeps : ∀ spec region actor new hint op, keeps (provision_host spec region actor new hint op).
Hypothesis ready_keeps : ∀ host, keeps (wait_ready host).
Hypothesis sleep_keeps : ∀ ms, keeps (sleep_ms ms).
#[local] Hint Resolve access_keeps owner_keeps ready_keeps sleep_keeps keeps_now : core.

Lemma holds_routes_op {X} (f : N → MemoryRoutes → X * MemoryRoutes) (Q : result X → Prop) :
  (∀ now l, routes_allowed l → (∀ l', get_routes l' = (f now (get_routes l)).2 → routes_allowed l') ∧
     Q (Ok (f now (get_routes l)).1)) →
  (∀ e, Q (Err e)) → holds routes_allowed (routes_op f) Q.
Proof.
  intros Hf He. unfold routes_op. apply keeping_bind. eapply holds_mono; [apply keeps_instant|].
  intros [now|e] _; [|done]. apply holds_atomic. intros l Hl. destruct (Hf now l Hl) as [Hs HQ].
  destruct (f now (get_routes l)) as [x m]. simpl in *. split; [|done]. apply Hs, routes_held.
Qed.

Lemma routes_get_holds actor :
  holds routes_allowed (routes_get actor) (λ r, ∀ c, r = Ok (Some (Active c)) → route_allowed actor c).
Proof.
  apply holds_routes_op; [|done]. intros now l Hl. simpl. split.
  - intros l' E. unfold routes_allowed in *. by rewrite E.
  - intros c [= E]. unfold route_get, cache_get in E. destruct (entries (get_routes l) !! actor) as [[[g e] x]|] eqn:El; [|done].
    repeat case_match; simplify_eq/=. exact (Hl _ _ _ _ El).
Qed.

Lemma routes_get_keeps actor : keeps (routes_get actor).
Proof. eapply holds_mono; [apply routes_get_holds|done]. Qed.

Lemma generation_keeps : keeps routes_generation.
Proof.
  apply holds_routes_op; [|done]. intros now l Hl. split; [|done]. intros l' E. unfold routes_allowed in *. by rewrite E.
Qed.

Lemma remember_keeps actor r g : route_allowed actor r → keeps (routes_remember actor r g).
Proof.
  intros Hr. apply holds_routes_op; [|done]. intros now l Hl. split; [|done]. intros l' E a g' r' x. rewrite E. simpl.
  unfold route_remember. destruct g as [g|]; [|by apply Hl].
  destruct (route_entries_write now actor (Active r) (Some g) (get_routes l)) as [[-> _]|[-> _]]; [by apply Hl|].
  rewrite lookup_cache_put. case_decide as Ea; [|by apply Hl]. intros [= <- <- _]. by rewrite <- Ea.
Qed.
#[local] Hint Resolve routes_get_keeps generation_keeps : core.

Lemma well_routed_cached spec actor assigned t :
  deployed (project_id actor) spec → well_routed spec actor assigned t →
  route_allowed actor (cached_of (bool_decide (is_Some (pinned_regions spec actor))) t).
Proof.
  intros Hd ([_ Hr] & Hk & Ho). exists spec. split_and!; try done. intros rs E. by rewrite E in Hr.
Qed.

Lemma active_target_spec actor current spec :
  answers (active_target (Value:=Value) wait_ready actor current spec) (λ o, ∀ t, o = Some t →
    current = Some (routed_placement t) ∧ routed_config_key t = config_key spec ∧
    host_matches_config (place_owner (routed_placement t)) (config_key spec) = true).
Proof.
  unfold active_target. destruct current as [p|]; [|by apply answers_ret].
  destruct (host_matches_config _ _) eqn:Em; cbn [negb]; [|by apply answers_ret].
  case_match; [by apply answers_ret|]. apply answers_then; [by auto|]. intros now.
  case_match; [by apply answers_ret|]. apply answers_then; [by auto|]. intros e.
  assert (answers (await_call (wait_ready (place_owner p));;
    mret (Some {| routed_reply := None; routed_state := Warm; routed_placement := p; routed_config_key := config_key spec |}))
    (λ o, ∀ t : RoutedActor Value, o = Some t →
      Some p = Some (routed_placement t) ∧ routed_config_key t = config_key spec ∧
      host_matches_config (place_owner (routed_placement t)) (config_key spec) = true)) as Hgo.
  { apply answers_then; [by auto|]. intros []. apply answers_ret. by intros t [= <-]. }
  destruct e as [[r|i|i]|]; try done; case_match; done || apply answers_raise.
Qed.

Lemma ensure_actor_host_spec actor spec current requested hint op assigned :
  region_allowed spec actor assigned (from_option home_region requested current) →
  answers (ensure_actor_host provision_host actor spec current requested hint op) (well_routed spec actor assigned).
Proof.
  intros Hr. unfold ensure_actor_host. apply answers_bind. eapply holds_mono; [apply provision_keeps|].
  intros [[[[lease epoch] reply]|e]|e] _; [|done..].
  apply answers_checked. intros [] He. inv_ok. apply answers_ret. split; [done|]. split; [done|]. by left.
Qed.

Lemma provision_from_spec actor spec current hint all op regions last_error assigned :
  (∀ r, r ∈ all → region_allowed spec actor assigned r) →
  (∀ p, current = Some p → region_allowed spec actor assigned (home_region p)) → regions ⊆ all →
  (∀ e t, last_error = Some e → e ≠ Ok (inl t)) →
  answers (provision_from get_owner_with_hint provision_host wait_ready actor spec current hint all op regions last_error)
    (well_routed spec actor assigned).
Proof.
  intros Hall Hcur. revert last_error. induction regions as [|r regions IH]; intros last_error Hsub Hlast; cbn [provision_from].
  { destruct last_error as [e|]; [|by apply answers_lift]. apply answers_lift. intros t ->.
    by destruct (Hlast _ t eq_refl). }
  eapply answers_try.
  { apply ensure_actor_host_spec with (assigned := assigned). destruct current as [p|]; simpl; [by apply Hcur|].
    apply Hall, Hsub. by left. }
  intros answer Hans.
  assert (∀ e, (∀ t, e ≠ Ok (inl t)) → answers ('(now_owned, _) ← await_call (get_owner_with_hint (storage_key actor));
    match now_owned with
    | Some p =>
        if negb (bool_decide (home_region p ∈ all)) then raise RegionConflict
        else
          target ← active_target wait_ready actor now_owned spec;
          match target with Some target => mret (with_state Cold target) | None => rethrow e end
    | None => provision_from get_owner_with_hint provision_host wait_ready actor spec current hint all op regions (Some e)
    end) (well_routed spec actor assigned)) as Hnext.
  { intros e He. apply answers_then; [by auto|]. intros [[p|] h].
    - case_bool_decide as Hin; cbn [negb]; [|apply answers_raise]. apply answers_bind.
      eapply answers_mono; [apply active_target_spec|]. intros [t|] Ht; [|apply answers_lift; by intros t Et; destruct (He t)].
      destruct (Ht t eq_refl) as ([= ->] & Hk & Hm). apply answers_ret. split; [by apply Hall|]. split; [done|]. by right.
    - apply IH; [intros x Hx; apply Hsub; by right|]. intros e' t [= <-]. apply He. }
  destruct answer as [[t|[]]|e]; try (apply Hnext; done); try apply answers_raise.
  apply answers_ret. by apply Hans.
Qed.

Lemma placement_regions_allowed spec actor region assigned current regions :
  (pinned_regions spec actor = None → ∀ a d, assigned = Some a → self_region = Some d → a = d) →
  (∀ a p, assigned = Some a → current = Some p → a = home_region p) →
  placement_regions spec actor region assigned current = Ok (inl regions) →
  (∀ r, r ∈ regions → region_allowed spec actor assigned r) ∧
  (∀ p, current = Some p → region_allowed spec actor assigned (home_region p)).
Proof.
  intros Hself Hsame. unfold placement_regions, region_allowed.
  set (given := match assigned with Some r => Some r | None => home_region <$> current end).
  assert (∀ a, assigned = Some a → given = Some a) as Ha by (unfold given; by intros a ->).
  assert (∀ p, current = Some p → given = Some (home_region p)) as Hc.
  { intros p Ep. unfold given. destruct assigned as [a|]; [by rewrite (Hsame a p)|by rewrite Ep]. }
  destruct given as [g|] eqn:Eg.
  - destruct (from_option _ false _) eqn:Eo; [done|]. intros [= <-].
    assert (∀ r, r = g → (∀ a, assigned = Some a → r = a) ∧
      match pinned_regions spec actor with
      | Some rs => r ∈ rs
      | None => ∀ a d, assigned = Some a → self_region = Some d → a = d
      end) as Hg.
    { intros r ->. split; [intros a Ea; by apply Ha in Ea as [= ->]|].
      destruct (pinned_regions spec actor) as [rs|]; [|by apply Hself]. simpl in Eo.
      by apply negb_false_iff, bool_decide_eq_true in Eo. }
    split; [intros r ->%list_elem_of_singleton; by apply Hg|]. intros p Ep. apply Hg. by apply Hc in Ep as [= ->].
  - destruct (select_target_region None region) as [q|]; [|done]. simpl. intros E.
    assert (assigned = None) as -> by (destruct assigned as [a|]; [by specialize (Ha a eq_refl)|done]).
    split; [|intros p Ep; by specialize (Hc p Ep)]. intros r Hr. split; [done|].
    destruct (pinned_regions spec actor) as [rs|]; [|done]. injection E as <-. by apply elem_of_sort_by in Hr.
Qed.

Abbreviation route_call :=
  (route_actor (Operation:=Operation) launch_spec organization_access_enabled get_owner_with_hint provision_host
     wait_ready self_region).

Lemma route_actor_spec actor region assigned op :
  answers (route_call actor region assigned op) (λ t, ∃ spec, deployed (project_id actor) spec ∧
    well_routed spec actor assigned t).
Proof.
  unfold route_actor. apply answers_checked. intros [] _. apply answers_then; [by auto|]. intros g.
  apply answers_bind. unfold runtime_deployment. eapply answers_await; [apply registry_answers|].
  intros found Hfound. apply answers_then; [by auto|]. intros [|]; [|apply answers_raise].
  apply answers_ret. apply answers_checked. intros spec Hspec. inv_ok. subst found. specialize (Hfound spec eq_refl).
  destruct (negb _ && _) eqn:Eself; [apply answers_raise|]. apply answers_then; [by auto|]. intros [current hint].
  destruct (match assigned, current with Some a, Some p => _ | _, _ => _ end) eqn:Esame; [apply answers_raise|].
  apply answers_bind, answers_lift. intros regions Hregions.
  assert (answers_ok : (∀ r, r ∈ regions → region_allowed spec actor assigned r) ∧
    (∀ p, current = Some p → region_allowed spec actor assigned (home_region p))).
  { eapply placement_regions_allowed; [| |exact Hregions].
    - intros Hn a d -> Ed. rewrite Hn, Ed in Eself. rewrite bool_decide_eq_false_2 in Eself by (by intros []).
      simpl in Eself. apply negb_false_iff, bool_decide_eq_true in Eself. done.
    - intros a p -> ->. by apply negb_false_iff, bool_decide_eq_true in Esame. }
  destruct answers_ok as [Hr Hc]. apply answers_bind. eapply answers_mono; [apply active_target_spec|].
  intros [t|] Ht.
  - destruct (Ht t eq_refl) as (Ec & Hk & Hm).
    assert (well_routed spec actor assigned t) as Hw by (split; [by apply Hc|]; split; [done|]; by right).
    apply answers_then; [by apply remember_keeps, (well_routed_cached _ _ assigned)|]. intros []. apply answers_ret. eauto.
  - apply answers_bind. eapply answers_mono.
    { apply (provision_from_spec actor spec current hint regions op regions None assigned); try done. }
    intros t Hw. apply answers_then; [by apply remember_keeps, (well_routed_cached _ _ assigned)|].
    intros []. apply answers_ret. eauto.
Qed.

Lemma wait_keeps turns actor lease id : keeps (wait_for_shutdown sleep_ms turns actor lease id).
Proof.
  induction turns as [|turns IH]; cbn [wait_for_shutdown]; [by apply holds_lift|].
  apply keeping_bind. eapply holds_mono; [apply sleep_keeps|]. intros [[]|e] _; [|done].
  apply keeping_bind. eapply holds_mono; [apply keeps_now|]. intros [now|e] _; [|done].
  case_match; [by apply holds_lift|]. apply keeping_bind. eapply holds_mono; [apply routes_get_keeps|].
  intros [e|e] _; [|done]. destruct e as [[]|]; try by apply holds_lift. case_match; [done|by apply holds_lift].
Qed.

Lemma route_when_ready_spec turns actor region assigned op :
  answers (route_actor_when_ready launch_spec organization_access_enabled get_owner_with_hint provision_host
             wait_ready sleep_ms self_region turns actor region assigned op)
    (λ t, ∃ spec, deployed (project_id actor) spec ∧ well_routed spec actor assigned t).
Proof.
  induction turns as [|turns IH]; cbn [route_actor_when_ready]; [by apply answers_lift|].
  eapply answers_try; [apply route_actor_spec|]. intros r Hr.
  destruct r as [[t|[]]|e]; try by apply answers_lift; intros t' [= <-]; apply Hr.
  apply answers_then; [|intros []; exact IH]. apply holds_deadline, wait_keeps.
Qed.

(** C21. A request is routed where it may be, whether its route was cached or not
    and whatever other requests do meanwhile: to the region it was assigned, if it
    was, and to one that a deployment of the project allows the actor; its host was
    launched for the configuration of that deployment or was just started, owning
    the actor under a positive epoch. *)
Theorem resolved_where_allowed actor assigned op :
  answers (resolve_actor_route launch_spec organization_access_enabled get_owner_with_hint provision_host wait_ready
             issue_invocation_target sleep_ms self_region actor assigned op)
    (λ t, ∃ spec p, deployed (project_id actor) spec ∧ region_allowed spec actor assigned (home_region p) ∧
       own_host spec p ∧ target_region t = home_region p ∧ target_identity t = identity_of p ∧
       target_route t = route (place_lease p) ∧ target_epoch t = place_owner_epoch p).
Proof.
  unfold resolve_actor_route. apply answers_checked. intros [] _. apply answers_checked. intros [] _.
  eapply answers_await; [apply routes_get_holds|]. intros e He.
  set (Q := λ t : ActorTarget Value, ∃ spec p, _).
  assert (answers (target ← route_actor_when_ready launch_spec organization_access_enabled get_owner_with_hint
      provision_host wait_ready sleep_ms self_region REQUEST_TURNS actor (default_region self_region) assigned op;
    r ← try_call (issue_actor_target issue_invocation_target actor target);
    match r with
    | Ok (inl t) => mret t
    | error => if routed_reply target is Some _ then raise AssignmentOutcomeUnknown else rethrow error
    end) Q) as Hfresh.
  { apply answers_bind. eapply answers_mono; [apply route_when_ready_spec|]. intros routed (spec & Hd & Hr & Hk & Ho).
    eapply (answers_try _ _ _ Q).
    - unfold issue_actor_target. apply answers_checked. intros token _. apply answers_ret. exists spec, (routed_placement routed).
      by split_and!.
    - intros [[t|err]|err] Ht; [by apply answers_ret, Ht|..];
        (destruct (routed_reply routed); [apply answers_raise|by apply answers_lift]). }
  destruct e as [[cached|i|i]|]; try exact Hfresh. clear Hfresh.
  destruct (match assigned with Some a => _ | None => _ end) eqn:Ec; [apply answers_raise|].
  unfold issue_actor_target. apply answers_checked. intros token _. apply answers_ret.
  destruct (He cached eq_refl) as (spec & Hd & Hk & Ho & Hover & Hpin). exists spec, (cached_placement cached).
  split_and!; try done. split.
  - intros a ->. apply orb_false_iff in Ec as [Ec _]. by apply negb_false_iff, bool_decide_eq_true in Ec.
  - destruct (pinned_regions spec actor) as [rs|] eqn:Ep; [by apply Hpin|]. intros a d -> Ed.
    apply orb_false_iff in Ec as [_ Ec]. rewrite Hover, bool_decide_eq_false_2 in Ec by (by intros []).
    rewrite Ed in Ec. simpl in Ec. by apply negb_false_iff, bool_decide_eq_true in Ec.
Qed.
End routing_spec.

(** ** Witnesses *)

Module Stand_in_service.
Export Stand_in_numbers.

#[export] Instance json_placement : Json (ActorKey * bytes) :=
  {| to_json x := actor_id (fst x) ++ [x2c] ++ snd x; from_json _ := None |}.

#[export] Instance routes_only : HasRoutes MemoryRoutes := {| get_routes m := m; set_routes m _ := m |}.
End Stand_in_service.
Import Stand_in_service.

Definition demo_request_actor : ActorKey := {| project_id := b"p"; actor_name := b"room"; actor_id := b"7" |}.
Definition demo_deployment : HostLaunchSpec f64 := demo_spec (b"i:1").

Lemma placement_regions_order_witness :
  ∃ order, placement_regions demo_deployment demo_request_actor (b"europe-west3-a") None None = Ok (inl order) ∧
    order ≡ₚ [b"canada"; b"europe-west"] ∧ head order = Some (b"europe-west").
Proof.
  destruct (placement_regions_order demo_request_actor (b"europe-west") demo_deployment (b"europe-west3-a")
    [b"canada"; b"europe-west"] eq_refl) as (order & E & Hp & Hh); [vm_compute; reflexivity|].
  exists order. split; [exact E|]. split; [exact Hp|]. apply Hh. right. by left.
Defined.

(** No host owns the actor yet; one is started in the first region. *)
Definition demo_provision (spec : HostLaunchSpec f64) (region : bytes) (a : ActorKey) (new : bool)
    (hint : option OwnershipHint) (op : option ()) : service MemoryRoutes (HostLease * N * option ()) :=
  mret ({| lease_id := b"host.v3." ++ config_key spec ++ b".u"; session_id := b"s"; route := b"http://h";
           expires_at_ms := 60000 |}, 1, None).

Abbreviation demo_resolve assigned :=
  (resolve_actor_route (λ _, mret (Some demo_deployment)) (λ _, mret true) (λ _, mret (None, None)) demo_provision
     (λ _, mret ()) (λ _ _ _, Ok (b"token")) (λ _, mret ()) (Some (b"europe-west3-a")) demo_request_actor assigned None).

Definition demo_world : world MemoryRoutes :=
  {| buckets := ∅; write_log := ∅; zone_objects := ∅; clock := 100; uuids := 0; local := new_routes |}.

Example demo_resolved :
  match (run (demo_resolve (Some (b"canada"))) demo_world).1 with
  | Ok (inl t) => (target_region t, target_epoch t)
  | _ => ([], 0)
  end = (b"canada", 1).
Proof. vm_compute. reflexivity. Qed.

Lemma resolved_where_allowed_witness :
  answers (routes_allowed (λ _ spec, spec = demo_deployment)) (demo_resolve (Some (b"canada")))
    (λ t, ∃ spec p, spec = demo_deployment ∧
       region_allowed (Some (b"europe-west3-a")) spec demo_request_actor (Some (b"canada")) (home_region p) ∧
       own_host spec p ∧ target_region t = home_region p ∧ target_identity t = identity_of p ∧
       target_route t = route (place_lease p) ∧ target_epoch t = place_owner_epoch p).
Proof.
  apply (resolved_where_allowed (λ _, mret (Some demo_deployment)) (λ _, mret true) (λ _, mret (None, None))
    demo_provision (λ _, mret ()) (λ _ _ _, Ok (b"token")) (λ _, mret ()) (Some (b"europe-west3-a"))
    (λ _ spec, spec = demo_deployment)).
  - reflexivity.
  - intros project. apply holds_lift. intros spec E. by injection E as <-.
  - intros o. by apply holds_lift.
  - intros key. by apply holds_lift.
  - intros. by apply holds_lift.
  - intros. by apply holds_lift.
  - intros. by apply holds_lift.
Defined.
