(* ===== verification/Pool.v ===== *)
(** * The pool of spare sandboxes

    [src/src/sandbox/pool.rs] with [pool/replenishment.rs] and [pool/cleanup.rs]:
    sandboxes are started ahead of time, handed to actor hosts, and retired. The
    pool is two PostgreSQL tables; every method is here as what its statements do to
    the rows at one point in time. The provider that runs the sandboxes, the
    connections kept warm and the timers of the housekeeping loop are not modelled;
    what the provider answers are arguments. *)

From S2P Require Import Prelude Text Demo Effects Btree.
Local Open Scope N_scope.

Record SpareHandle := {
  control_route : bytes;
  control_token : bytes;
  handle_name : bytes;
  resource_id : bytes;
  handle_route : bytes;
  canonical_region : bytes;
}.

#[global] Instance SpareHandle_eq_dec : EqDecision SpareHandle.
Proof. solve_decision. Defined.

(** The status column. *)
Inductive spare_status := SpareStarting | SpareReady | SpareClaimed | SpareActive | SpareRetiring.

#[global] Instance spare_status_eq_dec : EqDecision spare_status.
Proof. solve_decision. Defined.

(** A row of [durable_actors_spares]; times are in milliseconds. The column [kind] is
    left out: [SpareKind] has the one variant [Actor], every row is written with it, so
    the conditions on it in the statements hold of every row. *)
Record spare := {
  sp_name : bytes;
  sp_pool_key : bytes;
  sp_status : spare_status;
  sp_handle : option bytes;
  sp_host : option bytes;
  sp_config_key : option bytes;
  sp_expires_at : N;
}.

(** A row of [durable_actors_pool_backoffs]. *)
Record backoff := {
  bo_failures : N;
  bo_retry_after : N;
}.

Record pool_tables := {
  spares : list spare;
  backoffs : gmap bytes backoff;
}.

Record PoolConfig := {
  pool_idle : N;
  fleet_maximum : N;
  max_starting : N;
  idle_ttl_seconds : N;
}.

Definition CLAIM_MS : N := 120000.

(** ** Statements *)

Definition set_status (st : spare_status) (r : spare) : spare :=
  {| sp_name := sp_name r; sp_pool_key := sp_pool_key r; sp_status := st; sp_handle := sp_handle r;
     sp_host := sp_host r; sp_config_key := sp_config_key r; sp_expires_at := sp_expires_at r |}.

Definition with_spares (rows : list spare) (t : pool_tables) : pool_tables :=
  {| spares := rows; backoffs := backoffs t |}.

(** [UPDATE ... SET f WHERE p], and how many rows it changed. *)
Definition update_where (p : spare → bool) (f : spare → spare) (t : pool_tables) : pool_tables :=
  with_spares ((λ r, if p r then f r else r) <$> spares t) t.

Definition count_where (p : spare → bool) (rows : list spare) : N := len (List.filter p rows).

(** [DELETE ... WHERE p] *)
Definition delete_where (p : spare → bool) (t : pool_tables) : pool_tables :=
  with_spares (List.filter (λ r, negb (p r)) (spares t)) t.

(** The unique index on [host_id] and the primary key. *)
Definition host_taken (host : bytes) (t : pool_tables) : bool := existsb (λ r, sp_host r == Some host) (spares t).
Definition name_taken (name : bytes) (t : pool_tables) : bool := existsb (λ r, sp_name r == name) (spares t).

Section pool.
Context `{!Json SpareHandle}.

(** ** Handing out spares *)

Definition claimable_spare (now : N) (key : bytes) (r : spare) : bool :=
  (sp_pool_key r == key) && (sp_status r == SpareReady) && (now <? sp_expires_at r).

Definition by_expiry (x y : spare) : bool := sp_expires_at x <=? sp_expires_at y.

(** The row the inner [SELECT] picks: the claimable one that expires first, among
    the rows that are visited and not locked. *)
Definition pick_spare (now : N) (key : bytes) (order : list bytes) (t : pool_tables) : option spare :=
  head (sort_by by_expiry (omap (λ n, List.find (λ r, (sp_name r == n) && claimable_spare now key r) (spares t)) order)).

Definition claim_row (now : N) (host config : bytes) (r : spare) : spare :=
  {| sp_name := sp_name r; sp_pool_key := sp_pool_key r; sp_status := SpareClaimed; sp_handle := sp_handle r;
     sp_host := Some host; sp_config_key := Some config; sp_expires_at := now + CLAIM_MS |}.

Definition claim (now : N) (key host config : bytes) (order : list bytes) (t : pool_tables)
    : result (option SpareHandle) * pool_tables :=
  match pick_spare now key order t with
  | None => (Ok None, t)
  | Some r =>
      if host_taken host t then (Err "duplicate key value violates unique constraint", t)
      else
        (match sp_handle r ≫= from_json with
         | Some h => Ok (Some h)
         | None => Err "decode spare handle"
         end,
         update_where (λ x, sp_name x == sp_name r) (claim_row now host config) t)
  end.

Definition actor_sandbox_name (session : bytes) : bytes := b"do-actor-" ++ session.

Definition reserve_host (now : N) (session host config : bytes) (t : pool_tables) : result unit * pool_tables :=
  if name_taken (actor_sandbox_name session) t || host_taken host t
  then (Err "duplicate key value violates unique constraint", t)
  else
    (Ok (), with_spares (spares t ++
       [{| sp_name := actor_sandbox_name session; sp_pool_key := []; sp_status := SpareClaimed; sp_handle := None;
           sp_host := Some host; sp_config_key := Some config; sp_expires_at := now + CLAIM_MS |}]) t).

(** One look of [wait_ready]: done, or wait on ([None]), or not ready. *)
Definition wait_ready_once (host : bytes) (t : pool_tables) : option (result unit) :=
  match sp_status <$> List.find (λ r, sp_host r == Some host) (spares t) with
  | Some SpareActive => Some (Ok ())
  | Some SpareClaimed => None
  | _ => Some (Err "actor host is not ready")
  end.

Definition set_handle (st : spare_status) (h : SpareHandle) (r : spare) : spare :=
  {| sp_name := sp_name r; sp_pool_key := sp_pool_key r; sp_status := st; sp_handle := Some (to_json h);
     sp_host := sp_host r; sp_config_key := sp_config_key r; sp_expires_at := sp_expires_at r |}.

Definition remember (now : N) (host config : bytes) (h : SpareHandle) (t : pool_tables) : result unit * pool_tables :=
  let hit r := (sp_name r == handle_name h) && (sp_host r == Some host) && (sp_config_key r == Some config) &&
               (sp_status r == SpareClaimed) && (now <? sp_expires_at r) in
  (ensure (count_where hit (spares t) =? 1) "actor sandbox claim expired or was retired",
   update_where hit (set_handle SpareActive h) t).

Definition failed (host : bytes) (t : pool_tables) : pool_tables :=
  update_where (λ r, sp_host r == Some host) (set_status SpareRetiring) t.

(** The resources of the retired rows; a handle that does not decode is an error. *)
Definition retire_config (config : bytes) (t : pool_tables) : result (list bytes) * pool_tables :=
  let hit r := sp_config_key r == Some config in
  (mapR (λ h, ctx (resource_id <$> from_json h) "invalid handle") (omap sp_handle (List.filter hit (spares t))),
   update_where hit (set_status SpareRetiring) t).

(** ** Building spares *)

Definition publish_row (now : N) (h : SpareHandle) (ttl : N) (r : spare) : spare :=
  {| sp_name := sp_name r; sp_pool_key := sp_pool_key r; sp_status := SpareReady; sp_handle := Some (to_json h);
     sp_host := sp_host r; sp_config_key := sp_config_key r; sp_expires_at := now + 1000 * ttl |}.

(** The first statement decides and changes the row, the second only the backoff. They
    are one step here: a reservation that comes between the two would still see the old
    backoff, and start nothing where it could. *)
Definition publish (now : N) (key : bytes) (h : SpareHandle) (ttl : N) (t : pool_tables) : bool * pool_tables :=
  let hit r := (sp_name r == handle_name h) && (sp_pool_key r == key) && (sp_status r == SpareStarting) &&
               (now <? sp_expires_at r) in
  let published := count_where hit (spares t) =? 1 in
  let t := update_where hit (publish_row now h ttl) t in
  (published,
   if published then
     {| spares := spares t;
        backoffs := alter (λ _, {| bo_failures := 0; bo_retry_after := now |}) key (backoffs t) |}
   else t).

(** [create]: what is required of a new spare. *)
Definition valid_spare (name region : bytes) (h : SpareHandle) : result unit :=
  ensure ((handle_name h == name) && (canonical_region h == region) && (resource_id h != []) && (handle_route h != []) &&
          (control_route h != []) && (control_token h != []))
    "provider returned an invalid spare".

Definition build_failed (now : N) (key name : bytes) (t : pool_tables) : pool_tables :=
  match backoffs t !! key with
  | None => t
  | Some o =>
      let t := update_where (λ r, (sp_name r == name) && (sp_status r == SpareStarting)) (set_status SpareRetiring) t in
      {| spares := spares t;
         backoffs := <[key := {| bo_failures := N.min (bo_failures o + 1) 6;
                                 bo_retry_after := now + 1000 * 2 ^ N.min (bo_failures o) 5 |}]> (backoffs t) |}
  end.

(** [build]: [created] is what [create] returned; the second component tells
    whether the new sandbox has to be retired at once. *)
Definition build (now : N) (key name : bytes) (ttl : N) (created : result SpareHandle) (t : pool_tables)
    : option SpareHandle * pool_tables :=
  match created with
  | Ok h => let '(published, t) := publish now key h ttl t in (if published then None else Some h, t)
  | Err _ => (None, build_failed now key name t)
  end.

(** ** Replenishment *)

(** [ORDER BY expires_at DESC, name] *)
Definition newest_first (x y : spare) : bool :=
  (sp_expires_at y <? sp_expires_at x) ||
  ((sp_expires_at x =? sp_expires_at y) && bytes_leb (sp_name x) (sp_name y)).

Definition surplus (key : bytes) (target : N) (t : pool_tables) : list bytes :=
  sp_name <$> dropN target (sort_by newest_first
    (List.filter (λ r, (sp_pool_key r == key) && (sp_status r == SpareReady)) (spares t))).

Definition trim (key : bytes) (target : N) (t : pool_tables) : pool_tables :=
  update_where (λ r, (sp_status r == SpareReady) && bool_decide (sp_name r ∈ surplus key target t))
    (set_status SpareRetiring) t.

(** The rows that count as capacity: unassigned, or retiring with a sandbox. *)
Definition in_fleet (r : spare) : bool :=
  match sp_status r with
  | SpareReady | SpareStarting => true
  | SpareRetiring => bool_decide (sp_host r = None) && bool_decide (is_Some (sp_handle r))
  | _ => false
  end.

Definition is_available (now : N) (key : bytes) (replacement_seconds : N) (r : spare) : bool :=
  in_fleet r && (sp_pool_key r == key) && (now <? sp_expires_at r) &&
  ((sp_status r == SpareStarting) ||
   ((sp_status r == SpareReady) && (now + 1000 * replacement_seconds <? sp_expires_at r))).

Definition is_occupied (key : bytes) (r : spare) : bool := in_fleet r && (sp_pool_key r == key).
Definition is_starting (r : spare) : bool := in_fleet r && (sp_status r == SpareStarting).

Definition remaining (limit count : N) : N := saturating_sub limit (N.min count u32_max).

Definition saturating_mul_u32 (x y : N) : N := N.min (x * y) u32_max.

Definition capacity (now : N) (key : bytes) (c : PoolConfig) (t : pool_tables) : N :=
  let replacement_seconds := N.min (idle_ttl_seconds c / 2) 120 in
  let count p := count_where p (spares t) in
  N.min (N.min (N.min (remaining (pool_idle c) (count (is_available now key replacement_seconds)))
                      (remaining (saturating_mul_u32 (pool_idle c) 2) (count (is_occupied key))))
               (remaining (fleet_maximum c) (count in_fleet)))
        (remaining (max_starting c) (count is_starting)).

Definition starting_row (now : N) (key name : bytes) : spare :=
  {| sp_name := name; sp_pool_key := key; sp_status := SpareStarting; sp_handle := None; sp_host := None;
     sp_config_key := None; sp_expires_at := now + CLAIM_MS |}.

(** [replenish], one transaction; [fresh n] are the names of [n] new spares. *)
Definition replenish (now : N) (key : bytes) (c : PoolConfig) (batch : N) (fresh : list bytes) (t : pool_tables)
    : list bytes * pool_tables :=
  let b := default {| bo_failures := 0; bo_retry_after := now |} (backoffs t !! key) in
  let t := {| spares := spares t; backoffs := <[key := b]> (backoffs t) |} in
  let t := trim key (pool_idle c) t in
  let count := if bo_retry_after b <=? now then N.min (capacity now key c t) batch else 0 in
  let names := takeN count fresh in
  (names, with_spares (spares t ++ (starting_row now key <$> names)) t).

(** ** Retirement *)

Definition retire_unwanted (now : N) (keys : list bytes) (enabled : bool) (t : pool_tables) : pool_tables :=
  let hit r :=
    ((sp_expires_at r <=? now) && (sp_status r != SpareActive)) ||
    ((sp_status r == SpareReady) && (negb (bool_decide (sp_pool_key r ∈ keys)) || negb enabled)) in
  let t := update_where hit (set_status SpareRetiring) t in
  {| spares := spares t; backoffs := filter (λ kv, kv.1 ∈ keys) (backoffs t) |}.

(** [decode_handle]: a row without a handle has only its name. *)
Definition decode_handle (r : spare) : result SpareHandle :=
  match sp_handle r with
  | Some h => ctx (from_json h) "invalid handle"
  | None => Ok {| control_route := []; control_token := []; handle_name := sp_name r; resource_id := [];
                  handle_route := []; canonical_region := [] |}
  end.

Definition retiring (t : pool_tables) : result (list SpareHandle) :=
  mapR decode_handle (List.filter (λ r, sp_status r == SpareRetiring) (spares t)).

(** [retire], after the provider has retired the sandbox. *)
Definition forget_retired (h : SpareHandle) (t : pool_tables) : pool_tables :=
  delete_where (λ r, (sp_name r == handle_name h) && (sp_status r == SpareRetiring)) t.

Definition is_up (r : spare) : bool := (sp_status r == SpareReady) || (sp_status r == SpareActive).

(** [forget_stopped]; [stopped] are the resources the provider reports gone. *)
Definition forget_stopped (stopped : list bytes) (t : pool_tables) : pool_tables :=
  delete_where (λ r, is_up r &&
    from_option (λ h, bool_decide (resource_id h ∈ stopped)) false (sp_handle r ≫= from_json)) t.

(** ** Histories *)

Inductive pool_op :=
| OpClaim (key host config : bytes) (order : list bytes)
| OpReserve (session host config : bytes)
| OpRemember (host config : bytes) (h : SpareHandle)
| OpFailed (host : bytes)
| OpRetireConfig (config : bytes)
| OpBuild (key name : bytes) (ttl : N) (created : result SpareHandle)
| OpReplenish (key : bytes) (batch : N) (fresh : list bytes)
| OpRetireUnwanted (keys : list bytes) (enabled : bool)
| OpRetired (h : SpareHandle)
| OpStopped (stopped : list bytes).

Definition pool_step (c : PoolConfig) (t : pool_tables) (x : N * pool_op) : pool_tables :=
  let '(now, o) := x in
  match o with
  | OpClaim key host config order => (claim now key host config order t).2
  | OpReserve session host config => (reserve_host now session host config t).2
  | OpRemember host config h => (remember now host config h t).2
  | OpFailed host => failed host t
  | OpRetireConfig config => (retire_config config t).2
  | OpBuild key name ttl created => (build now key name ttl created t).2
  | OpReplenish key batch fresh => (replenish now key c batch fresh t).2
  | OpRetireUnwanted keys enabled => retire_unwanted now keys enabled t
  | OpRetired h => forget_retired h t
  | OpStopped stopped => forget_stopped stopped t
  end.

Definition empty_pool : pool_tables := {| spares := []; backoffs := ∅ |}.

Definition pool_run (c : PoolConfig) (ops : list (N * pool_op)) : pool_tables := foldl (pool_step c) empty_pool ops.

(** What the claims of a history handed out. *)
Definition handed_by (t : pool_tables) (x : N * pool_op) : list (SpareHandle * bytes) :=
  match x with
  | (now, OpClaim key host config order) =>
      match (claim now key host config order t).1 with Ok (Some h) => [(h, host)] | _ => [] end
  | _ => []
  end.

Definition handed_out (c : PoolConfig) (ops : list (N * pool_op)) : list (SpareHandle * bytes) :=
  snd (foldl (λ st x, (pool_step c (fst st) x, snd st ++ handed_by (fst st) x)) (empty_pool, []) ops).

(** The names a history gives to new rows: those of [uuid]s. *)
Definition names_given (x : N * pool_op) : list bytes :=
  match snd x with
  | OpReplenish _ _ fresh => fresh
  | OpReserve session _ _ => [actor_sandbox_name session]
  | _ => []
  end.
End pool.

(** ** How rows change *)

Section pool_rows.
Context `{!Json SpareHandle} `{!JsonLaws SpareHandle}.

(** Only hosts hold claimed and active rows; a ready row knows its sandbox. *)
Definition row_ok (r : spare) : Prop :=
  match sp_status r with
  | SpareStarting => sp_host r = None ∧ sp_handle r = None
  | SpareReady => sp_host r = None ∧ ∃ h, sp_handle r = Some (to_json h) ∧ handle_name h = sp_name r
  | SpareClaimed | SpareActive => is_Some (sp_host r)
  | SpareRetiring => True
  end.

Definition unassigned (r : spare) : bool := (sp_status r == SpareStarting) || (sp_status r == SpareReady).

(** One row after a statement: it keeps its name and its pool, and it does not
    become available or start again. *)
Definition evolves (r r' : spare) : Prop :=
  row_ok r → row_ok r' ∧ sp_name r' = sp_name r ∧ sp_pool_key r' = sp_pool_key r ∧
    (in_fleet r' = true → in_fleet r = true) ∧ (is_starting r' = true → is_starting r = true) ∧
    (unassigned r' = true → unassigned r = true).

Lemma evolves_refl r : evolves r r.
Proof. by intros H. Qed.

(** The rows after some of them evolved and some were deleted. *)
Inductive shrinks : list spare → list spare → Prop :=
| shrinks_nil : shrinks [] []
| shrinks_keep r r' l l' : evolves r r' → shrinks l l' → shrinks (r :: l) (r' :: l')
| shrinks_drop r l l' : shrinks l l' → shrinks (r :: l) l'.

Lemma shrinks_refl l : shrinks l l.
Proof. induction l; constructor; [apply evolves_refl|done]. Qed.

Lemma shrinks_update p f t :
  (∀ r, p r = true → evolves r (f r)) → shrinks (spares t) (spares (update_where p f t)).
Proof.
  intros Hf. simpl. induction (spares t) as [|r l IH]; simpl; constructor; [|done].
  destruct (p r) eqn:E; [by apply Hf|apply evolves_refl].
Qed.

Lemma shrinks_delete p t : shrinks (spares t) (spares (delete_where p t)).
Proof.
  simpl. induction (spares t) as [|r l IH]; simpl; [constructor|].
  destruct (p r); simpl; [by apply shrinks_drop|]. constructor; [apply evolves_refl|done].
Qed.

(** What the rows of a table satisfy after it shrank. *)
Lemma shrinks_ok l l' : shrinks l l' → Forall row_ok l → Forall row_ok l'.
Proof.
  induction 1 as [|r r' l l' Hr _ IH|r l l' _ IH]; [done|..]; intros [Ho Hl]%Forall_cons; [|by apply IH].
  constructor; [by apply Hr|by apply IH].
Qed.

Lemma shrinks_count (p : spare → bool) l l' :
  (∀ r r', evolves r r' → row_ok r → p r' = true → p r = true) →
  shrinks l l' → Forall row_ok l → count_where p l' ≤ count_where p l.
Proof.
  intros Hp. unfold count_where. induction 1 as [|r r' l l' Hr _ IH|r l l' _ IH]; [done|..];
    intros [Ho Hl]%Forall_cons; specialize (IH Hl); simpl.
  - destruct (p r') eqn:E'; [rewrite (Hp _ _ Hr Ho E'); rewrite !len_cons; lia|].
    destruct (p r); rewrite ?len_cons; lia.
  - destruct (p r); rewrite ?len_cons; lia.
Qed.

(** Every row that is left comes from one that was there. *)
Lemma shrinks_from l l' r' : shrinks l l' → Forall row_ok l → r' ∈ l' →
  ∃ r, r ∈ l ∧ sp_name r' = sp_name r ∧ (unassigned r' = true → unassigned r = true).
Proof.
  induction 1 as [|r x l l' Hr _ IH|r l l' _ IH]; intros Hl Hin.
  - by apply elem_of_nil in Hin.
  - apply Forall_cons in Hl as [Ho Hl]. apply elem_of_cons in Hin as [-> |Hin].
    + exists r. destruct (Hr Ho) as (_ & En & _ & _ & _ & Hu). split; [by left|]. done.
    + destruct (IH Hl Hin) as (y & Hy & Hrest). exists y. split; [by right|done].
  - apply Forall_cons in Hl as [_ Hl]. destruct (IH Hl Hin) as (y & Hy & Hrest). exists y. split; [by right|done].
Qed.

Lemma shrinks_names l l' : shrinks l l' → Forall row_ok l → NoDup (sp_name <$> l) → NoDup (sp_name <$> l').
Proof.
  intros H. induction H as [|r r' l l' Hr Hs IH|r l l' _ IH]; intros Hl Hn; [done|..];
    apply Forall_cons in Hl as [Ho Hl]; rewrite ?fmap_cons in *; apply NoDup_cons in Hn as [Hx Hn]; [|by apply IH].
  apply NoDup_cons. split; [|by apply IH]. destruct (Hr Ho) as (_ & -> & _). intros (y & Ey & Hy)%list_elem_of_fmap.
  destruct (shrinks_from _ _ _ Hs Hl Hy) as (z & Hz & Ez & _). apply Hx. rewrite Ey, Ez. by apply list_elem_of_fmap_2.
Qed.

(** ** The statements as changes of rows *)

Lemma evolves_retiring r : evolves r (set_status SpareRetiring r).
Proof.
  intros Ho. unfold in_fleet, is_starting, unassigned, row_ok in *. simpl. split_and!; try done.
  - intros H. pose proof H as [Hh%bool_decide_eq_true _]%andb_true_iff. rewrite Hh in Ho.
    destruct (sp_status r); [done|done|destruct Ho; done|destruct Ho; done|exact H].
  - intros [_ E]%andb_true_iff. discriminate E.
Qed.

(** Closes goals that say a row with a known status is not of another kind. *)
Ltac by_status := intros E; cbv in E; discriminate E.

Lemma evolves_claimed now host config r : evolves r (claim_row now host config r).
Proof. intros Ho. split_and!; [by exists host|done|done|by_status..]. Qed.

Lemma evolves_active h r : is_Some (sp_host r) → evolves r (set_handle SpareActive h r).
Proof. intros Hh Ho. split_and!; [done|done|done|by_status..]. Qed.

Lemma evolves_published now h ttl r :
  sp_status r = SpareStarting → sp_name r = handle_name h → evolves r (publish_row now h ttl r).
Proof.
  intros Hs Hn Ho. unfold row_ok in Ho. rewrite Hs in Ho. destruct Ho as [Hh _].
  unfold in_fleet, is_starting, unassigned. rewrite Hs. split_and!; [|done|done|done|by_status|done].
  split; [done|]. eauto.
Qed.

(** What a step does: rows shrink, and new ones are added by two operations. *)
Definition added_by (c : PoolConfig) (mid : list spare) (x : N * pool_op) (added : list spare) : Prop :=
  match x with
  | (now, OpReplenish key batch fresh) =>
      ∃ names t, names `prefix_of` fresh ∧ added = starting_row now key <$> names ∧ spares t = mid ∧
        len names ≤ capacity now key c t
  | (now, OpReserve session host config) =>
      added = [] ∨ ∃ r, added = [r] ∧ sp_name r = actor_sandbox_name session ∧ sp_status r = SpareClaimed ∧ sp_host r = Some host
  | _ => added = []
  end.

Lemma shape_of_change c t x t' :
  pool_step c t x = t' → shrinks (spares t) (spares t') → added_by c (spares t') x [] →
  ∃ mid added, shrinks (spares t) mid ∧ spares (pool_step c t x) = mid ++ added ∧ added_by c mid x added.
Proof. intros -> Hs Ha. exists (spares t'), []. by rewrite app_nil_r. Qed.

Lemma step_shape c t x :
  ∃ mid added, shrinks (spares t) mid ∧ spares (pool_step c t x) = mid ++ added ∧ added_by c mid x added.
Proof.
  destruct x as [now [key host config order|session host config|host config h|host|config|key name ttl created
                     |key batch fresh|keys en|h|stopped]].
  - eapply shape_of_change; [done| |done]. simpl. unfold claim. destruct (pick_spare _ _ _ _); [|apply shrinks_refl].
    destruct (host_taken host t); [apply shrinks_refl|]. apply shrinks_update. intros r _. apply evolves_claimed.
  - cbn [pool_step]. unfold reserve_host. destruct (_ || _).
    + exists (spares t), []. rewrite app_nil_r. split_and!; [apply shrinks_refl|done|by left].
    + eexists (spares t), _. split_and!; [apply shrinks_refl|done|]. right. by eexists.
  - eapply shape_of_change; [done| |done]. apply shrinks_update. intros r Hr. apply evolves_active.
    repeat (apply andb_true_iff in Hr as [Hr ?]). inv_ok. by eexists.
  - eapply shape_of_change; [done| |done]. apply shrinks_update. intros r _. apply evolves_retiring.
  - eapply shape_of_change; [done| |done]. apply shrinks_update. intros r _. apply evolves_retiring.
  - eapply shape_of_change; [done| |done]. cbn [pool_step]. unfold build, publish, build_failed. destruct created as [h|e].
    + destruct (count_where _ _ =? 1); apply shrinks_update; intros r Hr;
        repeat (apply andb_true_iff in Hr as [Hr ?]); inv_ok; by apply evolves_published.
    + destruct (backoffs t !! key); [|apply shrinks_refl]. apply shrinks_update. intros r _. apply evolves_retiring.
  - cbn [pool_step]. unfold replenish. set (t1 := {| spares := spares t; backoffs := _ |}).
    exists (spares (trim key (pool_idle c) t1)). eexists. split_and!; [|done|].
    + apply (shrinks_update _ _ t1). intros r _. apply evolves_retiring.
    + eexists _, (trim key (pool_idle c) t1). split_and!; [|done|done|].
      * unfold takeN. apply prefix_take.
      * rewrite len_takeN. case_match; lia.
  - eapply shape_of_change; [done| |done]. apply shrinks_update. intros r _. apply evolves_retiring.
  - eapply shape_of_change; [done| |done]. apply shrinks_delete.
  - eapply shape_of_change; [done| |done]. apply shrinks_delete.
Qed.

(** ** The limits of the pool *)

Record pool_ok (c : PoolConfig) (t : pool_tables) : Prop := {
  pool_rows_ok : Forall row_ok (spares t);
  pool_fleet : count_where in_fleet (spares t) ≤ fleet_maximum c;
  pool_starting : count_where is_starting (spares t) ≤ max_starting c;
  pool_occupied : ∀ key, count_where (is_occupied key) (spares t) ≤ 2 * pool_idle c;
}.

Lemma count_app p l k : count_where p (l ++ k) = count_where p l + count_where p k.
Proof. unfold count_where. by rewrite List.filter_app, len_app. Qed.

Lemma count_le p l : count_where p l ≤ len l.
Proof.
  unfold count_where. induction l as [|r l IH]; simpl; [done|]. destruct (p r); rewrite ?len_cons; lia.
Qed.

Lemma count_occupied_other key key' now names :
  key' ≠ key → count_where (is_occupied key') (starting_row now key <$> names) = 0.
Proof.
  intros Hne. unfold count_where. induction names as [|n names IH]; [done|]. rewrite fmap_cons. simpl.
  unfold is_occupied at 1. simpl. by rewrite bool_decide_eq_false_2.
Qed.

Lemma remaining_count limit count : count ≤ limit → limit ≤ u32_max → remaining limit count = limit - count.
Proof. unfold remaining, saturating_sub. intros. rewrite N.min_l by lia. done. Qed.

Lemma pool_step_limits c t x :
  fleet_maximum c ≤ u32_max → max_starting c ≤ u32_max → pool_ok c t → pool_ok c (pool_step c t x).
Proof.
  intros Hfm Hms [Ho Hf Hs Hocc]. destruct (step_shape c t x) as (mid & added & Hshr & E & Ha).
  pose proof (shrinks_ok _ _ Hshr Ho) as Hom.
  assert (count_where in_fleet mid ≤ fleet_maximum c) as Hf'.
  { etrans; [apply (shrinks_count in_fleet (spares t) mid); [|exact Hshr|done]|done]. intros r r' He Hr. by apply He. }
  assert (count_where is_starting mid ≤ max_starting c) as Hs'.
  { etrans; [apply (shrinks_count is_starting (spares t) mid); [|exact Hshr|done]|done]. intros r r' He Hr. by apply He. }
  assert (∀ key, count_where (is_occupied key) mid ≤ 2 * pool_idle c) as Ho'.
  { intros key. etrans; [apply (shrinks_count (is_occupied key) (spares t) mid); [|exact Hshr|done]|apply Hocc].
    intros r r' He Hr. unfold is_occupied. destruct (He Hr) as (_ & _ & -> & Hi & _).
    rewrite !andb_true_iff. intros [? ?]. auto. }
  assert (added = [] → pool_ok c (pool_step c t x)) as Hnone.
  { intros ->. rewrite app_nil_r in E. by split; rewrite E. }
  destruct x as [now []]; try by apply Hnone.
  - destruct Ha as [->|(r & -> & _ & Hst & Hh)]; [by apply Hnone|].
    assert (∀ p, p r = false → count_where p (mid ++ [r]) = count_where p mid) as Hsame.
    { intros p Hp. rewrite count_app. unfold count_where at 2. simpl. rewrite Hp, len_nil. lia. }
    assert (in_fleet r = false) as Hr by (unfold in_fleet; by rewrite Hst).
    split; rewrite E.
    + apply Forall_app. split; [done|]. apply Forall_singleton. unfold row_ok. rewrite Hst. by exists host.
    + by rewrite Hsame.
    + rewrite Hsame; [done|]. unfold is_starting. by rewrite Hr.
    + intros key. rewrite Hsame; [done|]. unfold is_occupied. by rewrite Hr.
  - destruct Ha as (names & t' & _ & -> & <- & Hcap). unfold capacity in Hcap.
    assert (len (starting_row now key <$> names) = len names) as Hlen by (unfold len; by rewrite length_fmap).
    rewrite (remaining_count (fleet_maximum c)), (remaining_count (max_starting c)) in Hcap by done.
    split; rewrite E.
    + apply Forall_app. split; [done|]. apply Forall_fmap, Forall_true. done.
    + rewrite count_app. pose proof (count_le in_fleet (starting_row now key <$> names)). lia.
    + rewrite count_app. pose proof (count_le is_starting (starting_row now key <$> names)). lia.
    + intros key'. rewrite count_app. destruct (decide (key' = key)) as [->|Hne].
      * pose proof (count_le (is_occupied key) (starting_row now key <$> names)).
        assert (len names ≤ remaining (saturating_mul_u32 (pool_idle c) 2) (count_where (is_occupied key) (spares t'))) as Hk by lia.
        unfold remaining, saturating_mul_u32, saturating_sub in Hk. specialize (Ho' key). lia.
      * rewrite count_occupied_other by done. rewrite N.add_0_r. apply Ho'.
Qed.

Lemma pool_run_ok c ops :
  fleet_maximum c ≤ u32_max → max_starting c ≤ u32_max → pool_ok c (pool_run c ops).
Proof.
  intros Hf Hs. induction ops as [|x ops IH] using rev_ind.
  - split; [constructor| | |intros key]; unfold count_where; simpl; rewrite len_nil; lia.
  - unfold pool_run. rewrite foldl_app. by apply pool_step_limits.
Qed.

(** C36. However spares are claimed, built, lost and retired, the pool stays within
    its configuration: at most [fleet_maximum] unassigned sandboxes in all, at most
    [max_starting] of them starting, and at most twice the idle target in each
    pool. *)
Theorem pool_within_limits c ops key :
  fleet_maximum c ≤ u32_max → max_starting c ≤ u32_max →
  count_where in_fleet (spares (pool_run c ops)) ≤ fleet_maximum c ∧
  count_where is_starting (spares (pool_run c ops)) ≤ max_starting c ∧
  count_where (is_occupied key) (spares (pool_run c ops)) ≤ 2 * pool_idle c.
Proof. intros Hf Hs. by destruct (pool_run_ok c ops Hf Hs). Qed.

(** ** Spares are handed out once *)

Definition run_handed (c : PoolConfig) (ops : list (N * pool_op)) : pool_tables * list (SpareHandle * bytes) :=
  foldl (λ st x, (pool_step c (fst st) x, snd st ++ handed_by (fst st) x)) (empty_pool, []) ops.

Lemma run_handed_snoc c ops x :
  run_handed c (ops ++ [x]) =
  (pool_step c (fst (run_handed c ops)) x, snd (run_handed c ops) ++ handed_by (fst (run_handed c ops)) x).
Proof. unfold run_handed. by rewrite foldl_app. Qed.

(** Names are given once; what was handed out is not available any more. *)
Record handed_ok (given : list bytes) (t : pool_tables) (handed : list (SpareHandle * bytes)) : Prop := {
  handed_rows : Forall row_ok (spares t);
  handed_unique : NoDup (sp_name <$> spares t);
  handed_given : (sp_name <$> spares t) ⊆ given;
  handed_once : NoDup (handle_name <$> handed.*1);
  handed_known : (handle_name <$> handed.*1) ⊆ given;
  handed_gone : ∀ r, r ∈ spares t → sp_name r ∈ handle_name <$> handed.*1 → unassigned r = false;
}.

Lemma picked now key order t r : pick_spare now key order t = Some r → r ∈ spares t ∧ claimable_spare now key r = true.
Proof.
  unfold pick_spare. intros Hh. apply head_Some_elem_of in Hh. apply elem_of_sort_by, list_elem_of_omap in Hh as (n & _ & Hf).
  apply find_some in Hf as [Hin Hp]. apply andb_true_iff in Hp as [_ Hp]. by rewrite list_elem_of_In.
Qed.

(** What a claim hands out was ready, under its own name, and is not afterwards. *)
Lemma claim_hands_out now key host config order t h t' :
  Forall row_ok (spares t) → claim now key host config order t = (Ok (Some h), t') →
  ∃ r, r ∈ spares t ∧ unassigned r = true ∧ sp_name r = handle_name h ∧
    ∀ r', r' ∈ spares t' → sp_name r' = handle_name h → unassigned r' = false.
Proof.
  intros Ho. unfold claim. destruct (pick_spare now key order t) as [r|] eqn:Ep; [|done].
  apply picked in Ep as [Hr Hc]. destruct (host_taken host t); [done|]. intros [= E <-].
  unfold claimable_spare in Hc. inv_ok. exists r. split; [done|].
  assert (unassigned r = true) as Hu by (unfold unassigned; by rewrite (bool_decide_eq_true_2 (sp_status r = SpareReady)), orb_true_r).
  rewrite Forall_forall in Ho. specialize (Ho r Hr) as Hok. unfold row_ok in Hok.
  match goal with H : sp_status r = _ |- _ => rewrite H in Hok end. destruct Hok as (_ & h' & Eh & Hn).
  rewrite Eh in E. simpl in E. rewrite from_to_json in E. injection E as <-. split_and!; [done..|].
  intros r' (x & -> & Hx)%list_elem_of_fmap. case_bool_decide as Ex; [done|].
  intros Hn'. destruct Ex. by rewrite <- Hn.
Qed.

Lemma names_added c mid x added :
  added_by c mid x added → (∀ y, y ∈ added → row_ok y) ∧ (sp_name <$> added) `prefix_of` names_given x.
Proof.
  destruct x as [now []]; simpl; try (intros ->; split; [by intros y ?%elem_of_nil|apply prefix_nil]).
  - intros [->|(r & -> & En & Hst & Hh)]; [split; [by intros y ?%elem_of_nil|apply prefix_nil]|].
    split; [|unfold names_given; simpl; by rewrite En]. intros y ->%list_elem_of_singleton. unfold row_ok. rewrite Hst. by exists host.
  - intros (names & t & Hp & -> & _ & _). split.
    + by intros y (n & -> & _)%list_elem_of_fmap.
    + unfold names_given. simpl. rewrite <- list_fmap_compose. replace (sp_name ∘ starting_row now key <$> names) with names; [done|].
      symmetry. rewrite <- (list_fmap_id names) at 2. by apply list_fmap_ext.
Qed.

Lemma handed_step given c t x handed :
  handed_ok given t handed → NoDup (given ++ names_given x) →
  handed_ok (given ++ names_given x) (pool_step c t x) (handed ++ handed_by t x).
Proof.
  intros [Ho Hu Hg Hn Hk Hgone] Hfresh. destruct (step_shape c t x) as (mid & added & Hshr & E & Ha).
  destruct (names_added _ _ _ _ Ha) as [Hao Han]. apply NoDup_app in Hfresh as (Hng & Hdis & Hnx).
  pose proof (shrinks_ok _ _ Hshr Ho) as Hom.
  assert (∀ n, n ∈ sp_name <$> mid → n ∈ given) as Hmid.
  { intros n (r & -> & Hr)%list_elem_of_fmap. destruct (shrinks_from _ _ _ Hshr Ho Hr) as (y & Hy & -> & _).
    apply Hg. by apply list_elem_of_fmap_2. }
  assert (∀ n, n ∈ sp_name <$> added → n ∈ names_given x) as Hadd.
  { intros n Hin. destruct Han as [k ->]. rewrite elem_of_app. by left. }
  assert (∀ r, r ∈ spares (pool_step c t x) → sp_name r ∈ given →
    ∃ y, y ∈ spares t ∧ sp_name r = sp_name y ∧ (unassigned r = true → unassigned y = true)) as Hfrom.
  { intros r Hr Hin. rewrite E in Hr. apply elem_of_app in Hr as [Hr|Hr]; [by apply (shrinks_from _ _ _ Hshr)|].
    destruct (Hdis (sp_name r) Hin). apply Hadd. by apply list_elem_of_fmap_2. }
  assert (∀ r, r ∈ spares (pool_step c t x) → sp_name r ∈ handle_name <$> handed.*1 → unassigned r = false) as Hold.
  { intros r Hr Hin. destruct (Hfrom r Hr (Hk _ Hin)) as (y & Hy & En & Hun).
    apply not_true_iff_false. intros Hur. rewrite En in Hin. specialize (Hgone y Hy Hin). rewrite (Hun Hur) in Hgone. done. }
  assert (Forall row_ok (spares (pool_step c t x)) ∧ NoDup (sp_name <$> spares (pool_step c t x)) ∧
    (sp_name <$> spares (pool_step c t x)) ⊆ given ++ names_given x) as (H1 & H2 & H3).
  { rewrite E, fmap_app. split_and!.
    - apply Forall_app. split; [done|]. apply Forall_forall. exact Hao.
    - apply NoDup_app. split_and!; [by eapply shrinks_names| |].
      + intros n Hin1 Hin2. by apply (Hdis n); [apply Hmid|apply Hadd].
      + eapply sublist_NoDup; [exact Hnx|]. destruct Han as [k ->]. apply sublist_inserts_r. done.
    - intros n. rewrite !elem_of_app. intros [?|?]; [left; by apply Hmid|right; by apply Hadd]. }
  destruct (decide (handed_by t x = [])) as [Eh|Eh].
  { rewrite Eh, app_nil_r. split; try done. intros n Hin. rewrite elem_of_app. left. by apply Hk. }
  destruct x as [now [key host config order| | | | | | | | |]]; try done. unfold handed_by in *.
  destruct (claim now key host config order t) as [[[h|]|e] t'] eqn:Ec; try done. simpl in *.
  destruct (claim_hands_out _ _ _ _ _ _ _ _ Ho Ec) as (r & Hr & Hur & En & Hafter).
  assert (handle_name h ∈ given) as Hgiven by (apply Hg; rewrite <- En; by apply list_elem_of_fmap_2).
  assert (handle_name h ∉ handle_name <$> handed.*1) as Hnew.
  { rewrite <- En. intros Hin. specialize (Hgone r Hr Hin). congruence. }
  rewrite app_nil_r in *. split; try done; rewrite ?fmap_app; simpl.
  - apply NoDup_app. split_and!; [done| |apply NoDup_singleton]. by intros n Hin ->%list_elem_of_singleton.
  - intros n. rewrite elem_of_app, list_elem_of_singleton. intros [?| ->]; [by apply Hk|done].
  - intros y Hy Hin. rewrite elem_of_app, list_elem_of_singleton in Hin. destruct Hin as [Hin|Hin]; [by apply Hold|].
    apply Hafter; [|done]. cbn [pool_step] in Hy. by rewrite Ec in Hy.
Qed.

Lemma run_handed_ok c ops :
  NoDup (ops ≫= names_given) →
  handed_ok (ops ≫= names_given) (fst (run_handed c ops)) (snd (run_handed c ops)).
Proof.
  induction ops as [|x ops IH] using rev_ind; intros Hn.
  - split; [constructor|constructor|done|constructor|done|]. by intros r ?%elem_of_nil.
  - rewrite run_handed_snoc. rewrite bind_app in *. simpl in *. rewrite app_nil_r in *. apply handed_step; [|done].
    apply IH. by apply NoDup_app in Hn as [? _].
Qed.

(** C37. A spare sandbox is handed to one host only: as long as new rows get new
    names, no two claims are ever answered with the same sandbox. *)
Theorem spares_handed_out_once c ops :
  NoDup (ops ≫= names_given) → NoDup (handle_name <$> (handed_out c ops).*1).
Proof. intros Hn. by destruct (run_handed_ok c ops Hn). Qed.
End pool_rows.

(** ** Witnesses *)

Module Stand_in_handles.
Export Stand_ins.

#[export] Instance ser_handle : Ser SpareHandle :=
  ser_iso (λ h, (control_route h, control_token h, handle_name h, resource_id h, handle_route h, canonical_region h))
          (λ '(a, c, n, i, r, g), Build_SpareHandle a c n i r g) ltac:(by intros []).
End Stand_in_handles.
Import Stand_in_handles.

Definition demo_pool : PoolConfig := {| pool_idle := 2; fleet_maximum := 3; max_starting := 2; idle_ttl_seconds := 600 |}.

Definition demo_handle (name : bytes) : SpareHandle :=
  {| control_route := b"c"; control_token := b"t"; handle_name := name; resource_id := b"r"; handle_route := b"h";
     canonical_region := b"canada" |}.

(** Two spares are built, both are handed out, and others take their place; the
    third host finds none that is ready. *)
Definition demo_pool_ops : list (N * pool_op) :=
  [(0, OpReplenish (b"k") 5 [b"s1"; b"s2"; b"s3"]);
   (10, OpBuild (b"k") (b"s1") 600 (Ok (demo_handle (b"s1")))); (11, OpBuild (b"k") (b"s2") 600 (Ok (demo_handle (b"s2"))));
   (20, OpClaim (b"k") (b"h1") (b"cfg") [b"s2"; b"s1"]); (21, OpReplenish (b"k") 5 [b"s4"; b"s5"]);
   (22, OpClaim (b"k") (b"h2") (b"cfg") [b"s1"; b"s2"; b"s4"]); (23, OpClaim (b"k") (b"h3") (b"cfg") [b"s1"; b"s2"; b"s4"]);
   (24, OpReplenish (b"k") 5 [b"s6"; b"s7"])].

Example demo_handed : (λ x, (handle_name (fst x), snd x)) <$> handed_out demo_pool demo_pool_ops = [(b"s1", b"h1"); (b"s2", b"h2")].
Proof. vm_compute. reflexivity. Qed.

Lemma spares_handed_out_once_witness : NoDup (handle_name <$> (handed_out demo_pool demo_pool_ops).*1).
Proof.
  apply (spares_handed_out_once demo_pool demo_pool_ops). apply (bool_decide_unpack _). vm_compute. exact I.
Defined.

Lemma pool_within_limits_witness :
  count_where in_fleet (spares (pool_run demo_pool demo_pool_ops)) = 2 ∧
  count_where in_fleet (spares (pool_run demo_pool demo_pool_ops)) ≤ 3.
Proof.
  split; [vm_compute; reflexivity|].
  apply (pool_within_limits demo_pool demo_pool_ops (b"k")); vm_compute; discriminate.
Defined.
