(* ===== verification/Sqlite.v ===== *)
(** * The SQLite database of an actor

    [src/src/host/actor_database/sqlite.rs] with the calls of
    [src/src/actor/database.rs]: what an actor may do with its database, the fields
    the runtime keeps for it, and which calls committed something. SQLite itself
    ([rusqlite]) is the class [Connection]: preparing a statement tells which
    actions its parser asks the authorizer about, and running one changes the
    database and fires the commit and rollback hooks. *)

From Stdlib Require Import Floats.SpecFloat.
From S2P Require Import Prelude Text Effects Btree.
Local Open Scope N_scope.

(** ** Calls *)

Inductive SqlValue :=
| SqlNull
| SqlInteger (value : Z)
| SqlReal (value : spec_float)
| SqlText (value : bytes)
| SqlBlob (value : bytes).

(** A [BTreeMap<String, Box<RawValue>>]; a raw value is its JSON text. *)
Abbreviation field_map := (list (bytes * bytes)).

Inductive DatabaseCall :=
| Exec (sql : bytes) (bindings : list SqlValue) (immediate : bool)
| Fields (names : option (list bytes))
| InitializeFields (fields : field_map)
| PersistField (name value : bytes) (immediate : bool)
| DeleteField (name : bytes) (immediate : bool)
| ReplaceFields (fields : field_map)
| GetAlarm
| SetAlarm (timestamp_ms : Z) (immediate : bool)
| DeleteAlarm (immediate : bool)
| Commit
| Rollback.

Inductive DatabaseResult :=
| Rows (columns : list bytes) (rows : list (list SqlValue))
| FieldsResult (fields : field_map)
| AlarmResult (timestamp_ms : option Z)
| DoneResult.

Definition immediate (c : DatabaseCall) : bool :=
  match c with
  | Exec _ _ i | PersistField _ _ i | DeleteField _ i | SetAlarm _ i | DeleteAlarm i => i
  | _ => false
  end.

(** ** What a statement may touch *)

(** [AuthAction], with the names the authorizer looks at. *)
Inductive AuthAction :=
| Attach
| Detach
| Pragma (pragma_name : bytes)
| CreateIndex (index_name table_name : bytes)
| CreateTempIndex (index_name table_name : bytes)
| DropIndex (index_name table_name : bytes)
| DropTempIndex (index_name table_name : bytes)
| CreateTrigger (trigger_name table_name : bytes)
| CreateTempTrigger (trigger_name table_name : bytes)
| DropTrigger (trigger_name table_name : bytes)
| DropTempTrigger (trigger_name table_name : bytes)
| CreateView (view_name : bytes)
| CreateTempView (view_name : bytes)
| DropView (view_name : bytes)
| DropTempView (view_name : bytes)
| CreateTable (table_name : bytes)
| CreateTempTable (table_name : bytes)
| DropTable (table_name : bytes)
| DropTempTable (table_name : bytes)
| Delete (table_name : bytes)
| Insert (table_name : bytes)
| Analyze (table_name : bytes)
| Read (table_name : bytes)
| Update (table_name : bytes)
| AlterTable (table_name : bytes)
| CreateVtable (table_name : bytes)
| DropVtable (table_name : bytes)
| OtherAction.

Definition FILES : string := "actor invocations own SQLite database files".
Definition RESERVED : string := "SQLite runtime table names are reserved".
Definition PRAGMAS : string := "this SQLite pragma is managed by the actor runtime".

Definition ALLOWED_PRAGMAS : list bytes :=
  [b"table_info"; b"table_xinfo"; b"index_info"; b"index_xinfo"; b"index_list"; b"foreign_key_list";
   b"foreign_key_check"; b"integrity_check"; b"quick_check"; b"user_version"].

Definition to_ascii_lowercase (s : bytes) : bytes :=
  (λ x, if is_ascii_uppercase x then byte_of (Byte.to_N x + 32) else x) <$> s.

Definition names (a : AuthAction) : list bytes :=
  match a with
  | CreateIndex i t | CreateTempIndex i t | DropIndex i t | DropTempIndex i t => [i; t]
  | CreateTrigger i t | CreateTempTrigger i t | DropTrigger i t | DropTempTrigger i t => [i; t]
  | CreateView v | CreateTempView v | DropView v | DropTempView v => [v]
  | CreateTable t | CreateTempTable t | DropTable t | DropTempTable t | Delete t | Insert t | Analyze t
  | Read t | Update t | AlterTable t | CreateVtable t | DropVtable t => [t]
  | _ => []
  end.

Definition reserved (name : bytes) : bool :=
  let name := to_ascii_lowercase name in
  starts_with (b"__terse_") name || starts_with (b"_litestream_") name.

Definition denial (a : AuthAction) : option string :=
  match a with
  | Attach | Detach => Some FILES
  | Pragma p => if bool_decide (to_ascii_lowercase p ∈ ALLOWED_PRAGMAS) then None else Some PRAGMAS
  | a => if existsb reserved (names a) then Some RESERVED else None
  end.

(** ** SQLite *)

(** What preparing a statement comes to when the authorizer denies nothing. *)
Inductive prepared :=
| Prepared (columns : list bytes)
| MultipleStatement
| PrepareFailed (error : string).

(** The hooks SQLite calls while a statement runs. *)
Inductive hook := CommitHook | RollbackHook.

Class Connection (conn : Type) := {
  conn_actions : conn → bytes → list AuthAction;
  conn_prepare : conn → bytes → prepared;
  conn_query : bytes → list SqlValue → conn → conn * (list hook * result (list (list SqlValue)));
  conn_autocommit : conn → bool;
}.

(** [RawValue::from_string] accepts the text. *)
Class RawJson := raw_valid : bytes → bool.

(** ** The engine *)

Record Engine (conn : Type) := {
  connection : conn;
  (** Set by the commit hook, cleared by the rollback hook. *)
  commit_seen : bool;
}.
Arguments connection {_}. Arguments commit_seen {_}. Arguments Build_Engine {_}.

Record Executed := {
  exec_result : result DatabaseResult;
  exec_committed : bool;
}.

Definition after_hook (seen : bool) (h : hook) : bool :=
  match h with CommitHook => true | RollbackHook => false end.

Definition FIELDS_SQL : bytes := b"SELECT name, value FROM __terse_fields
            WHERE ?1 IS NULL OR name IN (SELECT value FROM json_each(?1))".
Definition INITIALIZE_SQL : bytes :=
  b"INSERT INTO __terse_fields (name, value) VALUES (?, ?) ON CONFLICT(name) DO NOTHING".
Definition PERSIST_SQL : bytes := b"INSERT INTO __terse_fields (name, value) VALUES (?, ?)
            ON CONFLICT(name) DO UPDATE SET value = excluded.value WHERE value <> excluded.value".
Definition DELETE_SQL : bytes := b"DELETE FROM __terse_fields WHERE name = ?".
Definition KEEP_SQL : bytes :=
  b"DELETE FROM __terse_fields WHERE name NOT IN (SELECT value FROM json_each(?))".

Module SqliteEngine.
Section engine.
Context {conn : Type} `{!Connection conn} `{!RawJson} `{!Json (list bytes)}.
Abbreviation engine := (stated (Engine conn)).

(** A statement runs, and its hooks fire. *)
Definition execute (sql : bytes) (bindings : list SqlValue) : engine (list (list SqlValue)) := λ e,
  let '(c, (hooks, r)) := conn_query sql bindings (connection e) in
  ({| connection := c; commit_seen := foldl after_hook (commit_seen e) hooks |}, r).

(** The authorizer keeps the first reason to deny. *)
Definition prepare_actor_statement (sql : bytes) : engine (list bytes) := λ e,
  match head (omap denial (conn_actions (connection e) sql)) with
  | Some reason => (e, Err reason)
  | None =>
      match conn_prepare (connection e) sql with
      | Prepared columns => (e, Ok columns)
      | MultipleStatement => (e, Err "actor database exec accepts one SQL statement")
      | PrepareFailed error => (e, Err error)
      end
  end.

Definition exec (sql : bytes) (bindings : list SqlValue) : engine DatabaseResult :=
  columns ← prepare_actor_statement sql;
  rows ← execute sql bindings;
  mret (Rows columns rows).

(** A row of [__terse_fields]. *)
Definition field_of (row : list SqlValue) : result (bytes * bytes) :=
  match row with
  | [SqlText name; SqlText value] =>
      ensure (raw_valid value) "invalid raw value";; Ok (name, value)
  | _ => Err "invalid column type"
  end.

Definition fields (ns : option (list bytes)) : engine DatabaseResult :=
  rows ← execute FIELDS_SQL [match ns with Some ns => SqlText (to_json ns) | None => SqlNull end];
  kvs ← pure_check (mapR field_of rows);
  mret (FieldsResult (bt_of_list kvs)).

Definition initialize (fs : field_map) : engine unit :=
  each (λ '(name, value), execute INITIALIZE_SQL [SqlText name; SqlText value];; mret ()) fs.

Definition persist (name value : bytes) : engine unit :=
  execute PERSIST_SQL [SqlText name; SqlText value];; mret ().

Definition delete_field (name : bytes) : engine unit := execute DELETE_SQL [SqlText name];; mret ().

Definition replace (fs : field_map) : engine unit :=
  each (λ '(name, value), persist name value) fs;;
  execute KEEP_SQL [SqlText (to_json (fst <$> fs))];; mret ().

Definition finish (sql : bytes) : engine DatabaseResult := λ e,
  if conn_autocommit (connection e) then (e, Ok DoneResult) else (execute sql [];; mret DoneResult) e.

(** Alarm calls never come here: they are for the control plane. *)
Definition write (c : DatabaseCall) : engine DatabaseResult :=
  match c with
  | Exec sql bindings _ => exec sql bindings
  | InitializeFields fs => initialize fs;; mret DoneResult
  | PersistField name value _ => persist name value;; mret DoneResult
  | DeleteField name _ => delete_field name;; mret DoneResult
  | ReplaceFields fs => replace fs;; mret DoneResult
  | _ => pure_check (Err "unreachable")
  end.

Definition engine_call (c : DatabaseCall) (e : Engine conn) : Engine conn * Executed :=
  let '(e, r) := match c with
                 | Commit => finish (b"COMMIT") e
                 | Rollback => finish (b"ROLLBACK") e
                 | Fields ns => fields ns e
                 | c => write c e
                 end in
  ({| connection := connection e; commit_seen := false |},
   {| exec_result := r; exec_committed := commit_seen e && conn_autocommit (connection e) |}).
End engine.
End SqliteEngine.

(** ** Statements of an actor stay within its own tables *)

(** What the authorizer lets through. *)
Definition harmless (a : AuthAction) : Prop :=
  a ≠ Attach ∧ a ≠ Detach ∧ (∀ p, a = Pragma p → to_ascii_lowercase p ∈ ALLOWED_PRAGMAS) ∧
  ∀ t, t ∈ names a → reserved t = false.

Lemma existsb_reserved l : (if existsb reserved l then Some RESERVED else None) = None ↔ ∀ t, t ∈ l → reserved t = false.
Proof. rewrite <- Forall_forall, <- existsb_false. by destruct (existsb reserved l). Qed.

Lemma denial_None a : denial a = None ↔ harmless a.
Proof.
  unfold harmless. destruct a as [| |p|i t|i t|i t|i t|i t|i t|i t|i t|v|v|v|v|t|t|t|t|t|t|t|t|t|t|t|t|];
    lazymatch goal with
    | |- denial Attach = _ ↔ _ => split; [done|naive_solver]
    | |- denial Detach = _ ↔ _ => split; [done|naive_solver]
    | |- denial (Pragma p) = _ ↔ _ => idtac
    | |- denial ?a = _ ↔ _ =>
        change (denial a) with (if existsb reserved (names a) then Some RESERVED else None);
        rewrite existsb_reserved; split; [intros Hr; split_and!; [discriminate..|exact Hr]|by intros (_ & _ & _ & Hr)]
    end.
  simpl. rewrite bool_decide_decide. case_decide; split; try done.
  - intros _. split_and!; [done..| |set_solver]. by intros ? [= <-].
  - intros (_ & _ & Hp & _). by specialize (Hp p eq_refl).
Qed.

Section sqlite.
Context {conn : Type} `{!Connection conn} `{!RawJson} `{!Json (list bytes)}.

Lemma head_omap_None {A B} (f : A → option B) l : head (omap f l) = None ↔ ∀ x, x ∈ l → f x = None.
Proof.
  induction l as [|x l IH]; simpl; [set_solver|]. destruct (f x) eqn:E; simpl.
  - split; [done|]. intros Hn. by rewrite Hn in E by set_solver.
  - rewrite IH. set_solver.
Qed.

(** A statement of an actor runs only if every action its parser reported is
    harmless: no other file is attached, no table of the runtime or of the
    replication is named under any spelling, and no pragma but the listed ones is
    used; a statement that is denied leaves the database as it was. *)
Theorem actor_statements_stay_inside (sql : bytes) (bindings : list SqlValue) (e : Engine conn) :
  (∀ a, a ∈ conn_actions (connection e) sql → harmless a) ∨
  ∃ reason, reason ∈ [FILES; RESERVED; PRAGMAS] ∧ SqliteEngine.exec sql bindings e = (e, Err reason).
Proof.
  unfold SqliteEngine.exec, SqliteEngine.prepare_actor_statement. unfold mbind, stated_bind.
  destruct (head _) as [reason|] eqn:E; [right|left].
  - exists reason. split; [|done]. apply head_Some_elem_of, list_elem_of_omap in E as (a & _ & E).
    destruct a; simpl in E; repeat case_match; simplify_eq; set_solver.
  - intros a Ha. apply denial_None. by apply (proj1 (head_omap_None _ _) E).
Qed.

(** ** The fields of an actor *)

(** What SQLite's documentation says of the statements on [__terse_fields], by the
    table they see. *)
Class FieldsTable := {
  fields_of : conn → gmap bytes bytes;
  query_fields c bound c' hooks rows :
    conn_query FIELDS_SQL [bound] c = (c', (hooks, Ok rows)) →
    fields_of c' = fields_of c ∧ ∃ kvs : list (bytes * bytes), NoDup (fst <$> kvs) ∧
      rows = (λ kv, [SqlText kv.1; SqlText kv.2]) <$> kvs ∧
      ∀ k v, (k, v) ∈ kvs ↔ fields_of c !! k = Some v ∧
        (bound = SqlNull ∨ ∃ ns, bound = SqlText (to_json ns) ∧ k ∈ ns);
  query_persist c k v c' hooks rows :
    conn_query PERSIST_SQL [SqlText k; SqlText v] c = (c', (hooks, Ok rows)) →
    fields_of c' = <[k := v]> (fields_of c);
  query_keep c ns c' hooks rows :
    conn_query KEEP_SQL [SqlText (to_json ns)] c = (c', (hooks, Ok rows)) →
    fields_of c' = filter (λ kv, kv.1 ∈ ns) (fields_of c);
}.
Context `{!FieldsTable}.

Lemma execute_Ok sql bindings (e e' : Engine conn) rows :
  SqliteEngine.execute sql bindings e = (e', Ok rows) →
  ∃ hooks, conn_query sql bindings (connection e) = (connection e', (hooks, Ok rows)).
Proof.
  unfold SqliteEngine.execute. destruct (conn_query _ _ _) as [c [hooks r]]. intros [= <- ->]. by exists hooks.
Qed.

Lemma stated_bind_Ok {S A B} (p : stated S A) (f : A → stated S B) s s' x :
  (p ≫= f) s = (s', Ok x) → ∃ s1 a, p s = (s1, Ok a) ∧ f a s1 = (s', Ok x).
Proof. unfold mbind, stated_bind. destruct (p s) as [s1 [a|e]]; [|done]. eauto. Qed.

Lemma persist_each (fs : field_map) (e e' : Engine conn) :
  each (λ '(name, value), SqliteEngine.persist name value) fs e = (e', Ok ()) →
  fields_of (connection e') = foldl (λ m kv, <[kv.1 := kv.2]> m) (fields_of (connection e)) fs.
Proof.
  revert e; induction fs as [|[k v] fs IH]; intros e; simpl; [by intros [= <-]|].
  intros (e1 & [] & Hp & Hr)%stated_bind_Ok. apply IH in Hr as ->. f_equal.
  apply stated_bind_Ok in Hp as (e2 & rows & Hp & [= <-]). apply execute_Ok in Hp as [hooks Hp].
  by eapply query_persist.
Qed.

Lemma foldl_insert_lookup (fs : field_map) (m : gmap bytes bytes) k :
  NoDup (fst <$> fs) →
  foldl (λ m kv, <[kv.1 := kv.2]> m) m fs !! k = match bt_get k fs with Some v => Some v | None => m !! k end.
Proof.
  revert m; induction fs as [|[j v] fs IH]; intros m; simpl; [done|]. intros [Hn Hd]%NoDup_cons.
  rewrite IH by done. destruct (bt_get k fs) eqn:E.
  - apply bt_get_elem in E. rewrite decide_False; [done|]. intros ->. apply Hn, list_elem_of_fmap. eexists (k, _). by split.
  - rewrite lookup_insert. by repeat case_decide.
Qed.

Lemma increasing_NoDup (fs : field_map) : increasing fs → NoDup (fst <$> fs).
Proof.
  induction 1 as [|k v fs Hk Hi IH]; [constructor|]. rewrite fmap_cons. apply NoDup_cons. split; [|done].
  rewrite Forall_forall in Hk. simpl. intros ([j w] & -> & Hin)%list_elem_of_fmap. specialize (Hk _ Hin).
  cbn [fst] in Hk. by rewrite key_lt_irrefl in Hk.
Qed.

Lemma replace_fields_of (fs : field_map) (e e' : Engine conn) :
  increasing fs → SqliteEngine.replace fs e = (e', Ok ()) →
  ∀ k, fields_of (connection e') !! k = bt_get k fs.
Proof.
  intros Hi (e1 & [] & He & Hr)%stated_bind_Ok k. apply stated_bind_Ok in Hr as (e2 & rows & Hk & [= ->]).
  apply execute_Ok in Hk as [hooks Hk]. apply query_keep in Hk as ->. apply persist_each in He.
  destruct (bt_get k fs) as [v|] eqn:E.
  - apply map_lookup_filter_Some. rewrite He, foldl_insert_lookup, E by by apply increasing_NoDup. split; [done|].
    simpl. apply list_elem_of_fmap. exists (k, v). split; [done|]. by apply bt_get_elem.
  - apply map_lookup_filter_None. right. intros v _ Hin. simpl in Hin. apply list_elem_of_fmap in Hin as ([j w] & -> & Hin). simpl in *.
    by rewrite (bt_elem_get j w fs Hi Hin) in E.
Qed.

Lemma mapR_field_of (kvs : list (bytes * bytes)) kvs' :
  mapR SqliteEngine.field_of ((λ kv, [SqlText kv.1; SqlText kv.2]) <$> kvs) = Ok kvs' → kvs' = kvs.
Proof.
  revert kvs'; induction kvs as [|[k v] kvs IH]; intros kvs' Hm; simpl in Hm; [by inv_ok|].
  apply bind_Ok in Hm as (kv & Hkv & Hm). apply bind_Ok in Hkv as (u & _ & [= <-]).
  apply bind_Ok in Hm as (rest & Hr & [= <-]). f_equal. by apply IH.
Qed.

(** Replacing the fields of an actor and reading them back gives the same fields,
    whatever was there before, in the order of their names. *)
Theorem fields_replaced (fs fs' : field_map) (e e1 e2 : Engine conn) :
  increasing fs →
  SqliteEngine.replace fs e = (e1, Ok ()) → SqliteEngine.fields None e1 = (e2, Ok (FieldsResult fs')) →
  fs' = fs.
Proof.
  intros Hi Hrep (e3 & rows & Hq & Hf)%stated_bind_Ok. pose proof (replace_fields_of _ _ _ Hi Hrep) as Hr.
  apply execute_Ok in Hq as [hooks Hq]. apply query_fields in Hq as (_ & kvs & Hnd & -> & Hkv).
  apply stated_bind_Ok in Hf as (e4 & kvs' & Hm & [= _ <-]). injection Hm as <- Hm. apply mapR_field_of in Hm as ->.
  apply bt_ext; [apply bt_of_list_increasing|done|]. intros k. rewrite <- Hr. apply option_eq. intros v.
  rewrite bt_get_of_list, Hkv by done. naive_solver.
Qed.
End sqlite.
