(* ===== verification/Capture.v ===== *)
(** * Capturing the commits of an actor's database

    [SqliteCapture] of [src/src/litestream/storage.rs] and the capture of
    [src/src/litestream.rs]: after every commit the replication writes LTX files
    beside the database, and a state commit takes along the files since the last
    one. The replication library ([terse_litestream]) and SQLite are the class
    [Litestream]. The registry of captures is keyed by the path of a database,
    which is a fresh directory each time, so a capture's entry is part of it
    here. *)

From S2P Require Import Prelude Text Demo Names Payload StateLog Effects Btree Buckets Recovery Runtime LocalStore Sqlite.
Local Open Scope N_scope.

(** [lite] is an actor's directory: the SQLite file and its connection, the capture
    of its log, and the replica directory. *)
Class Litestream := {
  lite : Type;
  (** [tempfile::tempdir], by its random name *)
  lite_tempdir : bytes → result lite;
  (** [terse_litestream::restore_with] into the directory *)
  lite_restore_with : list LtxFile → N → stated lite unit;
  (** the journal mode and the table of the fields *)
  lite_create_tables : stated lite unit;
  (** [Database::resume] and [Database::with_store] *)
  lite_resume : N → stated lite unit;
  lite_with_store : stated lite unit;
  lite_position : lite → N;
  (** [Database::sync], which says whether anything was captured *)
  lite_sync : stated lite bool;
  lite_snapshot : stated lite unit;
  (** the entries of [replica/ltx/<level>] with their contents, none when it is
      missing *)
  lite_ltx : lite → N → result (list (bytes * bytes));
  (** removes the segments that end at or before a transaction *)
  lite_prune : N → stated lite unit;
  (** [Engine::open] *)
  lite_open_engine : stated lite unit;
  #[global] lite_connection :: Connection lite;
}.

Section capture.
Context `{!Litestream} {L : Type}.

(** ** The files of a commit *)

(** [range]: the transactions a file name stands for *)
Definition range (name : bytes) : option (N * N) :=
  stem ← strip_suffix (b".ltx") name;
  '(f, l) ← split_once x2d stem;
  if (len f =? 16) && (len l =? 16) then
    f ← from_str_radix 16 f;
    l ← from_str_radix 16 l;
    if (0 <? f) && (f <=? l) then Some (f, l) else None
  else None.

Definition ltx_entry (after through : N) (e : bytes * bytes) : option (N * N * bytes) :=
  '(f, l) ← range e.1;
  if (through <? l) || (l <=? after) then None else Some (f, l, e.2).

Definition by_range (x y : N * N * bytes) : bool := pair_leb x.1 y.1.

Definition read_ltx (lvl : N) (e : N * N * bytes) : result LtxFile :=
  bs ← copy [e.2];
  Ok {| level := lvl; first := e.1.1; last := e.1.2; data := bs |}.

Definition read_ltx_files (l : lite) (after lvl through : N) : result (list LtxFile) :=
  entries ← lite_ltx l lvl;
  let fs := sort_by by_range (omap (ltx_entry after through) entries) in
  let fs := if (lvl =? 9) && (1 <? len fs) then dropN (len fs - 1) fs else fs in
  mapR (read_ltx lvl) fs.

(** One turn of the loop of [collect_ltx_files]. *)
Definition collect_step (acc : N * list LtxFile) (f : LtxFile) : result (N * list LtxFile) :=
  let '(next, fs) := acc in
  if last f <? next then Ok acc
  else
    ensure (first f =? next) "Litestream capture has a transaction gap";;
    next ← ctx (checked_add (last f) 1) "Litestream transaction overflow";
    Ok (next, fs ++ [f]).

Definition collect_ltx_files (l : lite) (after through : N) : result (list LtxFile) :=
  full ← read_ltx_files l after 9 through;
  let checkpoint := max_by_key last (filter (λ f, after < last f) full) in
  let next := match checkpoint with Some f => last f + 1 | None => after + 1 end in
  deltas ← read_ltx_files l after 0 through;
  '(next, fs) ← foldM collect_step (next, match checkpoint with Some f => [f] | None => [] end) deltas;
  stop ← ctx (checked_add through 1) "Litestream transaction overflow";
  ensure (next =? stop) "Litestream has not replicated the actor commit";;
  Ok fs.

(** ** The capture of a database *)

(** [SqliteCapture] with its [Capture] of the registry *)
Record SqliteCapture := {
  cap_lite : lite;
  cap_full_snapshots : option N;
  cap_snapshot_at : N;
  cap_txid : N;
  cap_published : N;
}.

Definition set_lite (l : lite) (c : SqliteCapture) : SqliteCapture :=
  {| cap_lite := l; cap_full_snapshots := cap_full_snapshots c; cap_snapshot_at := cap_snapshot_at c;
     cap_txid := cap_txid c; cap_published := cap_published c |}.

(** A call on the directory. *)
Definition on_lite {A} (p : stated lite A) : stateful L SqliteCapture A := λ c,
  let '(l, r) := p (cap_lite c) in mret (set_lite l c, r).

(** [open_capture]: a history that cannot be resumed is started anew. *)
Definition open_capture (resume_at : option N) : stated lite unit := λ l,
  match resume_at with
  | Some t =>
      let '(l, r) := lite_resume t l in
      match r with Ok _ => (l, Ok ()) | Err _ => lite_with_store l end
  | None => lite_with_store l
  end.

(** [SqliteCapture::open], with [Registry::register] *)
Definition capture_open (l : lite) (full_snapshots resume_at : option N) : prog L SqliteCapture :=
  let '(l, r) := (lite_create_tables;; open_capture resume_at) l in
  lift r;;
  now ← instant;
  mret {| cap_lite := l; cap_full_snapshots := full_snapshots; cap_snapshot_at := now;
          cap_txid := lite_position l; cap_published := lite_position l |}.

Definition tempdir : prog L lite := name ← new_uuid; lift (lite_tempdir name).

Definition capture_new (full_snapshots : option N) : prog L SqliteCapture :=
  l ← tempdir; capture_open l full_snapshots None.

(** [EmbeddedRestore::restore] *)
Definition restore_database (fs : list LtxFile) (tx : N) (l : lite) : lite * result unit :=
  match (ensure (0 <? tx) "cannot restore an empty SQLite position";; mapR ltx_validate fs) with
  | Ok _ => lite_restore_with fs tx l
  | Err e => (l, Err e)
  end.

Definition capture_restore (fs : list LtxFile) (tx : N) (full_snapshots : option N) (resume : bool)
    : prog L SqliteCapture :=
  l ← tempdir;
  let '(l, r) := restore_database fs tx l in
  lift r;;
  capture_open l full_snapshots (if resume then Some tx else None).

(** [Capture::sync]: now and then a full copy for stores without checkpoints *)
Definition capture_sync : stateful L SqliteCapture N :=
  changed ← on_lite lite_sync;
  c ← get_state;
  match cap_full_snapshots c with
  | Some interval =>
      if (changed : bool) then
        now ← call instant;
        if interval <=? now - cap_snapshot_at c then
          on_lite lite_snapshot;;
          now ← call instant;
          modify (λ c : SqliteCapture, {| cap_lite := cap_lite c; cap_full_snapshots := cap_full_snapshots c; cap_snapshot_at := now;
                          cap_txid := cap_txid c; cap_published := cap_published c |})
        else mret ()
      else mret ()
  | None => mret ()
  end;;
  c ← get_state;
  mret (lite_position (cap_lite c)).

(** [SqliteCapture::capture]; files that cannot be removed only cost space. *)
Definition capture (tx : N) : stateful L SqliteCapture (list LtxFile) :=
  c ← get_state;
  check (ensure (cap_txid c <=? tx) "SQLite transaction went backwards");;
  fs ← check (collect_ltx_files (cap_lite c) (cap_published c) tx);
  modify (λ c : SqliteCapture, {| cap_lite := (lite_prune tx (cap_lite c)).1; cap_full_snapshots := cap_full_snapshots c;
                  cap_snapshot_at := cap_snapshot_at c; cap_txid := tx; cap_published := tx |});;
  mret fs.
End capture.

(** ** The captured files continue the history *)

Section capture_lemmas.
Context `{!Litestream}.

(** The files follow each other from transaction [next] on. *)
Fixpoint follows (next : N) (fs : list LtxFile) : Prop :=
  match fs with
  | [] => True
  | f :: fs => first f = next ∧ follows (last f + 1) fs
  end.

Lemma collect_loop next acc ds next' fs :
  foldM collect_step (next, acc) ds = Ok (next', fs) → ∃ kept, fs = acc ++ kept ∧ follows next kept.
Proof.
  revert next acc; induction ds as [|f ds IH]; intros next acc; cbn [foldM].
  { intros [= _ <-]. exists []. by rewrite app_nil_r. }
  intros (x & Hstep & Hrest)%bind_Ok. unfold collect_step in Hstep. case_match.
  - injection Hstep as <-. eauto.
  - inv_ok. subst. apply IH in Hrest as (kept & -> & Hk). exists (f :: kept). rewrite <- app_assoc.
    split; [done|]. split; [done|]. by match goal with H : context [last f + 1] |- _ => idtac | H : follows ?n kept |- _ =>
      replace (last f + 1) with n by lia end.
Qed.

Lemma read_ltx_level l after lvl through fs :
  read_ltx_files l after lvl through = Ok fs → Forall (λ f, level f = lvl) fs.
Proof.
  unfold read_ltx_files. intros (es & _ & Hm)%bind_Ok.
  match goal with H : mapR _ ?x = _ |- _ => generalize x H end. clear. intros es. revert fs.
  induction es as [|e es IH]; intros fs Hm; simpl in Hm; [by inv_ok; subst|].
  apply bind_Ok in Hm as (f & Hf & Hm). apply bind_Ok in Hm as (gs & Hg & [= <-]). constructor; [|by apply IH].
  unfold read_ltx in Hf. by inv_ok; subst.
Qed.

(** Either a full copy comes first, or the first file is the transaction after the
    last one that was published. *)
Lemma collect_shape l after through fs :
  collect_ltx_files l after through = Ok fs →
  (∃ f rest, fs = f :: rest ∧ level f = 9) ∨ follows (after + 1) fs.
Proof.
  unfold collect_ltx_files. intros (full & Hfull & Hc)%bind_Ok. apply bind_Ok in Hc as (deltas & Hd & Hc).
  apply bind_Ok in Hc as ([next gs] & Hl & Hc). inv_ok. subst.
  destruct (max_by_key last _) as [f|] eqn:E; apply collect_loop in Hl as (kept & -> & Hk); simpl; [left|by right].
  exists f, kept. split; [done|]. apply read_ltx_level in Hfull. rewrite Forall_forall in Hfull. apply Hfull.
  pose proof (max_by_key_spec last (filter (λ f, after < last f) full)) as Hm. rewrite E in Hm.
  destruct Hm as [Hm _]. apply list_elem_of_filter in Hm. by destruct Hm.
Qed.

Lemma sqlite_validate_parent s v f :
  sqlite_validate s v = Ok () → head (files s) = Some f → is_Some (parent s) → first f ≠ 1.
Proof.
  unfold sqlite_validate. intros Hv Hf [p Hp] E. inv_ok. rewrite Hp in *. simplify_eq.
  match goal with H : Bool.eqb _ _ = true |- _ => apply Bool.eqb_prop in H; rename H into He end.
  rewrite bool_decide_eq_false_2 in He by done. by apply N.eqb_neq in He.
Qed.

(** A state commit with the captured files that validates extends the history it
    names: with a parent, its files are an unbroken chain of valid files from the
    transaction after the last published one up to its own; without, from
    transaction 1. *)
Theorem capture_extends (l : lite) (after through v : N) (fs : list LtxFile) (p : option SnapshotRef) :
  collect_ltx_files l after through = Ok fs →
  sqlite_validate {| txid := through; parent := p; files := fs |} v = Ok () →
  foldM ltx_step (match p with Some _ => after + 1 | None => 1 end) fs = Ok (through + 1).
Proof.
  intros Hc Hv. destruct (sqlite_validate_chain _ _ Hv) as (f0 & Hhead & Hf & Hp & _). cbn [txid parent files] in *.
  assert (first f0 = match p with Some _ => after + 1 | None => 1 end) as <-; [|done].
  destruct p as [r|]; [|by apply Hp]. pose proof (sqlite_validate_parent _ _ f0 Hv Hhead ltac:(by eexists)) as Hne.
  destruct fs as [|g rest]; [done|]. injection Hhead as ->.
  destruct (collect_shape _ _ _ _ Hc) as [(f & gs & [= -> ->] & Hl)|[Hfirst _]]; [|done].
  destruct Hne. cbn [foldM] in Hf. apply bind_Ok in Hf as (n & (Hval & _)%ltx_step_inv & _).
  unfold ltx_validate in Hval. inv_ok. rewrite Hl in *.
  match goal with H : (9 != 9) || _ = true |- _ => by apply N.eqb_eq in H end.
Qed.
End capture_lemmas.
