(* ===== verification/Protocol.v ===== *)
(** * Invocations and socket effects

    The data an actor exchanges with its host: invocations and their outcomes
    ([src/src/actor/protocol.rs]), socket events and effects
    ([src/src/actor/executor_connection.rs]) and the checks on them
    ([src/src/actor/socket.rs]). *)

From S2P Require Import Prelude Text Names StateLog.
Local Open Scope N_scope.

(** What the sources ask of a [serde_json::Value]. *)
Class JsonOps `{JsonValue} := {
  value_null : Value;
  value_is_object : Value → bool;
  value_get : Value → bytes → option Value;
}.

(** [base64]'s [STANDARD.decode] *)
Class StandardBase64 := std_b64_decode : bytes → option bytes.

(** [str::chars().count()]: the bytes that start a character. *)
Definition chars_count (s : bytes) : N := len (filter (λ x, byte_in 128 191 x = false) s).

(** ** Invocations *)

Section invocations.
Context `{JsonValue}.

Record ActorInvocation := {
  inv_request_id : bytes;
  inv_actor : ActorKey;
  inv_method : bytes;
  inv_args : list Value;
}.

Definition validate_invocation (i : ActorInvocation) : result unit :=
  ensure (inv_request_id i != []) "request ID must not be empty";;
  ensure (len (inv_request_id i) <=? 255) "request ID must be at most 255 bytes";;
  validate_actor (inv_actor i);;
  validate_component "actor method" (inv_method i) MAX_METHOD_BYTES.

(** An invocation an actor makes of another one of its project. *)
Record ActorCall := {
  call_request_id : bytes;
  call_actor_name : bytes;
  call_actor_id : bytes;
  call_method : bytes;
  call_args : list Value;
}.

Definition in_project (c : ActorCall) (project : bytes) : ActorInvocation :=
  {| inv_request_id := call_request_id c;
     inv_actor := {| project_id := project; actor_name := call_actor_name c; actor_id := call_actor_id c |};
     inv_method := call_method c; inv_args := call_args c |}.

Record ActorInvocationFailure := {
  failure_code : bytes;
  failure_message : string;
}.

Definition outcome_unknown_after_execution : ActorInvocationFailure :=
  {| failure_code := b"outcome_unknown";
     failure_message :=
       "actor execution completed, but its durable publication outcome could not be confirmed" |}.

(** ** Sockets *)

Record ActorSocketConnection := {
  conn_id : bytes;
  conn_metadata : Value;
  conn_tags : list bytes;
}.

Inductive ActorSocketMessage :=
| TextMessage (data : bytes)
| BinaryMessage (data : bytes).

Inductive ActorSocketEvent :=
| Connect (c : ActorSocketConnection)
| Message (connection_id : bytes) (message : ActorSocketMessage)
| Disconnect (c : ActorSocketConnection) (code : N) (reason : bytes) (was_clean : bool).

Record ActorSocketInvocation := {
  sock_request_id : bytes;
  sock_actor : ActorKey;
  sock_event : ActorSocketEvent;
  sock_connections : list ActorSocketConnection;
}.

Inductive ActorSocketTagMatch := MatchAll | MatchAny.

Inductive ActorSocketEffect :=
| SetAutoResponse (request response : option bytes)
| StateSnapshotEffect (connection_id : bytes) (state : Value) (version : option N)
| StateUpdate (changes : Value) (removed except_connection_ids : list bytes) (version : option N)
| Send (connection_id : bytes) (message : ActorSocketMessage)
| Broadcast (message : ActorSocketMessage) (except_connection_ids tags : list bytes) (tag_match : ActorSocketTagMatch)
| Close (connection_id : bytes) (code : N) (reason : bytes)
| Reject (connection_id : bytes) (code : N) (reason : bytes)
| SetMetadata (connection_id : bytes) (metadata : Value)
| SetTags (connection_id : bytes) (tags : list bytes).

Inductive ActorExecutionResult :=
| Completed (result : Value) (effects : list ActorSocketEffect)
| Failed (failure : ActorInvocationFailure)
| HostUnavailable.

Record ActorInterleavedOutcome := {
  il_sequence : N;
  il_result : Value;
  il_effects : list ActorSocketEffect;
}.

Inductive ActorMethodOutcome :=
| MethodInterleaved (outcome : ActorInterleavedOutcome)
| MethodCompleted (result : Value) (effects : list ActorSocketEffect)
| MethodFailed (failure : ActorInvocationFailure).

Inductive ActorSocketOutcome :=
| SocketInterleaved (outcome : ActorInterleavedOutcome)
| SocketHandled (effects : list ActorSocketEffect)
| SocketFailed (failure : ActorInvocationFailure).

(** ** Checks on effects *)

Context `{!JsonOps} `{!Json Value} `{!StandardBase64}.

Definition MAX_SOCKET_METADATA_BYTES : N := 16 * 1024.
Definition MAX_SOCKET_CONNECTION_ID_BYTES : N := 128.
Definition MAX_SOCKET_TAGS : N := 10.
Definition MAX_SOCKET_TAG_CHARACTERS : N := 256.
Definition MAX_SOCKET_CLOSE_REASON_BYTES : N := 123.

Definition validate_socket_metadata (v : Value) : result unit :=
  ensure (len (to_json v) <=? MAX_SOCKET_METADATA_BYTES) "socket metadata exceeds 16384 bytes".

Definition validate_public_state (v : Value) : result unit :=
  ensure (value_is_object v) "public state must be a JSON object".

Definition validate_socket_message (m : ActorSocketMessage) : result unit :=
  match m with
  | BinaryMessage d => ctx (std_b64_decode d) "socket binary message is not valid base64";; Ok ()
  | TextMessage _ => Ok ()
  end.

Definition validate_connection_id (id : bytes) : result unit :=
  ensure (id != []) "socket connection ID is empty";;
  ensure (len id <=? MAX_SOCKET_CONNECTION_ID_BYTES) "socket connection ID exceeds 128 bytes".

Definition validate_tag (t : bytes) : result unit :=
  ensure (t != []) "socket tag is empty";;
  ensure (chars_count t <=? MAX_SOCKET_TAG_CHARACTERS) "socket tag exceeds 256 characters".

Definition validate_socket_tags (tags : list bytes) : result unit :=
  ensure (len tags <=? MAX_SOCKET_TAGS) "socket tags exceed 10 entries";;
  mapR validate_tag tags;; Ok ().

Definition validate_close (code : N) (reason : bytes) : result unit :=
  ensure ((code =? 1000) || ((3000 <=? code) && (code <=? 4999)))
    "socket close code must be 1000 or between 3000 and 4999";;
  ensure (len reason <=? MAX_SOCKET_CLOSE_REASON_BYTES) "socket close reason exceeds 123 bytes".

Definition validate_socket_effect (e : ActorSocketEffect) : result unit :=
  match e with
  | SetAutoResponse request response =>
      ensure (Bool.eqb (bool_decide (is_Some request)) (bool_decide (is_Some response)))
        "automatic response requires both request and response";;
      ensure (forallb (λ v, chars_count v <=? 2048) (option_list request ++ option_list response))
        "automatic response exceeds 2048 characters"
  | StateSnapshotEffect id state _ => validate_connection_id id;; validate_public_state state
  | StateUpdate changes removed except _ =>
      validate_public_state changes;;
      ensure (forallb (λ f, bool_decide (value_get changes f = None)) removed)
        "state field is both changed and removed";;
      mapR validate_connection_id except;; Ok ()
  | Send id m => validate_connection_id id;; validate_socket_message m
  | Broadcast m except tags _ =>
      mapR validate_connection_id except;; validate_socket_tags tags;; validate_socket_message m
  | Close id code reason | Reject id code reason => validate_connection_id id;; validate_close code reason
  | SetMetadata id v => validate_connection_id id;; validate_socket_metadata v
  | SetTags id tags => validate_connection_id id;; validate_socket_tags tags
  end.

Definition validate_socket_effects (es : list ActorSocketEffect) : result unit :=
  mapR validate_socket_effect es;; Ok ().
End invocations.
