(* ===== verification/ActorDatabase.v ===== *)
(** * The database of an actor and its state commits

    [DatabaseSession] of [src/src/host/actor_database/session.rs]: the resident
    SQLite database of an activation, the state commits it publishes, and how a
    commit whose outcome is unknown is finished before anything else runs. The
    storage of the host session is the class [ActorStorage], the trait of
    [src/src/host/actor_database.rs] together with the [SnapshotWriter] of
    [src/src/state_transport.rs]. Timings and log records are left out. *)

From S2P Require Import Prelude Text Demo Names Payload StateLog Effects Btree Concurrency Buckets Recovery Runtime Activation Ownership Takeover HostStorage Sqlite Capture Protocol.
Local Open Scope N_scope.

(** ** The storage of a session *)

Class ActorStorage `{JsonValue} (S : Type) := {
  as_acquire_actor : stateful process S ActorActivation;
  as_load_actor_state : N → stateful process S (N * bytes);
  as_read_sqlite : bytes → stateful process S SqliteSnapshot;
  as_get_alarm : stateful process S (option Z);
  as_update_alarm : option Z → stateful process S unit;
  as_ensure_authority : stateful process S unit;
  as_prepare_state_write : N → N → stateful process S WritePlan;
  (** How often a full copy is needed, in milliseconds. *)
  as_full_snapshots : option N;
  as_resume_parent : StateSnapshot → bytes → result (option SnapshotRef);
  as_write_snapshot : WritePlan → bytes → stateful process S unit;
}.

Record CommitOrigin := {
  origin_connection_id : option bytes;
  origin_interleaved : bool;
}.

Definition default_origin : CommitOrigin := {| origin_connection_id := None; origin_interleaved := false |}.

Section session.
Context `{JsonValue} `{!Json (Envelope StateSnapshot), !Json StateSnapshot, !Json LegacySnapshot}.
Context `{Digest} `{Base64} `{!Litestream} `{!RawJson} `{!Json (list bytes)}.
Context {S : Type} `{!ActorStorage S}.

(** [CommitOrigin::socket] *)
Definition origin_of_socket (e : ActorSocketEvent) : CommitOrigin :=
  {| origin_connection_id := Some match e with
       | Connect c | Disconnect c _ _ _ => conn_id c
       | Message id _ => id
       end;
     origin_interleaved := false |}.

(** ** The resident database *)

Record PendingStateCommit := {
  pd_snapshot : StateSnapshot;
  pd_txid : N;
  pd_ticket : WritePlan;
  pd_durable : bool;
}.

(** The engine and the capture share the directory; [res_commit_seen] is the flag
    of the engine's hooks. *)
Record ResidentDatabase := {
  res_capture : SqliteCapture;
  res_commit_seen : bool;
  res_sqlite_head : option SnapshotRef;
  res_owner_epoch : N;
  res_state_version : N;
  res_published : option N;
  res_synced : N;
  res_last_request_id : option bytes;
  res_last_result : option Value;
  res_next_write : option WritePlan;
  res_pending : option PendingStateCommit;
}.

(** [ResidentDatabase::open] *)
Definition resident_open (epoch : N) (c : SqliteCapture) : prog process ResidentDatabase :=
  let '(l, r) := lite_open_engine (cap_lite c) in
  lift r;;
  let c := set_lite l c in
  mret {| res_capture := c; res_commit_seen := false; res_sqlite_head := None; res_owner_epoch := epoch;
          res_state_version := 0; res_published := None; res_synced := cap_txid c; res_last_request_id := None;
          res_last_result := None; res_next_write := None; res_pending := None |}.

Definition set_capture (c : SqliteCapture) (r : ResidentDatabase) : ResidentDatabase :=
  {| res_capture := c; res_commit_seen := res_commit_seen r; res_sqlite_head := res_sqlite_head r;
     res_owner_epoch := res_owner_epoch r; res_state_version := res_state_version r;
     res_published := res_published r; res_synced := res_synced r; res_last_request_id := res_last_request_id r;
     res_last_result := res_last_result r; res_next_write := res_next_write r; res_pending := res_pending r |}.
Definition set_commit_seen (b : bool) (r : ResidentDatabase) : ResidentDatabase :=
  {| res_capture := res_capture r; res_commit_seen := b; res_sqlite_head := res_sqlite_head r;
     res_owner_epoch := res_owner_epoch r; res_state_version := res_state_version r;
     res_published := res_published r; res_synced := res_synced r; res_last_request_id := res_last_request_id r;
     res_last_result := res_last_result r; res_next_write := res_next_write r; res_pending := res_pending r |}.
Definition set_synced (n : N) (r : ResidentDatabase) : ResidentDatabase :=
  {| res_capture := res_capture r; res_commit_seen := res_commit_seen r; res_sqlite_head := res_sqlite_head r;
     res_owner_epoch := res_owner_epoch r; res_state_version := res_state_version r;
     res_published := res_published r; res_synced := n; res_last_request_id := res_last_request_id r;
     res_last_result := res_last_result r; res_next_write := res_next_write r; res_pending := res_pending r |}.
Definition set_next_write (p : option WritePlan) (r : ResidentDatabase) : ResidentDatabase :=
  {| res_capture := res_capture r; res_commit_seen := res_commit_seen r; res_sqlite_head := res_sqlite_head r;
     res_owner_epoch := res_owner_epoch r; res_state_version := res_state_version r;
     res_published := res_published r; res_synced := res_synced r; res_last_request_id := res_last_request_id r;
     res_last_result := res_last_result r; res_next_write := p; res_pending := res_pending r |}.
Definition set_pending (p : option PendingStateCommit) (r : ResidentDatabase) : ResidentDatabase :=
  {| res_capture := res_capture r; res_commit_seen := res_commit_seen r; res_sqlite_head := res_sqlite_head r;
     res_owner_epoch := res_owner_epoch r; res_state_version := res_state_version r;
     res_published := res_published r; res_synced := res_synced r; res_last_request_id := res_last_request_id r;
     res_last_result := res_last_result r; res_next_write := res_next_write r; res_pending := p |}.

Definition set_ticket (t : WritePlan) (p : PendingStateCommit) : PendingStateCommit :=
  {| pd_snapshot := pd_snapshot p; pd_txid := pd_txid p; pd_ticket := t; pd_durable := pd_durable p |}.
Definition set_durable (p : PendingStateCommit) : PendingStateCommit :=
  {| pd_snapshot := pd_snapshot p; pd_txid := pd_txid p; pd_ticket := pd_ticket p; pd_durable := true |}.

Definition unpublished (r : ResidentDatabase) (committed : option N) : option N :=
  t ← committed; if from_option (λ p, p <? t) true (res_published r) then Some t else None.

Definition replay (r : ResidentDatabase) (request : bytes) : option Value :=
  if bool_decide (res_last_request_id r = Some request) then res_last_result r else None.

(** ** Publishing a commit *)

Abbreviation resident := (stateful process (S * ResidentDatabase)).

Definition on_storage {A} (p : stateful process S A) : resident A := λ '(s, r),
  '(s, x) ← p s; mret ((s, r), x).
Definition on_capture {A} (p : stateful process SqliteCapture A) : resident A := λ '(s, r),
  '(c, x) ← p (res_capture r); mret ((s, set_capture c r), x).
Definition get_resident : resident ResidentDatabase := λ '(s, r), mret ((s, r), Ok r).
Definition change (f : ResidentDatabase → ResidentDatabase) : resident unit := λ '(s, r), mret ((s, f r), Ok ()).

Definition capture_sqlite (tx : N) : resident SqliteSnapshot :=
  fs ← on_capture (capture tx);
  f ← check (ctx (head fs) "actor commit has no replication files");
  r ← get_resident;
  p ← (if first f =? 1 then mret None
       else h ← check (ctx (res_sqlite_head r) "SQLite state has no durable head"); mret (Some h));
  mret {| txid := cap_txid (res_capture r); parent := p; files := fs |}.

(** [unix_millis] *)
Definition unix_millis : prog process N :=
  now ← now_ms;
  lift (ensure (Z.of_N now <=? i64_max)%Z "system clock exceeds supported state-write timestamp range");;
  mret now.

(** Writes the snapshot under the ticket and notes that it is durable. *)
Definition write_pending (p : PendingStateCommit) (bs : bytes) : resident unit :=
  on_storage (as_write_snapshot (pd_ticket p) bs);;
  change (λ r, set_pending (set_durable <$> res_pending r) r).

(** A commit whose write was not confirmed is written again, under the same name. *)
Definition retry_pending (p : PendingStateCommit) : resident unit :=
  r ← get_resident;
  renewed ← on_storage (as_prepare_state_write (res_owner_epoch r) (res_state_version r));
  check (ensure (bool_decide (plan_stream renewed = plan_stream (pd_ticket p)) &&
                 (object_name renewed == object_name (pd_ticket p))) "pending writer has been fenced");;
  change (λ r, set_pending (set_ticket renewed <$> res_pending r) r);;
  bs ← check (snapshot_encode (pd_snapshot p));
  write_pending (set_ticket renewed p) bs.

(** The commit is durable: it becomes the head. *)
Definition adopt_pending (p : PendingStateCommit) (next : WritePlan) (bs : bytes) (r : ResidentDatabase)
    : ResidentDatabase :=
  {| res_capture := res_capture r; res_commit_seen := res_commit_seen r;
     res_sqlite_head := Some (snapshot_ref (object_name (pd_ticket p)) (pd_snapshot p) bs);
     res_owner_epoch := res_owner_epoch r; res_state_version := state_version (pd_snapshot p);
     res_published := Some (pd_txid p); res_synced := res_synced r;
     res_last_request_id := (λ _, request_id (pd_snapshot p)) <$> completion (pd_snapshot p);
     res_last_result := completion_result <$> completion (pd_snapshot p);
     res_next_write := Some next; res_pending := res_pending r |}.

Definition finish_pending_commit : resident unit :=
  r ← get_resident;
  match res_pending r with
  | None => mret ()
  | Some p =>
      (if pd_durable p then mret () else retry_pending p);;
      r ← get_resident;
      p ← check (ctx (res_pending r) "pending commit checked above");
      let st := plan_stream (pd_ticket p) in
      version ← check (ctx (checked_add (state_version (pd_snapshot p)) 1) "state version overflow");
      let next := {| plan_stream := st; plan_state_version := version; object_name := stream_object st version |} in
      change (set_pending None);;
      bs ← check (snapshot_encode (pd_snapshot p));
      change (adopt_pending p next bs)
  end.

(** The cached ticket of the previous commit, or a new one. *)
Definition write_ticket (epoch next_version : N) : resident WritePlan :=
  r ← get_resident;
  change (set_next_write None);;
  match res_next_write r with
  | Some t =>
      if (plan_state_version t =? next_version) && (stream_owner_epoch (plan_stream t) =? epoch) then mret t
      else on_storage (as_prepare_state_write epoch (res_state_version r))
  | None => on_storage (as_prepare_state_write epoch (res_state_version r))
  end.

(** [publish_state_once] *)
Definition publish_state (inv : ActorInvocation) (epoch : N) (done : option RequestCompletion) (tx : N)
    (origin : CommitOrigin) : resident unit :=
  r ← get_resident;
  next_version ← check (ctx (checked_add (res_state_version r) 1) "actor state version overflow");
  ticket ← write_ticket epoch next_version;
  check (ensure (plan_state_version ticket =? next_version) "state write ticket has the wrong version");;
  check (ensure (stream_owner_epoch (plan_stream ticket) =? epoch) "write capability belongs to another owner epoch");;
  q ← capture_sqlite tx;
  now ← call unix_millis;
  let snapshot := {| attribution := Some {| operation := inv_method inv;
                       connection_id := origin_connection_id origin; committed_at_ms := now;
                       interleaved := origin_interleaved origin |};
                     state_version := next_version; owner_epoch := epoch; request_id := inv_request_id inv;
                     sqlite := q; completion := done |} in
  bs ← check (snapshot_encode snapshot);
  let p := {| pd_snapshot := snapshot; pd_txid := tx; pd_ticket := ticket; pd_durable := false |} in
  change (set_pending (Some p));;
  write_pending p bs;;
  finish_pending_commit.

Definition publish_immediate (inv : ActorInvocation) (epoch : N) (origin : CommitOrigin) : resident unit :=
  on_storage as_ensure_authority;;
  r ← get_resident;
  check (ensure (from_option (λ p, p <? res_synced r) true (res_published r))
           "immediate write must advance SQLite transaction");;
  publish_state inv epoch None (res_synced r) origin;;
  on_storage as_ensure_authority.

(** ** Calls of the actor *)

Inductive DatabaseReply :=
| ExecutedReply (result : DatabaseResult) (committed : option N)
| RejectedReply (error : string).

(** [SqliteDatabase::call] *)
Definition database_execute (c : DatabaseCall) : resident Executed := λ '(s, r),
  let '(e, x) := SqliteEngine.engine_call c
                   {| connection := cap_lite (res_capture r); commit_seen := res_commit_seen r |} in
  mret ((s, set_commit_seen (commit_seen e) (set_capture (set_lite (connection e) (res_capture r)) r)), Ok x).

(** After a commit: replicate it, and publish it at once if the call says so and it
    changed anything. *)
Definition after_commit (inv : ActorInvocation) (epoch : N) (origin : CommitOrigin) (imm : bool) : resident unit :=
  r ← get_resident;
  n ← on_capture capture_sync;
  change (set_synced n);;
  if imm && (res_synced r <? n) then publish_immediate inv epoch origin else mret ().

Definition execute_database_call (inv : ActorInvocation) (owner_epoch : option N) (origin : CommitOrigin)
    (c : DatabaseCall) : resident DatabaseReply :=
  r ← get_resident;
  check (ensure (from_option (λ e, res_owner_epoch r =? e) true owner_epoch) "database call ownership changed");;
  match c with
  | GetAlarm => t ← on_storage as_get_alarm; mret (ExecutedReply (AlarmResult t) None)
  | SetAlarm t _ => on_storage (as_update_alarm (Some t));; mret (ExecutedReply DoneResult None)
  | DeleteAlarm _ => on_storage (as_update_alarm None);; mret (ExecutedReply DoneResult None)
  | c =>
      x ← database_execute c;
      (if exec_committed x then after_commit inv (res_owner_epoch r) origin (immediate c) else mret ());;
      r ← get_resident;
      mret (match exec_result x with
            | Ok d => ExecutedReply d (match c with Commit => Some (res_synced r) | _ => None end)
            | Err e => RejectedReply e
            end)
  end.

(** ** The session *)

Inductive PreparedActivation :=
| ActivationCompleted (a : ActorActivation)
| Hydrate (a : ActorActivation).

Inductive PreparedInvocation :=
| Execute
| InvocationCompleted (r : ActorExecutionResult).

Record DatabaseSession := {
  cached_state : option ResidentDatabase;
  prepared_activation : option ActorActivation;
  activation : option ActorActivation;
}.

Definition session_new : DatabaseSession :=
  {| cached_state := None; prepared_activation := None; activation := None |}.

Definition set_cached (c : option ResidentDatabase) (d : DatabaseSession) : DatabaseSession :=
  {| cached_state := c; prepared_activation := prepared_activation d; activation := activation d |}.
Definition set_prepared (a : option ActorActivation) (d : DatabaseSession) : DatabaseSession :=
  {| cached_state := cached_state d; prepared_activation := a; activation := activation d |}.
Definition set_activated (a : option ActorActivation) (d : DatabaseSession) : DatabaseSession :=
  {| cached_state := cached_state d; prepared_activation := prepared_activation d; activation := a |}.

Abbreviation sess := (stateful process (S * DatabaseSession)).

Definition storage_call {A} (p : stateful process S A) : sess A := λ '(s, d), '(s, x) ← p s; mret ((s, d), x).
Definition get_session : sess DatabaseSession := λ '(s, d), mret ((s, d), Ok d).
Definition update (f : DatabaseSession → DatabaseSession) : sess unit := λ '(s, d), mret ((s, f d), Ok ()).

(** Runs a call on the resident database, which survives its failure. *)
Definition with_resident {A} (p : resident A) (c : ResidentDatabase) : sess (ResidentDatabase * result A) :=
  λ '(s, d), '((s, c), x) ← p (s, c); mret ((s, d), Ok (c, x)).

(** [x.is_err()] of a call on the storage *)
Definition fails {A} (p : stateful process S A) : sess bool := λ '(s, d),
  '(s, x) ← p s; mret ((s, d), Ok (negb (is_ok x))).

Definition session_state_version (d : DatabaseSession) : option N :=
  c ← cached_state d; if 0 <? res_state_version c then Some (res_state_version c) else None.

Definition new_resident (epoch : N) : sess ResidentDatabase :=
  c ← call (capture_new as_full_snapshots); call (resident_open epoch c).

Definition load_cached (epoch version : N) (bs : bytes) : sess ResidentDatabase :=
  snapshot ← check (snapshot_decode bs);
  check (ensure (state_version snapshot =? version) "actor snapshot version does not match its state head");;
  check (ensure (owner_epoch snapshot <=? epoch) "actor snapshot belongs to a newer owner epoch");;
  q ← storage_call (as_read_sqlite bs);
  p ← check (as_resume_parent snapshot bs);
  c ← call (capture_restore (files q) (txid q) as_full_snapshots (bool_decide (is_Some p)));
  r ← call (resident_open epoch c);
  mret {| res_capture := res_capture r; res_commit_seen := res_commit_seen r;
          res_sqlite_head := if 0 <? res_synced r then p else None; res_owner_epoch := res_owner_epoch r;
          res_state_version := version; res_published := Some (res_synced r); res_synced := res_synced r;
          res_last_request_id := (λ _, request_id snapshot) <$> completion snapshot;
          res_last_result := completion_result <$> completion snapshot; res_next_write := res_next_write r;
          res_pending := res_pending r |}.

Definition take_or_load_state (epoch : N) : sess ResidentDatabase :=
  d ← get_session;
  update (set_cached None);;
  let load : sess ResidentDatabase :=
    '(version, loaded) ← storage_call (as_load_actor_state epoch);
    if version =? 0 then
      check (ensure (loaded == []) "uninitialized actor has state");;
      new_resident epoch
    else load_cached epoch version loaded in
  match cached_state d with
  | Some c => if res_owner_epoch c =? epoch then mret c else load
  | None => load
  end.

Definition prepare_invocation (inv : ActorInvocation) (owner_epoch : option N) (replayed : bool)
    : sess PreparedInvocation :=
  epoch ← check (ctx owner_epoch "activation scopes cannot run invocations");
  lost ← fails as_ensure_authority;
  if (lost : bool) then mret (InvocationCompleted HostUnavailable)
  else
    c ← take_or_load_state epoch;
    '(c, x) ← with_resident finish_pending_commit c;
    update (set_cached (Some c));;
    match x with
    | Err _ => mret (InvocationCompleted (Failed outcome_unknown_after_execution))
    | Ok _ =>
        lost ← fails as_ensure_authority;
        if (lost : bool) then mret (InvocationCompleted HostUnavailable)
        else mret (match (if replayed then replay c (inv_request_id inv) else None) with
                   | Some v => InvocationCompleted (Completed v [])
                   | None => Execute
                   end)
    end.

Definition database_call (inv : ActorInvocation) (owner_epoch : option N) (origin : CommitOrigin) (c : DatabaseCall)
    : sess DatabaseReply :=
  d ← get_session;
  match cached_state d with
  | None => mret (RejectedReply "actor database is not activated")
  | Some cached =>
      update (set_cached None);;
      '(cached, x) ← with_resident (execute_database_call inv owner_epoch origin c) cached;
      update (set_cached (Some cached));;
      check x
  end.

Definition without_state (a : ActorActivation) : ActorActivation :=
  {| act_owner_epoch := act_owner_epoch a; act_state_version := act_state_version a; act_state := None |}.

Definition prepare_activation : sess PreparedActivation :=
  d ← get_session;
  update (set_prepared None);;
  storage_call as_ensure_authority;;
  match activation d, prepared_activation d with
  | Some a, _ => mret (ActivationCompleted a)
  | None, Some a => update (set_prepared (Some a));; mret (Hydrate a)
  | None, None =>
      a ← storage_call as_acquire_actor;
      d ← get_session;
      a ← match cached_state d with
          | Some _ => mret a
          | None =>
              if act_state_version a =? 0 then
                c ← new_resident (act_owner_epoch a);
                update (set_cached (Some c));; mret a
              else
                bs ← check (ctx (act_state a) "activation has no recovered state");
                c ← load_cached (act_owner_epoch a) (act_state_version a) bs;
                update (set_cached (Some c));; mret (without_state a)
          end;
      storage_call as_ensure_authority;;
      update (set_prepared (Some a));;
      mret (Hydrate a)
  end.

Definition finish_activation (a : ActorActivation) (hydrated : result unit) : sess ActorActivation :=
  update (set_prepared None);;
  check hydrated;;
  storage_call as_ensure_authority;;
  d ← get_session;
  c ← check (ctx (cached_state d) "activation has no cached state");
  check (ensure (res_owner_epoch c =? act_owner_epoch a) "activation ownership changed");;
  let a := {| act_owner_epoch := act_owner_epoch a; act_state_version := res_state_version c;
              act_state := act_state a |} in
  update (set_activated (Some a));;
  mret a.

(** The error of a publication that could not be confirmed carries the mark
    [PublicationError]. *)
Definition PublicationError : string := "actor state publication could not be confirmed".

Definition complete (inv : ActorInvocation) (owner_epoch : option N) (res : Value) (committed : option N)
    (origin : CommitOrigin) : sess N :=
  epoch ← check (ctx owner_epoch "activation scopes cannot complete invocations");
  d ← get_session;
  update (set_cached None);;
  c ← check (ctx (cached_state d) "actor invocation has no state");
  check (ensure (res_owner_epoch c =? epoch) "database completion ownership changed");;
  '(c, publication) ← match unpublished c committed with
                      | Some t => with_resident (publish_state inv epoch (Some {| completion_result := res |}) t origin) c
                      | None => mret (c, Ok ())
                      end;
  (if is_ok publication then mret () else update (set_activated None));;
  update (set_cached (if negb (is_ok publication) && bool_decide (res_pending c = None) then None else Some c));;
  check (match publication with Ok _ => Ok () | Err _ => Err PublicationError end);;
  storage_call as_ensure_authority;;
  mret (res_state_version c).

Definition reset : sess unit :=
  update (λ _, {| cached_state := None; prepared_activation := None; activation := None |}).
End session.
