(* ===== verification/DatabaseLaws.v ===== *)
(** * What the storage of a session promises its database

    The class [StorageLaws]: when a write is acknowledged it is kept, and a session
    whose write was not confirmed never writes again. The session's theorems are
    proved against it; [HostStorage] keeps it. *)

From S2P Require Import Prelude Text Demo Names Payload StateLog Effects Btree Concurrency Buckets Recovery Runtime Activation Ownership Takeover HostStorage Sqlite Capture Protocol ActorDatabase.
Local Open Scope N_scope.

(** ** Calls that keep an invariant *)

Section keep.
Context `{Digest} `{Base64} `{!Json Ownership} `{!KeptBefore}.
Context {T : Type}.
Implicit Types (w : world process) (t : T).

(** [p] keeps [I], and [Q] holds of its answer. *)
Definition keep {A} (I : T → world process → Prop) (p : stateful process T A)
    (Q : result A → T → world process → Prop) t w : Prop :=
  I t w → safe (p t) (λ x w', I x.1 w' ∧ Q x.2 x.1 w') w.

Lemma keep_ret {A} I (a : A) (Q : result A → T → world process → Prop) t w : Q (Ok a) t w → keep I (mret a) Q t w.
Proof. intros HQ HI. by apply safe_ret. Qed.

Lemma keep_check {A} I (r : result A) (Q : result A → T → world process → Prop) t w :
  Q r t w → keep I (check r) Q t w.
Proof. intros HQ HI. by apply safe_ret. Qed.

Lemma keep_bind {A B} I (p : stateful process T A) (f : A → stateful process T B) Q Q' t w :
  keep I p Q t w →
  (∀ e t' w', rely w w' → I t' w' → Q (Err e) t' w' → Q' (Err e) t' w') →
  (∀ a t' w', rely w w' → Q (Ok a) t' w' → keep I (f a) Q' t' w') →
  keep I (p ≫= f) Q' t w.
Proof.
  intros Hp He Hf HI. eapply safe_bind; [by apply Hp|]. intros [t' [a|e]] w' HR [HI' HQ]; simpl in *.
  - by apply Hf.
  - apply safe_ret. eauto.
Qed.

Lemma keep_mono {A} I (p : stateful process T A) (Q Q' : result A → T → world process → Prop) t w :
  keep I p Q t w → (∀ x t' w', rely w w' → I t' w' → Q x t' w' → Q' x t' w') → keep I p Q' t w.
Proof. intros Hp HQ HI. eapply safe_mono; [by apply Hp|]. intros x w' HR [? ?]. eauto. Qed.

Lemma keep_inv {A} I (p : stateful process T A) (Q : result A → T → world process → Prop) t w :
  (I t w → keep I p Q t w) → keep I p Q t w.
Proof. intros Hp HI. by apply Hp. Qed.

(** The steps that only look at or change the receiver. *)
Lemma keep_bind_check {A B} I (x : result A) (f : A → stateful process T B) Q t w :
  (∀ e, x = Err e → Q (Err e) t w) → (∀ a, x = Ok a → keep I (f a) Q t w) → keep I (check x ≫= f) Q t w.
Proof. intros He Hf HI. destruct x as [a|e]; [by apply Hf|]. apply safe_ret. split; [done|by apply He]. Qed.

Lemma keep_bind_ret {A B} I (a : A) (f : A → stateful process T B) Q t w :
  keep I (f a) Q t w → keep I (mret a ≫= f) Q t w.
Proof. done. Qed.

(** A local computation on the receiver. *)
Lemma keep_pure {A} I (p : stateful process T A) (Q : result A → T → world process → Prop) t w t' x :
  p t = mret (t', x) → (I t w → I t' w) → Q x t' w → keep I p Q t w.
Proof. intros Hp HI' HQ HI. rewrite Hp. apply safe_ret. split; [by apply HI'|done]. Qed.

Lemma keep_bind_pure {A B} I (p : stateful process T A) (f : A → stateful process T B) Q t w t' a :
  p t = mret (t', Ok a) → (I t w → I t' w) → keep I (f a) Q t' w → keep I (p ≫= f) Q t w.
Proof. intros Hp HI' Hf HI. unfold mbind, stateful_bind. rewrite Hp. apply Hf. auto. Qed.
End keep.

(** What a call does to its receiver whatever the environment answers. *)
Definition tracks {L T A} (p : stateful L T A) (Q : T → result A → T → Prop) : Prop :=
  ∀ t, yields (p t) (λ r, match r with Ok (t', x) => Q t x t' | Err _ => True end).

Section tracks.
Context {L T : Type}.

Lemma tracks_ret {A} (a : A) (Q : T → result A → T → Prop) : (∀ t, Q t (Ok a) t) → tracks (L:=L) (mret a) Q.
Proof. intros HQ t. apply HQ. Qed.

Lemma tracks_check {A} (r : result A) (Q : T → result A → T → Prop) : (∀ t, Q t r t) → tracks (L:=L) (check r) Q.
Proof. intros HQ t. apply HQ. Qed.

Lemma tracks_bind {A B} (p : stateful L T A) (f : A → stateful L T B) Q Q' Z :
  tracks p Q → (∀ a, tracks (f a) Q') →
  (∀ t e t', Q t (Err e) t' → Z t (Err e) t') →
  (∀ t a t' x t'', Q t (Ok a) t' → Q' t' x t'' → Z t x t'') → tracks (p ≫= f) Z.
Proof.
  intros Hp Hf He Hk t. unfold mbind, stateful_bind. apply yields_bind. eapply yields_mono; [apply Hp|].
  intros [[t' [a|e]]|e]; simpl; [| |done].
  - intros HQ. eapply yields_mono; [apply Hf|]. intros [[t'' x]|e]; [|done]. eauto.
  - eauto.
Qed.

Lemma tracks_mono {A} (p : stateful L T A) (Q Q' : T → result A → T → Prop) :
  tracks p Q → (∀ t x t', Q t x t' → Q' t x t') → tracks p Q'.
Proof. intros Hp HQ t. eapply yields_mono; [apply Hp|]. intros [[t' x]|e]; eauto. Qed.

Lemma tracks_call {A} (p : prog L A) (Q : T → result A → T → Prop) : (∀ t x, Q t x t) → tracks (call p) Q.
Proof.
  intros HQ t. apply yields_bind, yields_attempt. eapply yields_mono; [apply yields_True|].
  intros r _. simpl. apply HQ.
Qed.

Lemma tracks_modify (f : T → T) (Q : T → result unit → T → Prop) :
  (∀ t, Q t (Ok ()) (f t)) → tracks (L:=L) (modify f) Q.
Proof. intros HQ t. apply HQ. Qed.
End tracks.

(** The same from a given receiver. *)
Definition ends {L T A} (p : stateful L T A) (t : T) (Q : result A → T → Prop) : Prop :=
  yields (p t) (λ r, match r with Ok (t', x) => Q x t' | Err _ => True end).

Section ends.
Context {L T : Type}.

Lemma ends_any {A} (p : stateful L T A) t : ends p t (λ _ _, True).
Proof. eapply yields_mono; [apply yields_True|]. by intros [[? ?]|]. Qed.

Lemma ends_mono {A} (p : stateful L T A) t (Q Q' : result A → T → Prop) :
  ends p t Q → (∀ x t', Q x t' → Q' x t') → ends p t Q'.
Proof. intros Hp HQ. eapply yields_mono; [exact Hp|]. intros [[? ?]|]; auto. Qed.

Lemma ends_ret {A} (a : A) t (Q : result A → T → Prop) : Q (Ok a) t → ends (L:=L) (mret a) t Q.
Proof. done. Qed.

Lemma ends_bind {A B} (p : stateful L T A) (f : A → stateful L T B) t Q Q' :
  ends p t Q → (∀ e t', Q (Err e) t' → Q' (Err e) t') → (∀ a t', Q (Ok a) t' → ends (f a) t' Q') → ends (p ≫= f) t Q'.
Proof.
  intros Hp He Hf. apply yields_bind. eapply yields_mono; [exact Hp|]. intros [[t' [a|e]]|e]; simpl; [|auto|done].
  apply Hf.
Qed.

Lemma ends_bind_pure {A B} (p : stateful L T A) (f : A → stateful L T B) t t' a Q :
  p t = mret (t', Ok a) → ends (f a) t' Q → ends (p ≫= f) t Q.
Proof. intros Hp Hf. unfold ends, mbind, stateful_bind. rewrite Hp. exact Hf. Qed.

Lemma ends_bind_check {A B} (x : result A) (f : A → stateful L T B) t Q :
  (∀ e, x = Err e → Q (Err e) t) → (∀ a, x = Ok a → ends (f a) t Q) → ends (check x ≫= f) t Q.
Proof. intros He Hf. destruct x as [a|e]; [by apply Hf|]. by apply He. Qed.
End ends.

(** Calls that touch no object and no record. *)
Section quietly.
Context `{Digest} `{Base64} `{!Json Ownership} `{!KeptBefore}.
Context {T : Type}.

Definition quietly {A} (p : stateful process T A) : Prop := ∀ t, quiet (p t).

Lemma quietly_ret {A} (a : A) : quietly (mret a).
Proof. intros t. apply quiet_ret. Qed.

Lemma quietly_check {A} (r : result A) : quietly (check r).
Proof. intros t. apply quiet_ret. Qed.

Lemma quietly_modify (f : T → T) : quietly (modify f).
Proof. intros t. apply quiet_ret. Qed.

Lemma quietly_call {A} (p : prog process A) : quiet p → quietly (call p).
Proof. intros Hp t. apply quiet_bind; [by apply quiet_attempt|intros; apply quiet_ret]. Qed.

Lemma quietly_bind {A B} (p : stateful process T A) (f : A → stateful process T B) :
  quietly p → (∀ a, quietly (f a)) → quietly (p ≫= f).
Proof. intros Hp Hf t. apply quiet_bind; [apply Hp|]. intros [t' [a|e]]; [apply Hf|apply quiet_ret]. Qed.
End quietly.

(** ** The laws *)

(** A session that is dead stays dead, and one that had authority once has had it. *)
Record grows {S : Type} (dead confirmed : S → Prop) (s s' : S) : Prop := {
  grows_dead : dead s → dead s';
  grows_confirmed : confirmed s → confirmed s';
}.

#[global] Instance grows_preorder {S} (dead confirmed : S → Prop) : PreOrder (grows dead confirmed).
Proof. split; [by split|]. intros s1 s2 s3 [] []. split; auto. Qed.

Class StorageLaws `{JsonValue} `{!Json (Envelope StateSnapshot), !Json StateSnapshot, !Json LegacySnapshot}
    `{Digest} `{Base64} `{!Json Ownership} `{!KeptBefore} (S : Type) `{!ActorStorage S} := {
  storage_ok : S → world process → Prop;
  (** The session never writes again. *)
  storage_dead : S → Prop;
  (** It had authority once. *)
  storage_confirmed : S → Prop;
  sl_later s w w' : rely w w' → storage_ok s w → storage_ok s w';
  sl_acquire s w : keep storage_ok as_acquire_actor
    (λ _ s' _, grows storage_dead storage_confirmed s s') s w;
  sl_load e s w : keep storage_ok (as_load_actor_state e)
    (λ _ s' _, grows storage_dead storage_confirmed s s') s w;
  sl_read bs s w : keep storage_ok (as_read_sqlite bs)
    (λ x s' _, grows storage_dead storage_confirmed s s' ∧
       ∀ q c, x = Ok q → snapshot_decode bs = Ok c → txid q = txid (sqlite c)) s w;
  sl_get_alarm s w : keep storage_ok as_get_alarm
    (λ _ s' _, grows storage_dead storage_confirmed s s') s w;
  sl_update_alarm t s w : keep storage_ok (as_update_alarm t)
    (λ _ s' _, grows storage_dead storage_confirmed s s') s w;
  sl_authority s w : keep storage_ok as_ensure_authority
    (λ x s' _, grows storage_dead storage_confirmed s s' ∧
       (x = Ok () → storage_confirmed s')) s w;
  sl_prepare e v s w : keep storage_ok (as_prepare_state_write e v)
    (λ x s' _, grows storage_dead storage_confirmed s s' ∧
       ∀ plan, x = Ok plan → ¬ storage_dead s) s w;
  sl_write plan bs s w : keep storage_ok (as_write_snapshot plan bs)
    (λ x s' w', grows storage_dead storage_confirmed s s' ∧
       match x with
       | Ok _ => ¬ storage_dead s ∧ acknowledged plan bs w'
       | Err _ => storage_confirmed s → storage_dead s'
       end) s w;
}.
