(* ===== verification/DatabaseSafety.v ===== *)
(** * State commits are durable and their history is unbroken

    The invariant of a [DatabaseSession] ([ActorDatabase]) under any interference
    and any faults of its storage: what it has published is kept, every published
    commit continues the history of the one before it, and a commit whose outcome
    is unknown is never built upon. *)

From S2P Require Import Prelude Text Demo Names Payload StateLog Effects Btree Concurrency Buckets Recovery Runtime Activation Ownership Takeover HostStorage Sqlite Capture Protocol ActorDatabase DatabaseLaws.
Local Open Scope N_scope.

(** What [Replicator::register] documents: the position of a resumed history, or 0
    for a new one. *)
Class LitestreamLaws `{!Litestream} : Prop := {
  lite_resume_position t l l' : lite_resume t l = (l', Ok ()) → lite_position l' = t;
  lite_with_store_position l l' : lite_with_store l = (l', Ok ()) → lite_position l' = 0;
}.

Section commits.
Context `{JsonValue} `{!Json (Envelope StateSnapshot), !Json StateSnapshot, !Json LegacySnapshot}.
Context `{Digest} `{Base64} `{!Json Ownership}.
Context `{!SnapshotStore process} `{!KeptBefore} `{!StoreContract}.
Context `{!Litestream} `{!LitestreamLaws} `{!RawJson} `{!Json (list bytes)}.
Context {S : Type} `{!ActorStorage S} `{!StorageLaws S}.
Implicit Types (w : world process) (s : S) (r : ResidentDatabase).

Abbreviation grows := (grows storage_dead storage_confirmed).

(** The commit [c] is kept under the name of [plan]. *)
Definition commit_kept w (plan : WritePlan) (c : StateSnapshot) (bs : bytes) : Prop :=
  snapshot_encode c = Ok bs ∧ plan_state_version plan = state_version c ∧ acknowledged plan bs w.

Lemma commit_kept_later plan c bs w w' : rely w w' → commit_kept w plan c bs → commit_kept w' plan c bs.
Proof. intros HR (? & ? & ?). split_and!; [done..|]. by eapply acknowledged_later. Qed.

(** The commit [h] names can be restored up to transaction [tx]: it is kept, and
    either holds the whole database, or continues, without a gap, a commit that can
    be restored. A history may also start with a commit of [earlier]. *)
Inductive unbroken (earlier : SnapshotRef → N → Prop) w : SnapshotRef → N → Prop :=
| unbroken_full plan c bs :
    commit_kept w plan c bs → parent (sqlite c) = None →
    foldM ltx_step 1 (files (sqlite c)) = Ok (txid (sqlite c) + 1) →
    unbroken earlier w (snapshot_ref (object_name plan) c bs) (txid (sqlite c))
| unbroken_delta plan c bs p tx :
    commit_kept w plan c bs → parent (sqlite c) = Some p → unbroken earlier w p tx →
    foldM ltx_step (tx + 1) (files (sqlite c)) = Ok (txid (sqlite c) + 1) →
    unbroken earlier w (snapshot_ref (object_name plan) c bs) (txid (sqlite c))
| unbroken_earlier h tx : earlier h tx → unbroken earlier w h tx.

(** The commit a session was restored from, when the store lets a history span
    sessions. *)
Definition resumed (h : SnapshotRef) (tx : N) : Prop :=
  ∃ c bs, snapshot_decode bs = Ok c ∧ as_resume_parent c bs = Ok (Some h) ∧ tx = txid (sqlite c).

Lemma unbroken_later (earlier later : SnapshotRef → N → Prop) w w' h tx :
  rely w w' → (∀ h tx, earlier h tx → later h tx) → unbroken earlier w h tx → unbroken later w' h tx.
Proof.
  intros HR Hmono. induction 1 as [plan c bs Hk|plan c bs p tx Hk Hp _ IH|h tx He].
  - apply unbroken_full; [by eapply commit_kept_later|done..].
  - eapply unbroken_delta; [by eapply commit_kept_later|done..].
  - by apply unbroken_earlier, Hmono.
Qed.

(** ** The invariant of a resident database *)

(** What the database says of its last commit is true of a commit that is kept, or
    of the one it was restored from. *)
Definition published_ok w r : Prop :=
  ∀ t, res_published r = Some t → ∃ c,
    state_version c = res_state_version r ∧
    res_last_request_id r = (λ _, request_id c) <$> completion c ∧
    res_last_result r = completion_result <$> completion c ∧
    ((∃ plan bs, commit_kept w plan c bs ∧ t = txid (sqlite c) ∧ owner_epoch c = res_owner_epoch r) ∨
     ∃ bs, snapshot_decode bs = Ok c).

(** A commit under way is for the next version; unless that is the very last one,
    nothing is ever written again. *)
Definition pending_ok s r : Prop :=
  ∀ p, res_pending r = Some p → state_version (pd_snapshot p) = res_state_version r + 1 ∧
    ((storage_dead s ∧ pd_durable p = false) ∨ state_version (pd_snapshot p) = u64_max).

Definition head_ok w r : Prop :=
  res_pending r = None → ∀ h, res_sqlite_head r = Some h → unbroken resumed w h (cap_published (res_capture r)).

Record resident_ok w s r : Prop := {
  ok_pending : pending_ok s r;
  ok_head : head_ok w r;
  ok_published : published_ok w r;
}.

Lemma published_ok_later w w' r : rely w w' → published_ok w r → published_ok w' r.
Proof.
  intros HR Hp t Ht. destruct (Hp t Ht) as (c & Hv & Hr & Hl & [(plan & bs & Hk & E)|Hd]); exists c;
    split_and!; [done..| |done|done|done|by right].
  left. exists plan, bs. split; [by eapply commit_kept_later|done].
Qed.

Lemma resident_ok_later w w' s s' r :
  rely w w' → grows s s' → resident_ok w s r → resident_ok w' s' r.
Proof.
  intros HR [Hd _] [Hp Hh Hpub]. split; [| |by eapply published_ok_later].
  - intros p E. destruct (Hp p E) as [? [[? ?]|?]]; auto.
  - intros E h Hh'. eapply unbroken_later; [done|done|by apply Hh].
Qed.

(** ** Calls on a resident database *)

(** The session had authority once. *)
Definition alive (x : S * ResidentDatabase) w : Prop := storage_ok x.1 w ∧ storage_confirmed x.1.

Lemma keep_storage {A} (p : stateful process S A) (Q : result A → S → world process → Prop) s r w :
  keep storage_ok p (λ x s' w', grows s s' ∧ Q x s' w') s w →
  keep alive (on_storage p) (λ x t w', t.2 = r ∧ grows s t.1 ∧ Q x t.1 w') (s, r) w.
Proof.
  intros Hp [Hok Hc]. unfold on_storage. eapply safe_bind; [by apply Hp|]. intros [s' x] w' _ [Hok' [Hg HQ]].
  apply safe_ret. simpl in *. split; [|done]. split; [done|]. by apply Hg.
Qed.

Lemma keep_change (f : ResidentDatabase → ResidentDatabase) (Q : result unit → S * ResidentDatabase → world process → Prop) s r w :
  Q (Ok ()) (s, f r) w → keep alive (change f) Q (s, r) w.
Proof. intros HQ Ha. by apply safe_ret. Qed.

Lemma keep_resident (Q : result ResidentDatabase → S * ResidentDatabase → world process → Prop) s r w :
  Q (Ok r) (s, r) w → keep alive get_resident Q (s, r) w.
Proof. intros HQ Ha. by apply safe_ret. Qed.

Lemma alive_later x w w' : rely w w' → alive x w → alive x w'.
Proof. intros HR [? ?]. split; [by eapply sl_later|done]. Qed.

Lemma keep_run {A} (p : prog process A) (Q : result A → S * ResidentDatabase → world process → Prop) x w :
  quiet p → (∀ a w', rely w w' → Q a x w') → keep alive (call p) Q x w.
Proof.
  intros Hp HQ Ha. unfold call. eapply safe_bind; [apply safe_quiet, quiet_attempt, Hp|]. intros a w' HR _.
  apply safe_ret. split; [by eapply alive_later|by apply HQ].
Qed.

Lemma set_capture_same r : set_capture (res_capture r) r = r.
Proof. by destruct r. Qed.

Lemma keep_capture tx s r w :
  keep alive (on_capture (capture tx)) (λ x t w', t.1 = s ∧ w' = w ∧
    match x with
    | Ok fs => collect_ltx_files (cap_lite (res_capture r)) (cap_published (res_capture r)) tx = Ok fs ∧
        ∃ c, t.2 = set_capture c r ∧ cap_txid c = tx ∧ cap_published c = tx
    | Err _ => t.2 = r
    end) (s, r) w.
Proof.
  intros Ha. unfold on_capture, capture, get_state, check, modify, mbind, stateful_bind. cbn.
  destruct (cap_txid (res_capture r) <=? tx); cbn; [|apply safe_ret; by rewrite set_capture_same].
  destruct (collect_ltx_files _ _ _) as [fs|e] eqn:E; cbn; [|apply safe_ret; by rewrite set_capture_same].
  apply safe_ret. split; [done|]. split_and!; [done..|]. simpl. split; [done|]. by eexists.
Qed.

Lemma keep_capture_sqlite tx s r w :
  keep alive (capture_sqlite tx) (λ x t w', t.1 = s ∧ w' = w ∧ ∃ c, t.2 = set_capture c r ∧
    match x with
    | Ok q => txid q = tx ∧ cap_published c = tx ∧
        collect_ltx_files (cap_lite (res_capture r)) (cap_published (res_capture r)) tx = Ok (files q) ∧
        ∀ h, parent q = Some h → res_sqlite_head r = Some h
    | Err _ => True
    end) (s, r) w.
Proof.
  unfold capture_sqlite. eapply keep_bind; [apply keep_capture| |].
  { intros e [s1 r1] w' _ _ (E1 & -> & E2). simpl in *. subst. split_and!; [done..|]. exists (res_capture r). by rewrite set_capture_same. }
  intros fs [s1 r1] w' _ (E1 & -> & Hfs & c & E2 & Htx & Hpub). simpl in E1, E2. subst s1 r1.
  apply keep_bind_check; [intros e _; split_and!; eauto|]. intros f Hf.
  eapply keep_bind_pure; [done|done|]. apply (keep_bind _ _ _ (λ x t w', t = (s, set_capture c r) ∧ w' = w ∧
    ∀ p, x = Ok p → p = None ∨ p = res_sqlite_head r)).
  { destruct (first f =? 1); [apply keep_ret; naive_solver|].
    apply keep_bind_check; [naive_solver|]. intros h Hh%ctx_Ok. apply keep_ret. simpl in Hh. rewrite Hh. naive_solver. }
  { intros e t w' _ _ (-> & -> & _). eauto 6. }
  intros p t w' _ (-> & -> & Hp). apply keep_ret. split_and!; [done..|]. exists c. split_and!; [done..|]. simpl.
  intros h ->. by destruct (Hp _ eq_refl).
Qed.

(** ** Finishing a commit *)

Lemma set_pending_same r p : res_pending r = Some p → set_pending (Some p) r = r.
Proof. intros E. destruct r. simpl in *. by subst. Qed.

Lemma keep_write_pending p bs s r w q :
  res_pending r = Some q →
  keep alive (write_pending p bs) (λ x t w', grows s t.1 ∧ match x with
    | Ok _ => t.2 = set_pending (Some (set_durable q)) r ∧ ¬ storage_dead s ∧ acknowledged (pd_ticket p) bs w'
    | Err _ => t.2 = r ∧ storage_dead t.1
    end) (s, r) w.
Proof.
  intros Eq. apply keep_inv. intros [_ Hc]. unfold write_pending. eapply keep_bind; [apply keep_storage, sl_write| |].
  - intros e [s1 r1] w' _ _ (E & Hg & Hd). simpl in *. subst. auto.
  - intros [] [s1 r1] w' _ (E & Hg & Hd & Hack). simpl in *. subst. apply keep_change. simpl. by rewrite Eq.
Qed.

Lemma keep_retry p s r w :
  res_pending r = Some p →
  keep alive (retry_pending p) (λ x t w', grows s t.1 ∧
    (∃ p', t.2 = set_pending (Some p') r ∧ pd_snapshot p' = pd_snapshot p) ∧
    (storage_dead s → t.2 = r ∧ ∃ e, x = Err e)) (s, r) w.
Proof.
  intros Ep. assert (∃ p', r = set_pending (Some p') r ∧ pd_snapshot p' = pd_snapshot p) as Hsame.
  { exists p. by rewrite set_pending_same. }
  unfold retry_pending. eapply keep_bind_pure; [done|done|]. eapply keep_bind; [apply keep_storage, sl_prepare| |].
  { intros e [s1 r1] w' _ _ (E & Hg & _). simpl in *. subst. split_and!; [done..|]. eauto. }
  intros plan [s1 r1] w1 _ (E & Hg & Hnd). simpl in *. subst. specialize (Hnd _ eq_refl).
  apply keep_bind_check; [intros e _; split_and!; naive_solver|]. intros [] _.
  eapply keep_bind_pure; [done|done|]. apply keep_bind_check.
  { intros e _. simpl. rewrite Ep. simpl. split_and!; [done| |done]. by exists (set_ticket plan p). }
  intros bs _. eapply keep_mono; [apply (keep_write_pending _ _ _ _ _ (set_ticket plan p)); simpl; by rewrite Ep|].
  intros x [s2 r2] w2 _ _ [Hg2 Hx]. simpl in *. rewrite Ep in Hx. split_and!; [by transitivity s1| |done].
  destruct x as [[]|e]; destruct Hx as [-> _]; by eexists.
Qed.

Lemma keep_finish s r w :
  resident_ok w s r →
  keep alive finish_pending_commit (λ x t w', grows s t.1 ∧ resident_ok w' t.1 t.2 ∧
    (x = Ok () → t.2 = r ∧ res_pending r = None)) (s, r) w.
Proof.
  intros Hr. unfold finish_pending_commit. eapply keep_bind_pure; [done|done|].
  destruct (res_pending r) as [p|] eqn:Ep; [|by apply keep_ret].
  destruct (ok_pending _ _ _ Hr p Ep) as [Hv Hdead].
  apply (keep_bind _ _ _ (λ x t w', grows s t.1 ∧ resident_ok w' t.1 t.2 ∧
    (∀ u, x = Ok u → ∃ p', res_pending t.2 = Some p' ∧ state_version (pd_snapshot p') = u64_max))).
  - destruct (pd_durable p) eqn:Ed.
    + apply keep_ret. split_and!; [done..|]. intros _ _. exists p. naive_solver.
    + eapply keep_mono; [by apply keep_retry|]. intros x [s1 r1] w1 HR _ (Hg & (p' & E & Es) & Hd). simpl in *.
      split_and!; [done| |].
      * destruct Hdead as [[Hdead _]|Hmax].
        { destruct (Hd Hdead) as [-> _]. by eapply resident_ok_later. }
        subst. split; [|done|].
        -- intros q [= <-]. rewrite Es. simpl. auto.
        -- apply (published_ok_later w w1 r HR), Hr.
      * intros u ->. destruct Hdead as [[Hdead _]|Hmax]; [by destruct (Hd Hdead) as [_ [e ?]]|].
        subst. exists p'. simpl. by rewrite Es.
  - intros e [s1 r1] w1 _ _ (Hg & Hr1 & _). split_and!; done.
  - intros [] [s1 r1] w1 _ (Hg & Hr1 & Hmax). destruct (Hmax () eq_refl) as (p' & Ep' & Hmax'). simpl in *.
    eapply keep_bind_pure; [done|done|]. apply keep_bind_check; [naive_solver|]. intros q Hq%ctx_Ok.
    simplify_eq. apply keep_bind_check; [naive_solver|]. intros v Hv'%ctx_Ok. apply checked_add_Some in Hv' as [_ ?].
    unfold is_u64 in *. lia.
Qed.

(** ** Publishing a commit *)

Lemma keep_write_ticket epoch next s r w :
  keep alive (write_ticket epoch next) (λ _ t _, grows s t.1 ∧ t.2 = set_next_write None r) (s, r) w.
Proof.
  unfold write_ticket. do 2 (eapply keep_bind_pure; [done|done|]).
  assert (∀ v, keep alive (on_storage (as_prepare_state_write epoch v))
    (λ _ t _, grows s t.1 ∧ t.2 = set_next_write None r) (s, set_next_write None r) w) as Hp.
  { intros v. eapply keep_mono; [apply keep_storage, sl_prepare|]. intros x t w' _ _ (E & Hg & _). done. }
  destruct (res_next_write r); [case_match; [by apply keep_ret|apply Hp]|apply Hp].
Qed.

(** What a publication that fails early leaves: a database without a commit under
    way is not used again. *)
Definition unsettled w s r : Prop := res_pending r = None ∨ resident_ok w s r.

Lemma unsettled_capture w s r c : resident_ok w s r → unsettled w s (set_capture c r).
Proof.
  intros [Hp _ Hpub]. unfold unsettled. destruct (res_pending r) as [p|] eqn:E; [right|by left].
  split; [exact Hp| |exact Hpub]. intros E'. simpl in E'. congruence.
Qed.

Lemma snapshot_encode_valid (c : StateSnapshot) bs :
  snapshot_encode c = Ok bs → sqlite_validate (sqlite c) (state_version c) = Ok ().
Proof.
  unfold snapshot_encode. intros ([] & Hv & _)%bind_Ok. by apply snapshot_validate_sqlite.
Qed.

Lemma quiet_unix_millis : quiet unix_millis.
Proof.
  apply quiet_bind; [|intros t; apply quiet_bind; [apply quiet_lift|intros; apply quiet_ret]].
  intros w. eapply safe_mono; [apply safe_now|done].
Qed.

(** The new head continues the old one. *)
Lemma unbroken_next w s r l tx plan c bs :
  resident_ok w s r → res_pending r = None → commit_kept w plan c bs → txid (sqlite c) = tx →
  collect_ltx_files l (cap_published (res_capture r)) tx = Ok (files (sqlite c)) →
  (∀ h, parent (sqlite c) = Some h → res_sqlite_head r = Some h) →
  unbroken resumed w (snapshot_ref (object_name plan) c bs) tx.
Proof.
  intros Hr Ep Hk Htx Hc Hh. pose proof (snapshot_encode_valid _ _ (proj1 Hk)) as Hv.
  pose proof (capture_extends l (cap_published (res_capture r)) tx (state_version c) (files (sqlite c))
    (parent (sqlite c)) Hc) as Hext. rewrite <- Htx in *. destruct (sqlite c) as [tx' par fs] eqn:Ec. simpl in *.
  specialize (Hext Hv). destruct par as [h|].
  - change tx' with (txid {| txid := tx'; parent := Some h; files := fs |}). rewrite <- Ec.
    eapply unbroken_delta; [done|by rewrite Ec| |by rewrite Ec]. by apply (ok_head _ _ _ Hr Ep), Hh.
  - change tx' with (txid {| txid := tx'; parent := None; files := fs |}). rewrite <- Ec.
    by apply unbroken_full; [|rewrite Ec..].
Qed.

(** A commit that was written becomes the head. *)
Lemma keep_adopt p bs s r w (r0 : ResidentDatabase) l :
  res_pending r = Some p → pd_durable p = true → is_u64 (state_version (pd_snapshot p)) →
  snapshot_encode (pd_snapshot p) = Ok bs → plan_state_version (pd_ticket p) = state_version (pd_snapshot p) → acknowledged (pd_ticket p) bs w →
  state_version (pd_snapshot p) = res_state_version r + 1 → owner_epoch (pd_snapshot p) = res_owner_epoch r →
  pd_txid p = txid (sqlite (pd_snapshot p)) → cap_published (res_capture r) = pd_txid p → published_ok w r →
  (is_u64 (state_version (pd_snapshot p) + 1) → resident_ok w s r0 ∧ res_pending r0 = None) →
  collect_ltx_files l (cap_published (res_capture r0)) (pd_txid p) = Ok (files (sqlite (pd_snapshot p))) →
  (∀ h, parent (sqlite (pd_snapshot p)) = Some h → res_sqlite_head r0 = Some h) →
  keep alive finish_pending_commit (λ x t w', t.1 = s ∧ w' = w ∧ match x with
    | Ok _ => resident_ok w s t.2 ∧ res_pending t.2 = None ∧ res_published t.2 = Some (pd_txid p) ∧
        res_state_version t.2 = state_version (pd_snapshot p) ∧ res_owner_epoch t.2 = res_owner_epoch r ∧
        res_last_request_id t.2 = (λ _, request_id (pd_snapshot p)) <$> completion (pd_snapshot p) ∧
        res_last_result t.2 = completion_result <$> completion (pd_snapshot p) ∧
        res_sqlite_head t.2 = Some (snapshot_ref (object_name (pd_ticket p)) (pd_snapshot p) bs)
    | Err _ => resident_ok w s t.2
    end) (s, r) w.
Proof.
  intros Ep Ed Hu64 Hbs Hplan Hack Hv He Htx Hcap Hpub Hr0 Hcol Hh. unfold finish_pending_commit.
  eapply keep_bind_pure; [done|done|]. rewrite Ep, Ed. apply keep_bind_ret. eapply keep_bind_pure; [done|done|].
  rewrite Ep. apply keep_bind_check; [done|]. intros q Hq%ctx_Ok. simplify_eq.
  assert (commit_kept w (pd_ticket q) (pd_snapshot q) bs) as Hk by done.
  apply keep_bind_check.
  - intros e Hov. split_and!; [done..|]. split; [|simpl; congruence|done]. intros q' E. simpl in E. simplify_eq.
    split; [done|]. right. unfold checked_add in Hov. destruct (N.leb_spec (state_version (pd_snapshot q) + 1) u64_max); [done|].
    unfold is_u64 in *. lia.
  - intros v Hv'%ctx_Ok. apply checked_add_Some in Hv' as [-> Hu].
    destruct (Hr0 Hu) as [Hok Hnone]. eapply keep_bind_pure; [done|done|].
    apply keep_bind_check; [intros e E; congruence|]. intros bs' E. rewrite Hbs in E. injection E as <-. apply keep_change. simpl.
    do 2 (split; [done|]). split; [|by split_and!]. split.
    + done.
    + intros _ h [= <-]. simpl. rewrite Hcap. by eapply (unbroken_next w s r0 l).
    + intros t [= <-]. exists (pd_snapshot q). split_and!; [done..|]. left. by exists (pd_ticket q), bs.
Qed.

(** What a publication leaves behind. *)
Definition publication (inv : ActorInvocation) (done : option RequestCompletion) (tx : N) r
    (x : result unit) (t : S * ResidentDatabase) w' : Prop :=
  match x with
  | Ok _ => resident_ok w' t.1 t.2 ∧ res_pending t.2 = None ∧ res_published t.2 = Some tx ∧
      res_state_version t.2 = res_state_version r + 1 ∧ res_owner_epoch t.2 = res_owner_epoch r ∧
      ∃ plan c bs, commit_kept w' plan c bs ∧ state_version c = res_state_version r + 1 ∧
        owner_epoch c = res_owner_epoch r ∧ request_id c = inv_request_id inv ∧ completion c = done ∧
        txid (sqlite c) = tx ∧ res_last_request_id t.2 = (λ _, inv_request_id inv) <$> done ∧
        res_last_result t.2 = completion_result <$> done ∧
        res_sqlite_head t.2 = Some (snapshot_ref (object_name plan) c bs)
  | Err _ => unsettled w' t.1 t.2
  end.

Lemma keep_publish inv done tx origin s r w :
  resident_ok w s r →
  keep alive (publish_state inv (res_owner_epoch r) done tx origin)
    (λ x t w', grows s t.1 ∧ publication inv done tx r x t w') (s, r) w.
Proof.
  intros Hr. unfold publish_state. eapply keep_bind_pure; [done|done|].
  apply keep_bind_check; [intros e _; split; [done|by right]|]. intros next Hnext%ctx_Ok.
  apply checked_add_Some in Hnext as [-> Hu].
  eapply keep_bind; [apply keep_write_ticket| |].
  { intros e [s1 r1] w1 HR1 _ [Hg E]. simpl in *. subst. split; [done|]. right. by destruct (resident_ok_later _ _ _ _ _ HR1 Hg Hr). }
  intros plan [s1 r1] w1 HR1 [Hg1 E]. simpl in Hg1, E. subst r1.
  assert (resident_ok w1 s1 (set_next_write None r)) as Hr1 by by destruct (resident_ok_later _ _ _ _ _ HR1 Hg1 Hr).
  apply keep_bind_check; [intros e _; split; [done|by right]|]. intros [] Hplan%ensure_Ok%N.eqb_eq.
  apply keep_bind_check; [intros e _; split; [done|by right]|]. intros [] Hepoch%ensure_Ok%N.eqb_eq.
  eapply keep_bind; [apply keep_capture_sqlite| |].
  { intros e [s2 r2] w2 HR2 _ (E & -> & c & E2 & _). simpl in *. subst. split; [done|]. by apply unsettled_capture. }
  intros q [s2 r2] w2 HR2 (E & -> & cap & E2 & Hq & Hcap & Hcol & Hhead). simpl in E, E2. subst s2 r2.
  apply (keep_bind _ _ _ (λ _ t w', rely w1 w' ∧ t = (s1, set_capture cap (set_next_write None r)))).
  { apply keep_run; [apply quiet_unix_millis|done]. }
  { intros e t w3 _ _ (HR3 & ->). split; [done|]. apply unsettled_capture.
    eapply resident_ok_later; [exact HR3|reflexivity|exact Hr1]. }
  intros now t w3 _ (HR3 & ->). set (c := {| attribution := _ |}).
  assert (resident_ok w3 s1 (set_next_write None r)) as Hr3
    by (eapply resident_ok_later; [exact HR3|reflexivity|exact Hr1]).
  apply keep_bind_check; [intros e _; split; [done|]; exact (unsettled_capture _ _ _ cap Hr3)|]. intros bs Hbs.
  eapply keep_bind_pure; [done|done|].
  eapply keep_bind; [by apply keep_write_pending| |].
  { intros e [s4 r4] w4 HR4 _ (Hg4 & E & Hdead). simpl in E, Hdead. subst r4. split; [by transitivity s1|]. right.
    split; [|done|by apply (published_ok_later w3 w4 r HR4), Hr3]. intros p [= <-]. simpl. auto. }
  intros [] [s4 r4] w4 HR4 (Hg4 & E & Hnd & Hack). simpl in E, Hg4. subst r4.
  assert (resident_ok w4 s4 r) as Hr4.
  { eapply resident_ok_later; [exact HR4|exact Hg4|]. by destruct Hr3. }
  eapply keep_mono; [eapply (keep_adopt _ bs s4 _ w4 r (cap_lite (res_capture r)))|].
  1-10: try done; try lia.
  - simpl. by apply (published_ok_later w3 w4 r HR4), Hr3.
  - intros Hu'. split; [done|]. destruct (res_pending r) as [p|] eqn:Ep; [|done]. exfalso.
    destruct (ok_pending _ _ _ Hr p Ep) as [Hv [[Hd _]|Hmax]].
    + by apply Hnd, Hg1.
    + unfold is_u64 in *. simpl in *. lia.
  - done.
  - done.
  - intros x [s5 r5] w5 _ _ (E & -> & Hx). simpl in E. subst s5. split; [by transitivity s1|].
    destruct x as [[]|e]; [|by right]. destruct Hx as (Hok & Hpn & Hp & Hsv & Hoe & Hl & Hres & Hh). simpl in *.
    split_and!; [done..|]. exists plan, c, bs. split_and!; try done.
Qed.

(** ** The calls of an actor *)

Lemma keep_on_capture {A} (p : stateful process SqliteCapture A) Q s r w :
  quietly p → tracks p Q →
  keep alive (on_capture p) (λ x t _, t.1 = s ∧ ∃ c, t.2 = set_capture c r ∧ Q (res_capture r) x c) (s, r) w.
Proof.
  intros Hq Ht Ha. unfold on_capture. eapply safe_bind; [apply safe_yields; [apply safe_quiet, Hq|apply Ht]|].
  intros [c x] w' HR [_ HQ]. apply safe_ret. split; [by eapply alive_later|]. simpl. eauto.
Qed.

(** Replicating a commit leaves alone what was published. *)
Definition same_history (c c' : SqliteCapture) : Prop := cap_published c' = cap_published c.

Lemma quiet_instant : quiet instant.
Proof. intros w. apply safe_op. intros w1 x w2 _ _ [-> _]. split; [by apply guar_same|done]. Qed.

Lemma tracks_on_lite {A} (p : stated lite A) : tracks (L:=process) (on_lite p) (λ c _ c', same_history c c').
Proof. intros c. unfold on_lite. by destruct (p (cap_lite c)). Qed.

Lemma tracks_history {A B} (p : stateful process SqliteCapture A) (f : A → stateful process SqliteCapture B) :
  tracks p (λ c _ c', same_history c c') → (∀ a, tracks (f a) (λ c _ c', same_history c c')) →
  tracks (p ≫= f) (λ c _ c', same_history c c').
Proof. intros Hp Hf. eapply tracks_bind; [exact Hp|exact Hf|done|]. unfold same_history. congruence. Qed.

Lemma capture_sync_keeps :
  tracks (L:=process) capture_sync (λ c _ c', same_history c c') ∧ quietly capture_sync.
Proof.
  unfold capture_sync, same_history. split.
  - apply tracks_history; [apply tracks_on_lite|]. intros changed.
    apply tracks_history; [by intros c|]. intros c. apply tracks_history; [|intros; apply tracks_history; by intros ?].
    destruct (cap_full_snapshots c); [|by intros ?]. destruct changed; [|by intros ?].
    apply tracks_history; [by apply tracks_call|]. intros now. case_match; [|by intros ?].
    apply tracks_history; [apply tracks_on_lite|]. intros [].
    apply tracks_history; [by apply tracks_call|]. intros now'. by intros ?.
  - assert (∀ A (p : stated lite A), quietly (T:=SqliteCapture) (on_lite p)) as Hl.
    { intros A p c. unfold on_lite. destruct (p (cap_lite c)). apply quiet_ret. }
    apply quietly_bind; [apply Hl|]. intros changed. apply quietly_bind; [intros c; apply quiet_ret|]. intros c.
    apply quietly_bind; [|intros; apply quietly_bind; [intros ?; apply quiet_ret|intros; apply quietly_ret]].
    destruct (cap_full_snapshots c); [|apply quietly_ret]. destruct changed; [|apply quietly_ret].
    apply quietly_bind; [apply quietly_call, quiet_instant|]. intros now. case_match; [|apply quietly_ret].
    apply quietly_bind; [apply Hl|]. intros []. apply quietly_bind; [apply quietly_call, quiet_instant|].
    intros now'. apply quietly_modify.
Qed.

Lemma resident_ok_capture w s r c :
  same_history (res_capture r) c → resident_ok w s r → resident_ok w s (set_capture c r).
Proof.
  unfold same_history. intros E [Hp Hh Hpub]. split; [done| |done]. intros Ep h Eh. simpl in *. rewrite E. by apply Hh.
Qed.

Lemma keep_immediate inv origin s r w :
  resident_ok w s r →
  keep alive (publish_immediate inv (res_owner_epoch r) origin)
    (λ x t w', grows s t.1 ∧ (x = Ok () → resident_ok w' t.1 t.2 ∧ res_owner_epoch t.2 = res_owner_epoch r)) (s, r) w.
Proof.
  intros Hr. unfold publish_immediate. eapply keep_bind; [apply keep_storage, sl_authority| |].
  { intros e [s1 r1] w1 _ _ (_ & Hg & _). by split. }
  intros [] [s1 r1] w1 HR1 (E & Hg1 & _). simpl in E, Hg1. subst r1.
  assert (resident_ok w1 s1 r) as Hr1 by (eapply resident_ok_later; [exact HR1|exact Hg1|exact Hr]).
  eapply keep_bind_pure; [done|done|]. apply keep_bind_check; [by intros|]. intros [] _.
  eapply keep_bind; [by apply keep_publish| |].
  { intros e [s2 r2] w2 _ _ (Hg & _). split; [by transitivity s1|done]. }
  intros [] [s2 r2] w2 HR2 (Hg2 & Hok & _ & _ & _ & He & _). simpl in *.
  eapply keep_mono; [apply keep_storage, sl_authority|]. intros x [s3 r3] w3 HR3 _ (E & Hg3 & _). simpl in *. subst r3.
  split; [transitivity s1; [done|by transitivity s2]|]. intros _. split; [|done].
  eapply resident_ok_later; [exact HR3|exact Hg3|exact Hok].
Qed.

Lemma keep_database_call inv owner origin c s r w :
  resident_ok w s r →
  keep alive (execute_database_call inv owner origin c)
    (λ x t w', grows s t.1 ∧
       ∀ a, x = Ok a → resident_ok w' t.1 t.2 ∧ res_owner_epoch t.2 = res_owner_epoch r) (s, r) w.
Proof.
  intros Hr. unfold execute_database_call. eapply keep_bind_pure; [done|done|].
  apply keep_bind_check; [by intros|]. intros [] _.
  assert (∀ A (p : stateful process S A) (g : A → DatabaseReply),
    (∀ s w, keep storage_ok p (λ _ s' _, grows s s') s w) →
    keep alive (a ← on_storage p; mret (g a)) (λ x t w', grows s t.1 ∧
       ∀ a, x = Ok a → resident_ok w' t.1 t.2 ∧ res_owner_epoch t.2 = res_owner_epoch r) (s, r) w) as Halarm.
  { intros A p g Hp. eapply keep_bind.
    - apply (keep_storage p (λ _ _ _, True)). eapply keep_mono; [apply Hp|]. by intros.
    - intros e [s1 r1] w1 _ _ (_ & Hg & _). by split.
    - intros a [s1 r1] w1 HR (E & Hg & _). simpl in *. subst. apply keep_ret. split; [done|]. intros _ _.
      split; [|done]. eapply resident_ok_later; [exact HR|exact Hg|exact Hr]. }
  assert (∀ c, keep alive (x ← database_execute c;
      (if exec_committed x then after_commit inv (res_owner_epoch r) origin (immediate c) else mret ());;
      r ← get_resident;
      mret (match exec_result x with
            | Ok d => ExecutedReply d (match c with Commit => Some (res_synced r) | _ => None end)
            | Err e => RejectedReply e
            end)) (λ x t w', grows s t.1 ∧
       ∀ a, x = Ok a → resident_ok w' t.1 t.2 ∧ res_owner_epoch t.2 = res_owner_epoch r) (s, r) w) as Hexec.
  2: { specialize (Hexec c). destruct c as [| | | | | | |t i|i| |]; [exact Hexec..| | | |exact Hexec|exact Hexec].
       - apply (Halarm _ as_get_alarm (λ t, ExecutedReply (AlarmResult t) None)). intros. apply sl_get_alarm.
       - apply (Halarm _ (as_update_alarm (Some t)) (λ _, ExecutedReply DoneResult None)). intros. apply sl_update_alarm.
       - apply (Halarm _ (as_update_alarm None) (λ _, ExecutedReply DoneResult None)). intros. apply sl_update_alarm. }
  clear Halarm c. intros c. destruct (SqliteEngine.engine_call c {| connection := cap_lite (res_capture r);
    commit_seen := res_commit_seen r |}) as [e x] eqn:Ee.
  eapply keep_bind_pure; [unfold database_execute; by rewrite Ee|by intros [? ?]|].
  set (r1 := set_commit_seen _ _).
  assert (resident_ok w s r1) as Hr1 by by destruct (resident_ok_capture w s r (set_lite (connection e) (res_capture r)) eq_refl Hr).
  apply (keep_bind _ _ _ (λ x t w', grows s t.1 ∧
    (x = Ok () → resident_ok w' t.1 t.2 ∧ res_owner_epoch t.2 = res_owner_epoch r))).
  - destruct (exec_committed x); [|by apply keep_ret]. unfold after_commit. eapply keep_bind_pure; [done|done|].
    eapply keep_bind; [apply keep_on_capture; apply capture_sync_keeps| |].
    { intros e' [s2 r2] w2 _ _ (E & _). simpl in *. by subst. }
    intros n [s2 r2] w2 HR2 (E & cap & E2 & Hsame). simpl in E, E2. subst s2 r2.
    assert (resident_ok w2 s (set_synced n (set_capture cap r1))) as Hr2.
    { assert (resident_ok w2 s (set_capture cap r1)) as [] by (apply resident_ok_capture; [done|];
        eapply resident_ok_later; [exact HR2|reflexivity|exact Hr1]). done. }
    eapply keep_bind_pure; [done|done|]. case_match; [|by apply keep_ret].
    apply (keep_immediate inv origin s (set_synced n (set_capture cap r1)) w2 Hr2).
  - intros e' [s2 r2] w2 _ _ (Hg & _). by split.
  - intros [] [s2 r2] w2 _ (Hg & Hok). eapply keep_bind_pure; [done|done|]. apply keep_ret. split; [done|]. auto.
Qed.
End commits.
