(* ===== verification/DatabaseSession.v ===== *)
(** * The calls of a database session keep its invariant

    Activation, invocation, database calls and completion of a [DatabaseSession]
    ([src/src/host/actor_database/session.rs]), on top of [DatabaseSafety]. *)

From S2P Require Import Prelude Text Demo Names Payload StateLog Effects Btree Concurrency Buckets Recovery Runtime Activation Ownership Takeover HostStorage Sqlite Capture Protocol ActorDatabase DatabaseLaws DatabaseSafety.
Local Open Scope N_scope.

Section session_safety.
Context `{JsonValue} `{!Json (Envelope StateSnapshot), !Json StateSnapshot, !Json LegacySnapshot}.
Context `{Digest} `{Base64} `{!Json Ownership}.
Context `{!SnapshotStore process} `{!KeptBefore} `{!StoreContract}.
Context `{!Litestream} `{!LitestreamLaws} `{!RawJson} `{!Json (list bytes)}.
Context {S : Type} `{!ActorStorage S} `{!StorageLaws S}.
Implicit Types (w : world process) (s : S) (r : ResidentDatabase) (d : DatabaseSession).

Abbreviation grows := (DatabaseLaws.grows storage_dead storage_confirmed).

Definition session_ok (x : S * DatabaseSession) w : Prop :=
  storage_ok x.1 w ∧ ∀ r, cached_state x.2 = Some r → storage_confirmed x.1 ∧ resident_ok w x.1 r.

Lemma session_ok_later s s' d w w' :
  rely w w' → grows s s' → storage_ok s' w' → session_ok (s, d) w → session_ok (s', d) w'.
Proof.
  intros HR Hg Hok [_ Hd]. split; [done|]. intros r Hr. destruct (Hd r Hr) as [? ?]. simpl in *. split; [by apply Hg|].
  eapply resident_ok_later; [exact HR|exact Hg|done].
Qed.

Lemma session_ok_empty s d w : storage_ok s w → cached_state d = None → session_ok (s, d) w.
Proof. intros Hs E. split; [done|]. simpl. intros r. by rewrite E. Qed.

Lemma session_ok_cached s d r w :
  storage_ok s w → storage_confirmed s → resident_ok w s r → session_ok (s, set_cached (Some r) d) w.
Proof. intros Hs Hc Hr. split; [done|]. by intros ? [= <-]. Qed.

(** ** Steps of a session *)

Lemma keep_storage_call {A} (p : stateful process S A) (Q : result A → S → world process → Prop) s d w :
  keep storage_ok p (λ x s' w', grows s s' ∧ Q x s' w') s w →
  keep session_ok (storage_call p) (λ x t w', t.2 = d ∧ grows s t.1 ∧ Q x t.1 w') (s, d) w.
Proof.
  intros Hp Hd. unfold storage_call. eapply safe_bind; [apply Hp, Hd|]. intros [s' x] w' HR [Hok' [Hg HQ]].
  apply safe_ret. simpl in *. split; [by eapply session_ok_later|done].
Qed.

Lemma keep_fails {A} (p : stateful process S A) (Q : bool → S → world process → Prop) s d w :
  keep storage_ok p (λ x s' w', grows s s' ∧ Q (negb (is_ok x)) s' w') s w →
  keep session_ok (fails p) (λ x t w', t.2 = d ∧ grows s t.1 ∧ ∃ b, x = Ok b ∧ Q b t.1 w') (s, d) w.
Proof.
  intros Hp Hd. unfold fails. eapply safe_bind; [apply Hp, Hd|]. intros [s' x] w' HR [Hok' [Hg HQ]].
  apply safe_ret. simpl in *. split; [by eapply session_ok_later|]. split_and!; [done..|]. eauto.
Qed.

Lemma keep_with_resident {A} (I : S * DatabaseSession → world process → Prop)
    (p : stateful process (S * ResidentDatabase) A) c
    (Q : result A → S * ResidentDatabase → world process → Prop) s d w :
  (I (s, d) w → storage_ok s w) → (∀ s' w', storage_ok s' w' → I (s', d) w') → storage_confirmed s →
  keep alive p (λ x t w', grows s t.1 ∧ Q x t w') (s, c) w →
  keep I (with_resident p c) (λ x t w', t.2 = d ∧ storage_confirmed t.1 ∧ grows s t.1 ∧
    ∃ c' y, x = Ok (c', y) ∧ Q y (t.1, c') w') (s, d) w.
Proof.
  intros HI HI' Hc Hp Hs. unfold with_resident. eapply safe_bind; [by apply Hp; split; [apply HI|]|].
  intros [[s' c'] y] w' HR [[Hok' Hc'] [Hg HQ]]. apply safe_ret. simpl in *.
  split; [by apply HI'|]. split_and!; [done..|]. eauto.
Qed.

Lemma keep_session_run {A} (p : prog process A) (Q : result A → Prop) s d w :
  quiet p → yields p Q →
  keep session_ok (call p) (λ x t _, t = (s, d) ∧ Q x) (s, d) w.
Proof.
  intros Hp Hy Hd. unfold call. eapply safe_bind.
  { apply safe_yields; [apply safe_quiet, quiet_attempt, Hp|apply yields_attempt].
    eapply yields_mono; [exact Hy|]. intros x Hx.
    exact (Hx : (λ y, match y with Ok x => Q x | Err _ => True end) (Ok x)). }
  intros a w' HR [_ Ha]. apply safe_ret. split; [|done].
  eapply session_ok_later; [exact HR|reflexivity| |exact Hd]. eapply sl_later; [exact HR|]. apply Hd.
Qed.

(** ** Opening a database *)

(** A capture starts at the transaction it resumes, or at 0. *)
Lemma open_capture_position resume l l' u :
  open_capture resume l = (l', Ok u) → lite_position l' = 0 ∨ resume = Some (lite_position l').
Proof.
  unfold open_capture. destruct u. destruct resume as [t|]; [|by left; eapply lite_with_store_position].
  destruct (lite_resume t l) as [l1 [[]|e]] eqn:E; [|by left; eapply lite_with_store_position].
  intros [= <-]. right. by rewrite (lite_resume_position _ _ _ E).
Qed.

Lemma capture_open_yields l full resume :
  yields (L:=process) (capture_open l full resume) (λ x, ∀ c, x = Ok c →
    cap_txid c = cap_published c ∧ (cap_published c = 0 ∨ resume = Some (cap_published c))).
Proof.
  unfold capture_open. destruct ((lite_create_tables;; open_capture resume) l) as [l' r] eqn:E.
  apply yields_lift; [done|]. intros u ->. apply yields_call; [done|]. intros now. simpl. intros c [= <-]. simpl.
  split; [done|]. apply stated_bind_Ok in E as (l1 & [] & _ & E). by eapply open_capture_position.
Qed.

Lemma quiet_capture_open l full resume : quiet (capture_open l full resume).
Proof.
  unfold capture_open. destruct ((lite_create_tables;; open_capture resume) l) as [l' r].
  apply quiet_bind; [apply quiet_lift|]. intros. apply quiet_bind; [apply quiet_instant|]. intros. apply quiet_ret.
Qed.

Lemma quiet_tempdir : quiet tempdir.
Proof. apply quiet_bind; [apply quiet_uuid|]. intros. apply quiet_lift. Qed.

Lemma resident_open_yields epoch c :
  yields (resident_open epoch c) (λ x, ∀ r, x = Ok r →
    res_owner_epoch r = epoch ∧ res_state_version r = 0 ∧ res_pending r = None ∧ res_sqlite_head r = None ∧
    res_published r = None ∧ cap_published (res_capture r) = cap_published c ∧ res_synced r = cap_txid c).
Proof.
  unfold resident_open. destruct (lite_open_engine (cap_lite c)) as [l x]. apply yields_lift; [done|].
  intros u _. simpl. by intros r [= <-].
Qed.

Lemma quiet_resident_open epoch c : quiet (resident_open epoch c).
Proof.
  unfold resident_open. destruct (lite_open_engine (cap_lite c)) as [l x].
  apply quiet_bind; [apply quiet_lift|]. intros. apply quiet_ret.
Qed.

Lemma fresh_resident_ok w s r :
  res_pending r = None → res_sqlite_head r = None → res_published r = None → resident_ok w s r.
Proof. intros E1 E2 E3. split; intros ?; rewrite ?E1, ?E2, ?E3; naive_solver. Qed.

Lemma keep_new_resident epoch s d w :
  keep session_ok (new_resident epoch) (λ x t w', t = (s, d) ∧
    ∀ r, x = Ok r → resident_ok w' s r ∧ res_owner_epoch r = epoch) (s, d) w.
Proof.
  unfold new_resident. eapply keep_bind.
  - apply (keep_session_run _ (λ _, True)); [|eapply yields_mono; [apply yields_True|done]].
    apply quiet_bind; [apply quiet_tempdir|]. intros. apply quiet_capture_open.
  - by intros e t w' _ _ [-> _].
  - intros c t w' _ [-> _]. eapply keep_mono; [apply keep_session_run; [apply quiet_resident_open|apply resident_open_yields]|].
    intros x t w'' _ _ [-> Hr]. split; [done|]. intros r Er. destruct (Hr r Er) as (He & _ & Hp & Hh & Hpub & _).
    split; [|done]. by apply fresh_resident_ok.
Qed.

(** A restored database continues the history it was restored from. *)
Lemma keep_load_cached epoch version bs s d w :
  keep session_ok (load_cached epoch version bs) (λ x t w', t.2 = d ∧ grows s t.1 ∧
    ∀ r, x = Ok r → resident_ok w' t.1 r ∧ res_owner_epoch r = epoch) (s, d) w.
Proof.
  unfold load_cached. apply keep_bind_check; [by intros|]. intros c Hc.
  apply keep_bind_check; [by intros|]. intros [] Hv%ensure_Ok%N.eqb_eq. apply keep_bind_check; [by intros|]. intros [] _.
  eapply keep_bind; [apply keep_storage_call, sl_read| |]; [by intros e t w1 _ _ (? & ? & _)|].
  intros q [s1 d1] w1 HR1 (E & Hg & Hq). simpl in E. subst d1. specialize (Hq _ _ eq_refl Hc).
  apply keep_bind_check; [by intros|]. intros p Hp.
  eapply keep_bind.
  { apply (keep_session_run _ (λ x, ∀ cap, x = Ok cap → cap_txid cap = cap_published cap ∧
      (cap_published cap = 0 ∨ (is_Some p ∧ cap_published cap = txid q)))).
    - apply quiet_bind; [apply quiet_tempdir|]. intros l. destruct (restore_database _ _ l) as [l' x].
      apply quiet_bind; [apply quiet_lift|]. intros. apply quiet_capture_open.
    - apply yields_call; [done|]. intros l. destruct (restore_database _ _ l) as [l' x].
      apply yields_lift; [done|]. intros u _. eapply yields_mono; [apply capture_open_yields|]. simpl.
      intros x' Hx cap Ecap. destruct (Hx cap Ecap) as [? [?|E]]; split; auto. right.
      rewrite bool_decide_decide in E. case_decide; naive_solver. }
  { intros e t w2 _ _ [-> _]. done. }
  intros cap t w2 HR2 [-> Hcap]. destruct (Hcap _ eq_refl) as [Htx Hpos].
  eapply keep_bind; [apply keep_session_run; [apply quiet_resident_open|apply resident_open_yields]| |].
  { intros e t w3 _ _ [-> _]. done. }
  intros r t w3 HR3 [-> Hr]. destruct (Hr _ eq_refl) as (He & _ & Hpend & _ & _ & Hpub & Hsync).
  apply keep_ret. simpl. split_and!; [done..|]. intros r' [= <-]. split; [|done]. split; simpl.
  - intros x E. simpl in E. congruence.
  - intros _ h Eh. simpl in *. case_match; [|done]. subst p. rewrite Hpub.
    destruct Hpos as [Hz|[_ ->]]; [|rewrite Hq; apply unbroken_earlier; by eexists _, _].
    match goal with E : (0 <? _) = true |- _ => apply N.ltb_lt in E end. lia.
  - intros t [= <-]. exists c. simpl. split_and!; [done..|]. right. eauto.
Qed.

Lemma keep_take_or_load epoch s d w :
  storage_confirmed s →
  keep session_ok (take_or_load_state epoch) (λ x t w', grows s t.1 ∧ t.2 = set_cached None d ∧
    ∀ r, x = Ok r → resident_ok w' t.1 r ∧ res_owner_epoch r = epoch) (s, d) w.
Proof.
  intros Hc. apply keep_inv. intros [Hs Hd]. unfold take_or_load_state. eapply keep_bind_pure; [done|done|].
  eapply keep_bind_pure; [done|intros _; by apply session_ok_empty|].
  set (load := (x ← storage_call (as_load_actor_state epoch); _)).
  assert (keep session_ok load (λ x t w', grows s t.1 ∧ t.2 = set_cached None d ∧
    ∀ r, x = Ok r → resident_ok w' t.1 r ∧ res_owner_epoch r = epoch) (s, set_cached None d) w) as Hload.
  { unfold load. eapply keep_bind.
    - apply (keep_storage_call _ (λ _ _ _, True)). eapply keep_mono; [apply sl_load|]. by intros.
    - intros e t w1 _ _ (-> & Hg & _). by split_and!.
    - intros [version loaded] [s1 d1] w1 HR1 (E & Hg & _). simpl in E. subst d1. case_match.
      + apply keep_bind_check; [by intros|]. intros [] _. eapply keep_mono; [apply keep_new_resident|].
        intros x t w2 _ _ [-> Hr]. by split_and!.
      + eapply keep_mono; [apply keep_load_cached|]. intros x t w2 _ _ (E & Hg2 & Hr).
        split_and!; [by transitivity s1|done|done]. }
  destruct (cached_state d) as [c|] eqn:Ec; [|exact Hload]. destruct (N.eqb_spec (res_owner_epoch c) epoch); [|exact Hload].
  apply keep_ret. split_and!; [done..|]. intros r [= <-]. split; [|done]. by apply Hd.
Qed.

(** ** The calls *)

Lemma keep_authority_check s d w :
  keep session_ok (fails as_ensure_authority) (λ x t _, t.2 = d ∧ grows s t.1 ∧
    ∃ b, x = Ok b ∧ (b = false → storage_confirmed t.1)) (s, d) w.
Proof.
  eapply keep_mono; [apply (keep_fails _ (λ b s' _, b = false → storage_confirmed s'))|].
  - eapply keep_mono; [apply sl_authority|]. intros [[]|e] s' w' _ _ [Hg Hc]; (split; [done|]); [by intros _; apply Hc|done].
  - by intros x t w' _ _ H'.
Qed.

(** An answer without execution is the stored answer of that very request. *)
Lemma keep_prepare inv owner replayed s d w :
  keep session_ok (prepare_invocation inv owner replayed) (λ x t _,
    ∀ v effects, x = Ok (InvocationCompleted (Completed v effects)) → ∃ r, cached_state t.2 = Some r ∧
      res_last_request_id r = Some (inv_request_id inv) ∧ res_last_result r = Some v) (s, d) w.
Proof.
  unfold prepare_invocation. apply keep_bind_check; [by intros|]. intros epoch _.
  eapply keep_bind; [apply keep_authority_check|by intros|]. intros lost [s1 d1] w1 _ (E & _ & b & [= <-] & Hc).
  simpl in *. subst d1. destruct lost; [apply keep_ret; naive_solver|]. specialize (Hc eq_refl).
  eapply keep_bind; [by apply keep_take_or_load|by intros|].
  intros c [s2 d2] w2 _ (Hg2 & E & Hr). simpl in *. subst d2. destruct (Hr _ eq_refl) as [Hr2 _].
  eapply keep_bind; [apply (keep_with_resident session_ok);
    [by intros []|by intros; apply session_ok_empty|by apply Hg2|by apply keep_finish]|by intros|].
  intros [c' y] [s3 d3] w3 _ (E & Hc3 & _ & c1 & y1 & [= <- <-] & Hok & _). simpl in *. subst d3.
  eapply keep_bind_pure; [done|intros [Hs _]; by apply session_ok_cached|].
  destruct y as [[]|e]; [|apply keep_ret; naive_solver].
  eapply keep_bind; [apply keep_authority_check|by intros|]. intros lost [s4 d4] w4 _ (E & _). simpl in E. subst d4.
  destruct lost; [apply keep_ret; naive_solver|]. apply keep_ret. intros v effects E. exists c'. split; [done|].
  destruct replayed; [|done]. unfold replay in E. case_bool_decide; [|done].
  destruct (res_last_result c') eqn:El; [|done]. by simplify_eq.
Qed.

(** After a call that fails as a whole the database must not be used again. *)
Lemma safe_database_call inv owner origin c s d w :
  session_ok (s, d) w →
  safe (database_call inv owner origin c (s, d))
    (λ x w', storage_ok x.1.1 w' ∧ ∀ a, x.2 = Ok a → session_ok x.1 w') w.
Proof.
  intros [Hs Hd]. cut (keep (λ x w, storage_ok x.1 w) (database_call inv owner origin c)
    (λ x t w', ∀ a, x = Ok a → session_ok t w') (s, d) w); [by intros Hk; apply Hk|].
  unfold database_call. eapply keep_bind_pure; [done|done|].
  destruct (cached_state d) as [r|] eqn:Er; [|by apply keep_ret; intros _ _; apply session_ok_empty].
  destruct (Hd r Er) as [Hc Hr]. eapply keep_bind_pure; [done|done|].
  eapply keep_bind; [apply (keep_with_resident _ _ r); [done|done|exact Hc|by apply keep_database_call]|by intros|].
  intros [r' y] [s1 d1] w1 _ (E & Hc1 & _ & c1 & y1 & [= <- <-] & Hy). simpl in *. subst d1. apply keep_inv.
  simpl. intros Hs1. eapply keep_bind_pure; [done|done|]. apply keep_check. intros a ->.
  destruct (Hy a eq_refl) as [Hr1 _]. by apply session_ok_cached.
Qed.

Lemma keep_prepare_activation s d w :
  keep session_ok prepare_activation (λ _ _ _, True) (s, d) w.
Proof.
  apply keep_inv. intros [Hs Hd]. unfold prepare_activation. eapply keep_bind_pure; [done|done|].
  eapply keep_bind_pure; [done|done|]. eapply keep_bind; [apply keep_storage_call, sl_authority|by intros|].
  intros [] [s1 d1] w1 _ (E & _ & Hc). simpl in E. subst d1. specialize (Hc eq_refl). simpl in Hc.
  destruct (activation d) as [a|]; [by apply keep_ret|]. destruct (prepared_activation d) as [a|].
  { eapply keep_bind_pure; [done|done|]. by apply keep_ret. }
  eapply keep_bind; [apply (keep_storage_call _ (λ _ _ _, True)); eapply keep_mono; [apply sl_acquire|by intros]|by intros|].
  intros a [s2 d2] w2 _ (E & Hg & _). simpl in E, Hg. subst d2. eapply keep_bind_pure; [done|done|].
  eapply (keep_bind _ _ _ (λ _ _ _, True)); [|by intros|].
  - simpl. destruct (cached_state d) as [c|] eqn:Ec; [by apply keep_ret|]. case_match.
    + eapply keep_bind; [apply keep_new_resident|by intros|]. intros c t w3 _ [-> Hr]. destruct (Hr c eq_refl) as [Hr3 _].
      eapply keep_bind_pure; [done| |by apply keep_ret]. intros [Hs3 _]. apply session_ok_cached; [done|by apply Hg|done].
    + apply keep_bind_check; [by intros|]. intros bs _. eapply keep_bind; [apply keep_load_cached|by intros|].
      intros c [s3 d3] w3 _ (E & Hg3 & Hr). simpl in E, Hg3. subst d3. destruct (Hr c eq_refl) as [Hr3 _].
      eapply keep_bind_pure; [done| |by apply keep_ret]. intros [Hs3 _].
      apply session_ok_cached; [done|by apply Hg3, Hg|done].
  - intros a' [s3 d3] w3 _ _. eapply keep_bind; [apply keep_storage_call, sl_authority|by intros|].
    intros [] [s4 d4] w4 _ _. eapply keep_bind_pure; [done|done|]. by apply keep_ret.
Qed.

Lemma keep_finish_activation a hydrated s d w :
  keep session_ok (finish_activation a hydrated) (λ _ _ _, True) (s, d) w.
Proof.
  unfold finish_activation. eapply keep_bind_pure; [done|done|]. apply keep_bind_check; [by intros|]. intros [] _.
  eapply keep_bind; [apply keep_storage_call, sl_authority|by intros|]. intros [] [s1 d1] w1 _ _.
  eapply keep_bind_pure; [done|done|]. apply keep_bind_check; [by intros|]. intros c _.
  apply keep_bind_check; [by intros|]. intros [] _. eapply keep_bind_pure; [done|done|]. by apply keep_ret.
Qed.

Lemma keep_reset s d w : keep session_ok reset (λ _ _ _, True) (s, d) w.
Proof. intros [Hs _]. apply safe_ret. split; [|done]. by apply session_ok_empty. Qed.

(** [r] answers the request without running it again. *)
Definition remembers r (request : bytes) (v : Value) : Prop :=
  res_last_request_id r = Some request ∧ res_last_result r = Some v.

(** The commit of a completed invocation. *)
Definition completion_kept w (inv : ActorInvocation) (v : Value) (version tx : N) : Prop :=
  ∃ plan c bs, commit_kept w plan c bs ∧ state_version c = version ∧ request_id c = inv_request_id inv ∧
    completion c = Some {| completion_result := v |} ∧ txid (sqlite c) = tx.

Lemma completion_kept_later w w' inv v version tx :
  rely w w' → completion_kept w inv v version tx → completion_kept w' inv v version tx.
Proof. intros HR (plan & c & bs & Hk & E). exists plan, c, bs. split; [by eapply commit_kept_later|done]. Qed.

Definition completed_ok (inv : ActorInvocation) (owner : option N) (v : Value) (committed : option N) d (x : result N)
    (t : S * DatabaseSession) w' : Prop :=
  ∀ version, x = Ok version → ∃ r0 r, cached_state d = Some r0 ∧ cached_state t.2 = Some r ∧ owner = Some (res_owner_epoch r0) ∧
    res_state_version r = version ∧ res_owner_epoch r = res_owner_epoch r0 ∧
    (∀ tx, committed = Some tx → ∃ p, res_published r = Some p ∧ tx ≤ p) ∧
    (∀ tx, unpublished r0 committed = Some tx →
       remembers r (inv_request_id inv) v ∧ res_pending r = None ∧ completion_kept w' inv v version tx).

Lemma keep_complete inv owner v committed origin s d w :
  keep session_ok (complete inv owner v committed origin) (completed_ok inv owner v committed d) (s, d) w.
Proof.
  apply keep_inv. intros [Hs Hd]. unfold complete. apply keep_bind_check; [by intros|]. intros epoch Howner%ctx_Ok.
  eapply keep_bind_pure; [done|done|]. eapply keep_bind_pure; [done|intros _; by apply session_ok_empty|].
  apply keep_bind_check; [by intros|]. intros c Hc%ctx_Ok. destruct (Hd c Hc) as [Hconf Hr]. simpl in Hc.
  apply keep_bind_check; [by intros|]. intros [] He%ensure_Ok%N.eqb_eq. subst epoch.
  apply (keep_bind _ _ _ (λ x t w', ∃ c' y, x = Ok (c', y) ∧ t.2 = set_cached None d ∧ storage_confirmed t.1 ∧
    match unpublished c committed with
    | Some tx => publication inv (Some {| completion_result := v |}) tx c y (t.1, c') w'
    | None => y = Ok () ∧ c' = c ∧ resident_ok w' t.1 c
    end)).
  { destruct (unpublished c committed) as [tx|].
    - eapply keep_mono; [apply (keep_with_resident session_ok);
        [by intros []|by intros; apply session_ok_empty|done|by apply keep_publish]|].
      intros x t w1 _ _ (E & Hc1 & _ & c' & y & -> & Hy). by exists c', y.
    - apply keep_ret. exists c, (Ok ()). by split_and!. }
  { by intros e t w1 _ _ (? & ? & ? & _). }
  intros [c' y] [s1 d1] w1 _ (c1 & y1 & [= <- <-] & E & Hc1 & Hy). simpl in E, Hc1. subst d1.
  assert (is_ok y = true ∨ ∃ e, y = Err e) as Hcase by (destruct y; eauto).
  eapply (keep_bind _ _ _ (λ x t w', x = Ok () ∧ t.1 = s1 ∧ w' = w1 ∧ cached_state t.2 = None)).
  { destruct (is_ok y); [by apply keep_ret|]. eapply keep_pure; [done|done|]. done. }
  { by intros e t w2 _ _ [? _]. }
  intros [] [s2 d2] w2 _ (_ & E & -> & Ed). simpl in E, Ed. subst s2.
  assert (is_ok y = true → resident_ok w1 s1 c' ∧ completed_ok inv owner v committed d (Ok (res_state_version c'))
    (s1, set_cached (Some c') d2) w1) as Hok.
  { intros Hy'. destruct y as [[]|e]; [|done]. unfold completed_ok, unpublished in *. destruct committed as [tx|]; simpl in *.
    - destruct (from_option _ _ _) eqn:Eu.
      + destruct Hy as (Hr' & Hpn & Hp & Hv & Heo & plan & k & bs & Hk & Hkv & _ & Hkr & Hkc & Hkt & Hl & Hres & _). split; [done|].
        intros version [= <-]. exists c, c'. split_and!; [done..| |].
        * intros t [= <-]. eauto.
        * simpl. rewrite Eu. intros t [= <-]. do 2 (split; [done|]). exists plan, k, bs. split_and!; [done|congruence|done..].
      + destruct Hy as (_ & -> & Hr'). split; [done|]. intros version [= <-]. exists c, c. split_and!; [done..| |simpl; by rewrite Eu].
        intros t [= <-]. destruct (res_published c) as [p|]; [|done]. exists p. split; [done|]. simpl in Eu.
        by apply N.ltb_ge.
    - destruct Hy as (_ & -> & Hr'). split; [done|]. intros version [= <-]. exists c, c. by split_and!. }
  eapply keep_bind_pure; [done| |].
  { intros [Hs1 _]. destruct (is_ok y) eqn:Ey; simpl.
    - apply session_ok_cached; [done..|]. by apply Hok.
    - case_bool_decide as Ep; [by apply session_ok_empty|]. apply session_ok_cached; [done..|].
      destruct y as [|e]; [done|]. destruct (unpublished c committed); [|by destruct Hy]. destruct Hy as [?|?]; done. }
  apply keep_bind_check; [by intros|]. intros [] Hpub. destruct y as [[]|e]; [|done]. destruct (Hok eq_refl) as [_ Hdone].
  simpl. eapply keep_bind; [apply keep_storage_call, sl_authority|by intros|].
  intros [] [s3 d3] w3 HR3 (E & _). simpl in E. subst d3. apply keep_ret. intros version Ev.
  destruct (Hdone version Ev) as (r0 & r & ? & ? & ? & ? & ? & Hcov & Hkept). exists r0, r. split_and!; [done..|].
  intros tx Htx. destruct (Hkept tx Htx) as (? & ? & ?). do 2 (split; [done|]). by eapply completion_kept_later.
Qed.

(** A request that the database remembers is not run again. *)
Lemma keep_replay inv v s d r w :
  cached_state d = Some r → res_pending r = None → remembers r (inv_request_id inv) v →
  keep session_ok (prepare_invocation inv (Some (res_owner_epoch r)) true) (λ x _ _,
    x = Ok (InvocationCompleted HostUnavailable) ∨ x = Ok (InvocationCompleted (Completed v []))) (s, d) w.
Proof.
  intros Hr Hp [Hid Hres]. unfold prepare_invocation. apply keep_bind_check; [by intros|]. intros ? [= <-].
  eapply keep_bind; [apply keep_authority_check|naive_solver|]. intros lost [s1 d1] w1 _ (E & _).
  simpl in E. subst d1. destruct lost; [by apply keep_ret; left|].
  apply keep_inv. intros [Hs1 Hd]. destruct (Hd r Hr) as [Hc Hok].
  eapply (keep_bind_pure _ _ _ _ _ _ (s1, set_cached None d) r).
  { unfold take_or_load_state, get_session, update, mbind, stateful_bind. simpl. rewrite Hr. by rewrite N.eqb_refl. }
  { intros _. by apply session_ok_empty. }
  eapply (keep_bind_pure _ _ _ _ _ _ (s1, set_cached None d) (r, Ok ())).
  { unfold with_resident, finish_pending_commit, get_resident, mbind, stateful_bind. simpl. by rewrite Hp. }
  { done. }
  eapply keep_bind_pure; [done|intros [Hs _]; by apply session_ok_cached|].
  eapply keep_bind; [apply keep_authority_check|naive_solver|]. intros lost [s4 d4] w4 _ _.
  destruct lost; [by apply keep_ret; left|]. apply keep_ret. right. unfold replay. by rewrite bool_decide_true, Hres.
Qed.
End session_safety.
