(* ===== verification/DatabaseService.v ===== *)
(** * The database service of an actor

    [HostDatabase], [DatabaseService] and the scopes of invocations
    ([src/src/host/actor_database.rs]): one task owns the session and handles its
    commands one at a time. Completions of interleaved invocations are published in
    the order of their sequence numbers. The scopes are shared with the callers,
    who may close them at any time; an answer goes to the channel of its command. *)

From S2P Require Import Prelude Text Demo Names Payload StateLog Effects Btree Concurrency Buckets Recovery Runtime Activation Ownership Takeover HostStorage Sqlite Capture Protocol ActorDatabase DatabaseLaws DatabaseSafety DatabaseSession.
Local Open Scope N_scope.

Section service.
Context `{JsonValue} `{!Json (Envelope StateSnapshot), !Json StateSnapshot, !Json LegacySnapshot}.
Context `{Digest} `{Base64} `{!Litestream} `{!RawJson} `{!Json (list bytes)}.
Context {S : Type} `{!ActorStorage S}.

(** [committed] and [active] are atomics that the service and the caller share. *)
Record InvocationScope := {
  sc_invocation : ActorInvocation;
  sc_owner_epoch : option N;
  sc_origin : CommitOrigin;
  sc_committed : N;
  sc_active : bool;
}.

Definition set_committed (t : N) (sc : InvocationScope) : InvocationScope :=
  {| sc_invocation := sc_invocation sc; sc_owner_epoch := sc_owner_epoch sc; sc_origin := sc_origin sc;
     sc_committed := t; sc_active := sc_active sc |}.
Definition set_inactive (sc : InvocationScope) : InvocationScope :=
  {| sc_invocation := sc_invocation sc; sc_owner_epoch := sc_owner_epoch sc; sc_origin := sc_origin sc;
     sc_committed := sc_committed sc; sc_active := false |}.

(** [HostDatabase::scope] *)
Definition new_scope (inv : ActorInvocation) (epoch : option N) (origin : CommitOrigin) : InvocationScope :=
  {| sc_invocation := inv; sc_owner_epoch := epoch; sc_origin := origin; sc_committed := 0; sc_active := true |}.

(** Scopes and reply channels are named by numbers. *)
Record PendingCompletion := {
  pc_scope : N;
  pc_result : Value;
  pc_sequence : option N;
  pc_reply : N;
}.

Inductive Command :=
| PrepareCommand (scope : N) (replayed : bool) (reply : N)
| CallCommand (scope : N) (c : DatabaseCall) (reply : N)
| ActivateCommand (reply : N)
| HydratedCommand (a : ActorActivation) (hydrated : result unit) (reply : N)
| CompleteCommand (pc : PendingCompletion)
| ResetCommand (reply : N)
(** What the callers do to the scopes. *)
| OpenScope (scope : N) (inv : ActorInvocation) (epoch : option N) (origin : CommitOrigin)
| CloseScope (scope : N).

Inductive Answer :=
| PreparedAnswer (x : result PreparedInvocation)
| CalledAnswer (x : result DatabaseResult)
| ActivatedAnswer (x : result PreparedActivation)
| HydratedAnswer (x : result ActorActivation)
| CompletedAnswer (x : result N)
| ResetAnswer.

(** What was published, for the theorems: the completion, its scope, the transaction
    that was due, and the answer. *)
Record Publication := {
  pb_completion : PendingCompletion;
  pb_scope : InvocationScope;
  pb_due : option N;
  pb_answer : result N;
}.

Record Service := {
  sv_storage : S;
  sv_session : DatabaseSession;
  sv_version : N;
  sv_stopped : bool;
  (** A [BTreeMap] *)
  sv_ready : list (N * PendingCompletion);
  sv_next_sequence : N;
  sv_scopes : gmap N InvocationScope;
  sv_answers : list (N * Answer);
  sv_published : list Publication;
}.

Definition service_new (s : S) : Service :=
  {| sv_storage := s; sv_session := session_new; sv_version := 0; sv_stopped := false; sv_ready := [];
     sv_next_sequence := 1; sv_scopes := ∅; sv_answers := []; sv_published := [] |}.

Definition set_sv_session (x : S * DatabaseSession) (v : Service) : Service :=
  {| sv_storage := x.1; sv_session := x.2; sv_version := sv_version v; sv_stopped := sv_stopped v;
     sv_ready := sv_ready v; sv_next_sequence := sv_next_sequence v; sv_scopes := sv_scopes v;
     sv_answers := sv_answers v; sv_published := sv_published v |}.
(** [self.version.store(self.session.state_version().unwrap_or(0))] *)
Definition store_version (v : Service) : Service :=
  {| sv_storage := sv_storage v; sv_session := sv_session v;
     sv_version := default 0 (session_state_version (sv_session v)); sv_stopped := sv_stopped v;
     sv_ready := sv_ready v; sv_next_sequence := sv_next_sequence v; sv_scopes := sv_scopes v;
     sv_answers := sv_answers v; sv_published := sv_published v |}.
Definition stop_service (v : Service) : Service :=
  {| sv_storage := sv_storage v; sv_session := sv_session v; sv_version := sv_version v; sv_stopped := true;
     sv_ready := sv_ready v; sv_next_sequence := sv_next_sequence v; sv_scopes := sv_scopes v;
     sv_answers := sv_answers v; sv_published := sv_published v |}.
Definition set_ready (ready : list (N * PendingCompletion)) (next : N) (v : Service) : Service :=
  {| sv_storage := sv_storage v; sv_session := sv_session v; sv_version := sv_version v; sv_stopped := sv_stopped v;
     sv_ready := ready; sv_next_sequence := next; sv_scopes := sv_scopes v; sv_answers := sv_answers v; sv_published := sv_published v |}.
Definition set_scopes (f : gmap N InvocationScope → gmap N InvocationScope) (v : Service) : Service :=
  {| sv_storage := sv_storage v; sv_session := sv_session v; sv_version := sv_version v; sv_stopped := sv_stopped v;
     sv_ready := sv_ready v; sv_next_sequence := sv_next_sequence v; sv_scopes := f (sv_scopes v);
     sv_answers := sv_answers v; sv_published := sv_published v |}.
Definition add_answer (reply : N) (a : Answer) (v : Service) : Service :=
  {| sv_storage := sv_storage v; sv_session := sv_session v; sv_version := sv_version v; sv_stopped := sv_stopped v;
     sv_ready := sv_ready v; sv_next_sequence := sv_next_sequence v; sv_scopes := sv_scopes v;
     sv_answers := sv_answers v ++ [(reply, a)]; sv_published := sv_published v |}.
Definition add_publication (b : Publication) (v : Service) : Service :=
  {| sv_storage := sv_storage v; sv_session := sv_session v; sv_version := sv_version v; sv_stopped := sv_stopped v;
     sv_ready := sv_ready v; sv_next_sequence := sv_next_sequence v; sv_scopes := sv_scopes v;
     sv_answers := sv_answers v; sv_published := sv_published v ++ [b] |}.

Abbreviation service := (stateful process Service).

(** A call on the session, whose error is a value. *)
Definition on_session {A} (p : stateful process (S * DatabaseSession) A) : service (result A) := λ v,
  '(x, r) ← p (sv_storage v, sv_session v); mret (set_sv_session x v, Ok r).

Definition answer (reply : N) (a : Answer) : service unit := modify (add_answer reply a).

(** A command names a scope that was opened. *)
Definition get_scope (scope : N) : service InvocationScope :=
  v ← get_state; check (ctx (sv_scopes v !! scope) "unknown scope").

Definition call_scope (scope : N) (c : DatabaseCall) (reply : N) : service bool :=
  sc ← get_scope scope;
  if sc_active sc then
    x ← on_session (database_call (sc_invocation sc) (sc_owner_epoch sc) (sc_origin sc) c);
    match x with
    | Ok (ExecutedReply res committed) =>
        match committed with
        | Some t => modify (set_scopes (alter (set_committed t) scope))
        | None => mret ()
        end;;
        modify store_version;;
        answer reply (CalledAnswer (Ok res));;
        mret true
    | Ok (RejectedReply e) => answer reply (CalledAnswer (Err e));; mret true
    | Err _ =>
        modify stop_service;;
        answer reply (CalledAnswer (Err "actor database write could not be confirmed"));;
        mret false
    end
  else answer reply (CalledAnswer (Err "database call has no active invocation"));; mret true.

Definition publish (pc : PendingCompletion) : service bool :=
  sc ← get_scope (pc_scope pc);
  let origin := {| origin_connection_id := origin_connection_id (sc_origin sc);
                   origin_interleaved := bool_decide (is_Some (pc_sequence pc)) |} in
  let committed := if 0 <? sc_committed sc then Some (sc_committed sc) else None in
  v ← get_state;
  x ← on_session (complete (sc_invocation sc) (sc_owner_epoch sc) (pc_result pc) committed origin);
  modify store_version;;
  modify (add_publication {| pb_completion := pc; pb_scope := sc; pb_answer := x;
                             pb_due := r ← cached_state (sv_session v); unpublished r committed |});;
  answer (pc_reply pc) (CompletedAnswer x);;
  mret (is_ok x).

(** Publishes the completions that are next in sequence. *)
Fixpoint publish_ready (fuel : nat) : service bool :=
  v ← get_state;
  match bt_get (sv_next_sequence v) (sv_ready v), fuel with
  | None, _ => mret true
  | Some _, O => mret true
  | Some pc, Datatypes.S fuel =>
      modify (λ v, set_ready (bt_remove (sv_next_sequence v) (sv_ready v)) (sv_next_sequence v) v);;
      published ← publish pc;
      if (published : bool) then
        modify (λ v, set_ready (sv_ready v) (wrap_u64 (sv_next_sequence v + 1)) v);;
        publish_ready fuel
      else mret false
  end.

Definition complete_scope (pc : PendingCompletion) : service bool :=
  match pc_sequence pc with
  | None => publish pc;; mret true
  | Some sequence =>
      v ← get_state;
      if (sequence <? sv_next_sequence v) || bool_decide (is_Some (bt_get sequence (sv_ready v))) then
        answer (pc_reply pc) (CompletedAnswer (Err "actor completion sequence repeated"));; mret false
      else
        let ready := bt_insert sequence pc (sv_ready v) in
        modify (λ v, set_ready ready (sv_next_sequence v) v);;
        publish_ready (length ready)
  end.

(** [handle]: whether the service goes on *)
Definition handle_command (c : Command) : service bool :=
  match c with
  | PrepareCommand scope replayed reply =>
      sc ← get_scope scope;
      x ← on_session (prepare_invocation (sc_invocation sc) (sc_owner_epoch sc) replayed);
      answer reply (PreparedAnswer x);; mret true
  | CallCommand scope c reply => call_scope scope c reply
  | ActivateCommand reply =>
      x ← on_session prepare_activation;
      answer reply (ActivatedAnswer x);; mret true
  | HydratedCommand a hydrated reply =>
      x ← on_session (finish_activation a hydrated);
      answer reply (HydratedAnswer x);; mret true
  | CompleteCommand pc => complete_scope pc
  | ResetCommand reply => on_session reset;; answer reply ResetAnswer;; mret true
  | OpenScope scope inv epoch origin =>
      modify (set_scopes (λ scs, match scs !! scope with Some _ => scs | None => <[scope := new_scope inv epoch origin]> scs end));;
      mret true
  | CloseScope scope => modify (set_scopes (alter set_inactive scope));; mret true
  end.

(** [run]: a service that stopped handles nothing more. *)
Fixpoint run_service (cs : list Command) : service unit :=
  match cs with
  | [] => mret ()
  | c :: cs =>
      v ← get_state;
      if sv_stopped v then mret ()
      else
        go ← handle_command c;
        if (go : bool) then modify store_version;; run_service cs else modify stop_service
  end.
End service.
