(* ===== verification/HostActorStorage.v ===== *)
(** * The storage of a host session serves its database

    [ActorPersistence] of [src/src/host/persistence.rs] and the [ActorStorage] of
    [HostStorage] ([src/src/host/storage.rs]): a session whose write was not
    confirmed is fenced for good, which is what the database of the actor relies on
    ([StorageLaws]). *)

From S2P Require Import Prelude Text Demo Names Payload StateLog Effects Btree Concurrency Buckets Recovery Runtime Activation Ownership Takeover HostStorage Sqlite Capture Protocol ActorDatabase DatabaseLaws.
Local Open Scope N_scope.

Definition cancel_session (s : HostStorage) : HostStorage :=
  {| hs_fence := hs_fence s; hs_lease := hs_lease s; hs_activation := hs_activation s;
     hs_checkpoint := hs_checkpoint s; hs_stopped := true |}.

(** A call with [?] in a scope that runs something on the way out. *)
Definition on_failure {L S A} (p : stateful L S A) (f : S → S) : stateful L S A := λ s,
  '(s, r) ← p s;
  mret (match r with Ok _ => s | Err _ => f s end, r).

(** [FULL_SNAPSHOT_INTERVAL], in milliseconds *)
Definition FULL_SNAPSHOT_INTERVAL : N := 60 * 1000.

Section storage.
Context `{JsonValue} `{!Json (Envelope StateSnapshot), !Json StateSnapshot, !Json LegacySnapshot}.
Context `{Digest} `{Base64} `{!Json Ownership}.
Context (config : SnapshotStoreConfig) `{!SnapshotStore process}.
Context (region : bytes) (actor : ActorKey) (others : stateful process HostStorage unit).
Context (observer_get_alarm : prog process (option Z)) (observer_update_alarm : option Z → prog process unit).

(** [ActorPersistence::write_snapshot]: the guard of the attempt cancels the session
    unless the write is confirmed. *)
Definition persist_snapshot (plan : WritePlan) (bs : bytes) : stateful process HostStorage unit :=
  ensure_authority;;
  on_failure (await others (write_snapshot plan bs);; ensure_authority) cancel_session.

Definition full_snapshots : option N :=
  match rapid_settings config with
  | Some _ => None
  | None => Some FULL_SNAPSHOT_INTERVAL
  end.

Definition host_actor_storage : ActorStorage HostStorage := {|
  as_acquire_actor := acquire_actor config region actor others;
  as_load_actor_state := load_actor_state config actor others;
  as_read_sqlite := read_sqlite actor others;
  as_get_alarm := get_alarm others observer_get_alarm;
  as_update_alarm := update_alarm others observer_update_alarm;
  as_ensure_authority := ensure_authority;
  as_prepare_state_write := prepare_state_write actor others;
  as_full_snapshots := full_snapshots;
  as_resume_parent := resume_parent config actor;
  as_write_snapshot := persist_snapshot;
|}.
End storage.

(** ** The laws *)

(** The session is fenced for good. *)
Definition host_dead (s : HostStorage) : Prop := hs_stopped s = true ∨ LeaseFence.fenced (hs_fence s) = true.

(** It had a lease once. *)
Definition host_confirmed (s : HostStorage) : Prop := is_Some (LeaseFence.deadline (hs_fence s)).

(** Whatever the other tasks do, they never reopen the session. *)
Definition others_advance (others : stateful process HostStorage unit) : Prop :=
  ∀ s, yields (others s) (λ r, match r with Ok (s', _) => grows host_dead host_confirmed s s' | Err _ => True end).

Section laws.
Context `{JsonValue} `{!Json (Envelope StateSnapshot), !Json StateSnapshot, !Json LegacySnapshot}.
Context `{Digest} `{Base64} `{!Base64Laws} `{!Json Ownership} `{!JsonLaws Ownership}.
Context (config : SnapshotStoreConfig) `{!SnapshotStore process} `{!KeptBefore} `{!StoreContract}.
Context (host session_id region : bytes) (actor : ActorKey) (others : stateful process HostStorage unit).
Context (observer_get_alarm : prog process (option Z)) (observer_update_alarm : option Z → prog process unit).
Implicit Types (w : world process) (s : HostStorage).

Abbreviation covered s w := (fence_ok host session_id actor w s).
Abbreviation advances := (grows host_dead host_confirmed).

(** The other tasks keep the fence covered, and never reopen it. *)
Context (others_ok : others_cover host session_id actor others).
Context (others_adv : others_advance others).
Context (get_alarm_quiet : quiet observer_get_alarm) (update_alarm_quiet : ∀ t, quiet (observer_update_alarm t)).

(** *** The fields only advance *)

Definition moving {A} (p : stateful process HostStorage A) s : Prop :=
  yields (p s) (λ r, match r with Ok (s', _) => advances s s' | Err _ => True end).
Definition moves {A} (p : stateful process HostStorage A) : Prop := ∀ s, moving p s.

Lemma moves_tracks {A} (p : stateful process HostStorage A) : moves p → tracks p (λ s _ s', advances s s').
Proof. intros Hp s. eapply yields_mono; [apply Hp|]. by intros [[? ?]|]. Qed.

Lemma moves_check {A} (r : result A) : moves (check r).
Proof. by intros s. Qed.

Lemma moves_ret {A} (a : A) : moves (mret a).
Proof. by intros s. Qed.

Lemma moving_bind {A B} (p : stateful process HostStorage A) (f : A → stateful process HostStorage B) s :
  moving p s → (∀ a, moves (f a)) → moving (p ≫= f) s.
Proof.
  intros Hp Hf. apply yields_bind. eapply yields_mono; [exact Hp|]. intros [[s' [a|e]]|e]; simpl; [|done..].
  intros Hg. eapply yields_mono; [apply Hf|]. intros [[s'' ?]|]; [|done]. by transitivity s'.
Qed.

Lemma moves_bind {A B} (p : stateful process HostStorage A) (f : A → stateful process HostStorage B) :
  moves p → (∀ a, moves (f a)) → moves (p ≫= f).
Proof. intros Hp Hf s. by apply moving_bind. Qed.

Lemma moves_get {A} (f : HostStorage → stateful process HostStorage A) :
  (∀ s, moving (f s) s) → moves (get_state ≫= f).
Proof. intros Hf s. apply Hf. Qed.

Lemma moving_put {A} s s' (f : unit → stateful process HostStorage A) :
  advances s s' → moves (f ()) → moving (set_state s' ≫= f) s.
Proof. intros Hg Hf. eapply yields_mono; [apply Hf|]. intros [[s'' ?]|]; [|done]. by transitivity s'. Qed.

Lemma moves_call {A} (p : prog process A) : moves (call p).
Proof. apply (tracks_call p (λ s _ s', advances s s')). done. Qed.

Lemma moves_modify f : (∀ s, advances s (f s)) → moves (modify f).
Proof. intros Hf s. apply Hf. Qed.

Lemma moves_others : moves (ignore_result others).
Proof.
  intros s. apply yields_bind. eapply yields_mono; [apply others_adv|]. by intros [[s' x]|e].
Qed.

Lemma moves_await {A} (p : prog process A) : moves (await others p).
Proof.
  apply moves_bind; [apply moves_call|]. intros r.
  apply moves_bind; [apply moves_others|]. intros []. apply moves_check.
Qed.

Lemma check_advances now s : advances s (set_fence (fst (LeaseFence.check now (hs_fence s))) s).
Proof.
  split; unfold host_dead, host_confirmed; simpl.
  - intros [?|Hf]; [by left|]. right. unfold LeaseFence.check. by repeat case_match.
  - by rewrite check_deadline.
Qed.

Lemma moves_check_fence now : moves (fence_op (LeaseFence.check now)).
Proof.
  apply moves_get. intros s. pose proof (check_advances now s) as Hg.
  destruct (LeaseFence.check now (hs_fence s)) as [f r]. apply moving_put; [done|]. apply moves_check.
Qed.

Lemma moves_authority : moves ensure_authority.
Proof.
  apply moves_get. intros s. apply moving_bind; [apply moves_check|]. intros [].
  apply moves_bind; [apply moves_call|]. apply moves_check_fence.
Qed.

Lemma moves_lease msg : moves (lease_or msg).
Proof. apply moves_get. intros s. apply moves_check. Qed.

Ltac moving_on :=
  repeat lazymatch goal with
  | |- moves ensure_authority => apply moves_authority
  | |- moves (lease_or _) => apply moves_lease
  | |- moves (check _) => apply moves_check
  | |- moves (mret _) => apply moves_ret
  | |- moves (await _ _) => apply moves_await
  | |- moves (_ ≫= _) => apply moves_bind; [|intros ?]
  end.

Lemma moves_acquire : moves (acquire_actor config region actor others).
Proof.
  unfold acquire_actor. apply moves_bind; [apply moves_authority|]. intros []. apply moves_get. intros s.
  destruct (hs_activation s); [by apply moving_put; [|apply moves_ret]|].
  apply moving_bind; [apply moves_lease|]. intros l. moving_on.
Qed.

Lemma moves_read_sqlite bs : moves (read_sqlite actor others bs).
Proof.
  unfold read_sqlite. do 3 (apply moves_bind; [moving_on|]; intros ?). apply moves_get. intros s.
  by apply moving_put; [|moving_on].
Qed.

(** *** Every call only advances the session *)

Lemma begin_advances now s : advances s (set_fence (fst (LeaseFence.begin now (hs_fence s))) s).
Proof.
  unfold LeaseFence.begin. destruct (LeaseFence.deadline (hs_fence s)) eqn:Ed.
  - pose proof (check_advances now s) as Hg. by destruct (LeaseFence.check now (hs_fence s)) as [f [u|e]].
  - simpl. by destruct s.
Qed.

Lemma confirm_advances started duration now s :
  advances s (set_fence (fst (LeaseFence.confirm started duration now (hs_fence s))) s).
Proof.
  unfold LeaseFence.confirm. pose proof (begin_advances now s) as Hg.
  destruct (LeaseFence.begin now (hs_fence s)) as [f [u|e]]; simpl in *; [|done]. etransitivity; [exact Hg|].
  set (d := started + _). destruct (d <=? now); simpl; [split; [by right|done]|].
  destruct (LeaseFence.fenced f) eqn:Ef; simpl; [done|].
  split; unfold host_dead, host_confirmed; simpl; [rewrite Ef; naive_solver|done].
Qed.

Lemma moves_fence_op (f : LeaseFence.t → LeaseFence.t * result unit) :
  (∀ s, advances s (set_fence (fst (f (hs_fence s))) s)) → moves (fence_op f).
Proof.
  intros Hf. apply moves_get. intros s. specialize (Hf s). destruct (f (hs_fence s)) as [g r].
  apply moving_put; [done|]. apply moves_check.
Qed.

Lemma moves_finish : moves (finish config host session_id actor others).
Proof.
  apply moves_bind; [apply moves_await|]. intros c. apply moves_bind; [|intros; apply moves_await].
  apply moves_modify. intros s. by split; [right|].
Qed.

Lemma moves_register new_actor owner_hint req :
  moves (register config host session_id region actor new_actor owner_hint others req).
Proof.
  unfold register. do 3 (apply moves_bind; [first [apply moves_check|apply moves_await|apply moves_call]|]; intros ?).
  apply moves_bind; [apply moves_fence_op, begin_advances|]. intros []. apply moves_get. intros s.
  apply moving_bind; [|intros l].
  - destruct (hs_lease s); [apply moves_await|]. apply moves_bind; [apply moves_await|]. intros la.
    apply moves_bind; [by apply moves_modify|]. intros. apply moves_ret.
  - apply moves_bind; [apply moves_call|]. intros now.
    apply moves_bind; [apply moves_fence_op, confirm_advances|]. intros [].
    apply moves_bind; [by apply moves_modify|]. intros. apply moves_ret.
Qed.

Lemma moves_ignore {A} (p : stateful process HostStorage A) : moves p → moves (ignore_result p).
Proof. intros Hp s. apply yields_bind. eapply yields_mono; [apply Hp|]. by intros [[s' x]|e]. Qed.

Lemma moves_call_run new_actor owner_hint c :
  moves (host_call_run config host session_id region actor new_actor owner_hint others
    observer_get_alarm observer_update_alarm c).
Proof.
  destruct c; simpl; apply moves_ignore; try apply moves_register.
  - apply moves_authority.
  - unfold current_lease. moving_on.
  - unfold get_alarm. moving_on.
  - unfold update_alarm. moving_on.
  - apply moves_acquire.
  - unfold load_actor_state. moving_on.
  - apply moves_read_sqlite.
  - unfold prepare_state_write. moving_on.
  - unfold unregister. apply moves_bind; [apply moves_check|]. intros. apply moves_finish.
Qed.

Lemma moves_calls_run new_actor owner_hint cs :
  moves (host_calls_run config host session_id region actor new_actor owner_hint others
    observer_get_alarm observer_update_alarm cs).
Proof.
  induction cs as [|c cs IH]; [apply moves_ret|]. simpl. apply moves_bind; [apply moves_call_run|]. by intros [].
Qed.

(** *** The calls keep the fence covered *)

Abbreviation guarded := (fence_ok host session_id actor).

Lemma keep_held {A} (p : stateful process HostStorage A) Q s w :
  held host session_id actor p Q s w → moving p s →
  keep (λ s w, covered s w) p (λ x s' w', advances s s' ∧ ∀ a, x = Ok a → Q a s' w') s w.
Proof.
  intros Hp Hm Hs. eapply safe_mono; [apply safe_yields; [by apply Hp|exact Hm]|].
  intros [s' x] w' _ [[? ?] ?]. by split_and!.
Qed.

Lemma keep_holds {A} (p : stateful process HostStorage A) s w :
  holds host session_id actor p → moves p →
  keep (λ s w, covered s w) p (λ _ s' _, advances s s') s w.
Proof.
  intros Hp Hm. eapply keep_mono; [by apply keep_held|]. by intros x s' w' _ _ [? _].
Qed.

Lemma keep_instant s w :
  keep (λ s w, covered s w) (call instant) (λ x s' _, s' = s ∧ ∃ t, x = Ok t) s w.
Proof.
  intros Hs. unfold call. apply (safe_bind _ _ (λ x w', covered s w' ∧ ∃ t, x = Ok t)).
  - intros Hw w1 HR x w2 Hst. simpl in *. destruct Hst as [-> ->]. split; [by apply guar_same|].
    split; [by apply (inv_stable w)|]. intros ? [= <-]. split; [by eapply fence_ok_later|eauto].
  - intros x w' _ [Hs' Hx]. apply safe_ret. by split_and!.
Qed.

(** The check passes for a live session only, and a session that fails it once it was
    confirmed is fenced. *)
Lemma keep_check_authority s w :
  keep (λ s w, covered s w) ensure_authority (λ x s' _, advances s s' ∧
    match x with
    | Ok _ => host_confirmed s' ∧ ¬ host_dead s
    | Err _ => host_confirmed s → host_dead s'
    end) s w.
Proof.
  unfold ensure_authority. eapply keep_bind_pure; [done|done|]. apply keep_bind_check.
  { intros e He. split; [done|]. intros _. left. unfold ensure in He. by destruct (hs_stopped s). }
  intros [] Hstop%ensure_Ok%negb_true_iff.
  eapply keep_bind; [apply keep_instant|by intros e s' w' _ _ (_ & t & [=])|].
  intros now s' w' _ (-> & _). unfold fence_op. eapply keep_bind_pure; [done|done|].
  pose proof (check_advances now s) as Hg. pose proof (check_deadline now (hs_fence s)) as Hd.
  pose proof (check_Ok now (hs_fence s)) as Hok.
  assert (∀ e, snd (LeaseFence.check now (hs_fence s)) = Err e → host_confirmed s →
    LeaseFence.fenced (fst (LeaseFence.check now (hs_fence s))) = true) as Herr.
  { unfold LeaseFence.check, host_confirmed. intros e He [d Ed]. rewrite Ed in *. simpl in *. unfold ensure in He.
    by destruct (d <=? now); [|destruct (LeaseFence.fenced (hs_fence s))]. }
  destruct (LeaseFence.check now (hs_fence s)) as [f r]. simpl in *.
  eapply keep_bind_pure; [done| |].
  { by apply fence_ok_same. }
  apply keep_check. split; [done|]. destruct r as [[]|e].
  - destruct (Hok eq_refl) as (d & Ed & _ & Hf). unfold host_confirmed, host_dead. simpl. rewrite Hd, Ed.
    split; [done|]. intros [?|?]; congruence.
  - intros Hc. right. by apply (Herr e).
Qed.

(** A write that was not confirmed fences the session. *)
Lemma keep_persist plan bs s w :
  keep (λ s w, covered s w) (persist_snapshot others plan bs) (λ x s' w', advances s s' ∧
    match x with
    | Ok _ => ¬ host_dead s ∧ acknowledged plan bs w'
    | Err _ => host_confirmed s → host_dead s'
    end) s w.
Proof.
  unfold persist_snapshot. eapply keep_bind; [apply keep_check_authority|by intros e s' w' _ _ ?|].
  intros [] s1 w1 HR1 (Hg1 & Hc & Hnd). set (body := _ ≫= _).
  assert (keep (λ s w, covered s w) body (λ x s' w', advances s1 s' ∧ ∀ a, x = Ok a → acknowledged plan bs w') s1 w1)
    as Hbody.
  { apply keep_inv. intros [Hl _]. unfold body. eapply keep_bind.
    - apply keep_held; [|apply moves_await]. apply (held_await _ _ _ _ others_ok _ (λ _ w', acknowledged plan bs w')).
      + intros a w2 w3 Ha HR. by eapply acknowledged_later.
      + eapply safe_mono; [apply safe_write_snapshot|]. auto.
    - intros e s2 w2 _ _ [? _]. by split.
    - intros [] s2 w2 HR2 [Hg2 Hack]. specialize (Hack _ eq_refl).
      eapply keep_mono; [apply keep_check_authority|]. intros x s3 w3 HR3 _ [Hg3 _].
      split; [by transitivity s2|]. intros a _. by eapply acknowledged_later. }
  intros Hs. unfold on_failure. eapply safe_bind; [by apply Hbody|]. intros [s2 x] w2 HR2 (Hs2 & Hg2 & Hx).
  apply safe_ret. simpl in *. destruct x as [[]|e]; simpl.
  - split; [done|]. split; [by transitivity s1|]. split; [done|].
    by apply (Hx ()).
  - split; [done|]. split; [|intros _; by left]. transitivity s1; [done|]. transitivity s2; [done|].
    split; [by left|done].
Qed.

Lemma keep_prepare_write e v s w :
  keep (λ s w, covered s w) (prepare_state_write actor others e v)
    (λ x s' _, advances s s' ∧ ∀ plan, x = Ok plan → ¬ host_dead s) s w.
Proof.
  unfold prepare_state_write. eapply keep_bind; [apply keep_check_authority|by intros ? s' w' _ _ [? _]|].
  intros [] s1 w1 _ (Hg1 & _ & Hnd). eapply keep_mono.
  - apply keep_holds; [|moving_on].
    repeat first [apply holds_lease_or|apply holds_check|apply holds_ensure_authority|apply holds_ret
      |apply holds_await; [exact others_ok|apply quiet_prepared]|apply holds_bind; [|intros ?]].
  - intros x s' w' _ _ Hg. split; [by transitivity s1|done].
Qed.

Lemma keep_read bs s w :
  keep (λ s w, covered s w) (read_sqlite actor others bs)
    (λ x s' _, advances s s' ∧ ∀ q c, x = Ok q → snapshot_decode bs = Ok c → txid q = txid (sqlite c)) s w.
Proof.
  eapply keep_mono; [apply (keep_held _ (λ q _ _, ∀ c, snapshot_decode bs = Ok c → txid q = txid (sqlite c)))|].
  - unfold read_sqlite. do 3 (eapply held_bind; [first [apply holds_ensure_authority|apply holds_check]|]; intros ? ? ? _ _).
    eapply held_bind; [by apply (held_get _ _ _ (λ a s' _, a = s'))|]. intros s1 ? ? _ ->.
    eapply held_bind; [by apply (held_put _ _ _ _ (λ _ _ _, True))|]. intros [] ? ? _ _.
    apply (held_await _ _ _ _ others_ok _ (λ q _, _)); [by intros ? ? ? ?|apply sc_restore].
  - apply moves_read_sqlite.
  - intros x s' w' _ _ [? Hq]. split; [done|]. eauto.
Qed.

Lemma keep_get_alarm s w :
  keep (λ s w, covered s w) (get_alarm others observer_get_alarm) (λ _ s' _, advances s s') s w.
Proof.
  apply keep_holds; [|unfold get_alarm; moving_on].
  apply holds_bind; [apply holds_ensure_authority|]. intros []. apply holds_bind; [by apply holds_await|]. intros t.
  apply holds_bind; [apply holds_ensure_authority|]. intros []. apply holds_ret.
Qed.

Lemma keep_update_alarm t s w :
  keep (λ s w, covered s w) (update_alarm others observer_update_alarm t) (λ _ s' _, advances s s') s w.
Proof.
  apply keep_holds; [|unfold update_alarm; moving_on].
  apply holds_bind; [apply holds_ensure_authority|]. intros []. apply holds_bind; [by apply holds_await|]. intros u.
  apply holds_ensure_authority.
Qed.

Lemma keep_load_state e s w :
  keep (λ s w, covered s w) (load_actor_state config actor others e) (λ _ s' _, advances s s') s w.
Proof.
  apply keep_holds; [|unfold load_actor_state; moving_on].
  apply holds_bind; [apply holds_ensure_authority|]. intros []. apply holds_bind; [apply holds_lease_or|]. intros l.
  apply holds_bind; [by apply holds_await; [|apply quiet_load_owned_actor]|]. intros la.
  apply holds_bind; [apply holds_ensure_authority|]. intros []. apply holds_ret.
Qed.

#[local] Existing Instance host_actor_storage.

Definition host_storage_laws :
    StorageLaws HostStorage
      (ActorStorage0 := host_actor_storage config region actor others observer_get_alarm observer_update_alarm).
Proof.
  refine {| storage_ok := λ s w, covered s w; storage_dead := host_dead; storage_confirmed := host_confirmed |}.
  - intros s w w' HR. by apply fence_ok_later.
  - intros s w. by apply keep_holds; [apply holds_acquire|apply moves_acquire].
  - intros e s w. apply keep_load_state.
  - intros bs s w. apply keep_read.
  - intros s w. apply keep_get_alarm.
  - intros t s w. apply keep_update_alarm.
  - intros s w. eapply keep_mono; [apply keep_check_authority|]. intros [[]|e] s' w' _ _ [? Hx]; (split; [done|]); [|done].
    intros _. apply Hx.
  - intros e v s w. apply keep_prepare_write.
  - intros plan bs s w. apply keep_persist.
Defined.
End laws.

(** ** The session's own calls as its other tasks

    The renewals of the lease, and any other calls, may run whenever a task of the
    session waits. *)

Section tasks.
Context `{JsonValue} `{!Json (Envelope StateSnapshot), !Json StateSnapshot, !Json LegacySnapshot}.
Context `{Digest} `{Base64} `{!Base64Laws} `{!Json Ownership} `{!JsonLaws Ownership}.
Context (config : SnapshotStoreConfig) `{!SnapshotStore process} `{!KeptBefore} `{!StoreContract}.
Context (host session_id region : bytes) (actor : ActorKey) (new_actor : bool).
Context (observer_get_alarm : prog process (option Z)) (observer_update_alarm : option Z → prog process unit).
Context (get_alarm_quiet : quiet observer_get_alarm) (update_alarm_quiet : ∀ t, quiet (observer_update_alarm t)).

Lemma idle_cover : others_cover host session_id actor (mret ()).
Proof. intros s w Hf. by apply safe_ret. Qed.

Lemma idle_advance : others_advance (mret ()).
Proof. by intros s. Qed.

(** Calls made while one waits, themselves with other tasks around them. *)
Lemma calls_cover others calls :
  others_cover host session_id actor others →
  others_cover host session_id actor (host_calls_run config host session_id region actor new_actor None others
    observer_get_alarm observer_update_alarm calls).
Proof. intros Ho s w Hf. eapply safe_mono; [by apply held_calls_run|]. by intros x w' _ [? _]. Qed.

Lemma calls_advance others calls :
  others_advance others →
  others_advance (host_calls_run config host session_id region actor new_actor None others
    observer_get_alarm observer_update_alarm calls).
Proof. intros Ho. by apply moves_calls_run. Qed.
End tasks.
