(* ===== verification/DatabaseServiceSafety.v ===== *)
(** * What the database service of an actor promises

    The service of [DatabaseService] over any sequence of commands, any interference
    by other processes and any faults of the storage: what it answers is durable, the
    published history has no gaps, interleaved completions are published in order,
    and a request that was completed is not run again. *)

From S2P Require Import Prelude Text Demo Names Payload StateLog Effects Btree Concurrency Buckets Recovery Runtime Activation Ownership Takeover HostStorage Sqlite Capture Protocol ActorDatabase DatabaseLaws DatabaseSafety DatabaseSession DatabaseService.
Local Open Scope N_scope.

Section service_safety.
Context `{JsonValue} `{!Json (Envelope StateSnapshot), !Json StateSnapshot, !Json LegacySnapshot}.
Context `{Digest} `{Base64} `{!Json Ownership}.
Context `{!SnapshotStore process} `{!KeptBefore} `{!StoreContract}.
Context `{!Litestream} `{!LitestreamLaws} `{!RawJson} `{!Json (list bytes)}.
Context {S : Type} `{!ActorStorage S} `{!StorageLaws S}.
Abbreviation service := (DatabaseService.Service (S:=S)).
Implicit Types (w : world process) (v : service) (b : Publication).

(** What was answered after a publication is kept. *)
Definition log_ok v w : Prop :=
  ∀ b version tx, b ∈ sv_published v → pb_answer b = Ok version → pb_due b = Some tx →
    completion_kept w (sc_invocation (pb_scope b)) (pc_result (pb_completion b)) version tx.

(** A service that still handles commands. *)
Record live v w : Prop := {
  live_session : session_ok (sv_storage v, sv_session v) w;
  live_log : log_ok v w;
  live_running : sv_stopped v = false;
}.

Definition service_ok v w : Prop :=
  storage_ok (sv_storage v) w ∧ log_ok v w ∧ (sv_stopped v = false → live v w).

Lemma live_ok v w : live v w → service_ok v w.
Proof. intros Hv. split_and!; [apply Hv|apply Hv|done]. Qed.

Lemma log_ok_later v v' w w' : rely w w' → sv_published v' = sv_published v → log_ok v w → log_ok v' w'.
Proof. intros HR E Hv b version tx. rewrite E. intros. eapply completion_kept_later; [exact HR|]. by eapply Hv. Qed.

Lemma keep_on_session {A} (p : stateful process (S * DatabaseSession) A) Q v w :
  keep session_ok p Q (sv_storage v, sv_session v) w →
  keep live (on_session p) (λ x v' w', ∃ t y, x = Ok y ∧ v' = set_sv_session t v ∧ Q y t w') v w.
Proof.
  intros Hp Hv. unfold on_session. eapply safe_bind; [by apply Hp, Hv|]. intros [t y] w' HR [Ht HQ].
  apply safe_ret. simpl. split; [|by exists t, y]. destruct Hv as [_ Hlog Hrun].
  split; [by destruct t|by eapply log_ok_later|done].
Qed.

(** A change that concerns neither the session nor what was published. *)
Lemma keep_modify f v w :
  (live v w → live (f v) w) → keep live (modify f) (λ x v' _, x = Ok () ∧ v' = f v) v w.
Proof. intros Hf Hv. apply safe_ret. split; [by apply Hf|done]. Qed.

Lemma live_same v v' w :
  sv_storage v' = sv_storage v → sv_session v' = sv_session v → sv_stopped v' = sv_stopped v →
  sv_published v' = sv_published v → live v w → live v' w.
Proof.
  intros E1 E2 E3 E4 [Hs Hl Hr]. split; [by rewrite E1, E2| |by rewrite E3]. eapply log_ok_later; [reflexivity|done|done].
Qed.

Lemma keep_answered {A B} (p : stateful process (S * DatabaseSession) A) (f : result A → N * Answer) (g : result A → B) v w :
  keep session_ok p (λ _ _ _, True) (sv_storage v, sv_session v) w →
  keep live (x ← on_session p; answer (f x).1 (f x).2;; mret (g x)) (λ _ _ _, True) v w.
Proof.
  intros Hp. eapply keep_bind; [by apply keep_on_session|done|]. intros y v' w' _ _.
  eapply keep_bind_pure; [done|by apply live_same|]. by apply keep_ret.
Qed.

Lemma keep_bind_scope {A} n (f : InvocationScope → stateful process service A) Q v w :
  (∀ e, Q (Err e) v w) → (∀ sc, sv_scopes v !! n = Some sc → keep live (f sc) Q v w) → keep live (get_scope n ≫= f) Q v w.
Proof.
  intros He Hf. apply (keep_bind_check _ (ctx (sv_scopes v !! n) "unknown scope")); [auto|].
  intros sc Hsc%ctx_Ok. auto.
Qed.

Lemma keep_publish_completion pc v w : keep live (publish pc) (λ _ _ _, True) v w.
Proof.
  unfold publish. apply keep_bind_scope; [done|]. intros sc _.
  eapply keep_bind_pure; [done|done|].
  eapply keep_bind; [apply keep_on_session, keep_complete|done|]. intros x v' w' _ (t & y & [= <-] & -> & Hx).
  eapply keep_bind_pure; [done|by apply live_same|]. eapply keep_bind_pure; [done| |].
  { intros [Hs Hl Hr]. split; [done| |done]. intros b version tx. simpl. rewrite elem_of_app, list_elem_of_singleton.
    intros [Hb | ->]; [by apply Hl|]. simpl. intros Ea Ed. destruct (Hx version Ea) as (r0 & r & Er0 & _ & _ & _ & _ & _ & Hk).
    simpl in Er0. rewrite Er0 in Ed. by destruct (Hk tx Ed) as (_ & _ & ?). }
  eapply keep_bind_pure; [done|by apply live_same|]. by apply keep_ret.
Qed.

Lemma keep_publish_ready fuel v w : keep live (publish_ready fuel) (λ _ _ _, True) v w.
Proof.
  revert v w. induction fuel as [|fuel IH]; intros v w; simpl; (eapply keep_bind_pure; [done|done|]);
    (destruct (bt_get _ _) as [pc|]; [|by apply keep_ret]); [by apply keep_ret|].
  eapply keep_bind_pure; [done|by apply live_same|]. eapply keep_bind; [apply keep_publish_completion|done|].
  intros [] v' w' _ _; [|by apply keep_ret]. eapply keep_bind_pure; [done|by apply live_same|]. apply IH.
Qed.

Lemma keep_complete_scope pc v w : keep live (complete_scope pc) (λ _ _ _, True) v w.
Proof.
  unfold complete_scope. destruct (pc_sequence pc) as [n|].
  - eapply keep_bind_pure; [done|done|]. case_match.
    + eapply keep_bind_pure; [done|by apply live_same|]. by apply keep_ret.
    + eapply keep_bind_pure; [done|by apply live_same|]. apply keep_publish_ready.
  - eapply keep_bind; [apply keep_publish_completion|done|]. intros. by apply keep_ret.
Qed.

(** A call that failed as a whole stops the service. *)
Lemma safe_call_scope scope c reply v w :
  live v w → safe (call_scope scope c reply v) (λ x w', service_ok x.1 w') w.
Proof.
  intros Hv. pose (I v w := storage_ok (sv_storage v) w ∧ log_ok v w).
  cut (keep I (call_scope scope c reply)
         (λ _ v' w', sv_stopped v' = false → session_ok (sv_storage v', sv_session v') w') v w).
  { intros Hk. eapply safe_mono; [apply Hk; split; apply Hv|]. intros x w' _ [[Hs Hl] Hr]. split_and!; [done..|].
    intros E. split; [by apply Hr|done|done]. }
  destruct Hv as [Hs Hl Hr]. unfold call_scope.
  apply (keep_bind_check _ (ctx (sv_scopes v !! scope) "unknown scope")); [by intros|]. intros sc _.
  destruct (sc_active sc); [|by eapply keep_bind_pure; [done|done|]; apply keep_ret].
  apply (keep_bind _ _ _ (λ x v' w', sv_stopped v' = false ∧ ∃ y, x = Ok y ∧
    ∀ a, y = Ok a → session_ok (sv_storage v', sv_session v') w')).
  - intros [_ Hl']. unfold on_session. eapply safe_bind; [by apply safe_database_call|].
    intros [[s' d'] y] w' HR [Hs' Hy]. apply safe_ret. simpl in *. split; [split; [done|by eapply log_ok_later]|].
    split; [done|]. by exists y.
  - by intros e v' w' _ _ (_ & y & [=] & _).
  - intros y v' w' _ (Hr' & y' & [= <-] & Hy). destruct y as [[res committed|e]|e].
    + specialize (Hy _ eq_refl). eapply (keep_bind_pure _ _ _ _ _ _
        (match committed with Some t => set_scopes (alter (set_committed t) scope) v' | None => v' end));
        [by destruct committed|by destruct committed|].
      do 2 (eapply keep_bind_pure; [done|done|]). apply keep_ret. intros _. by destruct committed.
    + eapply keep_bind_pure; [done|done|]. apply keep_ret. intros _. by eapply Hy.
    + do 2 (eapply keep_bind_pure; [done|done|]). by apply keep_ret.
Qed.

Lemma live_scopes f v w : live v w → live (set_scopes f v) w.
Proof. by apply live_same. Qed.

Lemma keep_handle c v w :
  live v w → safe (handle_command c v) (λ x w', service_ok x.1 w') w.
Proof.
  intros Hv. destruct c as [scope replayed reply|scope c reply|reply|a hydrated reply|pc|reply|scope inv epoch origin|scope];
    [|by apply safe_call_scope|..];
    match goal with |- safe (handle_command ?c v) _ _ =>
      cut (keep live (handle_command c) (λ _ _ _, True) v w);
        [intros Hk; eapply safe_mono; [by apply Hk|]; intros x w' _ [? _]; by apply live_ok|] end; simpl.
  - apply keep_bind_scope; [done|]. intros sc _.
    apply (keep_answered _ (λ x, (reply, PreparedAnswer x)) (λ _, true)). eapply keep_mono; [apply keep_prepare|done].
  - apply (keep_answered _ (λ x, (reply, ActivatedAnswer x)) (λ _, true)), keep_prepare_activation.
  - apply (keep_answered _ (λ x, (reply, HydratedAnswer x)) (λ _, true)), keep_finish_activation.
  - apply keep_complete_scope.
  - apply (keep_answered _ (λ _, (reply, ResetAnswer)) (λ _, true)), keep_reset.
  - eapply keep_bind_pure; [done|apply live_scopes|]. by apply keep_ret.
  - eapply keep_bind_pure; [done|apply live_scopes|]. by apply keep_ret.
Qed.

Lemma service_ok_stopped v w : service_ok v w → service_ok (stop_service v) w.
Proof. intros (Hs & Hl & _). by split_and!. Qed.

Lemma safe_run_service cs v w :
  service_ok v w → safe (run_service cs v) (λ x w', service_ok x.1 w') w.
Proof.
  revert v w. induction cs as [|c cs IH]; intros v w Hv; [by apply safe_ret|].
  cbn [run_service]. eapply safe_bind; [by apply (safe_ret _ (λ x w', x = (v, Ok v) ∧ w' = w))|].
  intros ? ? _ [-> ->]. destruct (sv_stopped v) eqn:Es; [by apply safe_ret|].
  eapply safe_bind; [by apply keep_handle, Hv|]. intros [v1 [[]|e]] w1 _ Hv1; simpl in Hv1.
  - eapply safe_bind; [by apply (safe_ret _ (λ x w', x = (store_version v1, Ok ()) ∧ w' = w1))|].
    intros ? ? _ [-> ->]. apply IH. destruct Hv1 as (Hs & Hl & Hr). split_and!; [done..|].
    intros E. by apply (live_same v1), Hr.
  - apply safe_ret. by apply service_ok_stopped.
  - by apply safe_ret.
Qed.

Lemma service_new_ok s w : storage_ok s w → service_ok (service_new s) w.
Proof.
  intros Hs. split_and!; [done| |].
  - intros b version tx. simpl. by rewrite elem_of_nil.
  - intros _. split; [by apply session_ok_empty| |done]. intros b version tx. simpl. by rewrite elem_of_nil.
Qed.
End service_safety.

(** ** Completions are published in sequence *)

Section sequence.
Context `{JsonValue} `{!Json (Envelope StateSnapshot), !Json StateSnapshot, !Json LegacySnapshot}.
Context `{Digest} `{Base64} `{!Litestream} `{!RawJson} `{!Json (list bytes)}.
Context {S : Type} `{!ActorStorage S}.
Abbreviation service := (DatabaseService.Service (S:=S)).
Implicit Types (v : service) (b : Publication).

(** The sequence number of a completion that was confirmed. *)
Definition confirmed_sequence b : option N :=
  if is_ok (pb_answer b) then pc_sequence (pb_completion b) else None.

Definition confirmed_sequences v : list N := omap confirmed_sequence (sv_published v).

Definition numbers (n : nat) : list N := N.of_nat <$> seq 1 n.

Lemma numbers_S n : numbers (Datatypes.S n) = numbers n ++ [N.of_nat n + 1].
Proof. unfold numbers. rewrite seq_S, fmap_app. simpl. do 2 f_equal. lia. Qed.

(** After at most [n] completions. *)
Record ordered (n : N) v : Prop := {
  ord_next : sv_next_sequence v = N.of_nat (length (confirmed_sequences v)) + 1;
  ord_published : confirmed_sequences v = numbers (length (confirmed_sequences v));
  ord_ready : Forall (λ x, sv_next_sequence v ≤ x.1 ∧ pc_sequence x.2 = Some x.1) (sv_ready v);
  ord_increasing : increasing (sv_ready v);
  ord_bound : sv_next_sequence v + N.of_nat (length (sv_ready v)) ≤ n + 1;
}.

(** Nothing that is next waits. *)
Definition settled v : Prop := bt_get (sv_next_sequence v) (sv_ready v) = None.

Definition same_order v v' : Prop :=
  sv_ready v' = sv_ready v ∧ sv_next_sequence v' = sv_next_sequence v ∧
  confirmed_sequences v' = confirmed_sequences v.

Lemma ordered_same n v v' : same_order v v' → ordered n v → ordered n v'.
Proof. intros (E1 & E2 & E3) []. split; rewrite ?E1, ?E2, ?E3; done. Qed.

Lemma ordered_le n n' v : n ≤ n' → ordered n v → ordered n' v.
Proof. intros Hn []. split; [done..|lia]. Qed.

Lemma ends_on_session {A} (p : stateful process (S * DatabaseSession) A) v :
  ends (on_session p) v (λ x v', ∃ t y, x = Ok y ∧ v' = set_sv_session t v).
Proof.
  apply yields_bind. eapply yields_mono; [apply yields_True|]. intros [[t y]|e] _; [|done]. by exists t, y.
Qed.

Lemma ends_publish pc v :
  ends (publish pc) v (λ x v', sv_ready v' = sv_ready v ∧ sv_next_sequence v' = sv_next_sequence v ∧
    confirmed_sequences v' =
      confirmed_sequences v ++ match x with Ok true => option_list (pc_sequence pc) | _ => [] end).
Proof.
  unfold publish. apply (ends_bind_check (ctx (sv_scopes v !! pc_scope pc) "unknown scope")).
  { intros e _. split_and!; [done..|]. by rewrite app_nil_r. }
  intros sc _. eapply ends_bind_pure; [done|].
  eapply ends_bind; [apply ends_on_session|by intros e v' (t & y & [=] & _)|].
  intros x v' (t & y & [= <-] & ->). do 3 (eapply ends_bind_pure; [done|]). apply ends_ret.
  split_and!; [done..|]. unfold confirmed_sequences. simpl. rewrite omap_app. f_equal. simpl. unfold confirmed_sequence.
  simpl. destruct x as [version|e]; simpl; [|done].
  by destruct (pc_sequence pc).
Qed.

Lemma confirmed_next n v v' pc :
  n < u64_max → ordered n v → bt_get (sv_next_sequence v) (sv_ready v) = Some pc →
  sv_ready v' = bt_remove (sv_next_sequence v) (sv_ready v) →
  confirmed_sequences v' = confirmed_sequences v ++ [sv_next_sequence v] →
  ordered n (set_ready (sv_ready v') (wrap_u64 (sv_next_sequence v + 1)) v').
Proof.
  intros Hn [E1 E2 E3 E4 E5] Hget Hready Hseq. pose proof (bt_remove_length _ _ (mk_is_Some _ _ Hget)) as Hlen.
  assert (wrap_u64 (sv_next_sequence v + 1) = sv_next_sequence v + 1) as Hw
    by (apply N.mod_small; unfold u64_max in *; lia).
  assert (confirmed_sequences (set_ready (sv_ready v') (wrap_u64 (sv_next_sequence v + 1)) v') =
    confirmed_sequences v ++ [sv_next_sequence v]) as Hs by done.
  split; rewrite ?Hs; simpl; rewrite ?length_app, ?Hw, ?Hready; simpl.
  - lia.
  - rewrite Nat.add_1_r, numbers_S, <- E2, <- E1. done.
  - apply Forall_forall. intros x Hx. apply (bt_remove_elem _ _ _ E4) in Hx as [Hx Hne].
    rewrite Forall_forall in E3. destruct (E3 x Hx). split; [|done]. lia.
  - by apply bt_remove_increasing.
  - lia.
Qed.

Lemma removed_settled n v v' :
  ordered n v → same_order (set_ready (bt_remove (sv_next_sequence v) (sv_ready v)) (sv_next_sequence v) v) v' →
  ordered n v' ∧ settled v'.
Proof.
  intros [E1 E2 E3 E4 E5] Hv. split.
  - eapply ordered_same; [exact Hv|]. split; simpl; try done.
    + by apply bt_remove_Forall.
    + by apply bt_remove_increasing.
    + destruct (bt_get (sv_next_sequence v) (sv_ready v)) eqn:Eg.
      * pose proof (bt_remove_length _ _ (mk_is_Some _ _ Eg)). lia.
      * assert (bt_remove (sv_next_sequence v) (sv_ready v) = sv_ready v) as ->; [|done].
        clear -Eg. induction (sv_ready v) as [|[j c] m IH]; simpl in *; [done|]. case_decide; [done|]. f_equal. auto.
  - destruct Hv as (Hr & Hn & _). unfold settled. rewrite Hn, Hr. simpl.
    destruct (bt_get _ _) as [pc|] eqn:Eg; [|done]. apply bt_get_elem in Eg.
    by apply (bt_remove_elem _ _ _ E4) in Eg as [_ ?].
Qed.

Lemma ends_publish_ready n fuel v :
  n < u64_max → ordered n v → (length (sv_ready v) ≤ fuel)%nat →
  ends (publish_ready fuel) v (λ _ v', ordered n v' ∧ settled v').
Proof.
  intros Hn. revert v. induction fuel as [|fuel IH]; intros v Hv Hf; simpl; (eapply ends_bind_pure; [done|]).
  { destruct (bt_get _ _) as [pc|] eqn:Eg; [|by apply ends_ret]. by destruct (sv_ready v); [|simpl in Hf; lia]. }
  destruct (bt_get _ _) as [pc|] eqn:Eg; [|by apply ends_ret]. pose proof (bt_remove_length _ _ (mk_is_Some _ _ Eg)) as Hlen.
  assert (pc_sequence pc = Some (sv_next_sequence v)) as Hpc.
  { pose proof (ord_ready _ _ Hv) as Hr. rewrite Forall_forall in Hr. by destruct (Hr _ (bt_get_elem _ _ _ Eg)). }
  eapply ends_bind_pure; [done|]. eapply ends_bind; [apply ends_publish| |].
  - intros e v' (Hr & Hx & Hs). apply (removed_settled _ v); [done|]. split_and!; [done..|].
    by rewrite Hs, app_nil_r.
  - intros [] v' (Hr & Hx & Hs).
    + eapply ends_bind_pure; [done|]. rewrite Hpc in Hs. apply IH.
      * rewrite Hx. simpl. by eapply confirmed_next.
      * simpl. rewrite Hr. simpl. lia.
    + apply ends_ret. apply (removed_settled _ v); [done|]. split_and!; [done..|]. by rewrite Hs, app_nil_r.
Qed.

Lemma ends_complete_scope n pc v :
  n + 1 < u64_max → ordered n v → settled v →
  ends (complete_scope pc) v (λ _ v', ordered (n + 1) v' ∧ settled v').
Proof.
  intros Hn Hv Hs. unfold complete_scope.
  assert (ordered (n + 1) v) as Hv' by (eapply ordered_le; [|done]; lia).
  destruct (pc_sequence pc) as [k|] eqn:Ek.
  - eapply ends_bind_pure; [done|]. case_match eqn:Ec.
    + eapply ends_bind_pure; [done|]. apply ends_ret. split; [by apply (ordered_same _ v)|done].
    + apply orb_false_iff in Ec as [Hlt Hnew]. apply N.ltb_ge in Hlt. apply bool_decide_eq_false in Hnew.
      rewrite <- eq_None_not_Some in Hnew. eapply ends_bind_pure; [done|]. apply ends_publish_ready; [done| |done].
      pose proof (bt_insert_length k pc _ Hnew) as Hlen. destruct Hv as [E1 E2 E3 E4 E5].
      split; simpl; [done|done|by apply bt_insert_Forall|by apply bt_insert_increasing|lia].
  - eapply ends_bind; [apply ends_publish| |].
    + intros e v' (Hr & Hx & Hq). split; [eapply ordered_same; [|done]|unfold settled; by rewrite Hx, Hr].
      split_and!; [done..|]. by rewrite Hq, app_nil_r.
    + intros x v' (Hr & Hx & Hq). apply ends_ret. split; [eapply ordered_same; [|done]|unfold settled; by rewrite Hx, Hr].
      split_and!; [done..|]. rewrite Hq, Ek. by destruct x; rewrite app_nil_r.
Qed.

(** The other commands publish nothing. *)
Lemma ends_answered {A B} (p : stateful process (S * DatabaseSession) A) (f : result A → N * Answer) (g : result A → B) v :
  ends (x ← on_session p; answer (f x).1 (f x).2;; mret (g x)) v (λ _ v', same_order v v').
Proof.
  eapply ends_bind; [apply ends_on_session|by intros e v' (t & y & _ & ->)|]. intros x v' (t & y & _ & ->).
  by eapply ends_bind_pure; [done|].
Qed.

Lemma ends_call_scope scope c reply v : ends (call_scope scope c reply) v (λ _ v', same_order v v').
Proof.
  unfold call_scope. apply (ends_bind_check (ctx (sv_scopes v !! scope) "unknown scope")); [done|]. intros sc _.
  destruct (sc_active sc); [|by eapply ends_bind_pure; [done|]].
  eapply ends_bind; [apply ends_on_session|by intros e v' (t & y & _ & ->)|]. intros x v' (t & y & _ & ->).
  destruct x as [[res committed|e]|e]; [|by eapply ends_bind_pure; [done|]|by do 2 (eapply ends_bind_pure; [done|])].
  eapply (ends_bind _ _ _ (λ _ v', same_order v v')); [by destruct committed|done|]. intros [] v' Hv.
  by do 2 (eapply ends_bind_pure; [done|]).
Qed.

Lemma ends_handle n c v :
  n + 1 < u64_max → ordered n v → settled v → ends (handle_command c) v (λ _ v', ordered (n + 1) v' ∧ settled v').
Proof.
  intros Hn Hv Hs.
  assert (ends (handle_command c) v (λ _ v', same_order v v') →
    ends (handle_command c) v (λ _ v', ordered (n + 1) v' ∧ settled v')) as Hsame.
  { intros Hc. eapply ends_mono; [exact Hc|]. intros x v' Hv'. split.
    - eapply ordered_same; [exact Hv'|]. eapply ordered_le; [|done]. lia.
    - destruct Hv' as (Hr & Hx & _). unfold settled. by rewrite Hr, Hx. }
  destruct c as [scope replayed reply|scope c reply|reply|a hydrated reply|pc|reply|scope inv epoch origin|scope];
    simpl in *; [apply Hsame|apply Hsame|apply Hsame|apply Hsame|by apply ends_complete_scope|apply Hsame..].
  - apply (ends_bind_check (ctx (sv_scopes v !! scope) "unknown scope")); [done|]. intros sc _.
    apply (ends_answered _ (λ x, (reply, PreparedAnswer x)) (λ _, true)).
  - apply ends_call_scope.
  - apply (ends_answered _ (λ x, (reply, ActivatedAnswer x)) (λ _, true)).
  - apply (ends_answered _ (λ x, (reply, HydratedAnswer x)) (λ _, true)).
  - apply (ends_answered _ (λ _, (reply, ResetAnswer)) (λ _, true)).
  - by eapply ends_bind_pure; [done|].
  - by eapply ends_bind_pure; [done|].
Qed.

Lemma ends_run_service n cs v :
  n + N.of_nat (length cs) < u64_max → ordered n v → settled v →
  ends (run_service cs) v (λ _ v', ordered (n + N.of_nat (length cs)) v' ∧ settled v').
Proof.
  revert n v. induction cs as [|c cs IH]; intros n v Hn Hv Hs; cbn [run_service length] in *.
  { apply ends_ret. split; [|done]. eapply ordered_le; [|done]. lia. }
  eapply ends_bind_pure; [done|]. destruct (sv_stopped v).
  { apply ends_ret. split; [|done]. eapply ordered_le; [|done]. lia. }
  eapply ends_bind; [apply (ends_handle n); [lia|done..]| |].
  { intros e v' [Hv' ?]. split; [|done]. eapply ordered_le; [|done]. lia. }
  intros [] v' [Hv' Hs'].
  - eapply ends_bind_pure; [done|]. replace (n + N.of_nat (Datatypes.S (length cs))) with (n + 1 + N.of_nat (length cs)) by lia.
    apply IH; [lia|by apply (ordered_same _ v')|done].
  - split; [|done]. eapply ordered_le; [|by apply (ordered_same _ v')]. lia.
Qed.

(** C15. Interleaved completions are published in the order of their sequence numbers:
    whatever the commands and their order, the confirmed ones are 1, 2, …, without a
    gap or a repetition; every completion that waits is for a later number than the
    next one, so none is left waiting that could be published. *)
Theorem completions_in_order (commands : list Command) (s : S) :
  N.of_nat (length commands) < u64_max →
  yields (run_service commands (service_new s)) (λ res, ∀ v x, res = Ok (v, x) → ∃ n,
    confirmed_sequences v = numbers n ∧ sv_next_sequence v = N.of_nat n + 1 ∧
    ∀ k pc, (k, pc) ∈ sv_ready v → pc_sequence pc = Some k ∧ sv_next_sequence v < k).
Proof.
  intros Hlen. eapply yields_mono; [apply (ends_run_service 0); [lia| |done]|].
  { split; [done|done|constructor|constructor|simpl; lia]. }
  intros [[v x]|e]; [|done]. intros [[E1 E2 E3 E4 _] Hs] ? ? [= <- <-]. exists (length (confirmed_sequences v)).
  split_and!; [done|done|]. intros k pc Hin. rewrite Forall_forall in E3. destruct (E3 _ Hin) as [Hle Hpc].
  split; [done|]. simpl in *. destruct (decide (k = sv_next_sequence v)) as [->|]; [|lia].
  unfold settled in Hs. by rewrite (bt_elem_get _ _ _ E4 Hin) in Hs.
Qed.
End sequence.
