(* ===== verification/Durability.v ===== *)
(** * Durable completions of an actor

    The database service of an actor over the storage of its host session: the
    composition of [HostStorage], [ActorDatabase] and [DatabaseService]. *)

From S2P Require Import Prelude Text Demo Names Payload StateLog Effects Btree Concurrency Buckets Recovery Runtime Activation Ownership Takeover HostStorage Sqlite Capture Protocol ActorDatabase DatabaseLaws DatabaseSafety DatabaseSession DatabaseService HostActorStorage DatabaseServiceSafety.
Local Open Scope N_scope.

Section durability.
Context `{JsonValue} `{!Json (Envelope StateSnapshot), !Json StateSnapshot, !Json LegacySnapshot}.
Context `{Digest} `{Base64} `{!Base64Laws} `{!Json Ownership} `{!JsonLaws Ownership}.
Context `{!Litestream} `{!LitestreamLaws} `{!RawJson} `{!Json (list bytes)}.
Context (config : SnapshotStoreConfig) `{!SnapshotStore process} `{!KeptBefore} `{!StoreContract}.
Context (host session_id region : bytes) (actor : ActorKey) (new_actor : bool) (owner_hint : option OwnershipHint).
Context (others : stateful process HostStorage unit).
Context (observer_get_alarm : prog process (option Z)) (observer_update_alarm : option Z → prog process unit).
Implicit Types w : world process.

#[local] Instance actor_storage : ActorStorage HostStorage :=
  host_actor_storage config region actor others observer_get_alarm observer_update_alarm.

(** A session makes its calls, then its database serves commands. *)
Definition serve (calls : list host_call) (commands : list Command) : prog process (Service * result unit) :=
  '(s, _) ← host_calls_run config host session_id region actor new_actor owner_hint others
              observer_get_alarm observer_update_alarm calls host_storage_new;
  run_service commands (service_new s).

(** The other tasks of the session: whatever they do, renewals of its lease included,
    the fence stays covered and the session is never reopened ([calls_cover],
    [calls_advance]). *)
Context (others_ok : others_cover host session_id actor others) (others_adv : others_advance others).
Context (get_alarm_quiet : quiet observer_get_alarm) (update_alarm_quiet : ∀ t, quiet (observer_update_alarm t)).

#[local] Instance actor_storage_laws : StorageLaws HostStorage :=
  host_storage_laws config host session_id region actor others observer_get_alarm observer_update_alarm
    others_ok others_adv get_alarm_quiet update_alarm_quiet.

Lemma safe_serve calls commands w :
  local_inv w → (∀ h, owner_hint = Some h → hint_ok w h) →
  safe (serve calls commands) (λ x w', service_ok x.1 w') w.
Proof.
  intros Hl Hh. unfold serve. eapply safe_bind; [apply held_calls_run; [done..|]|].
  { split; [done|]. by intros d Hd. }
  intros [s x] w' _ [Hs _]. by apply safe_run_service, service_new_ok.
Qed.

(** Without append logs a session starts its history afresh. *)
Lemma resumed_logs h tx : resumed h tx → rapid_settings config ≠ None.
Proof.
  intros (c & bs & _ & Hp & _) E. simpl in Hp. unfold resume_parent in Hp. by rewrite E in Hp.
Qed.

(** C4. Every state an actor has published can be restored. In a deployment without
    append logs, whatever calls and commands came before, whatever failed, and
    whatever the other tasks of the session and the other hosts did meanwhile, the
    head of the database of a service that still runs, with no commit under way, names
    a commit that is kept, and through its parents, all of them kept and without a
    missing transaction, a commit that holds the whole database, up to the transaction
    that was last published. The other tasks are any that keep the fence covered and
    never reopen it ([others_cover], [others_advance]), as all calls of a session do. *)
Theorem service_history_unbroken (calls : list host_call) (commands : list Command) w :
  rapid_settings config = None → own_inv w → local_inv w → (∀ h, owner_hint = Some h → hint_ok w h) →
  wp rely guar (serve calls commands) (λ res w', ∀ v x r h, res = Ok (v, x) →
    sv_stopped v = false → cached_state (sv_session v) = Some r → res_pending r = None →
    res_sqlite_head r = Some h → unbroken (λ _ _, False) w' h (cap_published (res_capture r))) w.
Proof.
  intros Hconf Hw Hl Hh. eapply wp_mono; [by apply safe_serve|]. intros res w' [_ Hres] v x r h ->.
  destruct (Hres _ eq_refl) as (_ & _ & Hlive). simpl in *. intros Hrun Hr Hp Hhead. apply Hlive in Hrun as [[_ Hd] _ _].
  eapply unbroken_later; [done| |by apply (ok_head _ _ _ (proj2 (Hd r Hr)))]. intros h' tx Hres'.
  by apply (resumed_logs _ _ Hres').
Qed.

(** C3. A completion is answered only when it is durable: whenever the completion of an
    invocation was answered with a version, and its transaction had not been published
    before, a commit with that version, the request, its result and that transaction
    is kept under the name of its version, byte for byte; it was kept before the lease
    ran out of a record of its epoch and session that the bucket holds or has held, and
    a takeover of an unsealed record of that stream whose lease runs at least as long
    adopts a base that is at least as new. *)
Theorem answered_completions_survive (calls : list host_call) (commands : list Command) w :
  own_inv w → local_inv w → (∀ h, owner_hint = Some h → hint_ok w h) →
  wp rely guar (serve calls commands) (λ res w', ∀ v x b version tx, res = Ok (v, x) →
    b ∈ sv_published v → pb_answer b = Ok version → pb_due b = Some tx → ∃ plan c bs,
      snapshot_encode c = Ok bs ∧ object_name plan = stream_object (plan_stream plan) version ∧
      kept_bytes w' (object_name plan) bs ∧ survives plan w' ∧
      state_version c = version ∧ plan_state_version plan = version ∧ txid (sqlite c) = tx ∧
      request_id c = inv_request_id (sc_invocation (pb_scope b)) ∧
      completion c = Some {| completion_result := pc_result (pb_completion b) |}) w.
Proof.
  intros Hw Hl Hh. eapply wp_mono; [by apply safe_serve|]. intros res w' [_ Hres] v x b version tx ->.
  destruct (Hres _ eq_refl) as (_ & Hlog & _). simpl in *. intros Hb Ha Hd.
  destruct (Hlog _ _ _ Hb Ha Hd) as (plan & c & bs & (Henc & Hv & Hack) & Hver & Hid & Hdone & Htx).
  exists plan, c, bs. pose proof (acknowledged_survives _ _ _ Hack) as Hsur. destruct Hack as (Hn & _ & Hk & _).
  by split_and!; [..|congruence| | | |congruence| | |].
Qed.

End durability.
