(* ===== verification/DatabaseDemo.v ===== *)
(** * A host session and the database of an actor at work

    The session of [HostStorage] run on concrete storage: it registers, holds
    authority until five seconds before its lease runs out, and is closed for good
    after that.

    A stand-in for SQLite and its replication that keeps the table of the fields,
    and the service of [Durability] run on it: an actor is activated, writes a field
    and completes, and a retry of its request is answered without running it. *)

From S2P Require Import Prelude Text Demo Names Payload StateLog Effects Btree Concurrency Buckets Recovery Runtime Activation Ownership Takeover LocalStore Safety HostStorage Sqlite Capture Protocol ActorDatabase DatabaseLaws DatabaseSafety DatabaseSession DatabaseService HostActorStorage DatabaseServiceSafety Durability.
Local Open Scope N_scope.

(** ** The session of a host *)

Module Session_demo.

Import Stand_ins Stand_in_commits Stand_in_records.
#[local] Existing Instance bucket_kept.
#[local] Existing Instance local_store.

Definition demo_host_request : HostLeaseRequest := demo_request "h0" "s0".

Abbreviation demo_host_calls others :=
  (host_calls_run Local (b"h0") (b"s0") demo_region demo_actor false None others (mret None) (λ _, mret ())).

(** The renewals of the lease that run whenever a task of the session waits. *)
Abbreviation demo_renewals := (demo_host_calls (mret ()) [RegisterLease demo_host_request]).

Lemma demo_renewals_cover : others_cover (b"h0") (b"s0") demo_actor demo_renewals.
Proof. apply calls_cover; [apply _|apply quiet_ret|intros; apply quiet_ret|apply idle_cover]. Qed.

Lemma demo_renewals_advance : others_advance demo_renewals.
Proof. apply calls_advance, idle_advance. Qed.

Lemma demo_pool_local : local_inv (shared demo_pool).
Proof. intros key r Hr. by destruct (lookup_empty_Some (M:=gmap bytes) key r Hr). Qed.

(** Whether the session still has authority when the clock shows [t] after it
    registered at time 0, and after it looked at time [t1] in between. *)
Definition demo_authority (t1 t : N) : option (bool * bool) :=
  let '(r, w) := run (demo_host_calls (mret ()) [RegisterLease demo_host_request] host_storage_new) (shared demo_pool) in
  match r with
  | Ok (s, _) =>
      let '(r, w) := run (ensure_authority s) (set_clock w t1) in
      match r with
      | Ok (s, r1) =>
          let '(r, _) := run (ensure_authority s) (set_clock w t) in
          match r with Ok (_, r2) => Some (is_ok r1, is_ok r2) | Err _ => None end
      | Err _ => None
      end
  | Err _ => None
  end.

Example demo_authority_window :
  (demo_authority 1000 24999, demo_authority 24999 25000, demo_authority 25000 24999) =
  (Some (true, true), Some (true, false), Some (false, false)).
Proof. vm_compute. reflexivity. Qed.

Lemma authority_is_live_witness :
  wp rely guar ((demo_host_calls demo_renewals [RegisterLease demo_host_request];; ensure_authority) host_storage_new)
    (λ res w', ∀ s', res = Ok (s', Ok ()) → hs_stopped s' = false ∧ LeaseFence.fenced (hs_fence s') = false ∧ ∃ r,
      was_recorded w' (storage_key demo_actor) r ∧ own_actor r = demo_actor ∧
      lease_id (lease r) = b"h0" ∧ session_id (lease r) = b"s0" ∧
      clock w' + LeaseFence.SAFETY_MARGIN_MS < expires_at_ms (lease r) ∧
      ∀ next, own_step w' (Some r) next → epoch next = epoch r) (shared demo_pool).
Proof.
  apply (authority_is_live Local (b"h0") (b"s0") demo_region demo_actor false None demo_renewals (mret None) (λ _, mret ())
           demo_renewals_cover (quiet_ret None) (λ _, quiet_ret ()) [RegisterLease demo_host_request] (shared demo_pool)).
  - apply demo_hosts.
  - apply demo_pool_local.
  - discriminate.
Defined.

End Session_demo.
Export Session_demo.

(** ** The database *)

Module Stand_in_sqlite.
Import Stand_ins Stand_in_commits Stand_in_records.

(** A database file with its replica: every statement that writes is a transaction. *)
Record file := {
  table : gmap bytes bytes;
  changed : bool;
  position : N;
  segments : list (bytes * bytes);
}.

Definition with_table (t : gmap bytes bytes) (f : file) : file :=
  {| table := t; changed := true; position := position f; segments := segments f |}.

Definition texts (m : gmap bytes bytes) : list (list SqlValue) :=
  (λ kv, [SqlText kv.1; SqlText kv.2]) <$> map_to_list m.

Definition file_query (sql : bytes) (bindings : list SqlValue) (f : file)
    : file * (list hook * result (list (list SqlValue))) :=
  if bool_decide (sql = FIELDS_SQL) then
    match bindings with
    | [SqlNull] => (f, ([], Ok (texts (table f))))
    | _ => (f, ([], Err "unsupported"))
    end
  else if bool_decide (sql = PERSIST_SQL) then
    match bindings with
    | [SqlText k; SqlText x] => (with_table (<[k := x]> (table f)) f, ([CommitHook], Ok []))
    | _ => (f, ([], Err "unsupported"))
    end
  else if bool_decide (sql = KEEP_SQL) then
    match bindings with
    | [SqlText t] =>
        match from_json (A:=list bytes) t with
        | Some ns => (with_table (filter (λ kv, kv.1 ∈ ns) (table f)) f, ([CommitHook], Ok []))
        | None => (f, ([], Err "malformed JSON"))
        end
    | _ => (f, ([], Err "unsupported"))
    end
  else (f, ([], Err "unsupported")).

#[export] Instance file_connection : Connection file := {|
  conn_actions _ sql := [Read (b"notes")];
  conn_prepare _ _ := Prepared [];
  conn_query := file_query;
  conn_autocommit _ := true;
|}.

#[export] Instance file_fields : FieldsTable (conn:=file).
Proof.
  refine {| fields_of := table |}.
  - intros c bound c' hooks rows. change (@conn_query file _) with file_query. unfold file_query.
    rewrite bool_decide_true by done. destruct bound; try discriminate.
    intros E. injection E as <- _ <-. split; [done|]. exists (map_to_list (table c)).
    split_and!; [apply NoDup_fst_map_to_list|done|]. intros k v. rewrite elem_of_map_to_list. naive_solver.
  - intros c k v c' hooks rows. change (@conn_query file _) with file_query. unfold file_query.
    rewrite bool_decide_false, bool_decide_true by (done || by vm_compute). intros E. by injection E as <- _ _.
  - intros c ns c' hooks rows. change (@conn_query file _) with file_query. unfold file_query.
    rewrite bool_decide_false, bool_decide_false, bool_decide_true by (done || by vm_compute).
    rewrite from_to_json. intros E. by injection E as <- _ _.
Defined.

Definition segment (n : N) : bytes * bytes :=
  (pad 16 (show_hex n) ++ x2d :: pad 16 (show_hex n) ++ b".ltx", b"LTX1 data").

#[export] Instance demo_litestream : Litestream := {|
  lite := file;
  lite_tempdir _ := Ok {| table := ∅; changed := true; position := 0; segments := [] |};
  lite_restore_with fs tx f :=
    ({| table := table f; changed := false; position := tx; segments := [] |}, Ok ());
  lite_create_tables f := (f, Ok ());
  lite_resume tx f := ({| table := table f; changed := changed f; position := tx; segments := [] |}, Ok ());
  lite_with_store f := ({| table := table f; changed := changed f; position := 0; segments := [] |}, Ok ());
  lite_position := position;
  lite_sync f :=
    if changed f then
      ({| table := table f; changed := false; position := position f + 1;
          segments := segments f ++ [segment (position f + 1)] |}, Ok true)
    else (f, Ok false);
  lite_snapshot f := (f, Ok ());
  lite_ltx f lvl := Ok (if lvl =? 0 then segments f else []);
  lite_prune tx f := (f, Ok ());
  lite_open_engine f := (f, Ok ());
|}.

#[export] Instance demo_litestream_laws : LitestreamLaws.
Proof.
  split.
  - intros t l l'. unfold lite_resume. simpl. intros E. by injection E as <-.
  - intros l l'. unfold lite_with_store. simpl. intros E. by injection E as <-.
Qed.

#[export] Instance demo_raw : RawJson := λ _, true.
End Stand_in_sqlite.

Import Stand_ins Stand_in_commits Stand_in_records Stand_in_sqlite.
#[local] Existing Instance bucket_kept.
#[local] Existing Instance local_store.

Definition demo_invocation : ActorInvocation :=
  {| inv_request_id := b"r1"; inv_actor := demo_actor; inv_method := b"rename"; inv_args := [] |}.

Definition demo_completion (reply : N) (sequence : option N) : PendingCompletion :=
  {| pc_scope := 1; pc_result := (b"done" : Value); pc_sequence := sequence; pc_reply := reply |}.

Definition demo_commands : list Command :=
  [ActivateCommand 0; OpenScope 1 demo_invocation (Some 1) default_origin; PrepareCommand 1 true 1;
   CallCommand 1 (PersistField (b"name") (b"x") false) 2; CallCommand 1 Commit 3; CloseScope 1;
   CompleteCommand (demo_completion 4 None); PrepareCommand 1 true 5].

Abbreviation demo_serve := (serve Local (b"h0") (b"s0") demo_region demo_actor false None demo_renewals (mret None) (λ _, mret ())
  [RegisterLease demo_host_request]).

Definition demo_served (commands : list Command) : option (Service (S:=HostStorage)) :=
  match fst (run (demo_serve commands) (shared demo_pool)) with
  | Ok (v, _) => Some v
  | Err _ => None
  end.

(** The transaction is published as version 1, and the retry is answered. *)
Example demo_service_runs :
  (λ v, (sv_stopped v, sv_version v, (λ b, (pb_due b, pb_answer b)) <$> sv_published v, head (rev (sv_answers v))))
    <$> demo_served demo_commands =
  Some (false, 1, [(Some 1, Ok 1)],
        Some (5, PreparedAnswer (Ok (InvocationCompleted (Completed (b"done" : Value) []))))).
Proof. vm_compute. reflexivity. Qed.

(** Interleaved completions that arrive out of order. *)
Example demo_service_orders :
  (λ v, (sv_next_sequence v, confirmed_sequences v, fst <$> sv_ready v)) <$>
    demo_served (take 5 demo_commands ++
      [CompleteCommand (demo_completion 6 (Some 2)); CompleteCommand (demo_completion 7 (Some 1));
       CompleteCommand (demo_completion 8 (Some 4))]) =
  Some (3, [1; 2], [4]).
Proof. vm_compute. reflexivity. Qed.

Abbreviation demo_storage := (host_actor_storage Local demo_region demo_actor demo_renewals (mret None) (λ _, mret ())).

Lemma service_history_unbroken_witness :
  wp rely guar (demo_serve demo_commands) (λ res w', ∀ v x r h, res = Ok (v, x) →
    sv_stopped v = false → cached_state (sv_session v) = Some r → res_pending r = None →
    res_sqlite_head r = Some h →
    unbroken (λ _ _, False) w' h (cap_published (res_capture r))) (shared demo_pool).
Proof.
  apply (service_history_unbroken Local (b"h0") (b"s0") demo_region demo_actor false None demo_renewals (mret None) (λ _, mret ())
           demo_renewals_cover demo_renewals_advance (quiet_ret None) (λ _, quiet_ret ())).
  - reflexivity.
  - apply demo_hosts.
  - apply demo_pool_local.
  - discriminate.
Defined.

Lemma answered_completions_survive_witness :
  wp rely guar (demo_serve demo_commands) (λ res w', ∀ v x b version tx, res = Ok (v, x) →
    b ∈ sv_published v → pb_answer b = Ok version → pb_due b = Some tx → ∃ plan c bs,
      snapshot_encode c = Ok bs ∧ object_name plan = stream_object (plan_stream plan) version ∧
      kept_bytes w' (object_name plan) bs ∧ survives plan w' ∧
      state_version c = version ∧ plan_state_version plan = version ∧ txid (sqlite c) = tx ∧
      request_id c = inv_request_id (sc_invocation (pb_scope b)) ∧
      completion c = Some {| completion_result := pc_result (pb_completion b) |}) (shared demo_pool).
Proof.
  apply (answered_completions_survive Local (b"h0") (b"s0") demo_region demo_actor false None demo_renewals (mret None) (λ _, mret ())
           demo_renewals_cover demo_renewals_advance (quiet_ret None) (λ _, quiet_ret ())).
  - apply demo_hosts.
  - apply demo_pool_local.
  - discriminate.
Defined.


Lemma completions_in_order_witness :
  yields (run_service (ActorStorage0:=demo_storage) demo_commands (service_new host_storage_new))
    (λ res, ∀ v x, res = Ok (v, x) → ∃ n,
      confirmed_sequences v = numbers n ∧ sv_next_sequence v = N.of_nat n + 1 ∧
      ∀ k pc, (k, pc) ∈ sv_ready v → pc_sequence pc = Some k ∧ sv_next_sequence v < k).
Proof. apply completions_in_order. vm_compute. reflexivity. Defined.

Definition demo_engine : Engine file :=
  {| connection := {| table := {[b"old" := b"1"]}; changed := false; position := 0; segments := [] |};
     commit_seen := false |}.

Definition demo_new_fields : field_map := [(b"name", b"x"); (b"size", b"2")].

Definition demo_replaced : Engine file := fst (SqliteEngine.replace demo_new_fields demo_engine).

Lemma fields_replaced_witness :
  ∃ fs' e2, SqliteEngine.fields None demo_replaced = (e2, Ok (FieldsResult fs')) ∧ fs' = demo_new_fields.
Proof.
  eexists _, _. split; [vm_compute; reflexivity|].
  apply (fields_replaced demo_new_fields _ demo_engine demo_replaced (fst (SqliteEngine.fields None demo_replaced))).
  - repeat constructor; vm_compute; reflexivity.
  - vm_compute. reflexivity.
  - vm_compute. reflexivity.
Defined.
