(* ===== verification/ActorHost.v ===== *)
(** * The mailbox of an actor

    [ActorHost] of [src/src/host/actor_host.rs]: one task per actor receives
    requests, starts them, and answers them when they were carried out. A request
    that runs is a task of its own, which asks the executor and the database for what
    it needs; the answers come from the environment, in any order between tasks.
    Request tracking, traces and log records are left out. *)

From S2P Require Import Prelude Text Names StateLog Effects Lifecycle HostStorage Sqlite Capture Protocol ActorDatabase DatabaseService.
Local Open Scope N_scope.

Section mailbox.
Context `{JsonValue} `{!JsonOps} `{!Json Value} `{!StandardBase64}.

(** ** Requests *)

Record ActorMethodInvocation := {
  mi_request_id : bytes;
  mi_method : bytes;
  mi_args : list Value;
}.

(** Reply channels are named by numbers. *)
Inductive ActorOperation :=
| ActivateOperation (actor : ActorKey) (reply : N)
| MethodOperation (inv : ActorInvocation)
| SocketOperation (inv : ActorSocketInvocation).

Record ActorRequest := {
  rq_operation : ActorOperation;
  rq_owner_epoch : N;
  rq_reply : N;
}.

Inductive ActorMessage :=
| RequestMessage (r : ActorRequest)
| DrainMessage.

Definition socket_event_name (e : ActorSocketEvent) : bytes :=
  match e with
  | Connect _ => b"onConnect"
  | Message _ _ => b"onMessage"
  | Disconnect _ _ _ _ => b"onDisconnect"
  end.

(** An invocation the host makes on its own behalf. *)
Definition host_invocation (name : bytes) (actor : ActorKey) : ActorInvocation :=
  {| inv_request_id := name; inv_actor := actor; inv_method := name; inv_args := [] |}.

(** [ActorOperation::invocation] *)
Definition operation_invocation (o : ActorOperation) : ActorInvocation :=
  match o with
  | ActivateOperation actor _ => host_invocation (b"activate") actor
  | MethodOperation inv => inv
  | SocketOperation inv =>
      {| inv_request_id := sock_request_id inv; inv_actor := sock_actor inv;
         inv_method := socket_event_name (sock_event inv); inv_args := [] |}
  end.

Definition commit_origin (o : ActorOperation) : CommitOrigin :=
  match o with SocketOperation inv => origin_of_socket (sock_event inv) | _ => default_origin end.

Definition is_disconnect (o : ActorOperation) : bool :=
  match o with
  | SocketOperation inv => match sock_event inv with Disconnect _ _ _ _ => true | _ => false end
  | _ => false
  end.

Definition is_method (o : ActorOperation) : bool :=
  match o with MethodOperation _ => true | _ => false end.

(** ** What a running request asks for *)

Inductive request_call :=
(** [HostDatabase::invocation], which names the scope *)
| CallOpen (inv : ActorInvocation) (epoch : N) (origin : CommitOrigin)
| CallClose (scope : N)
| CallPrepare (scope : N) (replayed : bool)
(** Closes the scope as well. *)
| CallComplete (scope : N) (result : Value) (sequence : option N)
| CallAuthority
| CallActivate
| CallHydrated (a : ActorActivation) (hydrated : result unit)
(** The executor *)
| CallSupports (actor_name : bytes)
| CallHydrate (request_id : bytes) (scope : N)
| CallInvoke (inv : ActorMethodInvocation) (scope : N)
| CallSocket (inv : ActorSocketInvocation) (scope : N)
(** The publisher of socket effects, in a task of its own *)
| CallPublish (effects : list ActorSocketEffect)
(** The reply channel of an activation *)
| CallReply (reply : N) (a : result ActorActivation).

Definition reply_of (c : request_call) : Type :=
  match c with
  | CallOpen _ _ _ => N
  | CallClose _ | CallPublish _ | CallReply _ _ => unit
  | CallPrepare _ _ => result PreparedInvocation
  | CallComplete _ _ _ => result N
  | CallAuthority => result unit
  | CallActivate => result PreparedActivation
  | CallHydrated _ _ => result ActorActivation
  | CallSupports _ => bool
  | CallHydrate _ _ => result unit
  | CallInvoke _ _ => result ActorMethodOutcome
  | CallSocket _ _ => result ActorSocketOutcome
  end.

Inductive request_task (A : Type) : Type :=
| Return (a : A)
| Ask (c : request_call) (k : reply_of c → request_task A).
Arguments Return {A}. Arguments Ask {A}.

#[global] Instance request_task_ret : MRet request_task := @Return.
#[global] Instance request_task_bind : MBind request_task :=
  fix bind A B f t := match t with Return a => f a | Ask c k => Ask c (λ x, bind A B f (k x)) end.

Definition ask (c : request_call) : request_task (reply_of c) := Ask c Return.

(** ** Carrying out a request *)

Inductive Recovery := Keep | Evict | Reset | Stop.

Record Completion := {
  cp_id : N;
  cp_request : ActorRequest;
  cp_result : result ActorExecutionResult;
  cp_interleaved : bool;
  cp_recovery : Recovery;
  cp_failure_code : option bytes;
  cp_executed : bool;
}.

Definition failed (code : bytes) (message : string) : ActorExecutionResult :=
  Failed {| failure_code := code; failure_message := message |}.

Definition execute (o : ActorOperation) (scope : N) : request_task (result ActorMethodOutcome) :=
  match o with
  | MethodOperation inv =>
      ask (CallInvoke {| mi_request_id := inv_request_id inv; mi_method := inv_method inv; mi_args := inv_args inv |} scope)
  | SocketOperation inv =>
      x ← ask (CallSocket inv scope);
      mret (x ← x; Ok match x with
            | SocketInterleaved outcome => MethodInterleaved outcome
            | SocketHandled effects => MethodCompleted value_null effects
            | SocketFailed failure => MethodFailed failure
            end)
  | ActivateOperation _ _ => mret (Err "unreachable")
  end.

Definition is_automatic (e : ActorSocketEffect) : bool :=
  match e with StateSnapshotEffect _ _ _ | StateUpdate _ _ _ _ => true | _ => false end.

Definition set_version (v : N) (e : ActorSocketEffect) : ActorSocketEffect :=
  match e with
  | StateSnapshotEffect id state _ => StateSnapshotEffect id state (Some v)
  | StateUpdate changes removed except _ => StateUpdate changes removed except (Some v)
  | e => e
  end.

Definition complete_with_state (version : N) (res : Value) (effects : list ActorSocketEffect)
    : request_task (result ActorExecutionResult) :=
  authority ← ask CallAuthority;
  match authority with
  | Err e => mret (Err e)
  | Ok _ =>
      let automatic := set_version version <$> List.filter is_automatic effects in
      (if automatic is [] then mret () else ask (CallPublish automatic));;
      mret (Ok (Completed res (List.filter (λ e, negb (is_automatic e)) effects)))
  end.

Definition commit_outcome (outcome : result ActorMethodOutcome) (scope : N)
    : request_task (result ActorExecutionResult * Recovery) :=
  match outcome with
  | Err e => mret (Ok (failed (b"actor_error") ("actor executor failed: " ++ e)%string), Reset)
  | Ok (MethodFailed failure) =>
      let recovery := if (failure_code failure == b"actor_method_failed") || (failure_code failure == b"actor_socket_failed")
                      then Keep else Reset in
      let code := if failure_code failure == b"resource_exhausted" then b"resource_exhausted" else b"actor_error" in
      mret (Ok (failed code (failure_message failure)), recovery)
  | Ok outcome =>
      let '(res, effects, sequence) :=
        match outcome with
        | MethodInterleaved o => (il_result o, il_effects o, Some (il_sequence o))
        | MethodCompleted res effects => (res, effects, None)
        | MethodFailed _ => (value_null, [], None)
        end in
      match validate_socket_effects effects with
      | Err e => mret (Ok (failed (b"actor_error") ("actor returned invalid socket effects: " ++ e)%string), Reset)
      | Ok _ =>
          version ← ask (CallComplete scope res sequence);
          match version with
          | Ok version =>
              r ← complete_with_state version res effects;
              mret (r, Keep)
          | Err e =>
              if bool_decide (e = PublicationError) || bool_decide (is_Some sequence) then
                mret (Ok (Failed outcome_unknown_after_execution), Evict)
              else mret (Err e, Keep)
          end
      end
  end.

Definition activate (actor : ActorKey) : request_task (result ActorActivation) :=
  supported ← ask (CallSupports (actor_name actor));
  if (supported : bool) then
    prepared ← ask CallActivate;
    match prepared with
    | Err e => mret (Err e)
    | Ok (ActivationCompleted a) => mret (Ok a)
    | Ok (Hydrate a) =>
        scope ← ask (CallOpen (host_invocation (b"activate") actor) (act_owner_epoch a) default_origin);
        hydrated ← ask (CallHydrate (b"activate") scope);
        ask (CallClose scope);;
        ask (CallHydrated a hydrated)
    end
  else mret (Err "actor name is not loaded by this host").

Definition with_operation (o : ActorOperation) (epoch : N) (r : ActorRequest) : ActorRequest :=
  {| rq_operation := o; rq_owner_epoch := epoch; rq_reply := rq_reply r |}.

Definition run_activation (id : N) (r : ActorRequest) (actor : ActorKey) (reply : N) : request_task Completion :=
  activation ← activate actor;
  ask (CallReply reply activation);;
  mret {| cp_id := id;
          cp_request := with_operation (MethodOperation (host_invocation (b"activate") actor))
                          (match activation with Ok a => act_owner_epoch a | Err _ => rq_owner_epoch r end) r;
          cp_result := Ok (Completed value_null []); cp_interleaved := false;
          cp_recovery := match activation with Ok _ => Keep | Err _ => Stop end;
          cp_failure_code := None; cp_executed := false |}.

(** The guard of the scope closes it on every way out. *)
Definition run_invocation (id : N) (r : ActorRequest) : request_task Completion :=
  scope ← ask (CallOpen (operation_invocation (rq_operation r)) (rq_owner_epoch r) (commit_origin (rq_operation r)));
  prepared ← ask (CallPrepare scope (is_method (rq_operation r)));
  match prepared with
  | Ok Execute =>
      outcome ← execute (rq_operation r) scope;
      ask (CallClose scope);;
      '(res, recovery) ← commit_outcome outcome scope;
      ask (CallClose scope);;
      mret {| cp_id := id; cp_request := r; cp_result := res;
              cp_interleaved := match outcome with Ok (MethodInterleaved _) => true | _ => false end;
              cp_recovery := recovery;
              cp_failure_code := match outcome with Ok (MethodFailed f) => Some (failure_code f) | _ => None end;
              cp_executed := true |}
  | Ok (InvocationCompleted res) =>
      ask (CallClose scope);;
      mret {| cp_id := id; cp_request := r; cp_result := Ok res; cp_interleaved := false; cp_recovery := Keep;
              cp_failure_code := None; cp_executed := false |}
  | Err e =>
      ask (CallClose scope);;
      mret {| cp_id := id; cp_request := r; cp_result := Err e; cp_interleaved := false; cp_recovery := Stop;
              cp_failure_code := None; cp_executed := false |}
  end.

Definition run_request (id : N) (r : ActorRequest) : request_task Completion :=
  match rq_operation r with
  | ActivateOperation actor reply => run_activation id r actor reply
  | _ => run_invocation id r
  end.

(** ** The mailbox *)

Inductive ActorPhase := Serving | Draining | Stopped.

#[global] Instance ActorPhase_eq_dec : EqDecision ActorPhase.
Proof. solve_decision. Defined.

Record ActorStatus := {
  phase : ActorPhase;
  idle_since : option N;
  waiting_operations : list WaitingOperation;
  active_at_ms : option N;
}.

Record Queued := {
  q_waiting : WaitingOperation;
  q_request : ActorRequest;
}.

(** A call that was answered. *)
Abbreviation answered := {c : request_call & reply_of c}.

(** A request under way; [rn_calls] is what it asked so far, for the theorems. *)
Record Running := {
  rn_id : N;
  rn_request : ActorRequest;
  rn_calls : list answered;
  rn_task : request_task Completion;
}.

(** What the task did to the outside: answers to requests (with the calls the
    request made), requests that were dropped with the task, evictions and resets. *)
Inductive LogEntry :=
| Started (id : N) (r : ActorRequest)
| Finished (r : ActorRequest) (res : result ActorExecutionResult) (calls : list answered)
| Dropped (r : ActorRequest)
| Drained
| Evicted (graceful : bool) (epoch : N)
| DatabaseReset.

(** [requests] is the channel; a permission of the executor counts from the start of
    an invocation on. *)
Record Actor := {
  ac_actor : ActorKey;
  ac_owner_epoch : N;
  ac_admission : bool;
  ac_permitted : bool;
  ac_database_stopped : bool;
  ac_requests : list ActorMessage;
  ac_open : bool;
  ac_pending : list Queued;
  ac_running : list Running;
  ac_next_invocation : N;
  ac_blocked_on : option N;
  ac_interleaved : bool;
  ac_hydrating : bool;
  ac_draining : bool;
  ac_exited : bool;
  ac_status : ActorStatus;
  ac_log : list LogEntry;
}.

Definition set_owner_epoch (e : N) (a : Actor) : Actor :=
  {| ac_actor := ac_actor a; ac_owner_epoch := e; ac_admission := ac_admission a; ac_permitted := ac_permitted a;
     ac_database_stopped := ac_database_stopped a; ac_requests := ac_requests a; ac_open := ac_open a;
     ac_pending := ac_pending a; ac_running := ac_running a; ac_next_invocation := ac_next_invocation a;
     ac_blocked_on := ac_blocked_on a; ac_interleaved := ac_interleaved a; ac_hydrating := ac_hydrating a;
     ac_draining := ac_draining a; ac_exited := ac_exited a; ac_status := ac_status a; ac_log := ac_log a |}.
Definition set_permitted (p : bool) (a : Actor) : Actor :=
  {| ac_actor := ac_actor a; ac_owner_epoch := ac_owner_epoch a; ac_admission := ac_admission a; ac_permitted := p;
     ac_database_stopped := ac_database_stopped a; ac_requests := ac_requests a; ac_open := ac_open a;
     ac_pending := ac_pending a; ac_running := ac_running a; ac_next_invocation := ac_next_invocation a;
     ac_blocked_on := ac_blocked_on a; ac_interleaved := ac_interleaved a; ac_hydrating := ac_hydrating a;
     ac_draining := ac_draining a; ac_exited := ac_exited a; ac_status := ac_status a; ac_log := ac_log a |}.
Definition set_database_stopped (a : Actor) : Actor :=
  {| ac_actor := ac_actor a; ac_owner_epoch := ac_owner_epoch a; ac_admission := ac_admission a;
     ac_permitted := ac_permitted a; ac_database_stopped := true; ac_requests := ac_requests a;
     ac_open := ac_open a; ac_pending := ac_pending a; ac_running := ac_running a;
     ac_next_invocation := ac_next_invocation a; ac_blocked_on := ac_blocked_on a;
     ac_interleaved := ac_interleaved a; ac_hydrating := ac_hydrating a; ac_draining := ac_draining a;
     ac_exited := ac_exited a; ac_status := ac_status a; ac_log := ac_log a |}.
Definition set_requests (ms : list ActorMessage) (a : Actor) : Actor :=
  {| ac_actor := ac_actor a; ac_owner_epoch := ac_owner_epoch a; ac_admission := ac_admission a;
     ac_permitted := ac_permitted a; ac_database_stopped := ac_database_stopped a; ac_requests := ms;
     ac_open := ac_open a; ac_pending := ac_pending a; ac_running := ac_running a;
     ac_next_invocation := ac_next_invocation a; ac_blocked_on := ac_blocked_on a;
     ac_interleaved := ac_interleaved a; ac_hydrating := ac_hydrating a; ac_draining := ac_draining a;
     ac_exited := ac_exited a; ac_status := ac_status a; ac_log := ac_log a |}.
Definition set_closed (a : Actor) : Actor :=
  {| ac_actor := ac_actor a; ac_owner_epoch := ac_owner_epoch a; ac_admission := ac_admission a;
     ac_permitted := ac_permitted a; ac_database_stopped := ac_database_stopped a; ac_requests := ac_requests a;
     ac_open := false; ac_pending := ac_pending a; ac_running := ac_running a;
     ac_next_invocation := ac_next_invocation a; ac_blocked_on := ac_blocked_on a;
     ac_interleaved := ac_interleaved a; ac_hydrating := ac_hydrating a; ac_draining := ac_draining a;
     ac_exited := ac_exited a; ac_status := ac_status a; ac_log := ac_log a |}.
Definition set_queue (q : list Queued) (a : Actor) : Actor :=
  {| ac_actor := ac_actor a; ac_owner_epoch := ac_owner_epoch a; ac_admission := ac_admission a;
     ac_permitted := ac_permitted a; ac_database_stopped := ac_database_stopped a; ac_requests := ac_requests a;
     ac_open := ac_open a; ac_pending := q; ac_running := ac_running a; ac_next_invocation := ac_next_invocation a;
     ac_blocked_on := ac_blocked_on a; ac_interleaved := ac_interleaved a; ac_hydrating := ac_hydrating a;
     ac_draining := ac_draining a; ac_exited := ac_exited a; ac_status := ac_status a; ac_log := ac_log a |}.
Definition set_running (r : list Running) (a : Actor) : Actor :=
  {| ac_actor := ac_actor a; ac_owner_epoch := ac_owner_epoch a; ac_admission := ac_admission a;
     ac_permitted := ac_permitted a; ac_database_stopped := ac_database_stopped a; ac_requests := ac_requests a;
     ac_open := ac_open a; ac_pending := ac_pending a; ac_running := r; ac_next_invocation := ac_next_invocation a;
     ac_blocked_on := ac_blocked_on a; ac_interleaved := ac_interleaved a; ac_hydrating := ac_hydrating a;
     ac_draining := ac_draining a; ac_exited := ac_exited a; ac_status := ac_status a; ac_log := ac_log a |}.
Definition set_blocked (o : option N) (a : Actor) : Actor :=
  {| ac_actor := ac_actor a; ac_owner_epoch := ac_owner_epoch a; ac_admission := ac_admission a;
     ac_permitted := ac_permitted a; ac_database_stopped := ac_database_stopped a; ac_requests := ac_requests a;
     ac_open := ac_open a; ac_pending := ac_pending a; ac_running := ac_running a;
     ac_next_invocation := ac_next_invocation a; ac_blocked_on := o; ac_interleaved := ac_interleaved a;
     ac_hydrating := ac_hydrating a; ac_draining := ac_draining a; ac_exited := ac_exited a;
     ac_status := ac_status a; ac_log := ac_log a |}.
Definition set_started (n : N) (hydrating : bool) (a : Actor) : Actor :=
  {| ac_actor := ac_actor a; ac_owner_epoch := ac_owner_epoch a; ac_admission := ac_admission a;
     ac_permitted := ac_permitted a; ac_database_stopped := ac_database_stopped a; ac_requests := ac_requests a;
     ac_open := ac_open a; ac_pending := ac_pending a; ac_running := ac_running a; ac_next_invocation := n;
     ac_blocked_on := Some n; ac_interleaved := ac_interleaved a; ac_hydrating := hydrating;
     ac_draining := ac_draining a; ac_exited := ac_exited a; ac_status := ac_status a; ac_log := ac_log a |}.
Definition set_interleaved (i : bool) (a : Actor) : Actor :=
  {| ac_actor := ac_actor a; ac_owner_epoch := ac_owner_epoch a; ac_admission := ac_admission a;
     ac_permitted := ac_permitted a; ac_database_stopped := ac_database_stopped a; ac_requests := ac_requests a;
     ac_open := ac_open a; ac_pending := ac_pending a; ac_running := ac_running a;
     ac_next_invocation := ac_next_invocation a; ac_blocked_on := ac_blocked_on a; ac_interleaved := i;
     ac_hydrating := ac_hydrating a; ac_draining := ac_draining a; ac_exited := ac_exited a;
     ac_status := ac_status a; ac_log := ac_log a |}.
Definition set_hydrated (a : Actor) : Actor :=
  {| ac_actor := ac_actor a; ac_owner_epoch := ac_owner_epoch a; ac_admission := ac_admission a;
     ac_permitted := ac_permitted a; ac_database_stopped := ac_database_stopped a; ac_requests := ac_requests a;
     ac_open := ac_open a; ac_pending := ac_pending a; ac_running := ac_running a;
     ac_next_invocation := ac_next_invocation a; ac_blocked_on := ac_blocked_on a;
     ac_interleaved := ac_interleaved a; ac_hydrating := false; ac_draining := ac_draining a;
     ac_exited := ac_exited a; ac_status := ac_status a; ac_log := ac_log a |}.
Definition set_draining (a : Actor) : Actor :=
  {| ac_actor := ac_actor a; ac_owner_epoch := ac_owner_epoch a; ac_admission := ac_admission a;
     ac_permitted := ac_permitted a; ac_database_stopped := ac_database_stopped a; ac_requests := ac_requests a;
     ac_open := ac_open a; ac_pending := ac_pending a; ac_running := ac_running a;
     ac_next_invocation := ac_next_invocation a; ac_blocked_on := ac_blocked_on a;
     ac_interleaved := ac_interleaved a; ac_hydrating := ac_hydrating a; ac_draining := true;
     ac_exited := ac_exited a; ac_status := ac_status a; ac_log := ac_log a |}.
Definition set_exited (a : Actor) : Actor :=
  {| ac_actor := ac_actor a; ac_owner_epoch := ac_owner_epoch a; ac_admission := ac_admission a;
     ac_permitted := ac_permitted a; ac_database_stopped := ac_database_stopped a; ac_requests := ac_requests a;
     ac_open := ac_open a; ac_pending := ac_pending a; ac_running := ac_running a;
     ac_next_invocation := ac_next_invocation a; ac_blocked_on := ac_blocked_on a;
     ac_interleaved := ac_interleaved a; ac_hydrating := ac_hydrating a; ac_draining := ac_draining a;
     ac_exited := true; ac_status := ac_status a; ac_log := ac_log a |}.
Definition set_status (s : ActorStatus) (a : Actor) : Actor :=
  {| ac_actor := ac_actor a; ac_owner_epoch := ac_owner_epoch a; ac_admission := ac_admission a;
     ac_permitted := ac_permitted a; ac_database_stopped := ac_database_stopped a; ac_requests := ac_requests a;
     ac_open := ac_open a; ac_pending := ac_pending a; ac_running := ac_running a;
     ac_next_invocation := ac_next_invocation a; ac_blocked_on := ac_blocked_on a;
     ac_interleaved := ac_interleaved a; ac_hydrating := ac_hydrating a; ac_draining := ac_draining a;
     ac_exited := ac_exited a; ac_status := s; ac_log := ac_log a |}.
Definition add_log (l : list LogEntry) (a : Actor) : Actor :=
  {| ac_actor := ac_actor a; ac_owner_epoch := ac_owner_epoch a; ac_admission := ac_admission a;
     ac_permitted := ac_permitted a; ac_database_stopped := ac_database_stopped a; ac_requests := ac_requests a;
     ac_open := ac_open a; ac_pending := ac_pending a; ac_running := ac_running a;
     ac_next_invocation := ac_next_invocation a; ac_blocked_on := ac_blocked_on a;
     ac_interleaved := ac_interleaved a; ac_hydrating := ac_hydrating a; ac_draining := ac_draining a;
     ac_exited := ac_exited a; ac_status := ac_status a; ac_log := ac_log a ++ l |}.

(** What the clocks and the generator of identifiers show during a step. *)
Record Moment := {
  m_now_ms : result N;
  m_instant : N;
  m_uuid : bytes;
}.

Definition record_activity (m : Moment) (a : Actor) : Actor :=
  match m_now_ms m with
  | Ok now => set_status {| phase := phase (ac_status a); idle_since := idle_since (ac_status a);
                            waiting_operations := waiting_operations (ac_status a); active_at_ms := Some now |} a
  | Err _ => a
  end.

Definition busy (a : Actor) : bool :=
  negb (bool_decide (ac_running a = [])) || negb (bool_decide (ac_pending a = [])).

(** [publish] *)
Definition publish_status (m : Moment) (a : Actor) : Actor :=
  set_status {| phase := if ac_draining a then Draining else Serving;
                idle_since := if busy a then None else Some (default (m_instant m) (idle_since (ac_status a)));
                waiting_operations := q_waiting <$> ac_pending a;
                active_at_ms := active_at_ms (ac_status a) |} a.

Definition finish (m : Moment) (r : ActorRequest) (res : result ActorExecutionResult) (calls : list answered)
    (a : Actor) : Actor :=
  add_log [Finished r res calls] (publish_status m (record_activity m a)).

Definition evict (graceful : bool) (a : Actor) : Actor := add_log [Evicted graceful (ac_owner_epoch a)] a.

(** [Drop]: what waits is answered, what runs is dropped. *)
Definition unavailable (r : ActorRequest) : LogEntry := Finished r (Ok HostUnavailable) [].

Definition request_of (m : ActorMessage) : option ActorRequest :=
  match m with RequestMessage r => Some r | DrainMessage => None end.

Definition exit_actor (a : Actor) : Actor :=
  let log := (unavailable <$> (q_request <$> ac_pending a)) ++ (unavailable <$> omap request_of (ac_requests a)) ++
             (Dropped <$> (rn_request <$> ac_running a)) in
  set_exited (add_log log (set_requests [] (set_queue [] (set_running []
    (set_status {| phase := Stopped; idle_since := idle_since (ac_status a); waiting_operations := [];
                   active_at_ms := active_at_ms (ac_status a) |} a))))).

Definition rejection (a : Actor) (o : ActorOperation) : option (result ActorExecutionResult) :=
  if ac_draining a && negb (is_disconnect o) then Some (Ok HostUnavailable)
  else match validate_invocation (operation_invocation o) with Err e => Some (Err e) | Ok _ => None end.

Definition receive (m : Moment) (r : ActorRequest) (a : Actor) : Actor :=
  match rejection a (rq_operation r) with
  | Some res => finish m r res [] a
  | None =>
      set_queue (ac_pending a ++
        [{| q_waiting := {| waiting_id := m_uuid m; operation := inv_method (operation_invocation (rq_operation r)) |};
            q_request := r |}]) a
  end.

Definition is_activation (o : ActorOperation) : bool :=
  match o with ActivateOperation _ _ => true | _ => false end.

Definition start (m : Moment) (r : ActorRequest) (a : Actor) : Actor :=
  let a := set_permitted false (record_activity m a) in
  let id := wrap_u64 (ac_next_invocation a + 1) in
  let a := set_started id (is_activation (rq_operation r)) a in
  add_log [Started id r] (set_running (ac_running a ++
    [{| rn_id := id; rn_request := r; rn_calls := []; rn_task := run_request id r |}]) a).

(** The loop over the queue [q], which is [ac_pending a]. *)
Fixpoint start_queued (m : Moment) (q : list Queued) (a : Actor) : Actor :=
  match ac_blocked_on a, q with
  | None, x :: q =>
      let a := set_queue q a in
      let r := q_request x in
      start_queued m q (match rejection a (rq_operation r) with
                        | Some res => finish m r res [] a
                        | None => start m r a
                        end)
  | _, _ => a
  end.

Definition start_ready (m : Moment) (a : Actor) : Actor := start_queued m (ac_pending a) a.

(** The head of the loop in [run], up to the [select!]. *)
Definition loop_head (m : Moment) (a : Actor) : Actor :=
  let a := start_ready m a in
  if ac_draining a && negb (busy a) then exit_actor (evict true a)
  else
    let a := publish_status m a in
    if negb (ac_open a) && bool_decide (ac_running a = []) then exit_actor a else a.

Definition expected_code (code : bytes) : bool :=
  bool_decide (code ∈ [b"actor_method_failed"; b"actor_socket_failed"; b"method_not_found"; b"method_not_callable"]).

Definition recovery (a : Actor) (c : Completion) : Recovery :=
  let unexpected := cp_executed c && ac_interleaved a && negb (cp_interleaved c) &&
                    negb (from_option expected_code false (cp_failure_code c)) in
  let interleaving_failed := cp_interleaved c && match cp_result c with Ok (Completed _ _) => false | _ => true end in
  if unexpected || interleaving_failed || ac_database_stopped a then Stop else cp_recovery c.

(** The task with the number [id] and the others. *)
Fixpoint take_running (id : N) (l : list Running) : option (Running * list Running) :=
  match l with
  | [] => None
  | x :: l => if rn_id x =? id then Some (x, l) else '(y, l) ← take_running id l; Some (y, x :: l)
  end.

(** A task has completed, and is no longer among those that run. *)
Definition executed (m : Moment) (calls : list answered) (c : Completion) (a : Actor) : Actor :=
  let r := recovery a c in
  let a := set_owner_epoch (rq_owner_epoch (cp_request c))
             (set_interleaved (ac_interleaved a || cp_interleaved c) (set_hydrated a)) in
  match r with
  | Stop => exit_actor (finish m (cp_request c) (Ok (Failed outcome_unknown_after_execution)) calls (evict false a))
  | _ =>
      let a := match r with
               | Evict => evict false a
               | Reset => add_log [DatabaseReset] (evict false a)
               | _ => a
               end in
      let a := if bool_decide (ac_blocked_on a = Some (cp_id c)) then set_blocked None a else a in
      loop_head m (finish m (cp_request c) (cp_result c) calls a)
  end.

(** ** Steps *)

Inductive event :=
(** A client sends to the channel; the last sender goes away. *)
| Sent (msg : ActorMessage)
| SendersGone
(** The environment answers what a running task asks. *)
| Answers (id : N) (answer : ∀ c, reply_of c)
| DatabaseStops
| ExecutorPermits
(** The branches of [select!]: a task completed, the database stopped, the executor
    permits the next invocation or is gone, a message was received. *)
| TaskCompleted (id : N)
| SeesStopped
| NextPermitted
| AdmissionClosed
| Received.

(** A running task is answered. *)
Definition advance_task (answer : ∀ c, reply_of c) (x : Running) : Running :=
  match rn_task x with
  | Return _ => x
  | Ask c k => {| rn_id := rn_id x; rn_request := rn_request x; rn_calls := rn_calls x ++ [existT c (answer c)];
                  rn_task := k (answer c) |}
  end.

(** A message that cannot be sent is answered at once, by [submit_traced]. *)
Definition send (msg : ActorMessage) (a : Actor) : Actor :=
  if ac_exited a || negb (ac_open a) then add_log (unavailable <$> option_list (request_of msg)) a
  else set_requests (ac_requests a ++ [msg]) a.

(** An event that cannot happen changes nothing. *)
Definition actor_step (m : Moment) (e : event) (a : Actor) : Actor :=
  if ac_exited a then match e with Sent msg => send msg a | _ => a end
  else
    match e with
    | Sent msg => send msg a
    | SendersGone => if bool_decide (ac_requests a = []) then loop_head m (set_closed a) else a
    | Answers id answer =>
        set_running ((λ x, if rn_id x =? id then advance_task answer x else x) <$> ac_running a) a
    | DatabaseStops => set_database_stopped a
    | ExecutorPermits => if ac_admission a then set_permitted true a else a
    | TaskCompleted id =>
        match take_running id (ac_running a) with
        | Some (x, rest) =>
            match rn_task x with
            | Return c => executed m (rn_calls x) c (set_running rest a)
            | Ask _ _ => a
            end
        | None => a
        end
    | SeesStopped => if ac_database_stopped a then exit_actor (evict false a) else a
    | NextPermitted =>
        if ac_permitted a && bool_decide (is_Some (ac_blocked_on a)) && negb (ac_hydrating a) then
          loop_head m (set_blocked None (set_interleaved true (set_permitted false a)))
        else a
    | AdmissionClosed =>
        if ac_admission a && bool_decide (is_Some (ac_blocked_on a)) && negb (ac_hydrating a) then exit_actor a else a
    | Received =>
        match ac_requests a with
        | RequestMessage r :: rest => loop_head m (receive m r (set_requests rest a))
        | DrainMessage :: rest => loop_head m (add_log [Drained] (set_draining (set_requests rest a)))
        | [] => a
        end
    end.

(** [ActorHost::new] *)
Definition actor_new (actor : ActorKey) (admission : bool) (now : N) : Actor :=
  {| ac_actor := actor; ac_owner_epoch := 0; ac_admission := admission; ac_permitted := false;
     ac_database_stopped := false; ac_requests := []; ac_open := true; ac_pending := []; ac_running := [];
     ac_next_invocation := 0; ac_blocked_on := None; ac_interleaved := false; ac_hydrating := false;
     ac_draining := false; ac_exited := false;
     ac_status := {| phase := Serving; idle_since := Some now; waiting_operations := []; active_at_ms := None |};
     ac_log := [] |}.

Definition actor_steps (es : list (Moment * event)) (a : Actor) : Actor :=
  foldl (λ a '(m, e), actor_step m e a) a es.

(** [submit_traced]: a client whose reply channel was dropped does not know. *)
Definition client_answer (a : Actor) (reply : N) : option (result ActorExecutionResult) :=
  head (omap (λ e, match e with
    | Finished r res _ => if rq_reply r =? reply then Some res else None
    | Dropped r => if rq_reply r =? reply then Some (Ok (Failed outcome_unknown_after_execution)) else None
    | _ => None
    end) (ac_log a)).
End mailbox.
#[global] Arguments Return {_ _}.
#[global] Arguments Ask {_ _}.
