(* ===== verification/ActorHostSafety.v ===== *)
(** * What the mailbox of an actor promises

    Of [ActorHost], for any sequence of events: every request is answered once, in
    the order of arrival and one at a time unless the executor permits more; an
    answer says completed only after the state was confirmed durable; while draining
    only disconnects are started. *)

From S2P Require Import Prelude Text Names StateLog Effects Lifecycle HostStorage Sqlite Capture Protocol ActorDatabase DatabaseService ActorHost.
Local Open Scope N_scope.

Section mailbox_safety.
Context `{JsonValue} `{!JsonOps} `{!Json Value} `{!StandardBase64}.
Abbreviation answered := {c : request_call & reply_of c}.
Implicit Types (a : Actor) (r : ActorRequest) (m : Moment).

(** ** Requests are answered once, and started in order *)

Definition log_reply (e : LogEntry) : option N :=
  match e with
  | Finished r _ _ | Dropped r => Some (rq_reply r)
  | _ => None
  end.

Definition started_reply (e : LogEntry) : option N :=
  match e with Started _ r => Some (rq_reply r) | _ => None end.

Definition queued_replies a : list N := (λ q, rq_reply (q_request q)) <$> ac_pending a.
Definition channel_replies a : list N := rq_reply <$> omap request_of (ac_requests a).
Definition running_replies a : list N := (λ x, rq_reply (rn_request x)) <$> ac_running a.

(** Every request that was sent, wherever it is. *)
Definition held_replies a : list N :=
  omap log_reply (ac_log a) ++ queued_replies a ++ running_replies a ++ channel_replies a.

Definition ordered_replies a : list N :=
  omap started_reply (ac_log a) ++ queued_replies a ++ channel_replies a.

Definition sent_replies (es : list (Moment * event)) : list N :=
  omap (λ x, match x.2 with Sent (RequestMessage r) => Some (rq_reply r) | _ => None end) es.

(** What a step may do: nothing is lost or answered twice, and nothing overtakes. *)
Definition accounts (new : list N) a a' : Prop :=
  held_replies a' ≡ₚ held_replies a ++ new ∧ sublist (ordered_replies a') (ordered_replies a ++ new).

Lemma accounts_refl a : accounts [] a a.
Proof. split; by rewrite app_nil_r. Qed.

Lemma accounts_trans new a1 a2 a3 : accounts [] a1 a2 → accounts new a2 a3 → accounts new a1 a3.
Proof.
  intros [P1 S1] [P2 S2]. rewrite app_nil_r in *. split; [by rewrite P2, P1|].
  etrans; [exact S2|]. by apply sublist_app.
Qed.

Lemma accounts_after new a1 a2 a3 : accounts new a1 a2 → accounts [] a2 a3 → accounts new a1 a3.
Proof.
  intros [P1 S1] [P2 S2]. rewrite app_nil_r in *. split; [by rewrite P2, P1|]. by etrans; [exact S2|].
Qed.

Lemma accounts_finish m r res calls a a' :
  held_replies a ≡ₚ rq_reply r :: held_replies a' → sublist (ordered_replies a') (ordered_replies a) →
  accounts [] a (finish m r res calls a').
Proof.
  intros Hh Ho. assert (ac_log (record_activity m a') = ac_log a' ∧ ac_pending (record_activity m a') = ac_pending a' ∧
    ac_running (record_activity m a') = ac_running a' ∧ ac_requests (record_activity m a') = ac_requests a') as (E1 & E2 & E3 & E4)
    by (unfold record_activity; by destruct (m_now_ms m)).
  unfold accounts. rewrite !app_nil_r. unfold held_replies, ordered_replies, queued_replies, running_replies, channel_replies in *.
  simpl. rewrite !omap_app, E1, E2, E3, E4. simpl. split.
  - rewrite Hh. rewrite <- !app_assoc. simpl. by rewrite <- Permutation_middle.
  - by rewrite app_nil_r.
Qed.

Lemma accounts_same a a' :
  omap log_reply (ac_log a') = omap log_reply (ac_log a) → omap started_reply (ac_log a') = omap started_reply (ac_log a) →
  ac_pending a' = ac_pending a → ac_running a' = ac_running a → ac_requests a' = ac_requests a → accounts [] a a'.
Proof.
  intros E1 E2 E3 E4 E5. unfold accounts, held_replies, ordered_replies, queued_replies, running_replies, channel_replies.
  by rewrite E1, E2, E3, E4, E5, !app_nil_r.
Qed.

Lemma accounts_evict graceful a : accounts [] a (evict graceful a).
Proof. apply accounts_same; simpl; rewrite ?omap_app; simpl; by rewrite ?app_nil_r. Qed.

Lemma accounts_publish m a : accounts [] a (publish_status m a).
Proof. by apply accounts_same. Qed.

Lemma accounts_exit a : accounts [] a (exit_actor a).
Proof.
  unfold accounts, held_replies, ordered_replies, queued_replies, running_replies, channel_replies. simpl.
  rewrite !app_nil_r, !omap_app.
  assert (∀ l : list ActorRequest, omap log_reply (unavailable <$> l) = rq_reply <$> l) as E1 by (by intros l; induction l as [|x l IH]; [|cbn; f_equal]).
  assert (∀ l : list ActorRequest, omap log_reply (Dropped <$> l) = rq_reply <$> l) as E2 by (by intros l; induction l as [|x l IH]; [|cbn; f_equal]).
  assert (∀ l : list ActorRequest, omap started_reply (unavailable <$> l) = []) as E3 by (by intros l; induction l).
  assert (∀ l : list ActorRequest, omap started_reply (Dropped <$> l) = []) as E4 by (by intros l; induction l).
  rewrite !E1, !E2, !E3, !E4, <- !list_fmap_compose. simpl. split.
  - do 2 apply Permutation_app_head. apply Permutation_app_comm.
  - rewrite app_nil_r. by apply sublist_inserts_r.
Qed.

Lemma started_same m a : ac_log (record_activity m a) = ac_log a ∧ ac_pending (record_activity m a) = ac_pending a ∧
  ac_running (record_activity m a) = ac_running a ∧ ac_requests (record_activity m a) = ac_requests a.
Proof. unfold record_activity. by destruct (m_now_ms m). Qed.

Lemma accounts_start m q r a :
  ac_pending a = q :: tail (ac_pending a) → q_request q = r →
  accounts [] a (start m r (set_queue (tail (ac_pending a)) a)).
Proof.
  intros Eq <-. destruct (started_same m (set_queue (tail (ac_pending a)) a)) as (E1 & E2 & E3 & E4).
  unfold accounts, held_replies, ordered_replies, queued_replies, running_replies, channel_replies.
  unfold start. simpl. rewrite E1, E2, E3, E4, !omap_app, fmap_app, Eq. simpl. rewrite !app_nil_r, <- !app_assoc. simpl.
  split; [|done]. by rewrite <- Permutation_middle, <- Permutation_middle.
Qed.

Lemma accounts_start_queued m q a : ac_pending a = q → accounts [] a (start_queued m q a).
Proof.
  revert a. induction q as [|x q IH]; intros a Eq; cbn [start_queued].
  { destruct (ac_blocked_on a); apply accounts_refl. }
  destruct (ac_blocked_on a); [apply accounts_refl|].
  destruct (rejection _ _) as [res|].
  - eapply accounts_trans; [|apply IH]; [apply accounts_finish|].
    + unfold held_replies, queued_replies, running_replies, channel_replies. simpl. rewrite Eq. simpl.
      by rewrite <- Permutation_middle.
    + unfold ordered_replies, queued_replies, channel_replies. simpl. rewrite Eq. simpl.
      apply sublist_app; [done|]. by apply sublist_cons.
    + simpl. by destruct (started_same m (set_queue q a)) as (_ & -> & _).
  - eapply accounts_trans; [|apply IH].
    + replace q with (tail (ac_pending a)) by by rewrite Eq. eapply accounts_start; [|done]. by rewrite Eq.
    + unfold start. simpl. by destruct (started_same m (set_queue q a)) as (_ & -> & _).
Qed.

Lemma accounts_head m a : accounts [] a (loop_head m a).
Proof.
  unfold loop_head. eapply accounts_trans; [by apply (accounts_start_queued m (ac_pending a))|]. fold (start_ready m a).
  destruct (_ && _); [eapply accounts_trans; [apply accounts_evict|apply accounts_exit]|].
  destruct (_ && _); [eapply accounts_trans; [apply accounts_publish|apply accounts_exit]|apply accounts_publish].
Qed.

Lemma accounts_receive m r rest a :
  ac_requests a = RequestMessage r :: rest → accounts [] a (receive m r (set_requests rest a)).
Proof.
  intros Er. unfold receive. destruct (rejection _ _) as [res|].
  - apply accounts_finish.
    + unfold held_replies, queued_replies, running_replies, channel_replies. simpl. rewrite Er. simpl.
      by rewrite <- !Permutation_middle.
    + unfold ordered_replies, queued_replies, channel_replies. simpl. rewrite Er. simpl.
      do 2 (apply sublist_app; [done|]). by apply sublist_cons.
  - unfold accounts, held_replies, ordered_replies, queued_replies, running_replies, channel_replies. simpl.
    rewrite Er, fmap_app. simpl. rewrite !app_nil_r, <- !app_assoc. split; [|done].
    simpl. by rewrite <- !Permutation_middle.
Qed.

Lemma take_running_spec id rs x rest :
  take_running id rs = Some (x, rest) → rn_id x = id ∧ rs ≡ₚ x :: rest.
Proof.
  revert rest. induction rs as [|y rs IH]; intros rest; simpl; [done|]. destruct (N.eqb_spec (rn_id y) id).
  - by intros [= -> ->].
  - destruct (take_running id rs) as [[z rs']|]; [|done]. intros [= -> <-]. destruct (IH _ eq_refl) as [? ->].
    split; [done|]. apply Permutation_swap.
Qed.

(** ** What a request asks, and in which order *)

Section foretold.
Context {A : Type} (I : list answered → Prop).

(** [I] holds of the calls at every point, and [P] of the calls and the result at
    the end. *)
Fixpoint foretold (P : list answered → A → Prop) (l : list answered) (t : request_task A) : Prop :=
  I l ∧ match t with
        | Return y => P l y
        | Ask c k => ∀ x, foretold P (l ++ [existT c x]) (k x)
        end.

Lemma foretold_mono (P P' : list answered → A → Prop) l t :
  foretold P l t → (∀ l x, I l → P l x → P' l x) → foretold P' l t.
Proof. intros Ht HP. revert l Ht. induction t as [y|c k IH]; simpl; intros l [? ?]; split; auto. Qed.
End foretold.

Lemma foretold_bind {A B} I (P : list answered → B → Prop) l (t : request_task A) (f : A → request_task B) :
  foretold I (λ l y, foretold I P l (f y)) l t → foretold I P l (t ≫= f).
Proof. revert l. induction t as [y|c k IH]; simpl; intros l [HI Ht]; [done|]. split; [done|]. intros x. by apply IH. Qed.

Definition is_execution (c : request_call) : bool :=
  match c with CallInvoke _ _ | CallSocket _ _ => true | _ => false end.

Definition effect_version (e : ActorSocketEffect) : option N :=
  match e with StateSnapshotEffect _ _ v | StateUpdate _ _ _ v => v | _ => None end.

(** The state of the request was confirmed durable as [version]. *)
Definition confirmed_durable (l : list answered) (v : Value) (version : N) : Prop :=
  (∃ scope sequence, existT (CallComplete scope v sequence) (Ok version) ∈ l) ∧ existT CallAuthority (Ok ()) ∈ l.

(** What a request may ask after the calls [l]: code of the actor runs once, and only
    if the database says so; state goes to sockets only after it is durable, under
    the version it has. *)
Definition allowed (l : list answered) (c : request_call) : Prop :=
  match c with
  | CallInvoke _ _ | CallSocket _ _ =>
      (∃ scope replayed, existT (CallPrepare scope replayed) (Ok Execute) ∈ l) ∧
      Forall (λ x, is_execution (projT1 x) = false) l
  | CallPublish effects =>
      ∃ v version, confirmed_durable l v version ∧ Forall (λ e, effect_version e = Some version) effects
  | _ => True
  end.

Definition calls_ok (l : list answered) : Prop := ∀ l1 x l2, l = l1 ++ x :: l2 → allowed l1 (projT1 x).

Lemma calls_ok_nil : calls_ok [].
Proof. by intros [] ? ?. Qed.

Lemma calls_ok_snoc l x : calls_ok l → allowed l (projT1 x) → calls_ok (l ++ [x]).
Proof.
  intros Hl Hx l1 y l2 E. destruct l2 as [|z l2 _] using rev_ind.
  - apply app_inj_tail in E as [-> ->]. done.
  - rewrite app_comm_cons, app_assoc in E. apply app_inj_tail in E as [-> _]. by eapply Hl.
Qed.

Lemma foretold_call {B} (P : list answered → B → Prop) l c (f : reply_of c → request_task B) :
  calls_ok l → allowed l c → (∀ x, calls_ok (l ++ [existT c x]) → foretold calls_ok P (l ++ [existT c x]) (f x)) →
  foretold calls_ok P l (ask c ≫= f).
Proof. intros Hl Hc Hf. split; [done|]. intros x. by apply Hf, calls_ok_snoc. Qed.

Lemma foretold_last (P : ∀ c, list answered → reply_of c → Prop) l c :
  calls_ok l → allowed l c → (∀ x, P c (l ++ [existT c x]) x) → foretold calls_ok (P c) l (ask c).
Proof. intros Hl Hc HP. split; [done|]. intros x. split; [by apply calls_ok_snoc|apply HP]. Qed.

Lemma foretold_ret {B} (P : list answered → B → Prop) l b : calls_ok l → P l b → foretold calls_ok P l (mret b).
Proof. by split. Qed.

Ltac asks := apply foretold_call; [assumption|exact I|intros ? ?].

(** Why a request was answered with a result. *)
Definition justified (l : list answered) (v : Value) (effects : list ActorSocketEffect) : Prop :=
  (v = value_null ∧ effects = [] ∧
     ∃ reply activation, existT (CallReply reply (Ok activation)) () ∈ l) ∨
  (∃ scope replayed, existT (CallPrepare scope replayed) (Ok (InvocationCompleted (Completed v effects))) ∈ l) ∨
  (∃ version, confirmed_durable l v version).

Lemma foretold_state version v effects scope sequence l :
  calls_ok l → existT (CallComplete scope v sequence) (Ok version) ∈ l →
  foretold calls_ok (λ l' x, x ≠ Ok HostUnavailable ∧
      ∀ v' effects', x = Ok (Completed v' effects') → v' = v ∧ confirmed_durable l' v version)
    l (complete_with_state version v effects).
Proof.
  intros Hl Hin. unfold complete_with_state. asks. rename x into authority.
  assert (existT (CallComplete scope v sequence) (Ok version) ∈ l ++ [existT CallAuthority authority]) as Hin'
    by (apply elem_of_app; by left).
  destruct authority as [[]|e]; [|by apply foretold_ret].
  assert (confirmed_durable (l ++ [existT CallAuthority (Ok ())]) v version) as Hd.
  { split; [by eexists _, _|]. apply elem_of_app. right. by apply list_elem_of_singleton. }
  apply foretold_bind. destruct (set_version version <$> List.filter is_automatic effects) as [|e es] eqn:Ee.
  { apply foretold_ret; [done|]. apply foretold_ret; [done|]. split; [done|]. by intros v' effects' [= <- _]. }
  apply (foretold_last (λ _ l' _, foretold calls_ok _ l' _)); [done| |].
  - exists v, version. split; [done|]. rewrite <- Ee. apply Forall_fmap, List.Forall_forall.
    intros x [_ Hx]%List.filter_In. by destruct x.
  - intros u. apply foretold_ret; [apply calls_ok_snoc; [done|]|].
    + exists v, version. split; [done|]. rewrite <- Ee. apply Forall_fmap, List.Forall_forall.
      intros x [_ Hx]%List.filter_In. by destruct x.
    + split; [done|]. intros v' effects' [= <- _]. split; [done|]. destruct Hd as [(sc & sq & Hc) Ha].
      split; [exists sc, sq|]; apply elem_of_app; by left.
Qed.

Lemma foretold_commit outcome scope l :
  calls_ok l →
  foretold calls_ok (λ l' x, x.1 ≠ Ok HostUnavailable ∧
      ∀ v effects, x.1 = Ok (Completed v effects) → ∃ version, confirmed_durable l' v version)
    l (commit_outcome outcome scope).
Proof.
  intros Hl. assert (∀ v effects sequence, foretold calls_ok
    (λ l' x, x.1 ≠ Ok HostUnavailable ∧
      ∀ v effects, x.1 = Ok (Completed v effects) → ∃ version, confirmed_durable l' v version) l
    (match validate_socket_effects effects with
     | Err e => mret (Ok (failed (b"actor_error") ("actor returned invalid socket effects: " ++ e)%string), Reset)
     | Ok _ =>
         version ← ask (CallComplete scope v sequence);
         match version with
         | Ok version => r ← complete_with_state version v effects; mret (r, Keep)
         | Err e =>
             if bool_decide (e = PublicationError) || bool_decide (is_Some sequence) then
               mret (Ok (Failed outcome_unknown_after_execution), Evict)
             else mret (Err e, Keep)
         end
     end)) as Hdone.
  { intros v effects sequence. destruct (validate_socket_effects effects) as [u|e]; [|by apply foretold_ret].
    asks. rename x into version. destruct version as [version|e].
    - apply foretold_bind. eapply foretold_mono; [apply (foretold_state version v effects scope sequence); [done|]|].
      { apply elem_of_app. right. by apply list_elem_of_singleton. }
      intros l' x Hl' [Hu Hx]. apply foretold_ret; [done|]. split; [done|]. intros v' effects' E. destruct (Hx _ _ E) as [-> Hd]. by exists version.
    - destruct (_ || _); by apply foretold_ret. }
  unfold commit_outcome. destruct outcome as [[o|v effects|failure]|e]; [apply Hdone..| |]; by apply foretold_ret.
Qed.

Lemma foretold_execute (o : ActorOperation) scope l :
  calls_ok l → (∃ scope replayed, existT (CallPrepare scope replayed) (Ok Execute) ∈ l) →
  Forall (λ x, is_execution (projT1 x) = false) l → foretold calls_ok (λ l' _, calls_ok l') l (execute o scope).
Proof.
  intros Hl Hp Hn. destruct o as [actor reply|inv|inv]; cbn [execute].
  - by apply foretold_ret.
  - apply (foretold_last (λ _ l' _, calls_ok l')); [done|done|]. intros x. by apply calls_ok_snoc.
  - apply foretold_call; [done|done|]. intros x Hx. by apply foretold_ret.
Qed.

(** No code of the actor ran. *)
Definition unexecuted (l : list answered) : Prop := Forall (λ x, is_execution (projT1 x) = false) l.

(** What a request comes to. *)
Definition carried_out (id : N) r (l : list answered) (c : Completion) : Prop :=
  cp_id c = id ∧ rq_reply (cp_request c) = rq_reply r ∧ (cp_result c = Ok HostUnavailable → unexecuted l) ∧
  ∀ v effects, cp_result c = Ok (Completed v effects) → cp_recovery c = Stop ∨ justified l v effects.

Lemma foretold_activation id r actor reply :
  foretold calls_ok (carried_out id r) [] (run_activation id r actor reply).
Proof.
  assert (calls_ok []) as Hnil by apply calls_ok_nil. unfold run_activation. apply foretold_bind.
  apply (foretold_mono _ (λ _ _, True)).
  - unfold activate. asks. destruct x; [|by apply foretold_ret]. asks. rename x into prepared.
    destruct prepared as [[a|a]|e]; [by apply foretold_ret| |by apply foretold_ret]. do 3 asks.
    by apply (foretold_last (λ _ _ _, True)).
  - intros l activation Hl _. asks. apply foretold_ret; [done|]. split_and!; [done..|].
    intros v effects [= <- <-]. destruct activation as [a|e]; [right|by left]. left.
    split_and!; [done..|]. exists reply, a. apply elem_of_app. right. destruct x. by apply list_elem_of_singleton.
Qed.

Lemma foretold_invocation id r : foretold calls_ok (carried_out id r) [] (run_invocation id r).
Proof.
  assert (calls_ok []) as Hnil by apply calls_ok_nil. unfold run_invocation. do 2 asks. rename x0 into prepared.
  destruct prepared as [[|res]|e].
  - apply foretold_bind. eapply foretold_mono; [apply foretold_execute; [done| |]|].
    + eexists _, _. simpl. apply elem_of_cons. right. by apply list_elem_of_singleton.
    + by repeat constructor.
    + intros l outcome Hl _. asks. apply foretold_bind. eapply foretold_mono; [by apply foretold_commit|].
      intros l' [res recovery] Hl' [Hu Hx]. asks. apply foretold_ret; [done|]. split_and!; [done..|].
      intros v effects E. right. right. right. destruct (Hx _ _ E) as (version & (sc & sq & Hc) & Ha). exists version.
      split; [exists sc, sq|]; apply elem_of_app; by left.
  - asks. apply foretold_ret; [done|]. split_and!; [done..|by repeat constructor|]. simpl. intros v effects [= ->]. right. right. left.
    eexists _, _. simpl. apply elem_of_cons. right. apply elem_of_cons. by left.
  - asks. apply foretold_ret; [done|]. by split_and!.
Qed.

Lemma foretold_request id r : foretold calls_ok (carried_out id r) [] (run_request id r).
Proof.
  unfold run_request. destruct (rq_operation r); [apply foretold_activation|apply foretold_invocation..].
Qed.

(** ** The invariant of the mailbox *)

Definition task_ok (x : Running) : Prop :=
  foretold calls_ok (carried_out (rn_id x) (rn_request x)) (rn_calls x) (rn_task x).

Definition entry_ok (e : LogEntry) : Prop :=
  match e with
  | Finished _ res l => calls_ok l ∧ (res = Ok HostUnavailable → unexecuted l) ∧ ∀ v effects, res = Ok (Completed v effects) → justified l v effects
  | _ => True
  end.

Definition tasks_ok a : Prop := Forall task_ok (ac_running a) ∧ Forall entry_ok (ac_log a).

Ltac by_fields := unfold finish, publish_status, record_activity; by destruct (m_now_ms _).

Lemma finish_running m r res l a : ac_running (finish m r res l a) = ac_running a.
Proof. by_fields. Qed.

Lemma finish_log m r res l a : ac_log (finish m r res l a) = ac_log a ++ [Finished r res l].
Proof. by_fields. Qed.

Lemma tasks_finish m r res l a : entry_ok (Finished r res l) → tasks_ok a → tasks_ok (finish m r res l a).
Proof.
  intros He [Ht Hl]. split; [by rewrite finish_running|]. rewrite finish_log. apply Forall_app. by split; [|constructor].
Qed.

Lemma tasks_evict graceful a : tasks_ok a → tasks_ok (evict graceful a).
Proof. intros [Ht Hl]. split; [done|]. apply Forall_app. by split; [|repeat constructor]. Qed.

Lemma entry_unavailable r : entry_ok (unavailable r).
Proof. split_and!; [apply calls_ok_nil|by constructor|done]. Qed.

Lemma tasks_exit a : tasks_ok a → tasks_ok (exit_actor a).
Proof.
  intros [Ht Hl]. split; [constructor|]. simpl. rewrite !Forall_app. split_and!; [done|..]; apply Forall_fmap, Forall_true;
    intros; [apply entry_unavailable..|done].
Qed.

Lemma tasks_start m r a : tasks_ok a → tasks_ok (start m r a).
Proof.
  intros [Ht Hl]. unfold tasks_ok, start. simpl. destruct (started_same m a) as (-> & _ & -> & _). rewrite !Forall_app.
  split_and!; [done| |done|by repeat constructor]. repeat constructor. apply foretold_request.
Qed.

Lemma entry_rejected a (o : ActorOperation) r res : rejection a o = Some res → entry_ok (Finished r res []).
Proof.
  intros Hr. split_and!; [apply calls_ok_nil|by constructor|]. intros v effects ->. unfold rejection in Hr. by repeat case_match.
Qed.

Lemma tasks_start_queued m q a : tasks_ok a → tasks_ok (start_queued m q a).
Proof.
  revert a. induction q as [|x q IH]; intros a Ha; simpl; [by case_match|]. case_match; [done|]. apply IH.
  destruct (rejection _ _) as [res|] eqn:Er; [|by apply tasks_start]. apply tasks_finish; [by eapply entry_rejected|done].
Qed.

Lemma tasks_head m a : tasks_ok a → tasks_ok (loop_head m a).
Proof.
  intros Ha. unfold loop_head. pose proof (tasks_start_queued m (ac_pending a) a Ha) as Hs. fold (start_ready m a) in Hs.
  destruct (_ && _); [by apply tasks_exit, tasks_evict|]. destruct (_ && _); [by apply tasks_exit|done].
Qed.

Lemma task_done x c : task_ok x → rn_task x = Return c → calls_ok (rn_calls x) ∧ carried_out (rn_id x) (rn_request x) (rn_calls x) c.
Proof. unfold task_ok. intros Hx E. by rewrite E in Hx. Qed.

Lemma tasks_executed m x c a :
  task_ok x → rn_task x = Return c → tasks_ok a → tasks_ok (executed m (rn_calls x) c a).
Proof.
  intros Hx Ec Ha. destruct (task_done _ _ Hx Ec) as (Hl & _ & _ & Hu & Hc). unfold executed.
  set (a1 := set_owner_epoch _ _). assert (tasks_ok a1) as Ha1 by done.
  assert (∀ v effects, recovery a c ≠ Stop → cp_result c = Ok (Completed v effects) → justified (rn_calls x) v effects) as Hj.
  { intros v effects Hr E. destruct (Hc _ _ E) as [Hs|?]; [|done]. destruct Hr. unfold recovery. by case_match. }
  assert (∀ a2, tasks_ok a2 → recovery a c ≠ Stop →
    tasks_ok (loop_head m (finish m (cp_request c) (cp_result c) (rn_calls x)
      (if bool_decide (ac_blocked_on a2 = Some (cp_id c)) then set_blocked None a2 else a2)))) as Hgo.
  { intros a2 Ha2 Hr. apply tasks_head, tasks_finish; [split; [done|eauto]|by case_match]. }
  destruct (recovery a c) eqn:Er.
  - by apply Hgo.
  - apply Hgo; [by apply tasks_evict|done].
  - apply Hgo; [|done]. destruct (tasks_evict false a1 Ha1) as [Ht Hlog]. split; [done|]. apply Forall_app.
    by split; [|repeat constructor].
  - apply tasks_exit, tasks_finish; [by split|]. by apply tasks_evict.
Qed.

Lemma task_advance answer x : task_ok x → task_ok (advance_task answer x).
Proof.
  unfold task_ok, advance_task. intros Hx. destruct (rn_task x) as [c|c k] eqn:E; [by rewrite E|]. simpl.
  by destruct Hx as [_ Hk].
Qed.

Lemma tasks_step m e a : tasks_ok a → tasks_ok (actor_step m e a).
Proof.
  intros [Ht Hl]. assert (tasks_ok a) as Ha by done. unfold actor_step.
  assert (∀ msg, tasks_ok (send msg a)) as Hsend.
  { intros msg. unfold send. case_match; [|done]. split; [done|]. simpl. apply Forall_app. split; [done|].
    apply Forall_fmap, Forall_true. apply entry_unavailable. }
  destruct (ac_exited a); [by destruct e|]. destruct e as [msg| |id answer| | |id| | | |].
  - done.
  - case_match; [by apply tasks_head|done].
  - split; [|done]. simpl. apply Forall_fmap. eapply Forall_impl; [exact Ht|]. simpl. intros x Hx.
    destruct (rn_id x =? id); [by apply task_advance|done].
  - done.
  - by case_match.
  - destruct (take_running id (ac_running a)) as [[x rest]|] eqn:Ex; [|done].
    destruct (take_running_spec _ _ _ _ Ex) as [_ Hp]. rewrite Hp in Ht. apply Forall_cons in Ht as [Hx Hrest].
    destruct (rn_task x) as [c|] eqn:Ec; [|done]. by apply tasks_executed.
  - case_match; [by apply tasks_exit, tasks_evict|done].
  - case_match; [by apply tasks_head|done].
  - case_match; [by apply tasks_exit|done].
  - destruct (ac_requests a) as [|[r|] rest]; [done| |].
    + apply tasks_head. unfold receive. destruct (rejection _ _) as [res|] eqn:Er; [|done].
      apply tasks_finish; [by eapply entry_rejected|done].
    + apply tasks_head. split; [done|]. simpl. apply Forall_app. by split; [|repeat constructor].
Qed.

Lemma tasks_steps es a : tasks_ok a → tasks_ok (actor_steps es a).
Proof.
  revert a. induction es as [|[m e] es IH]; intros a Ha; [done|]. apply IH. by apply tasks_step.
Qed.

Lemma tasks_new actor admission now : tasks_ok (actor_new actor admission now).
Proof. split; constructor. Qed.

(** ** Nothing is lost *)

Lemma accounts_executed m x c rest a :
  task_ok x → rn_task x = Return c → ac_running a ≡ₚ x :: rest →
  accounts [] a (executed m (rn_calls x) c (set_running rest a)).
Proof.
  intros Hx Ec Hp. destruct (task_done _ _ Hx Ec) as (_ & _ & Hr & _).
  assert (∀ res a', omap log_reply (ac_log a') = omap log_reply (ac_log a) →
    omap started_reply (ac_log a') = omap started_reply (ac_log a) → ac_pending a' = ac_pending a →
    ac_running a' = rest → ac_requests a' = ac_requests a →
    accounts [] a (finish m (cp_request c) res (rn_calls x) a')) as Hf.
  { intros res a' E1 E2 E3 E4 E5. apply accounts_finish.
    - unfold held_replies, queued_replies, running_replies, channel_replies. rewrite E1, E3, E4, E5, Hp, Hr. simpl.
      by rewrite <- !Permutation_middle.
    - unfold ordered_replies, queued_replies, channel_replies. by rewrite E2, E3, E5. }
  unfold executed. destruct (recovery _ _);
    [eapply accounts_trans; [apply Hf|apply accounts_head]..|eapply accounts_trans; [apply Hf|apply accounts_exit]];
    try case_match; simpl; rewrite ?omap_app; simpl; by rewrite ?app_nil_r, ?omap_app, ?app_nil_r.
Qed.

Lemma accounts_send msg m a : accounts (sent_replies [(m, Sent msg)]) a (send msg a).
Proof.
  unfold accounts, send, sent_replies, held_replies, ordered_replies, queued_replies, running_replies, channel_replies.
  destruct (_ || _); simpl; rewrite ?omap_app; destruct msg as [r|]; simpl; rewrite ?fmap_app, ?app_nil_r;
    rewrite <- ?app_assoc; simpl; split; try done.
  - apply Permutation_app_head. rewrite Permutation_cons_append. by rewrite <- !app_assoc.
  - do 2 (apply sublist_app; [done|]). by apply sublist_inserts_r.
Qed.

Lemma accounts_step m e a : tasks_ok a → accounts (sent_replies [(m, e)]) a (actor_step m e a).
Proof.
  intros [Ht _]. pose proof (accounts_refl a) as Hsame. unfold actor_step.
  destruct (ac_exited a); [destruct e; try done; apply accounts_send|].
  destruct e as [msg| |id answer| | |id| | | |]; [apply accounts_send|..]; change (sent_replies [(m, _)]) with (@nil N).
  - case_match; [|done]. eapply accounts_trans; [|apply accounts_head]. by apply accounts_same.
  - unfold accounts, held_replies, ordered_replies, queued_replies, running_replies, channel_replies. simpl.
    rewrite <- list_fmap_compose, !app_nil_r. split; [|done]. do 2 apply Permutation_app_head. apply Permutation_app_tail.
    match goal with |- ?x ≡ₚ ?y => assert (x = y) as ->; [|done] end. apply list_fmap_ext. intros i x _. simpl.
    destruct (rn_id x =? id); [|done]. unfold advance_task. by destruct (rn_task x).
  - by apply accounts_same.
  - case_match; [by apply accounts_same|done].
  - destruct (take_running id (ac_running a)) as [[x rest]|] eqn:Ex; [|done].
    destruct (take_running_spec _ _ _ _ Ex) as [_ Hp]. rewrite Hp in Ht. apply Forall_cons in Ht as [Hx _].
    destruct (rn_task x) as [c|] eqn:Ec; [|done]. by apply accounts_executed.
  - case_match; [|done]. eapply accounts_trans; [apply accounts_evict|apply accounts_exit].
  - case_match; [|done]. eapply accounts_trans; [|apply accounts_head]. by apply accounts_same.
  - case_match; [apply accounts_exit|done].
  - destruct (ac_requests a) as [|[r|] rest] eqn:Er; [done| |].
    + eapply accounts_trans; [by apply accounts_receive|apply accounts_head].
    + eapply accounts_trans; [|apply accounts_head].
      unfold accounts, held_replies, ordered_replies, queued_replies, running_replies, channel_replies. simpl.
      rewrite !omap_app, Er. simpl. by rewrite !app_nil_r.
Qed.

Lemma accounts_steps es a : tasks_ok a → accounts (sent_replies es) a (actor_steps es a).
Proof.
  revert a. induction es as [|[m e] es IH]; intros a Ha; [apply accounts_refl|].
  pose proof (accounts_step m e a Ha) as [H1' S1]. destruct (IH _ (tasks_step m e a Ha)) as [H2' S2].
  assert (sent_replies ((m, e) :: es) = sent_replies [(m, e)] ++ sent_replies es) as ->
    by (unfold sent_replies; change ((m, e) :: es) with ([(m, e)] ++ es); by rewrite omap_app).
  simpl. split; [by rewrite H2', H1', app_assoc|]. etrans; [exact S2|]. rewrite app_assoc. by apply sublist_app.
Qed.

(** ** The queue moves *)

(** [n] permissions were used; the invocation that blocks the queue runs. *)
Record turning (n : nat) a : Prop := {
  tn_running : ac_exited a = false;
  tn_blocked id : ac_blocked_on a = Some id → ∃ x, x ∈ ac_running a ∧ rn_id x = id;
  tn_count : (length (ac_running a) ≤ n + if ac_blocked_on a then 1 else 0)%nat;
  tn_permitted : ac_admission a = false → ac_permitted a = false ∧ n = 0%nat;
}.

(** Between events. *)
Record resting (n : nat) a : Prop := {
  rs_exited : ac_exited a = true → ac_pending a = [] ∧ ac_running a = [] ∧ ac_requests a = [];
  rs_turning : ac_exited a = false → turning n a;
  rs_idle : ac_exited a = false → ac_blocked_on a = None → ac_pending a = [];
  rs_ends : ac_exited a = false → ac_draining a = true ∨ ac_open a = false → ac_running a ≠ [];
}.

Lemma turning_same n a a' :
  turning n a → ac_exited a' = ac_exited a → ac_blocked_on a' = ac_blocked_on a → ac_running a' = ac_running a →
  ac_admission a' = ac_admission a → ac_permitted a' = ac_permitted a → turning n a'.
Proof. intros [T1 T2 T3 T4] E1 E2 E3 E4 E5. split; rewrite ?E1, ?E2, ?E3, ?E4, ?E5; done. Qed.

Ltac same_turning :=
  eapply turning_same; [eassumption|..]; unfold finish, publish_status, record_activity; try done; by destruct (m_now_ms _).

Lemma turning_finish n m r res l a : turning n a → turning n (finish m r res l a).
Proof. intros. same_turning. Qed.

Lemma turning_start n m r a : ac_blocked_on a = None → turning n a → turning n (start m r a).
Proof.
  intros Eb [T1 T2 T3 T4]. rewrite Eb in T3. destruct (started_same m a) as (_ & _ & E & _).
  assert (ac_exited (record_activity m a) = ac_exited a ∧ ac_admission (record_activity m a) = ac_admission a) as [E1 E2]
    by (unfold record_activity; by destruct (m_now_ms m)).
  unfold start. split; simpl; rewrite ?E, ?E1, ?E2; [done| | |].
  - intros id [= <-]. eexists. split; [apply elem_of_app; right; by apply list_elem_of_singleton|done].
  - rewrite length_app. simpl. lia.
  - intros Ea. split; [done|]. by apply T4.
Qed.

Lemma turning_start_queued n m q a :
  ac_pending a = q → turning n a →
  let a' := start_queued m q a in turning n a' ∧ (ac_blocked_on a' = None → ac_pending a' = []).
Proof.
  revert a. induction q as [|x q IH]; intros a Eq Ha; cbn [start_queued].
  { destruct (ac_blocked_on a) eqn:Eb; (split; [done|]); [congruence|done]. }
  destruct (ac_blocked_on a) eqn:Eb; [split; [done|congruence]|].
  assert (turning n (set_queue q a)) as Hq by same_turning.
  destruct (rejection _ _) as [res|]; apply IH.
  - simpl. by destruct (started_same m (set_queue q a)) as (_ & -> & _).
  - by apply turning_finish.
  - unfold start. simpl. by destruct (started_same m (set_queue q a)) as (_ & -> & _).
  - by apply turning_start.
Qed.

Lemma resting_exit n a : resting n (exit_actor a).
Proof. by split. Qed.

Lemma busy_false a : busy a = false ↔ ac_running a = [] ∧ ac_pending a = [].
Proof. unfold busy. rewrite orb_false_iff, !negb_false_iff, !bool_decide_eq_true. done. Qed.

Lemma resting_head n m a : turning n a → resting n (loop_head m a).
Proof.
  intros Ha. unfold loop_head. destruct (turning_start_queued n m (ac_pending a) a eq_refl Ha) as [Hs Hidle].
  fold (start_ready m a) in *. destruct (_ && _) eqn:Ed; [apply resting_exit|].
  destruct (negb _ && _) eqn:Eo; [apply resting_exit|]. cbn [publish_status set_status ac_running ac_open] in Eo. split; simpl.
  - destruct Hs as [-> _ _ _]. done.
  - intros _. same_turning.
  - intros _. exact Hidle.
  - intros _ Hend Er. rewrite Er, bool_decide_true, andb_true_r in Eo by done. apply negb_false_iff in Eo.
    destruct Hend as [Hd|Hd]; [|simpl in Eo; congruence].
    assert (ac_blocked_on (start_ready m a) = None) as Hb.
    { destruct (ac_blocked_on _) as [id|] eqn:Eb; [|done]. destruct (tn_blocked _ _ Hs id Eb) as (x & Hx & _).
      rewrite Er in Hx. by apply elem_of_nil in Hx. }
    rewrite Hd in Ed. simpl in Ed. apply negb_false_iff in Ed. unfold busy in Ed.
    rewrite Er, (Hidle Hb) in Ed. by rewrite !bool_decide_true in Ed.
Qed.

Lemma resting_executed n m x c rest a :
  turning n a → task_ok x → rn_task x = Return c → ac_running a ≡ₚ x :: rest →
  resting n (executed m (rn_calls x) c (set_running rest a)).
Proof.
  intros [T1 T2 T3 T4] Hx Ec Hp. destruct (task_done _ _ Hx Ec) as (_ & Hid & _).
  assert (∀ a', ac_exited a' = false → ac_blocked_on a' = ac_blocked_on a → ac_running a' = rest →
    ac_admission a' = ac_admission a → ac_permitted a' = ac_permitted a →
    turning n (if bool_decide (ac_blocked_on a' = Some (cp_id c)) then set_blocked None a' else a')) as Hgo.
  { intros a' E1 E2 E3 E4 E5. apply Permutation_length in Hp as Hlen. simpl in Hlen.
    case_bool_decide as Eb; split; simpl; rewrite ?E1, ?E2, ?E3, ?E4, ?E5; try done.
    - rewrite E2 in Eb. rewrite Eb in T3. lia.
    - intros id Hb. destruct (T2 id Hb) as (y & Hy & Hyid). exists y. split; [|done]. rewrite Hp in Hy.
      apply elem_of_cons in Hy as [->|Hy]; [|done]. exfalso. apply Eb. rewrite E2. congruence.
    - destruct (ac_blocked_on a); lia. }
  unfold executed. destruct (recovery _ _); [apply resting_head, turning_finish..|apply resting_exit]; by apply Hgo.
Qed.

(** How often the executor allowed the next invocation. *)
Definition permissions (es : list (Moment * event)) : nat :=
  length (omap (λ x, match x.2 with NextPermitted => Some () | _ => None end) es).

Lemma resting_step n m e a :
  tasks_ok a → resting n a → ∃ n', resting n' (actor_step m e a) ∧ (n' ≤ n + permissions [(m, e)])%nat.
Proof.
  intros [Ht _] Ha. unfold actor_step. destruct (ac_exited a) eqn:Ee.
  { exists n. split; [|lia]. destruct e; try done. unfold send. rewrite Ee. simpl. destruct Ha as [R1 _ _ _].
    split; simpl; [|congruence..]. intros _. by apply R1. }
  destruct Ha as [_ R2 R3 R4]. specialize (R2 Ee). specialize (R3 Ee). specialize (R4 Ee).
  assert (resting n a) as Ha by (split; [congruence|done..]). pose proof R2 as [T1 T2 T3 T4].
  destruct e as [msg| |id answer| | |id| | | |].
  1: exists n; split; [|lia]; unfold send; destruct (_ || _);
       split; simpl; [congruence|intros _; same_turning|done|done|congruence|intros _; same_turning|done|done].
  - exists n. split; [|lia]. destruct (bool_decide _); [|done]. apply resting_head. same_turning.
  - exists n. split; [|lia]. split; simpl; [congruence| |done|].
    + intros _. split; simpl; [done| |by rewrite length_fmap|done]. intros i Hi. destruct (T2 i Hi) as (x & Hx & <-).
      eexists. split; [by apply list_elem_of_fmap; eexists|]. destruct (rn_id x =? id); [|done].
      unfold advance_task. by destruct (rn_task x).
    + intros _ Hend. specialize (R4 Hend). by destruct (ac_running a).
  - exists n. split; [|lia]. split; simpl; [congruence|intros _; same_turning|done|done].
  - exists n. split; [|lia]. destruct (ac_admission a) eqn:Ea; [|done]. split; simpl; [congruence| |done|done]. intros _.
    split; simpl; [done..|congruence].
  - exists n. split; [|lia]. destruct (take_running id (ac_running a)) as [[x rest]|] eqn:Ex; [|done].
    destruct (take_running_spec _ _ _ _ Ex) as [_ Hp]. rewrite Hp in Ht. apply Forall_cons in Ht as [Hx _].
    destruct (rn_task x) as [c|] eqn:Ec; [|done]. by apply resting_executed.
  - exists n. split; [|lia]. destruct (ac_database_stopped a); [apply resting_exit|done].
  - destruct (_ && _) eqn:Ea; [|exists n; split; [done|lia]]. exists (Datatypes.S n). split; [|unfold permissions; simpl; lia].
    apply resting_head. rewrite !andb_true_iff in Ea. destruct Ea as [[Eperm _] _]. split; simpl; [done|done| |].
    + destruct (ac_blocked_on a); lia.
    + intros Eadm. destruct (T4 Eadm) as [E _]. congruence.
  - exists n. split; [|lia]. destruct (_ && _); [apply resting_exit|done].
  - exists n. split; [|lia]. destruct (ac_requests a) as [|[r|] rest]; [done| |]; apply resting_head; [|same_turning].
    unfold receive. destruct (rejection _ _); [apply turning_finish|]; same_turning.
Qed.

Lemma resting_steps n es a :
  tasks_ok a → resting n a → ∃ n', resting n' (actor_steps es a) ∧ (n' ≤ n + permissions es)%nat.
Proof.
  revert n a. induction es as [|[m e] es IH]; intros n a Ht Ha; [exists n; split; [done|lia]|].
  destruct (resting_step n m e a Ht Ha) as (n1 & H1' & L1). destruct (IH n1 _ (tasks_step m e a Ht) H1') as (n2 & H2' & L2).
  exists n2. split; [done|]. unfold permissions in *. change ((m, e) :: es) with ([(m, e)] ++ es). rewrite omap_app, length_app. lia.
Qed.

Lemma resting_new actor admission now : resting 0 (actor_new actor admission now).
Proof. split; simpl; [done| |done|by intros _ []]. intros _. split; simpl; [done|done|lia|done]. Qed.

(** ** Draining *)

Definition is_drained (e : LogEntry) : bool := match e with Drained => true | _ => false end.

(** Requests started after the drain began are disconnects. *)
Fixpoint drains (draining : bool) (l : list LogEntry) : Prop :=
  match l with
  | [] => True
  | e :: l =>
      match e with
      | Started _ r => draining = true → is_disconnect (rq_operation r) = true
      | _ => True
      end ∧ drains (draining || is_drained e) l
  end.

Lemma drains_app d l1 l2 : drains d (l1 ++ l2) ↔ drains d l1 ∧ drains (d || existsb is_drained l1) l2.
Proof.
  revert d. induction l1 as [|e l1 IH]; intros d; simpl; [by rewrite orb_false_r; naive_solver|].
  rewrite IH, orb_assoc. naive_solver.
Qed.

Definition drain_inv a : Prop := drains false (ac_log a) ∧ ac_draining a = existsb is_drained (ac_log a).

Definition plain (e : LogEntry) : Prop := match e with Started _ _ | Drained => False | _ => True end.

Lemma drain_plain a a' l :
  drain_inv a → Forall plain l → ac_log a' = ac_log a ++ l → ac_draining a' = ac_draining a → drain_inv a'.
Proof.
  intros [Hd Hb] Hl El Ed. unfold drain_inv. rewrite El, Ed, Hb, drains_app, existsb_app. simpl.
  assert (∀ d, drains d l ∧ existsb is_drained l = false) as Hp.
  { clear El. induction Hl as [|e l He Hl IH]; [done|]. intros d. simpl. destruct e; try done; rewrite ?orb_false_r;
      destruct (IH d) as [? ->]; done. }
  destruct (Hp (existsb is_drained (ac_log a))) as [? ->]. by rewrite orb_false_r.
Qed.

Lemma drain_same a a' : drain_inv a → ac_log a' = ac_log a → ac_draining a' = ac_draining a → drain_inv a'.
Proof. intros Ha El. apply (drain_plain a a' []); [done|done|]. by rewrite El, app_nil_r. Qed.

Lemma drain_finish m r res l a : drain_inv a → drain_inv (finish m r res l a).
Proof. intros Ha. apply (drain_plain a _ [Finished r res l]); [done|by constructor|apply finish_log|by_fields]. Qed.

Lemma drain_exit a : drain_inv a → drain_inv (exit_actor a).
Proof.
  intros Ha. eapply (drain_plain a); [done| |done|done]. rewrite !Forall_app.
  split_and!; apply Forall_fmap, Forall_true; by intros.
Qed.

Lemma drain_evict graceful a : drain_inv a → drain_inv (evict graceful a).
Proof. intros Ha. by apply (drain_plain a _ [Evicted graceful (ac_owner_epoch a)]); [|constructor|..]. Qed.

Lemma drain_start m r a : rejection a (rq_operation r) = None → drain_inv a → drain_inv (start m r a).
Proof.
  intros Hr [Hd Hb]. unfold drain_inv, start. simpl. destruct (started_same m a) as (-> & _).
  assert (ac_draining (record_activity m a) = ac_draining a) as -> by (unfold record_activity; by destruct (m_now_ms m)).
  rewrite drains_app, existsb_app. simpl. rewrite <- Hb, !orb_false_r. split_and!; try done. intros Ed.
  unfold rejection in Hr. rewrite Ed in Hr. by destruct (is_disconnect (rq_operation r)).
Qed.

Lemma drain_start_queued m q a : drain_inv a → drain_inv (start_queued m q a).
Proof.
  revert a. induction q as [|x q IH]; intros a Ha; simpl; [by case_match|]. case_match; [done|]. apply IH.
  assert (drain_inv (set_queue q a)) as Hq by by eapply drain_same.
  destruct (rejection _ _) as [res|] eqn:Er; [by apply drain_finish|by apply drain_start].
Qed.

Lemma drain_head m a : drain_inv a → drain_inv (loop_head m a).
Proof.
  intros Ha. unfold loop_head. pose proof (drain_start_queued m (ac_pending a) a Ha) as Hs. fold (start_ready m a) in Hs.
  destruct (_ && _); [by apply drain_exit, drain_evict|].
  destruct (_ && _); [apply drain_exit|]; by eapply drain_same.
Qed.

Lemma drain_executed m l c a : drain_inv a → drain_inv (executed m l c a).
Proof.
  intros Ha. unfold executed. destruct (recovery a c);
    [apply drain_head, drain_finish..|apply drain_exit, drain_finish, drain_evict; by eapply drain_same];
    (case_match; [eapply drain_same; [|done|done]|]);
    first [by eapply drain_same | apply drain_evict; by eapply drain_same
          |eapply (drain_plain (evict false _) _ [DatabaseReset]); [apply drain_evict|by constructor|done|done]; by eapply drain_same].
Qed.

Lemma drain_step m e a : drain_inv a → drain_inv (actor_step m e a).
Proof.
  intros Ha. assert (∀ msg, drain_inv (send msg a)) as Hsend.
  { intros msg. unfold send. destruct (_ || _); [|by eapply drain_same].
    eapply (drain_plain a); [done| |done|done]. apply Forall_fmap, Forall_true. by intros. }
  unfold actor_step. destruct (ac_exited a); [by destruct e|]. destruct e as [msg| |id answer| | |id| | | |].
  - done.
  - case_match; [|done]. apply drain_head. by eapply drain_same.
  - by eapply drain_same.
  - by eapply drain_same.
  - case_match; [by eapply drain_same|done].
  - destruct (take_running id (ac_running a)) as [[x rest]|]; [|done]. destruct (rn_task x); [|done].
    apply drain_executed. by eapply drain_same.
  - case_match; [by apply drain_exit, drain_evict|done].
  - case_match; [|done]. apply drain_head. by eapply drain_same.
  - case_match; [by apply drain_exit|done].
  - destruct (ac_requests a) as [|[r|] rest]; [done| |].
    + apply drain_head. unfold receive. destruct (rejection _ _); [apply drain_finish|]; by eapply drain_same.
    + apply drain_head. destruct Ha as [Hd Hb]. unfold drain_inv. simpl. rewrite drains_app, existsb_app. simpl.
      by rewrite orb_true_r.
Qed.

Lemma drain_steps es a : drain_inv a → drain_inv (actor_steps es a).
Proof. revert a. induction es as [|[m e] es IH]; intros a Ha; [done|]. by apply IH, drain_step. Qed.

Lemma admission_start_queued m q a : ac_admission (start_queued m q a) = ac_admission a.
Proof.
  revert a. induction q as [|x q IH]; intros a; simpl; [by case_match|]. case_match; [done|]. rewrite IH.
  destruct (rejection _ _); [by_fields|]. unfold start, record_activity. by destruct (m_now_ms m).
Qed.

Lemma admission_head m a : ac_admission (loop_head m a) = ac_admission a.
Proof.
  rewrite <- (admission_start_queued m (ac_pending a) a). unfold loop_head. fold (start_ready m a).
  by destruct (_ && _); [|destruct (_ && _)].
Qed.

Lemma admission_finish m r res l a : ac_admission (finish m r res l a) = ac_admission a.
Proof. by_fields. Qed.

Lemma admission_step m e a : ac_admission (actor_step m e a) = ac_admission a.
Proof.
  unfold actor_step. assert (∀ msg, ac_admission (send msg a) = ac_admission a) as Hsend.
  { intros msg. unfold send. by case_match. }
  destruct (ac_exited a); [by destruct e|]. destruct e as [msg| |id answer| | |id| | | |]; try done; try (by case_match).
  - case_match; [by rewrite admission_head|done].
  - destruct (take_running id (ac_running a)) as [[x rest]|]; [|done]. destruct (rn_task x) as [c|]; [|done].
    unfold executed. destruct (recovery (set_running rest a) c);
      [rewrite admission_head, admission_finish; by case_match..|]. simpl. by_fields.
  - case_match; [by rewrite admission_head|done].
  - destruct (ac_requests a) as [|[r|] rest]; [done| |]; rewrite admission_head; [|done].
    unfold receive. destruct (rejection _ _); [by rewrite admission_finish|done].
Qed.

Lemma admission_steps es a : ac_admission (actor_steps es a) = ac_admission a.
Proof. revert a. induction es as [|[m e] es IH]; intros a; [done|]. simpl. by rewrite IH, admission_step. Qed.

(** ** Answers are final *)

Lemma log_finish m r res l a : ac_log a `prefix_of` ac_log (finish m r res l a).
Proof. rewrite finish_log. by apply prefix_app_r. Qed.

Lemma log_exit a : ac_log a `prefix_of` ac_log (exit_actor a).
Proof. by apply prefix_app_r. Qed.

Lemma log_start_queued m q a : ac_log a `prefix_of` ac_log (start_queued m q a).
Proof.
  revert a. induction q as [|x q IH]; intros a; simpl; [by case_match|]. case_match; [done|].
  etrans; [|apply IH]. destruct (rejection _ _); [apply (log_finish _ _ _ _ (set_queue q a))|].
  unfold start. simpl. destruct (started_same m (set_queue q a)) as (-> & _). by apply prefix_app_r.
Qed.

Lemma log_head m a : ac_log a `prefix_of` ac_log (loop_head m a).
Proof.
  etrans; [apply (log_start_queued m (ac_pending a))|]. unfold loop_head. fold (start_ready m a).
  destruct (_ && _); [etrans; [|apply log_exit]; by apply prefix_app_r|]. destruct (_ && _); [apply (log_exit (publish_status m _))|done].
Qed.

Lemma log_executed m l c a : ac_log a `prefix_of` ac_log (executed m l c a).
Proof.
  unfold executed. destruct (recovery a c);
    (etrans; [|first [apply log_head|apply log_exit]]); (etrans; [|apply log_finish]); try case_match; simpl;
    rewrite <- ?app_assoc; first [done|by apply prefix_app_r].
Qed.

Lemma log_step m e a : ac_log a `prefix_of` ac_log (actor_step m e a).
Proof.
  assert (∀ msg, ac_log a `prefix_of` ac_log (send msg a)) as Hsend.
  { intros msg. unfold send. case_match; [by apply prefix_app_r|done]. }
  unfold actor_step. destruct (ac_exited a); [by destruct e|]. destruct e as [msg| |id answer| | |id| | | |]; try done.
  - case_match; [|done]. by etrans; [|apply log_head].
  - by case_match.
  - destruct (take_running id (ac_running a)) as [[x rest]|]; [|done]. destruct (rn_task x); [|done]. by etrans; [|apply log_executed].
  - case_match; [|done]. etrans; [|apply log_exit]. by apply prefix_app_r.
  - case_match; [|done]. by etrans; [|apply log_head].
  - case_match; [apply log_exit|done].
  - destruct (ac_requests a) as [|[r|] rest]; [done| |]; (etrans; [|apply log_head]); [|by apply prefix_app_r].
    unfold receive. destruct (rejection _ _); [by etrans; [|apply log_finish]|done].
Qed.

Lemma log_steps es a : ac_log a `prefix_of` ac_log (actor_steps es a).
Proof.
  revert a. induction es as [|[m e] es IH]; intros a; [done|]. etrans; [apply (log_step m e)|apply IH].
Qed.

Lemma actor_steps_app es es' a : actor_steps (es ++ es') a = actor_steps es' (actor_steps es a).
Proof. apply foldl_app. Qed.

(** Code of the actor ran for the request with the reply channel [n], or its mailbox
    was lost while it was running. *)
Definition may_have_run (n : N) a : Prop :=
  (∃ r res l, Finished r res l ∈ ac_log a ∧ rq_reply r = n ∧ ¬ unexecuted l) ∨
  (∃ r, Dropped r ∈ ac_log a ∧ rq_reply r = n) ∨
  (∃ x, x ∈ ac_running a ∧ rq_reply (rn_request x) = n ∧ ¬ unexecuted (rn_calls x)).

Lemma may_have_run_held n a : may_have_run n a → n ∈ held_replies a.
Proof.
  unfold held_replies. rewrite !elem_of_app. intros [(r & res & l & Hin & <- & _)|[(r & Hin & <-)|(x & Hin & <- & _)]].
  - left. apply list_elem_of_omap. by exists (Finished r res l).
  - left. apply list_elem_of_omap. by exists (Dropped r).
  - right. right. left. apply list_elem_of_fmap. by exists x.
Qed.

Lemma omap_split_unique {A B} (f : A → option B) (l : list A) x y b :
  NoDup (omap f l) → x ∈ l → y ∈ l → f x = Some b → f y = Some b → x = y.
Proof.
  intros Hn. induction l as [|z l IH]; [by intros ?%elem_of_nil|]. simpl in Hn. rewrite !elem_of_cons.
  assert (∀ z, z ∈ l → f z = Some b → b ∈ omap f l) as Hin by (intros; apply list_elem_of_omap; eauto).
  intros Hx Hy Ex Ey. destruct (f z) eqn:Ez.
  - apply NoDup_cons in Hn as [Hz Hn]. destruct Hx as [<-|Hx], Hy as [<-|Hy]; [done|..|by apply IH];
      exfalso; simplify_eq; apply Hz; eauto.
  - destruct Hx as [<-|Hx], Hy as [<-|Hy]; [done|congruence..|by apply IH].
Qed.

(** A request that was answered with [HostUnavailable] did not run and never will. *)
Lemma unavailable_never_runs es es' actor admission now r l :
  let a := actor_steps es (actor_new actor admission now) in
  NoDup (sent_replies (es ++ es')) → Finished r (Ok HostUnavailable) l ∈ ac_log a →
  ¬ may_have_run (rq_reply r) (actor_steps es' a).
Proof.
  simpl. intros Hn Hin. set (a0 := actor_new actor admission now) in *. rewrite <- actor_steps_app.
  assert (Finished r (Ok HostUnavailable) l ∈ ac_log (actor_steps (es ++ es') a0)) as Hin'.
  { rewrite actor_steps_app. destruct (log_steps es' (actor_steps es a0)) as [log ->]. apply elem_of_app. by left. }
  destruct (accounts_steps (es ++ es') a0 (tasks_new _ _ _)) as [Hh _].
  destruct (tasks_steps (es ++ es') a0 (tasks_new _ _ _)) as [_ Hlog]. rewrite Forall_forall in Hlog.
  set (a := actor_steps (es ++ es') a0) in *. assert (NoDup (held_replies a)) as Hd by by rewrite Hh.
  unfold held_replies in Hd. apply NoDup_app in Hd as (Hd & Hdis & _).
  assert (rq_reply r ∈ omap log_reply (ac_log a)) as Hr by (apply list_elem_of_omap; by exists (Finished r (Ok HostUnavailable) l)).
  intros [(r' & res & l' & Hx & E & Hu)|[(r' & Hx & E)|(x & Hx & E & _)]].
  - pose proof (omap_split_unique log_reply _ _ _ (rq_reply r) Hd Hin' Hx eq_refl) as Heq. simpl in Heq.
    rewrite E in Heq. specialize (Heq eq_refl). simplify_eq. apply Hu. by apply (Hlog _ Hin').
  - pose proof (omap_split_unique log_reply _ _ _ (rq_reply r) Hd Hin' Hx eq_refl) as Heq. simpl in Heq.
    rewrite E in Heq. by specialize (Heq eq_refl).
  - apply (Hdis _ Hr). rewrite !elem_of_app. right. left. rewrite <- E. apply list_elem_of_fmap. by exists x.
Qed.

(** ** What a client sees *)

Variables (actor : ActorKey) (admission : bool) (now : N).

(** C13. Every request to an actor is answered once: whatever happens, each request that
    was sent is, exactly once, answered, dropped with the mailbox (so that its client
    is told that the outcome is unknown), queued, running, or still in the channel,
    and in one of the first two once the mailbox has ended; and requests are started
    in the order in which they were sent. *)
Theorem requests_answered_once (es : list (Moment * event)) :
  let a := actor_steps es (actor_new actor admission now) in
  held_replies a ≡ₚ sent_replies es ∧
  (ac_exited a = true → omap log_reply (ac_log a) ≡ₚ sent_replies es) ∧
  sublist (omap started_reply (ac_log a)) (sent_replies es).
Proof.
  destruct (accounts_steps es _ (tasks_new actor admission now)) as [Hh Ho].
  destruct (resting_steps 0 es _ (tasks_new actor admission now) (resting_new actor admission now)) as (n & Hr & _).
  simpl. split_and!; [exact Hh| |].
  - intros He. rewrite <- Hh. unfold held_replies, queued_replies, running_replies, channel_replies.
    destruct (rs_exited _ _ Hr He) as (-> & -> & ->). by rewrite app_nil_r.
  - etrans; [|exact Ho]. by apply sublist_inserts_r.
Qed.

(** C14. An actor carries out one request at a time, and never gets stuck: as long as the
    executor allows no more, at most one request runs, and every permission lets in
    one more; when requests wait, the one they wait for is running, so that its
    completion starts the next; a mailbox that drains or lost its senders still runs
    something, and otherwise has ended. *)
Theorem one_request_at_a_time (es : list (Moment * event)) :
  let a := actor_steps es (actor_new actor admission now) in
  (length (ac_running a) ≤ 1 + permissions es)%nat ∧
  (admission = false → (length (ac_running a) ≤ 1)%nat) ∧
  (ac_exited a = false → ac_pending a ≠ [] → ∃ x, x ∈ ac_running a ∧ ac_blocked_on a = Some (rn_id x)) ∧
  (ac_exited a = false → ac_draining a = true ∨ ac_open a = false → ac_running a ≠ []).
Proof.
  destruct (resting_steps 0 es _ (tasks_new actor admission now) (resting_new actor admission now)) as (n & Hr & Hn).
  simpl. set (a := actor_steps es _) in *. pose proof (admission_steps es (actor_new actor admission now)) as Ha.
  fold a in Ha. simpl in Ha. destruct (ac_exited a) eqn:Ee.
  { destruct (rs_exited _ _ Hr Ee) as (_ & -> & _). simpl. split_and!; [lia|lia|done|done]. }
  pose proof (rs_turning _ _ Hr Ee) as [_ Hb Hc Hp]. split_and!.
  - destruct (ac_blocked_on a); lia.
  - intros E. destruct Hp as [_ ->]; [congruence|]. destruct (ac_blocked_on a); lia.
  - intros _ Hq. destruct (ac_blocked_on a) as [id|] eqn:Eb; [|by rewrite (rs_idle _ _ Hr Ee Eb) in Hq].
    destruct (Hb id eq_refl) as (x & Hx & <-). by exists x.
  - intros _. by apply (rs_ends _ _ Hr Ee).
Qed.

(** C9. What an actor answers is durable: a request is answered with a result only if it
    was an activation that succeeded, or the database returned the stored result of
    that very request, or its state was confirmed durable while the host had
    authority. The code of the actor runs at most once for a request, after the
    database allowed it, and changes of state are sent to sockets only after they are
    durable, with the version they have. *)
Theorem answers_are_durable (es : list (Moment * event)) r res l :
  let a := actor_steps es (actor_new actor admission now) in
  Finished r res l ∈ ac_log a →
  (∀ v effects, res = Ok (Completed v effects) → justified l v effects) ∧
  ∀ l1 x l2, l = l1 ++ x :: l2 → allowed l1 (projT1 x).
Proof.
  simpl. intros Hin. destruct (tasks_steps es _ (tasks_new actor admission now)) as [_ Hlog].
  rewrite Forall_forall in Hlog. destruct (Hlog _ Hin) as (Hl & _ & Hj). by split.
Qed.

(** A mailbox that drains starts nothing but disconnects. *)
Theorem drain_starts_disconnects (es : list (Moment * event)) l1 l2 id r :
  let a := actor_steps es (actor_new actor admission now) in
  ac_log a = l1 ++ Drained :: l2 → Started id r ∈ l2 → is_disconnect (rq_operation r) = true.
Proof.
  simpl. intros El Hin. destruct (drain_steps es (actor_new actor admission now)) as [Hd _]; [done|].
  rewrite El, drains_app in Hd. destruct Hd as [_ Hd]. simpl in Hd. rewrite orb_true_r in Hd. destruct Hd as [_ Hd].
  clear El. induction l2 as [|e l2 IH]; [by apply elem_of_nil in Hin|]. destruct Hd as [He Hd].
  apply elem_of_cons in Hin as [<-|Hin]; [by apply He|by apply IH].
Qed.
End mailbox_safety.
