(* ===== verification/Executor.v ===== *)
(** * The connection to the JavaScript process of an actor

    [JsActorExecutor] and [ExecutorDriver] of
    [src/src/actor/executor_connection.rs]: one task owns the connection; it sends
    commands, routes the replies, and runs the calls that the actor makes of its
    database, of its connections and of other actors. Messages are lines of JSON. *)

From S2P Require Import Prelude Text Names StateLog Effects Lifecycle HostStorage Sqlite Capture Protocol ActorDatabase DatabaseService ActorHost.
Local Open Scope N_scope.

(** ** Messages *)

Definition ACTOR_EXECUTOR_PROTOCOL_VERSION : N := 32.

Record SocketQuery := {
  query_tag : option bytes;
  count_only : bool;
}.

Inductive LogLevel := DebugLevel | InfoLevel | WarnLevel | ErrorLevel.

Section messages.
Context `{JsonValue}.

Inductive SocketLookup :=
| Connections (cs : list ActorSocketConnection)
| Count (n : N).

Inductive ExecutorCommand :=
| HydrateCommand (request_id : bytes)
| InvokeCommand (inv : ActorMethodInvocation)
| WebsocketEvent (request_id : bytes) (event : ActorSocketEvent) (connections : list ActorSocketConnection)
| EvictCommand (graceful : bool).

(** [ExecutorCommand::request_id] *)
Definition command_request_id (c : ExecutorCommand) : option bytes :=
  match c with
  | HydrateCommand id | WebsocketEvent id _ _ => Some id
  | InvokeCommand inv => Some (mi_request_id inv)
  | EvictCommand _ => None
  end.

Inductive ExecutorReply :=
| HydratedReply
| InvokedReply (result : Value) (sequence : option N) (effects : list ActorSocketEffect)
| WebsocketHandled (sequence : option N) (effects : list ActorSocketEffect)
| FailedReply (code : bytes) (message : string)
| EvictedReply.

Inductive ActorExecutorServerMessage :=
| DatabaseResultMessage (call_id : N) (result : option DatabaseResult) (error : option string)
| ActorResultMessage (call_id : N) (outcome : Value)
| SocketConnectionsMessage (message_id : N) (connections : SocketLookup) (error : option string)
| AttachedMessage (protocol : N) (actor : ActorKey)
| CommandMessage (message_id : N) (command : ExecutorCommand).

Inductive ActorExecutorClientMessage :=
| DatabaseCallMessage (call_id : N) (message_id : option N) (c : DatabaseCall)
| ActorCallMessage (call_id : N) (c : ActorCall)
| WarmMessage (protocol : N)
| ResidencyMessage (resident : bool)
| GetConnections (message_id : N) (query : SocketQuery)
| ReadyForInvocation (message_id : N)
| SocketEffects (message_id : N) (effects : list ActorSocketEffect)
| AttachMessage (protocol : N) (actor_names : list bytes)
| ReplyMessage (message_id : N) (reply : ExecutorReply)
| LogMessage (message_id : option N) (level : LogLevel) (message : bytes).

(** [serde_json::to_vec] and [serde_json::from_slice] of these messages *)
Class ExecutorJson := {
  server_json : ActorExecutorServerMessage → result bytes;
  client_json : bytes → option ActorExecutorClientMessage;
}.

(** ** Lines *)

Definition is_ascii_whitespace (x : byte) : bool :=
  bool_decide (x ∈ [x20; x09; x0a; x0c; x0d]).

Fixpoint drop_while_whitespace (s : bytes) : bytes :=
  match s with
  | x :: s' => if is_ascii_whitespace x then drop_while_whitespace s' else s
  | [] => []
  end.

(** [trim_ascii_end], from the back *)
Definition trim_ascii_end (s : bytes) : bytes := rev (drop_while_whitespace (rev s)).

(** [read_until]: up to and with the delimiter, or all there is *)
Fixpoint read_until (delimiter : byte) (s : bytes) : bytes * bytes :=
  match s with
  | [] => ([], [])
  | x :: s =>
      if bool_decide (x = delimiter) then ([x], s)
      else let '(line, rest) := read_until delimiter s in (x :: line, rest)
  end.

Context `{!ExecutorJson}.

(** The message and what is left to read. *)
Definition read_client_message (s : bytes) : result (option ActorExecutorClientMessage * bytes) :=
  let '(line, rest) := read_until x0a s in
  match line with
  | [] => Ok (None, rest)
  | _ =>
      m ← ctx (client_json (trim_ascii_end line)) "decode customer actor executor message";
      Ok (Some m, rest)
  end.

(** What the reader hands on, up to the end of the stream or the first error; [fuel]
    bounds the number of lines. *)
Fixpoint read_executor_messages (fuel : nat) (s : bytes) : list (result ActorExecutorClientMessage) :=
  match fuel with
  | O => []
  | S fuel =>
      match read_client_message s with
      | Ok (Some m, rest) => Ok m :: read_executor_messages fuel rest
      | Ok (None, _) => [Err "customer JavaScript actor executor disconnected"]
      | Err e => [Err e]
      end
  end.

Definition encode_server_message (m : ActorExecutorServerMessage) : result bytes :=
  bs ← server_json m; Ok (bs ++ [x0a]).

(** [attach_executor], up to the start of the driver: the names the process loaded *)
Definition attach_executor (s : bytes) : result (list bytes * bytes) :=
  '(m, rest) ← read_client_message s;
  match m with
  | Some (AttachMessage protocol names) =>
      ensure (protocol =? ACTOR_EXECUTOR_PROTOCOL_VERSION) "unsupported executor protocol";;
      ensure (negb (bool_decide (names = []))) "customer executor advertised no actor names";;
      Ok (names, rest)
  | _ => Err "customer executor must attach after loading code"
  end.

(** [accept_warm] *)
Definition accept_warm (s : bytes) : result bytes :=
  '(m, rest) ← read_client_message s;
  ensure (match m with Some (WarmMessage p) => p =? ACTOR_EXECUTOR_PROTOCOL_VERSION | _ => false end)
    "generic executor did not finish warming";;
  Ok rest.

(** ** What callers make of the replies *)

Definition hydrate_outcome (r : ExecutorReply) : result unit :=
  match r with
  | HydratedReply => Ok ()
  | FailedReply _ _ => Err "actor hydration failed"
  | _ => Err "unexpected actor hydration reply"
  end.

Definition invoke_outcome (r : ExecutorReply) : result ActorMethodOutcome :=
  match r with
  | InvokedReply res (Some n) effects =>
      Ok (MethodInterleaved {| il_sequence := n; il_result := res; il_effects := effects |})
  | InvokedReply res None effects => Ok (MethodCompleted res effects)
  | FailedReply code message => Ok (MethodFailed {| failure_code := code; failure_message := message |})
  | _ => Err "unexpected actor invocation reply"
  end.

Definition socket_command (inv : ActorSocketInvocation) : ExecutorCommand :=
  WebsocketEvent (sock_request_id inv) (sock_event inv) (sock_connections inv).

Definition socket_outcome `{!JsonOps} (r : ExecutorReply) : result ActorSocketOutcome :=
  match r with
  | WebsocketHandled (Some n) effects =>
      Ok (SocketInterleaved {| il_sequence := n; il_result := value_null; il_effects := effects |})
  | WebsocketHandled None effects => Ok (SocketHandled effects)
  | FailedReply code message => Ok (SocketFailed {| failure_code := code; failure_message := message |})
  | _ => Err "unexpected actor socket reply"
  end.

Definition evict_outcome (r : ExecutorReply) : result unit :=
  match r with
  | EvictedReply => Ok ()
  | FailedReply _ _ => Err "actor executor rejected eviction"
  | _ => Err "unexpected actor eviction reply"
  end.

(** ** The driver *)

(** Databases, publishers and other handles are named by numbers, as are reply
    channels. *)
Record PendingCommand := {
  pn_command : ExecutorCommand;
  pn_database : option N;
  pn_admission_granted : bool;
  pn_reply : N;
}.

Record ExecutorWrite := {
  ew_bytes : bytes;
  ew_written : option N;
}.

Inductive ExecutorRequest :=
| Exchange (p : PendingCommand)
| ReadyRequest (actor : ActorKey) (written : N) (publisher sockets database calls logs : option N).

(** A task of [database_calls], and one of [loading_connections]. *)
Record OpenCall := {
  oc_call_id : N;
  oc_message_id : option N;
  oc_database : option N;
  oc_call : DatabaseCall;
}.

Record OpenLookup := {
  ol_message_id : N;
  ol_sockets : option N;
  ol_query : SocketQuery;
}.

(** What went through the driver, for the theorems. *)
Inductive TraceEntry :=
| Enqueued (id : N) (p : PendingCommand)
| Delivered (id : N) (reply : N) (x : ExecutorReply)
| Unsent (id : N) (reply : N)
| Granted (id : N)
| Output (publisher : option N) (effects : list ActorSocketEffect)
| Logged (request_id : option bytes) (level : LogLevel) (message : bytes).

Record ExecutorDriver := {
  dr_admissions : N;
  dr_changes : N;
  dr_residency : option (N * bool);
  dr_pending : gmap N PendingCommand;
  dr_next_message_id : N;
  dr_outbound : list ExecutorWrite;
  dr_writer_stopped : bool;
  dr_publisher : option N;
  dr_sockets : option N;
  dr_database : option N;
  dr_calls : option N;
  dr_logs : option N;
  dr_loading : list OpenLookup;
  dr_lookup_ids : gset N;
  dr_database_calls : list OpenCall;
  dr_database_ids : gset N;
  dr_actor_calls : list (N * option N * ActorCall);
  dr_trace : list TraceEntry;
}.

(** [run_executor_connection] *)
Definition driver_new : ExecutorDriver :=
  {| dr_admissions := 0; dr_changes := 0; dr_residency := None; dr_pending := ∅; dr_next_message_id := 1;
     dr_outbound := []; dr_writer_stopped := false; dr_publisher := None; dr_sockets := None; dr_database := None;
     dr_calls := None; dr_logs := None; dr_loading := []; dr_lookup_ids := ∅; dr_database_calls := [];
     dr_database_ids := ∅; dr_actor_calls := []; dr_trace := [] |}.

Definition set_admissions (n : N) (d : ExecutorDriver) : ExecutorDriver :=
  {| dr_admissions := n; dr_changes := dr_changes d; dr_residency := dr_residency d; dr_pending := dr_pending d;
     dr_next_message_id := dr_next_message_id d; dr_outbound := dr_outbound d;
     dr_writer_stopped := dr_writer_stopped d; dr_publisher := dr_publisher d; dr_sockets := dr_sockets d;
     dr_database := dr_database d; dr_calls := dr_calls d; dr_logs := dr_logs d; dr_loading := dr_loading d;
     dr_lookup_ids := dr_lookup_ids d; dr_database_calls := dr_database_calls d;
     dr_database_ids := dr_database_ids d; dr_actor_calls := dr_actor_calls d; dr_trace := dr_trace d |}.
Definition set_residency (changes : N) (r : option (N * bool)) (d : ExecutorDriver) : ExecutorDriver :=
  {| dr_admissions := dr_admissions d; dr_changes := changes; dr_residency := r; dr_pending := dr_pending d;
     dr_next_message_id := dr_next_message_id d; dr_outbound := dr_outbound d;
     dr_writer_stopped := dr_writer_stopped d; dr_publisher := dr_publisher d; dr_sockets := dr_sockets d;
     dr_database := dr_database d; dr_calls := dr_calls d; dr_logs := dr_logs d; dr_loading := dr_loading d;
     dr_lookup_ids := dr_lookup_ids d; dr_database_calls := dr_database_calls d;
     dr_database_ids := dr_database_ids d; dr_actor_calls := dr_actor_calls d; dr_trace := dr_trace d |}.
Definition set_commands (p : gmap N PendingCommand) (d : ExecutorDriver) : ExecutorDriver :=
  {| dr_admissions := dr_admissions d; dr_changes := dr_changes d; dr_residency := dr_residency d; dr_pending := p;
     dr_next_message_id := dr_next_message_id d; dr_outbound := dr_outbound d;
     dr_writer_stopped := dr_writer_stopped d; dr_publisher := dr_publisher d; dr_sockets := dr_sockets d;
     dr_database := dr_database d; dr_calls := dr_calls d; dr_logs := dr_logs d; dr_loading := dr_loading d;
     dr_lookup_ids := dr_lookup_ids d; dr_database_calls := dr_database_calls d;
     dr_database_ids := dr_database_ids d; dr_actor_calls := dr_actor_calls d; dr_trace := dr_trace d |}.
Definition set_next_message (n : N) (d : ExecutorDriver) : ExecutorDriver :=
  {| dr_admissions := dr_admissions d; dr_changes := dr_changes d; dr_residency := dr_residency d;
     dr_pending := dr_pending d; dr_next_message_id := n; dr_outbound := dr_outbound d;
     dr_writer_stopped := dr_writer_stopped d; dr_publisher := dr_publisher d; dr_sockets := dr_sockets d;
     dr_database := dr_database d; dr_calls := dr_calls d; dr_logs := dr_logs d; dr_loading := dr_loading d;
     dr_lookup_ids := dr_lookup_ids d; dr_database_calls := dr_database_calls d;
     dr_database_ids := dr_database_ids d; dr_actor_calls := dr_actor_calls d; dr_trace := dr_trace d |}.
Definition set_outbound (ws : list ExecutorWrite) (d : ExecutorDriver) : ExecutorDriver :=
  {| dr_admissions := dr_admissions d; dr_changes := dr_changes d; dr_residency := dr_residency d;
     dr_pending := dr_pending d; dr_next_message_id := dr_next_message_id d; dr_outbound := ws;
     dr_writer_stopped := dr_writer_stopped d; dr_publisher := dr_publisher d; dr_sockets := dr_sockets d;
     dr_database := dr_database d; dr_calls := dr_calls d; dr_logs := dr_logs d; dr_loading := dr_loading d;
     dr_lookup_ids := dr_lookup_ids d; dr_database_calls := dr_database_calls d;
     dr_database_ids := dr_database_ids d; dr_actor_calls := dr_actor_calls d; dr_trace := dr_trace d |}.
Definition set_writer_stopped (d : ExecutorDriver) : ExecutorDriver :=
  {| dr_admissions := dr_admissions d; dr_changes := dr_changes d; dr_residency := dr_residency d;
     dr_pending := dr_pending d; dr_next_message_id := dr_next_message_id d; dr_outbound := dr_outbound d;
     dr_writer_stopped := true; dr_publisher := dr_publisher d; dr_sockets := dr_sockets d;
     dr_database := dr_database d; dr_calls := dr_calls d; dr_logs := dr_logs d; dr_loading := dr_loading d;
     dr_lookup_ids := dr_lookup_ids d; dr_database_calls := dr_database_calls d;
     dr_database_ids := dr_database_ids d; dr_actor_calls := dr_actor_calls d; dr_trace := dr_trace d |}.
Definition set_ready (publisher sockets database calls logs : option N) (d : ExecutorDriver) : ExecutorDriver :=
  {| dr_admissions := dr_admissions d; dr_changes := dr_changes d; dr_residency := dr_residency d;
     dr_pending := dr_pending d; dr_next_message_id := dr_next_message_id d; dr_outbound := dr_outbound d;
     dr_writer_stopped := dr_writer_stopped d; dr_publisher := publisher; dr_sockets := sockets;
     dr_database := database; dr_calls := calls; dr_logs := logs; dr_loading := dr_loading d;
     dr_lookup_ids := dr_lookup_ids d; dr_database_calls := dr_database_calls d;
     dr_database_ids := dr_database_ids d; dr_actor_calls := dr_actor_calls d; dr_trace := dr_trace d |}.
Definition set_lookups (l : list OpenLookup) (ids : gset N) (d : ExecutorDriver) : ExecutorDriver :=
  {| dr_admissions := dr_admissions d; dr_changes := dr_changes d; dr_residency := dr_residency d;
     dr_pending := dr_pending d; dr_next_message_id := dr_next_message_id d; dr_outbound := dr_outbound d;
     dr_writer_stopped := dr_writer_stopped d; dr_publisher := dr_publisher d; dr_sockets := dr_sockets d;
     dr_database := dr_database d; dr_calls := dr_calls d; dr_logs := dr_logs d; dr_loading := l;
     dr_lookup_ids := ids; dr_database_calls := dr_database_calls d; dr_database_ids := dr_database_ids d;
     dr_actor_calls := dr_actor_calls d; dr_trace := dr_trace d |}.
Definition set_database_calls (l : list OpenCall) (ids : gset N) (d : ExecutorDriver) : ExecutorDriver :=
  {| dr_admissions := dr_admissions d; dr_changes := dr_changes d; dr_residency := dr_residency d;
     dr_pending := dr_pending d; dr_next_message_id := dr_next_message_id d; dr_outbound := dr_outbound d;
     dr_writer_stopped := dr_writer_stopped d; dr_publisher := dr_publisher d; dr_sockets := dr_sockets d;
     dr_database := dr_database d; dr_calls := dr_calls d; dr_logs := dr_logs d; dr_loading := dr_loading d;
     dr_lookup_ids := dr_lookup_ids d; dr_database_calls := l; dr_database_ids := ids;
     dr_actor_calls := dr_actor_calls d; dr_trace := dr_trace d |}.
Definition set_actor_calls (l : list (N * option N * ActorCall)) (d : ExecutorDriver) : ExecutorDriver :=
  {| dr_admissions := dr_admissions d; dr_changes := dr_changes d; dr_residency := dr_residency d;
     dr_pending := dr_pending d; dr_next_message_id := dr_next_message_id d; dr_outbound := dr_outbound d;
     dr_writer_stopped := dr_writer_stopped d; dr_publisher := dr_publisher d; dr_sockets := dr_sockets d;
     dr_database := dr_database d; dr_calls := dr_calls d; dr_logs := dr_logs d; dr_loading := dr_loading d;
     dr_lookup_ids := dr_lookup_ids d; dr_database_calls := dr_database_calls d;
     dr_database_ids := dr_database_ids d; dr_actor_calls := l; dr_trace := dr_trace d |}.
Definition add_trace (e : TraceEntry) (d : ExecutorDriver) : ExecutorDriver :=
  {| dr_admissions := dr_admissions d; dr_changes := dr_changes d; dr_residency := dr_residency d;
     dr_pending := dr_pending d; dr_next_message_id := dr_next_message_id d; dr_outbound := dr_outbound d;
     dr_writer_stopped := dr_writer_stopped d; dr_publisher := dr_publisher d; dr_sockets := dr_sockets d;
     dr_database := dr_database d; dr_calls := dr_calls d; dr_logs := dr_logs d; dr_loading := dr_loading d;
     dr_lookup_ids := dr_lookup_ids d; dr_database_calls := dr_database_calls d;
     dr_database_ids := dr_database_ids d; dr_actor_calls := dr_actor_calls d; dr_trace := dr_trace d ++ [e] |}.

Abbreviation driver := (stated ExecutorDriver).
Context `{!JsonOps} `{!Json Value} `{!StandardBase64}.

Definition the_driver : driver ExecutorDriver := λ d, (d, Ok d).
Definition change_driver (f : ExecutorDriver → ExecutorDriver) : driver unit := λ d, (f d, Ok ()).

(** The channel to the writer *)
Definition send_write (w : ExecutorWrite) : driver unit :=
  d ← the_driver;
  pure_check (ensure (negb (dr_writer_stopped d)) "actor executor writer stopped");;
  change_driver (λ d, set_outbound (dr_outbound d ++ [w]) d).

Definition write (bs : bytes) : driver unit := send_write {| ew_bytes := bs; ew_written := None |}.

Definition write_message (m : ActorExecutorServerMessage) : driver unit :=
  bs ← pure_check (encode_server_message m); write bs.

Definition handle_residency (now : N) (resident : bool) : driver unit :=
  change_driver (λ d,
    let same := from_option (λ x, Bool.eqb x.2 resident) false (dr_residency d) in
    set_residency (if same then dr_changes d else dr_changes d + 1) (Some (now, resident)) d).

(** [resident]: what was heard within the last five seconds *)
Definition resident_now (now : N) (d : ExecutorDriver) : option bool :=
  '(at_, r) ← dr_residency d; if now - at_ <? 5000 then Some r else None.

Definition may_admit (c : ExecutorCommand) : bool :=
  match c with InvokeCommand _ | WebsocketEvent _ _ _ => true | _ => false end.

Definition grant (p : PendingCommand) : PendingCommand :=
  {| pn_command := pn_command p; pn_database := pn_database p; pn_admission_granted := true; pn_reply := pn_reply p |}.

Definition allow_next_invocation (id : N) : driver unit :=
  d ← the_driver;
  p ← pure_check (ctx (dr_pending d !! id) "invocation admission has no active call");
  pure_check (ensure (may_admit (pn_command p)) "only invocations can admit another call");;
  pure_check (ensure (negb (pn_admission_granted p)) "invocation admission was already granted");;
  change_driver (λ d, add_trace (Granted id)
                        (set_admissions (dr_admissions d + 1) (set_commands (<[id := grant p]> (dr_pending d)) d))).

Definition call_database (call_id : N) (message_id : option N) (c : DatabaseCall) : driver unit :=
  d ← the_driver;
  let pending := id ← message_id; p ← dr_pending d !! id; Some (id, p) in
  let ids := match pending with Some (id, _) => {[id]} ∪ dr_database_ids d | None => dr_database_ids d end in
  match pending with
  | Some (id, _) => pure_check (ensure (bool_decide (id ∉ dr_database_ids d)) "actor sent concurrent database calls")
  | None => mret ()
  end;;
  change_driver (λ d, set_database_calls (dr_database_calls d ++
    [{| oc_call_id := call_id; oc_message_id := fst <$> pending;
        oc_database := match pending with Some (_, p) => pn_database p | None => dr_database d end;
        oc_call := c |}]) ids d).

Definition database_called (c : OpenCall) (x : result DatabaseResult) : driver unit :=
  change_driver (λ d, set_database_calls (dr_database_calls d)
    (match oc_message_id c with Some id => dr_database_ids d ∖ {[id]} | None => dr_database_ids d end) d);;
  write_message (match x with
                 | Ok r => DatabaseResultMessage (oc_call_id c) (Some r) None
                 | Err e => DatabaseResultMessage (oc_call_id c) None (Some e)
                 end).

Definition call_actor (call_id : N) (c : ActorCall) : driver unit :=
  change_driver (λ d, set_actor_calls (dr_actor_calls d ++ [(call_id, dr_calls d, c)]) d).

Definition load_connections (id : N) (query : SocketQuery) : driver unit :=
  d ← the_driver;
  p ← pure_check (ctx (dr_pending d !! id) "connection lookup has no active actor invocation");
  pure_check (ensure (match pn_command p with EvictCommand _ => false | _ => true end)
                "cannot load connections during eviction");;
  pure_check (ensure (bool_decide (id ∉ dr_lookup_ids d)) "actor sent concurrent connection lookups");;
  change_driver (λ d, set_lookups (dr_loading d ++ [{| ol_message_id := id; ol_sockets := dr_sockets d; ol_query := query |}])
                        ({[id]} ∪ dr_lookup_ids d) d).

(** A lookup has ended. *)
Definition connections_loaded (l : OpenLookup) (x : result SocketLookup) : driver unit :=
  change_driver (λ d, set_lookups (dr_loading d) (dr_lookup_ids d ∖ {[ol_message_id l]}) d);;
  write_message (match x with
                 | Ok cs => SocketConnectionsMessage (ol_message_id l) cs None
                 | Err e => SocketConnectionsMessage (ol_message_id l) (Connections []) (Some e)
                 end).

(** [publish], with the task it spawns: what cannot be published is only noted. *)
Definition publish_effects (id : N) (effects : list ActorSocketEffect) : driver unit :=
  d ← the_driver;
  p ← pure_check (ctx (dr_pending d !! id) "socket output has no active actor invocation");
  let connecting := match pn_command p with WebsocketEvent _ (Connect _) _ => true | _ => false end in
  let published := ensure (negb connecting) "socket output cannot precede connection acceptance";;
                   validate_socket_effects effects in
  if is_ok published && bool_decide (is_Some (dr_publisher d))
  then change_driver (add_trace (Output (dr_publisher d) effects))
  else mret ().

Definition log_message (message_id : option N) (level : LogLevel) (message : bytes) : driver unit :=
  d ← the_driver;
  let request := id ← message_id; p ← dr_pending d !! id; command_request_id (pn_command p) in
  change_driver (add_trace (Logged request level message)).

Definition enqueue (p : PendingCommand) : driver unit :=
  d ← the_driver;
  let id := dr_next_message_id d in
  next ← pure_check (ctx (checked_add id 1) "actor executor message ID overflow");
  change_driver (set_next_message next);;
  match encode_server_message (CommandMessage id (pn_command p)) with
  | Ok bs =>
      write bs;;
      change_driver (λ d, add_trace (Enqueued id p) (set_commands (<[id := p]> (dr_pending d)) d))
  | Err _ => change_driver (add_trace (Unsent id (pn_reply p)))
  end.

Definition deliver (id : N) (x : ExecutorReply) : driver unit :=
  d ← the_driver;
  pure_check (ensure (bool_decide (id ∉ dr_database_ids d)) "actor replied before its database call completed");;
  pure_check (ensure (bool_decide (id ∉ dr_lookup_ids d)) "actor completed before connection lookup finished");;
  p ← pure_check (ctx (dr_pending d !! id) "actor executor replied to unknown message");
  change_driver (λ d, add_trace (Delivered id (pn_reply p) x) (set_commands (delete id (dr_pending d)) d)).

Definition handle_request (r : ExecutorRequest) : driver unit :=
  match r with
  | Exchange p => enqueue p
  | ReadyRequest actor written publisher sockets database calls logs =>
      change_driver (λ d, set_ready publisher sockets database calls
                            (match logs with Some l => Some l | None => dr_logs d end) d);;
      bs ← pure_check (encode_server_message (AttachedMessage ACTOR_EXECUTOR_PROTOCOL_VERSION actor));
      send_write {| ew_bytes := bs; ew_written := Some written |}
  end.

Definition handle_client_message (now : N) (m : ActorExecutorClientMessage) : driver unit :=
  match m with
  | ResidencyMessage resident => handle_residency now resident
  | ReadyForInvocation id => allow_next_invocation id
  | ReplyMessage id x => deliver id x
  | SocketEffects id effects => publish_effects id effects
  | DatabaseCallMessage call_id id c => call_database call_id id c
  | GetConnections id query => load_connections id query
  | ActorCallMessage call_id c => call_actor call_id c
  | LogMessage id level message => log_message id level message
  | WarmMessage _ | AttachMessage _ _ => pure_check (Err "customer actor executor attached more than once")
  end.

(** The branches of [select!]; [i] is the task that ended. *)
Inductive driver_event :=
| Inbound (m : result ActorExecutorClientMessage)
| DatabaseDone (i : nat) (x : result DatabaseResult)
| ActorCalled (i : nat) (outcome : Value)
| LookupDone (i : nat) (x : result SocketLookup)
| Requested (r : ExecutorRequest)
| WriterStops.

Definition driver_step (now : N) (e : driver_event) : driver unit :=
  match e with
  | Inbound m => m ← pure_check m; handle_client_message now m
  | DatabaseDone i x =>
      d ← the_driver;
      match dr_database_calls d !! i with
      | Some c =>
          change_driver (λ d, set_database_calls (delete i (dr_database_calls d)) (dr_database_ids d) d);;
          database_called c x
      | None => mret ()
      end
  | ActorCalled i outcome =>
      d ← the_driver;
      match dr_actor_calls d !! i with
      | Some (call_id, _, _) =>
          change_driver (λ d, set_actor_calls (delete i (dr_actor_calls d)) d);;
          write_message (ActorResultMessage call_id outcome)
      | None => mret ()
      end
  | LookupDone i x =>
      d ← the_driver;
      match dr_loading d !! i with
      | Some l =>
          change_driver (λ d, set_lookups (delete i (dr_loading d)) (dr_lookup_ids d) d);;
          connections_loaded l x
      | None => mret ()
      end
  | Requested r => handle_request r
  | WriterStops => change_driver set_writer_stopped
  end.

(** [ExecutorDriver::run]: the first error ends the connection. *)
Fixpoint driver_run (es : list (N * driver_event)) : driver unit :=
  match es with
  | [] => mret ()
  | (now, e) :: es => driver_step now e;; driver_run es
  end.
End messages.
