(* ===== verification/ExecutorSafety.v ===== *)
(** * What the connection to an actor's process promises

    Of the driver of [Executor], whatever the process sends: replies go to the
    command that asked, each once; an invocation's database calls run in its own
    scope, one at a time, and none is under way when its reply is taken; each
    invocation lets in at most one more. *)

From S2P Require Import Prelude Text Names StateLog Effects Lifecycle HostStorage Sqlite Capture Protocol ActorDatabase DatabaseService ActorHost Executor.
Local Open Scope N_scope.

Section executor_safety.
Context `{JsonValue} `{!ExecutorJson} `{!JsonOps} `{!Json Value} `{!StandardBase64}.
Abbreviation driver := (stated ExecutorDriver).
Implicit Types (d : ExecutorDriver) (p : PendingCommand).

Definition enqueued_id (e : TraceEntry) : option N := match e with Enqueued id _ => Some id | _ => None end.
Definition delivered_id (e : TraceEntry) : option N := match e with Delivered id _ _ => Some id | _ => None end.
Definition granted_id (e : TraceEntry) : option N := match e with Granted id => Some id | _ => None end.

(** The same command; it may have admitted another invocation meanwhile. *)
Definition same_command p0 p : Prop :=
  pn_command p = pn_command p0 ∧ pn_database p = pn_database p0 ∧ pn_reply p = pn_reply p0.

Record driver_ok d : Prop := {
  dk_bound id : id ∈ omap enqueued_id (dr_trace d) → id < dr_next_message_id d;
  dk_enqueued : NoDup (omap enqueued_id (dr_trace d));
  dk_delivered : NoDup (omap delivered_id (dr_trace d));
  dk_granted : NoDup (omap granted_id (dr_trace d));
  dk_admissions : dr_admissions d = N.of_nat (length (omap granted_id (dr_trace d)));
  dk_pending id p : dr_pending d !! id = Some p →
    (∃ p0, Enqueued id p0 ∈ dr_trace d ∧ same_command p0 p) ∧
    (Granted id ∈ dr_trace d → pn_admission_granted p = true);
  dk_replies id reply x : Delivered id reply x ∈ dr_trace d →
    dr_pending d !! id = None ∧ ∃ p0, Enqueued id p0 ∈ dr_trace d ∧ pn_reply p0 = reply;
  dk_grants id : Granted id ∈ dr_trace d → ∃ p0, Enqueued id p0 ∈ dr_trace d ∧ may_admit (pn_command p0) = true;
  dk_calls c id : c ∈ dr_database_calls d → oc_message_id c = Some id →
    id ∈ dr_database_ids d ∧ ∃ p, dr_pending d !! id = Some p ∧ oc_database c = pn_database p;
  dk_calls_once : NoDup (omap oc_message_id (dr_database_calls d));
  dk_lookups l : l ∈ dr_loading d → ol_message_id l ∈ dr_lookup_ids d ∧ is_Some (dr_pending d !! ol_message_id l);
  dk_lookups_once : NoDup (ol_message_id <$> dr_loading d);
}.

Definition keeps {A} (f : driver A) d : Prop := driver_ok d → driver_ok (f d).1.

Lemma keeps_ret {A} (x : A) d : keeps (mret x) d.
Proof. by intros Hd. Qed.

Lemma keeps_check {A} (x : result A) d : keeps (pure_check x) d.
Proof. by intros Hd. Qed.

Lemma keeps_the {A} (f : ExecutorDriver → driver A) d : keeps (f d) d → keeps (the_driver ≫= f) d.
Proof. intros Hf Hd. by apply Hf. Qed.

Lemma keeps_bind_check {A B} (x : result A) (f : A → driver B) d :
  (∀ a, x = Ok a → keeps (f a) d) → keeps (pure_check x ≫= f) d.
Proof. intros Hf Hd. unfold mbind, stated_bind, pure_check. destruct x as [a|e]; [by apply Hf|done]. Qed.

Lemma keeps_bind_ret {A B} (x : A) (f : A → driver B) d : keeps (f x) d → keeps (mret x ≫= f) d.
Proof. intros Hf Hd. by apply Hf. Qed.

Lemma driver_keeps_bind {A B} (g : driver A) (f : A → driver B) d :
  keeps g d → (∀ a d', keeps (f a) d') → keeps (g ≫= f) d.
Proof.
  intros Hg Hf Hd. specialize (Hg Hd). unfold mbind, stated_bind. destruct (g d) as [d' [a|e]]; [by apply Hf|done].
Qed.

Lemma keeps_bind_change {B} g (f : unit → driver B) d :
  (driver_ok d → driver_ok (g d)) → keeps (f ()) (g d) → keeps (change_driver g ≫= f) d.
Proof. intros Hg Hf Hd. by apply Hf, Hg. Qed.

Lemma keeps_change g d : (driver_ok d → driver_ok (g d)) → keeps (change_driver g) d.
Proof. intros Hg Hd. by apply Hg. Qed.

(** Writing concerns nobody else. *)
Lemma keeps_send w d : keeps (send_write w) d.
Proof.
  apply keeps_the, keeps_bind_check. intros [] _. apply keeps_change. intros Hd. by destruct Hd.
Qed.

Lemma keeps_write m d : keeps (write_message m) d.
Proof. apply keeps_bind_check. intros bs _. apply keeps_send. Qed.

(** Entries that none of the above is about. *)
Definition aside (e : TraceEntry) : Prop :=
  match e with Unsent _ _ | Output _ _ | Logged _ _ _ => True | _ => False end.

Lemma driver_ok_aside e d : aside e → driver_ok d → driver_ok (add_trace e d).
Proof.
  intros He [K1 K2 K3 K4 K5 K6 K7 K8 K9 K10 K11 K12].
  assert (omap enqueued_id [e] = [] ∧ omap delivered_id [e] = [] ∧ omap granted_id [e] = []) as (E1 & E2 & E3)
    by (by destruct e).
  assert (∀ e', e' ∈ dr_trace d ++ [e] → aside e' ∨ e' ∈ dr_trace d) as Hin.
  { intros e' [? | <-%list_elem_of_singleton]%elem_of_app; auto. }
  split; simpl; rewrite ?omap_app, ?E1, ?E2, ?E3, ?app_nil_r; try done.
  - intros id p Hp. destruct (K6 id p Hp) as [(p0 & Hp0 & Hs) Hg]. split.
    + exists p0. split; [|done]. apply elem_of_app. by left.
    + intros [[] | ?]%Hin. auto.
  - intros id reply x [[] | Hx]%Hin. destruct (K7 _ _ _ Hx) as (Hn & p0 & Hp0 & Hr). split; [done|]. exists p0.
    split; [|done]. apply elem_of_app. by left.
  - intros id [[] | Hx]%Hin. destruct (K8 _ Hx) as (p0 & Hp0 & Hr). exists p0. split; [|done]. apply elem_of_app. by left.
Qed.

(** What the handlers do. *)
Ltac in_trace := apply elem_of_app; left.

Lemma keeps_grant id d : keeps (allow_next_invocation id) d.
Proof.
  apply keeps_the, keeps_bind_check. intros p Hp%ctx_Ok. apply keeps_bind_check. intros [] Hm%ensure_Ok.
  apply keeps_bind_check. intros [] Hg%ensure_Ok%negb_true_iff. apply keeps_change.
  intros [K1 K2 K3 K4 K5 K6 K7 K8 K9 K10 K11 K12].
  destruct (K6 id p Hp) as [(p0 & Hp0 & (Ec & Ed & Er)) Hgr].
  split; simpl; rewrite ?omap_app; simpl; rewrite ?app_nil_r; try done.
  - apply NoDup_app. split_and!; [done| |repeat constructor; by apply not_elem_of_nil].
    intros x Hx ->%list_elem_of_singleton. apply list_elem_of_omap in Hx as ([] & Hin & [= <-]). rewrite Hgr in Hg; done.
  - rewrite length_app. simpl. lia.
  - intros id' p'. rewrite lookup_insert. case_decide as E; [subst id'; intros [= <-]|].
    + split; [|done]. exists p0. by split; [in_trace|].
    + intros Hp'. destruct (K6 _ _ Hp') as [(p1 & Hp1 & Hs) Hg1]. split; [exists p1; split; [by in_trace|done]|].
      intros [? | [= ->]%list_elem_of_singleton]%elem_of_app; [auto|done].
  - intros id' reply x [Hx | [=]%list_elem_of_singleton]%elem_of_app.
    destruct (K7 _ _ _ Hx) as (Hn & p1 & Hp1 & Hr). split; [|exists p1; split; [by in_trace|done]].
    rewrite lookup_insert_ne; [done|]. intros ->. congruence.
  - intros id' [Hx | [= ->]%list_elem_of_singleton]%elem_of_app.
    + destruct (K8 _ Hx) as (p1 & Hp1 & Hr). exists p1. split; [by in_trace|done].
    + exists p0. split; [by in_trace|]. congruence.
  - intros c id' Hc Hid. destruct (K9 _ _ Hc Hid) as (? & p' & Hp' & Ed'). split; [done|].
    rewrite lookup_insert. case_decide as E; [subst id'|by eauto]. exists (grant p). split; [done|]. simpl. congruence.
  - intros l Hl. destruct (K11 _ Hl) as [? Hs]. split; [done|]. rewrite lookup_insert. by case_decide.
Qed.

Lemma keeps_call_database call_id message_id c d : keeps (call_database call_id message_id c) d.
Proof.
  apply keeps_the. destruct (id ← message_id; p ← dr_pending d !! id; Some (id, p)) as [[id p]|] eqn:Ep.
  - assert (dr_pending d !! id = Some p) as Hp.
    { destruct message_id as [id'|]; [|done]. simpl in Ep. destruct (dr_pending d !! id') eqn:E; [|done]. simpl in Ep. by simplify_eq. }
    apply keeps_bind_check. intros [] Hn%ensure_Ok%bool_decide_eq_true. apply keeps_change.
    intros [K1 K2 K3 K4 K5 K6 K7 K8 K9 K10 K11 K12]. split; simpl; try done.
    + intros c' id' [Hc | ->%list_elem_of_singleton]%elem_of_app; [|intros [= <-]; simpl; split; [set_solver|by exists p]].
      intros Hid. destruct (K9 _ _ Hc Hid) as [? ?]. split; [set_solver|done].
    + rewrite omap_app. apply NoDup_app. split_and!; [done| |simpl; repeat constructor; by apply not_elem_of_nil].
      intros x Hx. simpl. intros ->%list_elem_of_singleton. apply list_elem_of_omap in Hx as (c' & Hc & Hid).
      by destruct (K9 _ _ Hc Hid).
  - apply keeps_bind_ret, keeps_change. intros [K1 K2 K3 K4 K5 K6 K7 K8 K9 K10 K11 K12]. split; simpl; try done.
    + intros c' id [Hc | ->%list_elem_of_singleton]%elem_of_app; [by apply K9|done].
    + rewrite omap_app. simpl. by rewrite app_nil_r.
Qed.

Lemma delete_once {A} (f : A → option N) (l : list A) i x id :
  NoDup (omap f l) → l !! i = Some x → f x = Some id → ∀ y, y ∈ delete i l → f y ≠ Some id.
Proof.
  intros Hnd Hi Hx y Hy Hf. rewrite <- (take_drop_middle l i x Hi), omap_app in Hnd. rewrite delete_take_drop in Hy.
  simpl in Hnd. rewrite Hx in Hnd. apply NoDup_app in Hnd as (_ & Hd & Hr). apply NoDup_cons in Hr as [Hn _].
  apply elem_of_app in Hy as [Hy|Hy].
  - apply (Hd id); [|set_solver]. apply list_elem_of_omap. eauto.
  - apply Hn. apply list_elem_of_omap. eauto.
Qed.

Lemma omap_delete_NoDup {A} (f : A → option N) (l : list A) i : NoDup (omap f l) → NoDup (omap f (delete i l)).
Proof.
  intros Hnd. rewrite delete_take_drop, omap_app. destruct (l !! i) as [x|] eqn:Hi.
  - rewrite <- (take_drop_middle l i x Hi), omap_app in Hnd. simpl in Hnd. apply NoDup_app in Hnd as (? & Hd & Hr).
    apply NoDup_app. destruct (f x); [|done]. apply NoDup_cons in Hr as [? ?]. split_and!; [done| |done]. set_solver.
  - rewrite drop_ge, app_nil_r by (apply lookup_ge_None in Hi; lia). by rewrite take_ge by (apply lookup_ge_None in Hi; lia).
Qed.

Lemma keeps_database_done i c x d :
  dr_database_calls d !! i = Some c →
  keeps (change_driver (λ d, set_database_calls (delete i (dr_database_calls d)) (dr_database_ids d) d);;
         database_called c x) d.
Proof.
  intros Hc Hd. assert (driver_ok (set_database_calls (delete i (dr_database_calls d))
    (match oc_message_id c with Some id => dr_database_ids d ∖ {[id]} | None => dr_database_ids d end) d)) as Hok.
  { destruct Hd as [K1 K2 K3 K4 K5 K6 K7 K8 K9 K10 K11 K12]. split; simpl; try done.
    - intros c' id Hc' Hid. assert (c' ∈ dr_database_calls d) as Hin.
      { apply list_elem_of_lookup in Hc' as [j Hj]. apply list_elem_of_lookup. rewrite list_lookup_delete in Hj.
        case_decide; eauto. }
      destruct (K9 _ _ Hin Hid) as [? ?]. split; [|done]. destruct (oc_message_id c) as [id0|] eqn:E0; [|done].
      assert (id ≠ id0); [|set_solver]. intros ->. by eapply (delete_once oc_message_id).
    - by apply omap_delete_NoDup. }
  apply (keeps_write _ _ Hok).
Qed.

Lemma keeps_lookup_done i l x d :
  dr_loading d !! i = Some l →
  keeps (change_driver (λ d, set_lookups (delete i (dr_loading d)) (dr_lookup_ids d) d);; connections_loaded l x) d.
Proof.
  intros Hl Hd. assert (driver_ok (set_lookups (delete i (dr_loading d)) (dr_lookup_ids d ∖ {[ol_message_id l]}) d)) as Hok.
  { destruct Hd as [K1 K2 K3 K4 K5 K6 K7 K8 K9 K10 K11 K12].
    assert (∀ ls : list OpenLookup, omap (λ l, Some (ol_message_id l)) ls = ol_message_id <$> ls) as E
      by (by intros ls; induction ls as [|y ls IH]; [|cbn; f_equal]).
    split; simpl; try done.
    - intros l' Hl'. assert (l' ∈ dr_loading d) as Hin.
      { apply list_elem_of_lookup in Hl' as [j Hj]. apply list_elem_of_lookup. rewrite list_lookup_delete in Hj.
        case_decide; eauto. }
      destruct (K11 _ Hin) as [? ?]. split; [|done]. assert (ol_message_id l' ≠ ol_message_id l); [|set_solver].
      intros Eq. rewrite <- E in K12. by eapply (delete_once (λ l, Some (ol_message_id l))); [| | |exact Hl'|rewrite Eq].
    - rewrite <- E in *. by apply omap_delete_NoDup. }
  apply (keeps_write _ _ Hok).
Qed.

Lemma keeps_load id query d : keeps (load_connections id query) d.
Proof.
  apply keeps_the, keeps_bind_check. intros p Hp%ctx_Ok. apply keeps_bind_check. intros [] _.
  apply keeps_bind_check. intros [] Hn%ensure_Ok%bool_decide_eq_true. apply keeps_change.
  intros [K1 K2 K3 K4 K5 K6 K7 K8 K9 K10 K11 K12]. split; simpl; try done.
  - intros l [Hl | ->%list_elem_of_singleton]%elem_of_app; [destruct (K11 _ Hl); split; [set_solver|done]|].
    simpl. split; [set_solver|by eauto].
  - rewrite fmap_app. apply NoDup_app. split_and!; [done| |simpl; repeat constructor; by apply not_elem_of_nil].
    intros x Hx. simpl. intros ->%list_elem_of_singleton. apply list_elem_of_fmap in Hx as (l & -> & Hl).
    by destruct (K11 _ Hl).
Qed.

Lemma driver_ok_enqueue p ws d :
  driver_ok d →
  driver_ok (add_trace (Enqueued (dr_next_message_id d) p) (set_commands (<[dr_next_message_id d := p]> (dr_pending d))
    (set_outbound ws (set_next_message (dr_next_message_id d + 1) d)))).
Proof.
  intros [K1 K2 K3 K4 K5 K6 K7 K8 K9 K10 K11 K12]. set (n := dr_next_message_id d) in *.
  assert (∀ q, Enqueued n q ∉ dr_trace d) as Hnew.
  { intros q Hq. assert (n < n); [|lia]. apply K1, list_elem_of_omap. by exists (Enqueued n q). }
  split; simpl; rewrite ?omap_app; simpl; rewrite ?app_nil_r; try done.
  - intros id [Hid | ->%list_elem_of_singleton]%elem_of_app; [specialize (K1 id Hid); lia|lia].
  - apply NoDup_app. split_and!; [done| |repeat constructor; by apply not_elem_of_nil].
    intros x Hx ->%list_elem_of_singleton. specialize (K1 _ Hx). lia.
  - intros id q. rewrite lookup_insert. case_decide as E; [subst id; intros [= <-]|].
    + split; [exists p; split; [apply elem_of_app; right; by apply list_elem_of_singleton|done]|].
      intros [Hg | [=]%list_elem_of_singleton]%elem_of_app. destruct (K8 _ Hg) as (p0 & Hp0 & _). by destruct (Hnew p0).
    + intros Hq. destruct (K6 _ _ Hq) as [(p1 & Hp1 & Hs) Hg]. split; [exists p1; split; [by in_trace|done]|].
      intros [? | [=]%list_elem_of_singleton]%elem_of_app. auto.
  - intros id reply x [Hx | [=]%list_elem_of_singleton]%elem_of_app. destruct (K7 _ _ _ Hx) as (Hn & p1 & Hp1 & Hr).
    split; [|exists p1; split; [by in_trace|done]]. rewrite lookup_insert_ne; [done|]. intros <-. by destruct (Hnew p1).
  - intros id [Hx | [=]%list_elem_of_singleton]%elem_of_app. destruct (K8 _ Hx) as (p1 & Hp1 & Hr).
    exists p1. split; [by in_trace|done].
  - intros c id Hc Hid. destruct (K9 _ _ Hc Hid) as (? & q & Hq & Eq). split; [done|]. exists q. split; [|done].
    rewrite lookup_insert_ne; [done|]. intros <-. destruct (K6 _ _ Hq) as [(p1 & Hp1 & _) _]. by destruct (Hnew p1).
  - intros l Hl. destruct (K11 _ Hl) as [? Hs]. split; [done|]. rewrite lookup_insert. by case_decide.
Qed.

Lemma keeps_enqueue p d : keeps (enqueue p) d.
Proof.
  apply keeps_the, keeps_bind_check. intros next Hnext%ctx_Ok. apply checked_add_Some in Hnext as [-> _].
  assert (driver_ok d → driver_ok (set_next_message (dr_next_message_id d + 1) d)) as Hok.
  { intros [K1 K2 K3 K4 K5 K6 K7 K8 K9 K10 K11 K12]. split; simpl; try done. intros id Hid. specialize (K1 id Hid). lia. }
  intros Hd. unfold mbind at 1, stated_bind at 1, change_driver at 1. cbv beta iota.
  destruct (encode_server_message _) as [bs|e]; [|by apply driver_ok_aside, Hok].
  unfold write, send_write. unfold mbind, stated_bind, the_driver, pure_check, change_driver. simpl.
  destruct (dr_writer_stopped d); simpl; [by apply Hok|]. by apply driver_ok_enqueue.
Qed.

Lemma keeps_deliver id x d : keeps (deliver id x) d.
Proof.
  apply keeps_the, keeps_bind_check. intros [] Hdb%ensure_Ok%bool_decide_eq_true.
  apply keeps_bind_check. intros [] Hlk%ensure_Ok%bool_decide_eq_true.
  apply keeps_bind_check. intros p Hp%ctx_Ok. apply keeps_change. intros [K1 K2 K3 K4 K5 K6 K7 K8 K9 K10 K11 K12].
  destruct (K6 id p Hp) as [(p0 & Hp0 & (Ec & Ed & Er)) _].
  split; simpl; rewrite ?omap_app; simpl; rewrite ?app_nil_r; try done.
  - apply NoDup_app. split_and!; [done| |repeat constructor; by apply not_elem_of_nil].
    intros y Hy ->%list_elem_of_singleton. apply list_elem_of_omap in Hy as ([] & Hin & [= <-]).
    destruct (K7 _ _ _ Hin) as [Hn _]. congruence.
  - intros id' q. rewrite lookup_delete_Some. intros [? Hq]. destruct (K6 _ _ Hq) as [(p1 & Hp1 & Hs) Hg].
    split; [exists p1; split; [by in_trace|done]|]. intros [? | [=]%list_elem_of_singleton]%elem_of_app. auto.
  - intros id' reply y [Hy | [= -> -> ->]%list_elem_of_singleton]%elem_of_app.
    + destruct (K7 _ _ _ Hy) as (Hn & p1 & Hp1 & Hr). split; [|exists p1; split; [by in_trace|done]].
      apply lookup_delete_None. by right.
    + split; [apply lookup_delete_None; by left|]. exists p0. split; [by in_trace|done].
  - intros id' [Hy | [=]%list_elem_of_singleton]%elem_of_app. destruct (K8 _ Hy) as (p1 & Hp1 & Hr).
    exists p1. split; [by in_trace|done].
  - intros c id' Hc Hid. destruct (K9 _ _ Hc Hid) as (Hin & q & Hq & Eq). split; [done|]. exists q. split; [|done].
    apply lookup_delete_Some. split; [|done]. intros <-. done.
  - intros l Hl. destruct (K11 _ Hl) as [Hin [q Hq]]. split; [done|]. exists q. apply lookup_delete_Some.
    split; [|done]. intros E. by rewrite E in Hlk.
Qed.

Lemma keeps_step now e d : keeps (driver_step now e) d.
Proof.
  destruct e as [m|i x|i outcome|i x|r|]; cbn [driver_step].
  - apply keeps_bind_check. intros m' _. destruct m' as [call_id id c|call_id c|pr|res|id query|id|id effects|pr ns|id x|id lv msg]; cbn [handle_client_message].
    + apply keeps_call_database.
    + apply keeps_change. by intros [].
    + apply keeps_check.
    + apply keeps_change. by intros [].
    + apply keeps_load.
    + apply keeps_grant.
    + apply keeps_the, keeps_bind_check. intros p _. cbv zeta.
      match goal with |- keeps (if ?c then _ else _) _ => destruct c end; [|apply keeps_ret].
      apply keeps_change. by apply driver_ok_aside.
    + apply keeps_check.
    + apply keeps_deliver.
    + apply keeps_the, keeps_change. by apply driver_ok_aside.
  - apply keeps_the. destruct (dr_database_calls d !! i) as [c|] eqn:Ec; [|apply keeps_ret]. by apply keeps_database_done.
  - apply keeps_the. destruct (dr_actor_calls d !! i) as [[[call_id h] c]|] eqn:Ec; [|apply keeps_ret].
    apply keeps_bind_change; [by intros []|]. apply keeps_write.
  - apply keeps_the. destruct (dr_loading d !! i) as [l|] eqn:El; [|apply keeps_ret]. by apply keeps_lookup_done.
  - destruct r as [p|actor written pub so db ca lo]; simpl; [apply keeps_enqueue|].
    apply keeps_bind_change; [by intros []|]. apply keeps_bind_check. intros bs _. apply keeps_send.
  - apply keeps_change. by intros [].
Qed.

Lemma keeps_run es d : keeps (driver_run es) d.
Proof.
  revert d. induction es as [|[now e] es IH]; intros d; [apply keeps_ret|]. simpl. apply driver_keeps_bind; [apply keeps_step|].
  intros [] d'. apply IH.
Qed.

Lemma driver_new_ok : driver_ok driver_new.
Proof.
  split; simpl; try (by constructor); try done; intros *; rewrite ?lookup_empty, ?elem_of_nil; done.
Qed.

(** C28. Replies of the actor's process reach the command that asked: whatever the
    process sends and in whatever order, every message ID stands for one command, a
    reply goes to the channel of the command sent under its ID, and at most once. Each
    invocation lets in at most one further invocation, and only invocations do. *)
Theorem replies_reach_their_command (es : list (N * driver_event)) d x :
  driver_run es driver_new = (d, x) →
  NoDup (omap enqueued_id (dr_trace d)) ∧ NoDup (omap delivered_id (dr_trace d)) ∧
  (∀ id reply y, Delivered id reply y ∈ dr_trace d → ∃ p, Enqueued id p ∈ dr_trace d ∧ pn_reply p = reply) ∧
  NoDup (omap granted_id (dr_trace d)) ∧ dr_admissions d = N.of_nat (length (omap granted_id (dr_trace d))) ∧
  ∀ id, Granted id ∈ dr_trace d → ∃ p, Enqueued id p ∈ dr_trace d ∧ may_admit (pn_command p) = true.
Proof.
  intros Hrun. assert (driver_ok d) as [].
  { replace d with (driver_run es driver_new).1 by by rewrite Hrun. apply keeps_run, driver_new_ok. }
  split_and!; try done. intros id reply y Hy. by apply (dk_replies0 id reply y).
Qed.

(** C29. The database calls of an invocation stay in its scope: each call that is under
    way for an invocation uses the database the command was given, no two calls of one
    invocation overlap, and the invocation has not been answered yet; so when its
    reply arrives none of its calls is open. *)
Theorem database_calls_scoped (es : list (N * driver_event)) d x :
  driver_run es driver_new = (d, x) →
  (∀ c id, c ∈ dr_database_calls d → oc_message_id c = Some id →
     (∃ p, Enqueued id p ∈ dr_trace d ∧ oc_database c = pn_database p) ∧
     ∀ reply y, Delivered id reply y ∉ dr_trace d) ∧
  NoDup (omap oc_message_id (dr_database_calls d)).
Proof.
  intros Hrun. assert (driver_ok d) as [].
  { replace d with (driver_run es driver_new).1 by by rewrite Hrun. apply keeps_run, driver_new_ok. }
  split; [|done]. intros c id Hc Hid. destruct (dk_calls0 c id Hc Hid) as (_ & p & Hp & Ed).
  destruct (dk_pending0 id p Hp) as [(p0 & Hp0 & (_ & Ed' & _)) _]. split; [exists p0; split; [done|congruence]|].
  intros reply y Hy. destruct (dk_replies0 id reply y Hy) as [Hn _]. congruence.
Qed.

(** ** Messages are lines *)

Lemma read_until_app delimiter s line rest : read_until delimiter s = (line, rest) → s = line ++ rest.
Proof.
  revert line rest. induction s as [|x s IH]; intros line rest; simpl; [by intros [= <- <-]|].
  case_bool_decide; [by intros [= <- <-]|]. destruct (read_until delimiter s) as [line' rest'] eqn:E.
  intros [= <- <-]. simpl. f_equal. by apply IH.
Qed.

Lemma read_until_line delimiter bs rest :
  delimiter ∉ bs → read_until delimiter (bs ++ delimiter :: rest) = (bs ++ [delimiter], rest).
Proof.
  induction bs as [|x bs IH]; intros Hn; simpl; [by rewrite bool_decide_true|].
  apply not_elem_of_cons in Hn as [Hx Hn]. rewrite bool_decide_false by congruence. by rewrite IH.
Qed.

Lemma trim_line bs : trim_ascii_end bs = bs → trim_ascii_end (bs ++ [x0a]) = bs.
Proof. intros Hb. unfold trim_ascii_end. by rewrite rev_app_distr. Qed.

Lemma read_shrinks s m rest : read_client_message s = Ok (Some m, rest) → (length rest < length s)%nat.
Proof.
  unfold read_client_message. destruct (read_until x0a s) as [line rest'] eqn:E. apply read_until_app in E as ->.
  destruct line as [|x line]; [done|]. intros (m' & _ & [= _ <-])%bind_Ok. rewrite length_app. simpl. lia.
Qed.

Lemma read_ends fuel s :
  (length s < fuel)%nat → ∃ ms e, read_executor_messages fuel s = (Ok <$> ms) ++ [Err e].
Proof.
  revert s. induction fuel as [|fuel IH]; intros s Hs; [lia|]. simpl.
  destruct (read_client_message s) as [[[m|] rest]|e] eqn:E; [|by eexists [], _|by exists [], e].
  apply read_shrinks in E. destruct (IH rest) as (ms & e & ->); [lia|]. by exists (m :: ms), e.
Qed.

(** The document of a message: one line that does not end in whitespace. *)
Definition document (m : ActorExecutorClientMessage) (bs : bytes) : Prop :=
  client_json bs = Some m ∧ x0a ∉ bs ∧ trim_ascii_end bs = bs.

(** The messages of the process are read in the order in which they were written:
    whatever it sends, the reader stops at the end of the stream or at the first
    malformed line, and a stream of well-formed lines is read to its end. *)
Theorem messages_read_in_order (s : bytes) (ds : list (ActorExecutorClientMessage * bytes)) :
  (∃ ms e, read_executor_messages (S (length s)) s = (Ok <$> ms) ++ [Err e]) ∧
  (Forall (λ x, document x.1 x.2) ds → s = ds ≫= (λ x, x.2 ++ [x0a]) →
   read_executor_messages (S (length s)) s =
     (Ok <$> (fst <$> ds)) ++ [Err "customer JavaScript actor executor disconnected"]).
Proof.
  split; [apply read_ends; lia|]. intros Hds ->.
  assert (∀ fuel, (length ds < fuel)%nat → read_executor_messages fuel (ds ≫= (λ x, x.2 ++ [x0a])) =
    (Ok <$> (fst <$> ds)) ++ [Err "customer JavaScript actor executor disconnected"]) as Hread.
  { induction Hds as [|[m bs] ds (Hj & Hn & Ht) Hds IH]; intros fuel Hf; (destruct fuel as [|fuel]; [simpl in Hf; lia|]); [done|].
    cbn [length] in Hf. simpl in Hj, Hn, Ht. rewrite bind_cons. simpl. unfold read_client_message.
    rewrite <- app_assoc. simpl. rewrite read_until_line by done. destruct (bs ++ [x0a]) eqn:E; [by destruct bs|].
    rewrite <- E, trim_line, Hj by done. simpl. f_equal. apply IH. lia. }
  apply Hread. clear. induction ds as [|[m bs] ds IH]; [simpl; lia|]. rewrite bind_cons, !length_app. simpl in *. lia.
Qed.
End executor_safety.
