(* ===== verification/ActorHostDemo.v ===== *)
(** * A mailbox at work

    The mailbox of [ActorHost] run on concrete events: a method is carried out and
    answered while a second one waits, and a drain lets in a disconnect only. *)

From S2P Require Import Prelude Text Demo Names StateLog Effects Lifecycle HostStorage Sqlite Capture Protocol ActorDatabase DatabaseService ActorHost ActorHostSafety Executor ExecutorSafety.
Local Open Scope N_scope.

Module Stand_in_values.
Import Stand_ins Stand_in_commits.

#[export] Instance demo_values : JsonOps :=
  {| value_null := []; value_is_object _ := true; value_get _ _ := None |}.
#[export] Instance demo_value_json : Json Value := demo_json (A:=bytes).
#[export] Instance demo_standard_base64 : StandardBase64 := Some.
End Stand_in_values.

Import Stand_ins Stand_in_commits Stand_in_values.

Definition demo_method (id : string) (reply : N) : ActorRequest :=
  {| rq_operation := MethodOperation {| inv_request_id := b id; inv_actor := demo_actor; inv_method := b"rename"; inv_args := [] |};
     rq_owner_epoch := 1; rq_reply := reply |}.

Definition demo_disconnect (reply : N) : ActorRequest :=
  {| rq_operation := SocketOperation {| sock_request_id := b"d"; sock_actor := demo_actor; sock_connections := [];
       sock_event := Disconnect {| conn_id := b"c1"; conn_metadata := ([] : Value); conn_tags := [] |} 1000 [] true |};
     rq_owner_epoch := 1; rq_reply := reply |}.

(** An executor and a database that serve every call. *)
Definition demo_answers (c : request_call) : reply_of c :=
  match c with
  | CallOpen _ _ _ => 1
  | CallClose _ | CallPublish _ | CallReply _ _ => ()
  | CallPrepare _ _ => Ok Execute
  | CallComplete _ _ _ => Ok 7
  | CallAuthority => Ok ()
  | CallActivate => Err "not activated"
  | CallHydrated a _ => Ok a
  | CallSupports _ => true
  | CallHydrate _ _ => Ok ()
  | CallInvoke _ _ => Ok (MethodCompleted (b"done" : Value) [StateUpdate ([] : Value) [] [] None])
  | CallSocket _ _ => Ok (SocketHandled [])
  end.

Definition demo_moment : Moment := {| m_now_ms := Ok 5; m_instant := 5; m_uuid := b"u" |}.

Definition demo_events : list (Moment * event) :=
  pair demo_moment <$>
    [Sent (RequestMessage (demo_method "r1" 1)); Sent (RequestMessage (demo_method "r2" 2)); Received; Received] ++
    repeat (Answers 1 demo_answers) 8 ++ [TaskCompleted 1] ++
    [Sent DrainMessage; Sent (RequestMessage (demo_method "r3" 3)); Sent (RequestMessage (demo_disconnect 4))] ++
    repeat Received 3 ++ repeat (Answers 2 demo_answers) 8 ++ [TaskCompleted 2].

Definition demo_mailbox : Actor := actor_steps demo_events (actor_new demo_actor false 0).

(** Both methods are answered with their results, the third request is turned away,
    and the disconnect is running. *)
Example demo_mailbox_runs :
  (omap (λ e, match e with Finished r res _ => Some (rq_reply r, res) | _ => None end) (ac_log demo_mailbox),
   (λ x, rq_reply (rn_request x)) <$> ac_running demo_mailbox) =
  ([(1, Ok (Completed (b"done" : Value) [])); (3, Ok HostUnavailable); (2, Ok (Completed (b"done" : Value) []))], [4]).
Proof. vm_compute. reflexivity. Qed.

Definition demo_entry : LogEntry := default Drained (ac_log demo_mailbox !! 1%nat).

Definition demo_calls : list {c : request_call & reply_of c} :=
  match demo_entry with Finished _ _ l => l | _ => [] end.

Lemma answers_are_durable_witness :
  (∀ v effects, Ok (Completed (b"done" : Value) []) = Ok (Completed v effects) → justified demo_calls v effects) ∧
  ∀ l1 x l2, demo_calls = l1 ++ x :: l2 → allowed l1 (projT1 x).
Proof.
  apply (answers_are_durable demo_actor false 0 demo_events (demo_method "r1" 1)).
  apply list_elem_of_lookup. exists 1%nat. vm_compute. reflexivity.
Defined.

Lemma drain_starts_disconnects_witness : is_disconnect (rq_operation (demo_disconnect 4)) = true.
Proof.
  apply (drain_starts_disconnects demo_actor false 0 demo_events (take 3 (ac_log demo_mailbox)) (drop 4 (ac_log demo_mailbox)) 3).
  - vm_compute. reflexivity.
  - apply list_elem_of_lookup. exists 2%nat. vm_compute. reflexivity.
Defined.

(** * The connection to an actor's process at work

    The driver of [Executor] on concrete messages. *)

(** Messages by their kind. *)
#[local] Instance demo_executor_json : ExecutorJson := {|
  server_json m := Ok (match m with CommandMessage id _ => b"command " ++ show_dec id | _ => b"message" end);
  client_json s :=
    if bool_decide (s = b"ready") then Some (ReadyForInvocation 1)
    else if bool_decide (s = b"commit") then Some (DatabaseCallMessage 5 (Some 1) Commit)
    else if bool_decide (s = b"reply") then Some (ReplyMessage 1 (InvokedReply ([] : Value) None []))
    else None;
|}.

Definition demo_exchange (reply : N) : driver_event :=
  Requested (Exchange {| pn_command := InvokeCommand {| mi_request_id := b"r1"; mi_method := b"rename"; mi_args := [] |};
                         pn_database := Some reply; pn_admission_granted := false; pn_reply := reply |}).

Definition demo_inbound (s : string) : driver_event :=
  Inbound (ctx (client_json (b s)) "malformed").

Definition demo_connection : list (N * driver_event) :=
  pair 0 <$> [demo_exchange 7; demo_inbound "ready"; demo_exchange 8; demo_inbound "commit"; DatabaseDone 0 (Ok DoneResult);
              demo_inbound "reply"; demo_inbound "commit"].

(** The second database call comes too late for the invocation and runs in the
    background scope, which is not set. *)
Example demo_driver_runs :
  let '(d, x) := driver_run demo_connection driver_new in
  (x, omap (λ e, match e with Delivered id reply _ => Some (id, reply) | _ => None end) (dr_trace d), dr_admissions d,
   (λ c, (oc_message_id c, oc_database c)) <$> dr_database_calls d, len (dr_outbound d)) =
  (Ok (), [(1, 7)], 1, [(None, None)], 3).
Proof. vm_compute. reflexivity. Qed.

(** A reply while a database call is open ends the connection. *)
Example demo_driver_stops :
  snd (driver_run (take 4 demo_connection ++ [(0, demo_inbound "reply")]) driver_new) =
  Err "actor replied before its database call completed".
Proof. vm_compute. reflexivity. Qed.

Definition demo_driven : ExecutorDriver := fst (driver_run demo_connection driver_new).

Lemma replies_reach_their_command_witness :
  NoDup (omap enqueued_id (dr_trace demo_driven)) ∧ NoDup (omap delivered_id (dr_trace demo_driven)) ∧
  (∀ id reply y, Delivered id reply y ∈ dr_trace demo_driven →
     ∃ p, Enqueued id p ∈ dr_trace demo_driven ∧ pn_reply p = reply) ∧
  NoDup (omap granted_id (dr_trace demo_driven)) ∧
  dr_admissions demo_driven = N.of_nat (length (omap granted_id (dr_trace demo_driven))) ∧
  ∀ id, Granted id ∈ dr_trace demo_driven → ∃ p, Enqueued id p ∈ dr_trace demo_driven ∧ may_admit (pn_command p) = true.
Proof. apply (replies_reach_their_command demo_connection demo_driven (Ok ())). vm_compute. reflexivity. Defined.

Definition demo_calling : ExecutorDriver := fst (driver_run (take 4 demo_connection) driver_new).

Lemma database_calls_scoped_witness :
  (∀ c id, c ∈ dr_database_calls demo_calling → oc_message_id c = Some id →
     (∃ p, Enqueued id p ∈ dr_trace demo_calling ∧ oc_database c = pn_database p) ∧
     ∀ reply y, Delivered id reply y ∉ dr_trace demo_calling) ∧
  NoDup (omap oc_message_id (dr_database_calls demo_calling)).
Proof. apply (database_calls_scoped (take 4 demo_connection) demo_calling (Ok ())). vm_compute. reflexivity. Defined.

Lemma messages_read_in_order_witness :
  read_executor_messages (S (length (b"ready
reply
"))) (b"ready
reply
") = [Ok (ReadyForInvocation 1); Ok (ReplyMessage 1 (InvokedReply ([] : Value) None []));
      Err "customer JavaScript actor executor disconnected"].
Proof.
  apply (messages_read_in_order _ [(ReadyForInvocation 1, b"ready"); (ReplyMessage 1 (InvokedReply ([] : Value) None []), b"reply")]).
  - repeat constructor; try (by vm_compute); apply (bool_decide_unpack _); vm_compute; exact I.
  - reflexivity.
Defined.
