(* ===== verification/Sockets.v ===== *)
(** * Sockets of one gateway

    The registry of the WebSocket connections a gateway holds
    ([src/src/sockets/mod.rs]), what a host asks of it
    ([src/src/sockets/operations.rs]) and the host's side of that
    ([src/src/host/sockets.rs]).

    Every method takes the lock of the registry once, so it is a function on the
    registry; [apply] is one such function per effect. A [SocketSender] is the number
    of its channel, and [outbox] lists what was sent, oldest first. The order in which
    a [HashMap] is visited is unspecified; no theorem depends on it. *)

From S2P Require Import Prelude Text Effects Btree Names StateLog Protocol LifecycleStore Executor.
Local Open Scope N_scope.

(** [mpsc::UnboundedSender<OutboundMessage>] *)
Abbreviation SocketSender := N.

Section sockets.
Context `{JsonValue}.

Definition DEFAULT_MAX_CONNECTIONS : N := 32768.

Definition max_connections_of (parsed : option (result N)) : result N :=
  value ← match parsed with None => Ok DEFAULT_MAX_CONNECTIONS | Some r => r end;
  ensure ((1 <=? value) && (value <=? DEFAULT_MAX_CONNECTIONS))
    "DURABLE_ACTORS_SOCKET_MAX_CONNECTIONS must be between 1 and 32768";;
  Ok value.

(** A [Control] value by its fields. *)
Inductive ControlMessage :=
| StateControl (state : Value) (version : N)
| StateUpdateControl (changes : Value) (removed : list bytes) (version : N).

Inductive OutboundMessage :=
| OutMessage (message : ActorSocketMessage)
| OutControl (value : ControlMessage)
| OutClose (code : N) (reason : bytes).

Record RegisteredSocket := {
  rs_connection : ActorSocketConnection;
  rs_outbound : SocketSender;
  rs_open : bool;
  rs_state_ready : bool;
}.

Record RoomSockets := {
  room_connections : gmap bytes RegisteredSocket;
  room_active : N;
  room_auto_response : option (bytes * bytes);
}.

Record SocketRegistry := {
  reg_max : N;
  reg_entries : gmap ActorKey RoomSockets;
  outbox : list (SocketSender * OutboundMessage);
}.

Definition room_default : RoomSockets :=
  {| room_connections := ∅; room_active := 0; room_auto_response := None |}.

Definition with_max_connections (n : N) : SocketRegistry :=
  {| reg_max := n; reg_entries := ∅; outbox := [] |}.

Implicit Types (g : SocketRegistry) (a : ActorKey) (r : RoomSockets) (x : RegisteredSocket).

Definition set_entries (m : gmap ActorKey RoomSockets) g : SocketRegistry :=
  {| reg_max := reg_max g; reg_entries := m; outbox := outbox g |}.
Definition send_all (l : list (SocketSender * OutboundMessage)) g : SocketRegistry :=
  {| reg_max := reg_max g; reg_entries := reg_entries g; outbox := outbox g ++ l |}.
Definition set_connections (m : gmap bytes RegisteredSocket) r : RoomSockets :=
  {| room_connections := m; room_active := room_active r; room_auto_response := room_auto_response r |}.
Definition set_active (n : N) r : RoomSockets :=
  {| room_connections := room_connections r; room_active := n; room_auto_response := room_auto_response r |}.
Definition set_auto_response (p : option (bytes * bytes)) r : RoomSockets :=
  {| room_connections := room_connections r; room_active := room_active r; room_auto_response := p |}.
Definition set_open (open : bool) x : RegisteredSocket :=
  {| rs_connection := rs_connection x; rs_outbound := rs_outbound x; rs_open := open;
     rs_state_ready := rs_state_ready x |}.
Definition set_state_ready x : RegisteredSocket :=
  {| rs_connection := rs_connection x; rs_outbound := rs_outbound x; rs_open := rs_open x; rs_state_ready := true |}.
Definition set_connection (c : ActorSocketConnection) x : RegisteredSocket :=
  {| rs_connection := c; rs_outbound := rs_outbound x; rs_open := rs_open x; rs_state_ready := rs_state_ready x |}.
Definition with_metadata (v : Value) (c : ActorSocketConnection) : ActorSocketConnection :=
  {| conn_id := conn_id c; conn_metadata := v; conn_tags := conn_tags c |}.
Definition with_tags (tags : list bytes) (c : ActorSocketConnection) : ActorSocketConnection :=
  {| conn_id := conn_id c; conn_metadata := conn_metadata c; conn_tags := tags |}.

(** [room.values()] *)
Definition values r : list RegisteredSocket := snd <$> map_to_list (room_connections r).

(** [entries.get(actor)], with no sockets where there is no room. *)
Definition room_of a g : RoomSockets := default room_default (reg_entries g !! a).
Definition socket_of a (id : bytes) g : option RegisteredSocket := room_connections (room_of a g) !! id.

(** [get_mut(actor).and_then(|connections| connections.get_mut(id))] *)
Definition update_socket a (id : bytes) (f : RegisteredSocket → RegisteredSocket) g : SocketRegistry :=
  match reg_entries g !! a with
  | None => g
  | Some r =>
      match room_connections r !! id with
      | None => g
      | Some x => set_entries (<[a := set_connections (<[id := f x]> (room_connections r)) r]> (reg_entries g)) g
      end
  end.

Definition project_ids g : gset bytes := set_map project_id (dom (reg_entries g)).

Definition close_room (p : ActorKey → bool) (code : N) (reason : bytes) (e : ActorKey * RoomSockets)
    : list (SocketSender * OutboundMessage) :=
  if p e.1 then (λ x, (rs_outbound x, OutClose code reason)) <$> values e.2 else [].

Definition close_sockets (p : ActorKey → bool) (code : N) (reason : bytes) g : SocketRegistry :=
  send_all (concat (close_room p code reason <$> map_to_list (reg_entries g))) g.

Definition close_project (project : bytes) : N → bytes → SocketRegistry → SocketRegistry :=
  close_sockets (λ a, project_id a == project).
Definition close_all : N → bytes → SocketRegistry → SocketRegistry := close_sockets (λ _, true).

Record ActorSocketInventory := {
  inv_room_actor : ActorKey;
  inv_room_connections : list ActorSocketConnection;
}.

(** [a.id.cmp(&b.id)] and the comparison of a name and an id *)
Definition conn_leb (x y : ActorSocketConnection) : bool := negb (bytes_ltb (conn_id y) (conn_id x)).
Definition named_leb (x y : ActorSocketInventory) : bool :=
  let key i := (actor_name (inv_room_actor i), actor_id (inv_room_actor i)) in
  negb (bytes_ltb (key y).1 (key x).1) && (((key x).1 != (key y).1) || negb (bytes_ltb (key y).2 (key x).2)).

Definition open_connections r : list ActorSocketConnection := rs_connection <$> List.filter rs_open (values r).

Definition room_inventory (project : bytes) (e : ActorKey * RoomSockets) : option ActorSocketInventory :=
  let cs := sort_by conn_leb (open_connections e.2) in
  if (project_id e.1 == project) && (cs != []) then Some {| inv_room_actor := e.1; inv_room_connections := cs |}
  else None.

Definition inventory (project : bytes) g : list ActorSocketInventory :=
  sort_by named_leb (omap (room_inventory project) (map_to_list (reg_entries g))).

Definition registry_insert a (c : ActorSocketConnection) (outbound : SocketSender) g : SocketRegistry * bool :=
  let r := room_of a g in
  if reg_max g <=? N.of_nat (size (room_connections r)) then (set_entries (<[a := r]> (reg_entries g)) g, false)
  else
    let x := {| rs_connection := c; rs_outbound := outbound; rs_open := false; rs_state_ready := false |} in
    (set_entries (<[a := set_connections (<[conn_id c := x]> (room_connections r)) r]> (reg_entries g)) g, true).

(** [connections.is_empty() && connections.auto_response.is_none()] *)
Definition room_unused r : bool :=
  bool_decide (room_connections r = ∅) && bool_decide (room_auto_response r = None).

Definition registry_remove a (id : bytes) g : SocketRegistry * option ActorSocketConnection :=
  match reg_entries g !! a with
  | None => (g, None)
  | Some r =>
      let removed := room_connections r !! id in
      let r := set_connections (delete id (room_connections r)) r in
      let r := match removed with
               | Some x => if rs_open x then set_active (wrap_u64 (room_active r + u64_max)) r else r
               | None => r
               end in
      (set_entries (if room_unused r then delete a (reg_entries g) else <[a := r]> (reg_entries g)) g,
       rs_connection <$> removed)
  end.

Definition connections_with_tag a (tag : option bytes) g : list ActorSocketConnection :=
  rs_connection <$> List.filter (λ x, rs_open x &&
    match tag with None => true | Some t => bool_decide (t ∈ conn_tags (rs_connection x)) end) (values (room_of a g)).

Definition registry_count a g : N := match reg_entries g !! a with Some r => room_active r | None => 0 end.

Definition auto_response a (message : bytes) g : option bytes :=
  r ← reg_entries g !! a;
  p ← room_auto_response r;
  if p.1 == message then Some p.2 else None.

Definition prepare_event a (e : ActorSocketEvent) g
    : SocketRegistry * (ActorSocketEvent * list ActorSocketConnection) :=
  match e with
  | Connect c => (g, (Connect c, [c]))
  | Message id m => (g, (Message id m, option_list (rs_connection <$> socket_of a id g)))
  | Disconnect c code reason clean =>
      let '(g, removed) := registry_remove a (conn_id c) g in
      (g, (Disconnect (default c removed) code reason clean, []))
  end.

Definition registry_activate a (id : bytes) g : SocketRegistry :=
  match reg_entries g !! a with
  | None => g
  | Some r =>
      match room_connections r !! id with
      | None => g
      | Some x =>
          if rs_open x then g
          else set_entries (<[a := set_active (wrap_u64 (room_active r + 1))
                 (set_connections (<[id := set_open true x]> (room_connections r)) r)]> (reg_entries g)) g
      end
  end.

(** ** Effects *)

(** A broadcast is for this connection. *)
Definition broadcast_to (except tags : list bytes) (how : ActorSocketTagMatch) (open : bool)
    (c : ActorSocketConnection) : bool :=
  open && negb (bool_decide (conn_id c ∈ except)) &&
  (bool_decide (tags = []) ||
   match how with
   | MatchAll => forallb (λ t, bool_decide (t ∈ conn_tags c)) tags
   | MatchAny => existsb (λ t, bool_decide (t ∈ conn_tags c)) tags
   end).

Definition send_to a (id : bytes) (m : OutboundMessage) g : SocketRegistry :=
  send_all ((λ x, (rs_outbound x, m)) <$> option_list (socket_of a id g)) g.

Definition send_where a (p : RegisteredSocket → bool) (m : OutboundMessage) g : SocketRegistry :=
  send_all ((λ x, (rs_outbound x, m)) <$> List.filter p (values (room_of a g))) g.

Definition apply_one a (e : ActorSocketEffect) g : SocketRegistry :=
  match e with
  | SetAutoResponse (Some request) (Some response) =>
      set_entries (<[a := set_auto_response (Some (request, response)) (room_of a g)]> (reg_entries g)) g
  | SetAutoResponse _ _ =>
      match reg_entries g !! a with
      | Some r =>
          let r := set_auto_response None r in
          set_entries (if bool_decide (room_connections r = ∅) then delete a (reg_entries g)
                       else <[a := r]> (reg_entries g)) g
      | None => g
      end
  | StateSnapshotEffect id state (Some version) =>
      send_to a id (OutControl (StateControl state version)) (update_socket a id set_state_ready g)
  | StateSnapshotEffect _ _ None => g
  | StateUpdate changes removed except (Some version) =>
      send_where a (λ x, rs_state_ready x && negb (bool_decide (conn_id (rs_connection x) ∈ except)))
        (OutControl (StateUpdateControl changes removed version)) g
  | StateUpdate _ _ _ None => g
  | Broadcast m except tags how =>
      send_where a (λ x, broadcast_to except tags how (rs_open x) (rs_connection x)) (OutMessage m) g
  | SetMetadata id v => update_socket a id (λ x, set_connection (with_metadata v (rs_connection x)) x) g
  | SetTags id tags => update_socket a id (λ x, set_connection (with_tags tags (rs_connection x)) x) g
  | Send id m => send_to a id (OutMessage m) g
  | Close id code reason | Reject id code reason => send_to a id (OutClose code reason) g
  end.

Definition registry_apply a (es : list ActorSocketEffect) g : SocketRegistry := foldl (λ g e, apply_one a e g) g es.

(** ** What a host asks *)

Inductive SocketOperation :=
| PublishOperation (effects : list ActorSocketEffect)
| ConnectionsOperation (tag : option bytes)
| CountOperation.

Inductive SocketOperationReply :=
| Published
| ConnectionsReply (connections : list ActorSocketConnection)
| CountReply (count : N).

Context `{!JsonOps} `{!Json Value} `{!StandardBase64}.

Definition registry_execute a (o : SocketOperation) g : SocketRegistry * result SocketOperationReply :=
  match o with
  | PublishOperation effects =>
      match validate_socket_effects effects with
      | Ok _ => (registry_apply a effects g, Ok Published)
      | Err e => (g, Err e)
      end
  | ConnectionsOperation tag => (g, Ok (ConnectionsReply (connections_with_tag a tag g)))
  | CountOperation => (g, Ok (CountReply (registry_count a g)))
  end.

(** [HostSockets]: the operations of one actor, against the gateway [execute]. *)
Section host.
Context {G : Type} (execute : ActorKey → SocketOperation → G → G * result SocketOperationReply).

Definition host_publish (authority : result unit) a (effects : list ActorSocketEffect) (s : G) : G * result unit :=
  match (authority;; validate_socket_effects effects) with
  | Err e => (s, Err e)
  | Ok _ =>
      if bool_decide (effects = []) then (s, Ok ())
      else let '(s, r) := execute a (PublishOperation effects) s in (s, r ≫= λ _, Ok ())
  end.

Definition host_query (authority : result unit) a (q : SocketQuery) (s : G) : G * result (SocketLookup) :=
  match authority with
  | Err e => (s, Err e)
  | Ok _ =>
      let o := if count_only q then CountOperation else ConnectionsOperation (query_tag q) in
      let '(s, r) := execute a o s in
      (s, r ≫= λ reply,
        match reply with
        | ConnectionsReply cs => Ok (Connections cs)
        | CountReply n => Ok (Count n)
        | Published => Err "unexpected connection lookup reply"
        end)
  end.
End host.
End sockets.
