(* ===== verification/SocketSafety.v ===== *)
(** * What a connection sees

    The registry of a gateway ([Sockets]) holds the connections of many actors in
    shared maps. The theorems say that nothing of the sharing shows: the number of
    open connections it keeps is the number of those it lists, and what is sent to a
    connection is what a machine for that connection alone would send. *)

From S2P Require Import Prelude Text Effects Btree Names StateLog Protocol LifecycleStore Executor Sockets.
Local Open Scope N_scope.

Section safety.
Context `{JsonValue}.
Implicit Types (g : SocketRegistry) (a : ActorKey) (r : RoomSockets) (x : RegisteredSocket) (ch : SocketSender).

(** The calls on a registry, one per turn of its lock. *)
Inductive registry_op :=
| InsertOp (a : ActorKey) (c : ActorSocketConnection) (outbound : SocketSender)
| RemoveOp (a : ActorKey) (id : bytes)
| EventOp (a : ActorKey) (e : ActorSocketEvent)
| ActivateOp (a : ActorKey) (id : bytes)
| EffectOp (a : ActorKey) (e : ActorSocketEffect)
| CloseProjectOp (project : bytes) (code : N) (reason : bytes)
| CloseAllOp (code : N) (reason : bytes).

Definition registry_step (o : registry_op) g : SocketRegistry :=
  match o with
  | InsertOp a c ch => (registry_insert a c ch g).1
  | RemoveOp a id => (registry_remove a id g).1
  | EventOp a e => (prepare_event a e g).1
  | ActivateOp a id => registry_activate a id g
  | EffectOp a e => apply_one a e g
  | CloseProjectOp p code reason => close_project p code reason g
  | CloseAllOp code reason => close_all code reason g
  end.

Definition registry_run (os : list registry_op) g : SocketRegistry := foldl (λ g o, registry_step o g) g os.

(** ** Rooms *)

Definition open_sockets r : list RegisteredSocket := List.filter rs_open (values r).

Record room_ok (limit : N) r : Prop := {
  room_counts : room_active r = len (open_sockets r);
  room_within : N.of_nat (size (room_connections r)) ≤ limit;
  room_used : room_unused r = false;
  room_filed id x : room_connections r !! id = Some x → conn_id (rs_connection x) = id;
}.

Record registry_ok g : Prop := {
  registry_limit : 1 ≤ reg_max g ≤ DEFAULT_MAX_CONNECTIONS;
  registry_rooms a r : reg_entries g !! a = Some r → room_ok (reg_max g) r;
}.

(** Connection ids are new: a connection is not registered while another one of its
    actor has its id. *)
Definition op_fresh g (o : registry_op) : Prop :=
  match o with InsertOp a c _ => socket_of a (conn_id c) g = None | _ => True end.

Fixpoint ops_fresh g (os : list registry_op) : Prop :=
  match os with
  | [] => True
  | o :: os => op_fresh g o ∧ ops_fresh (registry_step o g) os
  end.

Lemma values_delete r id x :
  room_connections r !! id = Some x →
  values r ≡ₚ x :: values (set_connections (delete id (room_connections r)) r).
Proof.
  intros Hx. unfold values. simpl. rewrite <- (insert_delete_id _ _ _ Hx) at 1.
  by rewrite map_to_list_insert by apply lookup_delete_eq.
Qed.

Lemma values_insert r id x y :
  room_connections r !! id = Some x →
  values (set_connections (<[id := y]> (room_connections r)) r) ≡ₚ
    y :: values (set_connections (delete id (room_connections r)) r).
Proof.
  intros Hx. unfold values. simpl. rewrite <- insert_delete_eq.
  by rewrite map_to_list_insert by apply lookup_delete_eq.
Qed.

Lemma values_new r id y :
  room_connections r !! id = None →
  values (set_connections (<[id := y]> (room_connections r)) r) ≡ₚ y :: values r.
Proof. intros Hx. unfold values. simpl. by rewrite map_to_list_insert. Qed.

Lemma elem_of_values r x : x ∈ values r ↔ ∃ id, room_connections r !! id = Some x.
Proof.
  unfold values. rewrite list_elem_of_fmap. split.
  - intros [[id y] [-> Hy]]. exists id. by apply elem_of_map_to_list.
  - intros [id Hx]. exists (id, x). split; [done|]. by apply elem_of_map_to_list.
Qed.

#[local] Instance list_filter_perm {A} (f : A → bool) : Proper ((≡ₚ) ==> (≡ₚ)) (List.filter f).
Proof.
  induction 1; simpl; repeat case_match; try done; try by constructor.
  by etrans.
Qed.

Lemma open_sockets_perm r l : values r ≡ₚ l → len (open_sockets r) = len (List.filter rs_open l).
Proof. intros Hp. unfold open_sockets, len. by rewrite Hp. Qed.

Lemma registry_ok_set a r g :
  registry_ok g → room_ok (reg_max g) r → registry_ok (set_entries (<[a := r]> (reg_entries g)) g).
Proof.
  intros [Hl Hg] Hr. split; [done|]. simpl. intros a' r' [[<- <-]|[? ?]]%lookup_insert_Some; eauto.
Qed.

Lemma registry_ok_delete a g : registry_ok g → registry_ok (set_entries (delete a (reg_entries g)) g).
Proof. intros [Hl Hg]. split; [done|]. simpl. intros a' r' [? ?]%lookup_delete_Some. eauto. Qed.

Lemma registry_ok_send l g : registry_ok g → registry_ok (send_all l g).
Proof. intros [? ?]. by split. Qed.

Lemma registry_ok_if (c : bool) a r g :
  registry_ok g → (c = false → room_ok (reg_max g) r) →
  registry_ok (set_entries (if c then delete a (reg_entries g) else <[a := r]> (reg_entries g)) g).
Proof. intros Hg Hr. destruct c; [by apply registry_ok_delete|]. apply registry_ok_set; auto. Qed.

Lemma room_used_some r id x : room_connections r !! id = Some x → room_unused r = false.
Proof.
  intros Hx. unfold room_unused. rewrite bool_decide_eq_false_2; [done|]. intros E. by rewrite E in Hx.
Qed.

(** A socket changes, but not whether it is open. *)
Lemma room_ok_update limit r id x y :
  room_ok limit r → room_connections r !! id = Some x → rs_open y = rs_open x →
  conn_id (rs_connection y) = conn_id (rs_connection x) →
  room_ok limit (set_connections (<[id := y]> (room_connections r)) r).
Proof.
  intros [Hc Hw Hu Hf] Hx Ho Hi. split; simpl.
  - rewrite Hc, (open_sockets_perm _ _ (values_insert _ _ _ y Hx)), (open_sockets_perm _ _ (values_delete _ _ _ Hx)).
    simpl. rewrite Ho. destruct (rs_open x); by rewrite ?len_cons.
  - by erewrite map_size_insert_Some.
  - eapply (room_used_some _ id). apply lookup_insert_eq.
  - intros i z [[<- <-]|[_ Hz]]%lookup_insert_Some; [rewrite Hi|]; eauto.
Qed.

Lemma open_sockets_size r : len (open_sockets r) ≤ N.of_nat (size (room_connections r)).
Proof.
  unfold open_sockets, values, len. pose proof (List.filter_length_le rs_open (snd <$> map_to_list (room_connections r))) as Hl.
  rewrite length_fmap, length_map_to_list in Hl. lia.
Qed.

Lemma wrap_small n : n ≤ u64_max → wrap_u64 n = n.
Proof. unfold wrap_u64, u64_max. intros. apply N.mod_small. lia. Qed.

Lemma wrap_pred n : 1 ≤ n → n ≤ u64_max → wrap_u64 (n + u64_max) = n - 1.
Proof.
  unfold wrap_u64, u64_max. intros. replace (n + 18446744073709551615) with (n - 1 + 1 * 18446744073709551616) by lia.
  rewrite N.Div0.mod_add. apply N.mod_small. lia.
Qed.

Lemma room_ok_default_insert limit r id y :
  (room_active r = len (open_sockets r)) → room_connections r !! id = None → rs_open y = false →
  conn_id (rs_connection y) = id → (∀ i x, room_connections r !! i = Some x → conn_id (rs_connection x) = i) →
  N.of_nat (size (room_connections r)) < limit →
  room_ok limit (set_connections (<[id := y]> (room_connections r)) r).
Proof.
  intros Hc Hn Ho Hi Hf Hs. split; simpl.
  - rewrite Hc, (open_sockets_perm _ _ (values_new _ _ y Hn)). simpl. by rewrite Ho.
  - rewrite map_size_insert_None by done. lia.
  - eapply (room_used_some _ id). apply lookup_insert_eq.
  - intros i z [[<- <-]|[_ Hz]]%lookup_insert_Some; eauto.
Qed.

Lemma registry_ok_insert a c ch g :
  registry_ok g → socket_of a (conn_id c) g = None → registry_ok (registry_insert a c ch g).1.
Proof.
  intros Hg Hn. pose proof Hg as [[Hl _] Hr]. unfold registry_insert.
  assert (room_active (room_of a g) = len (open_sockets (room_of a g)) ∧
          (∀ i x, room_connections (room_of a g) !! i = Some x → conn_id (rs_connection x) = i)) as [Hc Hf].
  { unfold room_of. destruct (reg_entries g !! a) as [r|] eqn:E; simpl; [|done].
    by destruct (Hr _ _ E). }
  destruct (N.leb_spec (reg_max g) (N.of_nat (size (room_connections (room_of a g))))) as [Hfull|Hfull]; simpl.
  - apply registry_ok_set; [done|]. unfold room_of in *. destruct (reg_entries g !! a) as [r|] eqn:E; simpl in *; [eauto|].
    rewrite map_size_empty in Hfull. lia.
  - apply registry_ok_set; [done|]. by apply room_ok_default_insert.
Qed.

Lemma registry_ok_remove a id g : registry_ok g → registry_ok (registry_remove a id g).1.
Proof.
  intros Hg. pose proof Hg as [[_ Hl] Hr]. unfold registry_remove. destruct (reg_entries g !! a) as [r|] eqn:E; [|done]. simpl.
  apply registry_ok_if; [done|]. intros Hu. destruct (Hr _ _ E) as [Hc Hw _ Hf].
  assert (∀ i x, delete id (room_connections r) !! i = Some x → conn_id (rs_connection x) = i) as Hf'.
  { intros i x [_ ?]%lookup_delete_Some. eauto. }
  destruct (room_connections r !! id) as [x|] eqn:Ex.
  - pose proof (open_sockets_perm _ _ (values_delete _ _ _ Ex)) as Hv.
    pose proof (open_sockets_size r). unfold DEFAULT_MAX_CONNECTIONS, u64_max in *. simpl in Hv.
    assert (N.of_nat (size (delete id (room_connections r))) ≤ reg_max g).
    { rewrite map_size_delete_Some by done. lia. }
    destruct (rs_open x) eqn:Eo; split; simpl in *; try done.
    + rewrite len_cons in Hv. transitivity (room_active r - 1); [apply wrap_pred; unfold u64_max; lia|].
      rewrite Hc, Hv. unfold open_sockets. simpl. unfold values. simpl. lia.
    + by rewrite Hc, Hv.
  - split; simpl; [|by rewrite delete_id|done|done]. rewrite Hc. unfold open_sockets, values. simpl. by rewrite delete_id.
Qed.

Lemma registry_ok_update a id f g :
  registry_ok g → (∀ x, rs_open (f x) = rs_open x) →
  (∀ x, conn_id (rs_connection (f x)) = conn_id (rs_connection x)) → registry_ok (update_socket a id f g).
Proof.
  intros Hg Hf Hi. unfold update_socket. destruct (reg_entries g !! a) as [r|] eqn:E; [|done].
  destruct (room_connections r !! id) as [x|] eqn:Ex; [|done].
  apply registry_ok_set; [done|]. eapply room_ok_update; eauto. by apply (registry_rooms _ Hg) in E.
Qed.

Lemma registry_ok_activate a id g : registry_ok g → registry_ok (registry_activate a id g).
Proof.
  intros Hg. unfold registry_activate. destruct (reg_entries g !! a) as [r|] eqn:E; [|done].
  destruct (room_connections r !! id) as [x|] eqn:Ex; [|done]. destruct (rs_open x) eqn:Eo; [done|].
  destruct (registry_rooms _ Hg _ _ E) as [Hc Hw _ Hf]. pose proof (registry_limit _ Hg) as [_ Hl].
  apply registry_ok_set; [done|]. pose proof (open_sockets_size r). unfold DEFAULT_MAX_CONNECTIONS in *.
  split; simpl.
  - rewrite wrap_small by (unfold u64_max; lia). change (open_sockets (set_active ?n ?q)) with (open_sockets q).
    rewrite Hc, (open_sockets_perm _ _ (values_insert _ _ _ (set_open true x) Ex)).
    rewrite (open_sockets_perm _ _ (values_delete _ _ _ Ex)). simpl. rewrite Eo, len_cons. lia.
  - by erewrite map_size_insert_Some.
  - eapply (room_used_some _ id). apply lookup_insert_eq.
  - intros i z [[<- <-]|[_ Hz]]%lookup_insert_Some; simpl; eauto.
Qed.

Lemma registry_ok_auto a p g :
  registry_ok g →
  registry_ok (set_entries (<[a := set_auto_response (Some p) (room_of a g)]> (reg_entries g)) g).
Proof.
  intros Hg. apply registry_ok_set; [done|]. unfold room_of. destruct (reg_entries g !! a) as [r|] eqn:E; simpl.
  - destruct (registry_rooms _ Hg _ _ E) as [Hc Hw _ Hf]. split; [done..| |done]. unfold room_unused. simpl. by rewrite andb_false_r.
  - split; [done|simpl; rewrite map_size_empty; lia| |done]. unfold room_unused. simpl. by rewrite andb_false_r.
Qed.

Lemma registry_ok_no_auto a r g :
  registry_ok g → reg_entries g !! a = Some r →
  registry_ok (set_entries (if bool_decide (room_connections r = ∅) then delete a (reg_entries g)
                            else <[a := set_auto_response None r]> (reg_entries g)) g).
Proof.
  intros Hg E. apply registry_ok_if; [done|]. intros Hb. destruct (registry_rooms _ Hg _ _ E) as [Hc Hw _ Hf].
  split; [done..| |done]. unfold room_unused. simpl. by rewrite Hb.
Qed.

Lemma registry_ok_effect a e g : registry_ok g → registry_ok (apply_one a e g).
Proof.
  intros Hg. destruct e as [[q|] [s|]|id state [v|]|changes removed except [v|]|id m|m except tags how|id code reason|
    id code reason|id v|id tags]; simpl; try done; try (by apply registry_ok_send); try (by apply registry_ok_update).
  1: by apply registry_ok_auto.
  1-3: destruct (reg_entries g !! a) eqn:E; [by apply registry_ok_no_auto|done].
  by apply registry_ok_send, registry_ok_update.
Qed.

Lemma registry_ok_step o g : registry_ok g → op_fresh g o → registry_ok (registry_step o g).
Proof.
  intros Hg Hf. destruct o as [a c ch|a id|a e|a id|a e|p code reason|code reason]; simpl in *.
  - by apply registry_ok_insert.
  - by apply registry_ok_remove.
  - destruct e as [c|id m|c code reason clean]; simpl; try done.
    pose proof (registry_ok_remove a (conn_id c) g Hg) as Hr. by destruct (registry_remove a (conn_id c) g).
  - by apply registry_ok_activate.
  - by apply registry_ok_effect.
  - by apply registry_ok_send.
  - by apply registry_ok_send.
Qed.

Lemma registry_ok_run os g : registry_ok g → ops_fresh g os → registry_ok (registry_run os g).
Proof.
  unfold registry_run. revert g. induction os as [|o os IH]; intros g Hg; simpl; [done|]. intros [Ho Hos].
  apply IH; [|done]. by apply registry_ok_step.
Qed.

Lemma registry_ok_start n : 1 ≤ n ≤ DEFAULT_MAX_CONNECTIONS → registry_ok (with_max_connections n).
Proof. by split. Qed.

Lemma registry_step_max o g : reg_max (registry_step o g) = reg_max g.
Proof.
  destruct o as [a c ch|a id|a e|a id|a e|p code reason|code reason]; simpl; try done.
  - unfold registry_insert. by case_match.
  - unfold registry_remove. by case_match.
  - destruct e; simpl; try done. unfold registry_remove. by destruct (reg_entries g !! a).
  - unfold registry_activate. by repeat case_match.
  - destruct e; simpl; repeat case_match; try done; unfold update_socket; by repeat case_match.
Qed.

Lemma registry_run_max os g : reg_max (registry_run os g) = reg_max g.
Proof.
  unfold registry_run. revert g. induction os as [|o os IH]; intros g; simpl; [done|].
  by rewrite IH, registry_step_max.
Qed.

(** C33. Whatever is done to a registry, as long as no connection is registered under the
    id of another one of its actor that is there, and its limit is at least one: every
    connection is filed under its id, a room never holds more connections than the
    limit, no room is kept that has neither a connection nor an automatic response, and
    the number the registry keeps for an actor is the number of open connections it
    lists. *)
Theorem count_is_open_connections n os a :
  1 ≤ n ≤ DEFAULT_MAX_CONNECTIONS → ops_fresh (with_max_connections n) os →
  let g := registry_run os (with_max_connections n) in
  registry_count a g = len (connections_with_tag a None g) ∧
  N.of_nat (size (room_connections (room_of a g))) ≤ n ∧
  (∀ id x, socket_of a id g = Some x → conn_id (rs_connection x) = id) ∧
  ∀ r, reg_entries g !! a = Some r → room_connections r ≠ ∅ ∨ is_Some (room_auto_response r).
Proof.
  intros Hn Hos g. pose proof (registry_ok_run os _ (registry_ok_start n Hn) Hos) as Hg. fold g in Hg.
  assert (reg_max g = n) as Hm by apply registry_run_max.
  unfold registry_count, connections_with_tag, socket_of, room_of. destruct (reg_entries g !! a) as [r|] eqn:E; simpl.
  - destruct (registry_rooms _ Hg _ _ E) as [Hc Hw Hu Hf]. rewrite Hm in Hw. split_and!; [|done|done|].
    + rewrite Hc. unfold len, open_sockets. rewrite length_fmap. do 2 f_equal. apply List.filter_ext.
      intros x. by rewrite andb_true_r.
    + intros ? [= <-]. unfold room_unused in Hu. apply andb_false_iff in Hu as [Hu|Hu]; apply bool_decide_eq_false in Hu.
      * by left.
      * right. by apply not_eq_None_Some.
  - split_and!; [done|rewrite map_size_empty; lia|done|done].
Qed.

(** ** One connection

    What is sent to the connection [id] of [a], as if it were the only one. *)

Definition view_effect (id : bytes) (e : ActorSocketEffect) x : RegisteredSocket * list OutboundMessage :=
  match e with
  | SetAutoResponse _ _ | StateSnapshotEffect _ _ None | StateUpdate _ _ _ None => (x, [])
  | StateSnapshotEffect i state (Some version) =>
      if i == id then (set_state_ready x, [OutControl (StateControl state version)]) else (x, [])
  | StateUpdate changes removed except (Some version) =>
      (x, if rs_state_ready x && negb (bool_decide (conn_id (rs_connection x) ∈ except))
          then [OutControl (StateUpdateControl changes removed version)] else [])
  | Broadcast m except tags how =>
      (x, if broadcast_to except tags how (rs_open x) (rs_connection x) then [OutMessage m] else [])
  | SetMetadata i v => (if i == id then set_connection (with_metadata v (rs_connection x)) x else x, [])
  | SetTags i tags => (if i == id then set_connection (with_tags tags (rs_connection x)) x else x, [])
  | Send i m => (x, if i == id then [OutMessage m] else [])
  | Close i code reason | Reject i code reason => (x, if i == id then [OutClose code reason] else [])
  end.

Definition view_step a (id : bytes) (o : registry_op) x : option RegisteredSocket * list OutboundMessage :=
  match o with
  | InsertOp _ _ _ | EventOp _ (Connect _) | EventOp _ (Message _ _) => (Some x, [])
  | RemoveOp a' i => (if bool_decide (a' = a ∧ i = id) then None else Some x, [])
  | EventOp a' (Disconnect c _ _ _) => (if bool_decide (a' = a ∧ conn_id c = id) then None else Some x, [])
  | ActivateOp a' i => (Some (if bool_decide (a' = a ∧ i = id) then set_open true x else x), [])
  | EffectOp a' e => if a' == a then let '(x, l) := view_effect id e x in (Some x, l) else (Some x, [])
  | CloseProjectOp p code reason => (Some x, if project_id a == p then [OutClose code reason] else [])
  | CloseAllOp code reason => (Some x, [OutClose code reason])
  end.

Fixpoint seen a (id : bytes) (os : list registry_op) (v : option RegisteredSocket) : list OutboundMessage :=
  match os, v with
  | o :: os, Some x => let '(v, l) := view_step a id o x in l ++ seen a id os v
  | _, _ => []
  end.

(** What was sent to a channel. *)
Definition sent_to ch (l : list (SocketSender * OutboundMessage)) : list OutboundMessage :=
  omap (λ '(c, m), if c == ch then Some m else None) l.

(** Only the connection [id] of [a] sends to the channel. *)
Definition owns ch a (id : bytes) g : Prop :=
  ∀ a' i x, socket_of a' i g = Some x → rs_outbound x = ch → a' = a ∧ i = id.

(** The call registers neither this connection nor its channel. *)
Definition op_spares ch a (id : bytes) (o : registry_op) : Prop :=
  match o with InsertOp a' c ch' => ch' ≠ ch ∧ (a', conn_id c) ≠ (a, id) | _ => True end.

Record follows ch a (id : bytes) (v : option RegisteredSocket) g : Prop := {
  follows_socket : socket_of a id g = v;
  follows_channel x : v = Some x → rs_outbound x = ch;
  follows_owns : owns ch a id g;
}.

Lemma sent_to_app ch l k : sent_to ch (l ++ k) = sent_to ch l ++ sent_to ch k.
Proof. apply omap_app. Qed.

Lemma sent_to_cons ch c m l : sent_to ch ((c, m) :: l) = (if c == ch then [m] else []) ++ sent_to ch l.
Proof. unfold sent_to. simpl. by case_bool_decide. Qed.

Lemma sent_to_none ch (l : list RegisteredSocket) m :
  Forall (λ x, rs_outbound x ≠ ch) l → sent_to ch ((λ x, (rs_outbound x, m)) <$> l) = [].
Proof.
  unfold sent_to. induction 1 as [|x l Hx _ IH]; simpl; [done|]. by rewrite bool_decide_eq_false_2.
Qed.

Lemma sent_to_perm ch l k : l ≡ₚ k → sent_to ch l ≡ₚ sent_to ch k.
Proof. intros Hp. unfold sent_to. by rewrite Hp. Qed.

Lemma socket_of_set a r g a' i :
  socket_of a' i (set_entries (<[a := r]> (reg_entries g)) g) =
    if bool_decide (a = a') then room_connections r !! i else socket_of a' i g.
Proof.
  unfold socket_of, room_of. simpl. case_bool_decide; [subst; by rewrite lookup_insert_eq|].
  by rewrite lookup_insert_ne.
Qed.

Lemma socket_of_delete a g a' i :
  socket_of a' i (set_entries (delete a (reg_entries g)) g) =
    if bool_decide (a = a') then None else socket_of a' i g.
Proof.
  unfold socket_of, room_of. simpl. case_bool_decide; [subst; by rewrite lookup_delete_eq|].
  by rewrite lookup_delete_ne.
Qed.

Lemma socket_of_some a r g i : reg_entries g !! a = Some r → socket_of a i g = room_connections r !! i.
Proof. intros E. unfold socket_of, room_of. by rewrite E. Qed.

(** A message for the sockets of a room that satisfy [p]. *)
Lemma sent_where ch a id v g p m :
  follows ch a id v g →
  sent_to ch ((λ x, (rs_outbound x, m)) <$> List.filter p (values (room_of a g))) =
    match v with Some x => if p x then [m] else [] | None => [] end.
Proof.
  intros [Hs Hc Ho].
  assert (∀ l, (∀ x, x ∈ l → ∃ i, socket_of a i g = Some x ∧ i ≠ id) →
    sent_to ch ((λ x, (rs_outbound x, m)) <$> List.filter p l) = []) as Hother.
  { intros l Hl. apply sent_to_none, Forall_forall. intros x Hx.
    apply list_elem_of_In, List.filter_In in Hx as [Hx _]. apply list_elem_of_In in Hx. intros Hch.
    destruct (Hl x Hx) as (i & Hi & Hne). by destruct (Ho _ _ _ Hi Hch). }
  destruct v as [x|].
  - unfold socket_of in Hs. assert (sent_to ch ((λ x, (rs_outbound x, m)) <$> List.filter p (values (room_of a g))) ≡ₚ
      (if p x then [m] else [])) as Hp.
    { etrans.
      { apply sent_to_perm, fmap_Permutation. rewrite (values_delete _ _ _ Hs). reflexivity. }
      assert (sent_to ch ((λ x, (rs_outbound x, m)) <$> List.filter p
        (values (set_connections (delete id (room_connections (room_of a g))) (room_of a g)))) = []) as Hrest.
      { apply Hother. intros y (i & Hy)%elem_of_values. simpl in Hy. apply lookup_delete_Some in Hy as [? ?]. eauto. }
      cbn [List.filter]. destruct (p x); [|by rewrite Hrest].
      by rewrite fmap_cons, sent_to_cons, Hrest, bool_decide_eq_true_2 by auto. }
    destruct (p x); [by apply Permutation_singleton_r in Hp|by apply Permutation_nil_r in Hp].
  - apply Hother. intros y (i & Hy)%elem_of_values. exists i. split; [done|]. intros ->. unfold socket_of in Hs. congruence.
Qed.

Lemma sent_where_other ch a id v g p m a' :
  a' ≠ a → follows ch a id v g →
  sent_to ch ((λ x, (rs_outbound x, m)) <$> List.filter p (values (room_of a' g))) = [].
Proof.
  intros Hne [_ _ Ho]. apply sent_to_none, Forall_forall. intros x Hx.
  apply list_elem_of_In, List.filter_In in Hx as [Hx _]. apply list_elem_of_In, elem_of_values in Hx as [i Hi].
  intros Hch. by destruct (Ho a' i x Hi Hch).
Qed.

Lemma follows_send ch a id v l g : follows ch a id v g → follows ch a id v (send_all l g).
Proof. by intros []. Qed.

(** The sockets of [a'] become [r], those of the others stay. *)
Lemma follows_set ch a id v g a' r :
  follows ch a id v g →
  (∀ i x, room_connections r !! i = Some x → rs_outbound x = ch → a' = a ∧ i = id) →
  let v' := if bool_decide (a' = a) then room_connections r !! id else v in
  (∀ x, v' = Some x → rs_outbound x = ch) →
  follows ch a id v' (set_entries (<[a' := r]> (reg_entries g)) g).
Proof.
  intros [Hs Hc Ho] Hr v' Hv. split; [|done|].
  - rewrite socket_of_set. subst v'. by case_bool_decide.
  - intros a'' i x. rewrite socket_of_set. case_bool_decide; [subst; apply Hr|apply Ho].
Qed.

Lemma follows_delete ch a id v g a' :
  follows ch a id v g →
  follows ch a id (if bool_decide (a' = a) then None else v) (set_entries (delete a' (reg_entries g)) g).
Proof.
  intros [Hs Hc Ho]. split.
  - rewrite socket_of_delete. by case_bool_decide.
  - intros x. case_bool_decide; [done|apply Hc].
  - intros a'' i x. rewrite socket_of_delete. case_bool_decide; [done|apply Ho].
Qed.

(** A room whose sockets are among those of the registry. *)
Lemma follows_same ch a id v g a' r :
  follows ch a id v g → room_connections r = room_connections (room_of a' g) →
  follows ch a id v (set_entries (<[a' := r]> (reg_entries g)) g).
Proof.
  intros Hf Hr. pose proof Hf as [Hs Hc Ho].
  assert (∀ i, room_connections r !! i = socket_of a' i g) as Hi by (intros; by rewrite Hr).
  enough (follows ch a id (if bool_decide (a' = a) then room_connections r !! id else v)
            (set_entries (<[a' := r]> (reg_entries g)) g)) as Hk.
  { case_bool_decide; [subst|done]. by rewrite Hi in Hk. }
  apply follows_set; [done| |].
  - intros i x. rewrite Hi. apply Ho.
  - intros x. case_bool_decide; [subst; rewrite Hi|]; auto.
Qed.

Lemma follows_update ch a id v g a' i f :
  follows ch a id v g → (∀ x, rs_outbound (f x) = rs_outbound x) →
  follows ch a id (if bool_decide (a' = a ∧ i = id) then f <$> v else v) (update_socket a' i f g).
Proof.
  intros Hf Hx. pose proof Hf as [Hs Hc Ho]. unfold update_socket.
  destruct (reg_entries g !! a') as [r|] eqn:E.
  2:{ case_bool_decide as Hd; [|done]. destruct Hd as [-> ->]. unfold socket_of, room_of in Hs. rewrite E in Hs.
      simpl in Hs. rewrite lookup_empty in Hs. by subst. }
  destruct (room_connections r !! i) as [x|] eqn:Ex.
  2:{ case_bool_decide as Hd; [|done]. destruct Hd as [-> ->]. rewrite (socket_of_some _ _ _ _ E), Ex in Hs. by subst. }
  set (r' := set_connections (<[i := f x]> (room_connections r)) r).
  assert ((if bool_decide (a' = a) then room_connections r' !! id else v) =
          if bool_decide (a' = a ∧ i = id) then f <$> v else v) as Hv.
  { subst r'. simpl. case_bool_decide as Ea; [subst a'|by rewrite bool_decide_eq_false_2 by tauto].
    rewrite (socket_of_some _ _ _ _ E) in Hs. case_bool_decide as Hd.
    - destruct Hd as [_ ->]. rewrite lookup_insert_eq. by subst; rewrite Ex.
    - rewrite lookup_insert_ne by tauto. done. }
  rewrite <- Hv. apply follows_set; [done| |].
  - intros j y. subst r'. simpl. intros [[<- <-]|[_ Hy]]%lookup_insert_Some Hch.
    + rewrite Hx in Hch. apply (Ho a' i x); [by rewrite (socket_of_some _ _ _ _ E)|done].
    + apply (Ho a' j y); [by rewrite (socket_of_some _ _ _ _ E)|done].
  - rewrite Hv. clear Hv. intros y. case_bool_decide; [|apply Hc]. intros (z & -> & ->)%fmap_Some. rewrite Hx. auto.
Qed.

Lemma follows_remove ch a id v g a' i :
  follows ch a id v g →
  follows ch a id (if bool_decide (a' = a ∧ i = id) then None else v) (registry_remove a' i g).1.
Proof.
  intros Hf. pose proof Hf as [Hs Hc Ho]. unfold registry_remove.
  destruct (reg_entries g !! a') as [r|] eqn:E; simpl.
  2:{ case_bool_decide as Hd; [|done]. destruct Hd as [-> ->]. unfold socket_of, room_of in Hs. rewrite E in Hs.
      simpl in Hs. rewrite lookup_empty in Hs. by subst. }
  set (r' := match room_connections r !! i with Some _ => _ | None => _ end).
  assert (room_connections r' = delete i (room_connections r)) as Hr'.
  { subst r'. by repeat case_match. }
  assert ((if bool_decide (a' = a) then room_connections r' !! id else v) =
          if bool_decide (a' = a ∧ i = id) then None else v) as Hv.
  { rewrite Hr'. case_bool_decide as Ea; [subst a'|by rewrite bool_decide_eq_false_2 by tauto].
    rewrite (socket_of_some _ _ _ _ E) in Hs. case_bool_decide as Hd.
    - destruct Hd as [_ ->]. by rewrite lookup_delete_eq.
    - by rewrite lookup_delete_ne by tauto. }
  destruct (room_unused r') eqn:Eu.
  - unfold room_unused in Eu. apply andb_true_iff in Eu as [Eu%bool_decide_eq_true _]. rewrite Eu, lookup_empty in Hv.
    rewrite <- Hv. by apply follows_delete.
  - rewrite <- Hv. apply follows_set; [done| |].
    + rewrite Hr'. intros j y [_ Hy]%lookup_delete_Some. apply (Ho a' j y). by rewrite (socket_of_some _ _ _ _ E).
    + rewrite Hv. clear Hv. intros y. case_bool_decide; [done|apply Hc].
Qed.

Lemma follows_activate ch a id v g a' i :
  follows ch a id v g →
  follows ch a id (if bool_decide (a' = a ∧ i = id) then set_open true <$> v else v) (registry_activate a' i g).
Proof.
  intros Hf. pose proof (follows_update ch a id v g a' i (set_open true) Hf ltac:(done)) as Hu.
  unfold registry_activate. unfold update_socket in Hu.
  destruct (reg_entries g !! a') as [r|] eqn:E; [|done].
  destruct (room_connections r !! i) as [x|] eqn:Ex; [|done]. destruct (rs_open x) eqn:Eo.
  - case_bool_decide as Hd; [|done]. destruct Hd as [-> ->]. pose proof Hf as [Hs _ _].
    rewrite (socket_of_some _ _ _ _ E), Ex in Hs. subst v. simpl. destruct x; simpl in *; subst. done.
  - destruct Hu as [Hs Hc Ho]. split; [|done|].
    + rewrite <- Hs. rewrite !socket_of_set. done.
    + intros a'' j y. specialize (Ho a'' j y). rewrite socket_of_set in *. done.
Qed.

Lemma follows_insert ch a id v g a' c ch' :
  follows ch a id v g → ch' ≠ ch → (a', conn_id c) ≠ (a, id) →
  follows ch a id v (registry_insert a' c ch' g).1.
Proof.
  intros Hf Hch Hid. pose proof Hf as [Hs Hc Ho]. unfold registry_insert. case_match; simpl; [by apply follows_same|].
  set (r := set_connections _ _).
  assert (∀ i, (a', i) ≠ (a', conn_id c) → room_connections r !! i = socket_of a' i g) as Hr.
  { intros i Hi. subst r. simpl. rewrite lookup_insert_ne by congruence. done. }
  assert ((if bool_decide (a' = a) then room_connections r !! id else v) = v) as Hv.
  { case_bool_decide; [subst a'|done]. rewrite Hr by congruence. done. }
  rewrite <- Hv. apply follows_set; [done| |by rewrite Hv].
  intros i x. destruct (decide (i = conn_id c)) as [->|Hne].
  - subst r. simpl. rewrite lookup_insert_eq. intros [= <-]. simpl. congruence.
  - rewrite Hr by congruence. apply Ho.
Qed.

Lemma sent_one ch a id v g a' i m :
  follows ch a id v g →
  sent_to ch ((λ x, (rs_outbound x, m)) <$> option_list (socket_of a' i g)) =
    if bool_decide (a' = a ∧ i = id) then (λ _, m) <$> option_list v else [].
Proof.
  intros [Hs Hc Ho]. case_bool_decide as Hd.
  - destruct Hd as [-> ->]. rewrite Hs. destruct v as [x|]; [|done]. simpl.
    change (sent_to ch [(rs_outbound x, m)] = [m]). rewrite sent_to_cons, bool_decide_eq_true_2 by auto. done.
  - apply sent_to_none. destruct (socket_of a' i g) as [x|] eqn:Ex; simpl; constructor; [|done].
    intros Hch. apply Hd. by apply (Ho _ _ x).
Qed.

Lemma outbox_update a i f g : outbox (update_socket a i f g) = outbox g.
Proof. unfold update_socket. by repeat case_match. Qed.

Lemma outbox_remove a i g : outbox (registry_remove a i g).1 = outbox g.
Proof. unfold registry_remove. by repeat case_match. Qed.

Lemma outbox_activate a i g : outbox (registry_activate a i g) = outbox g.
Proof. unfold registry_activate. by repeat case_match. Qed.

Lemma outbox_insert a c ch g : outbox (registry_insert a c ch g).1 = outbox g.
Proof. unfold registry_insert. by repeat case_match. Qed.

Lemma sent_closes ch a id v g p code reason :
  follows ch a id v g →
  sent_to ch (concat (close_room p code reason <$> map_to_list (reg_entries g))) =
    match v with Some _ => if p a then [OutClose code reason] else [] | None => [] end.
Proof.
  intros Hf. set (f := close_room p code reason).
  assert (∀ a' r, reg_entries g !! a' = Some r → sent_to ch (f (a', r)) =
    if bool_decide (a' = a) then match v with Some _ => if p a then [OutClose code reason] else [] | None => [] end
    else []) as Hroom.
  { intros a' r E. subst f. unfold close_room. simpl.
    assert (values r = List.filter (λ _, true) (values (room_of a' g))) as ->.
    { unfold room_of. rewrite E. simpl. induction (values r) as [|y l IH]; simpl; congruence. }
    case_bool_decide as Ea; [subst a'|].
    - destruct (p a); [rewrite (sent_where _ _ _ _ _ _ _ Hf)|]; by destruct v.
    - destruct (p a'); [by apply (sent_where_other ch a id v)|done]. }
  assert (∀ l, (∀ a' r, (a', r) ∈ l → reg_entries g !! a' = Some r ∧ a' ≠ a) → sent_to ch (concat (f <$> l)) = []) as Hrest.
  { induction l as [|[a' r] l IH]; intros Hl; [done|]. rewrite fmap_cons. cbn [concat]. rewrite sent_to_app.
    destruct (Hl a' r) as [E Hne]; [by left|]. rewrite (Hroom _ _ E), bool_decide_eq_false_2 by done. simpl.
    apply IH. intros a'' r'' Hin. apply Hl. by right. }
  destruct (reg_entries g !! a) as [r|] eqn:E.
  - assert (map_to_list (reg_entries g) ≡ₚ (a, r) :: map_to_list (delete a (reg_entries g))) as Hp.
    { rewrite <- (insert_delete_id _ _ _ E) at 1. apply map_to_list_insert, lookup_delete_eq. }
    assert (sent_to ch (concat (f <$> map_to_list (reg_entries g))) ≡ₚ
            match v with Some _ => if p a then [OutClose code reason] else [] | None => [] end) as Hs.
    { etrans; [apply sent_to_perm; rewrite Hp; reflexivity|]. rewrite fmap_cons. cbn [concat]. rewrite sent_to_app.
      rewrite (Hroom _ _ E), bool_decide_eq_true_2 by done. rewrite Hrest, app_nil_r; [done|].
      intros a' r' [? ?]%elem_of_map_to_list%lookup_delete_Some. done. }
    destruct v as [x|]; [destruct (p a)|]; [by apply Permutation_singleton_r in Hs|by apply Permutation_nil_r in Hs..].
  - rewrite Hrest.
    + destruct Hf as [Hs _ _]. unfold socket_of, room_of in Hs. rewrite E in Hs. simpl in Hs.
      rewrite lookup_empty in Hs. by subst.
    + intros a' r' Hin%elem_of_map_to_list. split; [done|]. congruence.
Qed.

Definition view_next a (id : bytes) (o : registry_op) (v : option RegisteredSocket)
    : option RegisteredSocket * list OutboundMessage :=
  match v with Some x => view_step a id o x | None => (None, []) end.

Lemma sent_nothing ch g : sent_to ch (outbox g) = sent_to ch (outbox g) ++ [].
Proof. by rewrite app_nil_r. Qed.

Lemma follows_auto ch a id v g a' q s :
  follows ch a id v g →
  follows ch a id v (apply_one a' (SetAutoResponse q s) g) ∧ outbox (apply_one a' (SetAutoResponse q s) g) = outbox g.
Proof.
  intros Hf.
  assert (∀ r, reg_entries g !! a' = Some r → follows ch a id v
    (set_entries (if bool_decide (room_connections r = ∅) then delete a' (reg_entries g)
                  else <[a' := set_auto_response None r]> (reg_entries g)) g)) as Hnone.
  { intros r E. case_bool_decide as Er; [|apply follows_same; [done|]; unfold room_of; by rewrite E].
    pose proof (follows_delete ch a id v g a' Hf) as Hd. case_bool_decide; [subst a'|done].
    pose proof Hf as [Hs _ _]. rewrite (socket_of_some _ _ _ _ E), Er, lookup_empty in Hs. by subst. }
  destruct q as [q|], s as [s|]; simpl; try (destruct (reg_entries g !! a') eqn:E; [|done]; split; [by apply Hnone|done]).
  split; [by apply follows_same|done].
Qed.

(** Changes of one socket of [a']. *)
Lemma follows_update_view ch a id v g a' i f :
  follows ch a id v g → (∀ x, rs_outbound (f x) = rs_outbound x) →
  follows ch a id (if a' == a then (λ x, if i == id then f x else x) <$> v else v) (update_socket a' i f g).
Proof.
  intros Hf Hx. pose proof (follows_update ch a id v g a' i f Hf Hx) as Hu.
  replace (if a' == a then _ else v) with (if bool_decide (a' = a ∧ i = id) then f <$> v else v); [done|].
  clear Hu. destruct v as [x|]; simpl; repeat case_bool_decide; naive_solver.
Qed.

Lemma follows_effect ch a id v g a' e :
  follows ch a id v g →
  follows ch a id (view_next a id (EffectOp a' e) v).1 (apply_one a' e g) ∧
  sent_to ch (outbox (apply_one a' e g)) = sent_to ch (outbox g) ++ (view_next a id (EffectOp a' e) v).2.
Proof.
  intros Hf. unfold view_next, view_step.
  pose proof (sent_nothing ch g) as Hn. pose proof (λ i m, sent_one ch a id v g a' i m Hf) as Hone.
  pose proof (λ i f, follows_update_view ch a id v g a' i f Hf) as Hup.
  assert (∀ p m, sent_to ch (outbox (send_where a' p m g)) =
    sent_to ch (outbox g) ++ if a' == a then match v with Some x => if p x then [m] else [] | None => [] end else []) as Hwhere.
  { intros p m. simpl. rewrite sent_to_app. f_equal. case_bool_decide; [subst a'; by apply (sent_where ch a id v)|].
    by apply (sent_where_other ch a id v). }
  destruct e as [q s|i state [w|]|changes removed except [w|]|i m|m except tags how|i code reason|i code reason|i w|i tags].
  - destruct (follows_auto ch a id v g a' q s Hf) as [Hg ->]. destruct v; [|done]. by destruct (a' == a).
  - cbn [apply_one]. unfold send_to. cbn [outbox send_all].
    specialize (Hup i set_state_ready ltac:(done)). rewrite sent_to_app, outbox_update.
    rewrite (sent_one ch a id _ _ a' i _ Hup). split; [apply follows_send|].
    + destruct v as [x|]; simpl; [|by destruct (a' == a)]. simpl in Hup.
      destruct (a' == a); simpl; [|done]. by destruct (i == id).
    + f_equal. destruct v as [x|]; simpl; repeat case_bool_decide; naive_solver.
  - destruct v; [|done]. by destruct (a' == a).
  - split; [apply follows_send|cbn [apply_one]; rewrite Hwhere; f_equal]; destruct v; simpl; by destruct (a' == a).
  - destruct v; [|done]. by destruct (a' == a).
  - split; [apply follows_send|cbn [apply_one send_to outbox send_all]; rewrite sent_to_app, Hone; f_equal];
      destruct v; simpl; repeat case_bool_decide; naive_solver.
  - split; [apply follows_send|cbn [apply_one]; rewrite Hwhere; f_equal]; destruct v; simpl; by destruct (a' == a).
  - split; [apply follows_send|cbn [apply_one send_to outbox send_all]; rewrite sent_to_app, Hone; f_equal];
      destruct v; simpl; repeat case_bool_decide; naive_solver.
  - split; [apply follows_send|cbn [apply_one send_to outbox send_all]; rewrite sent_to_app, Hone; f_equal];
      destruct v; simpl; repeat case_bool_decide; naive_solver.
  - cbn [apply_one]. rewrite outbox_update. specialize (Hup i (λ x, set_connection (with_metadata w (rs_connection x)) x) ltac:(done)).
    destruct v as [x|]; simpl in *; by destruct (a' == a).
  - cbn [apply_one]. rewrite outbox_update. specialize (Hup i (λ x, set_connection (with_tags tags (rs_connection x)) x) ltac:(done)).
    destruct v as [x|]; simpl in *; by destruct (a' == a).
Qed.

Lemma follows_step ch a id v g o :
  follows ch a id v g → op_spares ch a id o →
  follows ch a id (view_next a id o v).1 (registry_step o g) ∧
  sent_to ch (outbox (registry_step o g)) = sent_to ch (outbox g) ++ (view_next a id o v).2.
Proof.
  intros Hf Ho. pose proof (sent_nothing ch g) as Hn.
  destruct o as [a' c ch'|a' i|a' e|a' i|a' e|p code reason|code reason]; cbn [registry_step].
  - destruct Ho. rewrite outbox_insert. pose proof (follows_insert ch a id v g a' c ch' Hf ltac:(done) ltac:(done)).
    by destruct v.
  - rewrite outbox_remove. pose proof (follows_remove ch a id v g a' i Hf). destruct v; simpl; [done|by case_bool_decide].
  - destruct e as [c|i m|c code reason clean]; [by destruct v..|]. simpl.
    pose proof (follows_remove ch a id v g a' (conn_id c) Hf) as Hr. pose proof (outbox_remove a' (conn_id c) g) as Hb.
    destruct (registry_remove a' (conn_id c) g) as [g' w]. simpl in *. rewrite Hb.
    destruct v; simpl; [done|by case_bool_decide].
  - rewrite outbox_activate. pose proof (follows_activate ch a id v g a' i Hf) as Hr. destruct v; simpl in *; by case_bool_decide.
  - by apply follows_effect.
  - split; [apply follows_send; by destruct v|]. simpl. rewrite sent_to_app. f_equal.
    rewrite (sent_closes ch a id v g _ _ _ Hf). by destruct v.
  - split; [apply follows_send; by destruct v|]. simpl. rewrite sent_to_app. f_equal.
    rewrite (sent_closes ch a id v g _ _ _ Hf). by destruct v.
Qed.

Lemma follows_run ch a id v g os :
  follows ch a id v g → Forall (op_spares ch a id) os →
  sent_to ch (outbox (registry_run os g)) = sent_to ch (outbox g) ++ seen a id os v.
Proof.
  unfold registry_run. intros Hf Hos. revert v g Hf. induction Hos as [|o os Ho _ IH]; intros v g Hf.
  { simpl. destruct v; apply sent_nothing. }
  destruct (follows_step ch a id v g o Hf Ho) as [Hf' Hs]. cbn [foldl]. rewrite (IH _ _ Hf'), Hs. rewrite <- app_assoc. f_equal.
  destruct v as [x|]; simpl; [by destruct (view_step a id o x)|by destruct os].
Qed.

(** Neither the channel nor the connection was used before. *)
Definition unused ch a (id : bytes) g : Prop :=
  socket_of a id g = None ∧ (∀ a' i x, socket_of a' i g = Some x → rs_outbound x ≠ ch) ∧ sent_to ch (outbox g) = [].

(** ** The specification

    A connection on its own: its tags, whether it is open, and whether it has been sent
    the state. *)
Record Listener := {
  li_tags : list bytes;
  li_open : bool;
  li_ready : bool;
}.

(** Who a broadcast is for: the connection is open, not excepted, and has all or one of
    the tags, if there are any. *)
Definition hears (id : bytes) (except tags : list bytes) (how : ActorSocketTagMatch) (l : Listener) : Prop :=
  li_open l = true ∧ id ∉ except ∧
  (tags = [] ∨ match how with
               | MatchAll => Forall (λ t, t ∈ li_tags l) tags
               | MatchAny => Exists (λ t, t ∈ li_tags l) tags
               end).

#[local] Instance hears_dec id except tags how l : Decision (hears id except tags how l).
Proof. unfold hears. destruct how; apply _. Defined.

Definition listen_effect (id : bytes) (e : ActorSocketEffect) (l : Listener) : Listener * list OutboundMessage :=
  match e with
  | SetAutoResponse _ _ | SetMetadata _ _ | StateSnapshotEffect _ _ None | StateUpdate _ _ _ None => (l, [])
  | StateSnapshotEffect i state (Some version) =>
      if decide (i = id) then
        ({| li_tags := li_tags l; li_open := li_open l; li_ready := true |}, [OutControl (StateControl state version)])
      else (l, [])
  | StateUpdate changes removed except (Some version) =>
      (l, if decide (li_ready l = true ∧ id ∉ except) then [OutControl (StateUpdateControl changes removed version)] else [])
  | Broadcast m except tags how => (l, if decide (hears id except tags how l) then [OutMessage m] else [])
  | SetTags i tags =>
      (if decide (i = id) then {| li_tags := tags; li_open := li_open l; li_ready := li_ready l |} else l, [])
  | Send i m => (l, if decide (i = id) then [OutMessage m] else [])
  | Close i code reason | Reject i code reason => (l, if decide (i = id) then [OutClose code reason] else [])
  end.

(** [None]: the connection is gone. *)
Definition listen_step a (id : bytes) (o : registry_op) (l : Listener) : option Listener * list OutboundMessage :=
  match o with
  | InsertOp _ _ _ | EventOp _ (Connect _) | EventOp _ (Message _ _) => (Some l, [])
  | RemoveOp a' i => (if decide (a' = a ∧ i = id) then None else Some l, [])
  | EventOp a' (Disconnect c _ _ _) => (if decide (a' = a ∧ conn_id c = id) then None else Some l, [])
  | ActivateOp a' i =>
      (Some (if decide (a' = a ∧ i = id) then {| li_tags := li_tags l; li_open := true; li_ready := li_ready l |} else l), [])
  | EffectOp a' e => if decide (a' = a) then let '(l, ms) := listen_effect id e l in (Some l, ms) else (Some l, [])
  | CloseProjectOp p code reason => (Some l, if decide (project_id a = p) then [OutClose code reason] else [])
  | CloseAllOp code reason => (Some l, [OutClose code reason])
  end.

Fixpoint heard a (id : bytes) (os : list registry_op) (l : option Listener) : list OutboundMessage :=
  match os, l with
  | o :: os, Some l => let '(l, ms) := listen_step a id o l in ms ++ heard a id os l
  | _, _ => []
  end.

Definition listener_of x : Listener :=
  {| li_tags := conn_tags (rs_connection x); li_open := rs_open x; li_ready := rs_state_ready x |}.

Lemma broadcast_hears except tags how x :
  broadcast_to except tags how (rs_open x) (rs_connection x) =
    bool_decide (hears (conn_id (rs_connection x)) except tags how (listener_of x)).
Proof.
  assert (∀ ts, forallb (λ t, bool_decide (t ∈ conn_tags (rs_connection x))) ts = true ↔
    Forall (λ t, t ∈ conn_tags (rs_connection x)) ts) as Hall.
  { induction ts as [|t ts IH]; simpl; [done|]. by rewrite andb_true_iff, bool_decide_eq_true, Forall_cons, IH. }
  assert (∀ ts, existsb (λ t, bool_decide (t ∈ conn_tags (rs_connection x))) ts = true ↔
    Exists (λ t, t ∈ conn_tags (rs_connection x)) ts) as Hany.
  { induction ts as [|t ts IH]; simpl; [by rewrite Exists_nil|].
    by rewrite orb_true_iff, bool_decide_eq_true, Exists_cons, IH. }
  apply eq_iff_eq_true. rewrite bool_decide_eq_true. unfold broadcast_to, hears. simpl.
  rewrite !andb_true_iff, orb_true_iff, negb_true_iff, bool_decide_eq_false, bool_decide_eq_true.
  destruct how; rewrite ?Hall, ?Hany; naive_solver.
Qed.

Lemma decide_bool {A} P `{!Decision P} (x y : A) : (if decide P then x else y) = if bool_decide P then x else y.
Proof. by destruct (decide P); [rewrite bool_decide_true|rewrite bool_decide_false]. Qed.

Lemma view_listens a id o x :
  conn_id (rs_connection x) = id →
  listen_step a id o (listener_of x) = (listener_of <$> (view_step a id o x).1, (view_step a id o x).2) ∧
  ∀ y, (view_step a id o x).1 = Some y → conn_id (rs_connection y) = id.
Proof.
  intros <-. destruct o as [a' c ch|a' i|a' [| |]|a' i|a' e|p code reason|code reason]; simpl; rewrite ?decide_bool;
    try (by repeat case_bool_decide; naive_solver).
  case_bool_decide; [|by split; [|naive_solver]].
  destruct e as [q s|i state [w|]|changes removed except [w|]|i m|m except tags how|i code reason|i code reason|i w|i tags];
    simpl; rewrite ?decide_bool, ?broadcast_hears; try (by repeat case_bool_decide; naive_solver).
  split; [|by intros y [= <-]]. destruct (rs_state_ready x); simpl; repeat case_bool_decide; naive_solver.
Qed.

Lemma seen_heard a id os x :
  conn_id (rs_connection x) = id → seen a id os (Some x) = heard a id os (Some (listener_of x)).
Proof.
  revert x. induction os as [|o os IH]; intros x Hx; [done|]. cbn [seen heard].
  destruct (view_listens a id o x Hx) as [-> Hy]. destruct (view_step a id o x) as [[y|] l]; simpl in *.
  - by rewrite IH by auto.
  - by destruct os.
Qed.

(** C32. Once a connection is registered, what is sent to its channel is exactly what
    the specification of this connection alone says, in the same order, until it is
    removed: messages, states and closings for it, broadcasts of its actor while it is
    open, is not excepted and has the tags; the effects of other actors, for other
    connections or for other tags never show, and nothing that is for it is lost. The
    channel and the id are not used for another connection. *)
Theorem connection_sees_its_effects a c ch g g' os :
  unused ch a (conn_id c) g → registry_insert a c ch g = (g', true) →
  Forall (op_spares ch a (conn_id c)) os →
  sent_to ch (outbox (registry_run os g')) =
    heard a (conn_id c) os (Some {| li_tags := conn_tags c; li_open := false; li_ready := false |}).
Proof.
  intros (Hs & Hch & Hout) Hi Hos.
  set (x := {| rs_connection := c; rs_outbound := ch; rs_open := false; rs_state_ready := false |}).
  assert (follows ch a (conn_id c) (Some x) g') as Hf.
  { unfold registry_insert in Hi. case_match; [done|]. injection Hi as <-.
    set (r := set_connections _ _).
    enough (follows ch a (conn_id c) (if bool_decide (a = a) then room_connections r !! conn_id c else None)
              (set_entries (<[a := r]> (reg_entries g)) g)) as Hk.
    { rewrite bool_decide_eq_true_2 in Hk by done. subst r. simpl in Hk. by rewrite lookup_insert_eq in Hk. }
    apply follows_set.
    - split; [done|done|]. intros a' i y Hy Hc. by destruct (Hch _ _ _ Hy).
    - subst r. simpl. intros i y [[<- <-]|[_ Hy]]%lookup_insert_Some Hc; [done|]. by destruct (Hch a i y).
    - subst r. simpl. rewrite bool_decide_eq_true_2, lookup_insert_eq by done. by intros y [= <-]. }
  rewrite (follows_run _ _ _ _ _ _ Hf Hos), (seen_heard _ _ _ x) by done.
  replace (outbox g') with (outbox g); [by rewrite Hout|].
  pose proof (outbox_insert a c ch g) as Hb. by rewrite Hi in Hb.
Qed.
End safety.
