(* ===== verification/SocketBus.v ===== *)
(** * Gateways that share their sockets

    [src/src/control_plane/socket_bus.rs]: the sockets of an actor may be spread over
    several gateways, so effects are published to all of them and questions are asked
    of all of them. [MemorySocketBus] does this within one process,
    [RedisSocketBus] through the channels of a Redis server.

    The Redis bus is a state machine. Its listener task is one session with the server
    after another; the queue of commands it handles survives a session. A call of
    [watch] is named by a number: it waits for its own [Subscribe] and holds one count
    of its actor until it is given up. *)

From S2P Require Import Prelude Text Effects Btree Names StateLog Protocol LifecycleStore Executor Sockets.
Local Open Scope N_scope.

(** ** Inventories of several gateways *)

Section bus.
Context `{JsonValue}.
Implicit Types (a : ActorKey) (g : SocketRegistry).

#[local] Instance pair_key_ord : KeyOrd (bytes * bytes).
Proof.
  refine {| key_lt := λ x y, bytes_ltb x.1 y.1 || ((x.1 == y.1) && bytes_ltb x.2 y.2) |}.
  - intros [s t]. simpl. pose proof (key_lt_irrefl (K := bytes)) as Hi. simpl in Hi. by rewrite !Hi, andb_false_r.
  - intros [s1 t1] [s2 t2] [s3 t3]. simpl. rewrite !orb_true_iff, !andb_true_iff, !bool_decide_eq_true.
    pose proof (key_lt_trans (K := bytes)) as Ht. simpl in Ht. naive_solver.
  - intros [s1 t1] [s2 t2]. simpl. rewrite !orb_false_iff, !andb_false_iff, !bool_decide_eq_false.
    pose proof (key_lt_total (K := bytes)) as Ht. simpl in Ht. intros [? Hst] [? Hts].
    assert (s1 = s2) as -> by auto. f_equal. apply Ht; naive_solver.
Defined.

Definition named (i : ActorSocketInventory) : bytes * bytes :=
  (actor_name (inv_room_actor i), actor_id (inv_room_actor i)).

Definition merge_step (merged : list ((bytes * bytes) * ActorSocketInventory)) (i : ActorSocketInventory) :=
  match bt_get (named i) merged with
  | Some e =>
      bt_insert (named i) {| inv_room_actor := inv_room_actor e;
                             inv_room_connections := inv_room_connections e ++ inv_room_connections i |} merged
  | None => bt_insert (named i) i merged
  end.

Definition sort_room (i : ActorSocketInventory) : ActorSocketInventory :=
  {| inv_room_actor := inv_room_actor i; inv_room_connections := sort_by conn_leb (inv_room_connections i) |}.

Definition merge_inventory (rooms : list ActorSocketInventory) : list ActorSocketInventory :=
  sort_room <$> (snd <$> foldl merge_step [] rooms).

Record SocketInventory := {
  rooms : list ActorSocketInventory;
  inventory_complete : bool;
}.

(** ** One process *)

Definition MemorySocketHub := list SocketRegistry.

Definition hub_join (max_connections : N) (h : MemorySocketHub) : MemorySocketHub :=
  h ++ [with_max_connections max_connections].

Definition hub_publish a (es : list ActorSocketEffect) (h : MemorySocketHub) : MemorySocketHub :=
  registry_apply a es <$> h.

Definition hub_connections a (tag : option bytes) (h : MemorySocketHub) : list ActorSocketConnection :=
  concat (connections_with_tag a tag <$> h).

Definition hub_count a (h : MemorySocketHub) : N := foldl (λ n g, wrap_u64 (n + registry_count a g)) 0 h.

Definition hub_inventory (project : bytes) (h : MemorySocketHub) : SocketInventory :=
  {| rooms := merge_inventory (concat (inventory project <$> h)); inventory_complete := true |}.

(** ** A Redis server *)

Inductive Question :=
| CountQuestion (a : ActorKey)
| ConnectionsQuestion (a : ActorKey) (tag : option bytes)
| InventoryQuestion (project : bytes).

Inductive Answer :=
| CountAnswer (count : N)
| ConnectionsAnswer (connections : list ActorSocketConnection)
| InventoryAnswer (rooms : list ActorSocketInventory).

Inductive Envelope :=
| EffectsEnvelope (a : ActorKey) (effects : list ActorSocketEffect)
| QuestionEnvelope (id reply_to : bytes) (question : Question)
| AnswerEnvelope (id : bytes) (answer : Answer).

Inductive BusCommand :=
| Subscribe (a : ActorKey) (load : bool) (done : N)
| Unsubscribe (channel : bytes).

Record AutoResponse := {
  auto_request : option bytes;
  auto_reply : option bytes;
}.

(** A call of [watch]: waiting for its [Subscribe], told how it went, or returned [Ok]. *)
Inductive watch_phase := WatchWaits | WatchTold (ok : bool) | WatchHolds.

Record Watch := {
  wt_id : N;
  wt_actor : ActorKey;
  wt_phase : watch_phase;
}.

(** The listener: between sessions, in the calls that start one, or in its loop with
    the channels it is subscribed to. *)
Inductive listener :=
| ListenerOff
| ListenerStarting (resubscribe : list ActorKey)
| ListenerOn (subscriptions : gset bytes)
| ListenerStopped.

Record RedisSocketBus := {
  bus_registry : SocketRegistry;
  bus_connected : bool;
  bus_generation : N;
  bus_pending : gmap bytes (list Answer);
  bus_subscribed : list ActorKey;
  bus_watched : gmap ActorKey N;
  bus_commands : list BusCommand;
  bus_listener : listener;
  (** the calls of [watch] in progress or not given up *)
  bus_watches : list Watch;
  (** what the spawned tasks and [publish] send: a channel and an envelope *)
  bus_published : list (bytes * Envelope);
}.

Context (namespace replies : bytes) (accepts_sockets : bool).

Definition actor_channel a : bytes := namespace ++ b":actor:" ++ storage_key a.
Definition gateways_channel : bytes := namespace ++ b":gateways".
Definition auto_response_key a : bytes := namespace ++ b":auto-response:" ++ storage_key a.

Definition bus_start (max_connections : N) : RedisSocketBus :=
  {| bus_registry := with_max_connections max_connections; bus_connected := false; bus_generation := 0;
     bus_pending := ∅; bus_subscribed := []; bus_watched := ∅; bus_commands := []; bus_listener := ListenerOff;
     bus_watches := []; bus_published := [] |}.

Implicit Types s : RedisSocketBus.

Definition set_registry g s : RedisSocketBus :=
  {| bus_registry := g; bus_connected := bus_connected s; bus_generation := bus_generation s;
     bus_pending := bus_pending s; bus_subscribed := bus_subscribed s; bus_watched := bus_watched s;
     bus_commands := bus_commands s; bus_listener := bus_listener s; bus_watches := bus_watches s;
     bus_published := bus_published s |}.
Definition set_session (connected : bool) (generation : N) (l : listener) s : RedisSocketBus :=
  {| bus_registry := bus_registry s; bus_connected := connected; bus_generation := generation;
     bus_pending := bus_pending s; bus_subscribed := bus_subscribed s; bus_watched := bus_watched s;
     bus_commands := bus_commands s; bus_listener := l; bus_watches := bus_watches s;
     bus_published := bus_published s |}.
Definition set_pending_answers (p : gmap bytes (list Answer)) s : RedisSocketBus :=
  {| bus_registry := bus_registry s; bus_connected := bus_connected s; bus_generation := bus_generation s;
     bus_pending := p; bus_subscribed := bus_subscribed s; bus_watched := bus_watched s;
     bus_commands := bus_commands s; bus_listener := bus_listener s; bus_watches := bus_watches s;
     bus_published := bus_published s |}.
Definition set_watched (w : gmap ActorKey N) (subscribed : list ActorKey) (cs : list BusCommand) (ws : list Watch) s
    : RedisSocketBus :=
  {| bus_registry := bus_registry s; bus_connected := bus_connected s; bus_generation := bus_generation s;
     bus_pending := bus_pending s; bus_subscribed := subscribed; bus_watched := w; bus_commands := cs;
     bus_listener := bus_listener s; bus_watches := ws; bus_published := bus_published s |}.
Definition set_watches (ws : list Watch) s : RedisSocketBus :=
  set_watched (bus_watched s) (bus_subscribed s) (bus_commands s) ws s.
Definition set_commands (cs : list BusCommand) s : RedisSocketBus :=
  set_watched (bus_watched s) (bus_subscribed s) cs (bus_watches s) s.
Definition add_published (l : list (bytes * Envelope)) s : RedisSocketBus :=
  {| bus_registry := bus_registry s; bus_connected := bus_connected s; bus_generation := bus_generation s;
     bus_pending := bus_pending s; bus_subscribed := bus_subscribed s; bus_watched := bus_watched s;
     bus_commands := bus_commands s; bus_listener := bus_listener s; bus_watches := bus_watches s;
     bus_published := bus_published s ++ l |}.

(** [SocketBus::generation] *)
Definition generation_now s : option N := if bus_connected s then Some (bus_generation s) else None.

(** *** Watching an actor *)

(** [watch] up to its wait; the call is named [n]. *)
Definition watch (n : N) a s : result unit * RedisSocketBus :=
  if bus_connected s then
    let sockets := wrap_u64 (default 0 (bus_watched s !! a) + 1) in
    let load := sockets =? 1 in
    (Ok (), set_watched (<[a := sockets]> (bus_watched s))
              (if load then bus_subscribed s ++ [a] else bus_subscribed s)
              (bus_commands s ++ [Subscribe a load n])
              (bus_watches s ++ [{| wt_id := n; wt_actor := a; wt_phase := WatchWaits |}]) s)
  else (Err "socket bus is reconnecting", s).

Definition unwatch a s : RedisSocketBus :=
  match bus_watched s !! a with
  | None => s
  | Some sockets =>
      let sockets := wrap_u64 (sockets + u64_max) in
      if sockets =? 0 then
        set_watched (delete a (bus_watched s)) (filter (λ x, x ≠ a) (bus_subscribed s))
          (bus_commands s ++ [Unsubscribe (actor_channel a)]) (bus_watches s) s
      else set_watched (<[a := sockets]> (bus_watched s)) (bus_subscribed s) (bus_commands s) (bus_watches s) s
  end.

Definition set_phase (n : N) (p : watch_phase) (ws : list Watch) : list Watch :=
  (λ w, if wt_id w =? n then {| wt_id := wt_id w; wt_actor := wt_actor w; wt_phase := p |} else w) <$> ws.

Definition find_watch (n : N) s : option Watch := List.find (λ w, wt_id w =? n) (bus_watches s).
Definition drop_watch (n : N) s : RedisSocketBus :=
  set_watches (List.filter (λ w, negb (wt_id w =? n)) (bus_watches s)) s.

(** The rest of [watch]: the answer of the listener, or [None] when it is late. *)
Definition watch_returns (n : N) (in_time : bool) s : RedisSocketBus :=
  match find_watch n s with
  | Some w =>
      match wt_phase w, in_time with
      | WatchTold true, true => set_watches (set_phase n WatchHolds (bus_watches s)) s
      | WatchTold false, _ | WatchWaits, false | WatchTold true, false => unwatch (wt_actor w) (drop_watch n s)
      | _, _ => s
      end
  | None => s
  end.

(** The socket the watch was for is gone. *)
Definition watch_released (n : N) s : RedisSocketBus :=
  match find_watch n s with
  | Some w => match wt_phase w with WatchHolds => unwatch (wt_actor w) (drop_watch n s) | _ => s end
  | None => s
  end.

(** *** The listener *)

Definition load_auto_response a (stored : AutoResponse) s : RedisSocketBus :=
  set_registry (registry_apply a [SetAutoResponse (auto_request stored) (auto_reply stored)] (bus_registry s)) s.

(** The end of a session with an error, up to the pause before the next one: the
    session notices the loss of its connection when its stream ends, and until then
    the steps of a running session go on. *)
Definition session_lost s : RedisSocketBus :=
  set_registry (close_all 1012 (b"socket gateway lost its subscription") (bus_registry s))
    (set_session false (bus_generation s) ListenerOff s).

Definition session_start s : RedisSocketBus :=
  match bus_listener s with
  | ListenerOff => set_session (bus_connected s) (bus_generation s) (ListenerStarting (bus_subscribed s)) s
  | _ => s
  end.

(** The listener was stopped. *)
Definition session_stopped s : RedisSocketBus := set_session false (bus_generation s) ListenerStopped s.

(** All the subscriptions of a new session and the loads succeeded. *)
Definition session_ready (stored : ActorKey → AutoResponse) s : RedisSocketBus :=
  match bus_listener s with
  | ListenerStarting resubscribe =>
      let s := foldl (λ s a, load_auto_response a (stored a) s) s resubscribe in
      set_session true (wrap_u64 (bus_generation s + 1))
        (ListenerOn ({[replies]} ∪ (if accepts_sockets then {[gateways_channel]} else ∅) ∪
                     list_to_set (actor_channel <$> resubscribe))) s
  | _ => s
  end.

(** The loop takes one command; [subscribed] and [loaded] are the server's answers. *)
Definition handle_command (subscribed : bool) (loaded : option AutoResponse) s : RedisSocketBus :=
  match bus_listener s, bus_commands s with
  | ListenerOn subs, c :: cs =>
      let s := set_commands cs s in
      match c with
      | Subscribe a load done =>
          if subscribed then
            let s := set_session (bus_connected s) (bus_generation s) (ListenerOn ({[actor_channel a]} ∪ subs)) s in
            match load, loaded with
            | true, Some stored => set_watches (set_phase done (WatchTold true) (bus_watches s)) (load_auto_response a stored s)
            | true, None => set_watches (set_phase done (WatchTold false) (bus_watches s)) s
            | false, _ => set_watches (set_phase done (WatchTold true) (bus_watches s)) s
            end
          else session_lost (set_watches (set_phase done (WatchTold false) (bus_watches s)) s)
      | Unsubscribe channel =>
          if subscribed then set_session (bus_connected s) (bus_generation s) (ListenerOn (subs ∖ {[channel]})) s
          else session_lost s
      end
  | _, _ => s
  end.

Definition answer_question (q : Question) g : Answer :=
  match q with
  | CountQuestion a => CountAnswer (registry_count a g)
  | ConnectionsQuestion a tag => ConnectionsAnswer (connections_with_tag a tag g)
  | InventoryQuestion project => InventoryAnswer (inventory project g)
  end.

(** [receive]; an unreadable payload is ignored. *)
Definition receive_envelope (e : option Envelope) s : RedisSocketBus :=
  match e with
  | None => s
  | Some (EffectsEnvelope a effects) => set_registry (registry_apply a effects (bus_registry s)) s
  | Some (QuestionEnvelope id reply_to question) =>
      add_published [(reply_to, AnswerEnvelope id (answer_question question (bus_registry s)))] s
  | Some (AnswerEnvelope id answer) =>
      match bus_pending s !! id with
      | Some l => set_pending_answers (<[id := l ++ [answer]]> (bus_pending s)) s
      | None => s
      end
  end.

(** *** Publishing and asking *)

(** What [publish] stores before it publishes: a pair to keep, or [None] to delete. *)
Definition last_auto_response (es : list ActorSocketEffect) : option (option bytes * option bytes) :=
  head (omap (λ e, match e with SetAutoResponse q r => Some (q, r) | _ => None end) (rev es)).

Inductive RedisCommand :=
| RedisSet (key : bytes) (value : AutoResponse) (ttl_ms : N)
| RedisDel (key : bytes).

Definition AUTO_RESPONSE_TTL_MS : N := 7 * 24 * 3600 * 1000.

Definition publish_command a (es : list ActorSocketEffect) : option RedisCommand :=
  match last_auto_response es with
  | Some (Some q, Some r) =>
      Some (RedisSet (auto_response_key a) {| auto_request := Some q; auto_reply := Some r |} AUTO_RESPONSE_TTL_MS)
  | Some _ => Some (RedisDel (auto_response_key a))
  | None => None
  end.

Definition bus_publish a (es : list ActorSocketEffect) (run : RedisCommand → result unit) s : result unit * RedisSocketBus :=
  match match publish_command a es with Some c => run c | None => Ok () end with
  | Err e => (Err e, s)
  | Ok _ => (Ok (), add_published [(actor_channel a, EffectsEnvelope a es)] s)
  end.

(** [published] is what the [PUBLISH] of the question returned, the number of receivers;
    of the answers that arrived in time it takes as many. *)
Definition ask_partial (published : result N) (arrived : list Answer) s : result (list Answer * bool) :=
  ensure (bus_connected s) "socket bus is reconnecting";;
  receivers ← published;
  let received := takeN receivers arrived in
  Ok (received, len received =? receivers).

Definition ask (published : result N) (arrived : list Answer) s : result (list Answer) :=
  '(answers, complete) ← ask_partial published arrived s;
  ensure complete "a socket gateway did not answer";;
  Ok answers.

Definition bus_connections (published : result N) (arrived : list Answer) s : result (list ActorSocketConnection) :=
  answers ← ask published arrived s;
  Ok (concat ((λ x, match x with ConnectionsAnswer cs => cs | _ => [] end) <$> answers)).

Definition bus_count (published : result N) (arrived : list Answer) s : result N :=
  answers ← ask published arrived s;
  Ok (foldl (λ n x, wrap_u64 (n + match x with CountAnswer c => c | _ => 0 end)) 0 answers).

Definition bus_inventory (published : result N) (arrived : list Answer) s : result SocketInventory :=
  '(answers, complete) ← ask_partial published arrived s;
  Ok {| rooms := merge_inventory (concat ((λ x, match x with InventoryAnswer l => l | _ => [] end) <$> answers));
        inventory_complete := complete |}.
End bus.
