(* ===== verification/SocketBusSafety.v ===== *)
(** * No published effect is missed

    A socket is opened only while its gateway watches the actor, and every frame is
    sent only if the generation of the bus is still the one the socket was opened in.
    The theorem of this file says why that is enough: as long as a watch holds and the
    generation stays the same, the gateway was subscribed to the channel of the actor
    all the time. *)

From S2P Require Import Prelude Text Effects Btree Names StateLog Protocol LifecycleStore Executor Sockets SocketBus.
Local Open Scope N_scope.

(** Valid actors are known by their channel. *)
Lemma storage_key_inj (x y : ActorKey) :
  validate_actor x = Ok () → validate_actor y = Ok () → storage_key x = storage_key y → x = y.
Proof.
  intros Hx%actor_from_key_storage_key Hy%actor_from_key_storage_key E. rewrite E in Hx. congruence.
Qed.

Section safety.
Context `{JsonValue} (namespace replies : bytes) (accepts_sockets : bool).
Implicit Types (a : ActorKey) (s : RedisSocketBus) (w : Watch).

Local Abbreviation channel := (actor_channel namespace).

Inductive bus_event :=
| BusWatch (n : N) (a : ActorKey)
| BusWatchReturns (n : N) (in_time : bool)
| BusReleased (n : N)
| BusSessionStart
| BusSessionReady (stored : ActorKey → AutoResponse)
| BusSessionLost
| BusStops
| BusHandles (subscribed : bool) (loaded : option AutoResponse)
| BusReceives (e : option Envelope)
| BusPublishes (a : ActorKey) (es : list ActorSocketEffect) (run : RedisCommand → result unit).

Definition bus_step (e : bus_event) s : RedisSocketBus :=
  match e with
  | BusWatch n a => (watch n a s).2
  | BusWatchReturns n in_time => watch_returns namespace n in_time s
  | BusReleased n => watch_released namespace n s
  | BusSessionStart => session_start s
  | BusSessionReady stored => session_ready namespace replies accepts_sockets stored s
  | BusSessionLost => match bus_listener s with ListenerStarting _ | ListenerOn _ => session_lost s | _ => s end
  | BusStops => session_stopped s
  | BusHandles subscribed loaded => SocketBus.handle_command namespace subscribed loaded s
  | BusReceives e => match bus_listener s with ListenerOn _ => receive_envelope e s | _ => s end
  | BusPublishes a es run => (bus_publish namespace a es run s).2
  end.

Definition bus_run (es : list bus_event) s : RedisSocketBus := foldl (λ s e, bus_step e s) s es.

Definition done_of (c : BusCommand) : option N := match c with Subscribe _ _ n => Some n | _ => None end.
Definition dones s : list N := omap done_of (bus_commands s).

(** A call of [watch] has a name of its own and is for a valid actor, and there are
    fewer of them than a count can hold. *)
Definition event_ok s (e : bus_event) : Prop :=
  match e with
  | BusWatch n a =>
      validate_actor a = Ok () ∧ n ∉ (wt_id <$> bus_watches s) ∧ n ∉ dones s ∧ len (bus_watches s) < u64_max
  | _ => True
  end.

Fixpoint events_ok s (es : list bus_event) : Prop :=
  match es with
  | [] => True
  | e :: es => event_ok s e ∧ events_ok (bus_step e s) es
  end.

(** ** The invariant *)

Definition watches_of a (ws : list Watch) : list Watch := filter (λ w, wt_actor w = a) ws.

Definition settled_watch w : Prop :=
  match wt_phase w with WatchHolds | WatchTold true => True | _ => False end.

(** The listener has, or will have after its start, subscribed to the channel. *)
Definition listens a s : Prop :=
  match bus_listener s with
  | ListenerOn subs => channel a ∈ subs
  | ListenerStarting l => a ∈ l
  | _ => True
  end.

(** The [Subscribe] of the call [n] is waiting, and no [Unsubscribe] comes after it. *)
Definition queued a (n : N) (cs : list BusCommand) : Prop :=
  ∃ pre load post, cs = pre ++ Subscribe a load n :: post ∧ Unsubscribe (channel a) ∉ post.

Record bus_ok s : Prop := {
  bus_counts a : default 0 (bus_watched s !! a) = len (watches_of a (bus_watches s));
  bus_positive a : bus_watched s !! a ≠ Some 0;
  bus_ids : NoDup (wt_id <$> bus_watches s);
  bus_valid w : w ∈ bus_watches s → validate_actor (wt_actor w) = Ok ();
  bus_unsubscribes c : Unsubscribe c ∈ bus_commands s → ∃ a, validate_actor a = Ok () ∧ c = channel a;
  bus_dones : NoDup (dones s);
  bus_waits w n a load :
    w ∈ bus_watches s → wt_id w = n → Subscribe a load n ∈ bus_commands s → wt_actor w = a ∧ wt_phase w = WatchWaits;
  bus_subscribes a : a ∈ bus_subscribed s ↔ is_Some (bus_watched s !! a);
  bus_settled w : w ∈ bus_watches s → settled_watch w →
    Unsubscribe (channel (wt_actor w)) ∉ bus_commands s ∧ listens (wt_actor w) s;
  bus_waiting w : w ∈ bus_watches s → wt_phase w = WatchWaits → queued (wt_actor w) (wt_id w) (bus_commands s);
  bus_live : bus_connected s = true → ∃ subs, bus_listener s = ListenerOn subs;
  bus_width : len (bus_watches s) ≤ u64_max;
}.

Lemma channel_inj x y :
  validate_actor x = Ok () → validate_actor y = Ok () → channel x = channel y → x = y.
Proof.
  intros Hx Hy E. unfold actor_channel in E. apply app_inv_head in E.
  change (b":actor:" ++ ?x) with ([x3a; x61; x63; x74; x6f; x72; x3a] ++ x) in E.
  apply app_inv_head in E. by apply storage_key_inj.
Qed.

(** Same calls, same queue, same session: only the registry, the answers or what was
    published differs. *)
Record same_bus s s' : Prop := {
  sb_connected : bus_connected s' = bus_connected s;
  sb_generation : bus_generation s' = bus_generation s;
  sb_subscribed : bus_subscribed s' = bus_subscribed s;
  sb_watched : bus_watched s' = bus_watched s;
  sb_commands : bus_commands s' = bus_commands s;
  sb_listener : bus_listener s' = bus_listener s;
  sb_watches : bus_watches s' = bus_watches s;
}.

Lemma bus_ok_same s s' : same_bus s s' → bus_ok s → bus_ok s'.
Proof.
  intros [E1 E2 E3 E4 E5 E6 E7] []. split; unfold dones, listens in *; rewrite ?E1, ?E2, ?E3, ?E4, ?E5, ?E6, ?E7; done.
Qed.

Lemma same_loads stored l s : same_bus s (foldl (λ s a, load_auto_response a (stored a) s) s l).
Proof.
  revert s. induction l as [|x l IH]; intros s; simpl; [done|].
  destruct (IH (load_auto_response x (stored x) s)) as []. by split.
Qed.

(** A change of the session that keeps what the settled watches rely on. *)
Lemma bus_ok_session connected generation l s :
  bus_ok s → (connected = true → ∃ subs, l = ListenerOn subs) →
  (∀ w, w ∈ bus_watches s → settled_watch w → Unsubscribe (channel (wt_actor w)) ∉ bus_commands s →
    listens (wt_actor w) s → is_Some (bus_watched s !! wt_actor w) → listens (wt_actor w) (set_session connected generation l s)) →
  bus_ok (set_session connected generation l s).
Proof.
  intros Hs Hc Hl. pose proof Hs as []. split; try done. intros w Hw Hset. destruct (bus_settled0 w Hw Hset) as [Hu Hin].
  split; [done|]. apply Hl; [done..|]. specialize (bus_counts0 (wt_actor w)).
  destruct (bus_watched s !! wt_actor w) eqn:E; [done|]. simpl in bus_counts0.
  assert (w ∈ watches_of (wt_actor w) (bus_watches s)) as Hin' by (by apply list_elem_of_filter).
  unfold len in bus_counts0. destruct (watches_of _ _); [by apply not_elem_of_nil in Hin'|]. simpl in *. lia.
Qed.

Lemma bus_ok_lost s : bus_ok s → bus_ok (session_lost s).
Proof.
  intros Hs. eapply bus_ok_same; [|by apply (bus_ok_session false (bus_generation s) ListenerOff)]. by split.
Qed.

Lemma bus_ok_start s : bus_ok s → bus_ok (session_start s).
Proof.
  intros Hs. unfold session_start. destruct (bus_listener s) eqn:E; try done. apply bus_ok_session; [done| |].
  - intros Hc. destruct (bus_live _ Hs Hc). congruence.
  - intros w _ _ _ _ Hw. unfold listens. simpl. by apply (bus_subscribes _ Hs).
Qed.

Lemma bus_ok_ready stored s : bus_ok s → bus_ok (session_ready namespace replies accepts_sockets stored s).
Proof.
  intros Hs. unfold session_ready. destruct (bus_listener s) as [|l| |] eqn:E; try done.
  pose proof (same_loads stored l s) as Hsame. pose proof (bus_ok_same _ _ Hsame Hs) as Hs'.
  apply bus_ok_session; [done|by eauto|]. intros w _ _ _ Hin _. unfold listens in *. simpl.
  rewrite (sb_listener _ _ Hsame), E in Hin. apply elem_of_union_r, elem_of_list_to_set.
  by apply list_elem_of_fmap_2.
Qed.

(** *** Calls of [watch] *)

Lemma watches_of_app a l k : watches_of a (l ++ k) = watches_of a l ++ watches_of a k.
Proof. apply filter_app. Qed.

Lemma bus_ok_watch n a s : bus_ok s → event_ok s (BusWatch n a) → bus_ok (watch n a s).2.
Proof.
  intros Hs (Hv & Hn & Hd & Hlen). unfold watch. destruct (bus_connected s) eqn:Ec; [|done]. simpl.
  pose proof Hs as [Hcount Hpos Hids Hvalid Huns Hdones Hwaits Hsub Hset Hwait Hlive Hwidth].
  assert (wrap_u64 (default 0 (bus_watched s !! a) + 1) = default 0 (bus_watched s !! a) + 1) as Hwrap.
  { unfold wrap_u64, u64_max in *. apply N.mod_small. rewrite Hcount. unfold watches_of, len in *.
    pose proof (length_filter (λ w, wt_actor w = a) (bus_watches s)). lia. }
  rewrite Hwrap. set (w := {| wt_id := n; wt_actor := a; wt_phase := WatchWaits |}).
  assert (dones (set_commands (bus_commands s ++ [Subscribe a (default 0 (bus_watched s !! a) + 1 =? 1) n]) s) = dones s ++ [n]) as Hdn.
  { unfold dones. simpl. by rewrite omap_app. }
  split; simpl.
  - intros a'. rewrite watches_of_app, len_app. destruct (decide (a = a')) as [<-|Hne].
    + rewrite lookup_insert_eq. unfold watches_of at 2. rewrite filter_cons_True, filter_nil by done. simpl.
      rewrite Hcount. done.
    + rewrite lookup_insert_ne by done. unfold watches_of at 2. rewrite filter_cons_False, filter_nil by done.
      rewrite Hcount. unfold len. simpl. lia.
  - intros a'. destruct (decide (a = a')) as [<-|]; [rewrite lookup_insert_eq; intros [=]; lia|].
    rewrite lookup_insert_ne by done. apply Hpos.
  - rewrite fmap_app. apply NoDup_app. split_and!; [done| |apply NoDup_singleton].
    intros x Hx ->%list_elem_of_singleton. done.
  - intros w' [Hw| ->%list_elem_of_singleton]%elem_of_app; [by apply Hvalid|done].
  - intros c [Hc|Hc%list_elem_of_singleton]%elem_of_app; [by apply Huns|done].
  - change (NoDup (dones (set_commands (bus_commands s ++ [Subscribe a (default 0 (bus_watched s !! a) + 1 =? 1) n]) s))).
    rewrite Hdn. apply NoDup_app. split_and!; [done| |apply NoDup_singleton].
    intros x Hx ->%list_elem_of_singleton. done.
  - intros w' m a' load [Hw| ->%list_elem_of_singleton]%elem_of_app Hid [Hin|Hin%list_elem_of_singleton]%elem_of_app.
    + eauto.
    + exfalso. injection Hin as -> _ ->. apply Hn. rewrite <- Hid. by apply list_elem_of_fmap_2.
    + exfalso. simpl in Hid. subst m. apply Hd. apply list_elem_of_omap. by exists (Subscribe a' load n).
    + injection Hin as -> _ ->. done.
  - intros a'. destruct (decide (a = a')) as [<-|Hne].
    + rewrite lookup_insert_eq. split; [by eauto|]. intros _. destruct (N.eqb_spec (default 0 (bus_watched s !! a) + 1) 1).
      * apply elem_of_app. right. by apply list_elem_of_singleton.
      * apply Hsub. destruct (bus_watched s !! a); simpl in *; [done|lia].
    + rewrite lookup_insert_ne by done. rewrite <- Hsub. case_match; [|done]. rewrite elem_of_app, list_elem_of_singleton.
      naive_solver.
  - intros w' [Hw| ->%list_elem_of_singleton]%elem_of_app Hst; [|done]. destruct (Hset w' Hw Hst) as [Hu Hl].
    split; [|done]. intros [?|Hc%list_elem_of_singleton]%elem_of_app; done.
  - intros w' [Hw| ->%list_elem_of_singleton]%elem_of_app Hp.
    + destruct (Hwait w' Hw Hp) as (pre & load & post & E & Hpost). eexists pre, load, _.
      split; [rewrite E, <- app_assoc; simpl; reflexivity|]. intros [?|Hc%list_elem_of_singleton]%elem_of_app; done.
    + eexists _, _, []. split; [done|]. apply not_elem_of_nil.
  - intros _. auto.
  - rewrite len_app. unfold len at 2. simpl. lia.
Qed.

Definition others (n : N) (ws : list Watch) : list Watch := List.filter (λ w, negb (wt_id w =? n)) ws.

Lemma elem_of_others n ws w : w ∈ others n ws ↔ w ∈ ws ∧ wt_id w ≠ n.
Proof.
  unfold others. rewrite !list_elem_of_In, List.filter_In, negb_true_iff, N.eqb_neq. done.
Qed.

Lemma others_all n ws : n ∉ (wt_id <$> ws) → others n ws = ws.
Proof.
  intros Hn. induction ws as [|w ws IH]; simpl in *; [done|]. apply not_elem_of_cons in Hn as [Hne Hn].
  rewrite (proj2 (N.eqb_neq (wt_id w) n)) by done. simpl. f_equal. auto.
Qed.

Lemma others_perm w ws : NoDup (wt_id <$> ws) → w ∈ ws → ws ≡ₚ w :: others (wt_id w) ws.
Proof.
  induction ws as [|x ws IH]; simpl; intros Hnd Hw; [by apply not_elem_of_nil in Hw|].
  apply NoDup_cons in Hnd as [Hx Hnd]. apply elem_of_cons in Hw as [-> |Hw].
  - rewrite N.eqb_refl. simpl. fold (others (wt_id x) ws). by rewrite others_all.
  - assert (wt_id x ≠ wt_id w) as Hne. { intros E. apply Hx. rewrite E. by apply list_elem_of_fmap_2. }
    rewrite (proj2 (N.eqb_neq _ _) Hne). simpl. rewrite (IH Hnd Hw) at 1. constructor.
Qed.

Lemma others_ids n ws : NoDup (wt_id <$> ws) → NoDup (wt_id <$> others n ws).
Proof.
  induction ws as [|x ws IH]; simpl; [done|]. intros [Hx Hnd]%NoDup_cons.
  destruct (wt_id x =? n); simpl; [by apply IH|]. apply NoDup_cons. split; [|by apply IH].
  intros (y & E & [Hy _]%elem_of_others)%list_elem_of_fmap. apply Hx. rewrite E. by apply list_elem_of_fmap_2.
Qed.

Lemma watches_of_others a w ws :
  NoDup (wt_id <$> ws) → w ∈ ws →
  len (watches_of a ws) = (if decide (wt_actor w = a) then 1 else 0) + len (watches_of a (others (wt_id w) ws)).
Proof.
  intros Hnd Hw. unfold watches_of, len. rewrite (others_perm w ws Hnd Hw) at 1.
  destruct (decide (wt_actor w = a)); [rewrite filter_cons_True by done|rewrite filter_cons_False by done]; simpl; lia.
Qed.

Lemma no_watches a ws : len (watches_of a ws) = 0 → ∀ w, w ∈ ws → wt_actor w ≠ a.
Proof.
  intros Hl w Hw Ha. assert (w ∈ watches_of a ws) as Hin by (by apply list_elem_of_filter).
  unfold len in Hl. destruct (watches_of a ws); [by apply not_elem_of_nil in Hin|]. simpl in Hl. lia.
Qed.

(** A call of [watch] gives up its count. *)
Lemma bus_ok_unwatch w s : bus_ok s → w ∈ bus_watches s → bus_ok (unwatch namespace (wt_actor w) (drop_watch (wt_id w) s)).
Proof.
  intros Hs Hw. pose proof Hs as [Hcount Hpos Hids Hvalid Huns Hdones Hwaits Hsub Hset Hwait Hlive Hwidth].
  set (a := wt_actor w). set (ws := others (wt_id w) (bus_watches s)).
  pose proof (watches_of_others a w _ Hids Hw) as Ha. rewrite decide_True in Ha by done. fold ws in Ha.
  assert (∀ x, x ∈ ws → x ∈ bus_watches s) as Hws by (intros x [? _]%elem_of_others; done).
  assert (len ws ≤ u64_max) as Hlw.
  { unfold ws, len in *. rewrite (others_perm w _ Hids Hw) in Hwidth. simpl in Hwidth. lia. }
  assert (∃ k, bus_watched s !! a = Some k ∧ k = 1 + len (watches_of a ws) ∧ wrap_u64 (k + u64_max) = k - 1) as (k & Ek & Hk & Hwr).
  { specialize (Hcount a). destruct (bus_watched s !! a) as [k|] eqn:E; simpl in Hcount; [|lia].
    exists k. split_and!; [done|lia|]. unfold ws, watches_of, wrap_u64, u64_max, len in *.
    pose proof (length_filter (λ w, wt_actor w = a) (bus_watches s)).
    replace (k + 18446744073709551615) with (k - 1 + 1 * 18446744073709551616) by lia.
    rewrite N.Div0.mod_add. apply N.mod_small. lia. }
  unfold unwatch. cbn [bus_watched drop_watch set_watches set_watched]. fold a. rewrite Ek, Hwr.
  assert (∀ a', a' ≠ a → len (watches_of a' ws) = default 0 (bus_watched s !! a')) as Hother.
  { intros a' Hne. rewrite Hcount. rewrite (watches_of_others a' w _ Hids Hw), decide_False by auto. done. }
  destruct (N.eqb_spec (k - 1) 0) as [Hz|Hz].
  - assert (∀ x, x ∈ ws → wt_actor x ≠ a) as Hnone by (apply no_watches; lia).
    assert (∀ x, x ∈ ws → channel (wt_actor x) ≠ channel a) as Hchan.
    { intros x Hx E. apply (Hnone x Hx). apply channel_inj; auto. by apply Hvalid. }
    split; cbn [bus_watched bus_subscribed bus_commands bus_watches bus_connected bus_listener set_watched drop_watch set_watches];
      fold (others (wt_id w) (bus_watches s)); fold ws.
    + intros a'. destruct (decide (a' = a)) as [->|Hne]; [rewrite lookup_delete_eq; simpl; lia|].
      rewrite lookup_delete_ne by done. by rewrite Hother.
    + intros a'. destruct (decide (a' = a)) as [->|Hne]; [by rewrite lookup_delete_eq|].
      rewrite lookup_delete_ne by done. apply Hpos.
    + by apply others_ids.
    + auto.
    + intros c [Hc|[= ->]%list_elem_of_singleton]%elem_of_app; [by apply Huns|]. exists a. split; [by apply Hvalid|done].
    + unfold dones. simpl. rewrite omap_app. simpl. by rewrite app_nil_r.
    + intros x n a' load Hx Hid [Hc|Hc%list_elem_of_singleton]%elem_of_app; [|done]. eauto.
    + intros a'. rewrite list_elem_of_filter. destruct (decide (a' = a)) as [->|Hne].
      * rewrite lookup_delete_eq. split; [naive_solver|by intros []].
      * rewrite lookup_delete_ne by done. rewrite Hsub. naive_solver.
    + intros x Hx Hst. destruct (Hset x (Hws x Hx) Hst) as [Hu Hl]. split; [|done].
      intros [Hc|[= Hc]%list_elem_of_singleton]%elem_of_app; [done|]. by apply (Hchan x Hx).
    + intros x Hx Hp. destruct (Hwait x (Hws x Hx) Hp) as (pre & load & post & E & Hpost). eexists pre, load, _.
      split; [rewrite E, <- app_assoc; simpl; reflexivity|].
      intros [?|[= Hc]%list_elem_of_singleton]%elem_of_app; [done|]. by apply (Hchan x Hx).
    + done.
    + done.
  - split; cbn [bus_watched bus_subscribed bus_commands bus_watches bus_connected bus_listener set_watched drop_watch set_watches];
      fold (others (wt_id w) (bus_watches s)); fold ws.
    + intros a'. destruct (decide (a' = a)) as [->|Hne]; [rewrite lookup_insert_eq; simpl; lia|].
      rewrite lookup_insert_ne by done. by rewrite Hother.
    + intros a'. destruct (decide (a' = a)) as [->|Hne]; [rewrite lookup_insert_eq; congruence|].
      rewrite lookup_insert_ne by done. apply Hpos.
    + by apply others_ids.
    + auto.
    + done.
    + done.
    + intros x n a' load Hx Hid Hc. eauto.
    + intros a'. rewrite Hsub. destruct (decide (a' = a)) as [->|Hne]; [rewrite lookup_insert_eq, Ek; by split|].
      by rewrite lookup_insert_ne.
    + intros x Hx Hst. destruct (Hset x (Hws x Hx) Hst) as [Hu Hl]. by split.
    + intros x Hx Hp. apply (Hwait x (Hws x Hx) Hp).
    + done.
    + done.
Qed.

Lemma find_watch_elem n s w : find_watch n s = Some w → w ∈ bus_watches s ∧ wt_id w = n.
Proof. intros [? ?%N.eqb_eq]%List.find_some. by rewrite list_elem_of_In. Qed.

(** *** A call is told *)

Lemma set_phase_elem n p ws w :
  w ∈ set_phase n p ws ↔
  (∃ x, x ∈ ws ∧ wt_id x = n ∧ w = {| wt_id := n; wt_actor := wt_actor x; wt_phase := p |}) ∨ (w ∈ ws ∧ wt_id w ≠ n).
Proof.
  unfold set_phase. rewrite list_elem_of_fmap. split.
  - intros (x & -> & Hx). destruct (N.eqb_spec (wt_id x) n) as [<-|]; [left; eauto|by right].
  - intros [(x & Hx & Hid & ->)|[Hw Hne]].
    + exists x. by rewrite Hid, N.eqb_refl.
    + exists w. by rewrite (proj2 (N.eqb_neq _ _) Hne).
Qed.

Lemma set_phase_ids n p ws : wt_id <$> set_phase n p ws = wt_id <$> ws.
Proof.
  unfold set_phase. rewrite <- list_fmap_compose. apply list_fmap_ext. intros _ w _. simpl. by case_match.
Qed.

Lemma set_phase_watches a n p ws : len (watches_of a (set_phase n p ws)) = len (watches_of a ws).
Proof.
  unfold watches_of, len, set_phase. induction ws as [|w ws IH]; simpl; [done|].
  assert (wt_actor (if wt_id w =? n then {| wt_id := wt_id w; wt_actor := wt_actor w; wt_phase := p |} else w) = wt_actor w)
    as E by (by case_match).
  destruct (decide (wt_actor w = a)).
  - rewrite !filter_cons_True by congruence. cbn [length]. rewrite !Nat2N.inj_succ. by f_equal.
  - rewrite !filter_cons_False by congruence. done.
Qed.

Lemma bus_ok_phase n p s :
  bus_ok s → n ∉ dones s → p ≠ WatchWaits →
  (∀ w, w ∈ bus_watches s → wt_id w = n → settled_watch {| wt_id := n; wt_actor := wt_actor w; wt_phase := p |} →
    Unsubscribe (channel (wt_actor w)) ∉ bus_commands s ∧ listens (wt_actor w) s) →
  bus_ok (set_watches (set_phase n p (bus_watches s)) s).
Proof.
  intros [Hcount Hpos Hids Hvalid Huns Hdones Hwaits Hsub Hset Hwait Hlive Hwidth] Hn Hp Hnew.
  split; simpl; try done.
  - intros a. by rewrite set_phase_watches.
  - by rewrite set_phase_ids.
  - intros w [(x & Hx & _ & ->)|[Hw _]]%set_phase_elem; [by apply (Hvalid x)|auto].
  - intros w m a load [(x & Hx & Hid & ->)|[Hw Hne]]%set_phase_elem Hm Hc; [|eauto].
    exfalso. apply Hn. simpl in Hm. subst m. apply list_elem_of_omap. by eexists.
  - intros w [(x & Hx & Hid & ->)|[Hw Hne]]%set_phase_elem Hst; [|auto]. by apply (Hnew x).
  - intros w [(x & Hx & Hid & ->)|[Hw Hne]]%set_phase_elem Hw'; [done|auto].
  - unfold len in *. unfold set_phase. by rewrite length_fmap.
Qed.

(** The listener took the [Subscribe] of the call [n] from the queue. *)
Definition told (ok : bool) (n : N) (subs : gset bytes) (cs : list BusCommand) s : RedisSocketBus :=
  set_watches (set_phase n (WatchTold ok) (bus_watches s))
    (set_session (bus_connected s) (bus_generation s) (ListenerOn subs) (set_commands cs s)).

Lemma bus_ok_told ok n a load subs subs' cs s :
  bus_ok s → bus_commands s = Subscribe a load n :: cs → bus_listener s = ListenerOn subs → subs ⊆ subs' →
  (ok = true → channel a ∈ subs') → bus_ok (told ok n subs' cs s).
Proof.
  intros [Hcount Hpos Hids Hvalid Huns Hdones Hwaits Hsub Hset Hwait Hlive Hwidth] Ec El Hsubs Hok.
  unfold dones in Hdones. rewrite Ec in *. cbn [omap list_omap done_of] in Hdones. apply NoDup_cons in Hdones as [Hn Hdones].
  split; simpl; try done.
  - intros x. by rewrite set_phase_watches.
  - by rewrite set_phase_ids.
  - intros w [(x & Hx & _ & ->)|[Hw _]]%set_phase_elem; [by apply (Hvalid x)|auto].
  - intros c Hc. apply Huns. by right.
  - intros w m x l [(y & Hy & Hid & ->)|[Hw Hne]]%set_phase_elem Hm Hc; [|eapply Hwaits; eauto; by right].
    exfalso. apply Hn. simpl in Hm. subst m. apply list_elem_of_omap. by eexists.
  - intros w [(y & Hy & Hid & ->)|[Hw Hne]]%set_phase_elem Hst.
    + simpl in *. destruct (Hwaits y n a load Hy Hid) as [Ha Hp]; [by left|]. subst a.
      destruct (Hwait y Hy Hp) as (pre & l & post & E & Hpost). destruct ok; [|done].
      split; [|by apply Hok]. destruct pre as [|c pre]; simplify_eq/=; [done|].
      exfalso. apply Hn. rewrite omap_app. apply elem_of_app. right. simpl. by left.
    + destruct (Hset w Hw Hst) as [Hu Hl]. apply not_elem_of_cons in Hu as [_ Hu]. split; [done|].
      unfold listens in *. rewrite El in Hl. simpl. set_solver.
  - intros w [(y & Hy & Hid & ->)|[Hw Hne]]%set_phase_elem Hp; [done|].
    destruct (Hwait w Hw Hp) as (pre & l & post & E & Hpost). destruct pre as [|c pre]; simplify_eq/=.
    by exists pre, l, post.
  - eauto.
  - unfold len in *. unfold set_phase. by rewrite length_fmap.
Qed.

Lemma bus_ok_unsubscribed c cs subs s :
  bus_ok s → bus_commands s = Unsubscribe c :: cs → bus_listener s = ListenerOn subs →
  bus_ok (set_session (bus_connected s) (bus_generation s) (ListenerOn (subs ∖ {[c]})) (set_commands cs s)).
Proof.
  intros [Hcount Hpos Hids Hvalid Huns Hdones Hwaits Hsub Hset Hwait Hlive Hwidth] Ec El.
  unfold dones in Hdones. rewrite Ec in *. split; simpl; try done.
  - intros x Hx. apply Huns. by right.
  - intros w n a load Hw Hid Hc. eapply Hwaits; eauto. by right.
  - intros w Hw Hst. destruct (Hset w Hw Hst) as [Hu Hl]. apply not_elem_of_cons in Hu as [Hc Hu]. split; [done|].
    unfold listens in *. rewrite El in Hl. simpl. set_solver.
  - intros w Hw Hp. destruct (Hwait w Hw Hp) as (pre & l & post & E & Hpost). destruct pre as [|x pre]; [done|].
    simpl in E. injection E as _ E. by exists pre, l, post.
  - eauto.
Qed.

Lemma same_trans s1 s2 s3 : same_bus s1 s2 → same_bus s2 s3 → same_bus s1 s3.
Proof. intros [] []. split; congruence. Qed.

Lemma bus_ok_handle subscribed loaded s : bus_ok s → bus_ok (SocketBus.handle_command namespace subscribed loaded s).
Proof.
  intros Hs. unfold SocketBus.handle_command. destruct (bus_listener s) as [| |subs|] eqn:El; try done.
  destruct (bus_commands s) as [|[a load n|c] cs] eqn:Ec; [done| |].
  - pose proof (λ ok subs' Hsub Hok, bus_ok_told ok n a load subs subs' cs s Hs Ec El Hsub Hok) as Ht.
    destruct subscribed.
    + assert (∀ ok, bus_ok (told ok n ({[channel a]} ∪ subs) cs s)) as Htold by (intros ok; apply Ht; set_solver).
      destruct load; [destruct loaded as [stored|]|].
      * eapply bus_ok_same; [|apply (Htold true)]. by split.
      * apply (Htold false).
      * apply (Htold true).
    + apply bus_ok_lost. eapply bus_ok_same; [|apply (Ht false subs); [done|done]]. split; simpl; done.
  - destruct subscribed.
    + exact (bus_ok_unsubscribed c cs subs s Hs Ec El).
    + assert (bus_ok (set_session (bus_connected s) (bus_generation s) (ListenerOn (subs ∖ {[c]})) (set_commands cs s)))
        as Hu by (by apply bus_ok_unsubscribed).
      by apply bus_ok_lost in Hu.
Qed.

Lemma bus_ok_receive e s : bus_ok s → bus_ok (receive_envelope e s).
Proof.
  intros Hs. eapply bus_ok_same; [|exact Hs]. unfold receive_envelope. repeat case_match; by split.
Qed.

Lemma bus_ok_returns n in_time s : bus_ok s → bus_ok (watch_returns namespace n in_time s).
Proof.
  intros Hs. unfold watch_returns. destruct (find_watch n s) as [w|] eqn:Ew; [|done].
  apply find_watch_elem in Ew as [Hw <-].
  pose proof (bus_ok_unwatch w s Hs Hw) as Hun.
  destruct (wt_phase w) as [|ok|] eqn:Ep; destruct in_time; try done; destruct ok; try done.
  apply bus_ok_phase; [done| |done|].
  - intros (c & Hc & Hd)%list_elem_of_omap. destruct c as [a load m|]; [|done]. injection Hd as ->.
    destruct (bus_waits _ Hs w _ a load Hw eq_refl Hc). congruence.
  - intros x Hx Hid _. assert (x = w) as ->.
    { pose proof (bus_ids _ Hs) as Hnd. apply (others_perm w _ Hnd) in Hw. rewrite Hw in Hx.
      apply elem_of_cons in Hx as [?|[_ ?]%elem_of_others]; done. }
    apply (bus_settled _ Hs); [done|]. unfold settled_watch. by rewrite Ep.
Qed.

Lemma bus_ok_step e s : bus_ok s → event_ok s e → bus_ok (bus_step e s).
Proof.
  intros Hs He. destruct e as [n a|n t|n| |stored| | |sub loaded|e|a es run]; cbn [bus_step].
  - by apply bus_ok_watch.
  - by apply bus_ok_returns.
  - unfold watch_released. destruct (find_watch n s) as [w|] eqn:Ew; [|done]. apply find_watch_elem in Ew as [Hw <-].
    destruct (wt_phase w); try done. by apply bus_ok_unwatch.
  - by apply bus_ok_start.
  - by apply bus_ok_ready.
  - destruct (bus_listener s); try done; by apply bus_ok_lost.
  - by apply bus_ok_session.
  - by apply bus_ok_handle.
  - destruct (bus_listener s); try done. by apply bus_ok_receive.
  - eapply bus_ok_same; [|exact Hs]. unfold bus_publish. case_match; by split.
Qed.

Lemma bus_ok_run es s : bus_ok s → events_ok s es → bus_ok (bus_run es s).
Proof.
  unfold bus_run. revert s. induction es as [|e es IH]; intros s Hs; simpl; [done|]. intros [He Hes].
  apply IH; [|done]. by apply bus_ok_step.
Qed.

Lemma bus_ok_new max : bus_ok (bus_start max).
Proof.
  assert (∀ w P, w ∈ ([] : list Watch) → P) as Hnil by (intros w P Hin; by apply not_elem_of_nil in Hin).
  split; simpl; try done; try apply NoDup_nil_2; eauto.
  all: intros x; try (intros Hin; by apply not_elem_of_nil in Hin).
  { intros n a load Hin. by apply not_elem_of_nil in Hin. }
  rewrite lookup_empty. split; [intros Hin; by apply not_elem_of_nil in Hin|by intros []].
Qed.

Lemma events_ok_app es1 es2 s : events_ok s (es1 ++ es2) ↔ events_ok s es1 ∧ events_ok (bus_run es1 s) es2.
Proof.
  unfold bus_run. revert s. induction es1 as [|e es1 IH]; intros s; simpl; [by split; [|intros []]|].
  rewrite IH. tauto.
Qed.

(** ** Generations *)

(** The session of the generation [k] is over. *)
Definition past (k : N) s : Prop :=
  k < bus_generation s ∨ (k = bus_generation s ∧ bus_connected s = false).

Lemma unwatch_session a s :
  bus_generation (unwatch namespace a s) = bus_generation s ∧ bus_connected (unwatch namespace a s) = bus_connected s ∧
  bus_watches (unwatch namespace a s) = bus_watches s.
Proof. unfold unwatch. by repeat case_match. Qed.

(** A step keeps the session, ends it, or starts the next one. *)
Lemma bus_step_generation e s :
  bus_ok s →
  (bus_generation (bus_step e s) = bus_generation s ∧ bus_connected (bus_step e s) = bus_connected s) ∨
  (bus_generation (bus_step e s) = bus_generation s ∧ bus_connected (bus_step e s) = false) ∨
  (bus_generation (bus_step e s) = wrap_u64 (bus_generation s + 1) ∧ bus_connected s = false).
Proof.
  intros Hs. assert (∀ n s, (bus_generation (drop_watch n s) = bus_generation s ∧ bus_connected (drop_watch n s) = bus_connected s)) as Hd
    by done.
  destruct e as [n a|n t|n| |stored| | |sub loaded|e|a es run]; cbn [bus_step].
  - left. unfold watch. by case_match.
  - left. unfold watch_returns. repeat case_match; try done;
      match goal with |- context [unwatch _ ?x ?y] => by destruct (unwatch_session x y) as (-> & -> & _) end.
  - left. unfold watch_released. repeat case_match; try done;
      match goal with |- context [unwatch _ ?x ?y] => by destruct (unwatch_session x y) as (-> & -> & _) end.
  - left. unfold session_start. by case_match.
  - unfold session_ready. destruct (bus_listener s) as [|l| |] eqn:El; try by left. right; right. simpl.
    destruct (same_loads stored l s) as [_ Hg _ _ _ _ _]. rewrite Hg. split; [done|].
    destruct (bus_connected s) eqn:Ec; [|done]. destruct (bus_live _ Hs Ec). congruence.
  - destruct (bus_listener s); first [by left|by right; left].
  - by right; left.
  - unfold SocketBus.handle_command. repeat case_match; first [by left|by right; left].
  - left. destruct (bus_listener s); try done. unfold receive_envelope. by repeat case_match.
  - left. unfold bus_publish. by case_match.
Qed.

Lemma past_step k e s :
  bus_ok s → bus_generation s < u64_max → past k s → past k (bus_step e s).
Proof.
  intros Hs Hg Hp. unfold past, wrap_u64, u64_max in *. destruct (bus_step_generation e s Hs) as [[-> ->]|[[-> ->]|[-> Hc]]].
  - done.
  - destruct Hp as [?|[? _]]; [by left|by right].
  - left. unfold wrap_u64. rewrite N.mod_small by lia. destruct Hp as [?|[? _]]; lia.
Qed.

Lemma generation_step e s :
  bus_ok s → bus_generation s < u64_max → bus_generation s ≤ bus_generation (bus_step e s) ≤ bus_generation s + 1.
Proof.
  intros Hs Hg. unfold wrap_u64, u64_max in *. destruct (bus_step_generation e s Hs) as [[-> _]|[[-> _]|[-> _]]]; [lia..|].
  unfold wrap_u64. rewrite N.mod_small by lia. lia.
Qed.

Lemma past_run k es s :
  bus_ok s → events_ok s es → bus_generation s + len es ≤ u64_max → past k s → past k (bus_run es s).
Proof.
  unfold bus_run. revert s. induction es as [|e es IH]; intros s Hs; simpl; [done|]. intros [He Hes] Hl Hp.
  rewrite len_cons in Hl. pose proof (generation_step e s Hs ltac:(lia)). apply IH; [by apply bus_ok_step|done|lia|].
  apply past_step; [done|lia|done].
Qed.

Lemma generation_run es s :
  bus_ok s → events_ok s es → bus_generation s + len es ≤ u64_max →
  bus_generation s ≤ bus_generation (bus_run es s) ≤ bus_generation s + len es.
Proof.
  unfold bus_run. revert s. induction es as [|e es IH]; intros s Hs; simpl; [rewrite len_nil; lia|]. intros [He Hes] Hl.
  rewrite len_cons in Hl |- *. pose proof (generation_step e s Hs ltac:(lia)).
  specialize (IH (bus_step e s) (bus_ok_step _ _ Hs He) Hes ltac:(lia)). lia.
Qed.

(** *** A watch that holds *)

Definition holding (n : N) a s : Prop := {| wt_id := n; wt_actor := a; wt_phase := WatchHolds |} ∈ bus_watches s.

Lemma holding_phase n a m p s :
  holding n a s → m ≠ n → holding n a (set_watches (set_phase m p (bus_watches s)) s).
Proof. intros Hh Hne. apply set_phase_elem. right. simpl. auto. Qed.

Lemma holding_dropped n a m x s :
  holding n a s → m ≠ n → holding n a (unwatch namespace x (drop_watch m s)).
Proof.
  intros Hh Hne. unfold holding. rewrite (proj2 (proj2 (unwatch_session x (drop_watch m s)))).
  apply elem_of_others. simpl. auto.
Qed.

Lemma holding_only n a s w : bus_ok s → holding n a s → w ∈ bus_watches s → wt_id w = n → wt_phase w = WatchHolds.
Proof.
  intros Hs Hh Hw Hid. pose proof (others_perm _ _ (bus_ids _ Hs) Hh) as Hp. rewrite Hp in Hw. simpl in Hw.
  by apply elem_of_cons in Hw as [-> |[_ ?]%elem_of_others].
Qed.

Lemma holding_step n a e s :
  bus_ok s → holding n a s → e ≠ BusReleased n → holding n a (bus_step e s).
Proof.
  intros Hs Hh He. destruct e as [m x|m t|m| |stored| | |sub loaded|e|x es run]; cbn [bus_step].
  - unfold watch. case_match; [|done]. apply elem_of_app. by left.
  - unfold watch_returns. destruct (find_watch m s) as [w|] eqn:Ew; [|done]. apply find_watch_elem in Ew as [Hw Hid].
    destruct (decide (m = n)) as [->|Hne].
    + by rewrite (holding_only n a s w Hs Hh Hw Hid).
    + repeat case_match; try done; by first [apply holding_phase|apply holding_dropped].
  - unfold watch_released. destruct (find_watch m s) as [w|] eqn:Ew; [|done]. case_match; try done.
    apply holding_dropped; [done|]. intros ->. done.
  - unfold session_start. by case_match.
  - unfold session_ready. destruct (bus_listener s) as [|l| |]; try done. unfold holding. simpl.
    by rewrite (sb_watches _ _ (same_loads stored l s)).
  - by destruct (bus_listener s).
  - done.
  - unfold SocketBus.handle_command. destruct (bus_listener s) as [| |subs|]; try done.
    destruct (bus_commands s) as [|[x load m|c] cs] eqn:Ec; [done| |by destruct sub].
    assert (m ≠ n) as Hne.
    { intros ->. destruct (bus_waits _ Hs _ n x load Hh eq_refl) as [_ Hp]; [rewrite Ec; by left|done]. }
    assert (∀ p, holding n a (set_watches (set_phase m p (bus_watches s)) s)) as Hk by (intros; by apply holding_phase).
    destruct sub; [destruct load, loaded|]; by apply Hk.
  - destruct (bus_listener s); try done. unfold receive_envelope, holding. by repeat case_match.
  - unfold bus_publish, holding. by case_match.
Qed.

Lemma holding_run n a es s :
  bus_ok s → events_ok s es → holding n a s → BusReleased n ∉ es → holding n a (bus_run es s).
Proof.
  unfold bus_run. revert s. induction es as [|e es IH]; intros s Hs; simpl; [done|]. intros [He Hes] Hh Hn.
  apply not_elem_of_cons in Hn as [Hn Hns]. apply IH; [by apply bus_ok_step|done| |done]. by apply holding_step.
Qed.

(** The server delivers a message of [ch] to a listener that is subscribed to it. *)
Definition deliver_message (ch : bytes) (e : Envelope) s : RedisSocketBus :=
  match bus_listener s with
  | ListenerOn subs => if bool_decide (ch ∈ subs) then receive_envelope (Some e) s else s
  | _ => s
  end.

(** C31. A gateway misses no effects of an actor it watches: if a call of [watch]
    returned, its socket is not released and the bus is still in the generation it was
    in then, whatever happened in between, then effects published on the channel of the
    actor at any moment in between were delivered to the gateway and applied. *)
Theorem watched_sockets_miss_nothing max before middle after n a k effects :
  events_ok (bus_start max) (before ++ middle ++ after) →
  len (before ++ middle ++ after) ≤ u64_max →
  let s := bus_run before (bus_start max) in
  let m := bus_run middle s in
  holding n a s → generation_now s = Some k →
  BusReleased n ∉ middle → generation_now (bus_run after m) = Some k →
  deliver_message (channel a) (EffectsEnvelope a effects) m =
    set_registry (registry_apply a effects (bus_registry m)) m.
Proof.
  intros Hok Hlen s m Hh Hk Hn Hk'. rewrite !len_app in Hlen.
  apply events_ok_app in Hok as [Hb Hok]. apply events_ok_app in Hok as [Hm Ha]. fold s in Hm, Ha. fold m in Ha.
  assert (bus_ok s) as Hs by (apply bus_ok_run; [apply bus_ok_new|done]).
  assert (bus_ok m) as Hms by (by apply bus_ok_run).
  pose proof (generation_run before _ (bus_ok_new max) Hb ltac:(simpl; lia)) as Hgs. fold s in Hgs. simpl in Hgs.
  pose proof (generation_run middle s Hs Hm ltac:(lia)) as Hgm. fold m in Hgm.
  assert (bus_generation s = k) as Hgk by (unfold generation_now in Hk; destruct (bus_connected s); congruence).
  assert (bus_connected m = true) as Hc.
  { destruct (bus_connected m) eqn:Ec; [done|]. exfalso.
    assert (past k m) as Hp. { unfold past. rewrite Ec. destruct (N.eq_dec k (bus_generation m)); [by right|left; lia]. }
    pose proof (past_run k after m Hms Ha ltac:(lia) Hp) as Hp'. unfold past in Hp'. unfold generation_now in Hk'.
    destruct (bus_connected (bus_run after m)); [injection Hk' as Hk'|done]. destruct Hp' as [?|[_ ?]]; [lia|done]. }
  destruct (bus_live _ Hms Hc) as [subs El].
  pose proof (holding_run n a middle s Hs Hm Hh Hn) as Hhm. fold m in Hhm.
  destruct (bus_settled _ Hms _ Hhm I) as [_ Hl]. unfold listens in Hl. rewrite El in Hl. simpl in Hl.
  unfold deliver_message. by rewrite El, bool_decide_eq_true_2.
Qed.
End safety.
