(* ===== verification/SocketSession.v ===== *)
(** * One WebSocket connection

    [src/src/sockets/browser.rs]: the task of a connection reads frames from the
    browser, runs one handler of the actor at a time, and sends what the registry put
    into its channel. When the connection ends the actor is told.

    The task is a state machine over the registry of its gateway. Its steps are the
    branches of the [select!], the progress of the handler it spawned (before and after
    the call of the actor) and the calls after the loop; what the browser, the actor and
    the clock answer comes with the step. [ss_log] records what the task did. *)

From S2P Require Import Prelude Text Effects Btree Names StateLog Protocol LifecycleStore Executor Sockets.
Local Open Scope N_scope.

Section session.
Context `{JsonValue} `{!JsonOps} `{!Json Value} `{!StandardBase64}.

(** Frames of the protocol, from and to the browser. *)
Inductive Frame :=
| TextFrame (text : bytes)
| BinaryFrame (data : bytes)
| PingFrame (data : bytes)
| PongFrame (data : bytes)
| CloseFrame (code : N) (reason : bytes).

(** What [socket.recv()] returns. *)
Inductive inbound :=
| ReceivedFrame (f : Frame)
| ReceivedCloseEmpty
| ReceivedTooLarge
| ReceivedError
| ReceivedEnd.

Record Closed := {
  closed_code : N;
  closed_reason : bytes;
  closed_received : bool;
}.

Definition closed_new (code : N) (reason : string) : Closed :=
  {| closed_code := code; closed_reason := b reason; closed_received := false |}.

(** The spawned task: not yet run, waiting for the actor, or done. *)
Inductive handler :=
| HandlerSpawned (e : ActorSocketEvent)
| HandlerCalls (i : ActorSocketInvocation)
| HandlerDone (ok : bool).

Inductive phase :=
| SessionRuns
| SessionCloses (c : Closed)
| SessionWaits (c : Closed) (was_clean : bool) (connection : ActorSocketConnection)
| SessionTells (d : handler)
| SessionEnded.

Inductive session_log :=
| Accepted (m : ActorSocketMessage)
| Dispatched (i : ActorSocketInvocation)
| Replied (e : ActorSocketEvent) (ok : bool)
| Activated
| Delivered (effects : list ActorSocketEffect)
| Notified (e : ActorSocketEvent)
| FrameSent (f : Frame)
| GaveUpHandler.

Record Session := {
  ss_actor : ActorKey;
  ss_connection : ActorSocketConnection;
  ss_outbound : SocketSender;
  (** how many messages of its channel it took *)
  ss_taken : nat;
  ss_pending : list ActorSocketMessage;
  ss_handler : option handler;
  ss_phase : phase;
  ss_log : list session_log;
}.

Implicit Types (s : Session) (g : SocketRegistry).

Definition set_handler (h : option handler) s : Session :=
  {| ss_actor := ss_actor s; ss_connection := ss_connection s; ss_outbound := ss_outbound s; ss_taken := ss_taken s;
     ss_pending := ss_pending s; ss_handler := h; ss_phase := ss_phase s; ss_log := ss_log s |}.
Definition set_queue (l : list ActorSocketMessage) s : Session :=
  {| ss_actor := ss_actor s; ss_connection := ss_connection s; ss_outbound := ss_outbound s; ss_taken := ss_taken s;
     ss_pending := l; ss_handler := ss_handler s; ss_phase := ss_phase s; ss_log := ss_log s |}.
Definition set_phase (p : phase) s : Session :=
  {| ss_actor := ss_actor s; ss_connection := ss_connection s; ss_outbound := ss_outbound s; ss_taken := ss_taken s;
     ss_pending := ss_pending s; ss_handler := ss_handler s; ss_phase := p; ss_log := ss_log s |}.
Definition set_taken (n : nat) s : Session :=
  {| ss_actor := ss_actor s; ss_connection := ss_connection s; ss_outbound := ss_outbound s; ss_taken := n;
     ss_pending := ss_pending s; ss_handler := ss_handler s; ss_phase := ss_phase s; ss_log := ss_log s |}.
Definition note (l : list session_log) s : Session :=
  {| ss_actor := ss_actor s; ss_connection := ss_connection s; ss_outbound := ss_outbound s; ss_taken := ss_taken s;
     ss_pending := ss_pending s; ss_handler := ss_handler s; ss_phase := ss_phase s; ss_log := ss_log s ++ l |}.

Definition start (e : ActorSocketEvent) s : Session := set_handler (Some (HandlerSpawned e)) s.

Definition start_message (m : ActorSocketMessage) s : Session :=
  start (Message (conn_id (ss_connection s)) m) s.

Definition enqueue (m : ActorSocketMessage) s : Session :=
  let s := note [Accepted m] s in
  match ss_handler s with
  | None => start_message m s
  | Some _ => set_queue (ss_pending s ++ [m]) s
  end.

(** [run] up to its loop: [None] where the room is full. *)
Definition open_session (actor : ActorKey) (id : bytes) (metadata : Value) (channel : SocketSender) g
    : SocketRegistry * option Session :=
  let c := {| conn_id := id; conn_metadata := metadata; conn_tags := [] |} in
  let '(g, ok) := registry_insert actor c channel g in
  (g, if ok then
        Some (start (Connect c) {| ss_actor := actor; ss_connection := c; ss_outbound := channel; ss_taken := 0;
                                   ss_pending := []; ss_handler := None; ss_phase := SessionRuns; ss_log := [] |})
      else None).

(** ** [dispatch] *)

(** Up to the call of the actor. *)
Definition dispatch_begin (actor : ActorKey) (stopped : bool) (authority : result unit) (request : bytes)
    (e : ActorSocketEvent) g : SocketRegistry * result ActorSocketInvocation :=
  match (ensure (negb stopped) "socket gateway stopping";; authority) with
  | Err m => (g, Err m)
  | Ok _ =>
      let '(g, (e, connections)) := prepare_event actor e g in
      (g, Ok {| sock_request_id := request; sock_actor := actor; sock_event := e; sock_connections := connections |})
  end.

(** The actor closed or rejected the connection that is connecting. *)
Definition rejects (id : bytes) (e : ActorSocketEffect) : bool :=
  match e with Close i _ _ | Reject i _ _ => i == id | _ => false end.

(** After it: what was done, and whether it succeeded. *)
Definition dispatch_end (actor : ActorKey) (i : ActorSocketInvocation) (outcome : result (list ActorSocketEffect))
    (authority delivered : result unit) g : SocketRegistry * list session_log * bool :=
  match (effects ← outcome; authority;; validate_socket_effects effects;; Ok effects) with
  | Err _ => (g, [], false)
  | Ok effects =>
      let '(g, activated) :=
        match sock_event i with
        | Connect c =>
            if existsb (rejects (conn_id c)) effects then (g, []) else (registry_activate actor (conn_id c) g, [Activated])
        | _ => (g, [])
        end in
      if bool_decide (effects = []) then (g, activated ++ [Notified (sock_event i)], true)
      else
        match delivered with
        | Err _ => (g, activated ++ [Delivered effects], false)
        | Ok _ => (g, activated ++ [Delivered effects; Notified (sock_event i)], true)
        end
  end.

(** ** The loop *)

Definition finish_loop (c : Closed) s : Session := set_phase (SessionCloses c) s.

(** [send_frame]; [stopped] is tested before the frame goes out. *)
Definition send_frame (authority : result unit) (stopped : bool) (sent : bool) (f : Frame) s : Session :=
  match authority with
  | Err _ => finish_loop (closed_new 1012 "socket gateway lost its subscription") s
  | Ok _ =>
      if stopped then finish_loop (closed_new 1012 "socket gateway stopping") s
      else if sent then note [FrameSent f] s
      else finish_loop (closed_new 1006 "transport closed") s
  end.

Definition receive_frame (x : inbound) (authority : result unit) (stopped sent : bool) g s : Session :=
  match x with
  | ReceivedFrame (TextFrame text) =>
      match auto_response (ss_actor s) text g with
      | Some response => send_frame authority stopped sent (TextFrame response) s
      | None => enqueue (TextMessage text) s
      end
  | ReceivedFrame (PingFrame data) => send_frame authority stopped sent (PongFrame data) s
  | ReceivedFrame (PongFrame _) => s
  | ReceivedFrame (CloseFrame code reason) =>
      finish_loop {| closed_code := code; closed_reason := reason; closed_received := true |} s
  | ReceivedCloseEmpty => finish_loop {| closed_code := 1005; closed_reason := []; closed_received := true |} s
  | ReceivedFrame (BinaryFrame _) => finish_loop (closed_new 4400 "socket messages must be JSON text") s
  | ReceivedTooLarge => finish_loop (closed_new 1009 "message exceeds 32 MiB") s
  | ReceivedError | ReceivedEnd => finish_loop (closed_new 1006 "transport closed") s
  end.

(** [value.to_string()] of a control message. *)
Context (control_text : ControlMessage → bytes).

Definition send_outbound (m : OutboundMessage) (authority : result unit) (stopped sent : bool) s : Session :=
  match m with
  | OutControl v => send_frame authority stopped sent (TextFrame (control_text v)) s
  | OutMessage (TextMessage data) => send_frame authority stopped sent (TextFrame data) s
  | OutMessage (BinaryMessage _) => finish_loop (closed_new 4400 "actor produced a binary message") s
  | OutClose code reason => finish_loop {| closed_code := code; closed_reason := reason; closed_received := false |} s
  end.

(** The next message of its channel. *)
Definition next_outbound g s : option OutboundMessage :=
  omap (λ '(c, m), if c == ss_outbound s then Some m else None) (outbox g) !! ss_taken s.

(** The registry still has a sender of its channel. *)
Definition registered g s : bool :=
  match socket_of (ss_actor s) (conn_id (ss_connection s)) g with
  | Some x => rs_outbound x =? ss_outbound s
  | None => false
  end.

Inductive session_event :=
| GatewayStops
| HandlerJoined
| Inbound (x : inbound) (authority : result unit) (stopped sent : bool)
| Outbound (authority : result unit) (stopped sent : bool)
(** the spawned handler runs to the call of the actor, and after it *)
| HandlerBegins (stopped : bool) (authority : result unit) (request : bytes)
| HandlerReplies (outcome : result (list ActorSocketEffect)) (authority delivered : result unit)
(** after the loop: [close], the handler awaited or given up, [dispatch] of the end *)
| SocketClosed (clean : bool)
| HandlerAwaited
| HandlerTimesOut
| TellBegins (stopped : bool) (authority : result unit) (request : bytes)
| TellReplies (outcome : result (list ActorSocketEffect)) (authority delivered : result unit)
| TellTimesOut.

Definition handler_joined s : Session :=
  match ss_handler s with
  | Some (HandlerDone ok) =>
      let s := set_handler None s in
      if ok then
        match ss_pending s with
        | m :: rest => start_message m (set_queue rest s)
        | [] => s
        end
      else finish_loop (closed_new 4400 "actor socket handler failed") s
  | _ => s
  end.

(** [disconnect] up to the wait for the handler; [close] tells a clean end only if there
    was a frame to send or to flush. *)
Definition disconnect (c : Closed) (clean : bool) g s : SocketRegistry * Session :=
  let '(g, removed) := registry_remove (ss_actor s) (conn_id (ss_connection s)) g in
  (g, set_phase (SessionWaits c (if closed_code c =? 1006 then false else clean) (default (ss_connection s) removed))
        (set_queue [] s)).

Definition tell (c : Closed) (was_clean : bool) (connection : ActorSocketConnection) s : Session :=
  set_phase (SessionTells (HandlerSpawned (Disconnect connection (closed_code c) (closed_reason c) was_clean))) s.

Definition session_step (e : session_event) (st : SocketRegistry * Session) : SocketRegistry * Session :=
  let '(g, s) := st in
  match e, ss_phase s with
  | GatewayStops, SessionRuns => (g, finish_loop (closed_new 1012 "socket gateway stopping") s)
  | HandlerJoined, SessionRuns => (g, handler_joined s)
  | Inbound x authority stopped sent, SessionRuns => (g, receive_frame x authority stopped sent g s)
  | Outbound authority stopped sent, SessionRuns =>
      match next_outbound g s with
      | Some m => (g, send_outbound m authority stopped sent (set_taken (S (ss_taken s)) s))
      | None => (g, if registered g s then s else finish_loop (closed_new 1006 "socket closed") s)
      end
  | HandlerBegins stopped authority request, _ =>
      match ss_handler s with
      | Some (HandlerSpawned ev) =>
          let '(g, r) := dispatch_begin (ss_actor s) stopped authority request ev g in
          match r with
          | Ok i => (g, note [Dispatched i] (set_handler (Some (HandlerCalls i)) s))
          | Err _ => (g, set_handler (Some (HandlerDone false)) s)
          end
      | _ => (g, s)
      end
  | HandlerReplies outcome authority delivered, _ =>
      match ss_handler s with
      | Some (HandlerCalls i) =>
          let '(g, l, ok) := dispatch_end (ss_actor s) i outcome authority delivered g in
          (g, note (l ++ [Replied (sock_event i) ok]) (set_handler (Some (HandlerDone ok)) s))
      | _ => (g, s)
      end
  | SocketClosed clean, SessionCloses c => disconnect c clean g s
  | HandlerAwaited, SessionWaits c was_clean connection =>
      match ss_handler s with
      | None | Some (HandlerDone _) => (g, tell c was_clean connection (set_handler None s))
      | _ => (g, s)
      end
  | HandlerTimesOut, SessionWaits c was_clean connection =>
      match ss_handler s with
      | Some (HandlerSpawned _) | Some (HandlerCalls _) => (g, tell c was_clean connection (note [GaveUpHandler] s))
      | _ => (g, s)
      end
  | TellBegins stopped authority request, SessionTells (HandlerSpawned ev) =>
      let '(g, r) := dispatch_begin (ss_actor s) stopped authority request ev g in
      match r with
      | Ok i => (g, note [Dispatched i] (set_phase (SessionTells (HandlerCalls i)) s))
      | Err _ => (g, set_phase SessionEnded s)
      end
  | TellReplies outcome authority delivered, SessionTells (HandlerCalls i) =>
      let '(g, l, ok) := dispatch_end (ss_actor s) i outcome authority delivered g in
      (g, note (l ++ [Replied (sock_event i) ok]) (set_phase SessionEnded s))
  | TellTimesOut, SessionTells _ => (g, set_phase SessionEnded s)
  | _, _ => (g, s)
  end.

(** ** Order of the events *)

(** The events the actor was called with. *)
Definition dispatched (l : list session_log) : list ActorSocketEvent :=
  omap (λ x, match x with Dispatched i => Some (sock_event i) | _ => None end) l.
(** The messages taken from the browser. *)
Definition accepted (l : list session_log) : list ActorSocketMessage :=
  omap (λ x, match x with Accepted m => Some m | _ => None end) l.

Definition is_disconnect_event (e : ActorSocketEvent) : bool := match e with Disconnect _ _ _ _ => true | _ => false end.
Definition handled (l : list session_log) : list ActorSocketEvent :=
  List.filter (λ e, negb (is_disconnect_event e)) (dispatched l).
Definition told (l : list session_log) : list ActorSocketEvent := List.filter is_disconnect_event (dispatched l).

(** No call of the actor begins before the previous one was answered; the result says
    whether one is running. *)
Fixpoint turns (busy : bool) (l : list session_log) : option bool :=
  match l with
  | [] => Some busy
  | Dispatched _ :: l => if busy then None else turns true l
  | Replied _ _ :: l => turns false l
  | _ :: l => turns busy l
  end.

(** A step of the session or of anything else that uses the registry. *)
Definition world_step (x : session_event + (SocketRegistry → SocketRegistry)) (st : SocketRegistry * Session)
    : SocketRegistry * Session :=
  match x with inl e => session_step e st | inr f => (f st.1, st.2) end.

Definition world_run xs (st : SocketRegistry * Session) : SocketRegistry * Session := foldl (λ st x, world_step x st) st xs.
End session.
