(* ===== verification/SocketSessionSafety.v ===== *)
(** * Order of the events of a connection

    Theorems about the task of a WebSocket connection ([SocketSession]): the actor is
    called with the connection first, then with the messages in the order in which they
    arrived, one at a time, and is told the end once. *)

From S2P Require Import Prelude Text Effects Btree Names StateLog Protocol LifecycleStore Executor Sockets SocketSession.
Local Open Scope N_scope.

Section safety.
Context `{JsonValue} `{!JsonOps} `{!Json Value} `{!StandardBase64} (control_text : ControlMessage → bytes).
Implicit Types (s : Session) (g : SocketRegistry) (l : list session_log).

(** What the handlers were started with, if the messages [ms] were started. *)
Definition started_with (c : ActorSocketConnection) (ms : list ActorSocketMessage) : list ActorSocketEvent :=
  Connect c :: (Message (conn_id c) <$> ms).

(** Whether a call of the actor is running, where no handler was given up. *)
Definition calling s : bool :=
  match ss_handler s, ss_phase s with
  | Some (HandlerCalls _), _ | _, SessionTells (HandlerCalls _) => true
  | _, _ => false
  end.

Definition told_ok s : Prop :=
  match ss_phase s with
  | SessionTells (HandlerSpawned e) => is_disconnect_event e = true ∧ told (ss_log s) = []
  | SessionTells (HandlerCalls i) => is_disconnect_event (sock_event i) = true ∧ length (told (ss_log s)) = 1%nat
  | SessionTells (HandlerDone _) | SessionEnded => (length (told (ss_log s)) ≤ 1)%nat
  | _ => told (ss_log s) = []
  end.

Record session_ok (c : ActorSocketConnection) s : Prop := {
  so_connection : ss_connection s = c;
  (** [ms] were started, [rest] is queued or was dropped at the end *)
  so_order : ∃ ms rest, accepted (ss_log s) = ms ++ rest ∧
    (ss_phase s = SessionRuns → rest = ss_pending s) ∧
    handled (ss_log s) `prefix_of` started_with c ms ∧
    (∀ e, ss_handler s = Some (HandlerSpawned e) →
      handled (ss_log s) ++ [e] = started_with c ms ∧ is_disconnect_event e = false) ∧
    (ss_phase s = SessionRuns → match ss_handler s with None | Some (HandlerCalls _) | Some (HandlerDone true) => True | _ => False end →
      handled (ss_log s) = started_with c ms);
  so_call i : ss_handler s = Some (HandlerCalls i) → is_disconnect_event (sock_event i) = false;
  so_idle : ss_phase s = SessionRuns → ss_handler s = None → ss_pending s = [];
  so_told : told_ok s;
  (** unless a handler was given up *)
  so_turns : GaveUpHandler ∉ ss_log s → turns false (ss_log s) = Some (calling s) ∨
    (ss_phase s = SessionEnded ∧ is_Some (turns false (ss_log s)) ∧ ss_handler s = None);
  so_last : GaveUpHandler ∉ ss_log s → dispatched (ss_log s) = handled (ss_log s) ++ told (ss_log s);
  so_alone : GaveUpHandler ∉ ss_log s →
    match ss_phase s with SessionTells _ | SessionEnded => ss_handler s = None | _ => True end;
}.

(** Entries that say nothing of calls or messages. *)
Definition quiet_entry (x : session_log) : Prop :=
  match x with Accepted _ | Dispatched _ | Replied _ _ | GaveUpHandler => False | _ => True end.

Lemma dispatched_app l k : dispatched (l ++ k) = dispatched l ++ dispatched k.
Proof. apply omap_app. Qed.
Lemma accepted_app l k : accepted (l ++ k) = accepted l ++ accepted k.
Proof. apply omap_app. Qed.
Lemma handled_app l k : handled (l ++ k) = handled l ++ handled k.
Proof. unfold handled. by rewrite dispatched_app, List.filter_app. Qed.
Lemma told_app l k : told (l ++ k) = told l ++ told k.
Proof. unfold told. by rewrite dispatched_app, List.filter_app. Qed.

Lemma turns_app b l k : turns b (l ++ k) = turns b l ≫= λ b, turns b k.
Proof. revert b. induction l as [|[] l IH]; intros b; simpl; try done. by destruct b. Qed.

Lemma quiet_log l k :
  Forall quiet_entry k →
  dispatched (l ++ k) = dispatched l ∧ accepted (l ++ k) = accepted l ∧ handled (l ++ k) = handled l ∧
  told (l ++ k) = told l ∧ turns false (l ++ k) = turns false l ∧ (GaveUpHandler ∉ l ++ k → GaveUpHandler ∉ l).
Proof.
  intros Hk. assert (dispatched k = [] ∧ accepted k = [] ∧ ∀ b, turns b k = Some b) as (Hd & Ha & Ht).
  { induction Hk as [|x k Hx _ (IH1 & IH2 & IH3)]; [done|]. by destruct x. }
  rewrite handled_app, told_app, dispatched_app, accepted_app, turns_app. unfold handled at 2, told at 2.
  rewrite Hd, Ha. simpl. rewrite !app_nil_r. split_and!; try done.
  - destruct (turns false l); simpl; [apply Ht|done].
  - intros Hg Hl. apply Hg, elem_of_app. by left.
Qed.

(** Only quiet entries and the phase change, and the phase is before the last call. *)
Lemma session_ok_quiet c s s' k :
  session_ok c s → Forall quiet_entry k →
  ss_connection s' = ss_connection s → ss_pending s' = ss_pending s → ss_handler s' = ss_handler s →
  ss_log s' = ss_log s ++ k → (ss_phase s' = ss_phase s ∨ ss_phase s = SessionRuns ∧ ∃ x, ss_phase s' = SessionCloses x) →
  session_ok c s'.
Proof.
  intros [Hc Hord Hcall Hidle Htold Hturns Hlast Halone] Hk Ec Ep Eh El Ephase.
  destruct (quiet_log (ss_log s) k Hk) as (Q1 & Q2 & Q3 & Q4 & Q5 & Q6). rewrite <- El in *.
  assert (ss_phase s' = SessionRuns → ss_phase s = SessionRuns) as Hruns by (destruct Ephase as [->|[? [? ->]]]; done).
  assert (calling s' = calling s) as Hcalling.
  { unfold calling. rewrite Eh. destruct Ephase as [->|[-> [? ->]]]; done. }
  split.
  - congruence.
  - rewrite Q2, Q3, Ep, Eh. destruct Hord as (ms & rest & ? & ? & ? & ? & ?). exists ms, rest. split_and!; auto.
  - rewrite Eh. auto.
  - rewrite Eh, Ep. auto.
  - unfold told_ok in *. rewrite Q4. destruct Ephase as [->|[Hr [? ->]]]; [done|]. by rewrite Hr in Htold.
  - intros Hg%Q6. rewrite Q5, Hcalling, Eh. destruct (Hturns Hg) as [?|(Hr & ? & ?)]; [by left|].
    destruct Ephase as [->|[Hr' _]]; [by right|congruence].
  - intros Hg%Q6. rewrite Q1, Q3, Q4. auto.
  - intros Hg%Q6. rewrite Eh. specialize (Halone Hg). destruct Ephase as [->|[Hr [? ->]]]; done.
Qed.

Lemma session_ok_send c authority stopped sent f s :
  session_ok c s → ss_phase s = SessionRuns → session_ok c (send_frame authority stopped sent f s).
Proof.
  intros Hs Hr. unfold send_frame. destruct authority; [destruct stopped; [|destruct sent]|].
  - eapply (session_ok_quiet c s _ []); try done; [by rewrite app_nil_r|right; eauto].
  - eapply (session_ok_quiet c s _ [FrameSent f]); try done; [by repeat constructor|by left].
  - eapply (session_ok_quiet c s _ []); try done; [by rewrite app_nil_r|right; eauto].
  - eapply (session_ok_quiet c s _ []); try done; [by rewrite app_nil_r|right; eauto].
Qed.

Lemma session_ok_closes c x s : session_ok c s → ss_phase s = SessionRuns → session_ok c (finish_loop x s).
Proof. intros Hs Hr. eapply (session_ok_quiet c s _ []); try done; [by rewrite app_nil_r|right; eauto]. Qed.

Lemma started_snoc c ms m : started_with c (ms ++ [m]) = started_with c ms ++ [Message (conn_id c) m].
Proof. unfold started_with. by rewrite fmap_app. Qed.

(** The next message starts, from the queue or from the browser. *)
Lemma session_ok_start c s m k rest :
  session_ok c s → ss_phase s = SessionRuns →
  match ss_handler s with None | Some (HandlerDone true) => True | _ => False end →
  (k = [] ∧ ss_pending s = m :: rest ∨ k = [Accepted m] ∧ ss_pending s = [] ∧ rest = []) →
  session_ok c (start_message m (set_queue rest (note k s))).
Proof.
  intros Hs Hr Hh Hk. pose proof Hs as [Hc Hord Hcall Hidle Htold Hturns Hlast Halone].
  destruct Hord as (ms & q & Hacc & Hq & Hpre & Hsp & Hrun).
  assert (handled (ss_log s) = started_with c ms) as Hrun' by (apply Hrun; [done|]; by repeat case_match).
  assert (dispatched k = [] ∧ handled k = [] ∧ told k = [] ∧ (∀ b, turns b k = Some b) ∧ (GaveUpHandler ∉ ss_log s ++ k → GaveUpHandler ∉ ss_log s))
    as (Hkd & Hkh & Hkt & Hkb & Hkg).
  { destruct Hk as [[-> _]|[-> _]]; split_and!; try done; rewrite elem_of_app; tauto. }
  split.
  - done.
  - exists (ms ++ [m]), rest. simpl. rewrite accepted_app, handled_app, Hkh, app_nil_r, started_snoc. split_and!.
    + rewrite Hacc, (Hq Hr). destruct Hk as [[-> ->]|(-> & -> & ->)]; simpl; by rewrite <- ?app_assoc, ?app_nil_r.
    + done.
    + rewrite Hrun'. by apply prefix_app_r.
    + intros e [= <-]. by rewrite Hrun', Hc.
    + done.
  - done.
  - done.
  - unfold told_ok in *. simpl. rewrite Hr in *. by rewrite told_app, Hkt, app_nil_r.
  - simpl. intros Hg%Hkg. left. rewrite turns_app. destruct (Hturns Hg) as [->|(? & _)]; [|congruence]. simpl. rewrite Hkb.
    unfold calling. simpl. rewrite Hr. by destruct (ss_handler s) as [[| |[]]|].
  - simpl. intros Hg%Hkg. rewrite dispatched_app, handled_app, told_app, Hkd, Hkh, Hkt, !app_nil_r. auto.
  - simpl. by rewrite Hr.
Qed.

Lemma session_ok_enqueue c s m : session_ok c s → ss_phase s = SessionRuns → session_ok c (enqueue m s).
Proof.
  intros Hs Hr. unfold enqueue. simpl. destruct (ss_handler s) as [h|] eqn:Eh.
  - pose proof Hs as [Hc Hord Hcall Hidle Htold Hturns Hlast Halone].
    destruct Hord as (ms & q & Hacc & Hq & Hpre & Hsp & Hrun).
    assert (GaveUpHandler ∉ ss_log s ++ [Accepted m] → GaveUpHandler ∉ ss_log s) as Hg by (rewrite elem_of_app; tauto).
    split; simpl; try done.
    + exists ms, (q ++ [m]). rewrite accepted_app, handled_app. unfold handled at 2 4 6. simpl. rewrite !app_nil_r.
      split_and!; [by rewrite Hacc, <- app_assoc|by intros ?; rewrite Hq|done..].
    + intros _ ?. congruence.
    + unfold told_ok in *. simpl. rewrite Hr in *. by rewrite told_app, Htold.
    + intros Hl%Hg. left. rewrite turns_app. by destruct (Hturns Hl) as [->|(? & _)]; [|congruence].
    + intros Hl%Hg. rewrite dispatched_app, handled_app, told_app. unfold handled at 2, told at 2. simpl.
      rewrite !app_nil_r. auto.
    + by rewrite Hr.
  - pose proof (so_idle _ _ Hs Hr Eh) as Hp.
    replace (start_message m (note [Accepted m] s)) with (start_message m (set_queue [] (note [Accepted m] s))).
    + apply session_ok_start; [done|done|by rewrite Eh|]. right. done.
    + unfold start_message, start, set_queue, note, set_handler. simpl. by rewrite Hp.
Qed.

Lemma session_ok_joined c s : session_ok c s → ss_phase s = SessionRuns → session_ok c (handler_joined s).
Proof.
  intros Hs Hr. unfold handler_joined. destruct (ss_handler s) as [[| |ok]|] eqn:Eh; try done. simpl.
  pose proof Hs as [Hc Hord Hcall Hidle Htold Hturns Hlast Halone].
  assert (calling s = false) as Hcs by (unfold calling; by rewrite Eh, Hr).
  destruct ok; [destruct (ss_pending s) as [|m rest] eqn:Ep|].
  - destruct Hord as (ms & q & Hacc & Hq & Hpre & Hsp & Hrun). rewrite Eh in *. split; simpl; try done.
    + exists ms, q. split_and!; try done. by rewrite Ep.
    + intros Hg. left. destruct (Hturns Hg) as [->|(? & _)]; [|congruence]. rewrite Hcs. unfold calling. simpl. by rewrite Hr.
    + by rewrite Hr.
  - pose proof (session_ok_start c s m [] rest Hs Hr) as Hst. rewrite Eh in Hst. specialize (Hst I ltac:(by left)).
    revert Hst. unfold start_message, start, set_queue, note, set_handler. simpl. by rewrite app_nil_r.
  - destruct Hord as (ms & q & Hacc & Hq & Hpre & Hsp & Hrun). split; simpl; try done.
    + exists ms, q. split_and!; auto; done.
    + unfold told_ok in *. by rewrite Hr in Htold.
    + intros Hg. left. destruct (Hturns Hg) as [->|(? & _)]; [|congruence]. rewrite Hcs. done.
Qed.

(** [dispatch] keeps the event, but for the connection that ended. *)
Lemma dispatch_begin_event actor stopped authority request e g g' i :
  dispatch_begin actor stopped authority request e g = (g', Ok i) →
  is_disconnect_event (sock_event i) = is_disconnect_event e ∧
  (is_disconnect_event e = false → sock_event i = e).
Proof.
  unfold dispatch_begin. destruct (ensure _ _;; authority); [|done]. destruct e as [c|id m|c code reason clean]; simpl.
  1-2: by intros [= <- <-].
  destruct (registry_remove actor (conn_id c) g). by intros [= <- <-].
Qed.

Lemma session_ok_begins c stopped authority request st :
  session_ok c st.2 → session_ok c (session_step control_text (HandlerBegins stopped authority request) st).2.
Proof.
  destruct st as [g s]. intros Hs. simpl in *. destruct (ss_handler s) as [[e| |]|] eqn:Eh; try done.
  pose proof Hs as [Hc Hord Hcall Hidle Htold Hturns Hlast Halone].
  destruct Hord as (ms & q & Hacc & Hq & Hpre & Hsp & Hrun). destruct (Hsp e Eh) as [Hse He].
  destruct (dispatch_begin _ _ _ _ _ _) as [g' [i|]] eqn:Ed; simpl.
  - apply dispatch_begin_event in Ed as [Hi Hev]. rewrite He in Hi. specialize (Hev He).
    assert (handled (ss_log s ++ [Dispatched i]) = handled (ss_log s) ++ [e]) as Hh.
    { rewrite handled_app. unfold handled at 2. simpl. by rewrite Hi, Hev. }
    assert (told (ss_log s ++ [Dispatched i]) = told (ss_log s)) as Ht.
    { rewrite told_app. unfold told at 2. simpl. by rewrite Hi, app_nil_r. }
    assert (GaveUpHandler ∉ ss_log s ++ [Dispatched i] → GaveUpHandler ∉ ss_log s) as Hg by (rewrite elem_of_app; tauto).
    assert (GaveUpHandler ∉ ss_log s → told (ss_log s) = [] ∧ calling s = false ∧
            match ss_phase s with SessionTells _ | SessionEnded => False | _ => True end) as Hearly.
    { intros Hg'. specialize (Halone Hg'). unfold told_ok in Htold. unfold calling. rewrite Eh.
      destruct (ss_phase s) as [| | |[]|]; naive_solver. }
    split; simpl.
    + done.
    + exists ms, q. rewrite accepted_app. simpl. rewrite app_nil_r, Hh, Hse. split_and!; [done..|by intros|done].
    + intros ? [= <-]. done.
    + done.
    + unfold told_ok in *. simpl. by rewrite Ht.
    + intros Hl%Hg. left. rewrite turns_app. destruct (Hearly Hl) as (_ & Hcs & _).
      destruct (Hturns Hl) as [->|(Hp & _)]; [by rewrite Hcs|]. destruct (Hearly Hl) as (_ & _ & Hf). by rewrite Hp in Hf.
    + intros Hl%Hg. rewrite dispatched_app, Hh, Ht. simpl. rewrite (Hlast Hl). destruct (Hearly Hl) as (-> & _).
      by rewrite !app_nil_r, Hev.
    + intros Hl%Hg. destruct (Hearly Hl) as (_ & _ & Hf). by destruct (ss_phase s).
  - split; simpl; try done.
    + exists ms, q. split_and!; done.
    + intros Hl. specialize (Halone Hl). destruct (Hturns Hl) as [->|(Hp & _)]; [|rewrite Hp in Halone; congruence].
      left. unfold calling. simpl. rewrite Eh. done.
    + intros Hl. specialize (Halone Hl). destruct (ss_phase s) as [| | |[]|]; congruence.
Qed.

Lemma dispatch_end_quiet actor i outcome authority delivered g g' l ok :
  dispatch_end actor i outcome authority delivered g = (g', l, ok) → Forall quiet_entry l.
Proof.
  unfold dispatch_end. intros E. repeat (case_match; simplify_eq/=); repeat constructor.
Qed.

Lemma session_ok_replies c outcome authority delivered st :
  session_ok c st.2 → session_ok c (session_step control_text (HandlerReplies outcome authority delivered) st).2.
Proof.
  destruct st as [g s]. intros Hs. simpl in *. destruct (ss_handler s) as [[|i|]|] eqn:Eh; try done.
  destruct (dispatch_end _ _ _ _ _ _) as [[g' l] ok] eqn:Ed. simpl. apply dispatch_end_quiet in Ed.
  pose proof Hs as [Hc Hord Hcall Hidle Htold Hturns Hlast Halone].
  destruct (quiet_log (ss_log s) l Ed) as (Q1 & Q2 & Q3 & Q4 & Q5 & Q6).
  destruct Hord as (ms & q & Hacc & Hq & Hpre & Hsp & Hrun).
  pose proof (app_assoc (ss_log s) l [Replied (sock_event i) ok]) as Hk. set (k := ss_log s ++ l) in *.
  assert (dispatched (k ++ [Replied (sock_event i) ok]) = dispatched k ∧ accepted (k ++ [Replied (sock_event i) ok]) = accepted k ∧
          handled (k ++ [Replied (sock_event i) ok]) = handled k ∧ told (k ++ [Replied (sock_event i) ok]) = told k ∧
          (GaveUpHandler ∉ k ++ [Replied (sock_event i) ok] → GaveUpHandler ∉ k)) as (R1 & R2 & R3 & R4 & R5).
  { rewrite dispatched_app, accepted_app, handled_app, told_app, elem_of_app. unfold handled at 2, told at 2. simpl.
    rewrite !app_nil_r. tauto. }
  split; simpl; rewrite ?Hk, ?R1, ?R2, ?R3, ?R4, ?Q1, ?Q2, ?Q3, ?Q4; try done.
  - exists ms, q. split_and!; try done. intros Hp _. apply Hrun; [done|]. by rewrite Eh.
  - unfold told_ok in *. simpl. by rewrite Hk, R4, Q4.
  - intros Hl%R5%Q6. left. specialize (Halone Hl). rewrite turns_app, Q5.
    destruct (Hturns Hl) as [->|(_ & _ & ?)]; [|congruence]. simpl.
    unfold calling. simpl. destruct (ss_phase s) as [| | |[]|]; try done; congruence.
  - intros Hl%R5%Q6. auto.
  - intros Hl%R5%Q6. specialize (Halone Hl). destruct (ss_phase s) as [| | |[]|]; congruence.
Qed.

(** The phase after the loop moves on while no call runs. *)
Lemma session_ok_phase c s s' :
  session_ok c s → ss_connection s' = ss_connection s → ss_log s' = ss_log s →
  (∀ e, ss_handler s' = Some (HandlerSpawned e) → ss_handler s = Some (HandlerSpawned e)) →
  (∀ i, ss_handler s' = Some (HandlerCalls i) → ss_handler s = Some (HandlerCalls i)) →
  ss_phase s' ≠ SessionRuns → told_ok s' →
  (GaveUpHandler ∉ ss_log s → (calling s' = calling s ∧ ss_phase s ≠ SessionEnded) ∨ (ss_phase s' = SessionEnded ∧ ss_handler s' = None)) →
  (GaveUpHandler ∉ ss_log s → match ss_phase s' with SessionTells _ | SessionEnded => ss_handler s' = None | _ => True end) →
  session_ok c s'.
Proof.
  intros [Hc Hord Hcall Hidle Htold Hturns Hlast Halone] Ec El Hsp Hcl Hph Ht Hcs Hal. split; rewrite ?El; auto; try done.
  - congruence.
  - destruct Hord as (ms & q & Hacc & Hq & Hpre & Hsp' & Hrun). exists ms, q. split_and!; auto; done.
  - intros Hg. destruct (Hcs Hg) as [[-> Hne]|[Hend Hn]].
    + destruct (Hturns Hg) as [?|(? & _)]; [by left|done].
    + right. split_and!; [done| |done]. destruct (Hturns Hg) as [->|(_ & ? & _)]; done.
Qed.

(** The end is told, or cannot be. *)
Lemma session_ok_tells c stopped authority request st :
  session_ok c st.2 → session_ok c (session_step control_text (TellBegins stopped authority request) st).2.
Proof.
  destruct st as [g s]. intros Hs. simpl in *. destruct (ss_phase s) as [| | |[e| |]|] eqn:Ep; try done.
  pose proof Hs as [Hc Hord Hcall Hidle Htold Hturns Hlast Halone]. unfold told_ok in Htold. rewrite Ep in Htold, Halone.
  destruct Htold as [He Ht]. destruct (dispatch_begin _ _ _ _ _ _) as [g' [i|]] eqn:Ed; simpl.
  - apply dispatch_begin_event in Ed as [Hi _]. rewrite He in Hi.
    assert (handled (ss_log s ++ [Dispatched i]) = handled (ss_log s)) as Hh.
    { rewrite handled_app. unfold handled at 2. simpl. by rewrite Hi, app_nil_r. }
    assert (told (ss_log s ++ [Dispatched i]) = [sock_event i]) as Ht'.
    { rewrite told_app, Ht. unfold told. simpl. by rewrite Hi. }
    assert (GaveUpHandler ∉ ss_log s ++ [Dispatched i] → GaveUpHandler ∉ ss_log s) as Hg by (rewrite elem_of_app; tauto).
    destruct Hord as (ms & q & Hacc & Hq & Hpre & Hsp & Hrun).
    split; simpl; rewrite ?Hh; try done.
    + exists ms, q. rewrite accepted_app. simpl. rewrite app_nil_r. split_and!; done.
    + unfold told_ok. simpl. by rewrite Ht'.
    + intros Hl%Hg. left. rewrite turns_app. specialize (Halone Hl).
      destruct (Hturns Hl) as [->|(? & _)]; [|congruence]. unfold calling. simpl. by rewrite Halone, Ep.
    + intros Hl%Hg. rewrite dispatched_app, Ht'. simpl. by rewrite (Hlast Hl), Ht, app_nil_r.
    + intros Hl%Hg. auto.
  - apply (session_ok_phase c s); try done.
    + unfold told_ok. simpl. rewrite Ht. simpl. lia.
    + intros Hl. right. auto.
Qed.

Lemma session_ok_told c outcome authority delivered st :
  session_ok c st.2 → session_ok c (session_step control_text (TellReplies outcome authority delivered) st).2.
Proof.
  destruct st as [g s]. intros Hs. simpl in *. destruct (ss_phase s) as [| | |[|i|]|] eqn:Ep; try done.
  destruct (dispatch_end _ _ _ _ _ _) as [[g' l] ok] eqn:Ed. simpl. apply dispatch_end_quiet in Ed.
  pose proof Hs as [Hc Hord Hcall Hidle Htold Hturns Hlast Halone]. unfold told_ok in Htold. rewrite Ep in Htold, Halone.
  destruct (quiet_log (ss_log s) l Ed) as (Q1 & Q2 & Q3 & Q4 & Q5 & Q6).
  destruct Hord as (ms & q & Hacc & Hq & Hpre & Hsp & Hrun).
  pose proof (app_assoc (ss_log s) l [Replied (sock_event i) ok]) as Hk. set (k := ss_log s ++ l) in *.
  assert (dispatched (k ++ [Replied (sock_event i) ok]) = dispatched k ∧ accepted (k ++ [Replied (sock_event i) ok]) = accepted k ∧
          handled (k ++ [Replied (sock_event i) ok]) = handled k ∧ told (k ++ [Replied (sock_event i) ok]) = told k ∧
          (GaveUpHandler ∉ k ++ [Replied (sock_event i) ok] → GaveUpHandler ∉ k)) as (R1 & R2 & R3 & R4 & R5).
  { rewrite dispatched_app, accepted_app, handled_app, told_app, elem_of_app. unfold handled at 2, told at 2. simpl.
    rewrite !app_nil_r. tauto. }
  split; simpl; rewrite ?Hk, ?R1, ?R2, ?R3, ?R4, ?Q1, ?Q2, ?Q3, ?Q4; try done.
  - exists ms, q. split_and!; done.
  - unfold told_ok in *. simpl. rewrite Hk, R4, Q4. lia.
  - intros Hl%R5%Q6. left. specialize (Halone Hl). rewrite turns_app, Q5.
    destruct (Hturns Hl) as [->|(? & _)]; [|congruence]. simpl. unfold calling. simpl. by rewrite Halone.
  - intros Hl%R5%Q6. auto.
  - intros Hl%R5%Q6. auto.
Qed.

Lemma session_ok_gave_up c x clean conn s :
  session_ok c s → ss_phase s = SessionWaits x clean conn → session_ok c (tell x clean conn (note [GaveUpHandler] s)).
Proof.
  intros [Hc Hord Hcall Hidle Htold Hturns Hlast Halone] Ep.
  assert (GaveUpHandler ∈ ss_log s ++ [GaveUpHandler]) as Hin by (apply elem_of_app; right; by apply list_elem_of_singleton).
  destruct Hord as (ms & q & Hacc & Hq & Hpre & Hsp & Hrun). split; simpl; try done.
  - exists ms, q. rewrite accepted_app, handled_app. unfold handled at 2 4. simpl. rewrite !app_nil_r. split_and!; done.
  - unfold told_ok in *. simpl. rewrite Ep in Htold. split; [done|]. by rewrite told_app, Htold.
Qed.

Lemma session_ok_step c e st : session_ok c st.2 → session_ok c (session_step control_text e st).2.
Proof.
  intros Hs. destruct e as [| |x authority stopped sent|authority stopped sent|stopped authority request|
    outcome authority delivered|clean| | |stopped authority request|outcome authority delivered|].
  5: by apply session_ok_begins. 5: by apply session_ok_replies. 8: by apply session_ok_tells. 8: by apply session_ok_told.
  all: destruct st as [g s]; simpl in *; destruct (ss_phase s) as [|x'|x' clean' conn|d|] eqn:Ep; try done.
  - by apply session_ok_closes.
  - by apply session_ok_joined.
  - unfold receive_frame. destruct x as [[text|data|data|data|code reason]| | | |]; simpl;
      try (by apply session_ok_closes); try (by apply session_ok_send); try done.
    case_match; [by apply session_ok_send|by apply session_ok_enqueue].
  - destruct (next_outbound g s) as [m|]; simpl; [|case_match; [done|by apply session_ok_closes]].
    assert (session_ok c (set_taken (S (ss_taken s)) s)) as Hs'.
    { eapply (session_ok_quiet c s _ []); try done; [by rewrite app_nil_r|by left]. }
    destruct m as [[data|data]|v|code reason]; simpl; first [by apply session_ok_send|by apply session_ok_closes].
  - unfold disconnect. destruct (registry_remove _ _ _) as [g' r]. simpl. pose proof (so_told _ _ Hs) as Ht.
    apply (session_ok_phase c s); try done.
    + unfold told_ok in *. simpl. by rewrite Ep in Ht.
    + intros _. left. split; [|congruence]. unfold calling. simpl. by rewrite Ep.
  - pose proof (so_told _ _ Hs) as Ht. unfold told_ok in Ht. rewrite Ep in Ht.
    destruct (ss_handler s) as [[| |ok]|] eqn:Eh; try done.
    all: apply (session_ok_phase c s); try done; intros _; left; split; [|congruence]; unfold calling; simpl; by rewrite Eh, Ep.
  - destruct (ss_handler s) as [[| |ok]|]; try done; by apply session_ok_gave_up.
  - apply (session_ok_phase c s); try done.
    + pose proof (so_told _ _ Hs) as Ht. unfold told_ok in *. simpl. rewrite Ep in Ht.
      destruct d; [destruct Ht as [_ ->]; simpl; lia|lia|done].
    + intros Hg. right. split; [done|]. pose proof (so_alone _ _ Hs Hg) as Ha. by rewrite Ep in Ha.
    + intros Hg. pose proof (so_alone _ _ Hs Hg) as Ha. by rewrite Ep in Ha.
Qed.

Lemma session_ok_run c xs st : session_ok c st.2 → session_ok c (world_run control_text xs st).2.
Proof.
  unfold world_run. revert st. induction xs as [|x xs IH]; intros st Hs; simpl; [done|].
  apply IH. destruct x; simpl; [by apply session_ok_step|done].
Qed.

Lemma session_ok_open actor id metadata ch g g' s :
  open_session actor id metadata ch g = (g', Some s) → session_ok (ss_connection s) s ∧ conn_id (ss_connection s) = id.
Proof.
  unfold open_session. destruct (registry_insert _ _ _ _) as [? []]; [|done]. intros [= <- <-]. split; [|done].
  split; simpl; try done.
  - exists [], []. split_and!; try done; [apply prefix_nil|]. by intros e [= <-].
  - intros _. by left.
Qed.

(** C30. The actor is called for a connection with the connection itself first, then
    with the messages of the browser in the order in which they arrived, and is told the
    end at most once; while the connection lives and no handler runs, every message was
    handled. Unless a handler outlived the five seconds it has at the end, no call begins
    before the previous one was answered, and the end comes last. *)
Theorem socket_events_in_order actor id metadata ch g0 g s xs :
  open_session actor id metadata ch g0 = (g, Some s) →
  let s' := (world_run control_text xs (g, s)).2 in
  let expected := Connect (ss_connection s) :: (Message id <$> accepted (ss_log s')) in
  handled (ss_log s') `prefix_of` expected ∧
  (length (told (ss_log s')) ≤ 1)%nat ∧
  (ss_phase s' = SessionRuns → ss_handler s' = None → handled (ss_log s') = expected) ∧
  (GaveUpHandler ∉ ss_log s' →
    is_Some (turns false (ss_log s')) ∧ dispatched (ss_log s') = handled (ss_log s') ++ told (ss_log s')).
Proof.
  intros Ho. destruct (session_ok_open _ _ _ _ _ _ _ Ho) as [Hs <-]. intros s' expected.
  assert (session_ok (ss_connection s) s') as Hs' by (by apply session_ok_run).
  pose proof Hs' as [_ (ms & q & Hacc & Hq & Hpre & _ & Hrun) _ Hidle Htold Hturns Hlast _]. subst expected. split_and!.
  - rewrite Hacc, fmap_app, app_comm_cons. by apply prefix_app_r.
  - unfold told_ok in Htold. destruct (ss_phase s') as [| | |[]|]; try (rewrite Htold; simpl; lia); try lia.
    destruct Htold as [_ ->]. simpl. lia.
  - intros Hp Hh. rewrite Hacc, (Hq Hp), (Hidle Hp Hh), app_nil_r. apply Hrun; [done|]. by rewrite Hh.
  - intros Hg. split; [|auto]. destruct (Hturns Hg) as [->|(_ & ? & _)]; [by eauto|done].
Qed.
End safety.
