(* ===== verification/SocketDemo.v ===== *)
(** * Sockets at work

    The registry, the bus and a session run on concrete calls and events, as
    instances of their theorems. *)

From S2P Require Import Prelude Text Demo Effects Names StateLog Protocol ActorHost ActorHostDemo Sockets SocketSafety SocketBus SocketBusSafety SocketSession SocketSessionSafety.
Local Open Scope N_scope.
Import Stand_ins Stand_in_commits Stand_in_values.

Definition demo_connection (id : string) : ActorSocketConnection :=
  {| conn_id := b id; conn_metadata := ([] : Value); conn_tags := [b"red"] |}.

Definition demo_hello : ActorSocketMessage := TextMessage (b"hello").

(** Two connections of an actor; the first gets the state and a broadcast, and the
    second goes away. *)
Definition demo_calls_of_registry : list registry_op :=
  [ActivateOp demo_actor (b"c1"); InsertOp demo_actor (demo_connection "c2") 8; ActivateOp demo_actor (b"c2");
   EffectOp demo_actor (StateSnapshotEffect (b"c1") (b"s" : Value) (Some 3));
   EffectOp demo_actor (StateUpdate (b"d" : Value) [] [] (Some 4));
   EffectOp demo_actor (Broadcast demo_hello [b"c2"] [] MatchAll); RemoveOp demo_actor (b"c2")].

Definition demo_registry : SocketRegistry := with_max_connections 2.
Definition demo_first : SocketRegistry := (registry_insert demo_actor (demo_connection "c1") 7 demo_registry).1.

Example demo_registry_counts :
  registry_count demo_actor (registry_run (InsertOp demo_actor (demo_connection "c1") 7 :: demo_calls_of_registry) demo_registry) = 1.
Proof. vm_compute. reflexivity. Qed.

Lemma count_is_open_connections_witness :
  let g := registry_run (InsertOp demo_actor (demo_connection "c1") 7 :: demo_calls_of_registry) (with_max_connections 2) in
  registry_count demo_actor g = len (connections_with_tag demo_actor None g) ∧
  N.of_nat (size (room_connections (room_of demo_actor g))) ≤ 2 ∧
  (∀ id x, socket_of demo_actor id g = Some x → conn_id (rs_connection x) = id) ∧
  ∀ r, reg_entries g !! demo_actor = Some r → room_connections r ≠ ∅ ∨ is_Some (room_auto_response r).
Proof.
  apply (count_is_open_connections 2); [by vm_compute|]. repeat split; vm_compute; reflexivity.
Defined.

Lemma connection_sees_its_effects_witness :
  sent_to 7 (outbox (registry_run demo_calls_of_registry demo_first)) =
    [OutControl (StateControl (b"s" : Value) 3); OutControl (StateUpdateControl (b"d" : Value) [] 4); OutMessage demo_hello].
Proof.
  rewrite (connection_sees_its_effects demo_actor (demo_connection "c1") 7 demo_registry demo_first demo_calls_of_registry).
  - vm_compute. reflexivity.
  - split_and!; [vm_compute; reflexivity| |vm_compute; reflexivity]. intros a' i x Hx. discriminate Hx.
  - vm_compute. reflexivity.
  - repeat constructor; vm_compute; congruence.
Defined.

(** A gateway connects, watches an actor, and another socket of the actor comes and
    goes. *)
Definition demo_stored (_ : ActorKey) : AutoResponse := {| auto_request := None; auto_reply := None |}.
Definition demo_before : list bus_event :=
  [BusSessionStart; BusSessionReady demo_stored; BusWatch 1 demo_actor;
   BusHandles true (Some (demo_stored demo_actor)); BusWatchReturns 1 true].
Definition demo_middle : list bus_event :=
  [BusWatch 2 demo_actor; BusHandles true None; BusWatchReturns 2 true; BusReleased 2].
Definition demo_after : list bus_event := [BusReceives None].

Abbreviation demo_run := (bus_run (b"ns:") (b"ns:replies:1") true).

Lemma watched_sockets_miss_nothing_witness :
  let m := demo_run demo_middle (demo_run demo_before (bus_start 2)) in
  deliver_message (actor_channel (b"ns:") demo_actor) (EffectsEnvelope demo_actor [Broadcast demo_hello [] [] MatchAll]) m =
    set_registry (registry_apply demo_actor [Broadcast demo_hello [] [] MatchAll] (bus_registry m)) m.
Proof.
  apply (watched_sockets_miss_nothing (b"ns:") (b"ns:replies:1") true 2 demo_before demo_middle demo_after 1 demo_actor 1).
  - repeat (split; [first [exact I | split_and!; [vm_compute; reflexivity|apply (bool_decide_unpack _); vm_compute; exact I..|vm_compute; reflexivity]]|]).
    exact I.
  - vm_compute. congruence.
  - unfold holding. vm_compute. left.
  - vm_compute. reflexivity.
  - apply not_elem_of_cons. split; [done|]. repeat (apply not_elem_of_cons; split; [done|]). apply not_elem_of_nil.
  - vm_compute. reflexivity.
Defined.

(** A browser connects and sends two messages, which the actor handles one after the
    other. *)
Definition demo_opened : SocketRegistry * option Session :=
  open_session demo_actor (b"c1") ([] : Value) 7 demo_registry.
Definition demo_session : Session :=
  default {| ss_actor := demo_actor; ss_connection := demo_connection "c1"; ss_outbound := 0; ss_taken := 0%nat;
             ss_pending := []; ss_handler := None; ss_phase := SessionEnded; ss_log := [] |} demo_opened.2.

Definition demo_says (s : string) : session_event := Inbound (ReceivedFrame (TextFrame (b s))) (Ok ()) false true.
Definition demo_handler (id : string) : list session_event :=
  [HandlerBegins false (Ok ()) (b id); HandlerReplies (Ok []) (Ok ()) (Ok ()); HandlerJoined].

Definition demo_browser : list (session_event + (SocketRegistry → SocketRegistry)) :=
  inl <$> ([demo_says "one"; demo_says "two"] ++ demo_handler "r1" ++ demo_handler "r2" ++ demo_handler "r3").

Definition demo_text (_ : ControlMessage) : bytes := [].
Definition demo_served : Session := (world_run demo_text demo_browser (demo_opened.1, demo_session)).2.

Example demo_session_runs :
  dispatched (ss_log demo_served) =
    [Connect (ss_connection demo_session); Message (b"c1") (TextMessage (b"one")); Message (b"c1") (TextMessage (b"two"))].
Proof. vm_compute. reflexivity. Qed.

Lemma socket_events_in_order_witness :
  let expected := Connect (ss_connection demo_session) :: (Message (b"c1") <$> accepted (ss_log demo_served)) in
  handled (ss_log demo_served) = expected ∧ is_Some (turns false (ss_log demo_served)).
Proof.
  destruct (socket_events_in_order demo_text demo_actor (b"c1") ([] : Value) 7 demo_registry demo_opened.1 demo_session
    demo_browser) as (_ & _ & Hall & Hturns); [vm_compute; reflexivity|]. split.
  - apply Hall; vm_compute; reflexivity.
  - apply Hturns. match goal with |- _ ∉ ?l => let l' := eval vm_compute in l in change (GaveUpHandler ∉ l') end.
    rewrite !not_elem_of_cons. split_and!; [discriminate..|apply not_elem_of_nil].
Defined.
