(* ===== verification/Tokens.v ===== *)
(** * Credentials

    The tokens the control plane issues ([src/src/control_plane/issuer.rs]) and the
    checks on them ([src/src/control_plane/auth.rs], [session.rs],
    [socket_ticket.rs], and the administrative credential of [admin.rs]).

    Signing and checking a JWT is third-party code ([jsonwebtoken]): a class of
    operations on the claims, with what its documentation says as laws. Seconds and
    milliseconds are [i64] numbers, as in the claims. *)

From S2P Require Import Prelude Text Names Payload StateLog Protocol.
Local Open Scope Z_scope.

(** ** Numbers *)

Definition i64_min : Z := -9223372036854775808.
Definition saturate_i64 (z : Z) : Z := Z.max i64_min (Z.min i64_max z).
Definition saturating_add_i64 (x y : Z) : Z := saturate_i64 (x + y).
Definition saturating_sub_i64 (x y : Z) : Z := saturate_i64 (x - y).
Definition fits_i64 (z : Z) : option Z := if (i64_min <=? z) && (z <=? i64_max) then Some z else None.
(** Arithmetic of a release build. *)
Definition wrap_i64 (z : Z) : Z := (z + 9223372036854775808) mod 18446744073709551616 - 9223372036854775808.

(** A [Duration] in milliseconds. *)
Definition as_secs (ms : N) : N := (ms / 1000)%N.
Definition duration_millis (ms : N) : result Z := ctx (fits_i64 (Z.of_N ms)) "duration exceeds supported JWT range".

(** [split_ascii_whitespace] *)
Definition ascii_space (x : byte) : bool := bool_decide (x ∈ [x09; x0a; x0c; x0d; x20]).
Fixpoint split_spaces (word : bytes) (s : bytes) : list bytes :=
  match s with
  | [] => if bool_decide (word = []) then [] else [word]
  | x :: s =>
      if ascii_space x then (if bool_decide (word = []) then [] else [word]) ++ split_spaces [] s
      else split_spaces (word ++ [x]) s
  end.
Definition split_ascii_whitespace (s : bytes) : list bytes := split_spaces [] s.

Section tokens.
Context `{JsonValue}.

(** ** Claims *)

Record InvocationGrant := {
  gr_subject : bytes;
  gr_grant_id : bytes;
  gr_expires_at : Z;
  gr_methods : list bytes;
}.

Record ActorInvocationCapability := {
  cap_route : bytes;
  cap_actor : ActorKey;
  cap_host_id : bytes;
  cap_owner_epoch : N;
  cap_grant : option InvocationGrant;
}.

(** The claims of an actor token, as signed and as read back. *)
Record ActorJwtClaims := {
  cl_organization_id : option bytes;
  cl_actor : ActorKey;
  cl_iss : bytes;
  cl_aud : list bytes;
  cl_sub : bytes;
  cl_process_id : bytes;
  cl_session_id : bytes;
  cl_region : bytes;
  cl_host_config_key : option bytes;
  cl_scope : bytes;
  cl_iat : Z;
  cl_nbf : Z;
  cl_exp : Z;
  cl_invocation : option ActorInvocationCapability;
  (** the copies for the telemetry collector *)
  cl_telemetry : option ActorKey;
}.

Record ActorSession := {
  as_iss : bytes;
  as_aud : bytes;
  as_subject : bytes;
  as_jti : bytes;
  as_project_id : bytes;
  as_scope : bytes;
  as_iat : Z;
  as_nbf : Z;
  as_expires_at : Z;
}.

Record SocketGrant := {
  sg_actor : ActorKey;
  sg_region : bytes;
  sg_home_region : option bytes;
  sg_metadata : Value;
}.

Record SocketTicket := {
  st_iss : bytes;
  st_aud : bytes;
  st_scope : bytes;
  st_iat : Z;
  st_nbf : Z;
  st_exp : Z;
  st_actor : ActorKey;
  st_region : bytes;
  st_home_region : option bytes;
  st_metadata : Value;
  st_connect_by_ms : Z;
}.

(** The three documents differ in their fields: one is never read as another. *)
Inductive claims :=
| ActorClaims (c : ActorJwtClaims)
| SessionClaims (s : ActorSession)
| SocketClaims (t : SocketTicket).

Definition iss_of (c : claims) : bytes :=
  match c with ActorClaims c => cl_iss c | SessionClaims s => as_iss s | SocketClaims t => st_iss t end.
Definition aud_of (c : claims) : list bytes :=
  match c with ActorClaims c => cl_aud c | SessionClaims s => [as_aud s] | SocketClaims t => [st_aud t] end.
Definition exp_of (c : claims) : Z :=
  match c with ActorClaims c => cl_exp c | SessionClaims s => as_expires_at s | SocketClaims t => st_exp t end.
Definition nbf_of (c : claims) : Z :=
  match c with ActorClaims c => cl_nbf c | SessionClaims s => as_nbf s | SocketClaims t => st_nbf t end.

(** ** [jsonwebtoken] *)

Record JwtHeader := {
  hd_typ : option bytes;
  hd_eddsa : bool;
  hd_kid : option bytes;
}.

(** The settings of [Validation] the sources use; the algorithm is EdDSA. *)
Record Validation := {
  va_issuer : bytes;
  va_audience : bytes;
  va_leeway : Z;
  va_exp : bool;
  va_nbf : bool;
}.

(** What [decode] checks besides the signature. *)
Definition accepts (v : Validation) (now : Z) (c : claims) : Prop :=
  iss_of c = va_issuer v ∧ va_audience v ∈ aud_of c ∧
  (va_exp v = true → now - va_leeway v ≤ exp_of c) ∧
  (va_nbf v = true → nbf_of c ≤ now + va_leeway v).

Class Jwt := {
  jwt_key : Type;
  jwt_public : Type;
  public_of : jwt_key → jwt_public;
  jwt_encode : jwt_key → bytes → claims → result bytes;
  jwt_header : bytes → result JwtHeader;
  jwt_decode : jwt_public → Validation → Z → bytes → result claims;
}.

Class JwtLaws `{Jwt} := {
  jwt_header_encode k kid c t :
    jwt_encode k kid c = Ok t → jwt_header t = Ok {| hd_typ := Some (b"JWT"); hd_eddsa := true; hd_kid := Some kid |};
  jwt_decode_encode k kid c t v now :
    jwt_encode k kid c = Ok t → accepts v now c → jwt_decode (public_of k) v now t = Ok c;
  jwt_decode_signed k kid c t v now d :
    jwt_encode k kid c = Ok t → jwt_decode (public_of k) v now t = Ok d → d = c;
  jwt_decode_accepts p v now t c : jwt_decode p v now t = Ok c → accepts v now c;
  (** The compact form: three segments of base64url, joined by dots. *)
  jwt_text k kid c t : jwt_encode k kid c = Ok t → t ≠ [] ∧ is_trimmed t = true;
}.

Context `{Jwt} `{!JsonOps} `{!Json Value} `{!UuidParse}.

(** ** Sessions *)

Definition MAX_SESSION_LIFETIME_SECONDS : Z := 300.

Definition validate_session (s : ActorSession) (now : Z) : result unit :=
  ensure (as_scope s == b"actor:session") "actor session purpose mismatch";;
  validate_component "project ID" (as_project_id s) 64;;
  ensure ((as_subject s != []) && (len (as_subject s) <=? 128)%N && (as_jti s != []) && (len (as_jti s) <=? 128)%N)
    "invalid actor session identity";;
  ensure ((as_iat s <=? wrap_i64 (now + 5)) && (now <? as_expires_at s) && (as_iat s <? as_expires_at s) &&
          (saturating_sub_i64 (as_expires_at s) (as_iat s) <=? MAX_SESSION_LIFETIME_SECONDS))
    "invalid actor session lifetime".

(** [ActorSession::invocation] *)
Definition session_invocation (s : ActorSession) (actor : ActorKey) (methods : list bytes) : result InvocationGrant :=
  ensure (as_project_id s == project_id actor) "actor session project mismatch";;
  ensure (negb (bool_decide (methods = []))) "actor has no published RPC methods";;
  Ok {| gr_subject := as_subject s; gr_grant_id := as_jti s; gr_expires_at := as_expires_at s; gr_methods := methods |}.

(** ** Sockets *)

Definition validate_home (r : option bytes) : result unit :=
  match r with Some r => validate_region r | None => Ok () end.

Definition validate_grant (g : SocketGrant) : result unit :=
  validate_actor (sg_actor g);;
  validate_region (sg_region g);;
  validate_home (sg_home_region g);;
  validate_socket_metadata (sg_metadata g).

Definition validate_ticket (t : SocketTicket) (now_ms : Z) : result unit :=
  validate_actor (st_actor t);;
  validate_region (st_region t);;
  validate_home (st_home_region t);;
  validate_socket_metadata (st_metadata t);;
  ensure (st_scope t == b"actor:socket") "invalid socket ticket scope";;
  ensure ((wrap_i64 (st_iat t * 1000) <=? now_ms) && (wrap_i64 (st_nbf t * 1000) <=? now_ms)) "socket ticket is not active";;
  ensure (now_ms <? st_connect_by_ms t) "socket ticket has expired";;
  ensure (wrap_i64 (st_connect_by_ms t - wrap_i64 (st_iat t * 1000)) <=? 61000) "invalid socket ticket admission lifetime".

Record SocketTicketVerifier := {
  sv_keys : list (bytes * jwt_public);
  sv_issuer : bytes;
  sv_audience : bytes;
}.

Fixpoint find_key {A} (kid : bytes) (l : list (bytes * A)) : option A :=
  match l with
  | [] => None
  | (k, a) :: l => if k == kid then Some a else find_key kid l
  end.

Definition verify_at (f : SocketTicketVerifier) (token : bytes) (now_ms : Z) : result SocketTicket :=
  ensure (len token <=? 128 * 1024)%N "socket ticket is too large";;
  header ← jwt_header token;
  ensure (hd_eddsa header) "invalid socket ticket algorithm";;
  kid ← ctx (hd_kid header) "socket signing key missing";
  key ← ctx (find_key kid (sv_keys f)) "unknown socket signing key";
  let v := {| va_issuer := sv_issuer f; va_audience := sv_audience f; va_leeway := 60; va_exp := false; va_nbf := false |} in
  c ← jwt_decode key v (now_ms / 1000) token;
  match c with
  | SocketClaims t => validate_ticket t now_ms;; Ok t
  | _ => Err "socket ticket claims"
  end.

(** ** Actor tokens *)

Inductive ActorTokenPurpose := ForControlPlane | ForInvocation.
#[global] Instance ActorTokenPurpose_eq_dec : EqDecision ActorTokenPurpose.
Proof. solve_decision. Defined.

Definition purpose_claim (p : ActorTokenPurpose) : bytes :=
  match p with ForControlPlane => b"actor:authority" | ForInvocation => b"actor:invoke" end.

Record ActorPrincipal := {
  pr_organization_id : option bytes;
  pr_actor : ActorKey;
  pr_host_id : bytes;
  pr_session_id : bytes;
  pr_region : bytes;
  pr_host_config_key : option bytes;
  pr_invocation : option ActorInvocationCapability;
}.

Record ActorJwtVerifier := {
  vf_public_keys : list (bytes * jwt_public);
  vf_validation : Validation;
  vf_purpose : ActorTokenPurpose;
  vf_max_lifetime : N;
}.

Definition CLOCK_SKEW_SECONDS : Z := 5.

Definition from_decoded_public_keys (keys : list (bytes * jwt_public)) (issuer audience : bytes)
    (purpose : ActorTokenPurpose) (max_lifetime : N) : result ActorJwtVerifier :=
  ensure (negb (max_lifetime =? 0)%N) "actor JWT maximum lifetime must be positive";;
  ensure (match keys with [] => false | _ => true end) "actor JWT public-key set must not be empty";;
  ensure (issuer != []) "actor JWT issuer must not be empty";;
  ensure (audience != []) "actor JWT audience must not be empty";;
  Ok {| vf_public_keys := keys;
        vf_validation := {| va_issuer := issuer; va_audience := audience; va_leeway := CLOCK_SKEW_SECONDS;
                            va_exp := true; va_nbf := true |};
        vf_purpose := purpose; vf_max_lifetime := max_lifetime |}.

Definition delegated_scope : bytes := b"actor:delegated-invoke".

Definition valid_scope (purpose : ActorTokenPurpose) (c : ActorJwtClaims) : bool :=
  let delegated := match cl_invocation c with Some i => bool_decide (is_Some (cap_grant i)) | None => false end in
  if delegated then (purpose == ForInvocation) && (cl_scope c == delegated_scope)
  else
    bool_decide (purpose_claim purpose ∈ split_ascii_whitespace (cl_scope c)) &&
    negb (bool_decide (delegated_scope ∈ split_ascii_whitespace (cl_scope c))).

Definition validate_delegation (c : ActorJwtClaims) (now : Z) (g : InvocationGrant) : result unit :=
  ensure ((cl_exp c <=? gr_expires_at g) && (now <? gr_expires_at g)) "delegated authorization has expired";;
  ensure ((gr_subject g != []) && (len (gr_subject g) <=? 128)%N && (gr_grant_id g != []) &&
          (len (gr_grant_id g) <=? 128)%N) "delegated identity is invalid";;
  ensure (len (gr_methods g) <=? 256)%N "too many delegated methods";;
  mapR (λ m, validate_component "delegated method" m 128) (gr_methods g);; Ok ().

Definition validate_capability (c : ActorJwtClaims) (now : Z) (i : ActorInvocationCapability) : result unit :=
  match cap_grant i with Some g => validate_delegation c now g | None => Ok () end;;
  ensure (cap_host_id i == cl_process_id c) "actor invocation capability targets another host";;
  ensure (cap_actor i == cl_actor c) "actor invocation capability targets another actor";;
  validate_actor (cap_actor i);;
  ensure (0 <? cap_owner_epoch i)%N "actor invocation capability owner epoch is invalid".

Definition validate_claims (f : ActorJwtVerifier) (now : Z) (c : ActorJwtClaims) : result ActorPrincipal :=
  ensure (valid_scope (vf_purpose f) c) "actor token credential scope is invalid";;
  ensure (cl_sub c != []) "actor token subject is empty";;
  ensure (cl_sub c == cl_process_id c) "host token subject does not match its process identity";;
  ensure (uuid_parse (cl_session_id c)) "actor token session ID is invalid";;
  ensure (cl_iat c <? cl_exp c) "actor token lifetime is invalid";;
  lifetime ← ctx (fits_i64 (cl_exp c - cl_iat c)) "actor token lifetime is invalid";
  ensure (Z.to_N lifetime * 1000 <=? vf_max_lifetime f)%N "actor token lifetime exceeds the configured maximum";;
  ensure (now <? cl_exp c) "actor token has expired";;
  ensure (cl_iat c <=? saturating_add_i64 now CLOCK_SKEW_SECONDS) "actor token was issued in the future";;
  validate_actor (cl_actor c);;
  ensure (starts_with (b"host.v3.") (cl_process_id c)) "invalid host identity";;
  ensure ((cl_region c != []) && (len (cl_region c) <=? 64)%N && forallb region_byte (cl_region c))
    "actor token storage region is invalid";;
  match cl_invocation c with Some i => validate_capability c now i | None => Ok () end;;
  Ok {| pr_organization_id := cl_organization_id c; pr_actor := cl_actor c; pr_host_id := cl_process_id c;
        pr_session_id := cl_session_id c; pr_region := cl_region c; pr_host_config_key := cl_host_config_key c;
        pr_invocation := cl_invocation c |}.

Definition verify_with_header (f : ActorJwtVerifier) (now : Z) (token : bytes) (h : JwtHeader) : result ActorPrincipal :=
  ensure (match hd_typ h with None => true | Some v => v == b"JWT" end) "actor token has an invalid type";;
  kid ← ctx (hd_kid h) "actor token key ID is empty";
  key ← ctx (find_key kid (vf_public_keys f)) "actor token uses unknown key ID";
  c ← jwt_decode key (vf_validation f) now token;
  match c with
  | ActorClaims c => validate_claims f now c
  | _ => Err "verify actor JWT"
  end.

Definition bearer_token (authorization : bytes) : result bytes :=
  token ← ctx (strip_prefix (b"Bearer ") authorization) "actor token must use Bearer authentication";
  ensure ((token != []) && is_trimmed token) "actor token is invalid";;
  Ok token.

Definition authenticate_authorization (f : ActorJwtVerifier) (now : Z) (authorization : bytes) : result ActorPrincipal :=
  token ← bearer_token authorization;
  header ← jwt_header token;
  verify_with_header f now token header.

(** [SessionVerifier] *)
Record SessionVerifier := {
  ses_keys : list (bytes * jwt_public);
  ses_validation : Validation;
}.

Definition session_verifier_new (keys : list (bytes * jwt_public)) (issuer audience : bytes) : SessionVerifier :=
  {| ses_keys := keys;
     ses_validation := {| va_issuer := issuer; va_audience := audience; va_leeway := 0; va_exp := true; va_nbf := true |} |}.

Definition authenticate_session (f : SessionVerifier) (now : Z) (authorization project : bytes) : result ActorSession :=
  token ← bearer_token authorization;
  ensure (len token <=? 8192)%N "actor session is too large";;
  header ← jwt_header token;
  ensure (bool_decide (hd_typ header = Some (b"JWT"))) "invalid actor session type";;
  kid ← ctx (hd_kid header) "actor session key ID is required";
  key ← ctx (find_key kid (ses_keys f)) "unknown actor session key";
  c ← jwt_decode key (ses_validation f) now token;
  match c with
  | SessionClaims s =>
      validate_session s now;;
      ensure (as_project_id s == project) "actor session project mismatch";;
      Ok s
  | _ => Err "actor session claims"
  end.

(** ** The issuer *)

Record ActorJwtIssuer := {
  is_encoding_key : jwt_key;
  is_key_id : bytes;
  is_issuer : bytes;
  is_authority_audience : bytes;
  is_invocation_audience : bytes;
  (** in milliseconds *)
  is_max_lifetime : N;
}.

Record IssuedActorToken := {
  issued_token : bytes;
  issued_expires_at_ms : Z;
}.

Definition HOST_TOKEN_TTL : N := 1800000.
Definition INVOCATION_TARGET_TTL : N := 60000.
Definition TELEMETRY_AUDIENCE : bytes := b"durable-actors-telemetry".

(** [from_base64_pkcs8], its checks; [key] is the key the bytes decode to. *)
Definition issuer_new (key : result jwt_key) (key_id issuer authority invocation : bytes) (max_lifetime : N)
    : result ActorJwtIssuer :=
  ensure (key_id != []) "DURABLE_ACTORS_JWT_KEY_ID must not be empty";;
  ensure (negb (max_lifetime =? 0)%N) "actor JWT lifetime must be positive";;
  ensure (issuer != []) "actor JWT issuer must not be empty";;
  ensure (authority != []) "actor authority JWT audience must not be empty";;
  ensure (invocation != []) "actor invocation JWT audience must not be empty";;
  key ← key;
  Ok {| is_encoding_key := key; is_key_id := key_id; is_issuer := issuer; is_authority_audience := authority;
        is_invocation_audience := invocation; is_max_lifetime := max_lifetime |}.

Implicit Types u : ActorJwtIssuer.

Definition sign u (c : claims) : result bytes := jwt_encode (is_encoding_key u) (is_key_id u) c.

Definition issue u (c : ActorJwtClaims) : result IssuedActorToken :=
  ms ← ctx (fits_i64 (cl_exp c * 1000)) "issued actor token expiration overflow";
  token ← sign u (ActorClaims c);
  Ok {| issued_token := token; issued_expires_at_ms := ms |}.

Definition session_audience u : bytes := is_invocation_audience u ++ b":session".
Definition socket_audience u : bytes := is_authority_audience u ++ b":websocket".
(** [verifier_keys_json], read back *)
Definition issuer_keys u : list (bytes * jwt_public) := [(is_key_id u, public_of (is_encoding_key u))].

Definition socket_verifier u : SocketTicketVerifier :=
  {| sv_keys := issuer_keys u; sv_issuer := is_issuer u; sv_audience := socket_audience u |}.

Definition issue_session u (now_ms : Z) (jti project subject : bytes) (deadline_ms : Z) : result IssuedActorToken :=
  let now := Z.quot now_ms 1000 in
  limit ← ctx (fits_i64 (Z.of_N (N.min (as_secs (is_max_lifetime u)) (Z.to_N MAX_SESSION_LIFETIME_SECONDS))))
            "out of range integral type conversion attempted";
  let expires_at := Z.min (Z.quot deadline_ms 1000) (saturating_add_i64 now limit) in
  let s := {| as_iss := is_issuer u; as_aud := session_audience u; as_subject := subject; as_jti := jti;
              as_project_id := project; as_scope := b"actor:session"; as_iat := now; as_nbf := now;
              as_expires_at := expires_at |} in
  validate_session s now;;
  token ← sign u (SessionClaims s);
  ensure (len token <=? 8192)%N "actor session is too large";;
  Ok {| issued_token := token; issued_expires_at_ms := wrap_i64 (expires_at * 1000) |}.

Definition issue_socket_at u (g : SocketGrant) (now_ms : Z) : result (bytes * Z) :=
  validate_grant g;;
  ms ← duration_millis (is_max_lifetime u);
  let lifetime := Z.min ms 60000 in
  ensure (1000 <=? lifetime) "configured token lifetime is too short for a socket";;
  connect_by ← ctx (fits_i64 (now_ms + lifetime)) "socket admission time overflow";
  token ← sign u (SocketClaims {|
    st_iss := is_issuer u; st_aud := socket_audience u; st_scope := b"actor:socket"; st_iat := Z.quot now_ms 1000;
    st_nbf := Z.quot now_ms 1000; st_exp := Z.quot (wrap_i64 (connect_by + 999)) 1000; st_actor := sg_actor g;
    st_region := sg_region g; st_home_region := sg_home_region g; st_metadata := sg_metadata g;
    st_connect_by_ms := connect_by |});
  Ok (token, connect_by).

Definition issue_host u (now_ms : Z) (organization host session config_key region : bytes) (actor : ActorKey)
    : result IssuedActorToken :=
  validate_actor actor;;
  ttl ← duration_millis (N.min (is_max_lifetime u) HOST_TOKEN_TTL);
  let expires_at_ms := saturating_add_i64 now_ms ttl in
  issue u {|
    cl_organization_id := Some organization; cl_actor := actor; cl_iss := is_issuer u;
    cl_aud := [is_authority_audience u; is_invocation_audience u; TELEMETRY_AUDIENCE];
    cl_sub := host; cl_process_id := host; cl_session_id := session; cl_region := region;
    cl_host_config_key := Some config_key; cl_scope := b"actor:authority actor:invoke";
    cl_iat := Z.quot now_ms 1000; cl_nbf := Z.quot now_ms 1000; cl_exp := Z.quot expires_at_ms 1000;
    cl_invocation := None; cl_telemetry := Some actor |}.

(** [reqwest::Url] and [backend_origin] *)
Record Url := {
  url_scheme : bytes;
  url_host : option bytes;
  url_path : bytes;
  url_query : option bytes;
  url_fragment : option bytes;
  url_username : bytes;
  url_password : option bytes;
  url_text : bytes;
}.
Context (url_parse : bytes → result Url).

Definition backend_origin (route : bytes) : result Url :=
  url ← url_parse route;
  ensure (((url_scheme url == b"http") || (url_scheme url == b"https")) && bool_decide (is_Some (url_host url)) &&
          (url_path url == b"/") && bool_decide (url_query url = None) && bool_decide (url_fragment url = None) &&
          (url_username url == []) && bool_decide (url_password url = None)) "invalid host origin";;
  Ok url.

Definition issue_invocation_target u (now_ms : Z) (actor : ActorKey) (host session config_key region : bytes)
    (owner_epoch : N) (grant : option InvocationGrant) (route : bytes) : result IssuedActorToken :=
  validate_actor actor;;
  validate_region region;;
  ensure (0 <? owner_epoch)%N "actor owner epoch must be positive";;
  let now := Z.quot now_ms 1000 in
  target_ttl ← ctx (fits_i64 (Z.of_N (as_secs INVOCATION_TARGET_TTL))) "out of range integral type conversion attempted";
  issuer_ttl ← ctx (fits_i64 (Z.of_N (as_secs (is_max_lifetime u)))) "out of range integral type conversion attempted";
  let expires_at := Z.min (Z.min (saturating_add_i64 now target_ttl) (saturating_add_i64 now issuer_ttl))
                      (match grant with Some g => gr_expires_at g | None => i64_max end) in
  ensure (now <? expires_at) "invocation credential expires too soon";;
  origin ← backend_origin route;
  issue u {|
    cl_organization_id := None; cl_actor := actor; cl_iss := is_issuer u; cl_aud := [is_invocation_audience u];
    cl_sub := host; cl_process_id := host; cl_session_id := session; cl_region := region;
    cl_host_config_key := Some config_key;
    cl_scope := if grant is Some _ then delegated_scope else b"actor:invoke";
    cl_iat := now; cl_nbf := now; cl_exp := expires_at; cl_telemetry := None;
    cl_invocation := Some {| cap_route := url_text origin; cap_actor := actor; cap_host_id := host;
                             cap_owner_epoch := owner_epoch; cap_grant := grant |} |}.

(** ** The administrative credential *)

Definition admin_authenticate (api_key : option bytes) (authorization : bytes) : result unit :=
  match api_key with
  | None => Ok ()
  | Some key =>
      token ← ctx (strip_prefix (b"Bearer ") authorization) "admin credential must use Bearer authentication";
      ensure ((token != []) && is_trimmed token && (token == key)) "admin credential is invalid"
  end.

Definition authorize_session_issuance (api_key : option bytes) (authorization : bytes) : result unit :=
  ensure (bool_decide (is_Some api_key)) "session issuance requires administrative authentication";;
  admin_authenticate api_key authorization.

Definition authorize_discovery (api_key : option bytes) (sessions : SessionVerifier) (now : Z)
    (authorization project : bytes) : result (option ActorSession) :=
  match admin_authenticate api_key authorization with
  | Ok _ => Ok None
  | Err _ => s ← authenticate_session sessions now authorization project; Ok (Some s)
  end.
End tokens.
