(* ===== verification/HostHttp.v ===== *)
(** * The HTTP service of an actor host

    [ActorHostHttpService] of [src/src/host/http.rs]: who may send a request to a
    host, what is submitted to the mailbox of its actor, and what the answer of the
    mailbox becomes. Metrics of a request are left out, and the body has been read:
    a handler is given the request, or the error of the extractor. *)

From S2P Require Import Prelude Text Names Payload StateLog Protocol ActorHost Tokens.
Local Open Scope Z_scope.

(** ** JSON objects

    What the sources ask of [serde_json] besides [JsonOps]: strings, and objects made
    of their fields. *)
Class JsonObjects `{JsonOps} := {
  value_string : bytes → Value;
  value_str : Value → option bytes;
  value_object : list (bytes * Value) → Value;
}.

Class JsonObjectLaws `{JsonObjects} := {
  value_str_string s : value_str (value_string s) = Some s;
  value_get_object fields k : value_get (value_object fields) k = find_key k fields;
}.

(** ** Errors *)

Record HttpError := {
  http_status : N;
  http_message : string;
}.

Definition answer (A : Type) : Type := A + HttpError.
#[global] Instance answer_ret : MRet answer := λ A, inl.
#[global] Instance answer_bind : MBind answer :=
  λ A B f x, match x with inl a => f a | inr e => inr e end.

Definition refuse {A} (status : N) (message : string) : answer A :=
  inr {| http_status := status; http_message := message |}.
Definition guard (c : bool) (status : N) (message : string) : answer unit := if c then inl () else refuse status message.
Definition with_status {A} (status : N) (r : result A) : answer A :=
  match r with Ok a => inl a | Err e => refuse status e end.
Definition bad_request {A} (r : result A) : answer A := with_status 400 r.

Section http.
Context `{JsonObjects} `{!Json Value} `{!StandardBase64} `{!UuidParse} `{!Jwt}.
Implicit Types (actor : ActorKey).

(** ** Requests and replies *)

Record InvokeRequest := {
  ivr_request_id : bytes;
  ivr_owner_epoch : N;
  ivr_method : bytes;
  ivr_args : list Value;
}.

Record SocketEventRequest := {
  ser_owner_epoch : N;
  ser_invocation : ActorSocketInvocation;
}.

Inductive InvocationReply :=
| ReplyCompleted (v : Value)
| ReplyFailed (code : bytes) (message : string)
| ReplyNotExecuted.

(** [Serialize] of [InvocationResponse] *)
Definition reply_value (r : InvocationReply) (metadata : option Value) : Value :=
  value_object (match r with
    | ReplyCompleted v => [(b"type", value_string (b"completed")); (b"result", v)]
    | ReplyFailed code message =>
        [(b"type", value_string (b"failed")); (b"code", value_string code);
         (b"message", value_string (b message))]
    | ReplyNotExecuted =>
        [(b"type", value_string (b"not_executed")); (b"reason", value_string (b"host_unavailable"))]
    end ++ match metadata with Some v => [(b"metadata", v)] | None => [] end).

Inductive SocketEventReply :=
| EventCompleted (effects : list ActorSocketEffect)
| EventNotExecuted
| EventFailed (message : string).

Inductive InitialRequest :=
| InitialInvoke (inv : ActorInvocation) (grant : option InvocationGrant)
| InitialSocket (inv : ActorSocketInvocation).

(** What a handler does: it answers, or it submits an operation to the mailbox and
    answers when the mailbox does. *)
Inductive handler (A : Type) :=
| Answer (a : A)
| Submit (o : ActorOperation) (owner_epoch : N) (k : result ActorExecutionResult → A).
Arguments Answer {A}. Arguments Submit {A}.

(** ** Authorization *)

Record ActorHostHttpService := {
  hs_host_id : bytes;
  hs_actor : ActorKey;
  hs_session_id : bytes;
  hs_auth : ActorJwtVerifier;
}.
Implicit Types (svc : ActorHostHttpService).

(** [authenticate]; [now] is in seconds. *)
Definition http_authenticate svc (now : Z) (authorization : bytes) : answer ActorPrincipal :=
  match authenticate_authorization (hs_auth svc) now authorization with
  | Ok p => inl p
  | Err _ => refuse 401 "invalid actor invocation ticket"
  end.

Definition MAX_SAFE_INTEGER : N := 9007199254740991.

Definition validate_host_request (p : ActorPrincipal) (host session : bytes) actor (owner_epoch : N) : answer unit :=
  guard (negb ((owner_epoch =? 0)%N || (MAX_SAFE_INTEGER <? owner_epoch)%N)) 400 "actor ownership capability is incomplete";;
  guard ((pr_host_id p == host) && (pr_session_id p == session) && (pr_actor p == actor)) 403
    "actor credential belongs to another actor or host session";;
  match pr_invocation p with
  | Some c =>
      guard ((cap_actor c == actor) && (cap_host_id c == host) && (cap_owner_epoch c =? owner_epoch)%N) 403
        "actor invocation does not match its direct capability"
  | None => inl ()
  end.

Definition http_authorize svc (p : ActorPrincipal) actor (owner_epoch : N) : answer unit :=
  bad_request (validate_actor actor);;
  validate_host_request p (hs_host_id svc) (hs_session_id svc) actor owner_epoch;;
  guard (actor == hs_actor svc) 403 "actor host serves another actor".

Definition reserved_method (m : bytes) : bool :=
  bool_decide (m ∈ [b"onConnect"; b"onMessage"; b"onDisconnect"; b"connect"; b"broadcast"; b"then"]).

Definition authorize_grant (grant : option InvocationGrant) (method : option bytes) : answer unit :=
  match grant with
  | Some g =>
      guard (match method with
             | Some m => negb (reserved_method m) && existsb (λ allowed, allowed == m) (gr_methods g)
             | None => false
             end) 403 "operation is outside the actor grant"
  | None => inl ()
  end.

Definition principal_grant (p : ActorPrincipal) : option InvocationGrant := c ← pr_invocation p; cap_grant c.

(** ** Execution *)

(** [publish] is what [HostSockets::publish] answers. *)
Definition execute_reply (publish : list ActorSocketEffect → result unit) (res : result ActorExecutionResult)
    : InvocationReply :=
  match res with
  | Ok (Completed v effects) =>
      match effects, publish effects with
      | _ :: _, Err _ => ReplyFailed (b"outcome_unknown") "actor completed but socket effects could not be delivered"
      | _, _ => ReplyCompleted v
      end
  | Ok (Failed f) => ReplyFailed (failure_code f) (failure_message f)
  | Ok HostUnavailable => ReplyNotExecuted
  | Err _ => ReplyFailed (b"unavailable") "actor could not start because its state was unavailable"
  end.

Definition socket_reply (res : result ActorExecutionResult) : SocketEventReply :=
  match res with
  | Ok (Completed _ effects) => EventCompleted effects
  | Ok HostUnavailable => EventNotExecuted
  | Ok (Failed f) => EventFailed (failure_message f)
  | Err e => EventFailed e
  end.

(** [invoke] *)
Definition http_invoke svc (now : Z) actor (authorization : bytes) (body : answer InvokeRequest)
    (publish : list ActorSocketEffect → result unit) : handler (answer InvocationReply) :=
  match
    p ← http_authenticate svc now authorization;
    request ← body;
    http_authorize svc p actor (ivr_owner_epoch request);;
    mret (p, request)
  with
  | inr e => Answer (inr e)
  | inl (p, request) =>
      match authorize_grant (principal_grant p) (Some (ivr_method request)) with
      | inr e => Answer (inl (ReplyFailed (b"forbidden") (http_message e)))
      | inl _ =>
          let inv := {| inv_request_id := ivr_request_id request; inv_actor := actor; inv_method := ivr_method request;
                        inv_args := ivr_args request |} in
          match bad_request (validate_invocation inv) with
          | inr e => Answer (inr e)
          | inl _ => Submit (MethodOperation inv) (ivr_owner_epoch request) (λ res, inl (execute_reply publish res))
          end
      end
  end.

(** [socket_event] *)
Definition http_socket_event svc (now : Z) actor (authorization : bytes) (request : SocketEventRequest)
    : handler (answer SocketEventReply) :=
  match
    p ← http_authenticate svc now authorization;
    http_authorize svc p actor (ser_owner_epoch request);;
    authorize_grant (principal_grant p) None;;
    guard (sock_actor (ser_invocation request) == actor) 403 "socket event actor mismatch"
  with
  | inr e => Answer (inr e)
  | inl _ => Submit (ActorHost.SocketOperation (ser_invocation request)) (ser_owner_epoch request) (λ res, inl (socket_reply res))
  end.

(** [execute_initial] of the operation a host is started with, before its reply is
    printed; [now] is the clock in milliseconds. *)
Definition execute_initial svc (now : result N) (request : InitialRequest) (owner_epoch : N)
    (publish : list ActorSocketEffect → result unit) : handler (result (InvocationReply + SocketEventReply)) :=
  match request with
  | InitialInvoke inv grant =>
      match
        ensure (inv_actor inv == hs_actor svc) "assignment operation actor mismatch";;
        validate_invocation inv;;
        now ← now;
        ctx (fits_i64 (Z.of_N (now / 1000))) "out of range integral type conversion attempted"
      with
      | Err e => Answer (Err e)
      | Ok now =>
          if (if authorize_grant grant (Some (inv_method inv)) is inr _ then true else false) ||
             from_option (λ g, gr_expires_at g <=? now) false grant
          then Answer (Ok (inl (ReplyFailed (b"forbidden") "operation is outside the actor grant")))
          else Submit (MethodOperation inv) owner_epoch (λ res, Ok (inl (execute_reply publish res)))
      end
  | InitialSocket inv =>
      if sock_actor inv == hs_actor svc then
        Submit (ActorHost.SocketOperation inv) owner_epoch (λ res, Ok (inr (socket_reply res)))
      else Answer (Err "assignment operation actor mismatch")
  end.
End http.
#[global] Arguments Answer {_ _}.
#[global] Arguments Submit {_ _}.
