(* ===== verification/Credentials.v ===== *)
(** * What a credential opens

    Of the tokens of [Tokens] and the checks of [HostHttp]: the token with which the
    control plane sends an invocation to a host is good for that host, session,
    actor and epoch alone, for a minute at most, and never as the credential of a
    host; a socket ticket is good for its actor until its time is over. *)

From S2P Require Import Prelude Text Names Payload StateLog Protocol ActorHost Tokens HostHttp.
Local Open Scope Z_scope.

Section credentials.
Context `{JsonObjects} `{!Json Value} `{!StandardBase64} `{!UuidParse} `{!Jwt} `{!JwtLaws}.
Context (url_parse : bytes → result Url).
Implicit Types (u : ActorJwtIssuer) (svc : ActorHostHttpService).

Lemma find_own_key u k : find_key k (issuer_keys u) = Some (public_of (is_encoding_key u)) ↔ k = is_key_id u.
Proof. unfold issuer_keys. simpl. case_bool_decide; naive_solver. Qed.

Lemma bearer_Ok a t : bearer_token a = Ok t → a = b"Bearer " ++ t.
Proof. unfold bearer_token. intros. inv_ok. subst. by apply strip_prefix_Some. Qed.

Lemma bearer_of t : t ≠ [] → is_trimmed t = true → bearer_token (b"Bearer " ++ t) = Ok t.
Proof.
  intros Ht Htr. unfold bearer_token. rewrite strip_prefix_app. simpl. rewrite Htr, bool_decide_false by done. done.
Qed.

(** Authentication with the keys of the issuer reads what the issuer signed. *)
Lemma verified_signed u c t v now p :
  sign u (ActorClaims c) = Ok t → vf_public_keys v = issuer_keys u →
  authenticate_authorization v now (b"Bearer " ++ t) = Ok p → validate_claims v now c = Ok p.
Proof.
  unfold sign, authenticate_authorization, verify_with_header. intros Hs Hk Hv. inv_ok.
  match goal with E : bearer_token _ = _ |- _ => apply bearer_Ok, app_inv_head in E as <- end.
  match goal with
  | Eh : jwt_header _ = Ok _, Ek : hd_kid _ = Some _, Ef : find_key _ _ = Some _, Ed : jwt_decode _ _ _ _ = Ok _ |- _ =>
      rewrite (jwt_header_encode _ _ _ _ Hs) in Eh; injection Eh as <-; injection Ek as <-; rewrite Hk in Ef;
      rewrite (proj2 (find_own_key u _) eq_refl) in Ef; injection Ef as <-;
      rewrite (jwt_decode_signed _ _ _ _ _ _ _ Hs Ed) in *
  end.
  done.
Qed.

(** A token that is signed, current, and meant for the audience of the verifier is
    judged by its claims. *)
Lemma signed_verified u c t v now :
  sign u (ActorClaims c) = Ok t → vf_public_keys v = issuer_keys u → accepts (vf_validation v) now (ActorClaims c) →
  authenticate_authorization v now (b"Bearer " ++ t) = validate_claims v now c.
Proof.
  intros Hs Hk Ha. destruct (jwt_text _ _ _ _ Hs) as [Hne Htr]. unfold authenticate_authorization, verify_with_header.
  rewrite (bearer_of _ Hne Htr). step_ok. rewrite (jwt_header_encode _ _ _ _ Hs). simpl.
  rewrite Hk, (proj2 (find_own_key u _) eq_refl). simpl. by rewrite (jwt_decode_encode _ _ _ _ _ _ Hs Ha).
Qed.

(** ** Invocation tokens *)

(** The claims of [issue_invocation_target]. *)
Definition target_claims u (now : Z) (actor : ActorKey) (host session config_key region : bytes) (epoch : N)
    (grant : option InvocationGrant) (route : bytes) (expires_at : Z) : ActorJwtClaims := {|
  cl_organization_id := None; cl_actor := actor; cl_iss := is_issuer u; cl_aud := [is_invocation_audience u];
  cl_sub := host; cl_process_id := host; cl_session_id := session; cl_region := region;
  cl_host_config_key := Some config_key; cl_scope := if grant is Some _ then delegated_scope else b"actor:invoke";
  cl_iat := now; cl_nbf := now; cl_exp := expires_at; cl_telemetry := None;
  cl_invocation := Some {| cap_route := route; cap_actor := actor; cap_host_id := host; cap_owner_epoch := epoch;
                           cap_grant := grant |} |}.

Lemma fits_Some z z' : fits_i64 z = Some z' → z' = z ∧ i64_min ≤ z ≤ i64_max.
Proof. unfold fits_i64. destruct (i64_min <=? z) eqn:?, (z <=? i64_max) eqn:?; simpl; intros [= <-]; lia. Qed.

Lemma issued_target u now_ms actor host session key region epoch grant route t :
  issue_invocation_target url_parse u now_ms actor host session key region epoch grant route = Ok t →
  let now := Z.quot now_ms 1000 in
  ∃ origin exp, sign u (ActorClaims (target_claims u now actor host session key region epoch grant origin exp)) =
      Ok (issued_token t) ∧
    issued_expires_at_ms t = exp * 1000 ∧
    (0 < epoch)%N ∧ now < exp ∧ exp ≤ saturating_add_i64 now 60 ∧
    exp ≤ saturating_add_i64 now (Z.of_N (as_secs (is_max_lifetime u))) ∧
    (∀ g, grant = Some g → exp ≤ gr_expires_at g) ∧ validate_actor actor = Ok () ∧ validate_region region = Ok ().
Proof.
  unfold issue_invocation_target, issue. intros Hi. inv_ok. simpl in *.
  repeat match goal with E : fits_i64 _ = Some _ |- _ => apply fits_Some in E as [-> ?] end.
  repeat match goal with x : unit |- _ => destruct x end. subst. simpl.
  eexists _, _. split; [unfold target_claims; done|]. change (Z.of_N (as_secs INVOCATION_TARGET_TTL)) with 60 in *.
  split_and!; try done; try lia. intros g ->. simpl in *. lia.
Qed.

Lemma validated_claims v now c p :
  validate_claims v now c = Ok p →
  now < cl_exp c ∧ valid_scope (vf_purpose v) c = true ∧
  p = {| pr_organization_id := cl_organization_id c; pr_actor := cl_actor c; pr_host_id := cl_process_id c;
         pr_session_id := cl_session_id c; pr_region := cl_region c; pr_host_config_key := cl_host_config_key c;
         pr_invocation := cl_invocation c |}.
Proof.
  unfold validate_claims. intros. inv_ok. repeat match goal with E : (_ <? _) = true |- _ => apply Z.ltb_lt in E end. done.
Qed.

(** No invocation token authenticates a host to the control plane. *)
Lemma target_not_authority u now actor host session key region epoch grant route exp :
  valid_scope ForControlPlane (target_claims u now actor host session key region epoch grant route exp) = false.
Proof. destruct grant; vm_compute; reflexivity. Qed.

Lemma target_scope_valid u now actor host session key region epoch grant route exp :
  valid_scope ForInvocation (target_claims u now actor host session key region epoch grant route exp) = true.
Proof. destruct grant; vm_compute; reflexivity. Qed.

Lemma guard_inl c status message x : guard c status message = inl x ↔ c = true.
Proof. unfold guard, refuse. destruct c, x; naive_solver. Qed.

Lemma bind_inl {A B} (m : answer A) (f : A → answer B) y : m ≫= f = inl y ↔ ∃ x, m = inl x ∧ f x = inl y.
Proof. destruct m; simpl; naive_solver. Qed.

Lemma authenticated svc now authorization p :
  http_authenticate svc now authorization = inl p → authenticate_authorization (hs_auth svc) now authorization = Ok p.
Proof. unfold http_authenticate. case_match; naive_solver. Qed.

Lemma authorized svc p actor epoch :
  http_authorize svc p actor epoch = inl () →
  pr_host_id p = hs_host_id svc ∧ pr_session_id p = hs_session_id svc ∧ pr_actor p = actor ∧ actor = hs_actor svc ∧
  ∀ c, pr_invocation p = Some c → cap_owner_epoch c = epoch.
Proof.
  unfold http_authorize, validate_host_request. intros Ha. repeat setoid_rewrite bind_inl in Ha.
  destruct Ha as (x & _ & [] & (y & _ & z & Hown & Hcap) & Hserves). apply guard_inl in Hown, Hserves. inv_ok.
  split_and!; try done. intros c E. rewrite E in Hcap. apply guard_inl in Hcap. inv_ok. done.
Qed.

Lemma granted grant method :
  authorize_grant grant (Some method) = inl () →
  ∀ g, grant = Some g → method ∈ gr_methods g ∧ reserved_method method = false.
Proof.
  intros Hg g ->. apply guard_inl in Hg. inv_ok. split; [|done].
  match goal with E : existsb _ _ = true |- _ => apply existsb_exists in E as (m & Hm & E) end. inv_ok. subst.
  by apply list_elem_of_In.
Qed.

Lemma grant_allows grant method :
  (∀ g, grant = Some g → method ∈ gr_methods g ∧ reserved_method method = false) →
  authorize_grant grant (Some method) = inl ().
Proof.
  intros Hg. destruct grant as [g|]; [|done]. destruct (Hg g eq_refl) as [Hm Hr]. apply guard_inl. rewrite Hr. simpl.
  apply existsb_exists. exists method. split; [by apply list_elem_of_In|]. by apply bool_decide_eq_true.
Qed.

(** What [http_invoke] submits, and who asked for it. *)
Lemma http_invoke_submits svc now actor authorization body publish o epoch k :
  http_invoke svc now actor authorization body publish = Submit o epoch k →
  ∃ p request, authenticate_authorization (hs_auth svc) now authorization = Ok p ∧ body = inl request ∧
    http_authorize svc p actor (ivr_owner_epoch request) = inl () ∧ epoch = ivr_owner_epoch request ∧
    authorize_grant (principal_grant p) (Some (ivr_method request)) = inl () ∧
    o = MethodOperation {| inv_request_id := ivr_request_id request; inv_actor := actor;
                           inv_method := ivr_method request; inv_args := ivr_args request |}.
Proof.
  unfold http_invoke. destruct (http_authenticate _ _ _) as [p|] eqn:Ep; simpl; [|done].
  destruct body as [request|]; simpl; [|done]. destruct (http_authorize _ _ _ _) as [[]|] eqn:Ea; simpl; [|done].
  destruct (authorize_grant _ _) as [[]|] eqn:Eg; [|done]. destruct (bad_request _) eqn:Ev; [|done]. intros [= <- <- <-].
  exists p, request. split_and!; try done. by apply authenticated.
Qed.

(** A delegation as the control plane makes it: whose it is, and methods with valid
    names. *)
Definition grant_wf (g : InvocationGrant) : Prop :=
  (0 < len (gr_subject g) ≤ 128)%N ∧ (0 < len (gr_grant_id g) ≤ 128)%N ∧ (len (gr_methods g) ≤ 256)%N ∧
  Forall (λ m, validate_component "delegated method" m 128 = Ok ()) (gr_methods g).

Lemma len_pos {A} (l : list A) : (0 < len l)%N → l ≠ [].
Proof. by intros Hl ->. Qed.

Lemma delegation_valid c now g :
  grant_wf g → cl_exp c ≤ gr_expires_at g → now < gr_expires_at g → validate_delegation c now g = Ok ().
Proof.
  intros (Hs & Hi & Hl & Hm) He Hn. unfold validate_delegation.
  rewrite (proj2 (Z.leb_le _ _)), (proj2 (Z.ltb_lt _ _)) by done. rewrite !(proj2 (N.leb_le _ _)) by apply Hs || apply Hi || done.
  rewrite !bool_decide_false by (apply len_pos; lia). simpl. clear Hs Hi Hl.
  cut (is_ok (mapR (λ m, validate_component "delegated method" m 128) (gr_methods g)) = true); [by destruct (mapR _ _)|].
  induction Hm as [|m ms Hm _ IH]; [done|]. simpl. rewrite Hm. simpl. by destruct (mapR _ ms).
Qed.

(** The claims of a target hold up, at its host and in time. *)
Lemma target_claims_valid u (v : ActorJwtVerifier) issued now actor host session key region epoch grant route exp :
  vf_purpose v = ForInvocation → (N.min 60000 (is_max_lifetime u) ≤ vf_max_lifetime v)%N →
  0 ≤ issued ≤ now → now < exp → exp ≤ saturating_add_i64 issued 60 →
  exp ≤ saturating_add_i64 issued (Z.of_N (as_secs (is_max_lifetime u))) →
  uuid_parse session = true → starts_with (b"host.v3.") host = true → (0 < epoch)%N →
  validate_actor actor = Ok () → validate_region region = Ok () →
  (∀ g, grant = Some g → grant_wf g ∧ exp ≤ gr_expires_at g) →
  validate_claims v now (target_claims u issued actor host session key region epoch grant route exp) =
    Ok {| pr_organization_id := None; pr_actor := actor; pr_host_id := host; pr_session_id := session;
          pr_region := region; pr_host_config_key := Some key;
          pr_invocation := Some {| cap_route := route; cap_actor := actor; cap_host_id := host;
                                   cap_owner_epoch := epoch; cap_grant := grant |} |}.
Proof.
  intros Hp Hm Hnow Hexp H60 Hmax Hu Hh He Ha Hr Hg. unfold validate_claims. rewrite Hp.
  rewrite target_scope_valid.
  assert (host ≠ []) as Hne by (intros ->; done). unfold validate_region in Hr. apply ensure_Ok in Hr.
  unfold saturating_add_i64, saturate_i64, as_secs, i64_min, i64_max in *.
  assert (fits_i64 (exp - issued) = Some (exp - issued)) as Hf.
  { unfold fits_i64, i64_min, i64_max. rewrite (proj2 (andb_true_iff _ _)); [done|]. lia. }
  cbn [target_claims cl_scope cl_sub cl_process_id cl_session_id cl_iat cl_exp cl_actor cl_region cl_invocation].
  rewrite Hu, Hf, Ha, Hh, Hr.
  rewrite (bool_decide_false (host = [])), (bool_decide_true (host = host)) by done.
  unfold validate_capability. cbn [cap_grant cap_host_id cap_actor cap_owner_epoch cl_process_id cl_actor].
  match goal with |- context [match grant with Some g => validate_delegation ?c now g | None => Ok () end] =>
    assert (match grant with Some g => validate_delegation c now g | None => Ok () end = Ok ()) as -> end.
  { destruct grant as [g|]; [|done]. destruct (Hg g eq_refl). apply delegation_valid; [done..|lia]. }
  rewrite (bool_decide_true (host = host)), (bool_decide_true (actor = actor)), Ha by done.
  step_ok. unfold CLOCK_SKEW_SECONDS. unfold ensure.
  assert (Z.to_N (exp - issued) * 1000 ≤ vf_max_lifetime v)%N as Hl.
  { pose proof (N.Div0.mul_div_le (is_max_lifetime u) 1000). assert (Z.to_N (exp - issued) ≤ is_max_lifetime u / 1000)%N; lia. }
  apply N.leb_le in Hl as ->. apply N.ltb_lt in He as ->.
  repeat match goal with |- context [if ?c then Ok () else Err _] => replace c with true by lia end. done.
Qed.

Lemma http_authorize_own svc p actor epoch :
  validate_actor actor = Ok () → (0 < epoch ≤ MAX_SAFE_INTEGER)%N → pr_host_id p = hs_host_id svc →
  pr_session_id p = hs_session_id svc → pr_actor p = actor → hs_actor svc = actor →
  (∀ c, pr_invocation p = Some c → cap_actor c = actor ∧ cap_host_id c = hs_host_id svc ∧ cap_owner_epoch c = epoch) →
  http_authorize svc p actor epoch = inl ().
Proof.
  intros Ha He E1 E2 E3 E4 Hc. unfold http_authorize, validate_host_request. rewrite Ha, E1, E2, E3, E4. simpl.
  rewrite (proj2 (N.eqb_neq _ _)), (proj2 (N.ltb_ge _ _)), !bool_decide_true by lia || done. simpl.
  destruct (pr_invocation p) as [c|]; simpl; [|done]. destruct (Hc c eq_refl) as (-> & -> & ->).
  by rewrite !bool_decide_true, N.eqb_refl.
Qed.

(** ** Socket tickets *)

Lemma wrap_same z : i64_min ≤ z ≤ i64_max → wrap_i64 z = z.
Proof. unfold wrap_i64, i64_min, i64_max. intros Hz. rewrite Z.mod_small; lia. Qed.

(** The ticket of [issue_socket_at]. *)
Definition ticket_of u (g : SocketGrant) (now_ms connect_by : Z) : SocketTicket := {|
  st_iss := is_issuer u; st_aud := socket_audience u; st_scope := b"actor:socket"; st_iat := Z.quot now_ms 1000;
  st_nbf := Z.quot now_ms 1000; st_exp := Z.quot (wrap_i64 (connect_by + 999)) 1000; st_actor := sg_actor g;
  st_region := sg_region g; st_home_region := sg_home_region g; st_metadata := sg_metadata g;
  st_connect_by_ms := connect_by |}.

Lemma issued_socket u g now_ms token connect_by :
  issue_socket_at u g now_ms = Ok (token, connect_by) →
  sign u (SocketClaims (ticket_of u g now_ms connect_by)) = Ok token ∧ validate_grant g = Ok () ∧
  now_ms + 1000 ≤ connect_by ≤ now_ms + 60000 ∧ connect_by ≤ i64_max.
Proof.
  unfold issue_socket_at, duration_millis. intros Hi. inv_ok.
  repeat match goal with E : fits_i64 _ = Some _ |- _ => apply fits_Some in E as [-> ?] end.
  simplify_eq.
  repeat match goal with x : unit |- _ => destruct x end. split_and!; try done; lia.
Qed.

(** A socket ticket reads back as it was granted, from the second in which it was
    issued until its time to connect is over, at most a minute later, and never
    outside that window. *)
Theorem socket_ticket_window u (g : SocketGrant) now_ms token connect_by :
  0 ≤ now_ms → issue_socket_at u g now_ms = Ok (token, connect_by) → (len token ≤ 128 * 1024)%N →
  now_ms < connect_by ≤ now_ms + 60000 ∧
  ∀ t, match verify_at (socket_verifier u) token t with
       | Ok ticket => Z.quot now_ms 1000 * 1000 ≤ t < connect_by ∧ ticket = ticket_of u g now_ms connect_by
       | Err _ => t < Z.quot now_ms 1000 * 1000 ∨ connect_by ≤ t
       end.
Proof.
  intros Hnow Hi Hlen. destruct (issued_socket _ _ _ _ _ Hi) as (Hs & Hg & Hc & Hmax). split; [lia|]. intros t.
  set (ticket := ticket_of u g now_ms connect_by) in *. unfold verify_at. rewrite (jwt_header_encode _ _ _ _ Hs).
  apply N.leb_le in Hlen as ->. step_ok. rewrite bool_decide_true by done. cbn [ctx].
  rewrite (jwt_decode_encode _ _ _ _ _ _ Hs) by (split_and!; [done|by apply list_elem_of_singleton|done..]).
  unfold validate_grant in Hg. inv_ok. repeat match goal with x : unit |- _ => destruct x end.
  pose proof (Z.quot_div_nonneg now_ms 1000 Hnow). pose proof (Z.mul_div_le now_ms 1000). pose proof (Z.mod_pos_bound now_ms 1000).
  pose proof (Z.div_mod now_ms 1000).
  unfold validate_ticket. subst ticket. cbn [ticket_of st_actor st_region st_home_region st_metadata st_scope st_iat st_nbf st_connect_by_ms].
  repeat match goal with E : _ = Ok () |- _ => rewrite E; clear E end. step_ok.
  rewrite !(wrap_same (_ * 1000)), (wrap_same (connect_by - _)) by (unfold i64_min, i64_max in *; lia).
  unfold ensure. destruct (Z.leb_spec (Z.quot now_ms 1000 * 1000) t); simpl; [|by left].
  destruct (Z.ltb_spec t connect_by); simpl; [|by right]. rewrite (proj2 (Z.leb_le _ 61000)) by lia. done.
Qed.

(** ** The host *)

Context (u : ActorJwtIssuer) (v : ActorJwtVerifier) (max_lifetime : N).
(** The verifier of a host, with the keys the control plane publishes. *)
Hypothesis host_verifier :
  from_decoded_public_keys (issuer_keys u) (is_issuer u) (is_invocation_audience u) ForInvocation max_lifetime = Ok v.

(** C23. The token with which an invocation is sent to a host opens this host alone: a
    host that accepts a request with it is the host it was issued for, in the same
    session, serves the same actor under the same epoch, and accepts it at most a
    minute after it was issued; a token that was delegated by a session is good only
    before the session ends, and only for its published methods. The host it was
    issued for accepts it until it expires, delegated or not, for a request the
    grant allows. The control plane never takes it as the credential of a host. *)
Theorem invocation_token_opens_one_host now_ms actor host session key region epoch grant route t :
  0 ≤ now_ms → issue_invocation_target url_parse u now_ms actor host session key region epoch grant route = Ok t →
  let authorization := b"Bearer " ++ issued_token t in
  let issued := Z.quot now_ms 1000 in
  (∀ svc now a request publish o e k,
     hs_auth svc = v → http_invoke svc now a authorization (inl request) publish = Submit o e k →
     hs_host_id svc = host ∧ hs_session_id svc = session ∧ hs_actor svc = actor ∧ a = actor ∧ e = epoch ∧
     now < issued + 60 ∧
     (∀ g, grant = Some g → now < gr_expires_at g ∧ ivr_method request ∈ gr_methods g ∧
       reserved_method (ivr_method request) = false) ∧
     o = MethodOperation {| inv_request_id := ivr_request_id request; inv_actor := actor;
                            inv_method := ivr_method request; inv_args := ivr_args request |}) ∧
  (issued * 1000 < issued_expires_at_ms t ∧ ∀ svc now request publish,
     hs_auth svc = v → hs_host_id svc = host → hs_session_id svc = session → hs_actor svc = actor →
     (∀ g, grant = Some g → grant_wf g ∧ ivr_method request ∈ gr_methods g ∧ reserved_method (ivr_method request) = false) →
     issued ≤ now → now * 1000 < issued_expires_at_ms t → (N.min 60000 (is_max_lifetime u) ≤ max_lifetime)%N →
     uuid_parse session = true → starts_with (b"host.v3.") host = true →
     ivr_owner_epoch request = epoch → (epoch ≤ MAX_SAFE_INTEGER)%N →
     let inv := {| inv_request_id := ivr_request_id request; inv_actor := actor; inv_method := ivr_method request;
                   inv_args := ivr_args request |} in
     validate_invocation inv = Ok () →
     ∃ k, http_invoke svc now actor authorization (inl request) publish = Submit (MethodOperation inv) epoch k) ∧
  (∀ verifier now, vf_public_keys verifier = issuer_keys u → vf_purpose verifier = ForControlPlane →
     is_ok (authenticate_authorization verifier now authorization) = false).
Proof.
  intros Hpos Hi. assert (0 ≤ Z.quot now_ms 1000) as Hq by (apply Z.quot_pos; lia). simpl.
  destruct (issued_target _ _ _ _ _ _ _ _ _ _ _ Hi) as (origin & exp & Hs & Hms & He & Hnow & H60 & Hmax & Hg & Hva & Hvr).
  assert (vf_public_keys v = issuer_keys u ∧ vf_purpose v = ForInvocation ∧ vf_max_lifetime v = max_lifetime ∧
    vf_validation v = {| va_issuer := is_issuer u; va_audience := is_invocation_audience u; va_leeway := CLOCK_SKEW_SECONDS;
                         va_exp := true; va_nbf := true |}) as (Hk & Hp & Hm & Hv).
  { unfold from_decoded_public_keys in host_verifier. inv_ok. by subst. }
  split; [|split].
  - intros svc now a request publish o e k Hauth Hsub.
    destruct (http_invoke_submits _ _ _ _ _ _ _ _ _ Hsub) as (p & request' & Ha & [= <-] & Hz & -> & Hgr & ->).
    rewrite Hauth in Ha. pose proof (verified_signed _ _ _ _ _ _ Hs Hk Ha) as Hc.
    destruct (validated_claims _ _ _ _ Hc) as (Hlt & _ & ->). simpl in Hlt.
    destruct (authorized _ _ _ _ Hz) as (Eh & Es & Ea & Ea' & Ee). simpl in *. subst a.
    split_and!; try done.
    + symmetry. by apply (Ee _ eq_refl).
    + unfold saturating_add_i64, saturate_i64, i64_min, i64_max in *. lia.
    + intros g Eg. split; [specialize (Hg _ Eg); lia|]. by apply (granted _ _ Hgr).
  - rewrite Hms. split; [lia|]. intros svc now request publish Hauth Eh Es Ea Hgr Hn Hlast Hmx Hu Hh Ee Hepoch Hinv.
    unfold http_invoke, http_authenticate. rewrite Hauth.
    rewrite (signed_verified _ _ _ _ _ Hs Hk), target_claims_valid; rewrite ?Hp, ?Hm; try done; try lia.
    2: { intros g Eg. destruct (Hgr g Eg) as [? _]. auto. }
    2: { rewrite Hv. unfold accepts, CLOCK_SKEW_SECONDS. simpl. split_and!; [done|by apply list_elem_of_singleton|lia..]. }
    simpl. rewrite (http_authorize_own svc); rewrite ?Ee, ?Eh, ?Es; simpl; [|done..|naive_solver].
    rewrite (grant_allows grant) by naive_solver. rewrite Hinv. simpl. rewrite Ee. by eexists.
  - intros w now Hwk Hwp. destruct (authenticate_authorization w now _) as [p|] eqn:Ea; [|done].
    pose proof (verified_signed _ _ _ _ _ _ Hs Hwk Ea) as Hc. destruct (validated_claims _ _ _ _ Hc) as (_ & Hsc & _).
    by rewrite Hwp, target_not_authority in Hsc.
Qed.
End credentials.
