(* ===== verification/Dispatch.v ===== *)
(** * Sending an invocation to its host

    [src/src/control_plane/invocation.rs], the errors of
    [src/src/control_plane/public_api.rs], and the dispatch of socket events in
    [src/src/control_plane/socket_gateway.rs]: the control plane finds the host of an
    actor, posts the request, and starts over when the request was not carried out.

    A round of such a loop is what the rest of the system does to it: how the actor
    was routed, what became of the request, and the clock afterwards. The loops are
    functions of their rounds, and record what they send and which routes they
    remove. *)

From S2P Require Import Prelude Text Names Payload StateLog Effects Lifecycle Admission Routes Routing Protocol ActorHost Tokens HostHttp.
Local Open Scope N_scope.

(** ** Errors of the public interface *)

Record ApiError := {
  api_status : N;
  api_code : bytes;
  api_message : string;
  retry_after_seconds : option N;
}.

Definition api_error (status : N) (code : bytes) (message : string) : ApiError :=
  {| api_status := status; api_code := code; api_message := message; retry_after_seconds := None |}.
Definition api_bad_request (message : string) : ApiError := api_error 400 (b"invalid_request") message.
Definition api_unauthorized (message : string) : ApiError := api_error 401 (b"unauthenticated") message.
Definition api_conflict (message : string) : ApiError := api_error 409 (b"conflict") message.
Definition api_unavailable (message : string) : ApiError := api_error 503 (b"unavailable") message.
Definition api_internal (message : string) : ApiError := api_error 500 (b"internal") message.

Inductive service_failure :=
| OutcomeUnknownFailure (message : string)
| AccessDisabledFailure (message : string)
| AdmissionRejectedFailure (r : AdmissionRejected) (message : string)
| RegionConflictFailure (message : string)
| OtherFailure (message : string).

(** [ApiError::access] *)
Definition api_access (e : service_failure) : ApiError :=
  match e with
  | AccessDisabledFailure message => api_error 403 (b"access_disabled") message
  | OutcomeUnknownFailure message | AdmissionRejectedFailure _ message | RegionConflictFailure message
  | OtherFailure message => api_internal message
  end.

(** [ApiError::assignment] *)
Definition api_assignment (e : service_failure) : ApiError :=
  match e with
  | RegionConflictFailure message => api_conflict message
  | OutcomeUnknownFailure message | AdmissionRejectedFailure _ message | AccessDisabledFailure message
  | OtherFailure message => api_bad_request message
  end.

(** [ApiError::routing] *)
Definition api_routing (e : service_failure) : ApiError :=
  match e with
  | OutcomeUnknownFailure message => api_error 502 (b"outcome_unknown") message
  | AccessDisabledFailure _ => api_access e
  | AdmissionRejectedFailure (Quota _) message => api_error 429 (b"actor_quota_exceeded") message
  | AdmissionRejectedFailure (Rate seconds) message =>
      {| api_status := 429; api_code := b"actor_start_rate_limited"; api_message := message;
         retry_after_seconds := Some seconds |}
  | RegionConflictFailure message => api_conflict message
  | OtherFailure message => api_unavailable ("actor host is unavailable: " ++ message)%string
  end.

Definition outcome_unknown : ApiError :=
  api_error 502 (b"outcome_unknown") "actor invocation was dispatched but its outcome could not be confirmed".

(** ** Requests and their responses *)

(** What [reqwest] answers to a request: no connection, another failure, or a
    response, whose body may not be readable. *)
Inductive response (A : Type) :=
| ConnectFailed
| SendFailed
| Responded (status : N) (body : option A).
Arguments ConnectFailed {A}. Arguments SendFailed {A}. Arguments Responded {A}.

Definition is_success (status : N) : bool := (200 <=? status) && (status <? 300).

(** [trim_end_matches('/')] *)
Fixpoint trim_end_slash (s : bytes) : bytes :=
  match s with
  | [] => []
  | x :: s => match trim_end_slash s with
              | [] => if x == x2f then [] else [x]
              | s => x :: s
              end
  end.

Definition actor_url (route : bytes) (actor : ActorKey) (operation : bytes) : bytes :=
  trim_end_slash route ++ b"/v1/projects/" ++ project_id actor ++ b"/actors/" ++ actor_name actor ++ b"/" ++
  actor_id actor ++ b"/" ++ operation.

Record Post (R : Type) := {
  post_url : bytes;
  post_token : bytes;
  post_body : R;
  post_state : HostState;
}.
Arguments post_url {_} _. Arguments post_token {_} _. Arguments post_body {_} _. Arguments post_state {_} _.

Inductive action (R : Type) :=
| Posted (p : Post R)
| RouteRemoved (actor : ActorKey) (id : RouteIdentity).
Arguments Posted {R}. Arguments RouteRemoved {R}.

(** [CONTROL_PLANE_REQUEST_TIMEOUT] and the wait between two tries, in milliseconds *)
Definition CONTROL_PLANE_REQUEST_TIMEOUT : N := 30000.
Definition RETRY_WAIT : N := 100.

Definition colder {V} (t : ActorTarget V) (hs : HostState) : HostState :=
  match target_state t with Cold => Cold | Warm => hs end.

Section dispatch.
Context `{JsonObjects} `{!StandardBase64}.
Abbreviation ActorTarget := (ActorTarget Value).
Implicit Types (inv : ActorInvocation) (t : ActorTarget) (hs : HostState).

(** [ApiError::into_outcome] *)
Definition into_outcome (e : ApiError) : Value :=
  value_object [(b"type", value_string (b"failed")); (b"code", value_string (api_code e));
                (b"message", value_string (b (api_message e)))].

(** [value[key].as_str()] *)
Definition field_str (v : Value) (key : bytes) : option bytes := value_get v key ≫= value_str.
Definition reply_type (v : Value) : option bytes := field_str v (b"type").

Definition validate_reply (v : Value) : Value + ApiError :=
  let type s := bool_decide (reply_type v = Some s) in
  if type (b"not_executed") then
    if bool_decide (field_str v (b"reason") ∈ [Some (b"host_unavailable"); Some (b"upstream_not_reached")]) then inl v
    else inr outcome_unknown
  else if type (b"completed") then
    if bool_decide (is_Some (value_get v (b"result"))) then inl v else inr outcome_unknown
  else if type (b"failed") then
    if from_option (λ code, code != []) false (field_str v (b"code")) &&
       bool_decide (is_Some (field_str v (b"message"))) then inl v
    else inr outcome_unknown
  else inr outcome_unknown.

(** [send_invocation]: the request, and what its response means. *)
Definition invocation_post inv t hs : Post InvokeRequest :=
  {| post_url := actor_url (target_route t) (inv_actor inv) (b"invoke"); post_token := target_token t;
     post_body := {| ivr_request_id := inv_request_id inv; ivr_owner_epoch := target_epoch t;
                     ivr_method := inv_method inv; ivr_args := inv_args inv |};
     post_state := hs |}.

Definition not_reached : Value :=
  value_object [(b"type", value_string (b"not_executed")); (b"reason", value_string (b"upstream_not_reached"))].
Definition unauthenticated : Value := value_object [(b"type", value_string (b"unauthenticated"))].

Definition read_response (r : response Value) : Value + ApiError :=
  match r with
  | ConnectFailed => inl not_reached
  | SendFailed => inr outcome_unknown
  | Responded status body =>
      if status =? 401 then inl unauthenticated
      else if negb (is_success status) then inr outcome_unknown
      else match body with Some v => validate_reply v | None => inr outcome_unknown end
  end.

Definition not_carried_out (v : Value) : bool :=
  bool_decide (reply_type v ∈ [Some (b"not_executed"); Some (b"unauthenticated")]).

(** [dispatch]: the request is sent, and a route that did not lead to the actor
    removed. *)
Definition dispatch inv t hs (r : response Value) : list (action InvokeRequest) * (Value + ApiError) :=
  let outcome := read_response r in
  (Posted (invocation_post inv t hs) ::
     if match outcome with inl v => not_carried_out v | inr _ => true end
     then [RouteRemoved (inv_actor inv) (target_identity t)] else [],
   outcome).

(** ** The loop *)

Record Round := {
  rd_resolved : ActorTarget + ApiError;
  rd_response : response Value;
  rd_now : N;
}.

(** One try, when the actor is routed to [t]. *)
Definition settle_try inv t hs (r : response Value) : list (action InvokeRequest) * (Value + ApiError) :=
  match target_reply t with
  | Some reply =>
      let outcome := validate_reply reply in
      (if match outcome with inl v => bool_decide (reply_type v = Some (b"not_executed")) | inr _ => true end
       then [RouteRemoved (inv_actor inv) (target_identity t)] else [],
       outcome)
  | None => dispatch inv t hs r
  end.

(** [settle]: no outcome means that the loop goes on after these rounds. *)
Fixpoint settle inv (deadline : N) hs (rounds : list Round)
    : list (action InvokeRequest) * option (Value + ApiError) :=
  match rounds with
  | [] => ([], None)
  | r :: rounds =>
      match rd_resolved r with
      | inr e => ([], Some (inr e))
      | inl t =>
          let hs := colder t hs in
          let '(l, outcome) := settle_try inv t hs (rd_response r) in
          match outcome with
          | inr e => (l, Some (inr e))
          | inl v =>
              if negb (not_carried_out v) || (deadline <=? rd_now r) then (l, Some (inl v))
              else let '(l', o) := settle inv deadline hs rounds in (l ++ l', o)
          end
      end
  end.

(** [resolve_and_dispatch_from_host], [invoke_from_host] *)
Definition resolve_and_dispatch_from_host inv (started : N) (rounds : list Round)
    : list (action InvokeRequest) * option (Value + ApiError) :=
  match validate_invocation inv with
  | Err e => ([], Some (inr (api_bad_request e)))
  | Ok _ => settle inv (started + CONTROL_PLANE_REQUEST_TIMEOUT) Warm rounds
  end.

Definition invoke_from_host inv (started : N) (rounds : list Round) : list (action InvokeRequest) * option Value :=
  let '(l, o) := resolve_and_dispatch_from_host inv started rounds in
  (l, (λ r, match r with inl v => v | inr e => into_outcome e end) <$> o).

(** [invoke] of the public interface: the outcome it answers with. The rounds resolve
    the actor with the credential and the home region of the request. *)
Definition invoke_public (actor : ActorKey) (body : InvokeRequest + ApiError) (started : N) (rounds : list Round)
    : list (action InvokeRequest) * option (Value + ApiError) :=
  match body with
  | inr e => ([], Some (inr e))
  | inl request =>
      let inv := {| inv_request_id := ivr_request_id request; inv_actor := actor; inv_method := ivr_method request;
                    inv_args := ivr_args request |} in
      match validate_invocation inv with
      | Err e => ([], Some (inr (api_bad_request e)))
      | Ok _ => settle inv (started + CONTROL_PLANE_REQUEST_TIMEOUT) Warm rounds
      end
  end.

(** [invoke_alarm] of an alarm with the revision [revision]: one try, whose result is
    whether the alarm was delivered. *)
Definition alarm_invocation (actor : ActorKey) (revision : bytes) : ActorInvocation :=
  {| inv_request_id := b"alarm-" ++ revision; inv_actor := actor; inv_method := b"onAlarm"; inv_args := [] |}.

Definition invoke_alarm (actor : ActorKey) (revision : bytes) (resolved : result ActorTarget) (r : response Value)
    : list (action InvokeRequest) * result unit :=
  match resolved with
  | Err _ => ([], Err "could not route alarm")
  | Ok t =>
      let '(l, outcome) := dispatch (alarm_invocation actor revision) t (target_state t) r in
      (l, match outcome with
          | inr _ => Err "alarm outcome could not be confirmed"
          | inl v => ensure (bool_decide (reply_type v ∈ [Some (b"completed"); Some (b"failed")])) "alarm was not executed"
          end)
  end.

(** ** Socket events *)

Inductive routing_result :=
| RoutedTo (t : ActorTarget)
| HostNotReady
| RoutingFailed (e : string)
| RoutingTimedOut.

(** What happens around one turn of the loop: whether the gateway stops before it,
    while it waits after it, and the time when the turn starts. *)
Record EventRound := {
  er_stopping : bool;
  er_now : N;
  er_routed : routing_result;
  er_response : response SocketEventReply;
  er_stopped : bool;
}.

Context (parse_reply : Value → result SocketEventReply).

Definition event_post (actor : ActorKey) (inv : ActorSocketInvocation) t hs : Post SocketEventRequest :=
  {| post_url := actor_url (target_route t) actor (b"socket-events"); post_token := target_token t;
     post_body := {| ser_owner_epoch := target_epoch t; ser_invocation := inv |}; post_state := hs |}.

Definition unknown_event : string := "socket event outcome unknown; event was not replayed".

(** A turn ends the loop, or leaves the event to be sent again. *)
Inductive turn := Ends (r : result (list ActorSocketEffect)) | Again.

Definition event_reply (reply : SocketEventReply) : turn :=
  match reply with
  | EventCompleted effects => Ends (Ok effects)
  | EventNotExecuted => Again
  | EventFailed message => Ends (Err ("socket handler failed: " ++ message)%string)
  end.

Definition event_try (actor : ActorKey) (inv : ActorSocketInvocation) t hs (r : response SocketEventReply)
    : list (action SocketEventRequest) * turn :=
  let invalidate := [RouteRemoved actor (target_identity t)] in
  match target_reply t with
  | Some reply =>
      match parse_reply reply with
      | Ok reply => (if event_reply reply is Again then invalidate else [], event_reply reply)
      | Err e => ([], Ends (Err e))
      end
  | None =>
      let '(l, next) :=
        match r with
        | ConnectFailed => (invalidate, Again)
        | SendFailed => (invalidate, Ends (Err unknown_event))
        | Responded status body =>
            if (status =? 401) || (status =? 403) then (invalidate, Again)
            else match (if (400 <=? status) && (status <? 600) then None else body) with
                 | Some reply => (if event_reply reply is Again then invalidate else [], event_reply reply)
                 | None => (invalidate, Ends (Err unknown_event))
                 end
        end in
      (Posted (event_post actor inv t hs) :: l, next)
  end.

(** [SocketGateway::dispatch] *)
Fixpoint gateway_dispatch (actor : ActorKey) (inv : ActorSocketInvocation) (deadline : N) hs (rounds : list EventRound)
    : list (action SocketEventRequest) * option (result (list ActorSocketEffect)) :=
  match rounds with
  | [] => ([], None)
  | r :: rounds =>
      if er_stopping r then ([], Some (Err "socket gateway stopping"))
      else if deadline <=? er_now r then ([], Some (Err "actor remained unavailable during socket handoff"))
      else
        let wait hs l := if er_stopped r then (l, Some (Err "socket gateway stopped"))
                         else let '(l', o) := gateway_dispatch actor inv deadline hs rounds in (l ++ l', o) in
        match er_routed r with
        | RoutingTimedOut => ([], Some (Err "actor remained unavailable during socket handoff"))
        | RoutingFailed e => ([], Some (Err e))
        | HostNotReady => wait hs []
        | RoutedTo t =>
            let hs := colder t hs in
            let '(l, next) := event_try actor inv t hs (er_response r) in
            match next with
            | Ends res => (l, Some res)
            | Again => wait hs l
            end
        end
  end.
End dispatch.
