(* ===== verification/DispatchSafety.v ===== *)
(** * An invocation is carried out at most once

    The loops of [Dispatch] against the hosts they talk to: each host is a mailbox
    of [ActorHost] behind the service of [HostHttp]. A request is sent again only
    when the one before it did not run and never will. *)

From S2P Require Import Prelude Text Names Payload StateLog Effects Lifecycle Admission Routes Routing Protocol ActorHost ActorHostSafety Tokens HostHttp Credentials Dispatch.
Local Open Scope N_scope.

(** ** Loops over rounds *)

Section loops.
Context {S R L O : Type} (run : S → list R → list L * option O).
(** [ok] is known of every round, [P] holds of a round after which the loop goes on,
    [Q] of one that ends it, with its outcome. *)
Context (ok P : R → Prop) (Q : R → O → Prop).
Hypothesis run_nil : ∀ s, run s [] = ([], None).
Hypothesis run_cons : ∀ s x, ok x →
  (∃ l res, Q x res ∧ ∀ xs, run s (x :: xs) = (l, Some res)) ∨
  (∃ s' l, P x ∧ ∀ xs, run s (x :: xs) = let '(l', o) := run s' xs in (l ++ l', o)).

Lemma loop_tried s xs :
  Forall ok xs →
  ∃ tried untried, xs = tried ++ untried ∧ run s xs = run s tried ∧
    match (run s xs).2 with
    | None => untried = [] ∧ Forall P tried
    | Some res => ∃ pre x, tried = pre ++ [x] ∧ Forall P pre ∧ Q x res
    end.
Proof.
  intros Hok. revert s. induction Hok as [|x xs Hx Hok IH]; intros s.
  { exists [], []. rewrite run_nil. split_and!; by try constructor. }
  destruct (run_cons s x Hx) as [(l & res & Hq & E)|(s' & l & Hp & E)].
  - exists [x], xs. rewrite !E. split_and!; [done|done|]. exists [], x. by split_and!; [|constructor|].
  - destruct (IH s') as (tried & untried & Exs & Er & Ho). exists (x :: tried), untried.
    rewrite !E, Er. rewrite Er in Ho. split; [by rewrite Exs|]. split; [done|].
    destruct (run s' tried) as [l' [res|]]; simpl in *.
    + destruct Ho as (pre & y & -> & Hpre & Hq). exists (x :: pre), y. split_and!; [done|by constructor|done].
    + destruct Ho as [-> Ht]. split; [done|by constructor].
Qed.

(** Only the last round can have had an effect that [P] excludes. *)
Lemma tried_once (tried pre : list R) (ran : R → Prop) x i j y z :
  tried = pre ++ [x] → Forall (λ y, ¬ ran y) pre → tried !! i = Some y → tried !! j = Some z → ran y → ran z → i = j.
Proof.
  intros -> Hpre Hi Hj Hy Hz. rewrite Forall_lookup in Hpre.
  apply lookup_snoc_Some in Hi as [[_ Hi]|[-> _]]; [by destruct (Hpre _ _ Hi)|].
  by apply lookup_snoc_Some in Hj as [[_ Hj]|[-> _]]; [destruct (Hpre _ _ Hj)|].
Qed.
End loops.

Section at_most_once.
Context `{JsonObjectLaws} `{!Json Value} `{!StandardBase64} `{!UuidParse} `{!Jwt}.
Abbreviation ActorTarget := (ActorTarget Value).
Implicit Types (inv : ActorInvocation) (t : ActorTarget) (svc : ActorHostHttpService).

(** ** A host that receives a request *)

(** The host's service and mailbox around one request: what happened to the mailbox
    before, when the request arrives, until the answer is taken, and later. *)
Record Handling := {
  h_service : ActorHostHttpService;
  h_seconds : Z;
  h_clock : result N;
  h_publish : list ActorSocketEffect → result unit;
  h_metadata : option Value;
  h_admission : bool;
  h_created : N;
  h_before : list (Moment * event);
  h_moment : Moment;
  h_reply : N;
  h_until : list (Moment * event);
  h_later : list (Moment * event);
}.
Implicit Types h : Handling.

(** Reply channels are distinct. *)
Definition handling_ok h : Prop :=
  NoDup (h_reply h :: sent_replies (h_before h ++ h_until h ++ h_later h)).

(** What the service sends to the mailbox. *)
Definition submitted {A} h (x : handler A) : list (Moment * event) :=
  match x with
  | Submit o epoch _ => [(h_moment h, Sent (RequestMessage {| rq_operation := o; rq_owner_epoch := epoch; rq_reply := h_reply h |}))]
  | Answer _ => []
  end.

Definition mailbox {A} h (x : handler A) : Actor :=
  actor_steps (h_before h ++ submitted h x ++ h_until h) (actor_new (hs_actor (h_service h)) (h_admission h) (h_created h)).

Definition host_answers {A} h (x : handler A) : option A :=
  match x with Answer y => Some y | Submit _ _ k => k <$> client_answer (mailbox h x) (h_reply h) end.

(** Code of the actor ran for the request, at any time. *)
Definition ran {A} h (x : handler A) : Prop := may_have_run (h_reply h) (actor_steps (h_later h) (mailbox h x)).

Lemma answered_unavailable a n :
  client_answer a n = Some (Ok HostUnavailable) → ∃ r l, Finished r (Ok HostUnavailable) l ∈ ac_log a ∧ rq_reply r = n.
Proof.
  unfold client_answer. intros Hc. apply head_Some in Hc as [l' El].
  assert (Ok HostUnavailable ∈ omap (λ e, match e with
    | Finished r res _ => if rq_reply r =? n then Some res else None
    | Dropped r => if rq_reply r =? n then Some (Ok (Failed outcome_unknown_after_execution)) else None
    | _ => None end) (ac_log a)) as Hin by (rewrite El; by left).
  apply list_elem_of_omap in Hin as (e & He & E).
  destruct e as [id r|r res l|r| |graceful epoch|]; try done; destruct (rq_reply r =? n) eqn:Er; simplify_eq.
  apply N.eqb_eq in Er. by exists r, l.
Qed.

Lemma sent_app es es' : sent_replies (es ++ es') = sent_replies es ++ sent_replies es'.
Proof. apply omap_app. Qed.

(** A request the service answers itself does not reach the actor. *)
Lemma answered_not_run {A} h (y : A) : handling_ok h → ¬ ran h (Answer y).
Proof.
  intros Hok Hr. apply may_have_run_held in Hr. unfold mailbox in Hr. simpl in Hr. rewrite <- actor_steps_app in Hr.
  destruct (accounts_steps ((h_before h ++ h_until h) ++ h_later h) _ (tasks_new (hs_actor (h_service h)) (h_admission h) (h_created h)))
    as [Hh _].
  rewrite Hh in Hr. rewrite <- app_assoc in Hr. by apply NoDup_cons in Hok as [Hn _].
Qed.

(** A request the mailbox declines does not run. *)
Lemma declined_not_run {A} h (x : handler A) :
  handling_ok h → client_answer (mailbox h x) (h_reply h) = Some (Ok HostUnavailable) → ¬ ran h x.
Proof.
  intros Hok Hc. destruct (answered_unavailable _ _ Hc) as (r & l & Hin & Er). unfold ran. rewrite <- Er.
  unfold mailbox in Hin |- *. apply (unavailable_never_runs _ _ _ _ _ _ l); [|exact Hin]. unfold handling_ok in Hok. rewrite !sent_app in *. rewrite <- !app_assoc.
  destruct x as [y|o epoch k]; simpl; [by apply NoDup_cons in Hok as [_ ?]|].
  change (sent_replies (submitted h (Submit o epoch k))) with [h_reply h]. simpl.
  by rewrite <- Permutation_middle.
Qed.

(** So does not a request whose answer only a declined one has. *)
Lemma refused_not_run {A} h (x : handler A) y :
  handling_ok h → host_answers h x = Some y →
  (∀ o epoch k res, x = Submit o epoch k → k res = y → res = Ok HostUnavailable) → ¬ ran h x.
Proof.
  intros Hok Hy Hx. destruct x as [y'|o epoch k]; [by apply answered_not_run|]. apply fmap_Some in Hy as (res & Hc & ->).
  apply declined_not_run; [done|]. by rewrite (Hx _ _ _ res eq_refl eq_refl) in Hc.
Qed.

(** ** Invocations *)

Definition invocation_handler h inv t : handler (answer InvocationReply) :=
  http_invoke (h_service h) (h_seconds h) (inv_actor inv) (b"Bearer " ++ target_token t)
    (inl (post_body (invocation_post inv t Warm))) (h_publish h).

(** The operation a host was started with. *)
Definition initial_handler h inv grant t : handler (result (InvocationReply + SocketEventReply)) :=
  execute_initial (h_service h) (h_clock h) (InitialInvoke inv grant) (target_epoch t) (h_publish h).

(** What became of a request: it did not reach a host; it was sent, but no response
    arrived; a host answered it. *)
Inductive delivery :=
| Unreached
| Lost (h : Handling)
| Delivered (h : Handling).

(** The bodies of errors are not looked at. *)
Definition response_of inv t (d : delivery) : response Value :=
  match d with
  | Unreached => ConnectFailed
  | Lost _ => SendFailed
  | Delivered h =>
      match host_answers h (invocation_handler h inv t) with
      | Some (inl reply) => Responded 200 (Some (reply_value reply (h_metadata h)))
      | Some (inr e) => Responded (http_status e) None
      | None => SendFailed
      end
  end.

Record Attempt := {
  at_target : ActorTarget + ApiError;
  at_grant : option InvocationGrant;
  at_delivery : delivery;
  at_now : N;
}.
Implicit Types x : Attempt.

Definition round_of inv x : Round :=
  {| rd_resolved := at_target x;
     rd_response := match at_target x with inl t => response_of inv t (at_delivery x) | inr _ => SendFailed end;
     rd_now := at_now x |}.

(** Code of the actor ran for this attempt, now or later. *)
Definition attempt_ran inv x : Prop :=
  match at_target x, at_delivery x with
  | inl t, Lost h | inl t, Delivered h =>
      if target_reply t is Some _ then ran h (initial_handler h inv (at_grant x) t) else ran h (invocation_handler h inv t)
  | _, _ => False
  end.

(** The reply a new host sends is the one its service gave. *)
Definition attempt_ok inv x : Prop :=
  match at_delivery x with Lost h | Delivered h => handling_ok h | Unreached => True end ∧
  ∀ t v, at_target x = inl t → target_reply t = Some v →
    ∃ h reply, at_delivery x = Delivered h ∧ host_answers h (initial_handler h inv (at_grant x) t) = Some (Ok (inl reply)) ∧
      v = reply_value reply (h_metadata h).

Definition reply_name (r : InvocationReply) : bytes :=
  match r with ReplyCompleted _ => b"completed" | ReplyFailed _ _ => b"failed" | ReplyNotExecuted => b"not_executed" end.

Lemma reply_type_value r metadata : reply_type (reply_value r metadata) = Some (reply_name r).
Proof.
  unfold reply_type, field_str, reply_value. rewrite value_get_object. destruct r; simpl; apply value_str_string.
Qed.

Lemma not_carried_out_reply r metadata : not_carried_out (reply_value r metadata) = true → r = ReplyNotExecuted.
Proof.
  unfold not_carried_out. rewrite reply_type_value. destruct r; [vm_compute; done..|done].
Qed.

Lemma validated v v' : validate_reply v = inl v' → v' = v.
Proof. unfold validate_reply. intros Hv. repeat case_match; congruence. Qed.

Lemma execute_reply_declined publish res : execute_reply publish res = ReplyNotExecuted → res = Ok HostUnavailable.
Proof. unfold execute_reply. repeat case_match; naive_solver. Qed.

Lemma http_invoke_reply svc now actor authorization body publish o epoch k :
  http_invoke svc now actor authorization body publish = Submit o epoch k → k = λ res, inl (execute_reply publish res).
Proof.
  unfold http_invoke. destruct (mbind _ _) as [[p request]|]; [|done]. destruct (authorize_grant _ _); [|done].
  by destruct (bad_request _); [intros [= _ _ <-]|].
Qed.

Lemma execute_initial_reply svc now inv grant epoch publish o epoch' k :
  execute_initial svc now (InitialInvoke inv grant) epoch publish = Submit o epoch' k →
  k = λ res, Ok (inl (execute_reply publish res)).
Proof. unfold execute_initial. destruct (mbind _ _); [|done]. by destruct (_ || _); [|intros [= _ _ <-]]. Qed.

Lemma invoke_refused h inv t y :
  handling_ok h → host_answers h (invocation_handler h inv t) = Some y →
  match y with inl reply => reply = ReplyNotExecuted | inr _ => True end → ¬ ran h (invocation_handler h inv t).
Proof.
  intros Hok Hy Hr. apply (refused_not_run h _ y Hok Hy). intros o epoch k res Hx <-.
  rewrite (http_invoke_reply _ _ _ _ _ _ _ _ _ Hx) in Hr. by eapply execute_reply_declined.
Qed.

Lemma initial_refused h inv grant t :
  handling_ok h → host_answers h (initial_handler h inv grant t) = Some (Ok (inl ReplyNotExecuted)) →
  ¬ ran h (initial_handler h inv grant t).
Proof.
  intros Hok Hy. apply (refused_not_run h _ _ Hok Hy). intros o epoch k res Hx Hk.
  rewrite (execute_initial_reply _ _ _ _ _ _ _ _ _ Hx) in Hk. injection Hk as Hk. by eapply execute_reply_declined.
Qed.

(** A try whose outcome says that it was not carried out did not run. *)
Lemma try_not_run inv x t hs v :
  attempt_ok inv x → at_target x = inl t → (settle_try inv t hs (response_of inv t (at_delivery x))).2 = inl v →
  not_carried_out v = true → ¬ attempt_ran inv x.
Proof.
  intros [Hh Hi] Et Hv Hn. unfold settle_try in Hv. unfold attempt_ran. rewrite Et.
  destruct (target_reply t) as [reply|] eqn:Er; simpl in Hv.
  { destruct (Hi _ _ Et Er) as (h & r & Ed & Ha & ->). rewrite Ed in *. apply validated in Hv as ->.
    apply not_carried_out_reply in Hn as ->. by apply initial_refused. }
  unfold response_of in Hv. destruct (at_delivery x) as [|h|h]; [by intros []|discriminate Hv|].
  destruct (host_answers h _) as [y|] eqn:Ha; [|discriminate Hv]. eapply invoke_refused; [done|exact Ha|].
  destruct y as [reply|e]; [|done]. cbn in Hv. apply validated in Hv as ->. by eapply not_carried_out_reply.
Qed.

(** [v] is the answer the service of the host gave to this attempt. *)
Definition answered_by inv x (v : Value) : Prop :=
  ∃ t h reply, at_target x = inl t ∧ at_delivery x = Delivered h ∧ v = reply_value reply (h_metadata h) ∧
    if target_reply t is Some _ then host_answers h (initial_handler h inv (at_grant x) t) = Some (Ok (inl reply))
    else host_answers h (invocation_handler h inv t) = Some (inl reply).

(** An outcome other than that it was not carried out is a host's own answer. *)
Lemma try_answered inv x t hs v :
  attempt_ok inv x → at_target x = inl t → (settle_try inv t hs (response_of inv t (at_delivery x))).2 = inl v →
  not_carried_out v = false → answered_by inv x v.
Proof.
  intros [Hh Hi] Et Hv Hn. unfold settle_try in Hv.
  destruct (target_reply t) as [reply|] eqn:Er; simpl in Hv.
  { destruct (Hi _ _ Et Er) as (h & r & Ed & Ha & ->). apply validated in Hv as ->.
    exists t, h, r. rewrite Er. by split_and!. }
  assert (∀ l, not_carried_out (value_object ((b"type", value_string l) :: [])) = false → l ≠ b"unauthenticated") as Hun.
  { intros l Hl ->. revert Hl. unfold not_carried_out, reply_type, field_str. rewrite value_get_object. simpl.
    rewrite value_str_string. done. }
  unfold response_of in Hv. destruct (at_delivery x) as [|h|h] eqn:Ed; [|discriminate Hv|].
  { cbn in Hv. injection Hv as <-. revert Hn. unfold not_carried_out, not_reached, reply_type, field_str.
    rewrite value_get_object. simpl. by rewrite value_str_string. }
  destruct (host_answers h _) as [[reply|e]|] eqn:Ha; [| |discriminate Hv].
  - cbn in Hv. apply validated in Hv as ->. exists t, h, reply. rewrite Er. by split_and!.
  - simpl in Hv. destruct (http_status e =? 401); [|by destruct (is_success _)]. injection Hv as <-.
    by destruct (Hun _ Hn).
Qed.

Abbreviation settled inv deadline hs xs := (settle inv deadline hs (round_of inv <$> xs)).

Lemma settle_nil inv deadline hs : settled inv deadline hs [] = ([], None).
Proof. done. Qed.

(** What a try comes to, for the loop. *)
Lemma settle_cons inv deadline hs x :
  attempt_ok inv x →
  (∃ l res, (∀ v, res = inl v → if not_carried_out v then ¬ attempt_ran inv x else answered_by inv x v) ∧
     ∀ xs, settled inv deadline hs (x :: xs) = (l, Some res)) ∨
  (∃ hs' l, (¬ attempt_ran inv x ∧ at_now x < deadline) ∧
     ∀ xs, settled inv deadline hs (x :: xs) = let '(l', o) := settled inv deadline hs' xs in (l ++ l', o)).
Proof.
  intros Hx. cbn [fmap list_fmap settle round_of rd_resolved rd_response rd_now].
  destruct (at_target x) as [t|e] eqn:Et; [|left; eexists _, _; split; [|done]; by intros v [=]].
  pose proof (λ v, try_not_run inv x t (colder t hs) v Hx Et) as Hrun.
  pose proof (λ v, try_answered inv x t (colder t hs) v Hx Et) as Hans.
  destruct (settle_try inv t (colder t hs) (response_of inv t (at_delivery x))) as [l [v|e]];
    [|left; eexists _, _; split; [|done]; by intros v [=]]. specialize (Hrun v eq_refl). specialize (Hans v eq_refl).
  destruct (not_carried_out v) eqn:En; simpl;
    [|left; eexists _, _; split; [|done]; intros v' [= <-]; rewrite En; by apply Hans].
  destruct (N.leb_spec deadline (at_now x)).
  - left. eexists _, _. split; [|done]. intros v' [= <-]. rewrite En. by apply Hrun.
  - right. eexists _, _. split; [|done]. split; [by apply Hrun|done].
Qed.


(** ** Socket events *)

Context (parse_reply : Value → result SocketEventReply).
Implicit Types e : ActorSocketInvocation.

Definition event_handler h (actor : ActorKey) e t : handler (answer SocketEventReply) :=
  http_socket_event (h_service h) (h_seconds h) actor (b"Bearer " ++ target_token t) (post_body (event_post actor e t Warm)).

Definition initial_event h e t : handler (result (InvocationReply + SocketEventReply)) :=
  execute_initial (h_service h) (h_clock h) (InitialSocket e) (target_epoch t) (h_publish h).

(** One turn of the gateway's loop. *)
Record EventAttempt := {
  ev_stopping : bool;
  ev_now : N;
  ev_routed : routing_result;
  ev_delivery : delivery;
  ev_stopped : bool;
}.
Implicit Types y : EventAttempt.

Definition event_response actor e t (d : delivery) : response SocketEventReply :=
  match d with
  | Unreached => ConnectFailed
  | Lost _ => SendFailed
  | Delivered h =>
      match host_answers h (event_handler h actor e t) with
      | Some (inl reply) => Responded 200 (Some reply)
      | Some (inr error) => Responded (http_status error) None
      | None => SendFailed
      end
  end.

Definition event_round actor e y : EventRound :=
  {| er_stopping := ev_stopping y; er_now := ev_now y; er_routed := ev_routed y;
     er_response := match ev_routed y with RoutedTo t => event_response actor e t (ev_delivery y) | _ => SendFailed end;
     er_stopped := ev_stopped y |}.

Definition event_ran actor e y : Prop :=
  match ev_routed y, ev_delivery y with
  | RoutedTo t, Lost h | RoutedTo t, Delivered h =>
      if target_reply t is Some _ then ran h (initial_event h e t) else ran h (event_handler h actor e t)
  | _, _ => False
  end.

Definition event_ok e y : Prop :=
  match ev_delivery y with Lost h | Delivered h => handling_ok h | Unreached => True end ∧
  ∀ t v reply, ev_routed y = RoutedTo t → target_reply t = Some v → parse_reply v = Ok reply →
    ∃ h, ev_delivery y = Delivered h ∧ host_answers h (initial_event h e t) = Some (Ok (inr reply)).

Lemma socket_reply_declined res : socket_reply res = EventNotExecuted → res = Ok HostUnavailable.
Proof. unfold socket_reply. repeat case_match; naive_solver. Qed.

Lemma event_again reply : event_reply reply = Again → reply = EventNotExecuted.
Proof. by destruct reply. Qed.

Lemma socket_event_reply svc now actor authorization request o epoch k :
  http_socket_event svc now actor authorization request = Submit o epoch k → k = λ res, inl (socket_reply res).
Proof. unfold http_socket_event. by destruct (mbind _ _); [intros [= _ _ <-]|]. Qed.

(** A turn after which the event is sent again did not run it. *)
Lemma event_not_run actor e y t hs :
  event_ok e y → ev_routed y = RoutedTo t →
  (event_try parse_reply actor e t hs (event_response actor e t (ev_delivery y))).2 = Again → ¬ event_ran actor e y.
Proof.
  intros [Hh Hi] Et Hv. unfold event_try in Hv. unfold event_ran. rewrite Et.
  destruct (target_reply t) as [v|] eqn:Er.
  { destruct (parse_reply v) as [reply|] eqn:Ep; [|done]. destruct (Hi _ _ _ Et Er Ep) as (h & Ed & Ha). rewrite Ed in *.
    apply event_again in Hv as ->. apply (refused_not_run h _ _ Hh Ha). intros o epoch k res Hx Hk.
    unfold initial_event, execute_initial in Hx. destruct (_ == _) in Hx; [|done]. injection Hx as _ _ <-.
    injection Hk as Hk. by apply socket_reply_declined. }
  unfold event_response in Hv. destruct (ev_delivery y) as [|h|h]; [by intros []|discriminate Hv|].
  destruct (host_answers h _) as [x|] eqn:Ha; [|discriminate Hv]. apply (refused_not_run h _ _ Hh Ha).
  intros o epoch k res Hx <-. rewrite (socket_event_reply _ _ _ _ _ _ _ _ Hx) in Hv. cbn in Hv.
  by apply socket_reply_declined, event_again.
Qed.

Abbreviation delivered actor e deadline hs ys :=
  (gateway_dispatch parse_reply actor e deadline hs (event_round actor e <$> ys)).

Lemma gateway_nil actor e deadline hs : delivered actor e deadline hs [] = ([], None).
Proof. done. Qed.

Lemma gateway_cons actor e deadline hs y :
  event_ok e y →
  (∃ l res, True ∧ ∀ ys, delivered actor e deadline hs (y :: ys) = (l, Some res)) ∨
  (∃ hs' l, (¬ event_ran actor e y ∧ ev_now y < deadline) ∧
     ∀ ys, delivered actor e deadline hs (y :: ys) = let '(l', o) := delivered actor e deadline hs' ys in (l ++ l', o)).
Proof.
  intros Hy. cbn [fmap list_fmap gateway_dispatch event_round er_stopping er_now er_routed er_response er_stopped].
  destruct (ev_stopping y); [left; eexists _, _; by split|].
  destruct (N.leb_spec deadline (ev_now y)); [left; eexists _, _; by split|].
  destruct (ev_routed y) as [t| |e'|] eqn:Et; [|destruct (ev_stopped y)|..]; try (left; eexists _, _; by split).
  - pose proof (event_not_run actor e y t (colder t hs) Hy Et) as Hrun.
    destruct (event_try parse_reply actor e t (colder t hs) (event_response actor e t (ev_delivery y))) as [l [res|]];
      [left; eexists _, _; by split|]. specialize (Hrun eq_refl).
    destruct (ev_stopped y); [left; eexists _, _; by split|]. right. by exists (colder t hs), l.
  - right. exists hs, []. split; [|done]. split; [|done]. unfold event_ran. rewrite Et. by intros [].
Qed.

(** A socket event is handled at most once, whatever happens to the requests with
    which the gateway sends it: it is sent again only after a try that did not and
    will not run the handler; and the gateway gives up within half a minute. *)
Theorem socket_event_runs_at_most_once actor e started hs attempts :
  Forall (event_ok e) attempts →
  let deadline := started + CONTROL_PLANE_REQUEST_TIMEOUT in
  ∃ tried untried, attempts = tried ++ untried ∧
    delivered actor e deadline hs attempts = delivered actor e deadline hs tried ∧
    (∀ i j y y', tried !! i = Some y → tried !! j = Some y' → event_ran actor e y → event_ran actor e y' → i = j) ∧
    ((∀ i y, attempts !! i = Some y → started + RETRY_WAIT * N.of_nat i ≤ ev_now y) → (300 < length attempts)%nat →
       is_Some (delivered actor e deadline hs attempts).2).
Proof.
  intros Hok. simpl. destruct (loop_tried (λ hs ys, delivered actor e (started + CONTROL_PLANE_REQUEST_TIMEOUT) hs ys) (event_ok e) _ _
    (gateway_nil actor e _) (gateway_cons actor e _) hs attempts Hok) as (tried & untried & Hxs & E & Ho).
  exists tried, untried. split; [done|]. split; [done|]. simpl in Ho. destruct (_.2) as [res|] eqn:Er.
  - destruct Ho as (pre & x & Ht & Hpre & _). split; [|done]. intros i j y z. apply (tried_once tried pre _ x); [done|].
    eapply Forall_impl; [exact Hpre|by intros ? []].
  - destruct Ho as [-> Hall]. rewrite app_nil_r in Hxs. subst. rewrite Forall_lookup in Hall. split.
    + intros i j y z Hi _ Hy. by destruct (Hall _ _ Hi) as [? _].
    + intros Hclock Hlen. destruct (lookup_lt_is_Some_2 tried 300 Hlen) as [x Hx]. destruct (Hall _ _ Hx) as [_ Hlt].
      specialize (Hclock _ _ Hx). unfold CONTROL_PLANE_REQUEST_TIMEOUT, RETRY_WAIT in *. lia.
Qed.
End at_most_once.
