(* ===== verification/DispatchDemo.v ===== *)
(** * Credentials and dispatch at work

    Stand-ins for JSON documents and for signatures, and an invocation that is sent
    to a host that cannot be reached, to one that is shutting down, and to one that
    carries it out. *)

From stdpp Require Import countable.
From S2P Require Import Prelude Text Demo Names Payload StateLog Effects Lifecycle Admission Routes Routing Protocol ActorDatabase ActorHost ActorHostSafety Tokens HostHttp Credentials Dispatch DispatchSafety.
Local Open Scope N_scope.

(** Documents are trees: a string is a leaf, an object a node of keys and values. *)
Module Stand_in_documents.
#[export] Instance tree_value : JsonValue := gen_tree bytes.

Fixpoint tree_fields (l : list (bytes * Value)) : list (gen_tree bytes) :=
  match l with
  | [] => []
  | (k, v) :: l => GenLeaf k :: v :: tree_fields l
  end.
Fixpoint tree_find (k : bytes) (l : list (gen_tree bytes)) : option Value :=
  match l with
  | GenLeaf k' :: v :: l => if k' == k then Some v else tree_find k l
  | _ => None
  end.

#[export] Instance tree_ops : JsonOps :=
  {| value_null := GenNode 1 [] : Value; value_is_object (v : Value) := if v is GenNode 0 _ then true else false;
     value_get (v : Value) k := if v is GenNode 0 l then tree_find k l else None |}.
#[export] Instance tree_objects : JsonObjects :=
  {| value_string s := GenLeaf s : Value; value_str (v : Value) := if v is GenLeaf s then Some s else None;
     value_object l := GenNode 0 (tree_fields l) : Value |}.
#[export] Instance tree_laws : JsonObjectLaws.
Proof.
  split; [done|]. intros l k. simpl. induction l as [|[k' v] l IH]; simpl; [done|]. by rewrite IH.
Qed.
#[export] Instance tree_json : Json Value := {| to_json _ := []; from_json _ := None |}.
#[export] Instance tree_base64 : StandardBase64 := Some.
#[export] Instance tree_uuid : UuidParse := λ s, bool_decide (s ≠ []).

#[export] Instance grant_eq_dec : EqDecision InvocationGrant.
Proof. solve_decision. Defined.
#[export] Instance capability_eq_dec : EqDecision ActorInvocationCapability.
Proof. solve_decision. Defined.
#[export] Instance actor_claims_eq_dec : EqDecision ActorJwtClaims.
Proof. solve_decision. Defined.
#[export] Instance session_eq_dec : EqDecision ActorSession.
Proof. solve_decision. Defined.
#[export] Instance value_eq_dec : EqDecision Value := gen_tree_dec.
#[export] Instance ticket_eq_dec : EqDecision SocketTicket.
Proof. solve_decision. Defined.
#[export] Instance claims_eq_dec : EqDecision claims.
Proof. solve_decision. Defined.
#[export] Instance accepts_dec v now c : Decision (accepts v now c).
Proof. unfold accepts. apply _. Defined.

(** A key that signs one document. *)
#[export] Instance tree_jwt : Jwt := {|
  jwt_key := claims; jwt_public := claims; public_of k := k;
  jwt_encode k kid c :=
    if bool_decide (c = k) && is_trimmed (b"jwt." ++ kid) then Ok (b"jwt." ++ kid) else Err "key is for another document";
  jwt_header t := kid ← ctx (strip_prefix (b"jwt.") t) "no token";
                  Ok {| hd_typ := Some (b"JWT"); hd_eddsa := true; hd_kid := Some kid |};
  jwt_decode p v now t := if bool_decide (accepts v now p) then Ok p else Err "not accepted" |}.

#[export] Instance tree_jwt_laws : JwtLaws.
Proof.
  assert (∀ k kid (c : claims) t,
    (if bool_decide (c = k) && is_trimmed (b"jwt." ++ kid) then Ok (b"jwt." ++ kid) else Err "key is for another document") = Ok t →
    c = k ∧ is_trimmed t = true ∧ t = b"jwt." ++ kid) as Henc.
  { intros k kid c t. case_bool_decide; simpl; [|done]. destruct (is_trimmed _) eqn:Et; [|done]. by intros [= <-]. }
  split; cbn [jwt_encode jwt_header jwt_decode tree_jwt public_of].
  - intros k kid c t (_ & _ & ->)%Henc. by rewrite strip_prefix_app.
  - intros k kid c t v now (-> & _)%Henc Ha. by rewrite bool_decide_true.
  - intros k kid c t v now d (-> & _)%Henc. case_bool_decide; [|done]. by intros [= <-].
  - intros p v now t c. case_bool_decide; [|done]. by intros [= <-].
  - intros k kid c t (_ & Ht & ->)%Henc. done.
Qed.
End Stand_in_documents.

Import Stand_in_documents.

(** ** A target and its token *)

Definition demo_room : ActorKey := {| project_id := b"p"; actor_name := b"room"; actor_id := b"7" |}.
Definition demo_host : bytes := b"host.v3.h1".
Definition demo_url (s : bytes) : result Url :=
  Ok {| url_scheme := b"http"; url_host := Some (b"h"); url_path := b"/"; url_query := None; url_fragment := None;
        url_username := []; url_password := None; url_text := s |}.

Definition demo_issuer_of (k : claims) : ActorJwtIssuer :=
  {| is_encoding_key := k; is_key_id := b"k1"; is_issuer := b"control"; is_authority_audience := b"authority";
     is_invocation_audience := b"invoke"; is_max_lifetime := 3600000 |}.

Definition demo_ticket_claims : claims :=
  SocketClaims {| st_iss := b"control"; st_aud := b"authority:websocket"; st_scope := b"actor:socket"; st_iat := 1000;
    st_nbf := 1000; st_exp := 1060; st_actor := demo_room; st_region := b"north-america-central"; st_home_region := None;
    st_metadata := value_object []; st_connect_by_ms := 1060000 |}.

Definition demo_target_claims : claims :=
  ActorClaims (target_claims (demo_issuer_of demo_ticket_claims) 1000 demo_room demo_host (b"s1") (b"cfg")
    (b"north-america-central") 3 None (b"http://h/") 1060).

Definition demo_issuer : ActorJwtIssuer := demo_issuer_of demo_target_claims.
Definition demo_token : IssuedActorToken := {| issued_token := b"jwt.k1"; issued_expires_at_ms := 1060000 |}.

Example demo_issued :
  issue_invocation_target demo_url demo_issuer 1000000 demo_room demo_host (b"s1") (b"cfg") (b"north-america-central") 3 None
    (b"http://h/") = Ok demo_token.
Proof. vm_compute. reflexivity. Qed.

Definition demo_host_verifier : ActorJwtVerifier :=
  {| vf_public_keys := issuer_keys demo_issuer;
     vf_validation := {| va_issuer := b"control"; va_audience := b"invoke"; va_leeway := 5; va_exp := true; va_nbf := true |};
     vf_purpose := ForInvocation; vf_max_lifetime := 60000 |}.

Definition demo_service : ActorHostHttpService :=
  {| hs_host_id := demo_host; hs_actor := demo_room; hs_session_id := b"s1"; hs_auth := demo_host_verifier |}.

Definition demo_invocation : ActorInvocation :=
  {| inv_request_id := b"r1"; inv_actor := demo_room; inv_method := b"rename"; inv_args := [] |}.
Definition demo_request : InvokeRequest :=
  {| ivr_request_id := b"r1"; ivr_owner_epoch := 3; ivr_method := b"rename"; ivr_args := [] |}.

(** A token that a session delegated, for one method. *)
Definition demo_delegation : InvocationGrant :=
  {| gr_subject := b"user-1"; gr_grant_id := b"grant-1"; gr_expires_at := 1030; gr_methods := [b"rename"] |}.

Definition demo_delegated_issuer : ActorJwtIssuer :=
  demo_issuer_of (ActorClaims (target_claims (demo_issuer_of demo_ticket_claims) 1000 demo_room demo_host (b"s1") (b"cfg")
    (b"north-america-central") 3 (Some demo_delegation) (b"http://h/") 1030)).

Definition demo_delegated_service : ActorHostHttpService :=
  {| hs_host_id := demo_host; hs_actor := demo_room; hs_session_id := b"s1";
     hs_auth := {| vf_public_keys := issuer_keys demo_delegated_issuer; vf_validation := vf_validation demo_host_verifier;
                   vf_purpose := ForInvocation; vf_max_lifetime := 60000 |} |}.

Definition demo_delegated_token : IssuedActorToken := {| issued_token := b"jwt.k1"; issued_expires_at_ms := 1030000 |}.

Lemma demo_delegation_wf : grant_wf demo_delegation.
Proof. split_and!; [done..|]. repeat constructor. Qed.

Lemma invocation_token_opens_one_host_witness :
  ∃ k, http_invoke demo_delegated_service 1001 demo_room (b"Bearer " ++ issued_token demo_delegated_token) (inl demo_request)
         (λ _, Ok ()) =
    Submit (MethodOperation {| inv_request_id := ivr_request_id demo_request; inv_actor := demo_room;
                               inv_method := ivr_method demo_request; inv_args := ivr_args demo_request |}) 3 k.
Proof.
  destruct (invocation_token_opens_one_host demo_url demo_delegated_issuer (hs_auth demo_delegated_service) 60000 eq_refl
    1000000 demo_room demo_host (b"s1") (b"cfg") (b"north-america-central") 3 (Some demo_delegation) (b"http://h/")
    demo_delegated_token) as (_ & (Hexp & Hgo) & _); [lia|vm_compute; reflexivity|].
  refine (Hgo demo_delegated_service 1001%Z demo_request (λ _, Ok ()) eq_refl eq_refl eq_refl eq_refl _ _ _ _ eq_refl _ eq_refl _ _);
    [|vm_compute; congruence|vm_compute; reflexivity|vm_compute; congruence|vm_compute; reflexivity|
     vm_compute; congruence|vm_compute; reflexivity].
  intros g [= <-]. split; [exact demo_delegation_wf|]. split; [by left|reflexivity].
Defined.

Definition demo_grant : SocketGrant :=
  {| sg_actor := demo_room; sg_region := b"north-america-central"; sg_home_region := None; sg_metadata := value_object [] |}.

Lemma socket_ticket_window_witness :
  (1000000 < 1060000 ≤ 1060000)%Z ∧
  is_ok (verify_at (socket_verifier (demo_issuer_of demo_ticket_claims)) (b"jwt.k1") 1059999) = true.
Proof.
  destruct (socket_ticket_window (demo_issuer_of demo_ticket_claims) demo_grant 1000000 (b"jwt.k1") 1060000) as [Hw Ht];
    [lia|vm_compute; reflexivity|vm_compute; congruence|]. split; [exact Hw|]. specialize (Ht 1059999%Z).
  destruct (verify_at _ _ _); [done|]. change (Z.quot 1000000 1000) with 1000%Z in *. lia.
Defined.

(** ** Three hosts *)

Definition demo_serves (c : request_call) : reply_of c :=
  match c with
  | CallOpen _ _ _ => 1
  | CallClose _ | CallPublish _ | CallReply _ _ => ()
  | CallPrepare _ _ => Ok Execute
  | CallComplete _ _ _ => Ok 7
  | CallAuthority => Ok ()
  | CallActivate => Err "not activated"
  | CallHydrated a _ => Ok a
  | CallSupports _ => true
  | CallHydrate _ _ => Ok ()
  | CallInvoke _ _ => Ok (MethodCompleted (value_string (b"done")) [])
  | CallSocket _ _ => Ok (SocketHandled [])
  end.

Definition demo_instant : Moment := {| m_now_ms := Ok 5; m_instant := 5; m_uuid := b"u" |}.

Definition demo_handling (before until : list event) : Handling :=
  {| h_service := demo_service; h_seconds := 1001; h_clock := Ok 1001000; h_publish _ := Ok (); h_metadata := None;
     h_admission := false; h_created := 0; h_before := pair demo_instant <$> before; h_moment := demo_instant;
     h_reply := 9; h_until := pair demo_instant <$> until; h_later := [] |}.

(** A host that is told to drain, and one that carries the request out. *)
Definition demo_draining : Handling := demo_handling [Sent DrainMessage; Received] [].
Definition demo_serving : Handling := demo_handling [] ([Received] ++ repeat (Answers 1 demo_serves) 8 ++ [TaskCompleted 1]).

Definition demo_target : ActorTarget Value :=
  {| target_reply := None; target_state := Warm; target_region := b"north-america-central"; target_route := b"http://h/";
     target_token := b"jwt.k1"; target_epoch := 3;
     target_identity := {| id_host := demo_host; id_session := b"s1"; id_epoch := 3 |} |}.

Definition demo_attempt (d : delivery) (now : N) : Attempt :=
  {| at_target := inl demo_target; at_grant := None; at_delivery := d; at_now := now |}.
Definition demo_attempts : list Attempt :=
  [demo_attempt Unreached 100; demo_attempt (Delivered demo_draining) 300; demo_attempt (Delivered demo_serving) 500].

(** The invocation is sent three times and completes; its route is given up twice. *)
Example demo_settles :
  let '(l, o) := settle demo_invocation 30000 Warm (round_of demo_invocation <$> demo_attempts) in
  (length l, (λ r, match r with inl v => reply_type v | inr _ => None end) <$> o) = (5%nat, Some (Some (b"completed"))).
Proof. vm_compute. reflexivity. Qed.

Lemma demo_attempts_ok : Forall (attempt_ok demo_invocation) demo_attempts.
Proof.
  repeat (constructor; [split; [first [exact I | apply (bool_decide_unpack _); vm_compute; exact I]|]; intros t v [= <-]; discriminate|]).
  constructor.
Qed.


(** ** A socket event *)

Definition demo_event : ActorSocketInvocation :=
  {| sock_request_id := b"e1"; sock_actor := demo_room; sock_connections := [];
     sock_event := Message (b"c1") (TextMessage (b"hello")) |}.
Definition demo_parse (_ : Value) : result SocketEventReply := Err "no reply".

Definition demo_turn (d : delivery) (now : N) : EventAttempt :=
  {| ev_stopping := false; ev_now := now; ev_routed := RoutedTo demo_target; ev_delivery := d; ev_stopped := false |}.
Definition demo_turns : list EventAttempt :=
  [demo_turn Unreached 0; demo_turn (Delivered demo_draining) 200; demo_turn (Delivered demo_serving) 400].

Example demo_event_handled :
  (gateway_dispatch demo_parse demo_room demo_event 30000 Warm (event_round demo_room demo_event <$> demo_turns)).2 =
    Some (Ok []).
Proof. vm_compute. reflexivity. Qed.

Lemma demo_turns_ok : Forall (event_ok demo_parse demo_event) demo_turns.
Proof.
  repeat (constructor; [split; [first [exact I | apply (bool_decide_unpack _); vm_compute; exact I]|]; intros t v reply [= <-]; discriminate|]).
  constructor.
Qed.

Lemma socket_event_runs_at_most_once_witness :
  ∃ tried untried, demo_turns = tried ++ untried ∧
    ∀ i j y y', tried !! i = Some y → tried !! j = Some y' →
      event_ran demo_room demo_event y → event_ran demo_room demo_event y' → i = j.
Proof.
  destruct (socket_event_runs_at_most_once demo_parse demo_room demo_event 0 Warm demo_turns demo_turns_ok)
    as (tried & untried & Happ & _ & Honce & _). by exists tried, untried.
Defined.
