(* ===== verification/HostConfig.v ===== *)
(** * The configuration of a host

    What the control plane tells a spare sandbox to become
    ([assignment_environment] of [src/src/sandbox/remote.rs]) and what the host
    makes of its environment ([src/src/host/config.rs], [assigned_config] of
    [src/src/host/spare.rs]). Socket addresses and the URI parser are third-party
    code and stay parameters, like the JSON of the values. *)

From S2P Require Import Prelude Text Demo Names Payload StateLog Effects Runtime Safety Lifecycle Admission Deployment Pool HostHttp Tokens.
Local Open Scope N_scope.

Abbreviation environment := (gmap bytes bytes).

(** ** Requests for hosts *)

Record EnsureHostRequest (Operation : Type) := {
  eh_initial_operation : option Operation;
  eh_actor_is_new : bool;
  eh_owner_hint : option bytes;
  eh_actor : option ActorKey;
  eh_code_snapshot : option bytes;
  eh_spare : option SpareHandle;
  eh_resources : ResourceLimits;
  eh_runtime_config : option bytes;
  eh_host_config_key : bytes;
  eh_canonical_region : bytes;
  eh_host_id : bytes;
  eh_session_id : bytes;
  eh_host_token : bytes;
  eh_jwt_public_keys : bytes;
  eh_control_plane_url : bytes;
  eh_otlp_endpoint : option bytes;
  eh_jwt_issuer : bytes;
  eh_invocation_jwt_audience : bytes;
  eh_image_ref : bytes;
  eh_working_directory : bytes;
  eh_actor_entrypoint : option bytes;
  eh_secret_refs : list bytes;
  eh_host_idle_timeout_ms : N;
}.
Arguments eh_initial_operation {_} _. Arguments eh_actor_is_new {_} _. Arguments eh_owner_hint {_} _.
Arguments eh_actor {_} _. Arguments eh_code_snapshot {_} _. Arguments eh_spare {_} _. Arguments eh_resources {_} _.
Arguments eh_runtime_config {_} _. Arguments eh_host_config_key {_} _. Arguments eh_canonical_region {_} _.
Arguments eh_host_id {_} _. Arguments eh_session_id {_} _. Arguments eh_host_token {_} _.
Arguments eh_jwt_public_keys {_} _. Arguments eh_control_plane_url {_} _. Arguments eh_jwt_issuer {_} _.
Arguments eh_invocation_jwt_audience {_} _. Arguments eh_image_ref {_} _. Arguments eh_secret_refs {_} _.
Arguments eh_host_idle_timeout_ms {_} _. Arguments eh_otlp_endpoint {_} _. Arguments eh_working_directory {_} _.
Arguments eh_actor_entrypoint {_} _.

Definition is_hex (x : byte) : bool := byte_in 48 57 x || byte_in 97 102 x || byte_in 65 70 x.

(** [rsplit_once] with a string: before and after its last occurrence. *)
Fixpoint rsplit_last (sep s : bytes) : option (bytes * bytes) :=
  match s with
  | [] => if sep == [] then Some ([], []) else None
  | x :: s' =>
      match rsplit_last sep s' with
      | Some (before, after) => Some (x :: before, after)
      | None => match strip_prefix sep s with Some after => Some ([], after) | None => None end
      end
  end.

(** Image names are ASCII here: of the white space of Unicode, what ASCII has. *)
Definition char_space (x : byte) : bool := ascii_space x || (x == x0b).

Definition validate_image (image : bytes) : result unit :=
  '(name, digest) ← ctx (rsplit_last (b"@sha256:") image) "container image must be pinned to a sha256 digest";
  ensure ((name != []) && negb (existsb char_space name) && (len digest =? 64) && forallb is_hex digest)
    "invalid container image digest".

Section config.
Context {Operation StorageConfig Address : Type}.
Context `{Digest} `{Base64} `{!Json ActorBundle} `{!Json ActorKey} `{!Json ResourceLimits} `{!Json environment}
  `{!Json OwnershipHint} `{!Json StorageConfig} `{!UuidParse}.
(** [SocketAddr::from_str] and [Endpoint::from_shared] *)
Context (parse_address : bytes → option Address) (valid_endpoint : bytes → bool).
Abbreviation EnsureHostRequest := (EnsureHostRequest Operation).
Implicit Types (get : bytes → option bytes).

Definition show_bool (x : bool) : bytes := if x then b"true" else b"false".

(** The variables of [assignment_environment] but the ownership hint. *)
Definition assignment_fields (request : EnsureHostRequest) (spare : SpareHandle) (secrets : environment)
    (artifact entrypoint config : bytes) (actor : ActorKey) : list (bytes * bytes) := [
  (b"DURABLE_ACTORS_PROCESS_ROLE", b"host");
  (b"DURABLE_ACTORS_HOST_RESOURCES", to_json (eh_resources request));
  (b"DURABLE_ACTORS_HOST_TOKEN", eh_host_token request);
  (b"DURABLE_ACTORS_JWT_PUBLIC_KEYS", eh_jwt_public_keys request);
  (b"DURABLE_ACTORS_CONTROL_PLANE_URL", eh_control_plane_url request);
  (b"DURABLE_ACTORS_JWT_ISSUER", eh_jwt_issuer request);
  (b"DURABLE_ACTORS_INVOKE_JWT_AUDIENCE", eh_invocation_jwt_audience request);
  (b"DURABLE_ACTORS_HOST_ID", eh_host_id request);
  (b"DURABLE_ACTORS_SESSION_ID", eh_session_id request);
  (b"DURABLE_ACTORS_REGION", eh_canonical_region request);
  (b"DURABLE_ACTORS_HOST_ROUTE", handle_route spare);
  (b"DURABLE_ACTORS_HOST_BIND", b"0.0.0.0:7101");
  (b"DURABLE_ACTORS_HOST_IDLE_TIMEOUT_MS", show_dec (eh_host_idle_timeout_ms request));
  (b"DURABLE_ACTORS_EXECUTOR_SOCKET", b"/tmp/durable-actors-executor.sock");
  (b"DURABLE_ACTORS_ENTRYPOINT", b"/customer/" ++ entrypoint);
  (b"DURABLE_ACTORS_CODE_ARTIFACT", artifact);
  (b"DURABLE_ACTORS_CUSTOMER_ENV", to_json secrets);
  (b"DURABLE_ACTORS_ACTOR", to_json actor);
  (b"DURABLE_ACTORS_ACTOR_IS_NEW", show_bool (eh_actor_is_new request));
  (b"DURABLE_ACTORS_RUNTIME_CONFIG", config)].

Definition assignment_environment (request : EnsureHostRequest) (spare : SpareHandle) (secrets : environment)
    : result environment :=
  artifact ← ctx (eh_code_snapshot request) "compiled GCS code artifact required";
  manifest ← bundle_decode artifact;
  actor ← ctx (eh_actor request) "actor identity required";
  validate_actor actor;;
  entrypoint ← bundle_entrypoint manifest;
  config ← ctx (eh_runtime_config request) "host storage configuration required";
  let e : environment := list_to_map (assignment_fields request spare secrets artifact entrypoint config actor) in
  Ok (match eh_owner_hint request with Some hint => <[b"DURABLE_ACTORS_OWNER_HINT" := hint]> e | None => e end).

(** ** The host *)

Definition required get (name : bytes) : result bytes :=
  value ← ctx (get name) "is required";
  ensure (value != []) "must not be empty";;
  Ok value.

Definition duration_ms get (name : bytes) (dflt : N) : result N :=
  value ← match get name with
          | Some v => ctx (parse_u64 v) "must be an integer number of milliseconds"
          | None => Ok dflt
          end;
  ensure (0 <? value) "must be positive";;
  Ok value.

(** In milliseconds. *)
Definition duration_seconds get (name : bytes) (dflt : N) : result N :=
  value ← match get name with
          | Some v => ctx (parse_u64 v) "must be an integer number of seconds"
          | None => Ok dflt
          end;
  ensure (0 <? value) "must be positive";;
  Ok (1000 * value).

Definition DEFAULT_HOST_IDLE_TIMEOUT_MS : N := 10000.
Definition MAX_IDLE_TIMEOUT_MS : N := 86400000.

Definition host_idle_timeout_ms get : result N :=
  timeout ← duration_ms get (b"DURABLE_ACTORS_HOST_IDLE_TIMEOUT_MS") DEFAULT_HOST_IDLE_TIMEOUT_MS;
  ensure (timeout <=? MAX_IDLE_TIMEOUT_MS) "DURABLE_ACTORS_HOST_IDLE_TIMEOUT_MS is too large";;
  Ok timeout.

Record HostIdentity := { hi_host_id : bytes; hi_session_id : bytes }.
Definition host_identity get : result HostIdentity :=
  host ← required get (b"DURABLE_ACTORS_HOST_ID");
  ensure (starts_with (b"host.v3.") host) "DURABLE_ACTORS_HOST_ID is invalid";;
  session ← required get (b"DURABLE_ACTORS_SESSION_ID");
  ensure (uuid_parse session) "DURABLE_ACTORS_SESSION_ID must be a UUID";;
  Ok {| hi_host_id := host; hi_session_id := session |}.

Record ControlPlaneAccess := { ca_url : bytes; ca_host_token : bytes }.
Definition control_plane_access get : result ControlPlaneAccess :=
  url ← required get (b"DURABLE_ACTORS_CONTROL_PLANE_URL");
  token ← required get (b"DURABLE_ACTORS_HOST_TOKEN");
  Ok {| ca_url := url; ca_host_token := token |}.

Record InvocationAuth := { ia_public_keys : bytes; ia_issuer : bytes; ia_audience : bytes; ia_max_token_lifetime : N }.
Definition invocation_auth get : result InvocationAuth :=
  keys ← required get (b"DURABLE_ACTORS_JWT_PUBLIC_KEYS");
  lifetime ← duration_seconds get (b"DURABLE_ACTORS_JWT_MAX_TTL_SECONDS") 86400;
  Ok {| ia_public_keys := keys;
        ia_issuer := default (b"durable-actors-control-plane") (get (b"DURABLE_ACTORS_JWT_ISSUER"));
        ia_audience := default (b"durable-actors-invoke") (get (b"DURABLE_ACTORS_INVOKE_JWT_AUDIENCE"));
        ia_max_token_lifetime := lifetime |}.

Record HostNetwork := { hn_bind : Address; hn_route : option bytes }.
Definition host_network get : result HostNetwork :=
  let route := get (b"DURABLE_ACTORS_HOST_ROUTE") in
  ensure (from_option valid_endpoint true route) "DURABLE_ACTORS_HOST_ROUTE must be a valid HTTP or HTTPS URI";;
  let default_bind := if route is Some _ then b"0.0.0.0:7101" else b"127.0.0.1:0" in
  bind ← ctx (parse_address (default default_bind (get (b"DURABLE_ACTORS_HOST_BIND"))))
           "DURABLE_ACTORS_HOST_BIND must be a socket address";
  Ok {| hn_bind := bind; hn_route := route |}.

Record LeaseTiming := { lt_duration : N; lt_renew_every : N }.
Definition lease_timing get : result LeaseTiming :=
  duration ← duration_ms get (b"DURABLE_ACTORS_LEASE_MS") 30000;
  renew_every ← duration_ms get (b"DURABLE_ACTORS_RENEW_MS") 10000;
  ensure (duration <=? MAX_HOST_LEASE_DURATION_MS) "DURABLE_ACTORS_LEASE_MS is too large";;
  ensure (renew_every <? duration) "DURABLE_ACTORS_RENEW_MS must be shorter than DURABLE_ACTORS_LEASE_MS";;
  Ok {| lt_duration := duration; lt_renew_every := renew_every |}.

Record ActorAssignment := { aa_actor : ActorKey; aa_new_actor : bool; aa_owner_hint : option OwnershipHint }.

(** [get(name).map(parse).transpose()] *)
Definition parsed {A} (parse : bytes → option A) (v : option bytes) (msg : string) : result (option A) :=
  match v with Some v => a ← ctx (parse v) msg; Ok (Some a) | None => Ok None end.

Definition actor_assignment get : result ActorAssignment :=
  text ← required get (b"DURABLE_ACTORS_ACTOR");
  actor ← ctx (from_json text) "invalid JSON";
  validate_actor actor;;
  new_actor ← parsed parse_bool (get (b"DURABLE_ACTORS_ACTOR_IS_NEW")) "invalid boolean";
  hint ← parsed from_json (get (b"DURABLE_ACTORS_OWNER_HINT")) "invalid JSON";
  Ok {| aa_actor := actor; aa_new_actor := default false new_actor; aa_owner_hint := hint |}.

Inductive ActorRuntime := Typescript | Python.
#[global] Instance ActorRuntime_eq_dec : EqDecision ActorRuntime.
Proof. solve_decision. Defined.

Definition from_entrypoint (entrypoint : bytes) : result ActorRuntime :=
  if ends_with (b".mjs") entrypoint then Ok Typescript
  else if ends_with (b".pyz") entrypoint then Ok Python
  else Err "actor entrypoint must be a compiled .mjs or .pyz artifact".

Definition transpose {A} (o : option (result A)) : result (option A) :=
  match o with Some r => a ← r; Ok (Some a) | None => Ok None end.

Definition executor_runtime (entrypoint configured : option bytes) : result ActorRuntime :=
  image ← transpose ((λ v, if v == b"typescript" then Ok Typescript
                           else if v == b"python" then Ok Python
                           else Err "DURABLE_ACTORS_EXECUTOR_RUNTIME must be typescript or python") <$> configured);
  artifact ← transpose (from_entrypoint <$> entrypoint);
  ensure (match image, artifact with Some i, Some a => i == a | _, _ => true end)
    "actor artifact does not match the image's executor runtime";;
  Ok (default Typescript (match image with Some i => Some i | None => artifact end)).

Record ExecutorConfig := {
  ec_socket : bytes;
  ec_runtime : ActorRuntime;
  ec_entrypoint : option bytes;
  ec_bundle : option ActorBundle;
  ec_environment : environment;
}.
Definition executor_config get : result ExecutorConfig :=
  let entrypoint := get (b"DURABLE_ACTORS_ENTRYPOINT") in
  runtime ← executor_runtime entrypoint (get (b"DURABLE_ACTORS_EXECUTOR_RUNTIME"));
  bundle ← transpose (bundle_decode <$> get (b"DURABLE_ACTORS_CODE_ARTIFACT"));
  customer ← parsed from_json (get (b"DURABLE_ACTORS_CUSTOMER_ENV")) "invalid JSON";
  Ok {| ec_socket := default (b"/tmp/durable-actors-executor.sock") (get (b"DURABLE_ACTORS_EXECUTOR_SOCKET"));
        ec_runtime := runtime; ec_entrypoint := entrypoint; ec_bundle := bundle; ec_environment := default ∅ customer |}.

Record ActorHostConfig := {
  hc_identity : HostIdentity;
  hc_control_plane : ControlPlaneAccess;
  hc_invocation_auth : InvocationAuth;
  hc_network : HostNetwork;
  hc_lease : LeaseTiming;
  hc_idle_timeout : N;
  hc_resources : ResourceLimits;
  hc_storage : StorageConfig;
  hc_assignment : ActorAssignment;
  hc_executor : ExecutorConfig;
  hc_ready_file : option bytes;
}.

(** [ActorHostConfig::from_lookup] *)
Definition host_config get : result ActorHostConfig :=
  identity ← host_identity get;
  control_plane ← control_plane_access get;
  auth ← invocation_auth get;
  network ← host_network get;
  lease ← lease_timing get;
  idle ← host_idle_timeout_ms get;
  text ← ctx (get (b"DURABLE_ACTORS_RUNTIME_CONFIG")) "host storage configuration missing";
  storage ← ctx (from_json text) "parse host runtime configuration";
  assignment ← actor_assignment get;
  executor ← executor_config get;
  resources ← parsed from_json (get (b"DURABLE_ACTORS_HOST_RESOURCES")) "parse host resource requests";
  Ok {| hc_identity := identity; hc_control_plane := control_plane; hc_invocation_auth := auth; hc_network := network;
        hc_lease := lease; hc_idle_timeout := idle; hc_resources := default default_resources resources;
        hc_storage := storage; hc_assignment := assignment; hc_executor := executor;
        hc_ready_file := get (b"DURABLE_ACTORS_HOST_READY_FILE") |}.

(** [assigned_config] of a spare whose executor runs [runtime] *)
Definition assigned_config (e : environment) (runtime : ActorRuntime) : result ActorHostConfig :=
  config ← host_config (λ name, e !! name);
  entrypoint ← ctx (ec_entrypoint (hc_executor config)) "missing customer entrypoint";
  ensure (starts_with (b"/customer/") entrypoint && (ends_with (b".mjs") entrypoint || ends_with (b".pyz") entrypoint) &&
          forallb (λ c, match c with ParentDir => false | _ => true end) (components entrypoint))
    "customer entrypoint must be a compiled module under /customer";;
  ensure (ec_runtime (hc_executor config) == runtime) "actor artifact does not match the prewarmed executor runtime";;
  Ok config.

(** ** What a spare becomes *)

Context `{!JsonLaws ActorKey} `{!JsonLaws ResourceLimits} `{!JsonLaws environment}.

Lemma list_to_map_find (l : list (bytes * bytes)) k : (list_to_map l : environment) !! k = find_key k l.
Proof.
  induction l as [|[k' v] l IH]; simpl; [done|]. destruct (decide (k' = k)) as [->|].
  - by rewrite lookup_insert_eq, bool_decide_true.
  - by rewrite lookup_insert_ne, bool_decide_false.
Qed.

(** What the environment of an assignment says. *)
Lemma assigned_lookups request spare secrets e :
  assignment_environment request spare secrets = Ok e →
  ∃ artifact manifest actor entrypoint config,
    eh_code_snapshot request = Some artifact ∧ bundle_decode artifact = Ok manifest ∧ eh_actor request = Some actor ∧
    validate_actor actor = Ok () ∧ bundle_entrypoint manifest = Ok entrypoint ∧ eh_runtime_config request = Some config ∧
    ∀ k, e !! k = if k == b"DURABLE_ACTORS_OWNER_HINT" then eh_owner_hint request
                  else find_key k (assignment_fields request spare secrets artifact entrypoint config actor).
Proof.
  unfold assignment_environment. intros He. apply bind_Ok in He as (artifact & Ha & He). apply bind_Ok in He as (manifest & Hm & He).
  apply bind_Ok in He as (actor & Hactor & He). apply bind_Ok in He as ([] & Hv & He).
  apply bind_Ok in He as (entrypoint & Hent & He). apply bind_Ok in He as (config & Hconfig & He). apply ctx_Ok in Ha, Hactor, Hconfig.
  exists artifact, manifest, actor, entrypoint, config. do 6 (split; [eassumption|]). intros k. cbv zeta in He.
  rewrite <- list_to_map_find. set (m := list_to_map (M:=environment) _) in *.
  assert (m !! (b"DURABLE_ACTORS_OWNER_HINT") = None) as Hnone by (subst m; rewrite list_to_map_find; reflexivity).
  clearbody m. injection He as <-. case_bool_decide as Ek.
  - subst k. destruct (eh_owner_hint request); [apply lookup_insert_eq|done].
  - destruct (eh_owner_hint request); [by apply lookup_insert_ne|done].
Qed.

Lemma parsed_Ok {A} (parse : bytes → option A) v msg x :
  parsed parse v msg = Ok x ↔ match v with Some v => is_Some x ∧ parse v = x | None => x = None end.
Proof.
  unfold parsed. destruct v as [v|]; simpl; [|naive_solver]. destruct (parse v) as [a|]; simpl; split.
  - intros [= <-]. by split.
  - by intros [_ <-].
  - done.
  - intros [[a E] ?]. congruence.
Qed.

Lemma required_Ok get name v : required get name = Ok v ↔ get name = Some v ∧ v ≠ [].
Proof.
  unfold required. destruct (get name) as [w|]; simpl; [|naive_solver]. case_bool_decide; simpl; naive_solver.
Qed.

Lemma show_bool_parse x : parse_bool (show_bool x) = Some x.
Proof. by destruct x. Qed.

(** A request that a host can be started from. *)
Record request_ok (request : EnsureHostRequest) (spare : SpareHandle) (runtime : ActorRuntime)
    (storage : StorageConfig) (hint : option OwnershipHint) : Prop := {
  ro_host : starts_with (b"host.v3.") (eh_host_id request) = true;
  ro_session : uuid_parse (eh_session_id request) = true ∧ eh_session_id request ≠ [];
  ro_credentials : eh_control_plane_url request ≠ [] ∧ eh_host_token request ≠ [] ∧ eh_jwt_public_keys request ≠ [];
  ro_idle : 0 < eh_host_idle_timeout_ms request ≤ MAX_IDLE_TIMEOUT_MS;
  ro_network : valid_endpoint (handle_route spare) = true ∧ is_Some (parse_address (b"0.0.0.0:7101"));
  ro_storage : (eh_runtime_config request ≫= from_json) = Some storage;
  ro_hint : match eh_owner_hint request with Some text => from_json text = hint ∧ is_Some hint | None => hint = None end;
  ro_runtime artifact manifest entrypoint : eh_code_snapshot request = Some artifact →
    bundle_decode artifact = Ok manifest → bundle_entrypoint manifest = Ok entrypoint →
    from_entrypoint (b"/customer/" ++ entrypoint) = Ok runtime;
  ro_text actor : eh_actor request = Some actor → to_json actor ≠ [];
}.

Definition becomes (request : EnsureHostRequest) (spare : SpareHandle) (secrets : environment)
    (config : ActorHostConfig) : Prop :=
  hc_identity config = {| hi_host_id := eh_host_id request; hi_session_id := eh_session_id request |} ∧
  hc_control_plane config = {| ca_url := eh_control_plane_url request; ca_host_token := eh_host_token request |} ∧
  ia_public_keys (hc_invocation_auth config) = eh_jwt_public_keys request ∧
  ia_issuer (hc_invocation_auth config) = eh_jwt_issuer request ∧
  ia_audience (hc_invocation_auth config) = eh_invocation_jwt_audience request ∧
  hn_route (hc_network config) = Some (handle_route spare) ∧
  hc_idle_timeout config = eh_host_idle_timeout_ms request ∧ hc_resources config = eh_resources request ∧
  eh_actor request = Some (aa_actor (hc_assignment config)) ∧
  aa_new_actor (hc_assignment config) = eh_actor_is_new request ∧
  aa_owner_hint (hc_assignment config) = (eh_owner_hint request ≫= from_json) ∧
  ec_bundle (hc_executor config) = (eh_code_snapshot request ≫= λ s, ok (bundle_decode s)) ∧
  ec_environment (hc_executor config) = secrets ∧
  lt_renew_every (hc_lease config) < lt_duration (hc_lease config) ≤ MAX_HOST_LEASE_DURATION_MS.

Lemma bundle_entrypoint_cases u entrypoint :
  bundle_entrypoint u = Ok entrypoint → entrypoint = b"actors.mjs" ∨ entrypoint = b"actors.pyz".
Proof.
  unfold bundle_entrypoint. destruct (List.filter _ _) as [|f [|]] eqn:E; try done. intros [= <-].
  assert (List.In f (List.filter (λ f, (file_path f == b"actors.mjs") || (file_path f == b"actors.pyz")) (bundle_files u))) as Hin
    by (rewrite E; by left).
  apply filter_In in Hin as [_ Hf]. apply orb_true_iff in Hf as [Hf|Hf]; inv_ok; auto.
Qed.

(** Reads what a part of the configuration found in the environment. *)
Ltac reads Hget :=
  repeat match goal with
  | E : mbind _ _ = Ok _ |- _ => apply bind_Ok in E as (? & ? & E)
  | E : required _ _ = Ok _ |- _ => apply required_Ok in E as [E ?]; rewrite Hget in E
  | E : parsed _ _ _ = Ok _ |- _ => apply parsed_Ok in E; rewrite Hget in E
  | E : ctx _ _ = Ok _ |- _ => apply ctx_Ok in E; rewrite ?Hget in E
  | E : Ok _ = Ok _ |- _ => injection E as <-
  end; rewrite ?Hget in *; simpl in *.

Lemma assigned_becomes request spare secrets e runtime config :
  eh_host_idle_timeout_ms request ≤ u64_max → assignment_environment request spare secrets = Ok e →
  assigned_config e runtime = Ok config → becomes request spare secrets config.
Proof.
  intros Hidle He.
  destruct (assigned_lookups _ _ _ _ He) as (artifact & manifest & actor & entrypoint & text & Ha & Hm & Hactor & Hv & Hent & Htext & Hget).
  assert (parse_u64 (show_dec (eh_host_idle_timeout_ms request)) = Some (eh_host_idle_timeout_ms request)) as Hshow
    by (by apply parse_show).
  intros Hc. unfold assigned_config in Hc. apply bind_Ok in Hc as (c & Hc & Hrest).
  assert (c = config) as -> by (repeat apply bind_Ok in Hrest as (? & ? & Hrest); congruence). clear Hrest.
  unfold host_config in Hc. repeat apply bind_Ok in Hc as (? & ? & Hc). injection Hc as <-. unfold becomes. simpl.
  repeat match goal with
  | E : host_identity _ = _ |- _ => unfold host_identity in E
  | E : control_plane_access _ = _ |- _ => unfold control_plane_access in E
  | E : invocation_auth _ = _ |- _ => unfold invocation_auth in E
  | E : host_network _ = _ |- _ => unfold host_network in E
  | E : lease_timing _ = _ |- _ => unfold lease_timing in E
  | E : host_idle_timeout_ms _ = _ |- _ => unfold host_idle_timeout_ms, duration_ms in E
  | E : actor_assignment _ = _ |- _ => unfold actor_assignment in E
  | E : executor_config _ = _ |- _ => unfold executor_config in E
  end.
  reads Hget. clear Hget. rewrite Hshow in *. simplify_eq.
  rewrite ?(from_to_json actor), ?(from_to_json secrets), ?(from_to_json (eh_resources request)), ?show_bool_parse in *. inv_ok.
  destruct_and?. simplify_eq/=. rewrite Ha. simpl. rewrite Hm in *. simpl in *. inv_ok. simplify_eq/=.
  match goal with E : match eh_owner_hint request with Some _ => _ | None => _ end |- _ => rename E into Hhint end.
  split_and!; try done. destruct (eh_owner_hint request); [by destruct Hhint|done].
Qed.

(** The parts of the configuration that a well-formed request gives. *)
Lemma assigned_starts request spare secrets e runtime storage hint :
  eh_host_idle_timeout_ms request ≤ u64_max → assignment_environment request spare secrets = Ok e →
  request_ok request spare runtime storage hint → ∃ config, assigned_config e runtime = Ok config.
Proof.
  intros Hidle He.
  destruct (assigned_lookups _ _ _ _ He) as (artifact & manifest & actor & entrypoint & text & Ha & Hm & Hactor & Hv & Hent & Htext & Hget).
  assert (parse_u64 (show_dec (eh_host_idle_timeout_ms request)) = Some (eh_host_idle_timeout_ms request)) as Hshow
    by (by apply parse_show).
  intros [Rh [Rs Rs'] (Rc1 & Rc2 & Rc3) Ri [Rn [bind Rb]] Rst Rhint Rr Rt]. specialize (Rr _ _ _ Ha Hm Hent).
  rewrite Htext in Rst. simpl in Rst. specialize (Rt _ Hactor).
  assert (eh_host_id request ≠ []) as Rh' by (intros E; by rewrite E in Rh).
  assert (executor_runtime (Some (b"/customer/" ++ entrypoint)) None = Ok runtime) as Rrun
    by (unfold executor_runtime; cbn [fmap option_fmap option_map transpose]; by rewrite Rr).
  set (get := λ name, e !! name).
  assert (∀ k v, e !! k = Some v → v ≠ [] → required get k = Ok v) as Hreq by (intros; by apply required_Ok).
  assert (∃ i, host_identity get = Ok i) as [i Ei].
  { unfold host_identity. rewrite (Hreq (b"DURABLE_ACTORS_HOST_ID") (eh_host_id request)), (Hreq (b"DURABLE_ACTORS_SESSION_ID") (eh_session_id request)) by (done || (rewrite Hget; reflexivity)).
    simpl. rewrite Rh, Rs. by eexists. }
  assert (∃ c, control_plane_access get = Ok c) as [c Ec].
  { unfold control_plane_access. rewrite (Hreq (b"DURABLE_ACTORS_CONTROL_PLANE_URL") (eh_control_plane_url request)), (Hreq (b"DURABLE_ACTORS_HOST_TOKEN") (eh_host_token request)) by (done || (rewrite Hget; reflexivity)).
    by eexists. }
  assert (∃ a, invocation_auth get = Ok a) as [a Ea].
  { unfold invocation_auth, duration_seconds. rewrite (Hreq (b"DURABLE_ACTORS_JWT_PUBLIC_KEYS") (eh_jwt_public_keys request)) by (done || (rewrite Hget; reflexivity)).
    subst get. cbv beta. rewrite !Hget. by eexists. }
  assert (∃ n, host_network get = Ok n) as [n En].
  { unfold host_network. subst get. cbv beta. rewrite !Hget. simpl. rewrite Rn. simpl. rewrite Rb. by eexists. }
  assert (∃ l, lease_timing get = Ok l) as [l El].
  { unfold lease_timing, duration_ms. subst get. cbv beta. rewrite !Hget. by eexists. }
  assert (∃ t, host_idle_timeout_ms get = Ok t) as [t Et].
  { unfold host_idle_timeout_ms, duration_ms. subst get. cbv beta. rewrite !Hget. simpl. rewrite Hshow. simpl.
    destruct Ri as [Ri1%N.ltb_lt Ri2%N.leb_le]. rewrite Ri1. simpl. rewrite Ri2. by eexists. }
  assert (∃ s, actor_assignment get = Ok s) as [s Es].
  { unfold actor_assignment, parsed. rewrite (Hreq (b"DURABLE_ACTORS_ACTOR") (to_json actor)) by (done || (rewrite Hget; reflexivity)). subst get. cbv beta.
    rewrite !Hget. simpl. rewrite (from_to_json actor). simpl. rewrite Hv. simpl. rewrite show_bool_parse. simpl.
    destruct (eh_owner_hint request); [|by eexists]. destruct Rhint as [-> [h ->]]. by eexists. }
  assert (∃ x, executor_config get = Ok x ∧ ec_entrypoint x = Some (b"/customer/" ++ entrypoint) ∧ ec_runtime x = runtime)
    as (x & Ex & Eent & Erun).
  { unfold executor_config, parsed. subst get. cbv beta. rewrite !Hget. simpl. simpl in Rrun.
    rewrite Rrun. simpl. rewrite Hm. simpl. rewrite (from_to_json secrets). by eexists. }
  unfold assigned_config, host_config. fold get. rewrite Ei, Ec, Ea, En, El, Et, Es, Ex. simpl.
  subst get. cbv beta. rewrite !Hget. simpl. rewrite Rst. simpl. rewrite (from_to_json (eh_resources request)).
  simpl. rewrite Eent, Erun. cbn [ctx mbind result_bind].
  rewrite (bool_decide_true (runtime = runtime)) by done.
  destruct (bundle_entrypoint_cases _ _ Hent) as [->| ->]; by eexists.
Qed.

(** C25. A sandbox that is assigned to an actor becomes the host that was asked for: what
    the host reads from the environment it is given is what the control plane put into
    the request, identity, credentials, actor, code, secrets and resources included.
    And it does start from a request that is well-formed. *)
Theorem assigned_host_is_requested request spare secrets e :
  eh_host_idle_timeout_ms request ≤ u64_max → assignment_environment request spare secrets = Ok e →
  (∀ runtime config, assigned_config e runtime = Ok config → becomes request spare secrets config) ∧
  (∀ runtime storage hint, request_ok request spare runtime storage hint →
     ∃ config, assigned_config e runtime = Ok config).
Proof.
  intros Hidle He. split.
  - intros runtime config. by apply assigned_becomes.
  - intros runtime storage hint. by apply (assigned_starts request spare secrets).
Qed.
End config.

(** ** Witness *)

Import Stand_in_records.

#[local] Instance ser_resources : Ser ResourceLimits :=
  ser_iso (λ r, (cpu_millis r, cpu_limit_millis r, memory_mib r, memory_limit_mib r))
          (λ '(c, d, m, n), Build_ResourceLimits c d m n) ltac:(by intros []).
#[local] Instance ser_environment : Ser environment.
Proof.
  apply (ser_iso (B := list (bytes * bytes)) map_to_list list_to_map).
  exact list_to_map_to_list.
Defined.
#[local] Instance ser_hint : Ser OwnershipHint :=
  ser_iso (λ h, (hint_generation h, hint_record h)) (λ '(g, r), Build_OwnershipHint g r) ltac:(by intros []).
#[local] Instance ser_bundle_file : Ser BundleFile :=
  ser_iso (λ f, (file_path f, file_object f, file_generation f, file_sha256 f))
          (λ '(p, o, g, d), Build_BundleFile p o g d) ltac:(by intros []).
#[local] Instance ser_bundle : Ser ActorBundle :=
  ser_iso (λ x, (bundle_bucket x, bundle_files x)) (λ '(x, l), Build_ActorBundle x l) ltac:(by intros []).
#[local] Instance uuid_nonempty : UuidParse := λ s, bool_decide (s ≠ []).

Definition demo_request : EnsureHostRequest unit :=
  {| eh_initial_operation := None; eh_actor_is_new := true; eh_owner_hint := None;
     eh_actor := Some {| project_id := b"p"; actor_name := b"room"; actor_id := b"1" |};
     eh_code_snapshot := ok (bundle_encode demo_bundle); eh_spare := None; eh_resources := default_resources;
     eh_runtime_config := Some (to_json (b"storage")); eh_host_config_key := b"k"; eh_canonical_region := b"canada";
     eh_host_id := b"host.v3.k.u"; eh_session_id := b"s"; eh_host_token := b"t"; eh_jwt_public_keys := b"keys";
     eh_control_plane_url := b"http://c"; eh_otlp_endpoint := None; eh_jwt_issuer := b"i"; eh_invocation_jwt_audience := b"a";
     eh_image_ref := b"image"; eh_working_directory := b"/srv"; eh_actor_entrypoint := None; eh_secret_refs := []; eh_host_idle_timeout_ms := 5000 |}.

Definition demo_spare : SpareHandle := demo_handle (b"s1").
Definition demo_secrets : environment := {[b"KEY" := b"v"]}.
Definition demo_environment : result environment := assignment_environment demo_request demo_spare demo_secrets.

Lemma demo_request_ok :
  request_ok (StorageConfig := bytes) (Address := bytes) Some (λ _, true) demo_request demo_spare Typescript (b"storage") None.
Proof.
  split.
  - vm_compute. reflexivity.
  - split; [vm_compute; reflexivity|discriminate].
  - repeat split; discriminate.
  - unfold MAX_IDLE_TIMEOUT_MS. simpl. lia.
  - split; [done|by eexists].
  - vm_compute. reflexivity.
  - reflexivity.
  - intros artifact manifest entrypoint Ha. vm_compute in Ha. injection Ha as <-.
    intros Hm. vm_compute in Hm. injection Hm as <-. intros He. vm_compute in He. injection He as <-. reflexivity.
  - intros actor Ha. injection Ha as <-. vm_compute. discriminate.
Qed.

Lemma assigned_host_is_requested_witness : ∃ e config,
  demo_environment = Ok e ∧ assigned_config (StorageConfig := bytes) (Address := bytes) Some (λ _, true) e Typescript = Ok config ∧
  becomes demo_request demo_spare demo_secrets config.
Proof.
  assert (is_ok demo_environment = true) as Hok by (vm_compute; reflexivity).
  destruct demo_environment as [e|] eqn:He; [|discriminate].
  destruct (assigned_host_is_requested (StorageConfig := bytes) (Address := bytes) Some (λ _, true) demo_request demo_spare
    demo_secrets e ltac:(vm_compute; discriminate) He) as [Hb Hs].
  destruct (Hs Typescript (b"storage") None demo_request_ok) as [config Hc].
  exists e, config. split; [done|]. split; [done|]. exact (Hb _ _ Hc).
Defined.
