(* ===== verification/Assignment.v ===== *)
(** * Starting a host for an actor

    How the control plane turns a spare sandbox into the host of an actor, and has it
    carry out the operation the actor was needed for: [launch] and [provision] of
    [src/src/control_plane/service.rs], the provider of [src/src/sandbox/remote.rs], and
    on the other side the [assign] endpoint of the spare ([src/src/host/assignment.rs]),
    [src/src/host/spare.rs] and the start of a host in [src/src/host/process.rs].

    The calls of others come with their answers: the pool, admission, secrets and
    credentials ([Provisioning]), the cluster, and what the parts of a starting host
    answer ([Startup]). What is sent to a spare is answered by a function of it. The
    clock is anchored to its first reading, so a reading after a successful one
    succeeds. Timings of log records are left out. *)

From Stdlib Require Import ZArith Floats.SpecFloat.
From S2P Require Import Prelude Text Names Payload StateLog Effects Runtime Lifecycle Admission Deployment Routing Pool Protocol ActorHost Tokens HostHttp HostConfig Dispatch.
Local Open Scope N_scope.

Section assignment.
Context {StorageConfig Address : Type}.
Context `{Digest} `{Base64} `{!Json ActorBundle} `{!Json ActorKey} `{!Json ResourceLimits} `{!Json environment}
  `{!Json OwnershipHint} `{!Json StorageConfig} `{!UuidParse}.
Context (parse_address : bytes → option Address) (valid_endpoint : bytes → bool).
Context `{JsonObjects} `{!Json Value} `{!StandardBase64}.
(** [config.storage.region] *)
Context (region_of : StorageConfig → bytes).

(** ** The spare *)

Record InitialOperation := {
  io_request : InitialRequest;
  io_routing_ms : f64;
}.

Abbreviation EnsureHostRequest := (EnsureHostRequest InitialOperation).
Abbreviation ActorHostConfig := (ActorHostConfig (StorageConfig := StorageConfig) (Address := Address)).

Inductive AssignmentInput :=
| OperationInput (e : environment) (o : InitialOperation)
| EnvironmentInput (e : environment).

Record AssignmentState := {
  sp_authorization : bytes;
  sp_pending : bool;
}.

Record Assignment := {
  asg_environment : environment;
  asg_operation : option InitialOperation;
}.

(** [router], with the length [serve_spare] asks of the token. *)
Definition spare_new (token : bytes) : result AssignmentState :=
  ensure (32 <=? len token) "spare token is too short";;
  Ok {| sp_authorization := b"Bearer " ++ token; sp_pending := true |}.

Definition is_finite (x : f64) : bool :=
  match x with S754_zero _ | S754_finite _ _ _ => true | S754_infinity _ | S754_nan => false end.

Definition validate_operation (e : environment) (o : InitialOperation) : result unit :=
  text ← ctx (e !! b"DURABLE_ACTORS_ACTOR") "actor identity missing";
  actor ← ctx (from_json text) "invalid JSON";
  requested ← match io_request o with
              | InitialInvoke inv _ => validate_invocation inv;; Ok (inv_actor inv)
              | InitialSocket inv => validate_actor (sock_actor inv);; Ok (sock_actor inv)
              end;
  ensure (requested == actor) "assignment operation actor mismatch";;
  ensure (is_finite (io_routing_ms o) && SFleb (S754_zero false) (io_routing_ms o)) "invalid routing time".

(** [assign] up to its wait; [received] says whether the spare still waits for its
    assignment. *)
Definition assign_take (authorization : option bytes) (input : AssignmentInput) (received : bool) (s : AssignmentState)
    : AssignmentState * (Assignment + N) :=
  match authorization with
  | None => (s, inr 401)
  | Some supplied =>
      if sp_authorization s != supplied then (s, inr 401)
      else
        let '(e, o) := match input with OperationInput e o => (e, Some o) | EnvironmentInput e => (e, None) end in
        match (if o is Some o then validate_operation e o else Ok ()) with
        | Err _ => (s, inr 400)
        | Ok _ =>
            if sp_pending s then
              ({| sp_authorization := sp_authorization s; sp_pending := false |},
               if received then inl {| asg_environment := e; asg_operation := o |} else inr 503)
            else (s, inr 409)
        end
  end.

Record HostReadiness := {
  rdy_initial_reply : option Value;
  rdy_host_id : bytes;
  rdy_session_id : bytes;
  rdy_route : bytes;
  rdy_canonical_region : bytes;
  rdy_owner_epoch : N;
  rdy_lease : HostLease;
}.

(** What becomes of the channel to the waiting [assign]. *)
Inductive Readiness := Ready (r : HostReadiness) | NotStarted | SenderDropped.

(** The rest of [assign]. *)
Definition assign_answer (r : Readiness) : HostReadiness + N :=
  match r with Ready r => inl r | NotStarted => inr 409 | SenderDropped => inr 503 end.

(** What the parts of a starting host answer. *)
Record Startup := {
  su_ready_removed : result unit;
  su_prepared : result bytes;
  su_epoch : result N;
  su_lease : result HostLease;
  su_ready_written : result unit;
  su_lease_after : result HostLease;
  su_lifecycle : result unit;
}.

(** [serve_assigned_host] until the host is ready: whether the operation was started, and
    what it tells [assign], if it ever does. [execute] is [execute_initial]. *)
Definition serve_assigned_host (config : ActorHostConfig) (o : option InitialOperation) (x : Startup)
    (execute : InitialRequest → N → option (result Value)) : bool * option Readiness :=
  match (route ← su_prepared x;
         epoch ← su_epoch x;
         su_lease x;;
         (if hc_ready_file config is Some _ then su_ready_written x else Ok ());;
         Ok (route, epoch)) with
  | Err _ => (false, Some NotStarted)
  | Ok (route, epoch) =>
      let finish (started : bool) (reply : option Value) :=
        match su_lease_after x with
        | Err _ => if started then SenderDropped else NotStarted
        | Ok lease =>
            match su_lifecycle x with
            | Err _ => SenderDropped
            | Ok _ => Ready {| rdy_initial_reply := reply; rdy_host_id := hi_host_id (hc_identity config);
                               rdy_session_id := hi_session_id (hc_identity config); rdy_route := route;
                               rdy_canonical_region := region_of (hc_storage config); rdy_owner_epoch := epoch;
                               rdy_lease := lease |}
            end
        end in
      match o with
      | None => (false, Some (finish false None))
      | Some o =>
          (true, match execute (io_request o) epoch with
                 | None => None
                 | Some (Err _) => Some SenderDropped
                 | Some (Ok v) => Some (finish true (Some v))
                 end)
      end
  end.

(** [serve_spare] after it was assigned. *)
Definition serve_spare (runtime : ActorRuntime) (a : Assignment) (x : Startup)
    (execute : InitialRequest → N → option (result Value)) : bool * option Readiness :=
  match su_ready_removed x with
  | Err _ => (false, Some SenderDropped)
  | Ok _ =>
      match assigned_config parse_address valid_endpoint (asg_environment a) runtime with
      | Err _ => (false, Some NotStarted)
      | Ok config => serve_assigned_host config (asg_operation a) x execute
      end
  end.

(** ** The provider *)

(** Without the times only the providers that run a command fill in. *)
Record ActorHostProvisioning := {
  prov_provider : bytes;
  prov_resource_id : bytes;
  prov_reused : bool;
  prov_started_at_ms : N;
  prov_completed_at_ms : N;
}.

Record ActorHostHandle := {
  hd_initial_reply : option Value;
  hd_lease : option HostLease;
  hd_owner_epoch : N;
  hd_host_id : bytes;
  hd_route : bytes;
  hd_canonical_region : bytes;
  hd_provisioning : option ActorHostProvisioning;
}.

(** [HostReadiness] printed by the host and read as an [ActorHostHandle]. *)
Definition handle_of (r : HostReadiness) : ActorHostHandle :=
  {| hd_initial_reply := rdy_initial_reply r; hd_lease := Some (rdy_lease r); hd_owner_epoch := rdy_owner_epoch r;
     hd_host_id := rdy_host_id r; hd_route := rdy_route r; hd_canonical_region := rdy_canonical_region r;
     hd_provisioning := None |}.

Definition declined_before_execution (status : N) : bool := bool_decide (status ∈ [400; 401; 409]).

Record AssignmentPost := {
  ap_url : bytes;
  ap_token : bytes;
  ap_body : AssignmentInput;
}.

Definition assignment_post (spare : SpareHandle) (e : environment) (o : option InitialOperation) : AssignmentPost :=
  {| ap_url := trim_end_slash (control_route spare) ++ b"/assign"; ap_token := control_token spare;
     ap_body := match o with Some o => OperationInput e o | None => EnvironmentInput e end |}.

(** [error.context(AssignmentOutcomeUnknown)] where an operation was sent *)
Definition failure {A} (sent : option A) (e : string) : service_failure :=
  if sent is Some _ then OutcomeUnknownFailure e else OtherFailure e.

(** [HttpAssignment::assign], given the response. *)
Definition http_assign (o : option InitialOperation) (r : response ActorHostHandle) : ActorHostHandle + service_failure :=
  match r with
  | ConnectFailed => inr (OtherFailure "connect")
  | SendFailed => inr (failure o "send")
  | Responded status body =>
      if declined_before_execution status then inr (OtherFailure "spare declined the assignment before running it")
      else if (400 <=? status) && (status <? 600) then inr (failure o "status")
      else match body with
           | None => inr (failure o "decode host assignment")
           | Some h =>
               if bool_decide (is_Some o) && bool_decide (hd_initial_reply h = None)
               then inr (failure o "assignment omitted operation result") else inl h
           end
  end.

Definition validate_assigned (request : EnsureHostRequest) (spare : SpareHandle) (h : ActorHostHandle) (now : result N)
    : result unit :=
  lease ← ctx (hd_lease h) "assigned host did not acquire ownership";
  now ← now;
  ensure ((hd_host_id h == eh_host_id request) && (lease_id lease == eh_host_id request) &&
          (session_id lease == eh_session_id request) && (now <? expires_at_ms lease) && (0 <? hd_owner_epoch h) &&
          (hd_route h == handle_route spare) && (route lease == handle_route spare) &&
          (hd_canonical_region h == eh_canonical_region request)) "assigned host identity mismatch".

(** [RemoteSandboxProvider::assign]: what it sent, and its result. *)
Definition provider_assign (request : EnsureHostRequest) (spare : SpareHandle) (secrets : result environment) (now : result N)
    (send : AssignmentPost → response ActorHostHandle) : list AssignmentPost * (ActorHostHandle + service_failure) :=
  match (ensure (canonical_region spare == eh_canonical_region request) "spare region mismatch";;
         secrets ← secrets;
         assignment_environment request spare secrets) with
  | Err e => ([], inr (OtherFailure e))
  | Ok e =>
      let p := assignment_post spare e (eh_initial_operation request) in
      ([p], match http_assign (eh_initial_operation request) (send p) with
            | inr f => inr f
            | inl h =>
                match validate_assigned request spare h now with
                | Ok _ => inl h
                | Err e => inr (failure (hd_initial_reply h) e)
                end
            end)
  end.

(** [SpareKind] has the one constructor [Actor], so the field is left out. *)
Record CreateSpareRequest := {
  cs_control_plane_url : option bytes;
  cs_otlp_endpoint : option bytes;
  cs_name : bytes;
  cs_image_ref : bytes;
  cs_canonical_region : bytes;
  cs_resources : ResourceLimits;
}.

Definition with_provisioning (p : ActorHostProvisioning) (h : ActorHostHandle) : ActorHostHandle :=
  {| hd_initial_reply := hd_initial_reply h; hd_lease := hd_lease h; hd_owner_epoch := hd_owner_epoch h;
     hd_host_id := hd_host_id h; hd_route := hd_route h; hd_canonical_region := hd_canonical_region h;
     hd_provisioning := Some p |}.

(** What a launch does to others. *)
Inductive launch_call :=
| AdmissionReserved | AdmissionReleased
| PoolReserved (session host config_key : bytes)
| PoolFailed (host : bytes)
| PoolRemembered (host config_key : bytes) (h : SpareHandle)
| SpareRetired (h : SpareHandle)
| AssignmentSent (p : AssignmentPost).

(** The answers of the cluster, the secrets and the clock. *)
Record Provider := {
  pr_name : bytes;
  pr_started : result N;
  pr_cluster_create : CreateSpareRequest → result SpareHandle;
  pr_secrets : result environment;
  pr_assigned_at : result N;
  pr_completed : N;
}.

Definition create_spare_request (request : EnsureHostRequest) : CreateSpareRequest :=
  {| cs_control_plane_url := Some (eh_control_plane_url request); cs_otlp_endpoint := eh_otlp_endpoint request;
     cs_name := b"do-actor-" ++ eh_session_id request; cs_image_ref := eh_image_ref request;
     cs_canonical_region := eh_canonical_region request; cs_resources := eh_resources request |}.

Definition ensure_host (x : Provider) (request : EnsureHostRequest) (send : AssignmentPost → response ActorHostHandle)
    : list launch_call * (ActorHostHandle + service_failure) :=
  match (started ← pr_started x;
         spare ← match eh_spare request with
                 | Some spare => Ok spare
                 | None => validate_image (eh_image_ref request);; pr_cluster_create x (create_spare_request request)
                 end;
         Ok (started, spare)) with
  | Err e => ([], inr (OtherFailure e))
  | Ok (started, spare) =>
      let '(posts, r) := provider_assign request spare (pr_secrets x) (pr_assigned_at x) send in
      let sent := AssignmentSent <$> posts in
      match r with
      | inr f => (sent ++ [SpareRetired spare], inr f)
      | inl h =>
          (sent, inl (with_provisioning {| prov_provider := pr_name x; prov_resource_id := resource_id spare;
             prov_reused := bool_decide (is_Some (eh_spare request)); prov_started_at_ms := started;
             prov_completed_at_ms := pr_completed x |} h))
      end
  end.

(** ** The control plane *)

Context (url_parse : bytes → result Url).

Definition validate_host_route (route : bytes) : result unit :=
  u ← url_parse route;
  ensure (((url_scheme u == b"http") || (url_scheme u == b"https")) && bool_decide (is_Some (url_host u)))
    "host route must be an HTTP origin";;
  ensure ((url_username u == []) && bool_decide (url_password u = None)) "host route must not contain credentials";;
  ensure ((url_path u == b"/") && bool_decide (url_query u = None) && bool_decide (url_fragment u = None))
    "host route must not contain a path, query, or fragment".

Definition ready_lease (h : ActorHostHandle) (request : EnsureHostRequest) (now : result N) : result HostLease :=
  ensure ((hd_host_id h == eh_host_id request) && (hd_canonical_region h == eh_canonical_region request))
    "sandbox readiness scope mismatch";;
  validate_host_route (hd_route h);;
  lease ← ctx (hd_lease h) "sandbox readiness omitted activation lease";
  ensure ((lease_id lease == eh_host_id request) && (session_id lease == eh_session_id request) &&
          (route lease == hd_route h)) "sandbox readiness lease mismatch";;
  now ← now;
  ensure ((now <? expires_at_ms lease) &&
          (expires_at_ms lease <=? N.min u64_max (now + (MAX_HOST_LEASE_DURATION_MS + 5000))))
    "sandbox readiness lease expired or invalid";;
  Ok lease.

(** The answers of the pool and of the access to storage. *)
Record Provisioning := {
  pv_pool : bool;
  pv_bootstrap : option (result bytes);
  pv_claim : result (option SpareHandle);
  pv_reserve : result unit;
  pv_elapsed_ms : f64;
  pv_now : result N;
  pv_remember : result unit;
}.

Definition set_started (spare : option SpareHandle) (runtime_config : option bytes) (elapsed : f64)
    (r : EnsureHostRequest) : EnsureHostRequest :=
  {| eh_initial_operation :=
       (λ o, {| io_request := io_request o; io_routing_ms := f64_add (io_routing_ms o) elapsed |}) <$> eh_initial_operation r;
     eh_actor_is_new := eh_actor_is_new r; eh_owner_hint := eh_owner_hint r; eh_actor := eh_actor r;
     eh_code_snapshot := eh_code_snapshot r; eh_spare := spare; eh_resources := eh_resources r;
     eh_runtime_config := runtime_config; eh_host_config_key := eh_host_config_key r;
     eh_canonical_region := eh_canonical_region r; eh_host_id := eh_host_id r; eh_session_id := eh_session_id r;
     eh_host_token := eh_host_token r; eh_jwt_public_keys := eh_jwt_public_keys r;
     eh_control_plane_url := eh_control_plane_url r; eh_otlp_endpoint := eh_otlp_endpoint r;
     eh_jwt_issuer := eh_jwt_issuer r; eh_invocation_jwt_audience := eh_invocation_jwt_audience r;
     eh_image_ref := eh_image_ref r; eh_working_directory := eh_working_directory r;
     eh_actor_entrypoint := eh_actor_entrypoint r; eh_secret_refs := eh_secret_refs r;
     eh_host_idle_timeout_ms := eh_host_idle_timeout_ms r |}.

(** The sandbox the pool is told to remember. *)
Definition remembered (request : EnsureHostRequest) (region : bytes) (lease : HostLease) (p : ActorHostProvisioning)
    : SpareHandle :=
  {| control_route := []; control_token := [];
     handle_name := from_option handle_name (b"do-actor-" ++ eh_session_id request) (eh_spare request);
     resource_id := prov_resource_id p; handle_route := route lease; canonical_region := region |}.

(** [provision] once the host is ready: the lease, and what it told the pool. *)
Definition host_ready (v : Provisioning) (config_key region : bytes) (request : EnsureHostRequest) (h : ActorHostHandle)
    : list launch_call * result HostLease :=
  match (ensure (0 <? hd_owner_epoch h) "host readiness returned no ownership epoch";;
         ensure (negb (pv_pool v) || (hd_host_id h == eh_host_id request)) "provider returned a different host identity";;
         lease ← ready_lease h request (pv_now v);
         told ← (if pv_pool v then
                   p ← ctx (hd_provisioning h) "provider did not identify the assigned sandbox";
                   Ok [PoolRemembered (lease_id lease) config_key (remembered request region lease p)]
                 else Ok []);
         Ok (lease, told)) with
  | Err e => ([], Err e)
  | Ok (lease, told) => (told, (if pv_pool v then pv_remember v else Ok ());; Ok lease)
  end.

Definition provision (v : Provisioning) (x : Provider) (config_key region : bytes) (request : EnsureHostRequest)
    (send : AssignmentPost → response ActorHostHandle)
    : list launch_call * ((HostLease * N * option Value) + service_failure) :=
  let gave_up := if pv_pool v then [PoolFailed (eh_host_id request)] else [] in
  match (if pv_pool v then pv_claim v else Ok None) with
  | Err e => ([], inr (OtherFailure e))
  | Ok spare =>
      let reserves := pv_pool v && bool_decide (spare = None) in
      let told := if reserves then [PoolReserved (eh_session_id request) (eh_host_id request) config_key] else [] in
      match (if reserves then pv_reserve v else Ok ()) with
      | Err e => (told, inr (OtherFailure e))
      | Ok _ =>
          match transpose (pv_bootstrap v) with
          | Err e => (told ++ gave_up, inr (OtherFailure e))
          | Ok config =>
              let request := set_started spare config (pv_elapsed_ms v) request in
              let '(done, r) := ensure_host x request send in
              match r with
              | inr f => (told ++ done ++ gave_up, inr f)
              | inl h =>
                  let '(kept, ready) := host_ready v config_key region request h in
                  match ready with
                  | Ok lease => (told ++ done ++ kept, inl (lease, hd_owner_epoch h, hd_initial_reply h))
                  | Err e => (told ++ done ++ kept ++ gave_up, inr (failure (hd_initial_reply h) e))
                  end
              end
          end
      end
  end.

Definition with_operation (o : option InitialOperation) (new_actor : bool) (hint : option OwnershipHint)
    (r : EnsureHostRequest) : EnsureHostRequest :=
  {| eh_initial_operation := o; eh_actor_is_new := new_actor; eh_owner_hint := to_json <$> hint; eh_actor := eh_actor r;
     eh_code_snapshot := eh_code_snapshot r; eh_spare := eh_spare r; eh_resources := eh_resources r;
     eh_runtime_config := eh_runtime_config r; eh_host_config_key := eh_host_config_key r;
     eh_canonical_region := eh_canonical_region r; eh_host_id := eh_host_id r; eh_session_id := eh_session_id r;
     eh_host_token := eh_host_token r; eh_jwt_public_keys := eh_jwt_public_keys r;
     eh_control_plane_url := eh_control_plane_url r; eh_otlp_endpoint := eh_otlp_endpoint r;
     eh_jwt_issuer := eh_jwt_issuer r; eh_invocation_jwt_audience := eh_invocation_jwt_audience r;
     eh_image_ref := eh_image_ref r; eh_working_directory := eh_working_directory r;
     eh_actor_entrypoint := eh_actor_entrypoint r; eh_secret_refs := eh_secret_refs r;
     eh_host_idle_timeout_ms := eh_host_idle_timeout_ms r |}.

(** [launch]; [admission] is what [ActorAdmission::reserve] answers, if there is one. *)
Definition launch (v : Provisioning) (x : Provider) (admission : option (unit + option AdmissionRejected * string)) (config_key region : bytes)
    (request : result EnsureHostRequest) (new_actor : bool) (hint : option OwnershipHint) (o : option InitialOperation)
    (send : AssignmentPost → response ActorHostHandle)
    : list launch_call * ((HostLease * N * option Value) + service_failure) :=
  match request with
  | Err e => ([], inr (OtherFailure e))
  | Ok request =>
      let request := with_operation o new_actor hint request in
      match admission with
      | None => provision v x config_key region request send
      | Some (inr (rejected, e)) =>
          ([AdmissionReserved], inr (from_option (λ r, AdmissionRejectedFailure r e) (OtherFailure e) rejected))
      | Some (inl _) =>
          let '(l, r) := provision v x config_key region request send in
          (AdmissionReserved :: l ++ (if r is inr _ then [AdmissionReleased] else []), r)
      end
  end.
End assignment.

(** ** The request for a host *)

Record HostSandboxRuntimeConfig := {
  rt_control_plane_url : bytes;
  rt_otlp_endpoint : option bytes;
  rt_jwt_issuer : bytes;
  rt_invocation_jwt_audience : bytes;
  rt_host_idle_timeout_ms : N;
}.

Section request.
Context {Operation Number : Type} `{!JsonNumber Number} `{Digest} `{Base64}.
Context `{!Json (bytes * list bytes * bytes * option bytes * bytes * option bytes), !Json bytes,
          !Json (list (bytes * SandboxOptions Number))}.
Context `{JsonValue} `{!JsonOps} `{!Json Value} `{!UuidParse} `{!Jwt}.

(** [SandboxHostProvisioner::request]; [defaults] are the resources of the pool,
    [keys] the printed keys of the issuer, [image] the choice of [RuntimeImages]. *)
Definition host_request (issuer : ActorJwtIssuer) (keys : result bytes) (runtime : HostSandboxRuntimeConfig)
    (defaults : ResourceLimits) (image : option (result bytes)) (now_ms : Z) (host_uuid session_uuid : bytes)
    (spec : HostLaunchSpec Number) (region : bytes) (actor : ActorKey) : result (EnsureHostRequest Operation) :=
  let options := default default_options (sandbox_of (actor_name actor) spec) in
  validate_options options;;
  let key := config_key spec in
  let host := b"host.v3." ++ key ++ b"." ++ host_uuid in
  token ← issue_host issuer now_ms (organization_id spec) host session_uuid key region actor;
  keys ← keys;
  image ← default (Ok (image_ref spec)) image;
  Ok {| eh_initial_operation := None; eh_actor_is_new := false; eh_owner_hint := None; eh_actor := Some actor;
        eh_code_snapshot := code_snapshot spec; eh_spare := None; eh_resources := resources_of options defaults;
        eh_runtime_config := None; eh_host_config_key := key; eh_canonical_region := region; eh_host_id := host;
        eh_session_id := session_uuid; eh_host_token := issued_token token; eh_jwt_public_keys := keys;
        eh_control_plane_url := rt_control_plane_url runtime; eh_otlp_endpoint := rt_otlp_endpoint runtime;
        eh_jwt_issuer := rt_jwt_issuer runtime; eh_invocation_jwt_audience := rt_invocation_jwt_audience runtime;
        eh_image_ref := image; eh_working_directory := working_directory spec;
        eh_actor_entrypoint :=
          match actor_entrypoint spec with
          | Some e => Some e
          | None => (λ _, b"actors.mjs") <$> code_snapshot spec
          end;
        eh_secret_refs := secret_refs spec;
        eh_host_idle_timeout_ms := default (rt_host_idle_timeout_ms runtime) (idle_timeout_ms options) |}.
End request.
