(* ===== verification/AssignmentSafety.v ===== *)
(** * What a failed launch leaves behind

    The control plane of [Assignment] against the spare it talks to: an error that does
    not say that the outcome is unknown means that the operation was not started, so
    that the caller may try elsewhere. *)

From Stdlib Require Import ZArith Floats.SpecFloat.
From S2P Require Import Prelude Text Demo Names Payload StateLog Effects Runtime Safety Lifecycle Admission Deployment Routing Pool Protocol ActorHost Tokens HostHttp DispatchDemo HostConfig Dispatch DispatchSafety Assignment.
Local Open Scope N_scope.

Section safety.
Context {StorageConfig Address : Type}.
Context `{Digest} `{Base64} `{!Json ActorBundle} `{!Json ActorKey} `{!Json ResourceLimits} `{!Json environment}
  `{!Json OwnershipHint} `{!Json StorageConfig} `{!UuidParse}.
Context (parse_address : bytes → option Address) (valid_endpoint : bytes → bool).
Context `{JsonObjects} `{!Json Value} `{!StandardBase64}.
Context (region_of : StorageConfig → bytes) (url_parse : bytes → result Url).
Implicit Types (s : AssignmentState) (p : AssignmentPost) (o : InitialOperation).

(** ** The spare at the other end *)

(** A request that reaches the spare: whether the spare waits for an assignment, what
    the parts of the host answer, and how it carries out an operation. *)
Record Arrival := {
  ar_received : bool;
  ar_runtime : ActorRuntime;
  ar_startup : Startup;
  ar_execute : InitialRequest → N → option (result Value);
}.
Implicit Types x : Arrival.

(** It does not get there; it is lost; it arrives, and the response may be lost. *)
Inductive passage := NotReached | LostBefore | Arrived (x : Arrival) (lost : bool).
Implicit Types d : passage.

Definition taken s x p : Assignment + N :=
  (assign_take (Some (b"Bearer " ++ ap_token p)) (ap_body p) (ar_received x) s).2.

Definition served x (a : Assignment) : bool * option Readiness :=
  serve_spare parse_address valid_endpoint region_of (ar_runtime x) a (ar_startup x) (ar_execute x).

Definition spare_responds s x p : response ActorHostHandle :=
  match taken s x p with
  | inr status => Responded status None
  | inl a =>
      match (served x a).2 with
      | None => SendFailed
      | Some r =>
          match assign_answer r with
          | inl ready => Responded 200 (Some (handle_of ready))
          | inr status => Responded status None
          end
      end
  end.

Definition respond s d p : response ActorHostHandle :=
  match d with
  | NotReached => ConnectFailed
  | LostBefore | Arrived _ true => SendFailed
  | Arrived x false => spare_responds s x p
  end.

(** The operation that came with the request was handed to the host. *)
Definition operation_started s d p : bool :=
  match d with
  | Arrived x _ => match taken s x p with inl a => (served x a).1 | inr _ => false end
  | NotReached | LostBefore => false
  end.

(** ** One assignment *)

Definition body_operation (i : AssignmentInput) : option InitialOperation :=
  match i with OperationInput _ o => Some o | EnvironmentInput _ => None end.

Lemma taken_operation s x p a : taken s x p = inl a → asg_operation a = body_operation (ap_body p).
Proof.
  unfold taken, assign_take. intros Ha. destruct (_ != _); [done|].
  destruct (ap_body p) as [e o|e]; simpl in *.
  - destruct (validate_operation e o); [|done]. destruct (sp_pending s); [|done]. by destruct (ar_received x); simplify_eq/=.
  - destruct (sp_pending s); [|done]. by destruct (ar_received x); simplify_eq/=.
Qed.

(** A spare takes one assignment. *)
Lemma spare_assigned_once auth input received s s' a auth' input' received' :
  assign_take auth input received s = (s', inl a) → ∃ status, (assign_take auth' input' received' s').2 = inr status.
Proof.
  intros Ha. assert (sp_pending s' = false) as Hp.
  { unfold assign_take in Ha. repeat case_match; simplify_eq; done. }
  unfold assign_take. rewrite Hp. repeat case_match; simpl; eauto.
Qed.

(** A host that says it did not start has not started the operation; one that is ready
    carried it out. *)
Lemma served_cases x a :
  match served x a with
  | (started, Some NotStarted) => started = false
  | (started, Some (Ready r)) =>
      match asg_operation a with
      | None => started = false ∧ rdy_initial_reply r = None
      | Some o => ∃ v, ar_execute x (io_request o) (rdy_owner_epoch r) = Some (Ok v) ∧ rdy_initial_reply r = Some v
      end
  | (started, _) => started = true → is_Some (asg_operation a)
  end.
Proof.
  unfold served, serve_spare, serve_assigned_host. repeat case_match; simplify_eq/=; eauto; try done.
Qed.

Lemma started_operation x a : (served x a).1 = true → is_Some (asg_operation a).
Proof.
  pose proof (served_cases x a) as Hc. destruct (served x a) as [started [[r| |]|]]; simpl; intros ->; try (by apply Hc); [|done].
  destruct (asg_operation a); [done|by destruct Hc].
Qed.

Lemma started_body s d p : operation_started s d p = true → is_Some (body_operation (ap_body p)).
Proof.
  unfold operation_started. destruct d as [| |x lost]; [done..|]. destruct (taken s x p) as [a|] eqn:Ht; [|done].
  intros Hs. rewrite <- (taken_operation _ _ _ _ Ht). by apply (started_operation x).
Qed.

(** What the client can tell from a response. *)
Lemma declined_not_started s d p :
  (respond s d p = ConnectFailed ∨ ∃ status body, respond s d p = Responded status body ∧ declined_before_execution status = true) →
  operation_started s d p = false.
Proof.
  intros Hr. unfold operation_started. destruct d as [| |x [|]]; [done..|by destruct Hr as [?|(? & ? & ? & _)]|].
  unfold respond, spare_responds in Hr. destruct (taken s x p) as [a|status]; [|done].
  pose proof (served_cases x a) as Hc. destruct (served x a) as [started [[r| |]|]]; simpl in *; [| done | |];
    destruct Hr as [Hr|(? & ? & Hr & Hd)]; simplify_eq; by vm_compute in Hd.
Qed.

Lemma http_assign_failed oo r f :
  http_assign oo r = inr f → (∀ e, f ≠ OutcomeUnknownFailure e) →
  oo = None ∨ r = ConnectFailed ∨ ∃ status body, r = Responded status body ∧ declined_before_execution status = true.
Proof.
  unfold http_assign, failure. destruct oo as [o|]; [|by left]. intros Hf Hu. right.
  destruct r as [| |status body]; [by left|naive_solver|]. right. destruct (declined_before_execution status) eqn:Hd; [by eauto|].
  repeat case_match; naive_solver.
Qed.

Lemma http_assign_unknown oo r e : http_assign oo r = inr (OutcomeUnknownFailure e) → is_Some oo.
Proof. unfold http_assign, failure. intros. repeat case_match; simplify_eq; eauto; done. Qed.

(** A handle is what the host said. *)
Lemma http_assign_ok oo s d p h :
  http_assign oo (respond s d p) = inl h →
  ∃ x a started ready, d = Arrived x false ∧ taken s x p = inl a ∧ served x a = (started, Some (Ready ready)) ∧ h = handle_of ready ∧
    (is_Some oo → is_Some (hd_initial_reply h)).
Proof.
  intros Hh. unfold http_assign in Hh. destruct (respond s d p) as [| |status [h'|]] eqn:Hr; try (repeat case_match; by simplify_eq).
  assert (h' = h ∧ (is_Some oo → is_Some (hd_initial_reply h))) as [-> Hsome].
  { repeat case_match; simplify_eq. split; [done|]. intros [o ->]. destruct (hd_initial_reply h); [by eexists|by simplify_eq/=]. }
  clear Hh. destruct d as [| |x [|]]; simpl in Hr; try discriminate. unfold spare_responds in Hr.
  destruct (taken s x p) as [a|] eqn:Ht; [|discriminate]. destruct (served x a) as [started [[ready| |]|]] eqn:Hs; simpl in Hr; try discriminate.
  injection Hr as _ <-. by exists x, a, started, ready.
Qed.

(** ** A launch *)

Definition posts (calls : list launch_call) : list AssignmentPost :=
  omap (λ c, match c with AssignmentSent p => Some p | _ => None end) calls.

Lemma posts_app l l' : posts (l ++ l') = posts l ++ posts l'.
Proof. apply omap_app. Qed.

(** What a result says of the operation [oo], which came with at most one request. *)
Definition accounted {A} s d (oo : option InitialOperation) (sent : list AssignmentPost) (good : A → Prop)
    (r : A + service_failure) : Prop :=
  (length sent ≤ 1)%nat ∧
  match r with
  | inl a => good a
  | inr (OutcomeUnknownFailure _) => is_Some oo
  | inr _ => Forall (λ p, operation_started s d p = false) sent
  end.

(** The answer that the operation was given. *)
Definition replied d (oo : option InitialOperation) (epoch : N) (reply : option Value) : Prop :=
  ∃ x, d = Arrived x false ∧
    match oo with
    | None => reply = None
    | Some o => ∃ v, reply = Some v ∧ ar_execute x (io_request o) epoch = Some (Ok v)
    end.

Definition handle_replied d oo (h : ActorHostHandle) : Prop := replied d oo (hd_owner_epoch h) (hd_initial_reply h).

Lemma replied_failure {A} s d (oo : option InitialOperation) sent (good : A → Prop) epoch reply e :
  (length sent ≤ 1)%nat → Forall (λ p, is_Some (body_operation (ap_body p)) → is_Some oo) sent → replied d oo epoch reply →
  accounted s d oo sent good (inr (failure reply e)).
Proof.
  intros Hl Hb (x & -> & Hr). split; [done|]. unfold failure. destruct oo as [o|].
  - by destruct Hr as (v & -> & _).
  - subst reply. apply (Forall_impl _ _ _ Hb). intros p Hp. apply not_true_is_false. intros Hs.
    by destruct (Hp (started_body _ _ _ Hs)).
Qed.

Lemma assign_accounted (request : EnsureHostRequest InitialOperation) spare secrets now s d :
  let '(sent, r) := provider_assign request spare secrets now (respond s d) in
  accounted s d (eh_initial_operation request) sent (handle_replied d (eh_initial_operation request)) r ∧
  Forall (λ p, body_operation (ap_body p) = eh_initial_operation request) sent.
Proof.
  unfold provider_assign. destruct (mbind _ _) as [e|e]; [|by split; [split; [simpl; lia|constructor]|constructor]].
  set (oo := eh_initial_operation request). set (p := assignment_post spare e oo).
  assert (body_operation (ap_body p) = oo) as Hb by (unfold p, assignment_post; by destruct oo).
  split; [|by constructor]. destruct (http_assign oo (respond s d p)) as [h|f] eqn:Hh.
  - destruct (http_assign_ok _ _ _ _ _ Hh) as (x & a & started & ready & -> & Ht & Hs & -> & Hsome).
    assert (handle_replied (Arrived x false) oo (handle_of ready)) as Hr.
    { exists x. split; [done|]. pose proof (served_cases x a) as Hc. rewrite Hs, (taken_operation _ _ _ _ Ht), Hb in Hc.
      destruct oo as [o|]; [|by destruct Hc]. destruct Hc as (v & Hv & Er). by exists v. }
    destruct (validate_assigned request spare (handle_of ready) now); [by split; [simpl; lia|]|].
    eapply replied_failure; [simpl; lia| |exact Hr]. constructor; [by rewrite Hb|constructor].
  - split; [simpl; lia|]. assert ((∀ m, f ≠ OutcomeUnknownFailure m) → Forall (λ p, operation_started s d p = false) [p]) as Hf.
    { intros Hu. constructor; [|constructor]. destruct (http_assign_failed _ _ _ Hh Hu) as [Hn|Hd]; [|by apply declined_not_started].
      apply not_true_is_false. intros Hst. apply started_body in Hst. rewrite Hb, Hn in Hst. by destruct Hst. }
    destruct f; try (by apply Hf). by eapply http_assign_unknown.
Qed.

Lemma accounted_map {A B} s d oo sent sent' (good : A → Prop) (good' : B → Prop) r r' :
  sent' = sent → match r, r' with inl a, inl c => good a → good' c | inr f, inr f' => f' = f | _, _ => False end →
  accounted s d oo sent good r → accounted s d oo sent' good' r'.
Proof. intros -> Hr [Hl Hg]. split; [done|]. by destruct r as [a|f], r' as [c|f']; simplify_eq; auto. Qed.

Lemma posts_sent (l : list AssignmentPost) : posts (AssignmentSent <$> l) = l.
Proof. unfold posts. induction l as [|p l IH]; [done|]. simpl. by f_equal. Qed.

Lemma ensure_accounted y (request : EnsureHostRequest InitialOperation) s d :
  let '(calls, r) := ensure_host y request (respond s d) in
  accounted s d (eh_initial_operation request) (posts calls) (handle_replied d (eh_initial_operation request)) r ∧
  Forall (λ p, body_operation (ap_body p) = eh_initial_operation request) (posts calls).
Proof.
  unfold ensure_host. destruct (mbind _ _) as [[started spare]|e]; [|by split; [split; [simpl; lia|constructor]|constructor]].
  pose proof (assign_accounted request spare (pr_secrets y) (pr_assigned_at y) s d) as Ha.
  destruct (provider_assign request spare (pr_secrets y) (pr_assigned_at y) (respond s d)) as [sent [h|f]].
  - rewrite posts_sent. destruct Ha as [Ha Hb]. split; [|done].
    refine (accounted_map _ _ _ _ _ _ _ _ _ eq_refl _ Ha). exact (λ Hh, Hh).
  - rewrite posts_app, posts_sent. simpl. rewrite app_nil_r. by destruct Ha.
Qed.

(** The lease a launch returns is that of the host it asked for. *)
Definition leased_to (request : EnsureHostRequest InitialOperation) (lease : HostLease) : Prop :=
  lease_id lease = eh_host_id request ∧ session_id lease = eh_session_id request.

Lemma host_ready_ok v key region (request : EnsureHostRequest InitialOperation) h :
  let '(told, r) := host_ready url_parse v key region request h in
  posts told = [] ∧ (∀ lease, r = Ok lease → leased_to request lease ∧ 0 < hd_owner_epoch h).
Proof.
  unfold host_ready. destruct (mbind _ _) as [[lease told]|e] eqn:E; [|by split].
  apply bind_Ok in E as ([] & Hepoch & E). apply bind_Ok in E as ([] & _ & E). apply bind_Ok in E as (lease' & Hl & E).
  apply bind_Ok in E as (told' & Ht & E). injection E as -> ->. apply ensure_Ok, N.ltb_lt in Hepoch. split.
  - destruct (pv_pool v); [|by injection Ht as <-]. apply bind_Ok in Ht as (p & _ & Ht). by injection Ht as <-.
  - intros lease' Hr. apply bind_Ok in Hr as ([] & _ & Hr). injection Hr as <-. split; [|done].
    unfold ready_lease in Hl. apply bind_Ok in Hl as ([] & _ & Hl). apply bind_Ok in Hl as ([] & _ & Hl).
    apply bind_Ok in Hl as (lease' & _ & Hl). apply bind_Ok in Hl as ([] & Hn & Hl). apply bind_Ok in Hl as (now & _ & Hl).
    apply bind_Ok in Hl as ([] & _ & Hl). injection Hl as ->. apply ensure_Ok in Hn.
    rewrite !andb_true_iff, !bool_decide_eq_true in Hn. by destruct Hn as [[? ?] _].
Qed.

Lemma replied_routing d (oo : option InitialOperation) (f : InitialOperation → InitialOperation) epoch reply :
  (∀ o, io_request (f o) = io_request o) → replied d (f <$> oo) epoch reply → replied d oo epoch reply.
Proof.
  intros Hf (x & -> & Hr). exists x. split; [done|]. destruct oo as [o|]; [|done].
  destruct Hr as (v & -> & Hv). exists v. by rewrite <- (Hf o).
Qed.

Definition launched d (oo : option InitialOperation) (request : EnsureHostRequest InitialOperation)
    (t : HostLease * N * option Value) : Prop :=
  let '(lease, epoch, reply) := t in leased_to request lease ∧ 0 < epoch ∧ replied d oo epoch reply.

Lemma nothing_sent {A} s d oo (good : A → Prop) e : accounted s d oo [] good (inr (OtherFailure e)).
Proof. split; [simpl; lia|constructor]. Qed.

Lemma posts_pool (c : bool) (call : launch_call) :
  match call with AssignmentSent _ => False | _ => True end → posts (if c then [call] else []) = [].
Proof. by destruct c, call. Qed.

Lemma provision_accounted v y key region (request : EnsureHostRequest InitialOperation) s d :
  let '(calls, r) := provision url_parse v y key region request (respond s d) in
  accounted s d (eh_initial_operation request) (posts calls) (launched d (eh_initial_operation request) request) r.
Proof.
  unfold provision. destruct (if pv_pool v then pv_claim v else Ok None) as [spare|e]; [|apply nothing_sent].
  set (told := if pv_pool v && bool_decide (spare = None)
               then [PoolReserved (eh_session_id request) (eh_host_id request) key] else []).
  set (gave_up := if pv_pool v then [PoolFailed (eh_host_id request)] else []).
  assert (posts told = []) as Ht by (by apply posts_pool). assert (posts gave_up = []) as Hg by (by apply posts_pool).
  destruct (if _ && _ then pv_reserve v else Ok ()); [|rewrite Ht; apply nothing_sent].
  destruct (transpose (pv_bootstrap v)) as [config|e]; [|rewrite posts_app, Ht, Hg; apply nothing_sent].
  set (request' := set_started spare config (pv_elapsed_ms v) request). pose proof (ensure_accounted y request' s d) as He.
  destruct (ensure_host y request' (respond s d)) as [calls [h|f]].
  - destruct He as [[Hlen Hr] Hb]. pose proof (host_ready_ok v key region request' h) as Hh.
    destruct (host_ready url_parse v key region request' h) as [kept [lease|e]]; destruct Hh as [Hk Hh].
    + rewrite !posts_app, Ht, Hk, app_nil_r. split; [done|]. destruct (Hh _ eq_refl) as [Hl Hep].
      split; [exact Hl|]. split; [done|]. by eapply replied_routing; [|exact Hr].
    + rewrite !posts_app, Ht, Hk, Hg, !app_nil_r. eapply replied_failure; [done| |by eapply replied_routing; [|exact Hr]].
      apply (Forall_impl _ _ _ Hb). intros p ->. simpl. by rewrite fmap_is_Some.
  - rewrite !posts_app, Ht, Hg, app_nil_r. destruct He as [[Hlen Hf] _]. split; [done|]. destruct f; try done.
    by apply fmap_is_Some in Hf.
Qed.

(** C12. When a host is launched for an actor with an operation to carry out, the
    assignment is sent to at most one sandbox, and an error is what it says: unless the
    outcome is reported as unknown, the operation was not started and the launch can be
    tried elsewhere, whatever got lost, was refused or failed on the way or in the
    starting host. A launch that succeeds returns the lease of the host that was asked
    for and, with it, the answer that host gave to the operation. *)
Theorem launch_errors_are_final v y admission key region request new_actor hint oo s d :
  let '(calls, res) := launch url_parse v y admission key region request new_actor hint oo (respond s d) in
  (length (posts calls) ≤ 1)%nat ∧
  match res with
  | inl (lease, epoch, reply) =>
      ∃ r, request = Ok r ∧ leased_to r lease ∧ 0 < epoch ∧ replied d oo epoch reply
  | inr (OutcomeUnknownFailure _) => is_Some oo
  | inr _ => Forall (λ p, operation_started s d p = false) (posts calls)
  end.
Proof.
  unfold launch. destruct request as [r|e]; [|by split; [simpl; lia|constructor]].
  pose proof (provision_accounted v y key region (with_operation oo new_actor hint r) s d) as Hp.
  destruct (provision url_parse v y key region (with_operation oo new_actor hint r) (respond s d)) as [calls res].
  destruct Hp as [Hl Hr]. destruct admission as [[[]|[[rejected|] e]]|]; [|by split; [simpl; lia|constructor]..|].
  - change (AdmissionReserved :: ?l) with ([AdmissionReserved] ++ l). rewrite !posts_app.
    assert (posts (match res with inl _ => [] | inr _ => [AdmissionReleased] end) = []) as -> by (by destruct res).
    rewrite app_nil_r. split; [done|]. destruct res as [[[lease epoch] reply]|f]; [|done]. by exists r.
  - split; [done|]. destruct res as [[[lease epoch] reply]|f]; [|done]. by exists r.
Qed.
End safety.

(** ** The host that was launched *)

Section launched_host.
Context `{JsonObjectLaws} `{!Json Value} `{!StandardBase64} `{!UuidParse} `{!Jwt}.
Context (event_value : SocketEventReply → Value).

(** [execute_initial] of a host whose mailbox is [h], with its reply printed. *)
Definition host_execute (h : Handling) (request : InitialRequest) (epoch : N) : option (result Value) :=
  (λ r, reply ← r; Ok (match reply with inl r => reply_value r (h_metadata h) | inr r => event_value r end)) <$>
  host_answers h (execute_initial (h_service h) (h_clock h) request epoch (h_publish h)).

(** The reply of a launch is one that [invocation_runs_at_most_once] can rely on. *)
Lemma launched_reply h inv grant t v :
  host_execute h (InitialInvoke inv grant) (target_epoch t) = Some (Ok v) →
  ∃ reply, host_answers h (initial_handler h inv grant t) = Some (Ok (inl reply)) ∧ v = reply_value reply (h_metadata h).
Proof.
  unfold host_execute, initial_handler. intros Hv. apply fmap_Some in Hv as (r & Hr & Hv). symmetry in Hv.
  apply bind_Ok in Hv as (reply & -> & Hv). injection Hv as <-. rewrite Hr. destruct reply as [reply|reply]; [by exists reply|].
  exfalso. unfold host_answers in Hr. destruct (execute_initial _ _ _ _ _) as [y|o epoch k] eqn:Ex.
  - unfold execute_initial in Ex. destruct (mbind _ _); [|congruence]. destruct (_ || _); congruence.
  - apply execute_initial_reply in Ex as ->. by apply fmap_Some in Hr as (res & _ & ?).
Qed.
End launched_host.

(** ** A launch at work *)

Import Stand_in_records Stand_in_documents.
#[local] Existing Instance ser_resources.
#[local] Existing Instance ser_environment.
#[local] Existing Instance ser_hint.
#[local] Existing Instance ser_bundle_file.
#[local] Existing Instance ser_bundle.

Definition demo_method : ActorInvocation :=
  {| inv_request_id := b"r1"; inv_actor := {| project_id := b"p"; actor_name := b"room"; actor_id := b"1" |};
     inv_method := b"rename"; inv_args := [] |}.
Definition demo_operation : InitialOperation :=
  {| io_request := InitialInvoke demo_method None; io_routing_ms := S754_zero false |}.

Definition demo_asked : EnsureHostRequest InitialOperation :=
  {| eh_initial_operation := None; eh_actor_is_new := true; eh_owner_hint := None; eh_actor := Some (inv_actor demo_method);
     eh_code_snapshot := ok (bundle_encode demo_bundle); eh_spare := None; eh_resources := default_resources;
     eh_runtime_config := None; eh_host_config_key := b"k"; eh_canonical_region := b"canada";
     eh_host_id := b"host.v3.k.u"; eh_session_id := b"s"; eh_host_token := b"t"; eh_jwt_public_keys := b"keys";
     eh_control_plane_url := b"http://c"; eh_otlp_endpoint := None; eh_jwt_issuer := b"i";
     eh_invocation_jwt_audience := b"a"; eh_image_ref := b"image"; eh_working_directory := b"/srv";
     eh_actor_entrypoint := None; eh_secret_refs := []; eh_host_idle_timeout_ms := 5000 |}.

Definition demo_lease : HostLease :=
  {| lease_id := b"host.v3.k.u"; session_id := b"s"; route := b"h"; expires_at_ms := 30000 |}.
Definition demo_startup : Startup :=
  {| su_ready_removed := Ok (); su_prepared := Ok (b"h"); su_epoch := Ok 3; su_lease := Ok demo_lease;
     su_ready_written := Ok (); su_lease_after := Ok demo_lease; su_lifecycle := Ok () |}.
Definition demo_provisioning : Provisioning :=
  {| pv_pool := true; pv_bootstrap := Some (Ok (to_json (b"storage"))); pv_claim := Ok (Some demo_spare);
     pv_reserve := Ok (); pv_elapsed_ms := S754_zero false; pv_now := Ok 1000; pv_remember := Ok () |}.
Definition demo_provider : Provider :=
  {| pr_name := b"gke"; pr_started := Ok 900; pr_cluster_create := λ _, Err "no quota"; pr_secrets := Ok ∅;
     pr_assigned_at := Ok 950; pr_completed := 960 |}.

Definition demo_launch (x : Startup) : list launch_call * ((HostLease * N * option Value) + service_failure) :=
  launch demo_url demo_provisioning demo_provider None (b"k") (b"canada") (Ok demo_asked) true None (Some demo_operation)
    (respond (StorageConfig := bytes) (Address := bytes) Some (λ _, true) (λ _, b"canada")
       {| sp_authorization := b"Bearer t"; sp_pending := true |}
       (Arrived {| ar_received := true; ar_runtime := Typescript; ar_startup := x;
                   ar_execute := λ _ _, Some (Ok (value_string (b"renamed"))) |} false)).

Definition su_failing (started : bool) : Startup :=
  {| su_ready_removed := Ok (); su_prepared := Ok (b"h"); su_epoch := if started then Ok 3 else Err "no lease";
     su_lease := Ok demo_lease; su_ready_written := Ok ();
     su_lease_after := if started then Err "lease lost" else Ok demo_lease; su_lifecycle := Ok () |}.

(** The host starts and answers the operation; it loses its lease after it carried it
    out; it does not start. *)
Example demo_launched : (demo_launch demo_startup).2 = inl (demo_lease, 3, Some (value_string (b"renamed"))).
Proof. vm_compute. reflexivity. Qed.
Example demo_launch_unknown : (demo_launch (su_failing true)).2 = inr (OutcomeUnknownFailure "status").
Proof. vm_compute. reflexivity. Qed.
Example demo_launch_declined :
  (demo_launch (su_failing false)).2 = inr (OtherFailure "spare declined the assignment before running it").
Proof. vm_compute. reflexivity. Qed.
