(* ===== verification/StorageAccess.v ===== *)
(** * The storage an actor's host can reach

    [src/src/bucket/access.rs]: the control plane gives the host of an actor credentials
    for the objects of that actor and for its code. The tokens are minted by a
    third-party library from the rules, so the source of tokens is a parameter; what a
    rule grants is documented: the objects of a bucket whose names start with a prefix. *)

From S2P Require Import Prelude Text Demo Names Payload StateLog Effects Buckets Rapid Runtime Lifecycle Deployment.
Local Open Scope N_scope.

(** ** Configuration *)

Inductive BucketLocation :=
| GcsLocation (bucket artifact_bucket : bytes)
| FileLocation (directory : bytes).

Record StorageToken := {
  access_token : bytes;
  token_expires_at_ms : N;
}.

Record StorageTokens := {
  ownership_token : StorageToken;
  state_token : StorageToken;
}.

Record HostStorageConfig := {
  hs_bucket : BucketLocation;
  hs_persistence : SnapshotStoreConfig;
  hs_region : bytes;
  hs_tokens : option StorageTokens;
}.

Record RuntimeAccess := {
  ra_location : BucketLocation;
  ra_persistence : SnapshotStoreConfig;
}.

(** The roles of a boundary; a rule grants some of them. *)
Inductive Role := ObjectViewer | ObjectCreator | ObjectUser.

Record Rule := {
  rule_bucket : bytes;
  rule_prefix : bytes;
  rule_permissions : list Role;
}.

Record Scopes := {
  ownership_rules : list Rule;
  state_scope : list Rule;
}.

Definition rule (bucket prefix : bytes) (permissions : list Role) : Rule :=
  {| rule_bucket := bucket; rule_prefix := prefix; rule_permissions := permissions |}.

(** The boundary of a list of rules. *)
Definition grant (rules : list Rule) : result (list Rule) :=
  match rules with [] => Err "credential boundary has no rules" | first :: rest => Ok (first :: rest) end.

(** The delay before a retry, in milliseconds. *)
Definition throttled_delay (rate_limited : bool) (delay : option N) : option N :=
  (λ d, if rate_limited then d + 1000 else d) <$> delay.

(** [storage_token]; the expiry is in milliseconds since the epoch. *)
Definition storage_token (token : bytes) (expires_at : option Z) : result StorageToken :=
  expires ← ctx expires_at "GCS credential has no expiry";
  ensure (0 <=? expires)%Z "second time provided was later than self";;
  ensure (Z.to_N expires <=? u64_max) "out of range integral type conversion attempted";;
  Ok {| access_token := token; token_expires_at_ms := Z.to_N expires |}.

Section access.
Context `{Digest} `{Base64} `{!Json ActorBundle} `{!UuidParse}.

(** ** Rules *)

Definition artifact_prefix (code : ActorBundle) : result bytes :=
  let root := ROOT ++ b"artifacts/" in
  first ← ctx (head (bundle_files code)) "code artifact is empty";
  relative ← ctx (strip_prefix root (file_object first)) "invalid artifact location";
  '(deployment, _) ← ctx (split_once x2f relative) "artifact deployment missing";
  ensure (uuid_parse deployment) "invalid artifact deployment";;
  let prefix := root ++ deployment ++ b"/" in
  ensure (forallb (λ f, file_object f == prefix ++ file_path f) (bundle_files code))
    "code files must belong to one artifact deployment";;
  Ok prefix.

Definition state_rules (bucket : bytes) (persistence : SnapshotStoreConfig) (actor : ActorKey) : result (list Rule) :=
  prefix ← snapshots actor;
  match persistence with
  | Local => Ok [rule bucket prefix [ObjectViewer; ObjectCreator]]
  | Rapid buckets archive_bucket _ _ =>
      prefix ← log_object_name prefix;
      let logs := replace_first (b"snapshots-") (b"logs-") prefix in
      Ok (rule archive_bucket prefix [ObjectViewer; ObjectCreator] ::
          ((λ p, rule (rapid_bucket p) logs [ObjectUser]) <$> buckets))
  end.

Definition scopes (bucket : bytes) (persistence : SnapshotStoreConfig) (artifact_bucket : option bytes) (actor : ActorKey)
    (code : option ActorBundle) : result Scopes :=
  own ← owner (storage_key actor);
  artifacts ← match code with
              | Some code =>
                  ensure (bool_decide (Some (bundle_bucket code) = artifact_bucket)) "code artifact belongs to another bucket";;
                  prefix ← artifact_prefix code;
                  Ok [rule (bundle_bucket code) prefix [ObjectViewer]]
              | None => Ok []
              end;
  state ← state_rules bucket persistence actor;
  Ok {| ownership_rules := rule bucket own [ObjectUser] :: artifacts; state_scope := state |}.

(** ** Tokens *)

Definition validate_code (x : RuntimeAccess) (code : ActorBundle) : result unit :=
  match ra_location x with
  | FileLocation _ => Err "compiled GCS bundles require GCS storage"
  | GcsLocation _ artifact_bucket =>
      ensure (bundle_bucket code == artifact_bucket) "code artifact belongs to another bucket";;
      artifact_prefix code;; Ok ()
  end.

(** [mint] is what the library answers for a boundary: a token and its expiry. *)
Definition source_issue (mint : list Rule → result (bytes * option Z)) (rules : list Rule) : result StorageToken :=
  boundary ← grant rules;
  '(token, expires) ← mint boundary;
  storage_token token expires.

Definition issue_storage (x : RuntimeAccess) (mint : list Rule → result (bytes * option Z)) (actor : ActorKey)
    (code_snapshot : option bytes) : result (option StorageTokens) :=
  match ra_location x with
  | FileLocation _ => Ok None
  | GcsLocation bucket artifact_bucket =>
      code ← match code_snapshot with Some c => c ← bundle_decode c; Ok (Some c) | None => Ok None end;
      sc ← scopes bucket (ra_persistence x) (Some artifact_bucket) actor code;
      own ← source_issue mint (ownership_rules sc);
      state ← source_issue mint (state_scope sc);
      Ok (Some {| ownership_token := own; state_token := state |})
  end.

Definition bootstrap (x : RuntimeAccess) (mint : list Rule → result (bytes * option Z)) (region : bytes) (actor : ActorKey)
    (code_snapshot : option bytes) : result HostStorageConfig :=
  tokens ← issue_storage x mint actor code_snapshot;
  Ok {| hs_bucket := ra_location x; hs_persistence := ra_persistence x; hs_region := region; hs_tokens := tokens |}.
End access.

(** ** What the credentials reach *)

Section confined.
Context `{Digest} `{Base64Laws} `{!Json ActorBundle} `{!UuidParse}.
Implicit Types (a : ActorKey) (r : Rule).

(** The objects of an actor: a bucket and a name. *)
Inductive actor_object (bucket : bytes) (persistence : SnapshotStoreConfig) a : bytes → bytes → Prop :=
| owner_object name : owner (storage_key a) = Ok name → actor_object bucket persistence a bucket name
| snapshot_object pre rest : persistence = Local → snapshots a = Ok pre → actor_object bucket persistence a bucket (pre ++ rest)
| archived_object buckets archive batch placement pre rest name :
    persistence = Rapid buckets archive batch placement → snapshots a = Ok pre → log_object_name (pre ++ rest) = Ok name →
    actor_object bucket persistence a archive name
| logged_object buckets archive batch placement p pre rest name :
    persistence = Rapid buckets archive batch placement → p ∈ buckets → snapshots a = Ok pre →
    log_object_name (pre ++ rest) = Ok name →
    actor_object bucket persistence a (rapid_bucket p) (replace_first (b"snapshots-") (b"logs-") name).

(** A rule that covers an object. *)
Definition covers r (bucket name : bytes) : Prop := rule_bucket r = bucket ∧ rule_prefix r `prefix_of` name.

(** The names of an actor, by their parts. *)
Definition hashed a : bytes := b64_encode (sha256 (actor_path a)).
Definition archive_name a (rest : bytes) : bytes := b"durable-actors-v3-snapshots-" ++ hashed a ++ x7e :: rest.
Definition logs_name a (rest : bytes) : bytes := b"durable-actors-v3-logs-" ++ hashed a ++ x7e :: rest.

Lemma actor_path_parts a :
  actor_path a = shard a ++ x2f :: b64_encode (project_id a) ++ x2f :: b64_encode (actor_name a) ++ x2f :: b64_encode (actor_id a).
Proof. done. Qed.

Lemma shard_slash a : x2f ∉ shard a.
Proof. by eapply component_not_elem; [apply shard_component|]. Qed.

(** A path tells the actor, up to a byte that ends it. *)
Lemma path_inj a a' (sep : byte) t t' :
  b64_char sep = false → actor_path a ++ sep :: t = actor_path a' ++ sep :: t' → a = a'.
Proof.
  intros Hsep. rewrite !actor_path_parts. norm_app. intros E.
  apply (f_equal (split_once x2f)) in E. rewrite !split_once_app in E by apply shard_slash. injection E as _ E.
  apply (f_equal (split_once x2f)) in E. rewrite !split_once_app in E by (by apply b64_not_elem). injection E as Hp E.
  apply (f_equal (split_once x2f)) in E. rewrite !split_once_app in E by (by apply b64_not_elem). injection E as Hn E.
  apply (f_equal (split_once sep)) in E. rewrite !split_once_app in E by (by apply b64_not_elem). injection E as Hi _.
  apply b64_encode_inj in Hp, Hn, Hi. destruct a, a'; simpl in *; congruence.
Qed.

Lemma hashed_inj a a' t t' :
  (sha256 (actor_path a) = sha256 (actor_path a') → actor_path a = actor_path a') →
  hashed a ++ x7e :: t = hashed a' ++ x7e :: t' → a = a'.
Proof.
  intros Hd E. apply (f_equal (split_once x7e)) in E. rewrite !split_once_app in E by (by apply b64_not_elem).
  injection E as E _. apply b64_encode_inj, Hd in E. apply (path_inj a a' x2f [] []); [done|by rewrite E].
Qed.

Lemma split_path a rest :
  splitn 5 x2f (actor_path a ++ x2f :: rest) =
  [shard a; b64_encode (project_id a); b64_encode (actor_name a); b64_encode (actor_id a); rest].
Proof.
  rewrite actor_path_parts. norm_app. cbn [splitn].
  rewrite split_once_app by apply shard_slash. by rewrite !split_once_app by (by apply b64_not_elem).
Qed.

Lemma snapshots_path a pre : snapshots a = Ok pre → pre = (ROOT ++ b"snapshots/") ++ actor_path a ++ [x2f].
Proof. unfold snapshots. intros Hs. apply bind_Ok in Hs as ([] & _ & Hs). injection Hs as <-. by norm_app. Qed.

Lemma log_name_eq a pre rest name :
  snapshots a = Ok pre → log_object_name (pre ++ rest) = Ok name → name = archive_name a (replace_char x2f x7e rest).
Proof.
  intros ->%snapshots_path Hn. apply bind_Ok in Hn as (relative & Hr & Hn). apply ctx_Ok, strip_prefix_Some in Hr.
  rewrite <- app_assoc in Hr. apply app_inv_head in Hr as <-. rewrite <- app_assoc in Hn. cbn [app] in Hn.
  rewrite split_path in Hn. apply bind_Ok in Hn as ([] & _ & Hn). by injection Hn as <-.
Qed.

Lemma logs_name_eq a rest : replace_first (b"snapshots-") (b"logs-") (archive_name a rest) = logs_name a rest.
Proof. reflexivity. Qed.

Lemma owner_path a name :
  validate_actor a = Ok () → owner (storage_key a) = Ok name → name = (ROOT ++ b"owners/") ++ actor_path a ++ b".json".
Proof. intros Hv. unfold owner. rewrite actor_from_key_storage_key by done. intros [= <-]. by norm_app. Qed.

Lemma artifact_prefix_path code prefix : artifact_prefix code = Ok prefix →
  (∃ rest, prefix = (ROOT ++ b"artifacts/") ++ rest) ∧ Forall (λ f, prefix `prefix_of` file_object f) (bundle_files code).
Proof.
  intros Hp. apply bind_Ok in Hp as (first & _ & Hp). apply bind_Ok in Hp as (relative & _ & Hp).
  apply bind_Ok in Hp as ([deployment rest] & _ & Hp). apply bind_Ok in Hp as ([] & _ & Hp).
  apply bind_Ok in Hp as ([] & Hall & Hp). injection Hp as <-. apply ensure_Ok, forallb_Forall in Hall. split.
  - exists (deployment ++ b"/"). by norm_app.
  - apply (Forall_impl _ _ _ Hall). intros f Hf. apply bool_decide_eq_true in Hf as ->. by eexists.
Qed.

(** What the rules for an actor are. *)
Inductive actor_rule (bucket : bytes) (persistence : SnapshotStoreConfig) (code : option ActorBundle) a : Rule → Prop :=
| owner_rule : actor_rule bucket persistence code a (rule bucket ((ROOT ++ b"owners/") ++ actor_path a ++ b".json") [ObjectUser])
| artifact_rule c prefix : code = Some c → artifact_prefix c = Ok prefix →
    actor_rule bucket persistence code a (rule (bundle_bucket c) prefix [ObjectViewer])
| local_rule : persistence = Local →
    actor_rule bucket persistence code a (rule bucket ((ROOT ++ b"snapshots/") ++ actor_path a ++ [x2f]) [ObjectViewer; ObjectCreator])
| archive_rule buckets archive batch placement : persistence = Rapid buckets archive batch placement →
    actor_rule bucket persistence code a (rule archive (archive_name a []) [ObjectViewer; ObjectCreator])
| logs_rule buckets archive batch placement p : persistence = Rapid buckets archive batch placement → p ∈ buckets →
    actor_rule bucket persistence code a (rule (rapid_bucket p) (logs_name a []) [ObjectUser]).

Definition all_rules (sc : Scopes) : list Rule := ownership_rules sc ++ state_scope sc.

Lemma scopes_rules bucket persistence artifacts a code sc :
  scopes bucket persistence artifacts a code = Ok sc →
  validate_actor a = Ok () ∧ ∀ r, r ∈ all_rules sc ↔ actor_rule bucket persistence code a r.
Proof.
  intros Hsc. apply bind_Ok in Hsc as (own & Ho & Hsc). apply bind_Ok in Hsc as (arts & Hart & Hsc).
  apply bind_Ok in Hsc as (state & Hst & Hsc). injection Hsc as <-. apply bind_Ok in Hst as (pre & Hpre & Hst).
  assert (validate_actor a = Ok ()) as Hv by (by apply bind_Ok in Hpre as ([] & ? & _)).
  split; [done|]. apply (owner_path a own Hv) in Ho as ->.
  assert (∀ r, r ∈ arts ↔ ∃ c prefix, code = Some c ∧ artifact_prefix c = Ok prefix ∧
    r = rule (bundle_bucket c) prefix [ObjectViewer]) as Harts.
  { intros r. destruct code as [c|]; [|injection Hart as <-; split; [by intros ?%elem_of_nil|by intros (? & ? & ? & _)]].
    apply bind_Ok in Hart as ([] & _ & Hart). apply bind_Ok in Hart as (prefix & Hp & Hart). injection Hart as <-.
    rewrite list_elem_of_singleton. split; [by intros ->; eauto|]. intros (c' & p' & [= <-] & Hp' & ->). congruence. }
  assert (∀ r, r ∈ state ↔
    match persistence with
    | Local => r = rule bucket ((ROOT ++ b"snapshots/") ++ actor_path a ++ [x2f]) [ObjectViewer; ObjectCreator]
    | Rapid buckets archive _ _ =>
        r = rule archive (archive_name a []) [ObjectViewer; ObjectCreator] ∨
        ∃ p, p ∈ buckets ∧ r = rule (rapid_bucket p) (logs_name a []) [ObjectUser]
    end) as Hstate.
  { intros r. destruct persistence as [|buckets archive batch placement].
    - injection Hst as <-. rewrite list_elem_of_singleton. by rewrite (snapshots_path a pre).
    - apply bind_Ok in Hst as (name & Hn & Hst). injection Hst as <-.
      rewrite <- (app_nil_r pre) in Hn. apply (log_name_eq a) in Hn as ->; [|done]. rewrite logs_name_eq.
      rewrite elem_of_cons, list_elem_of_fmap. naive_solver. }
  intros r. unfold all_rules. simpl. rewrite elem_of_cons, elem_of_app, Harts, Hstate. split.
  - intros [->|[(c & prefix & -> & Hp & ->)|Hs]]; [apply owner_rule|by eapply artifact_rule|].
    destruct persistence; [subst; by apply local_rule|].
    destruct Hs as [->|(p & Hin & ->)]; [by eapply archive_rule|by eapply logs_rule].
  - destruct 1 as [|c prefix -> Hp| -> |? ? ? ? -> |? ? ? ? p -> Hin]; [by left|right; left; eauto|by right; right|by right; right; left|].
    right; right; right. eauto.
Qed.

Ltac part_ways E := exfalso; revert E; unfold ROOT, archive_name, logs_name; simpl; discriminate.

(** No rule for an actor covers the name of an object of another. *)
Lemma rule_confined bucket persistence code a a' r bucket' name :
  validate_actor a' = Ok () → (sha256 (actor_path a) = sha256 (actor_path a') → actor_path a = actor_path a') →
  actor_rule bucket persistence code a r → actor_object bucket persistence a' bucket' name →
  rule_prefix r `prefix_of` name → a = a'.
Proof.
  intros Hv Hd Hr Hn [t E].
  assert (name = (ROOT ++ b"owners/") ++ actor_path a' ++ b".json" ∨
    (∃ rest, name = (ROOT ++ b"snapshots/") ++ actor_path a' ++ x2f :: rest) ∨
    (∃ rest, name = archive_name a' rest) ∨ (∃ rest, name = logs_name a' rest)) as Hname.
  { destruct Hn as [name Ho|pre rest _ Hs|? ? ? ? pre rest name _ Hs Hl|? ? ? ? p pre rest name _ _ Hs Hl].
    - left. by apply owner_path.
    - right; left. exists rest. rewrite (snapshots_path _ _ Hs). by norm_app.
    - right; right; left. eexists. by apply (log_name_eq a' pre rest).
    - right; right; right. eexists. rewrite (log_name_eq a' pre rest name Hs Hl). apply logs_name_eq. }
  destruct Hr as [|c prefix _ Hp|_|? ? ? ? _|? ? ? ? p _ _]; cbn [rule rule_prefix] in E.
  - rewrite <- !app_assoc in E. destruct Hname as [->|[(rest & ->)|[(rest & ->)|(rest & ->)]]]; try part_ways E.
    rewrite <- !app_assoc in E. do 2 apply app_inv_head in E. exact (eq_sym (path_inj a' a x2e _ _ eq_refl E)).
  - destruct (artifact_prefix_path c prefix Hp) as [[rest' ->] _]. rewrite <- !app_assoc in E.
    destruct Hname as [->|[(rest & ->)|[(rest & ->)|(rest & ->)]]]; part_ways E.
  - rewrite <- !app_assoc in E. destruct Hname as [->|[(rest & ->)|[(rest & ->)|(rest & ->)]]]; try part_ways E.
    rewrite <- !app_assoc in E. do 2 apply app_inv_head in E. exact (eq_sym (path_inj a' a x2f _ _ eq_refl E)).
  - destruct Hname as [->|[(rest & ->)|[(rest & ->)|(rest & ->)]]]; try part_ways E.
    unfold archive_name in E. rewrite <- !app_assoc in E. apply app_inv_head in E.
    symmetry in E. exact (hashed_inj a a' _ _ Hd E).
  - destruct Hname as [->|[(rest & ->)|[(rest & ->)|(rest & ->)]]]; try part_ways E.
    unfold logs_name in E. rewrite <- !app_assoc in E. apply app_inv_head in E.
    symmetry in E. exact (hashed_inj a a' _ _ Hd E).
Qed.

Lemma rule_reaches bucket persistence code a bucket' name :
  validate_actor a = Ok () → actor_object bucket persistence a bucket' name →
  ∃ r, actor_rule bucket persistence code a r ∧ covers r bucket' name.
Proof.
  intros Hv [n Ho|pre rest -> Hs|buckets archive batch placement pre rest n -> Hs Hl|buckets archive batch placement p pre rest n -> Hp Hs Hl].
  - eexists. split; [apply owner_rule|]. split; [done|]. by rewrite (owner_path _ _ Hv Ho).
  - eexists. split; [by apply local_rule|]. split; [done|]. rewrite (snapshots_path _ _ Hs). by eexists.
  - eexists. split; [by eapply archive_rule|]. split; [done|]. rewrite (log_name_eq _ _ _ _ Hs Hl).
    eexists (replace_char x2f x7e rest). unfold archive_name. cbn [rule rule_prefix]. by norm_app.
  - eexists. split; [by eapply logs_rule|]. split; [done|]. rewrite (log_name_eq _ _ _ _ Hs Hl), logs_name_eq.
    eexists (replace_char x2f x7e rest). unfold logs_name. cbn [rule rule_prefix]. by norm_app.
Qed.

Lemma rule_reads_code bucket persistence code a r rest :
  actor_rule bucket persistence code a r → rule_prefix r `prefix_of` (ROOT ++ b"artifacts/") ++ rest →
  rule_permissions r = [ObjectViewer].
Proof.
  intros Hr [t E]. destruct Hr as [|c prefix _ Hp|_|? ? ? ? _|? ? ? ? p _ _]; [|done|..]; cbn [rule rule_prefix] in E;
    rewrite <- ?app_assoc in E; part_ways E.
Qed.

(** C24. The credentials of a host reach its own actor and nothing of another: they
    cover every object of the actor, its ownership record and the commits or logs of
    its state, and the files of its code, which they let it only read; they cover no
    object of any other actor, unless the digests of the two collide. *)
Theorem storage_credentials_confined bucket persistence artifacts a code sc :
  scopes bucket persistence artifacts a code = Ok sc →
  (∀ a' bucket' name, a' ≠ a → validate_actor a' = Ok () →
     (sha256 (actor_path a) = sha256 (actor_path a') → actor_path a = actor_path a') →
     actor_object bucket persistence a' bucket' name → ∀ r, r ∈ all_rules sc → ¬ covers r bucket' name) ∧
  (∀ bucket' name, actor_object bucket persistence a bucket' name → ∃ r, r ∈ all_rules sc ∧ covers r bucket' name) ∧
  (∀ c f, code = Some c → f ∈ bundle_files c → ∃ r, r ∈ all_rules sc ∧ covers r (bundle_bucket c) (file_object f)) ∧
  (∀ r rest, r ∈ all_rules sc → rule_prefix r `prefix_of` (ROOT ++ b"artifacts/") ++ rest → rule_permissions r = [ObjectViewer]).
Proof.
  intros Hsc. destruct (scopes_rules _ _ _ _ _ _ Hsc) as [Hv Hrules]. split_and!.
  - intros a' bucket' name Hne Hv' Hd Ho r Hr [_ Hc]. apply Hrules in Hr. apply Hne. symmetry. by eapply rule_confined.
  - intros bucket' name Ho. destruct (rule_reaches bucket persistence code a bucket' name Hv Ho) as (r & Hr & Hc).
    exists r. by rewrite Hrules.
  - intros c f Hcode Hf. destruct (artifact_prefix c) as [prefix|e] eqn:Hp.
    + eexists. rewrite Hrules. split; [by eapply artifact_rule|]. split; [done|].
      destruct (artifact_prefix_path c prefix Hp) as [_ Hall]. rewrite Forall_forall in Hall. by apply Hall.
    + exfalso. subst code. unfold scopes in Hsc. apply bind_Ok in Hsc as (own & _ & Hsc).
      apply bind_Ok in Hsc as (arts & Hart & _). apply bind_Ok in Hart as ([] & _ & Hart). by rewrite Hp in Hart.
  - intros r rest Hr. apply Hrules in Hr. by eapply rule_reads_code.
Qed.
End confined.

(** ** Witness *)

Import Stand_ins.
#[local] Instance ser_code_file : Ser BundleFile :=
  ser_iso (λ f, (file_path f, file_object f, file_generation f, file_sha256 f))
          (λ '(p, o, g, d), Build_BundleFile p o g d) ltac:(by intros []).
#[local] Instance ser_code : Ser ActorBundle :=
  ser_iso (λ x, (bundle_bucket x, bundle_files x)) (λ '(x, l), Build_ActorBundle x l) ltac:(by intros []).
#[local] Instance uuid_any : UuidParse := λ s, bool_decide (s ≠ []).

Definition demo_code_file : BundleFile :=
  {| file_path := b"actors.mjs"; file_object := b"durable-actors/v3/artifacts/d1/actors.mjs"; file_generation := 1;
     file_sha256 := b"unused" |}.
Definition demo_code : ActorBundle :=
  {| bundle_bucket := b"code";
     bundle_files := [demo_code_file] |}.
Definition demo_logs : SnapshotStoreConfig :=
  Rapid [{| rapid_bucket := b"rapid-a"; zone := b"us-west4-a" |}] (b"archive") default_batch All.
Definition demo_neighbour : ActorKey :=
  {| project_id := project_id demo_actor; actor_name := actor_name demo_actor; actor_id := b"other" |}.

Lemma storage_credentials_confined_witness : ∃ sc name,
  scopes (b"authority") demo_logs (Some (b"code")) demo_actor (Some demo_code) = Ok sc ∧
  logs_prefix demo_neighbour = Ok name ∧ (∀ r, r ∈ all_rules sc → ¬ covers r (b"rapid-a") name) ∧
  ∃ r, r ∈ all_rules sc ∧ covers r (b"code") (b"durable-actors/v3/artifacts/d1/actors.mjs").
Proof.
  destruct (scopes (b"authority") demo_logs (Some (b"code")) demo_actor (Some demo_code)) as [sc|] eqn:Hsc;
    [|exfalso; revert Hsc; vm_compute; discriminate].
  destruct (storage_credentials_confined _ _ _ _ _ _ Hsc) as (Hother & _ & Hcode & _).
  destruct (logs_prefix demo_neighbour) as [name|] eqn:Hname; [|exfalso; revert Hname; vm_compute; discriminate].
  exists sc, name. split; [done|]. split; [done|]. split; [|by apply (Hcode demo_code demo_code_file eq_refl); left].
  apply bind_Ok in Hname as (pre & Hpre & Hname). apply bind_Ok in Hname as (n & Hn & Hname). injection Hname as <-.
  apply (Hother demo_neighbour); [vm_compute; discriminate|vm_compute; reflexivity|vm_compute; discriminate|].
  rewrite <- (app_nil_r pre) in Hn.
  eapply (logged_object _ _ _ _ _ _ _ {| rapid_bucket := b"rapid-a"; zone := b"us-west4-a" |}); [done|by left|exact Hpre|exact Hn].
Defined.
