(* ===== verification/LocalHosts.v ===== *)
(** * Hosts of the development server

    [src/src/sandbox/local.rs] and [src/src/sandbox/local_store.rs]: actor hosts as
    child processes, reserved in a SQLite database. The tables are lists of rows
    (the actor and the lease of a row are stored as JSON and read back; here they
    are the values); a transaction that fails changes nothing. Callers and the
    tasks that run the processes interleave in any order, one call of the store at
    a time. *)

From S2P Require Import Prelude Text Demo Names StateLog Effects Deployment HostConfig Assignment.
Local Open Scope N_scope.

(** ** The store *)

Inductive LocalStatus := Starting | Ready | Retiring | Failed.

#[global] Instance LocalStatus_eq_dec : EqDecision LocalStatus.
Proof. solve_decision. Defined.

Record LocalRow := {
  lh_token : bytes;
  lh_host_id : bytes;
  lh_config : bytes;
  lh_region : bytes;
  lh_actor : ActorKey;
  lh_status : LocalStatus;
  lh_lease : option HostLease;
  lh_epoch : N;
  lh_error : option bytes;
}.

Record LocalStore := {
  stopping : bool;
  deployments : gmap bytes bool;
  hosts : list LocalRow;
}.

(** [LocalHostStore::open] forgets what earlier processes left. *)
Definition store_open : LocalStore := {| stopping := false; deployments := ∅; hosts := [] |}.

(** [UNIQUE(config, region, actor)] *)
Definition row_key (r : LocalRow) : bytes * bytes * ActorKey := (lh_config r, lh_region r, lh_actor r).

Definition with_status (st : LocalStatus) (r : LocalRow) : LocalRow :=
  {| lh_token := lh_token r; lh_host_id := lh_host_id r; lh_config := lh_config r; lh_region := lh_region r;
     lh_actor := lh_actor r; lh_status := st; lh_lease := lh_lease r; lh_epoch := lh_epoch r; lh_error := lh_error r |}.

Definition with_hosts (hs : list LocalRow) (s : LocalStore) : LocalStore :=
  {| stopping := stopping s; deployments := deployments s; hosts := hs |}.

(** [UPDATE hosts SET ... WHERE ...], with the number of rows it changed. *)
Definition update_where (p : LocalRow → bool) (f : LocalRow → LocalRow) (s : LocalStore) : LocalStore :=
  with_hosts ((λ r, if p r then f r else r) <$> hosts s) s.
Definition delete_where (p : LocalRow → bool) (s : LocalStore) : LocalStore :=
  with_hosts (List.filter (λ r, negb (p r)) (hosts s)) s.

Definition lookup_token (t : bytes) (s : LocalStore) : option LocalRow := List.find (λ r, lh_token r == t) (hosts s).
Definition lookup_host (h : bytes) (s : LocalStore) : option LocalRow := List.find (λ r, lh_host_id r == h) (hosts s).

Record Reservation := { rv_token : bytes; rv_created : bool }.

(** [LocalHostStore::reserve]; [token] is the UUID it draws. *)
Definition store_reserve (config region host : bytes) (actor : ActorKey) (token : bytes) (s : LocalStore)
    : result (Reservation * LocalStore) :=
  ensure (negb (stopping s)) "local runtime is shutting down";;
  let retiring := default false (deployments s !! config) in
  ensure (negb retiring) "local deployment is restarting";;
  let same r := row_key r == (config, region, actor) in
  let s := delete_where (λ r, same r && (lh_status r == Failed))
             {| stopping := stopping s; deployments := <[config := retiring]> (deployments s); hosts := hosts s |} in
  match List.find same (hosts s) with
  | Some r => Ok ({| rv_token := lh_token r; rv_created := false |}, s)
  | None =>
      ensure (negb (existsb (λ r, (lh_token r == token) || (lh_host_id r == host)) (hosts s)))
        "UNIQUE constraint failed";;
      let row := {| lh_token := token; lh_host_id := host; lh_config := config; lh_region := region;
                    lh_actor := actor; lh_status := Starting; lh_lease := None; lh_epoch := 0; lh_error := None |} in
      Ok ({| rv_token := token; rv_created := true |}, with_hosts (hosts s ++ [row]) s)
  end.

(** [LocalHostStore::publish] *)
Definition store_publish (token : bytes) (l : HostLease) (e : N) (s : LocalStore) : bool * LocalStore :=
  let here r := (lh_token r == token) && (lh_status r == Starting) in
  (existsb here (hosts s),
   update_where here (λ r, {| lh_token := lh_token r; lh_host_id := lh_host_id r; lh_config := lh_config r;
                              lh_region := lh_region r; lh_actor := lh_actor r; lh_status := Ready;
                              lh_lease := Some l; lh_epoch := e; lh_error := lh_error r |}) s).

(** [LocalHostStore::finish] *)
Definition store_finish (token error : bytes) (s : LocalStore) : LocalStore :=
  let s := delete_where (λ r, (lh_token r == token) && (lh_status r == Retiring)) s in
  update_where (λ r, lh_token r == token)
    (λ r, {| lh_token := lh_token r; lh_host_id := lh_host_id r; lh_config := lh_config r; lh_region := lh_region r;
             lh_actor := lh_actor r; lh_status := Failed; lh_lease := None; lh_epoch := lh_epoch r;
             lh_error := Some error |}) s.

(** [LocalHostStore::retire] *)
Definition store_retire (token : bytes) (s : LocalStore) : LocalStore :=
  update_where (λ r, (lh_token r == token) && ((lh_status r == Starting) || (lh_status r == Ready)))
    (with_status Retiring) s.

(** [LocalHostStore::retire_config]: the hosts that have to go. *)
Definition store_retire_config (config : bytes) (s : LocalStore) : list (bytes * bytes) * LocalStore :=
  let s := delete_where (λ r, (lh_config r == config) && (lh_status r == Failed))
             {| stopping := stopping s; deployments := <[config := true]> (deployments s); hosts := hosts s |} in
  ((λ r, (lh_token r, lh_host_id r)) <$> List.filter (λ r, lh_config r == config) (hosts s),
   update_where (λ r, lh_config r == config) (with_status Retiring) s).

(** [LocalHostStore::shutdown] *)
Definition store_shutdown (s : LocalStore) : LocalStore :=
  update_where (λ _, true) (with_status Retiring)
    (delete_where (λ r, lh_status r == Failed)
       {| stopping := true; deployments := deployments s; hosts := hosts s |}).

(** ** Callers *)

(** [active_lease]: the published lease is still the one of the actor's owner. *)
Definition active_lease (record : LocalRow) (owner : option HostLease) (now : option N) : result (option HostLease) :=
  expected ← ctx (lh_lease record) "local readiness omitted lease";
  Ok (l ← owner;
      if (lease_id l == lease_id expected) && (session_id l == session_id expected)
         && (default u64_max now <? expires_at_ms l) then Some l else None).

Section callers.
Context `{JsonValue}.

(** [handle] *)
Definition local_handle (l : HostLease) (region : bytes) (epoch : N) : ActorHostHandle :=
  {| hd_initial_reply := None; hd_lease := Some l; hd_owner_epoch := epoch; hd_host_id := lease_id l;
     hd_route := route l; hd_canonical_region := region; hd_provisioning := None |}.

(** What one turn of [wait_for_host] decides: an answer, to retire a host that lost
    its actor and reserve anew, or to wait for a change. *)
Inductive verdict := Answer (r : result ActorHostHandle) | RetireAndRetry | WaitForChange.

(** A turn of [wait_for_host], with the owner record and the clock it reads. *)
Definition wait_turn (stopped : bool) (token : bytes) (owner : option HostLease) (now : option N) (s : LocalStore)
    : verdict :=
  if stopped then Answer (Err "local runtime is shutting down")
  else match lookup_token token s with
       | None => Answer (Err "local actor startup was retired")
       | Some r =>
           match lh_status r with
           | Ready => match active_lease r owner now with
                      | Err e => Answer (Err e)
                      | Ok (Some l) => Answer (Ok (local_handle l (lh_region r) (lh_epoch r)))
                      | Ok None => RetireAndRetry
                      end
           | Failed => Answer (Err (default "local actor startup failed" (String.string_of_list_byte <$> lh_error r)))
           | Retiring => Answer (Err "local actor startup was retired")
           | Starting => WaitForChange
           end
       end.

(** The checks of [ensure_host] before it reserves. *)
Definition ensure_local {Operation} (stopped : bool) (project : bytes) (request : HostConfig.EnsureHostRequest Operation)
    : result ActorKey :=
  ensure (negb stopped) "local runtime is shutting down";;
  ensure (eh_working_directory request == project) "local deployments must use the current project directory";;
  ensure (eh_secret_refs request == []) "Kubernetes secret references are unavailable in local mode";;
  actor ← ctx (eh_actor request) "local actor identity missing";
  validate_actor actor;;
  Ok actor.

(** [wait_ready]: one look at the record of a host. *)
Definition ready_turn (host : bytes) (s : LocalStore) : option (result unit) :=
  match lookup_host host s with
  | None => Some (Err "host is not ready")
  | Some r => match lh_status r with
              | Ready => Some (Ok ())
              | Starting => None
              | Retiring | Failed => Some (Err "host is not ready")
              end
  end.
End callers.

(** ** The processes

    [run_host] of a reservation: before its process is started, while it runs, while
    it is being stopped, and after it has gone but before the reservation is
    settled. *)

Inductive phase := Spawning | Serving | Stopping | Gone.

#[global] Instance phase_eq_dec : EqDecision phase.
Proof. solve_decision. Defined.

Record HostTask := { ht_token : bytes; ht_key : bytes * bytes * ActorKey; ht_phase : phase }.

Record LocalRuntime := { lr_store : LocalStore; lr_stop : bool; lr_tasks : list HostTask }.

Definition runtime_new : LocalRuntime := {| lr_store := store_open; lr_stop := false; lr_tasks := [] |}.

(** The process of a task exists. *)
Definition has_process (t : HostTask) : bool :=
  match ht_phase t with Serving | Stopping => true | Spawning | Gone => false end.

(** What happens next, and how calls that can fail end. *)
Inductive local_event :=
| Reserve (config region host : bytes) (actor : ActorKey) (token : bytes)
| Spawn (token : bytes) (started : bool)
| BecameReady (token : bytes) (l : HostLease) (e : N)
| ServeEnds (token : bytes)
| ProcessGone (token : bytes)
| Settle (token error : bytes) (stored : bool)
| Retire (token : bytes)
| RetireConfig (config : bytes)
| Shutdown (stored : bool).

Definition set_phase (token : bytes) (from to : phase) (ts : list HostTask) : list HostTask :=
  (λ t, if (ht_token t == token) && (ht_phase t == from)
        then {| ht_token := ht_token t; ht_key := ht_key t; ht_phase := to |} else t) <$> ts.

Definition in_phase (token : bytes) (p : phase) (ts : list HostTask) : bool :=
  existsb (λ t, (ht_token t == token) && (ht_phase t == p)) ts.

Definition with_store (s : LocalStore) (r : LocalRuntime) : LocalRuntime :=
  {| lr_store := s; lr_stop := lr_stop r; lr_tasks := lr_tasks r |}.
Definition with_tasks (ts : list HostTask) (r : LocalRuntime) : LocalRuntime :=
  {| lr_store := lr_store r; lr_stop := lr_stop r; lr_tasks := ts |}.

(** [LocalRuntime::reserve] starts a task for a reservation it created; [serve_host]
    runs the process until it is retired, fails or exits, and stops it; [run_host]
    settles the reservation after that. *)
Definition local_step (e : local_event) (r : LocalRuntime) : LocalRuntime :=
  match e with
  | Reserve config region host actor token =>
      if lr_stop r then r
      else match store_reserve config region host actor token (lr_store r) with
           | Err _ => r
           | Ok (v, s) =>
               let r := with_store s r in
               if rv_created v
               then with_tasks (lr_tasks r ++ [{| ht_token := rv_token v; ht_key := (config, region, actor); ht_phase := Spawning |}]) r
               else r
           end
  | Spawn token started => with_tasks (set_phase token Spawning (if started then Serving else Gone) (lr_tasks r)) r
  | BecameReady token l e =>
      if in_phase token Serving (lr_tasks r) then
        let '(published, s) := store_publish token l e (lr_store r) in
        let r := with_store s r in
        if published then r else with_tasks (set_phase token Serving Stopping (lr_tasks r)) r
      else r
  | ServeEnds token => with_tasks (set_phase token Serving Stopping (lr_tasks r)) r
  | ProcessGone token => with_tasks (set_phase token Stopping Gone (lr_tasks r)) r
  | Settle token error stored =>
      if in_phase token Gone (lr_tasks r) then
        {| lr_store := if stored then store_finish token error (lr_store r) else lr_store r; lr_stop := lr_stop r;
           lr_tasks := List.filter (λ t, negb (ht_token t == token)) (lr_tasks r) |}
      else r
  | Retire token => with_store (store_retire token (lr_store r)) r
  | RetireConfig config => with_store (store_retire_config config (lr_store r)).2 r
  | Shutdown stored =>
      {| lr_store := if stored then store_shutdown (lr_store r) else lr_store r; lr_stop := true; lr_tasks := lr_tasks r |}
  end.

Definition local_run (es : list local_event) (r : LocalRuntime) : LocalRuntime := foldl (λ r e, local_step e r) r es.

(** ** One process per actor *)

Definition store_ok (s : LocalStore) : Prop := NoDup (lh_token <$> hosts s) ∧ NoDup (row_key <$> hosts s).

(** A reservation that is not settled. *)
Definition held (s : LocalStore) (token : bytes) (key : bytes * bytes * ActorKey) : Prop :=
  ∃ r, r ∈ hosts s ∧ lh_token r = token ∧ row_key r = key ∧ lh_status r ≠ Failed.

Lemma update_ok p f s :
  (∀ r, lh_token (f r) = lh_token r ∧ row_key (f r) = row_key r) → store_ok s → store_ok (update_where p f s).
Proof.
  intros Hf [Ht Hk]. unfold store_ok, update_where. simpl. rewrite <- !list_fmap_compose.
  rewrite (list_fmap_ext _ lh_token), (list_fmap_ext (row_key ∘ _) row_key); [done|..];
    intros _ r _; simpl; destruct (p r); try done; apply Hf.
Qed.

Lemma update_held p f s token key :
  (∀ r, lh_token (f r) = lh_token r ∧ row_key (f r) = row_key r ∧ (lh_status r ≠ Failed → lh_status (f r) ≠ Failed)) →
  held s token key → held (update_where p f s) token key.
Proof.
  intros Hf (r & Hin & Ht & Hk & Hs). exists (if p r then f r else r). split.
  - unfold update_where. simpl. apply list_elem_of_fmap. by exists r.
  - destruct (p r); [|done]. destruct (Hf r) as (-> & -> & ?). auto.
Qed.

Lemma sublist_list_filter {A} (f : A → bool) l : List.filter f l `sublist_of` l.
Proof. induction l as [|x l IH]; simpl; [done|]. case_match; by constructor. Qed.

Lemma delete_ok p s : store_ok s → store_ok (delete_where p s).
Proof.
  intros [Ht Hk]. unfold store_ok, delete_where. simpl.
  pose proof (sublist_list_filter (λ r, negb (p r)) (hosts s)) as Hsub.
  split; (eapply sublist_NoDup; [done|]); by apply fmap_sublist.
Qed.

Lemma delete_held p s token key :
  (∀ r, r ∈ hosts s → lh_token r = token → p r = true → lh_status r = Failed) →
  held s token key → held (delete_where p s) token key.
Proof.
  intros Hp (r & Hin & Ht & Hk & Hs). exists r. split; [|done]. simpl. apply list_elem_of_In, filter_In.
  split; [by apply list_elem_of_In|]. apply negb_true_iff. destruct (p r) eqn:E; [|done]. by apply Hp in E.
Qed.

Lemma find_none {A} (f : A → bool) l : List.find f l = None → Forall (λ x, f x = false) l.
Proof. induction l as [|x l IH]; simpl; [done|]. destruct (f x) eqn:E; [done|]. constructor; auto. Qed.

Lemma reserve_ok config region host actor token s v s' :
  store_ok s → store_reserve config region host actor token s = Ok (v, s') →
  store_ok s' ∧ (∀ t k, held s t k → held s' t k) ∧
  (rv_created v = true → held s' (rv_token v) (config, region, actor) ∧ ∀ k, ¬ held s (rv_token v) k).
Proof.
  intros Hok Hr. unfold store_reserve in Hr. inv_ok.
  set (s1 := delete_where _ _) in *.
  assert (store_ok s1) as Hok1 by (by apply delete_ok).
  assert (∀ t k, held s t k → held s1 t k) as Hheld.
  { intros t k Hh. apply delete_held; [|exact Hh]. intros r _ _ [_ ?%bool_decide_eq_true]%andb_true_iff. done. }
  destruct (List.find _ (hosts s1)) as [r|] eqn:Ef; inv_ok; simplify_eq; [done|].
  apply find_none in Ef. rename select (existsb _ _ = false) into Hnew. apply existsb_false in Hnew.
  split_and!.
  - destruct Hok1 as [Ht Hk]. split; simpl; rewrite fmap_app; apply NoDup_app; split_and!; try done;
      try (simpl; by apply NoDup_singleton); intros k (y & -> & Hy)%list_elem_of_fmap Hx%list_elem_of_singleton;
      [pose proof (proj1 (Forall_forall _ _) Hnew y Hy) as Hn; apply orb_false_iff in Hn as [Hn _]
      |pose proof (proj1 (Forall_forall _ _) Ef y Hy) as Hn]; by apply bool_decide_eq_false in Hn.
  - intros t k (r & Hin & ?)%Hheld. exists r. split; [|done]. simpl. by apply elem_of_app; left.
  - intros _. split.
    + eexists. split; [simpl; apply elem_of_app; right; by apply list_elem_of_singleton|done].
    + intros k (r & Hin & Ht & _)%Hheld. pose proof (proj1 (Forall_forall _ _) Hnew r Hin) as Hn.
      apply orb_false_iff in Hn as [Hn _]. by apply bool_decide_eq_false in Hn.
Qed.

(** Every task holds its reservation. *)
Record runtime_ok (r : LocalRuntime) : Prop := {
  rt_store : store_ok (lr_store r);
  rt_tasks : NoDup (ht_token <$> lr_tasks r);
  rt_held : Forall (λ t, held (lr_store r) (ht_token t) (ht_key t)) (lr_tasks r);
}.

Lemma set_phase_same {A} (f : HostTask → A) token from to ts :
  (∀ t p, f {| ht_token := ht_token t; ht_key := ht_key t; ht_phase := p |} = f t) →
  f <$> set_phase token from to ts = f <$> ts.
Proof.
  intros Hf. unfold set_phase. rewrite <- list_fmap_compose. apply list_fmap_ext. intros _ t _. simpl. by case_match.
Qed.

Lemma held_tasks s ts :
  Forall (λ t, held s (ht_token t) (ht_key t)) ts ↔ Forall (λ tk, held s tk.1 tk.2) ((λ t, (ht_token t, ht_key t)) <$> ts).
Proof. by rewrite Forall_fmap. Qed.

Lemma runtime_tasks r ts :
  runtime_ok r → ht_token <$> ts = ht_token <$> lr_tasks r →
  (λ t, (ht_token t, ht_key t)) <$> ts = (λ t, (ht_token t, ht_key t)) <$> lr_tasks r → runtime_ok (with_tasks ts r).
Proof.
  intros [Hs Ht Hh] E1 E2. split; simpl; [done|by rewrite E1|]. by rewrite held_tasks, E2, <- held_tasks.
Qed.

Lemma runtime_store r s :
  runtime_ok r → store_ok s → (∀ t k, held (lr_store r) t k → held s t k) → runtime_ok (with_store s r).
Proof. intros [Hs Ht Hh] Hok Hk. split; simpl; [done..|]. eapply Forall_impl; [exact Hh|]. simpl. auto. Qed.

Lemma publish_ok token l e s :
  store_ok s → store_ok (store_publish token l e s).2 ∧ ∀ t k, held s t k → held (store_publish token l e s).2 t k.
Proof. intros Hs. split; [by apply update_ok|]. intros t k Hh. by apply update_held. Qed.

Lemma finish_held token error s t k :
  t ≠ token → held s t k → held (store_finish token error s) t k.
Proof.
  intros Hne Hh. apply (delete_held (λ r, (lh_token r == token) && (lh_status r == Retiring))) in Hh.
  2: { intros r _ Ht Hb. apply andb_true_iff in Hb as [Hb%bool_decide_eq_true _]. congruence. }
  destruct Hh as (r & Hin & Ht & ?). exists r. split; [|done]. unfold store_finish, update_where. simpl.
  apply list_elem_of_fmap. exists r. split; [|done]. by rewrite bool_decide_false by congruence.
Qed.

Lemma local_step_ok e r : runtime_ok r → runtime_ok (local_step e r).
Proof.
  intros Hok. pose proof Hok as [Hs Ht Hh].
  assert (∀ token from to r, runtime_ok r → runtime_ok (with_tasks (set_phase token from to (lr_tasks r)) r)) as Hphase.
  { intros. by apply runtime_tasks; [|apply set_phase_same..]. }
  destruct e as [config region host actor token|token started|token l e|token|token|token error stored|token|config|stored]; cbn [local_step]; auto.
  - destruct (lr_stop r); [done|]. destruct (store_reserve _ _ _ _ _ _) as [[v s]|] eqn:E; [|done].
    apply reserve_ok in E as (Hs' & Hkeep & Hnew); [|done]. pose proof (runtime_store r s Hok Hs' Hkeep) as Hok'.
    destruct (rv_created v); [|done]. destruct (Hnew eq_refl) as [Hheld Hfresh]. destruct Hok' as [? ? Hh'].
    split; simpl; [done| |by apply Forall_app; split; [|repeat constructor]].
    rewrite fmap_app. apply NoDup_app. split_and!; [done| |by apply NoDup_singleton].
    intros k (t & -> & Hin)%list_elem_of_fmap Hx%list_elem_of_singleton. simpl in Hx.
    apply (Hfresh (ht_key t)). rewrite <- Hx. by apply (proj1 (Forall_forall _ _) Hh).
  - destruct (in_phase _ _ _); [|done]. destruct (publish_ok token l e (lr_store r) Hs) as [Hs' Hk].
    destruct (store_publish _ _ _ _) as [published s]. pose proof (runtime_store r s Hok Hs' Hk).
    destruct published; [done|]. by apply (Hphase token Serving Stopping (with_store s r)).
  - destruct (in_phase _ _ _); [|done]. split; simpl.
    + destruct stored; [|done]. by apply update_ok, delete_ok.
    + eapply sublist_NoDup; [exact Ht|]. apply fmap_sublist, sublist_list_filter.
    + apply Forall_forall. intros t Hin%list_elem_of_In. apply filter_In in Hin as [Hin%list_elem_of_In Hne].
      apply negb_true_iff, bool_decide_eq_false in Hne. pose proof (proj1 (Forall_forall _ _) Hh t Hin).
      destruct stored; [|done]. by apply finish_held.
  - apply runtime_store; [done|by apply update_ok|]. intros t k. by apply update_held.
  - apply runtime_store; [done|by apply update_ok, delete_ok|]. intros t k Hheld. apply update_held; [done|].
    apply delete_held; [|exact Hheld]. intros x _ _ [_ ?%bool_decide_eq_true]%andb_true_iff. done.
  - destruct stored; [|by split]. split; simpl; [by apply update_ok, delete_ok|done|].
    eapply Forall_impl; [exact Hh|]. intros t Hheld. apply update_held; [done|].
    apply delete_held; [|exact Hheld]. intros x _ _ ?%bool_decide_eq_true. done.
Qed.

Lemma local_run_ok es r : runtime_ok r → runtime_ok (local_run es r).
Proof.
  revert r. induction es as [|e es IH]; intros r Hr; [done|]. apply IH. by apply local_step_ok.
Qed.

Lemma runtime_new_ok : runtime_ok runtime_new.
Proof. split; [split|..]; constructor. Qed.

(** Tasks that hold reservations of one actor are one task. *)
Lemma tasks_exclusive r : runtime_ok r → NoDup (ht_key <$> lr_tasks r).
Proof.
  intros [[Hrt Hrk] Ht Hh]. induction (lr_tasks r) as [|t ts IH]; simpl; [constructor|].
  apply Forall_cons in Hh as [(row & Hin & Et & Ek & _) Hh]. apply NoDup_cons in Ht as [Hni Ht].
  constructor; [|by apply IH]. intros (t' & Hk & Hin')%list_elem_of_fmap. apply Hni, list_elem_of_fmap. exists t'.
  split; [|done]. destruct (proj1 (Forall_forall _ _) Hh t' Hin') as (row' & Hin2 & Et' & Ek' & _).
  rewrite <- Et, <- Et'. f_equal.
  apply list_elem_of_lookup in Hin as [i Hi], Hin2 as [j Hj].
  assert (i = j) as ->; [|by simplify_eq].
  eapply (NoDup_lookup (row_key <$> hosts (lr_store r))); [done|rewrite list_lookup_fmap, Hi; reflexivity|].
  rewrite list_lookup_fmap, Hj. simpl. congruence.
Qed.

(** *** Retired deployments stay so *)

(** A deployment that was retired has no reservations but those. *)
Definition retired_to (config : bytes) (tokens : list bytes) (s : LocalStore) : Prop :=
  deployments s !! config = Some true ∧ Forall (λ r, lh_config r = config → lh_token r ∈ tokens) (hosts s).

Lemma retired_to_update config tokens p f s :
  (∀ r, lh_config (f r) = lh_config r ∧ lh_token (f r) = lh_token r) → retired_to config tokens s → retired_to config tokens (update_where p f s).
Proof.
  intros Hf [Hd Hr]. split; [done|]. simpl. apply Forall_fmap. eapply Forall_impl; [exact Hr|]. intros r Hr'. simpl.
  destruct (p r); [|done]. by destruct (Hf r) as [-> ->].
Qed.

Lemma retired_to_delete config tokens p s : retired_to config tokens s → retired_to config tokens (delete_where p s).
Proof.
  intros [Hd Hr]. split; [done|]. simpl. apply Forall_forall. intros r Hin%list_elem_of_In.
  apply filter_In in Hin as [Hin%list_elem_of_In _]. by apply (proj1 (Forall_forall _ _) Hr).
Qed.

Lemma retired_to_reserve config tokens c region host actor token s v s' :
  retired_to config tokens s → store_reserve c region host actor token s = Ok (v, s') → retired_to config tokens s'.
Proof.
  intros Hre Hr. unfold store_reserve in Hr. inv_ok.
  assert (c ≠ config) as Hne. { intros ->. destruct Hre as [Hd _]. rename select (default _ _ = false) into Hx. by rewrite Hd in Hx. }
  set (s0 := {| stopping := _; deployments := _; hosts := hosts s |}) in *.
  assert (retired_to config tokens s0) as Hre0.
  { destruct Hre as [Hd ?]. split; [|done]. simpl. by rewrite lookup_insert_ne. }
  apply (retired_to_delete config tokens (λ r, (row_key r == (c, region, actor)) && (lh_status r == Failed))) in Hre0.
  destruct (List.find _ _); inv_ok; simplify_eq; [done|]. destruct Hre0 as [? ?]. split; [done|]. simpl.
  apply Forall_app. split; [done|by repeat constructor].
Qed.

Lemma retired_to_step config tokens e r : retired_to config tokens (lr_store r) → retired_to config tokens (lr_store (local_step e r)).
Proof.
  intros Hre. destruct e as [c region host actor token|token started|token l e|token|token|token error stored|token|c|stored]; simpl; try done.
  - destruct (lr_stop r); [done|]. destruct (store_reserve _ _ _ _ _ _) as [[v s]|] eqn:E; [|done].
    eapply retired_to_reserve in E; [|done]. by destruct (rv_created v).
  - destruct (in_phase _ _ _); [|done]. pose proof (retired_to_update config tokens (λ r, (lh_token r == token) && (lh_status r == Starting)) (λ r, {| lh_token := lh_token r; lh_host_id := lh_host_id r; lh_config := lh_config r;
                              lh_region := lh_region r; lh_actor := lh_actor r; lh_status := Ready;
                              lh_lease := Some l; lh_epoch := e; lh_error := lh_error r |}) (lr_store r) (λ _, conj eq_refl eq_refl) Hre).
    unfold store_publish. by destruct (existsb _ _).
  - destruct (in_phase _ _ _); [|done]. destruct stored; [|done]. by apply retired_to_update, retired_to_delete.
  - by apply retired_to_update.
  - apply retired_to_update, retired_to_delete; [done|]. destruct Hre as [Hd ?]. split; [|done]. simpl.
    destruct (decide (c = config)) as [->|?]; [by rewrite lookup_insert_eq|by rewrite lookup_insert_ne].
  - destruct stored; [|done]. by apply retired_to_update, retired_to_delete.
Qed.

Lemma retired_to_run config tokens es r :
  retired_to config tokens (lr_store r) → retired_to config tokens (lr_store (local_run es r)).
Proof. revert r. induction es as [|e es IH]; intros r Hr; [done|]. apply IH. by apply retired_to_step. Qed.

(** What [retire_config] waits for. *)
Lemma retire_config_to config s :
  retired_to config (store_retire_config config s).1.*1 (store_retire_config config s).2.
Proof.
  split; simpl; [by rewrite lookup_insert_eq|]. apply Forall_fmap, Forall_forall. intros r Hin. simpl.
  destruct (decide (lh_config r = config)) as [Hc|Hc].
  - intros _. rewrite <- list_fmap_compose. apply list_elem_of_fmap. exists r. rewrite bool_decide_true by done.
    split; [done|]. apply list_elem_of_In, filter_In. split; [by apply list_elem_of_In|by apply bool_decide_eq_true].
  - by rewrite bool_decide_false.
Qed.

Lemma settled_empty config tokens s :
  retired_to config tokens s → Forall (λ t, lookup_token t s = None) tokens → retired_to config [] s.
Proof.
  intros [Hd Hr] Hn. split; [done|]. apply Forall_forall. intros r Hin Hc.
  pose proof (proj1 (Forall_forall _ _) Hr r Hin Hc) as Ht. pose proof (proj1 (Forall_forall _ _) Hn _ Ht) as Hnone.
  unfold lookup_token in Hnone. apply find_none in Hnone. pose proof (proj1 (Forall_forall _ _) Hnone r Hin) as Hf.
  by apply bool_decide_eq_false in Hf.
Qed.

Lemma stopped_step e r : lr_stop r = true ∧ lr_tasks r = [] → lr_stop (local_step e r) = true ∧ lr_tasks (local_step e r) = [].
Proof. intros [Hs Ht]. destruct e; simpl; rewrite ?Hs, ?Ht; done. Qed.

(** Whatever callers, processes and failures of the store do: no two processes are
    ever run for the same actor of one configuration and region; once a retired
    configuration's reservations are settled, which [retire_config] waits for, it
    has no process and never gets one again; and after a shutdown whose tasks have
    ended nothing is started. *)
Theorem local_hosts_exclusive (es : list local_event) :
  let r := local_run es runtime_new in
  NoDup (ht_key <$> lr_tasks r) ∧
  (∀ config es1 es2,
    let '(gone, s) := store_retire_config config (lr_store r) in
    let r1 := local_run es1 (with_store s r) in
    Forall (λ h, lookup_token h.1 (lr_store r1) = None) gone →
    Forall (λ t, (ht_key t).1.1 ≠ config) (lr_tasks (local_run es2 r1))) ∧
  (lr_stop r = true → lr_tasks r = [] → ∀ es', lr_tasks (local_run es' r) = []).
Proof.
  intros r. pose proof (local_run_ok es _ runtime_new_ok : runtime_ok r) as Hok. split_and!.
  - by apply tasks_exclusive.
  - intros config es1 es2. pose proof (retire_config_to config (lr_store r)) as Hto.
    pose proof (local_step_ok (RetireConfig config) r Hok) as Hok1. cbn [local_step] in Hok1.
    destruct (store_retire_config config (lr_store r)) as [gone s]. cbn [fst snd] in *. intros Hgone.
    pose proof (local_run_ok es2 _ (local_run_ok es1 _ Hok1)) as [_ _ Hh].
    apply (retired_to_run _ _ es1 (with_store s r)), settled_empty, (retired_to_run _ _ es2) in Hto as [_ Hto];
      [|by apply Forall_fmap].
    eapply Forall_impl; [exact Hh|]. intros t (row & Hin & _ & <- & _) Hc. simpl in Hc.
    by apply (proj1 (Forall_forall _ _) Hto row Hin), elem_of_nil in Hc.
  - intros Hs Ht es'. revert Hs Ht. generalize r. clear. induction es' as [|e es' IH]; intros r Hs Ht; [done|].
    destruct (stopped_step e r (conj Hs Ht)) as [? ?]. by apply IH.
Qed.

(** Two callers share one process; it is retired, and its actor cannot start again
    before the process is gone. *)
Definition demo_local : list local_event :=
  [Reserve (b"c") (b"r") (b"h1") {| project_id := b"p"; actor_name := b"A"; actor_id := b"a" |} (b"t1");
   Spawn (b"t1") true;
   Reserve (b"c") (b"r") (b"h2") {| project_id := b"p"; actor_name := b"A"; actor_id := b"a" |} (b"t2");
   BecameReady (b"t1") {| lease_id := b"h1"; session_id := b"s"; route := b"u"; expires_at_ms := 9 |} 1;
   Retire (b"t1");
   Reserve (b"c") (b"r") (b"h3") {| project_id := b"p"; actor_name := b"A"; actor_id := b"a" |} (b"t3");
   ServeEnds (b"t1"); ProcessGone (b"t1"); Settle (b"t1") (b"stopped") true;
   Reserve (b"c") (b"r") (b"h4") {| project_id := b"p"; actor_name := b"A"; actor_id := b"a" |} (b"t4")].

Example demo_local_tasks :
  (λ n, (λ t, (ht_token t, has_process t)) <$> lr_tasks (local_run (take n demo_local) runtime_new)) <$> [4; 7; 9; 10]%nat =
  [[(b"t1", true)]; [(b"t1", true)]; []; [(b"t4", false)]].
Proof. vm_compute. reflexivity. Qed.
