(* ===== verification/Telemetry.v ===== *)
(** * Request telemetry

    What hosts report about the requests they serve: the tracker that completes a
    request once ([src/src/request_tracking.rs]), the reading of OpenTelemetry
    messages after the identity of the sender was written over them
    ([src/src/request_traces/otlp.rs]), the SQLite store of traces and logs
    ([src/src/request_traces/persistence/sqlite.rs] and its modules) and the
    cursors a client pages with ([src/src/request_traces/persistence/cursor.rs],
    [src/src/request_traces/logs.rs]). A table is the list of its rows in insertion
    order; a transaction that fails leaves it as it was. The migration of older
    database files and the aggregates of the metrics queries are left out. *)

From Stdlib Require Import ZArith Floats.SpecFloat.
From S2P Require Import Prelude Text Demo Names StateLog Effects Btree Admission Routing Tokens Protocol Executor Assignment.
Local Open Scope N_scope.

(** ** Requests *)

Inductive RequestOutcome := Completed | Failed | Rejected | Rerouted | Interrupted.
Inductive RequestKind := Method | Websocket.

#[global] Instance RequestOutcome_eq_dec : EqDecision RequestOutcome.
Proof. solve_decision. Defined.

Definition outcome_str (o : RequestOutcome) : bytes :=
  match o with
  | Completed => b"completed"
  | Failed => b"failed"
  | Rejected => b"rejected"
  | Rerouted => b"rerouted"
  | Interrupted => b"interrupted"
  end.

Definition host_state_str (s : HostState) : bytes := match s with Cold => b"cold" | Warm => b"warm" end.
Definition kind_str (k : RequestKind) : bytes := match k with Method => b"method" | Websocket => b"websocket" end.

(** ** Tracking one request

    Instants are nanoseconds on the monotonic clock, wall-clock times milliseconds.
    What the observer and the waiting response were told is kept as a list. *)

Module Tracker.

(** [Duration::as_secs_f64() * 1000.0] *)
Definition elapsed_millis (nanos : N) : f64 :=
  f64_mul (f64_add (f64_from (nanos / 1000000000)) (f64_div (f64_from (nanos mod 1000000000)) (f64_from 1000000000)))
          (f64_from 1000).

Inductive RequestStage :=
| StateCacheChecked | StateDownloaded | StateDecoded
| PendingCommitResolved | ActorExecutionCompleted | StatePublicationCompleted.

Record RequestCheckpoints := {
  state_cache_checked_at_ms : option f64;
  state_downloaded_at_ms : option f64;
  state_decoded_at_ms : option f64;
  pending_commit_resolved_at_ms : option f64;
  actor_execution_completed_at_ms : option f64;
  state_publication_completed_at_ms : option f64;
}.

Definition checkpoints_default : RequestCheckpoints :=
  {| state_cache_checked_at_ms := None; state_downloaded_at_ms := None; state_decoded_at_ms := None;
     pending_commit_resolved_at_ms := None; actor_execution_completed_at_ms := None;
     state_publication_completed_at_ms := None |}.

Record RequestMetadata := {
  routing_ms : f64;
  duration_ms : f64;
  queue_wait_ms : option f64;
  host_state : HostState;
}.

Record RequestCompletion := {
  rc_started_at_ms : N;
  rc_state_version : option N;
  rc_outcome : RequestOutcome;
  rc_timings : RequestMetadata;
  rc_checkpoints : RequestCheckpoints;
}.

Record RequestTracker := {
  started : N;
  started_at_ms : N;
  tk_queue_wait_ms : option f64;
  tk_host_state : HostState;
  tk_routing_ms : f64;
  tk_state_version : option N;
  completion : option RequestCompletion;
  response : bool;
  observer : bool;
  checkpoints : RequestCheckpoints;
}.

(** What leaves the tracker: a record for the observer, timings for the response. *)
Inductive report := Recorded (c : RequestCompletion) | Responded (m : RequestMetadata).

(** [now] and [wall_ms] are the two clocks at the call. *)
Definition tracker_new (began now wall_ms : N) (state : HostState) (routing : f64) (observed : bool) : RequestTracker :=
  {| started := began; started_at_ms := saturating_sub wall_ms ((now - began) / 1000000);
     tk_queue_wait_ms := None; tk_host_state := state; tk_routing_ms := routing; tk_state_version := None;
     completion := None; response := true; observer := observed; checkpoints := checkpoints_default |}.

Definition elapsed_ms (now : N) (t : RequestTracker) : f64 := elapsed_millis (now - started t).

Definition with_queue_wait (w : f64) (t : RequestTracker) : RequestTracker :=
  {| started := started t; started_at_ms := started_at_ms t; tk_queue_wait_ms := Some w;
     tk_host_state := tk_host_state t; tk_routing_ms := tk_routing_ms t; tk_state_version := tk_state_version t;
     completion := completion t; response := response t; observer := observer t; checkpoints := checkpoints t |}.

Definition with_checkpoints (c : RequestCheckpoints) (t : RequestTracker) : RequestTracker :=
  {| started := started t; started_at_ms := started_at_ms t; tk_queue_wait_ms := tk_queue_wait_ms t;
     tk_host_state := tk_host_state t; tk_routing_ms := tk_routing_ms t; tk_state_version := tk_state_version t;
     completion := completion t; response := response t; observer := observer t; checkpoints := c |}.

Definition admitted (now : N) (t : RequestTracker) : RequestTracker :=
  match tk_queue_wait_ms t, completion t with
  | None, None => with_queue_wait (elapsed_ms now t) t
  | _, _ => t
  end.

Definition put_checkpoint (stage : RequestStage) (e : option f64) (c : RequestCheckpoints) : RequestCheckpoints :=
  let pick s old := match stage, s with
    | StateCacheChecked, StateCacheChecked | StateDownloaded, StateDownloaded | StateDecoded, StateDecoded
    | PendingCommitResolved, PendingCommitResolved | ActorExecutionCompleted, ActorExecutionCompleted
    | StatePublicationCompleted, StatePublicationCompleted => e
    | _, _ => old
    end in
  {| state_cache_checked_at_ms := pick StateCacheChecked (state_cache_checked_at_ms c);
     state_downloaded_at_ms := pick StateDownloaded (state_downloaded_at_ms c);
     state_decoded_at_ms := pick StateDecoded (state_decoded_at_ms c);
     pending_commit_resolved_at_ms := pick PendingCommitResolved (pending_commit_resolved_at_ms c);
     actor_execution_completed_at_ms := pick ActorExecutionCompleted (actor_execution_completed_at_ms c);
     state_publication_completed_at_ms := pick StatePublicationCompleted (state_publication_completed_at_ms c) |}.

Definition mark_at (stage : RequestStage) (at_ns : N) (t : RequestTracker) : RequestTracker :=
  match completion t with
  | Some _ => t
  | None => with_checkpoints (put_checkpoint stage (Some (elapsed_millis (at_ns - started t))) (checkpoints t)) t
  end.

Definition set_state_version (v : option N) (t : RequestTracker) : RequestTracker :=
  {| started := started t; started_at_ms := started_at_ms t; tk_queue_wait_ms := tk_queue_wait_ms t;
     tk_host_state := tk_host_state t; tk_routing_ms := tk_routing_ms t; tk_state_version := v;
     completion := completion t; response := response t; observer := observer t; checkpoints := checkpoints t |}.

Definition finish (now : N) (o : RequestOutcome) (t : RequestTracker) : list report * RequestTracker :=
  match completion t with
  | Some _ => ([], t)
  | None =>
      let m := {| routing_ms := tk_routing_ms t; duration_ms := elapsed_ms now t;
                  queue_wait_ms := tk_queue_wait_ms t; host_state := tk_host_state t |} in
      let c := {| rc_started_at_ms := started_at_ms t; rc_state_version := tk_state_version t; rc_outcome := o;
                  rc_timings := m; rc_checkpoints := checkpoints t |} in
      ((if observer t then [Recorded c] else []) ++ (if response t then [Responded m] else []),
       {| started := started t; started_at_ms := started_at_ms t; tk_queue_wait_ms := tk_queue_wait_ms t;
          tk_host_state := tk_host_state t; tk_routing_ms := tk_routing_ms t; tk_state_version := tk_state_version t;
          completion := Some c; response := false; observer := false; checkpoints := checkpoints t |})
  end.

(** What an execution ended with, as far as the tracker tells outcomes apart. *)
Inductive ended := RanCompleted | RanHostUnavailable | RanOtherwise.

Definition complete (now : N) (r : ended) (t : RequestTracker) : list report * RequestTracker :=
  finish now (match r with RanCompleted => Completed | RanHostUnavailable => Rejected | RanOtherwise => Failed end) t.

(** The calls made on a tracker before it is dropped. *)
Inductive call :=
| MarkAdmitted (now : N)
| MarkAt (stage : RequestStage) (at_ns : N)
| StateVersion (v : option N)
| Complete (now : N) (r : ended)
| Finish (now : N) (o : RequestOutcome).

Definition tracker_call (c : call) (t : RequestTracker) : list report * RequestTracker :=
  match c with
  | MarkAdmitted now => ([], admitted now t)
  | MarkAt stage at_ns => ([], mark_at stage at_ns t)
  | StateVersion v => ([], set_state_version v t)
  | Complete now r => complete now r t
  | Finish now o => finish now o t
  end.

Fixpoint tracker_run (cs : list call) (dropped : N) (t : RequestTracker) : list report :=
  match cs with
  | [] => (finish dropped Interrupted t).1
  | c :: cs => let '(out, t) := tracker_call c t in out ++ tracker_run cs dropped t
  end.

(** The outcome of a call that completes a request. *)
Definition completing (c : call) : option RequestOutcome :=
  match c with
  | Complete _ RanCompleted => Some Completed
  | Complete _ RanHostUnavailable => Some Rejected
  | Complete _ RanOtherwise => Some Failed
  | Finish _ o => Some o
  | _ => None
  end.

End Tracker.

(** ** Numbers in text

    [str::parse::<i64>] and [str::parse::<f64>]. *)

Definition parse_i64 (s : bytes) : option Z :=
  let digits (s : bytes) := match s with [] => None | _ => parse_digits 10 s end in
  match s with
  | x2d :: s => n ← digits s; if n <=? 9223372036854775808 then Some (- Z.of_N n)%Z else None
  | _ => n ← digits (match s with x2b :: s => s | _ => s end);
         if n <=? 9223372036854775807 then Some (Z.of_N n) else None
  end.

(** The longest run of decimal digits, its value and what follows. *)
Fixpoint take_digits (acc : N) (s : bytes) : N * nat * bytes :=
  match s with
  | x :: s' => match byte_digit 10 x with
               | Some d => let '(n, k, rest) := take_digits (acc * 10 + d) s' in (n, S k, rest)
               | None => (acc, O, s)
               end
  | [] => (acc, O, s)
  end.

(** [m * 10^e] rounded once: a quotient keeps 128 bits and a sticky one. *)
Definition decimal (m : N) (e : Z) : f64 :=
  if (0 <=? e)%Z then binary_normalize 53 1024 (Z.of_N m * 10 ^ e) 0 false
  else
    let d := (10 ^ (- e))%Z in
    let shift := (Z.log2 d + 128)%Z in
    let q := (Z.of_N m * 2 ^ shift / d)%Z in
    let sticky := if (Z.of_N m * 2 ^ shift mod d =? 0)%Z then 0%Z else 1%Z in
    binary_normalize 53 1024 (2 * q + sticky) (- shift - 1) false.

Definition to_ascii_lowercase (s : bytes) : bytes :=
  (λ x, if is_ascii_uppercase x then default x (Byte.of_N (Byte.to_N x + 32)) else x) <$> s.

(** The exponent after the digits, which must end the text. *)
Definition parse_exponent (s : bytes) : option Z :=
  match s with
  | [] => Some 0%Z
  | (x45 | x65) :: s =>
      let '(neg, s) := match s with x2d :: s => (true, s) | x2b :: s => (false, s) | _ => (false, s) end in
      match take_digits 0 s with
      | (n, S _, []) => Some (if neg then - Z.of_N n else Z.of_N n)%Z
      | _ => None
      end
  | _ => None
  end.

Definition parse_unsigned_f64 (s : bytes) : option f64 :=
  let word := to_ascii_lowercase s in
  if (word == b"inf") || (word == b"infinity") then Some (S754_infinity false)
  else if word == b"nan" then Some S754_nan
  else
    let '(whole, k, s) := take_digits 0 s in
    let '(m, f, s) := match s with x2e :: s => take_digits whole s | _ => (whole, O, s) end in
    match (k + f)%nat with
    | O => None
    | S _ => e ← parse_exponent s; Some (decimal m (e - Z.of_nat f))
    end.

Definition parse_f64 (s : bytes) : option f64 :=
  match s with
  | x2d :: s => SFopp <$> parse_unsigned_f64 s
  | x2b :: s => parse_unsigned_f64 s
  | _ => parse_unsigned_f64 s
  end.

Example parse_f64_demo :
  parse_f64 (b"-12.5e-1") = Some (SFopp (f64_div (f64_from 5) (f64_from 4))) ∧
  parse_f64 (b".1") = Some (f64_div (f64_from 1) (f64_from 10)) ∧
  parse_f64 (b"1e400") = Some (S754_infinity false) ∧ parse_f64 (b"e1") = None ∧ parse_i64 (b"-7") = Some (-7)%Z.
Proof. vm_compute. auto. Qed.

(** ** OpenTelemetry messages *)

(** [any_value::Value]: the kinds that are never read are one. *)
Inductive any_value := StringValue (s : bytes) | IntValue (z : Z) | DoubleValue (x : f64) | OtherValue.

Record KeyValue := { kv_key : bytes; kv_value : option (option any_value) }.
Abbreviation Resource := (list KeyValue).

Record Span := {
  span_id : bytes;
  span_name : bytes;
  span_attributes : list KeyValue;
  start_time_unix_nano : N;
  end_time_unix_nano : N;
}.

Record OtlpLogRecord := {
  time_unix_nano : N;
  observed_time_unix_nano : N;
  severity_text : bytes;
  log_body : option (option any_value);
  log_attributes : list KeyValue;
}.

Record ResourceSpans := { rs_resource : option Resource; scope_spans : list (list Span) }.
Record ResourceLogs := { rl_resource : option Resource; scope_logs : list (list OtlpLogRecord) }.

Definition TENANT_PREFIX : bytes := b"durable_actors.".
Definition ORGANIZATION_ID : bytes := b"durable_actors.organization_id".
Definition PROJECT_ID : bytes := b"durable_actors.project_id".
Definition ACTOR_NAME : bytes := b"durable_actors.actor_name".
Definition ACTOR_ID : bytes := b"durable_actors.actor_id".
Definition HOST_ID : bytes := b"durable_actors.host_id".
Definition SESSION_ID : bytes := b"durable_actors.session_id".
Definition REQUEST_ID : bytes := b"durable_actors.request_id".
Definition LOG_ID : bytes := b"durable_actors.log_id".
Definition KIND : bytes := b"durable_actors.kind".
Definition CONNECTION_ID : bytes := b"durable_actors.connection_id".
Definition OUTCOME : bytes := b"durable_actors.outcome".
Definition QUEUE_WAIT_MS : bytes := b"durable_actors.queue_wait_ms".
Definition ROUTING_MS : bytes := b"durable_actors.routing_ms".
Definition HOST_STATE : bytes := b"durable_actors.host_state".
Definition STATE_VERSION : bytes := b"durable_actors.state_version".
Definition METADATA : bytes := b"durable_actors.metadata".

(** The verified identity of a host. *)
Record Identity := {
  id_organization_id : option bytes;
  id_project_id : bytes;
  id_actor_name : bytes;
  id_actor_id : bytes;
  id_host_id : bytes;
  id_session_id : bytes;
}.

Definition string_attribute (key value : bytes) : KeyValue :=
  {| kv_key := key; kv_value := Some (Some (StringValue value)) |}.

Definition stamp (i : Identity) (r : option Resource) : Resource :=
  List.filter (λ a, negb (starts_with TENANT_PREFIX (kv_key a))) (default [] r) ++
  [string_attribute PROJECT_ID (id_project_id i); string_attribute ACTOR_NAME (id_actor_name i);
   string_attribute ACTOR_ID (id_actor_id i); string_attribute HOST_ID (id_host_id i);
   string_attribute SESSION_ID (id_session_id i)] ++
  match id_organization_id i with Some o => [string_attribute ORGANIZATION_ID o] | None => [] end.

(** The first attribute of that name decides. *)
Definition attribute (attributes : list KeyValue) (key : bytes) : option any_value :=
  a ← List.find (λ a, kv_key a == key) attributes; v ← kv_value a; v.

Definition string_of (attributes : list KeyValue) (key : bytes) : option bytes :=
  match attribute attributes key with Some (StringValue s) => Some s | _ => None end.

(** [i64 as f64] *)
Definition f64_of_Z (z : Z) : f64 := binary_normalize 53 1024 z 0 false.

Definition number_of (attributes : list KeyValue) (key : bytes) : option f64 :=
  x ← match attribute attributes key with
      | Some (DoubleValue x) => Some x
      | Some (IntValue z) => Some (f64_of_Z z)
      | Some (StringValue s) => parse_f64 s
      | _ => None
      end;
  if is_finite x && SFleb (f64_from 0) x then Some x else None.

Definition integer_of (attributes : list KeyValue) (key : bytes) : option Z :=
  match attribute attributes key with
  | Some (IntValue z) => Some z
  | Some (StringValue s) => parse_i64 s
  | _ => None
  end.

(** The derived deserializers of the enumerations. *)
Definition parse_kind (s : bytes) : option RequestKind :=
  if s == b"method" then Some Method else if s == b"websocket" then Some Websocket else None.
Definition parse_host_state (s : bytes) : option HostState :=
  if s == b"cold" then Some Cold else if s == b"warm" then Some Warm else None.
Definition parse_outcome (s : bytes) : option RequestOutcome :=
  List.find (λ o, s == outcome_str o) [Completed; Failed; Rejected; Rerouted; Interrupted].

Definition hex (s : bytes) : bytes := s ≫= λ x, pad 2 (show_hex (Byte.to_N x)).

Section events.
Context `{JsonValue, Json Value}.

Record RequestTrace := {
  tr_state_version : option N;
  tr_project_id : bytes;
  tr_request_id : bytes;
  tr_actor_name : bytes;
  tr_actor_id : bytes;
  tr_kind : RequestKind;
  tr_operation : bytes;
  tr_connection_id : option bytes;
  tr_started_at_ms : N;
  tr_routing_ms : f64;
  tr_duration_ms : f64;
  tr_queue_wait_ms : option f64;
  tr_host_state : HostState;
  tr_outcome : RequestOutcome;
  tr_metadata : option Value;
}.

Record TraceEvent := {
  event_id : bytes;
  te_host_id : bytes;
  te_session_id : bytes;
  te_trace : RequestTrace;
}.

Definition trace_event (resource : list KeyValue) (span : Span) : option TraceEvent :=
  let a := span_attributes span in
  let ns := start_time_unix_nano span in
  let duration := saturating_sub (end_time_unix_nano span) ns in
  host ← string_of resource HOST_ID;
  session ← string_of resource SESSION_ID;
  project ← string_of resource PROJECT_ID;
  request ← string_of a REQUEST_ID;
  name ← string_of resource ACTOR_NAME;
  actor ← string_of resource ACTOR_ID;
  kind ← string_of a KIND ≫= parse_kind;
  outcome ← string_of a OUTCOME ≫= parse_outcome;
  Some {| event_id := hex (span_id span); te_host_id := host; te_session_id := session;
          te_trace :=
            {| tr_state_version := z ← integer_of a STATE_VERSION; if (0 <=? z)%Z then Some (Z.to_N z) else None;
               tr_project_id := project; tr_request_id := request; tr_actor_name := name; tr_actor_id := actor;
               tr_kind := kind; tr_operation := span_name span; tr_connection_id := string_of a CONNECTION_ID;
               tr_started_at_ms := ns / 1000000; tr_routing_ms := default (f64_from 0) (number_of a ROUTING_MS);
               tr_duration_ms := f64_div (f64_from duration) (f64_from 1000000);
               tr_queue_wait_ms := number_of a QUEUE_WAIT_MS;
               tr_host_state := default Warm (string_of a HOST_STATE ≫= parse_host_state);
               tr_outcome := outcome; tr_metadata := string_of a METADATA ≫= from_json |} |}.

Definition trace_events (request : list ResourceSpans) : list TraceEvent :=
  request ≫= λ rs, omap (trace_event (default [] (rs_resource rs))) (concat (scope_spans rs)).

End events.

Record ActorLog := {
  log_id : bytes;
  al_project_id : bytes;
  al_actor_name : bytes;
  al_actor_id : bytes;
  al_host_id : bytes;
  al_request_id : option bytes;
  timestamp_ms : N;
  al_level : bytes;
  al_message : bytes;
}.

Definition actor_log (resource : list KeyValue) (record : OtlpLogRecord) : option ActorLog :=
  let a := log_attributes record in
  let ns := if 0 <? time_unix_nano record then time_unix_nano record else observed_time_unix_nano record in
  id ← string_of a LOG_ID;
  project ← string_of resource PROJECT_ID;
  name ← string_of resource ACTOR_NAME;
  actor ← string_of resource ACTOR_ID;
  host ← string_of resource HOST_ID;
  Some {| log_id := id; al_project_id := project; al_actor_name := name; al_actor_id := actor; al_host_id := host;
          al_request_id := string_of a REQUEST_ID; timestamp_ms := ns / 1000000;
          al_level := to_ascii_lowercase (severity_text record);
          al_message := match log_body record with Some (Some (StringValue s)) => s | _ => [] end |}.

Definition actor_logs (request : list ResourceLogs) : list ActorLog :=
  request ≫= λ rl, omap (actor_log (default [] (rl_resource rl))) (concat (scope_logs rl)).

(** ** The SQLite store of traces

    The tables [traces], [trace_meta] and [trace_projects]. *)

Record TraceRow := {
  position : N;
  row_event_id : bytes;
  row_event : bytes;
  row_started_at_ms : N;
  row_actor_name : bytes;
  row_actor_id : bytes;
  row_outcome : bytes;
  row_project_id : bytes;
}.

Record TraceProject := { tp_total : N; tp_head : N; tp_pruned : N }.

Record TraceDb := {
  generation : bytes;
  meta_pruned : N;
  meta_total : N;
  last_position : N;
  traces : list TraceRow;
  trace_projects : gmap bytes TraceProject;
}.

(** [initialize] on an empty file, with the UUID it draws. *)
Definition trace_db_new (uuid : bytes) : TraceDb :=
  {| generation := uuid; meta_pruned := 0; meta_total := 0; last_position := 0; traces := [];
     trace_projects := ∅ |}.

Definition LOCAL_RETENTION : nat := 10000.

(** [i64::try_from] *)
Definition to_i64 (n : N) : result N :=
  ensure (n <=? 9223372036854775807) "out of range integral type conversion attempted";; Ok n.

(** The trigger [traces_project_insert]. *)
Definition project_inserted (row : TraceRow) (ps : gmap bytes TraceProject) : gmap bytes TraceProject :=
  if row_project_id row == [] then ps
  else <[row_project_id row :=
          match ps !! row_project_id row with
          | None => {| tp_total := 1; tp_head := position row; tp_pruned := 0 |}
          | Some p => {| tp_total := tp_total p + 1; tp_head := position row; tp_pruned := tp_pruned p |}
          end]> ps.

(** The trigger [traces_project_delete]. *)
Definition project_deleted (ps : gmap bytes TraceProject) (row : TraceRow) : gmap bytes TraceProject :=
  alter (λ p, {| tp_total := tp_total p; tp_head := tp_head p; tp_pruned := N.max (tp_pruned p) (position row) |})
    (row_project_id row) ps.

Section store.
Context `{JsonValue, Json TraceEvent}.

(** SQLite chooses increasing positions but may leave gaps, [skipped] of them. *)
Context (skipped : TraceDb → N).

(** One statement of [insert_events]; an event that is stored already is skipped. *)
Definition insert_event (s : TraceDb * N) (e : TraceEvent) : result (TraceDb * N) :=
  let '(db, inserted) := s in
  started ← to_i64 (tr_started_at_ms (te_trace e));
  if existsb (λ r, row_event_id r == event_id e) (traces db) then Ok (db, inserted)
  else
    let chosen := last_position db + 1 + skipped db in
    ensure (chosen <=? 9223372036854775807) "database or disk is full";;
    let row := {| position := chosen; row_event_id := event_id e; row_event := to_json e;
                  row_started_at_ms := started; row_actor_name := tr_actor_name (te_trace e);
                  row_actor_id := tr_actor_id (te_trace e); row_outcome := outcome_str (tr_outcome (te_trace e));
                  row_project_id := tr_project_id (te_trace e) |} in
    Ok ({| generation := generation db; meta_pruned := meta_pruned db; meta_total := meta_total db;
           last_position := chosen; traces := traces db ++ [row];
           trace_projects := project_inserted row (trace_projects db) |}, inserted + 1).

Definition insert_events (db : TraceDb) (events : list TraceEvent) : result (TraceDb * N) :=
  foldM insert_event (db, 0) events.

(** [SELECT position ... ORDER BY position DESC LIMIT 1 OFFSET retention] *)
Definition beyond (retention : nat) (db : TraceDb) : N :=
  default 0 (position <$> reverse (traces db) !! retention).

(** [SqliteTracePersistence::append] *)
Definition append (retention : nat) (events : list TraceEvent) (db : TraceDb) : result TraceDb :=
  '(db, inserted) ← insert_events db events;
  let pruned := N.max (meta_pruned db) (beyond retention db) in
  let gone := List.filter (λ r, position r <=? pruned) (traces db) in
  Ok {| generation := generation db; meta_pruned := pruned; meta_total := meta_total db + inserted;
        last_position := last_position db; traces := List.filter (λ r, negb (position r <=? pruned)) (traces db);
        trace_projects := foldl project_deleted (trace_projects db) gone |}.

End store.

(** ** Cursors *)

Record Metadata := { md_generation : bytes; md_head : N; md_pruned : N }.

Definition metadata (db : TraceDb) (project : bytes) : Metadata :=
  {| md_generation := generation db;
     md_pruned := default 0 (tp_pruned <$> trace_projects db !! project);
     md_head := default 0 (tp_head <$> trace_projects db !! project) |}.

Record HistoryCursor := {
  hc_project_id : bytes;
  hc_generation : bytes;
  hc_watermark : N;
  hc_pruned : N;
  hc_time : N;
  hc_sequence : N;
  hc_filters : bytes;
}.

Record ReplayCursor := { rp_project_id : bytes; rp_generation : bytes; rp_position : N }.

Record HistoryQuery := {
  hq_request_id : option bytes;
  hq_connection_id : option bytes;
  hq_actor_name : option bytes;
  hq_actor_id : option bytes;
  hq_outcome : option RequestOutcome;
  hq_from_ms : option N;
  hq_to_ms : option N;
  hq_limit : N;
  hq_cursor : option bytes;
}.

Definition TRACE_CAPACITY : N := 500.
Definition page_size : N := 100.
Definition MAX_TIMESTAMP_MS : N := 9007199254740991.

Definition history_default : HistoryQuery :=
  {| hq_request_id := None; hq_connection_id := None; hq_actor_name := None; hq_actor_id := None;
     hq_outcome := None; hq_from_ms := None; hq_to_ms := None; hq_limit := page_size; hq_cursor := None |}.

Definition all_of {A} (f : A → bool) (o : option A) : bool := match o with Some a => f a | None => true end.

(** [HistoryQuery::validate] *)
Definition history_validate (q : HistoryQuery) : result unit :=
  ensure (all_of (λ i, (i != []) && (len i <=? 256)) (hq_request_id q) &&
          all_of (λ i, (i != []) && (len i <=? 256)) (hq_connection_id q)) "invalid request or connection ID";;
  ensure ((1 <=? hq_limit q) && (hq_limit q <=? TRACE_CAPACITY)) "limit must be between 1 and 500";;
  ensure (all_of (λ c, (c != []) && (len c <=? 4096)) (hq_cursor q)) "invalid history cursor";;
  ensure (all_of (λ t, t <=? MAX_TIMESTAMP_MS) (hq_from_ms q) &&
          all_of (λ t, t <=? MAX_TIMESTAMP_MS) (hq_to_ms q)) "invalid timestamp";;
  ensure (match hq_from_ms q, hq_to_ms q with Some from, Some to => from <=? to | _, _ => true end)
    "fromMs must not exceed toMs";;
  validate_actor {| project_id := b"history"; actor_name := default (b"Actor") (hq_actor_name q);
                    actor_id := default (b"actor") (hq_actor_id q) |}.

(** The filters a cursor belongs to. *)
Abbreviation filter_tuple :=
  (option bytes * option bytes * option bytes * option bytes * option RequestOutcome * option N * option N)%type.

Definition filters_of (q : HistoryQuery) : filter_tuple :=
  (hq_request_id q, hq_connection_id q, hq_actor_name q, hq_actor_id q, hq_outcome q, hq_from_ms q, hq_to_ms q).

Section pages.
Context `{JsonValue}.

Record TraceRecord := { sequence : N; tc_event : TraceEvent }.

Record TracePage := {
  epoch : bytes;
  cursor : N;
  capacity : N;
  records : list TraceRecord;
  next_cursor : option bytes;
  resume_cursor : bytes;
  reset : bool;
  snapshot : bool;
}.

End pages.

Definition InvalidTraceQuery : string := "Invalid or incompatible request trace query".

Section queries.
Context `{JsonValue, Json TraceEvent, Json HistoryCursor, Json ReplayCursor, Json filter_tuple, Base64}.

(** SQLite's [json_extract(event, '$.key')] on a text field. *)
Context (json_extract : bytes → string → option bytes).

Definition filter_key (q : HistoryQuery) : bytes := to_json (filters_of q).

Definition cursor_encode `{Json A} (c : A) : bytes := b64_encode (to_json c).

Definition cursor_decode `{Json A} (s : bytes) : result A :=
  t ← ctx (b64_decode s) InvalidTraceQuery;
  ctx (from_json t) InvalidTraceQuery.

(** [HistoryCursor::decode] *)
Definition history_cursor_decode (value project filters : bytes) (md : Metadata) : result HistoryCursor :=
  c ← cursor_decode value;
  if (hc_project_id c != project)
     || (hc_generation c == [])
     || (64 <? len (hc_generation c))
     || (9223372036854775807 <? hc_watermark c)
     || (hc_watermark c <? hc_pruned c)
     || (hc_sequence c =? 0)
     || (hc_watermark c <? hc_sequence c)
     || (MAX_TIMESTAMP_MS <? hc_time c)
     || (hc_filters c != filters)
     || ((hc_generation c == md_generation md) && ((md_head md <? hc_watermark c) || (md_pruned md <? hc_pruned c)))
  then Err InvalidTraceQuery else Ok c.

Definition transpose {A B} (f : A → result B) (o : option A) : result (option B) :=
  match o with None => Ok None | Some a => x ← f a; Ok (Some x) end.

Record HistoryPage := {
  hp_project_id : bytes;
  hp_metadata : Metadata;
  hp_filters : bytes;
  hp_after : option HistoryCursor;
  hp_watermark : N;
  hp_reset : bool;
}.

(** [HistoryPage::new] *)
Definition history_page_new (project : bytes) (q : HistoryQuery) (md : Metadata) : result HistoryPage :=
  let filters := filter_key q in
  c ← transpose (λ v, history_cursor_decode v project filters md) (hq_cursor q);
  let reset := match c with
               | Some c => (hc_generation c != md_generation md) || (hc_pruned c <? md_pruned md)
               | None => false
               end in
  let after := if reset then None else c in
  Ok {| hp_project_id := project; hp_metadata := md; hp_filters := filters; hp_after := after;
        hp_watermark := match after with Some c => hc_watermark c | None => md_head md end; hp_reset := reset |}.

Definition resume (project gen : bytes) (pos : N) : bytes :=
  cursor_encode {| rp_project_id := project; rp_generation := gen; rp_position := pos |}.

(** [HistoryPage::finish]; [last().unwrap()] is on a page that is not empty. *)
Definition history_page_finish (p : HistoryPage) (limit : N) (rs : list TraceRecord) : TracePage :=
  let more := limit <? len rs in
  let rs := takeN limit rs in
  {| resume_cursor := resume (hp_project_id p) (md_generation (hp_metadata p)) (hp_watermark p);
     epoch := md_generation (hp_metadata p); cursor := hp_watermark p; capacity := limit; records := rs;
     next_cursor :=
       if more then
         r ← list.last rs;
         Some (cursor_encode
           {| hc_project_id := hp_project_id p; hc_generation := md_generation (hp_metadata p);
              hc_watermark := hp_watermark p; hc_pruned := md_pruned (hp_metadata p);
              hc_time := tr_started_at_ms (te_trace (tc_event r)); hc_sequence := sequence r;
              hc_filters := hp_filters p |})
       else None;
     reset := hp_reset p; snapshot := false |}.

(** [value as i64] *)
Definition as_i64 (n : N) : Z :=
  if n <=? 9223372036854775807 then Z.of_N n else (Z.of_N n - 18446744073709551616)%Z.

(** The [WHERE] clauses of the filters. *)
Definition row_matches (project : bytes) (q : HistoryQuery) (watermark : N) (r : TraceRow) : bool :=
  (row_project_id r == project) && (Z.of_N (position r) <=? as_i64 watermark)%Z
  && all_of (λ i, json_extract (row_event r) "requestId" == Some i) (hq_request_id q)
  && all_of (λ i, json_extract (row_event r) "connectionId" == Some i) (hq_connection_id q)
  && all_of (λ n, row_actor_name r == n) (hq_actor_name q)
  && all_of (λ i, row_actor_id r == i) (hq_actor_id q)
  && all_of (λ o, row_outcome r == outcome_str o) (hq_outcome q)
  && all_of (λ t, as_i64 t <=? Z.of_N (row_started_at_ms r))%Z (hq_from_ms q)
  && all_of (λ t, Z.of_N (row_started_at_ms r) <=? as_i64 t)%Z (hq_to_ms q).

(** [(started_at_ms, position) < (time, sequence)] *)
Definition row_before (c : HistoryCursor) (r : TraceRow) : bool :=
  (Z.of_N (row_started_at_ms r) <? as_i64 (hc_time c))%Z
  || ((Z.of_N (row_started_at_ms r) =? as_i64 (hc_time c))%Z && (Z.of_N (position r) <? as_i64 (hc_sequence c))%Z).

(** [ORDER BY started_at_ms DESC, position DESC] *)
Definition row_key (r : TraceRow) : N * N := (row_started_at_ms r, position r).
Definition newer_first (x y : TraceRow) : bool := pair_leb (row_key y) (row_key x).

Definition row_record (r : TraceRow) : result TraceRecord :=
  e ← ctx (from_json (row_event r)) "invalid JSON";
  Ok {| sequence := position r; tc_event := e |}.

(** [sqlite::history::select] *)
Definition history_select (db : TraceDb) (project : bytes) (q : HistoryQuery) (watermark : N)
    (after : option HistoryCursor) : result (list TraceRecord) :=
  mapR row_record
    (takeN (hq_limit q + 1)
      (sort_by newer_first
        (List.filter (λ r, row_matches project q watermark r && all_of (λ c, row_before c r) after) (traces db)))).

(** [sqlite::history::query] *)
Definition history_query (db : TraceDb) (project : bytes) (q : HistoryQuery) : result TracePage :=
  page ← history_page_new project q (metadata db project);
  rs ← history_select db project q (hp_watermark page) (hp_after page);
  Ok (history_page_finish page (hq_limit q) rs).

(** [TraceStore::history] *)
Definition store_history (db : TraceDb) (project : bytes) (q : HistoryQuery) : result TracePage :=
  if is_ok (validate_component "project ID" project 64) && is_ok (history_validate q)
  then history_query db project q else Err InvalidTraceQuery.

(** *** Replay *)

Record ReplayQuery := { rq_cursor : option bytes; rq_limit : N }.

Definition replay_validate (q : ReplayQuery) : result unit :=
  ensure ((1 <=? rq_limit q) && (rq_limit q <=? TRACE_CAPACITY)) "invalid replay limit";;
  ensure (all_of (λ c, len c <=? 4096) (rq_cursor q)) "invalid replay cursor".

(** [ReplayPage::new]: where to go on, and whether the client has to start over. *)
Definition replay_page_new (project : bytes) (q : ReplayQuery) (md : Metadata) : result (option N * bool) :=
  c ← transpose (λ v,
        c ← cursor_decode v;
        if (rp_project_id c != project) || (9223372036854775807 <? rp_position c)
           || ((rp_generation c == md_generation md) && (md_head md <? rp_position c))
        then Err InvalidTraceQuery else Ok c) (rq_cursor q);
  let reset := match c with
               | Some c => (rp_generation c != md_generation md) || (rp_position c <? md_pruned md)
               | None => false
               end in
  Ok (if reset then None else rp_position <$> c, reset).

(** [ReplayPage::finish] *)
Definition replay_page_finish (project : bytes) (md : Metadata) (after : option N) (reset : bool) (limit : N)
    (rs : list TraceRecord) : TracePage :=
  let more := bool_decide (is_Some after) && (limit <? len rs) in
  let rs := takeN limit rs in
  let pos := if more then match list.last rs with Some r => sequence r | None => 0 end else md_head md in
  let resumed := resume project (md_generation md) pos in
  {| epoch := md_generation md; cursor := pos; capacity := limit; records := rs;
     next_cursor := if more then Some resumed else None; resume_cursor := resumed;
     Telemetry.reset := reset; snapshot := false |}.

(** [sqlite::replay::select] *)
Definition replay_select (db : TraceDb) (project : bytes) (limit : N) (after : option N) (head : N)
    : result (list TraceRecord) :=
  let rows := List.filter (λ r, (row_project_id r == project)
                && (as_i64 (default 0%N after) <? Z.of_N (position r))%Z && (Z.of_N (position r) <=? as_i64 head)%Z)
                (traces db) in
  let sorted := match after with
                | Some _ => sort_by (λ x y, position x <=? position y) rows
                | None => sort_by newer_first rows
                end in
  mapR row_record (takeN (limit + 1) sorted).

(** [sqlite::replay::query] *)
Definition replay_query (db : TraceDb) (project : bytes) (q : ReplayQuery) : result TracePage :=
  let md := metadata db project in
  '(after, reset) ← replay_page_new project q md;
  rs ← replay_select db project (rq_limit q) after (md_head md);
  Ok (replay_page_finish project md after reset (rq_limit q) rs).

(** [TraceStore::replay] *)
Definition store_replay (db : TraceDb) (project : bytes) (q : ReplayQuery) : result TracePage :=
  if is_ok (validate_component "project ID" project 64) && is_ok (replay_validate q)
  then replay_query db project q else Err InvalidTraceQuery.

End queries.

(** ** Logs *)

Definition level_str (l : LogLevel) : bytes :=
  match l with
  | DebugLevel => b"debug"
  | InfoLevel => b"info"
  | WarnLevel => b"warn"
  | ErrorLevel => b"error"
  end.

Definition level_rank (l : LogLevel) : N :=
  match l with DebugLevel => 0 | InfoLevel => 1 | WarnLevel => 2 | ErrorLevel => 3 end.

(** [LogLevel::and_above] *)
Definition and_above (l : LogLevel) : list bytes :=
  level_str <$> List.filter (λ x, level_rank l <=? level_rank x) [DebugLevel; InfoLevel; WarnLevel; ErrorLevel].

Record LogQuery := {
  lq_actor_name : option bytes;
  lq_actor_id : option bytes;
  lq_request_id : option bytes;
  lq_level : option LogLevel;
  lq_search : option bytes;
  lq_from_ms : option N;
  lq_to_ms : option N;
  lq_limit : option N;
  lq_cursor : option bytes;
}.

Definition MAX_SEARCH_CHARS : N := 256.
Definition MAX_HISTOGRAM_BUCKETS : N := 1000.

(** [text.chars().count()]: the bytes that start a character. *)
Definition chars_count (s : bytes) : N := len (List.filter (λ x, negb (byte_in 128 191 x)) s).

Definition log_limit (q : LogQuery) : N := default TRACE_CAPACITY (lq_limit q).

(** [LogQuery::validate] *)
Definition log_validate (q : LogQuery) : result unit :=
  ensure (all_of (λ t, (1 <=? chars_count t) && (chars_count t <=? MAX_SEARCH_CHARS)) (lq_search q))
    "search must be 1 to 256 characters";;
  history_validate
    {| hq_request_id := lq_request_id q; hq_connection_id := None; hq_actor_name := lq_actor_name q;
       hq_actor_id := lq_actor_id q; hq_outcome := None; hq_from_ms := lq_from_ms q; hq_to_ms := lq_to_ms q;
       hq_limit := log_limit q; hq_cursor := lq_cursor q |}.

Record LogHistogramQuery := {
  gq_actor_name : option bytes;
  gq_actor_id : option bytes;
  gq_request_id : option bytes;
  gq_search : option bytes;
  gq_from_ms : N;
  gq_to_ms : N;
  gq_bucket_ms : N;
}.

(** [div_ceil] *)
Definition buckets_of (q : LogHistogramQuery) : N :=
  (gq_to_ms q - gq_from_ms q + gq_bucket_ms q - 1) / gq_bucket_ms q.

(** [LogHistogramQuery::lines] *)
Definition lines_of (q : LogHistogramQuery) : LogQuery :=
  {| lq_actor_name := gq_actor_name q; lq_actor_id := gq_actor_id q; lq_request_id := gq_request_id q;
     lq_level := None; lq_search := gq_search q; lq_from_ms := Some (gq_from_ms q);
     lq_to_ms := Some (gq_to_ms q - 1); lq_limit := None; lq_cursor := None |}.

Definition histogram_validate (q : LogHistogramQuery) : result unit :=
  ensure (gq_from_ms q <? gq_to_ms q) "fromMs must be before toMs";;
  ensure ((0 <? gq_bucket_ms q) && (buckets_of q <=? MAX_HISTOGRAM_BUCKETS))
    "bucketMs must split the range into 1 to 1000 buckets";;
  log_validate (lines_of q).

Record LevelCounts := { debug_lines : N; info_lines : N; warn_lines : N; error_lines : N }.

Record LogHistogram := { lh_from_ms : N; lh_bucket_ms : N; lh_buckets : list LevelCounts }.

Definition histogram_empty (q : LogHistogramQuery) : LogHistogram :=
  {| lh_from_ms := gq_from_ms q; lh_bucket_ms := gq_bucket_ms q;
     lh_buckets := replicate (N.to_nat (buckets_of q))
                     {| debug_lines := 0; info_lines := 0; warn_lines := 0; error_lines := 0 |} |}.

Definition counts_add (level : bytes) (n : N) (c : LevelCounts) : LevelCounts :=
  {| debug_lines := debug_lines c + (if level == b"debug" then n else 0);
     info_lines := info_lines c + (if level == b"info" then n else 0);
     warn_lines := warn_lines c + (if level == b"warn" then n else 0);
     error_lines := error_lines c + (if level == b"error" then n else 0) |}.

(** [LogHistogram::add]: a bucket beyond the range is ignored. *)
Definition histogram_add (h : LogHistogram) (bucket : N) (level : bytes) (n : N) : LogHistogram :=
  {| lh_from_ms := lh_from_ms h; lh_bucket_ms := lh_bucket_ms h;
     lh_buckets := alter (counts_add level n) (N.to_nat bucket) (lh_buckets h) |}.

(** A row of [actor_logs], and the table with the last position it gave out. *)
Record LogRow := {
  lr_position : N;
  lr_log_id : bytes;
  lr_project_id : bytes;
  lr_actor_name : bytes;
  lr_actor_id : bytes;
  lr_request_id : option bytes;
  lr_timestamp_ms : N;
  lr_log : bytes;
}.

Record LogDb := { log_last_position : N; log_rows : list LogRow }.

Record LogCursor := { lc_timestamp_ms : N; lc_log_id : bytes }.
Record LogPage := { lp_records : list ActorLog; lp_next_cursor : option bytes }.

(** The stored text does not name the project, which is a column. *)
Definition with_project (p : bytes) (l : ActorLog) : ActorLog :=
  {| log_id := log_id l; al_project_id := p; al_actor_name := al_actor_name l; al_actor_id := al_actor_id l;
     al_host_id := al_host_id l; al_request_id := al_request_id l; timestamp_ms := timestamp_ms l;
     al_level := al_level l; al_message := al_message l |}.

(** SQLite's [instr(s, t) > 0] *)
Fixpoint contains (t s : bytes) : bool :=
  starts_with t s || match s with [] => false | _ :: s => contains t s end.

Section logs.
Context `{Json ActorLog, Json LogCursor, Base64}.
Context (json_extract : bytes → string → option bytes) (skipped_log : LogDb → N).

Definition insert_log (db : LogDb) (l : ActorLog) : result LogDb :=
  t ← to_i64 (timestamp_ms l);
  if existsb (λ r, lr_log_id r == log_id l) (log_rows db) then Ok db
  else
    let chosen := log_last_position db + 1 + skipped_log db in
    ensure (chosen <=? 9223372036854775807) "database or disk is full";;
    Ok {| log_last_position := chosen;
          log_rows := log_rows db ++
            [{| lr_position := chosen; lr_log_id := log_id l; lr_project_id := al_project_id l;
                lr_actor_name := al_actor_name l; lr_actor_id := al_actor_id l; lr_request_id := al_request_id l;
                lr_timestamp_ms := t; lr_log := to_json l |}] |}.

(** [sqlite::logs::append] *)
Definition append_logs (retention : nat) (ls : list ActorLog) (db : LogDb) : result LogDb :=
  db ← foldM insert_log db ls;
  let bound := default 0 (lr_position <$> reverse (log_rows db) !! retention) in
  Ok {| log_last_position := log_last_position db;
        log_rows := List.filter (λ r, negb (lr_position r <=? bound)) (log_rows db) |}.

(** [sqlite::logs::filters] *)
Definition log_matches (project : bytes) (q : LogQuery) (r : LogRow) : bool :=
  (lr_project_id r == project)
  && all_of (λ n, lr_actor_name r == n) (lq_actor_name q)
  && all_of (λ i, lr_actor_id r == i) (lq_actor_id q)
  && all_of (λ i, lr_request_id r == Some i) (lq_request_id q)
  && all_of (λ t, match json_extract (lr_log r) "message" with
                  | Some m => contains (to_ascii_lowercase t) (to_ascii_lowercase m)
                  | None => false
                  end) (lq_search q)
  && all_of (λ l, match json_extract (lr_log r) "level" with Some x => existsb (λ y, x == y) (and_above l) | None => false end)
       (lq_level q)
  && all_of (λ t, as_i64 t <=? Z.of_N (lr_timestamp_ms r))%Z (lq_from_ms q)
  && all_of (λ t, Z.of_N (lr_timestamp_ms r) <=? as_i64 t)%Z (lq_to_ms q).

Definition log_cursor_decode (v : bytes) : result LogCursor :=
  c ← cursor_decode v;
  ensure (len (lc_log_id c) <=? 64) InvalidTraceQuery;; Ok c.

(** [(timestamp_ms, log_id) < (?, ?)] *)
Definition log_before (c : LogCursor) (r : LogRow) : bool :=
  (Z.of_N (lr_timestamp_ms r) <? as_i64 (lc_timestamp_ms c))%Z
  || ((Z.of_N (lr_timestamp_ms r) =? as_i64 (lc_timestamp_ms c))%Z && bytes_ltb (lr_log_id r) (lc_log_id c)).

(** [ORDER BY timestamp_ms DESC, log_id DESC] *)
Definition log_newest_first (x y : LogRow) : bool :=
  (lr_timestamp_ms y <? lr_timestamp_ms x)
  || ((lr_timestamp_ms y =? lr_timestamp_ms x) && negb (bytes_ltb (lr_log_id x) (lr_log_id y))).

(** [LogPage::new] *)
Definition log_page_new (ls : list ActorLog) (limit : N) : LogPage :=
  let more := limit <? len ls in
  let ls := takeN limit ls in
  {| lp_records := ls;
     lp_next_cursor :=
       if more then l ← list.last ls; Some (cursor_encode {| lc_timestamp_ms := timestamp_ms l; lc_log_id := log_id l |})
       else None |}.

Definition row_log (r : LogRow) : result ActorLog :=
  l ← ctx (from_json (lr_log r)) "invalid JSON";
  Ok (with_project (lr_project_id r) l).

(** [sqlite::logs::query] *)
Definition log_query (db : LogDb) (project : bytes) (q : LogQuery) : result LogPage :=
  after ← transpose log_cursor_decode (lq_cursor q);
  ls ← mapR row_log
         (takeN (log_limit q + 1)
           (sort_by log_newest_first
             (List.filter (λ r, log_matches project q r && all_of (λ c, log_before c r) after) (log_rows db))));
  Ok (log_page_new ls (log_limit q)).

(** [TraceStore::logs] *)
Definition store_logs (db : LogDb) (project : bytes) (q : LogQuery) : result LogPage :=
  if is_ok (validate_component "project ID" project 64) && is_ok (log_validate q)
  then log_query db project q else Err InvalidTraceQuery.

(** The columns of [GROUP BY 1, 2]; a row without level is refused when it is read. *)
Definition line_group (q : LogHistogramQuery) (r : LogRow) : result (Z * bytes) :=
  level ← ctx (json_extract (lr_log r) "level") "invalid column type";
  Ok ((Z.of_N (lr_timestamp_ms r) - as_i64 (gq_from_ms q)) ÷ as_i64 (gq_bucket_ms q), level)%Z.

(** [sqlite::logs::histogram] *)
Definition log_histogram (db : LogDb) (project : bytes) (q : LogHistogramQuery) : result LogHistogram :=
  groups ← mapR (line_group q) (List.filter (log_matches project (lines_of q)) (log_rows db));
  foldM (λ h g, ensure (0 <=? g.1)%Z "out of range integral type conversion attempted";;
                Ok (histogram_add h (Z.to_N g.1) g.2 (len (List.filter (λ g', g' == g) groups))))
    (histogram_empty q) (remove_dups groups).

(** [TraceStore::log_histogram] *)
Definition store_histogram (db : LogDb) (project : bytes) (q : LogHistogramQuery) : result LogHistogram :=
  if is_ok (validate_component "project ID" project 64) && is_ok (histogram_validate q)
  then log_histogram db project q else Err InvalidTraceQuery.

End logs.

(** ** The telemetry sink of the development server ([src/src/control_plane/local_telemetry.rs]) *)

Definition sink_identity (p : ActorPrincipal) : Identity :=
  {| id_organization_id := pr_organization_id p; id_project_id := project_id (pr_actor p);
     id_actor_name := actor_name (pr_actor p); id_actor_id := actor_id (pr_actor p);
     id_host_id := pr_host_id p; id_session_id := pr_session_id p |}.

Definition stamp_spans (i : Identity) (rs : ResourceSpans) : ResourceSpans :=
  {| rs_resource := Some (stamp i (rs_resource rs)); scope_spans := scope_spans rs |}.
Definition stamp_logs (i : Identity) (rl : ResourceLogs) : ResourceLogs :=
  {| rl_resource := Some (stamp i (rl_resource rl)); scope_logs := scope_logs rl |}.

(** [TraceService::export] and [LogsService::export], from the sender's verified
    principal; the live feed gets the same stamped message. *)
Definition export_spans `{JsonValue, Json Value, Json TraceEvent} (skipped : TraceDb → N) (retention : nat)
    (sender : ActorPrincipal) (request : list ResourceSpans) (db : TraceDb) : result TraceDb :=
  append skipped retention (trace_events (stamp_spans (sink_identity sender) <$> request)) db.

Definition export_logs `{Json ActorLog} (skipped : LogDb → N) (retention : nat)
    (sender : ActorPrincipal) (request : list ResourceLogs) (db : LogDb) : result LogDb :=
  append_logs skipped retention (actor_logs (stamp_logs (sink_identity sender) <$> request)) db.
