(* ===== verification/TelemetrySafety.v ===== *)
(** * What request telemetry promises

    A request is reported as complete once. A client that follows the cursors of
    the request history sees every matching trace once, however many are stored
    meanwhile, or is told to start over; what it sees was exported by hosts of its
    project under their verified identity. *)

From Stdlib Require Import ZArith Floats.SpecFloat.
From stdpp Require Import sorting.
From S2P Require Import Prelude Text Demo Names StateLog Effects Btree Admission Routing Tokens Protocol Executor Assignment Telemetry.
Local Open Scope N_scope.

(** ** Lists *)

Lemma filter_all {A} (f : A → bool) l : Forall (λ x, f x = true) l → List.filter f l = l.
Proof. induction 1 as [|x l Hx _ IH]; simpl; [done|]. by rewrite Hx, IH. Qed.

Lemma filter_none {A} (f : A → bool) l : Forall (λ x, f x = false) l → List.filter f l = [].
Proof. induction 1 as [|x l Hx _ IH]; simpl; [done|]. by rewrite Hx, IH. Qed.

Lemma filter_narrow {A} (f g : A → bool) l :
  Forall (λ x, f x = true → g x = true) l → List.filter f (List.filter g l) = List.filter f l.
Proof.
  induction 1 as [|x l Hx _ IH]; simpl; [done|]. destruct (g x) eqn:Eg; simpl; rewrite IH; [done|].
  destruct (f x) eqn:Ef; [|done]. by specialize (Hx eq_refl).
Qed.

Lemma filter_andb {A} (f g : A → bool) l :
  List.filter (λ x, f x && g x) l = List.filter g (List.filter f l).
Proof.
  induction l as [|x l IH]; simpl; [done|]. destruct (f x); simpl; [|done]. by rewrite IH.
Qed.

Lemma Forall_list_filter {A} (P : A → Prop) f l : Forall P l → Forall P (List.filter f l).
Proof. induction 1 as [|x l Hx _ IH]; simpl; [done|]. case_match; [by constructor|done]. Qed.

Lemma filter_sorted {A} (R : A → A → Prop) f l : StronglySorted R l → StronglySorted R (List.filter f l).
Proof.
  induction 1 as [|x l _ IH Hx]; simpl; [constructor|]. case_match; [|done].
  constructor; [done|]. by apply Forall_list_filter.
Qed.

Section sorted_filter.
Context {A : Type} (le : A → A → bool).
Context (le_total : ∀ x y, le x y = true ∨ le y x = true).
Context (le_trans : ∀ x y z, le x y = true → le y z = true → le x z = true).

Lemma insert_by_least x l : Forall (λ y, le x y = true) l → insert_by le x l = x :: l.
Proof. destruct 1 as [|y l Hy _]; simpl; [done|]. by rewrite Hy. Qed.

Lemma filter_insert_by f x l :
  StronglySorted (leP le) l →
  List.filter f (insert_by le x l) = if f x then insert_by le x (List.filter f l) else List.filter f l.
Proof.
  induction 1 as [|y l Hl IH Hy]; simpl; [by destruct (f x)|]. destruct (le x y) eqn:E; simpl.
  - destruct (f x); [|done]. symmetry. change (if f y then y :: List.filter f l else List.filter f l)
      with (List.filter f (y :: l)). apply insert_by_least, Forall_forall. intros z Hz%list_elem_of_In.
    apply filter_In in Hz as [Hz%list_elem_of_In _]. apply elem_of_cons in Hz as [->|Hz]; [done|].
    rewrite Forall_forall in Hy. eapply le_trans; [exact E|]. by apply Hy.
  - rewrite IH. destruct (f y); [|done]. destruct (f x); simpl; [|done]. by rewrite E.
Qed.

(** Sorting and selecting commute. *)
Lemma sort_by_filter f l : sort_by le (List.filter f l) = List.filter f (sort_by le l).
Proof.
  unfold sort_by. induction l as [|x l IH]; simpl; [done|].
  rewrite filter_insert_by by apply (sort_by_sorted le le_total le_trans). rewrite <- IH. by destruct (f x).
Qed.
End sorted_filter.

Lemma mapR_Ok {A B} (f : A → result B) l rs : mapR f l = Ok rs ↔ Forall2 (λ x y, f x = Ok y) l rs.
Proof.
  revert rs. induction l as [|x l IH]; intros rs; simpl.
  - split; [intros [= <-]; constructor|by inversion 1].
  - split.
    + intros H. inv_ok. subst. constructor; [done|]. by apply IH.
    + inversion 1 as [|? y ? ys Hy Hys]; subst. rewrite Hy. simpl. apply IH in Hys. by rewrite Hys.
Qed.

Lemma mapR_total {A B} (f : A → result B) l : Forall (λ x, ∃ y, f x = Ok y) l → ∃ rs, mapR f l = Ok rs.
Proof.
  induction 1 as [|x l [y Hy] _ [ys Hys]]; simpl; [by exists []|]. rewrite Hy. simpl. rewrite Hys. by eexists.
Qed.

Lemma mapR_app {A B} (f : A → result B) l k rs :
  mapR f (l ++ k) = Ok rs ↔ ∃ r1 r2, rs = r1 ++ r2 ∧ mapR f l = Ok r1 ∧ mapR f k = Ok r2.
Proof.
  rewrite mapR_Ok. setoid_rewrite mapR_Ok. split.
  - intros H. apply Forall2_app_inv_l in H as (r1 & r2 & ? & ? & ->). eauto.
  - intros (r1 & r2 & -> & ? & ?). by apply Forall2_app.
Qed.

Lemma mapR_takeN {A B} (f : A → result B) n l rs : mapR f l = Ok rs → mapR f (takeN n l) = Ok (takeN n rs).
Proof. rewrite !mapR_Ok. apply Forall2_take. Qed.

Lemma mapR_drop {A B} (f : A → result B) n l rs : mapR f l = Ok rs → mapR f (dropN n l) = Ok (dropN n rs).
Proof. rewrite !mapR_Ok. apply Forall2_drop. Qed.

Lemma mapR_len {A B} (f : A → result B) l rs : mapR f l = Ok rs → len rs = len l.
Proof. rewrite mapR_Ok. intros Hl%Forall2_length. unfold len. by rewrite Hl. Qed.

Lemma mapR_last {A B} (f : A → result B) l rs x :
  mapR f l = Ok rs → list.last l = Some x → ∃ y, list.last rs = Some y ∧ f x = Ok y.
Proof.
  intros Hm (l' & ->)%last_Some. apply mapR_app in Hm as (r1 & r2 & -> & _ & Hx). simpl in Hx. inv_ok. subst.
  eexists. by rewrite last_snoc.
Qed.

Lemma takeN_takeN {A} n m (l : list A) : n ≤ m → takeN n (takeN m l) = takeN n l.
Proof. intros Hn. unfold takeN. rewrite take_take. f_equal. lia. Qed.

(** ** One completion per request *)

Import Tracker.

Lemma tracker_done cs dropped t : completion t ≠ None → tracker_run cs dropped t = [].
Proof.
  revert t. induction cs as [|c cs IH]; intros t Ht; simpl.
  - unfold finish. by destruct (completion t).
  - assert ((tracker_call c t).1 = [] ∧ completion (tracker_call c t).2 ≠ None) as [H1 H2].
    { destruct c; cbn; unfold admitted, mark_at, complete, finish;
        destruct (completion t) eqn:E; try done; try destruct (tk_queue_wait_ms t); simpl; by rewrite ?E. }
    destruct (tracker_call c t). simpl in *. subst. by apply IH.
Qed.

Lemma finish_open now o t :
  completion t = None → observer t = true → response t = true →
  ∃ c, (finish now o t).1 = [Recorded c; Responded (rc_timings c)] ∧ rc_outcome c = o ∧
    rc_started_at_ms c = started_at_ms t ∧ completion (finish now o t).2 ≠ None.
Proof. intros Hc Ho Hr. unfold finish. rewrite Hc, Ho, Hr. match goal with |- context [completion (_, {| completion := Some ?c |}).2] => exists c end. by split_and!. Qed.

(** Whatever is called on a tracker, dropping it included, the observer is told
    once and the waiting response once, with the outcome of the first call that
    completes the request. *)
Lemma completed_once cs dropped t :
  completion t = None → observer t = true → response t = true →
  ∃ c, tracker_run cs dropped t = [Recorded c; Responded (rc_timings c)] ∧
    rc_outcome c = default Interrupted (head (omap completing cs)) ∧ rc_started_at_ms c = started_at_ms t.
Proof.
  revert t. induction cs as [|c cs IH]; intros t Hc Ho Hr; simpl.
  { destruct (finish_open dropped Interrupted t Hc Ho Hr) as (c & -> & ? & ? & _). eauto. }
  destruct (completing c) as [o|] eqn:Eo.
  - assert (∃ now, tracker_call c t = finish now o t) as [now ->].
    { destruct c as [now|stage at_ns|v|now [| |]|now o']; try discriminate Eo; injection Eo as <-; by exists now. }
    destruct (finish_open now o t Hc Ho Hr) as (d & Hd & ? & ? & ?). destruct (finish now o t) as [out t'].
    simpl in *. rewrite tracker_done, app_nil_r by done. eauto.
  - assert (∃ t', tracker_call c t = ([], t') ∧ completion t' = None ∧ observer t' = true ∧ response t' = true ∧
              started_at_ms t' = started_at_ms t) as (t' & -> & ? & ? & ? & <-).
    { destruct c as [now|stage at_ns|v|now [| |]|now o']; try discriminate Eo; simpl;
        unfold admitted, mark_at; rewrite ?Hc; [destruct (tk_queue_wait_ms t)|..]; by eexists. }
    apply IH; done.
Qed.

(** ** Verified identities *)

Lemma find_app_r {A} (f : A → bool) l k :
  Forall (λ x, f x = false) l → List.find f (l ++ k) = List.find f k.
Proof. induction 1 as [|x l Hx _ IH]; simpl; [done|]. by rewrite Hx. Qed.

Lemma stamp_reads i r key :
  starts_with TENANT_PREFIX key = true →
  string_of (stamp i r) key = string_of
   ([string_attribute PROJECT_ID (id_project_id i); string_attribute ACTOR_NAME (id_actor_name i);
     string_attribute ACTOR_ID (id_actor_id i); string_attribute HOST_ID (id_host_id i);
     string_attribute SESSION_ID (id_session_id i)] ++
    match id_organization_id i with Some o => [string_attribute ORGANIZATION_ID o] | None => [] end) key.
Proof.
  intros Hk. unfold string_of, attribute, stamp. rewrite find_app_r; [done|].
  apply Forall_forall. intros a Ha%list_elem_of_In. apply filter_In in Ha as [_ Ha].
  apply bool_decide_eq_false. intros E. by rewrite E, Hk in Ha.
Qed.

Definition sender_of `{JsonValue} (p : ActorPrincipal) (e : TraceEvent) : Prop :=
  te_host_id e = pr_host_id p ∧ te_session_id e = pr_session_id p ∧
  tr_project_id (te_trace e) = project_id (pr_actor p) ∧
  tr_actor_name (te_trace e) = actor_name (pr_actor p) ∧ tr_actor_id (te_trace e) = actor_id (pr_actor p).

Lemma trace_event_stamped `{JsonValue, Json Value} p r span e :
  trace_event (stamp (sink_identity p) r) span = Some e →
  sender_of p e ∧ tr_started_at_ms (te_trace e) = start_time_unix_nano span / 1000000.
Proof.
  unfold trace_event. rewrite !stamp_reads by reflexivity. cbn [app string_of].
  intros He. do 8 (let Hx := fresh in apply bind_Some in He as (? & Hx & He); simpl in Hx; try injection Hx as <-).
  injection He as <-. by split_and!.
Qed.

(** ** The stored traces *)

Section history.
Context `{JsonValue, Json Value, Json TraceEvent}.
Context (skipped : TraceDb → N) (retention : nat).

(** An event without its measured times and metadata, which JSON may round. *)
Definition plain (e : TraceEvent) :=
  let t := te_trace e in
  (event_id e, te_host_id e, te_session_id e,
   (tr_state_version t, tr_project_id t, tr_request_id t, tr_actor_name t, tr_actor_id t),
   (tr_kind t, tr_operation t, tr_connection_id t, tr_started_at_ms t, tr_host_state t, tr_outcome t)).

(** The stored text of an event can be read back, up to that rounding. *)
Definition readable (e : TraceEvent) : Prop := ∃ e', from_json (to_json e) = Some e' ∧ plain e' = plain e.

(** What a host exported: the times are 64-bit numbers. *)
Definition export : Type := ActorPrincipal * list ResourceSpans.
Definition exported (x : export) : list TraceEvent := trace_events (stamp_spans (sink_identity x.1) <$> x.2).
Definition export_ok (x : export) : Prop :=
  Forall readable (exported x) ∧
  Forall (λ rs, Forall (λ s, start_time_unix_nano s ≤ u64_max) (concat (scope_spans rs))) x.2.

(** Databases after a sequence of exports; a failed one changes nothing. *)
Inductive stored : list export → TraceDb → Prop :=
| stored_new uuid : 0 < len uuid → len uuid ≤ 64 → stored [] (trace_db_new uuid)
| stored_export xs db x db' :
    stored xs db → export_ok x → export_spans skipped retention x.1 x.2 db = Ok db' → stored (xs ++ [x]) db'.

(** A trace in the table is one that some host exported as its own. *)
Definition traced (xs : list export) (e : TraceEvent) : Prop :=
  ∃ x e0, x ∈ xs ∧ e0 ∈ exported x ∧ plain e = plain e0 ∧ sender_of x.1 e0 ∧
    tr_started_at_ms (te_trace e0) ≤ MAX_TIMESTAMP_MS.

Definition row_traced (xs : list export) (r : TraceRow) : Prop :=
  ∃ e, from_json (row_event r) = Some e ∧ traced xs e ∧
    row_started_at_ms r = tr_started_at_ms (te_trace e) ∧ row_project_id r = tr_project_id (te_trace e).

Record db_ok (xs : list export) (db : TraceDb) : Prop := {
  ok_generation : 0 < len (generation db) ∧ len (generation db) ≤ 64;
  ok_last : last_position db ≤ 9223372036854775807;
  ok_sorted : StronglySorted (λ x y, position x < position y) (traces db);
  ok_rows : Forall (λ r, 0 < position r ≤ last_position db ∧ row_traced xs r) (traces db);
  ok_projects p tp : trace_projects db !! p = Some tp → p ≠ [] ∧ tp_pruned tp ≤ tp_head tp ≤ last_position db;
  ok_heads : Forall (λ r, row_project_id r ≠ [] → ∃ tp, trace_projects db !! row_project_id r = Some tp ∧
               tp_pruned tp < position r ≤ tp_head tp) (traces db);
}.

Lemma traced_app xs ys e : traced xs e → traced (xs ++ ys) e.
Proof. intros (x & e0 & Hx & ?). exists x, e0. split; [|done]. by apply elem_of_app; left. Qed.

Lemma row_traced_app xs ys r : row_traced xs r → row_traced (xs ++ ys) r.
Proof. intros (e & ? & ? & ? & ?). exists e. split_and!; try done. by apply traced_app. Qed.

Lemma exported_traced x e : export_ok x → e ∈ exported x → ∃ e', from_json (to_json e) = Some e' ∧
  traced [x] e' ∧ plain e' = plain e.
Proof.
  intros [Hr Ht] He. pose proof (proj1 (Forall_forall _ _) Hr e He) as (e' & Hj & Hp).
  exists e'. split_and!; [done| |done]. exists x, e. split_and!; [by apply list_elem_of_singleton|done|done| |];
    unfold exported, trace_events in He; apply list_elem_of_bind in He as (rs' & He & Hrs);
    apply list_elem_of_omap in He as (span & Hs & Hspan);
    apply list_elem_of_fmap in Hrs as (rs & -> & Hrs); simpl in Hs, Hspan;
    apply trace_event_stamped in Hspan as [Hsender Hstart]; [done|].
  rewrite Hstart. pose proof (proj1 (Forall_forall _ _) Ht rs Hrs) as Hb.
  pose proof (proj1 (Forall_forall _ _) Hb span Hs) as Hb'. unfold MAX_TIMESTAMP_MS, u64_max in *.
  apply N.le_trans with (18446744073709551615 / 1000000); [by apply N.Div0.div_le_mono|by vm_compute].
Qed.

(** ** Inserting *)

(** What an insertion leaves as it was. *)
Definition grown (db db' : TraceDb) : Prop :=
  generation db' = generation db ∧ last_position db ≤ last_position db' ∧
  (∃ new, traces db' = traces db ++ new ∧ Forall (λ r, last_position db < position r) new) ∧
  ∀ p, md_head (metadata db p) ≤ md_head (metadata db' p) ∧ md_pruned (metadata db' p) = md_pruned (metadata db p).

Lemma grown_refl db : grown db db.
Proof. split_and!; [done|done|exists []; by rewrite app_nil_r|done]. Qed.

Lemma grown_trans db1 db2 db3 : grown db1 db2 → grown db2 db3 → grown db1 db3.
Proof.
  intros (Hg & Hl & (new & Ht & Hn) & Hm) (Hg' & Hl' & (new' & Ht' & Hn') & Hm').
  split_and!; [congruence|lia| |].
  - exists (new ++ new'). split; [by rewrite Ht', Ht, app_assoc|]. apply Forall_app. split; [done|].
    eapply Forall_impl; [exact Hn'|]. simpl. intros. lia.
  - intros p. destruct (Hm p), (Hm' p). split; [lia|congruence].
Qed.

Lemma insert_event_cases db n e db' n' :
  insert_event skipped (db, n) e = Ok (db', n') →
  db' = db ∨ ∃ row, last_position db < position row ≤ 9223372036854775807 ∧
    row_event row = to_json e ∧ row_started_at_ms row = tr_started_at_ms (te_trace e) ∧
    row_project_id row = tr_project_id (te_trace e) ∧
    db' = {| generation := generation db; meta_pruned := meta_pruned db; meta_total := meta_total db;
             last_position := position row; traces := traces db ++ [row];
             trace_projects := project_inserted row (trace_projects db) |}.
Proof.
  unfold insert_event. intros (t & Ht & Hi)%bind_Ok. destruct (existsb _ _); [injection Hi as <- _; by left|].
  unfold to_i64 in Ht. inv_ok. subst. right.
  match goal with |- context [traces db ++ [?row]] => exists row end. split; [simpl; lia|by split_and!].
Qed.

Lemma project_inserted_lookup row ps p :
  project_inserted row ps !! p =
  if (p == row_project_id row) && (p != []) then
    Some {| tp_total := match ps !! p with Some t => tp_total t + 1 | None => 1 end; tp_head := position row;
            tp_pruned := default 0 (tp_pruned <$> ps !! p) |}
  else ps !! p.
Proof.
  unfold project_inserted. destruct (decide (p = row_project_id row)) as [->|Hp].
  - rewrite (bool_decide_true (row_project_id row = row_project_id row)) by done. simpl.
    destruct (decide (row_project_id row = [])) as [E|E].
    + by rewrite !bool_decide_true.
    + rewrite !bool_decide_false by done. simpl. rewrite lookup_insert_eq. by destruct (ps !! row_project_id row).
  - rewrite (bool_decide_false (p = row_project_id row)) by done. simpl. case_match; [done|].
    by rewrite lookup_insert_ne by done.
Qed.

Lemma insert_grows xs db n e db' n' :
  db_ok xs db → (∃ e', from_json (to_json e) = Some e' ∧ traced xs e' ∧ plain e' = plain e) →
  insert_event skipped (db, n) e = Ok (db', n') → db_ok xs db' ∧ grown db db'.
Proof.
  intros Hok (e' & Hj & Htr & Hpl) [->|(row & Hpos & Hev & Hst & Hpr & ->)]%insert_event_cases;
    [split; [done|apply grown_refl]|].
  destruct Hok as [Hg Hl Hs Hr Hp Hh].
  assert (row_traced xs row) as Hrow.
  { exists e'. unfold plain in Hpl. injection Hpl as ? ? ? ? ? ? ? ? ? ? ? ? ? ?. rewrite Hev. split_and!; congruence. }
  split; [split; simpl; [done|lia| | | |]|split_and!; simpl; [done|lia| |]].
  - apply StronglySorted_app_2; [|done|repeat constructor]. intros x y Hx ->%list_elem_of_singleton.
    pose proof (proj1 (Forall_forall _ _) Hr x Hx) as [? _]. lia.
  - apply Forall_app. split; [|repeat constructor; [lia..|done]].
    eapply Forall_impl; [exact Hr|]. intros r [? ?]. split; [lia|done].
  - intros p tp. rewrite project_inserted_lookup. destruct (_ && _) eqn:Ep; [|intros [? ?]%Hp; split; [done|lia]].
    inv_ok. intros [= <-]. split; [done|]. simpl. destruct (trace_projects db !! p) as [t|] eqn:E; simpl; [apply Hp in E|]; lia.
  - apply Forall_app. split.
    + apply Forall_forall. intros r Hin Hne. destruct (proj1 (Forall_forall _ _) Hh r Hin Hne) as (tp & Htp & ?).
      rewrite project_inserted_lookup. destruct (_ && _); [|by exists tp].
      eexists. split; [done|]. rewrite Htp. simpl. apply Hp in Htp. lia.
    + repeat constructor. intros Hne. rewrite project_inserted_lookup.
      rewrite bool_decide_true, bool_decide_false by done. simpl. eexists. split; [done|]. simpl.
      destruct (trace_projects db !! row_project_id row) as [t|] eqn:E; simpl; [apply Hp in E|]; lia.
  - exists [row]. split; [done|]. repeat constructor. lia.
  - intros p. unfold metadata. simpl. rewrite project_inserted_lookup. destruct (_ && _); [|done]. simpl.
    split; [|done]. destruct (trace_projects db !! p) as [t|] eqn:E; simpl; [apply Hp in E|]; lia.
Qed.

Lemma inserts_grow xs es db n db' n' :
  db_ok xs db → Forall (λ e, ∃ e', from_json (to_json e) = Some e' ∧ traced xs e' ∧ plain e' = plain e) es →
  foldM (insert_event skipped) (db, n) es = Ok (db', n') → db_ok xs db' ∧ grown db db'.
Proof.
  revert db n. induction es as [|e es IH]; intros db n Hok Hes; simpl.
  - intros [= <- _]. split; [done|apply grown_refl].
  - apply Forall_cons in Hes as [He Hes]. intros ([db1 n1] & Hi & Hf)%bind_Ok.
    destruct (insert_grows xs db n e db1 n1 Hok He Hi) as [Hok1 Hg1].
    destruct (IH db1 n1 Hok1 Hes Hf) as [? Hg2]. split; [done|]. by eapply grown_trans.
Qed.

(** ** Pruning *)

Definition deleted_to (p : bytes) (m : N) (gone : list TraceRow) : N :=
  foldl (λ m r, if row_project_id r == p then N.max m (position r) else m) m gone.

Lemma deleted_lookup ps gone p :
  foldl project_deleted ps gone !! p =
  (λ t, {| tp_total := tp_total t; tp_head := tp_head t; tp_pruned := deleted_to p (tp_pruned t) gone |}) <$> ps !! p.
Proof.
  revert ps. induction gone as [|r gone IH]; intros ps; simpl; [by destruct (ps !! p) as [[]|]|].
  rewrite IH. unfold project_deleted. destruct (decide (row_project_id r = p)) as [->|Hne].
  - rewrite lookup_alter_eq. rewrite <- option_fmap_compose. destruct (ps !! p) as [t|]; [|done]. simpl.
    by rewrite bool_decide_true.
  - rewrite lookup_alter_ne by done. destruct (ps !! p) as [t|]; [|done]. simpl. by rewrite bool_decide_false.
Qed.

Lemma deleted_to_ge p m gone : m ≤ deleted_to p m gone.
Proof.
  revert m. induction gone as [|r gone IH]; intros m; simpl; [done|]. etransitivity; [|apply IH]. case_match; lia.
Qed.

Lemma deleted_to_elem p m gone r : r ∈ gone → row_project_id r = p → position r ≤ deleted_to p m gone.
Proof.
  revert m. induction gone as [|x gone IH]; intros m; simpl; [by intros ?%elem_of_nil|].
  intros [->|Hr]%elem_of_cons Hp; [|by apply IH]. rewrite bool_decide_true by done.
  etransitivity; [|apply deleted_to_ge]. lia.
Qed.

Lemma deleted_to_le p m gone bound :
  m ≤ bound → Forall (λ r, row_project_id r = p → position r ≤ bound) gone → deleted_to p m gone ≤ bound.
Proof.
  intros Hm Hf. revert m Hm. induction Hf as [|r gone Hr _ IH]; intros m Hm; simpl; [done|].
  apply IH. case_bool_decide; [specialize (Hr ltac:(done))|]; lia.
Qed.

(** What an append leaves as it was, for the traces of one project. *)
Definition later (p : bytes) (db db' : TraceDb) : Prop :=
  generation db' = generation db ∧ last_position db ≤ last_position db' ∧
  md_head (metadata db p) ≤ md_head (metadata db' p) ∧ md_pruned (metadata db p) ≤ md_pruned (metadata db' p) ∧
  (md_pruned (metadata db' p) = md_pruned (metadata db p) → ∀ w, w ≤ last_position db →
   List.filter (λ r, (row_project_id r == p) && (position r <=? w)) (traces db') =
   List.filter (λ r, (row_project_id r == p) && (position r <=? w)) (traces db)).

Lemma later_refl p db : later p db db.
Proof. by split_and!. Qed.

Lemma later_trans p db1 db2 db3 : later p db1 db2 → later p db2 db3 → later p db1 db3.
Proof.
  intros (? & ? & ? & ? & Hf) (? & ? & ? & ? & Hf'). split_and!; [congruence|lia..|].
  intros E w Hw. rewrite Hf', Hf by lia. done.
Qed.

Lemma grown_later p db db' : grown db db' → later p db db'.
Proof.
  intros (? & ? & (new & Ht & Hn) & Hm). destruct (Hm p) as [? E]. split_and!; [done|lia|done|lia|].
  intros _ w Hw. rewrite Ht, List.filter_app, (filter_none _ new), app_nil_r; [done|].
  eapply Forall_impl; [exact Hn|]. intros r Hr. apply andb_false_iff. right. apply N.leb_gt. simpl in Hr. lia.
Qed.

(** The end of [append]: rows up to [bound] go. *)
Definition prune_rows (bound total : N) (db : TraceDb) : TraceDb :=
  {| generation := generation db; meta_pruned := bound; meta_total := total; last_position := last_position db;
     traces := List.filter (λ r, negb (position r <=? bound)) (traces db);
     trace_projects := foldl project_deleted (trace_projects db)
                         (List.filter (λ r, position r <=? bound) (traces db)) |}.

Lemma gone_below xs db p tp bound :
  db_ok xs db → trace_projects db !! p = Some tp →
  Forall (λ r, row_project_id r = p → tp_pruned tp < position r ≤ tp_head tp)
    (List.filter (λ r, position r <=? bound) (traces db)).
Proof.
  intros Hok Htp. apply Forall_forall. intros r Hr%list_elem_of_In Hrp. apply filter_In in Hr as [Hin%list_elem_of_In _].
  destruct (ok_projects _ _ Hok p tp Htp) as [Hne _].
  destruct (proj1 (Forall_forall _ _) (ok_heads _ _ Hok) r Hin ltac:(by rewrite Hrp)) as (tp' & Htp' & ?).
  rewrite Hrp in Htp'. by simplify_eq.
Qed.

Lemma prune_ok xs db bound total : db_ok xs db → db_ok xs (prune_rows bound total db).
Proof.
  intros Hok. pose proof (gone_below xs db) as Hgone. destruct Hok as [Hg Hl Hs Hr Hp Hh] eqn:Eok.
  split; simpl; [done|done| | | |].
  - by apply filter_sorted.
  - by apply Forall_list_filter.
  - intros p tp. rewrite deleted_lookup, fmap_Some. intros (t & Ht & ->). destruct (Hp p t Ht) as [? ?]. simpl.
    split; [done|]. split; [|lia]. apply deleted_to_le; [lia|].
    eapply Forall_impl; [by eapply Hgone|]. simpl. intros r Hb Hrp. specialize (Hb Hrp). lia.
  - apply Forall_forall. intros r Hin%list_elem_of_In Hne. apply filter_In in Hin as [Hin%list_elem_of_In Hb%negb_true_iff%N.leb_gt].
    destruct (proj1 (Forall_forall _ _) Hh r Hin Hne) as (t & Ht & ?). eexists. rewrite deleted_lookup, Ht. split; [done|].
    simpl. split; [|lia]. assert (deleted_to (row_project_id r) (tp_pruned t) (List.filter (λ r, position r <=? bound) (traces db)) ≤ position r - 1); [|lia].
    apply deleted_to_le; [lia|]. apply Forall_forall. intros x Hx%list_elem_of_In _.
    apply filter_In in Hx as [_ Hx%N.leb_le]. lia.
Qed.

Lemma prune_later xs db bound total p : p ≠ [] → db_ok xs db → later p db (prune_rows bound total db).
Proof.
  intros Hne Hok. unfold later, metadata. simpl. rewrite deleted_lookup.
  destruct (trace_projects db !! p) as [tp|] eqn:Etp; simpl.
  - split_and!; [done|lia|lia|apply deleted_to_ge|]. intros E w _. apply filter_narrow, Forall_forall.
    intros r Hin Hr. apply andb_true_iff in Hr as [Hrp%bool_decide_eq_true _]. apply negb_true_iff, N.leb_gt.
    destruct (N.lt_ge_cases bound (position r)) as [|Hle]; [done|].
    assert (r ∈ List.filter (λ r, position r <=? bound) (traces db)) as Hgone.
    { apply list_elem_of_In, filter_In. split; [by apply list_elem_of_In|by apply N.leb_le]. }
    pose proof (deleted_to_elem p (tp_pruned tp) _ r Hgone Hrp) as Hd.
    pose proof (proj1 (Forall_forall _ _) (gone_below xs db p tp bound Hok Etp) r Hgone Hrp). lia.
  - split_and!; [done|lia..|]. intros _ w _. apply filter_narrow, Forall_forall.
    intros r Hin Hr. apply andb_true_iff in Hr as [Hrp%bool_decide_eq_true _].
    destruct (proj1 (Forall_forall _ _) (ok_heads _ _ Hok) r Hin ltac:(by rewrite Hrp)) as (t & Ht & _). congruence.
Qed.

Lemma db_ok_app xs ys db : db_ok xs db → db_ok (xs ++ ys) db.
Proof.
  intros [? ? ? Hr ? ?]. split; try done. eapply Forall_impl; [exact Hr|]. intros r [? ?].
  split; [done|]. by apply row_traced_app.
Qed.

Lemma traced_r xs ys e : traced ys e → traced (xs ++ ys) e.
Proof. intros (x & e0 & Hx & ?). exists x, e0. split; [|done]. by apply elem_of_app; right. Qed.

Lemma export_grows xs db x db' :
  db_ok xs db → export_ok x → export_spans skipped retention x.1 x.2 db = Ok db' →
  db_ok (xs ++ [x]) db' ∧ ∀ p, p ≠ [] → later p db db'.
Proof.
  intros Hok Hx. unfold export_spans, append. intros ([db1 n1] & Hi & [= <-])%bind_Ok.
  destruct (inserts_grow (xs ++ [x]) (exported x) db 0 db1 n1) as [Hok1 Hg]; [by apply db_ok_app| |done|].
  { apply Forall_forall. intros e He. destruct (exported_traced x e Hx He) as (e' & ? & ? & ?).
    exists e'. split_and!; try done. by apply traced_r. }
  split; [by apply (prune_ok (xs ++ [x]) db1)|]. intros p Hp.
  eapply later_trans; [by apply grown_later|]. by eapply (prune_later _ db1).
Qed.

Lemma stored_ok xs db : stored xs db → db_ok xs db.
Proof.
  induction 1 as [uuid ? ?|xs db x db' _ IH Hx Hexp].
  - by split; simpl; try done; try constructor.
  - by eapply export_grows.
Qed.

(** ** One page of the history *)

Section pages.
Context `{Json HistoryCursor, Json ReplayCursor, Json filter_tuple, Base64}.
Context `{!JsonLaws HistoryCursor, !Base64Laws}.
Context (json_extract : bytes → string → option bytes).
Context (project : bytes) (q : HistoryQuery).

Definition with_cursor (c : option bytes) : HistoryQuery :=
  {| hq_request_id := hq_request_id q; hq_connection_id := hq_connection_id q; hq_actor_name := hq_actor_name q;
     hq_actor_id := hq_actor_id q; hq_outcome := hq_outcome q; hq_from_ms := hq_from_ms q; hq_to_ms := hq_to_ms q;
     hq_limit := hq_limit q; hq_cursor := c |}.

(** The matching rows up to a position, newest first. *)
Definition matching (w : N) (db : TraceDb) : list TraceRow :=
  sort_by newer_first (List.filter (row_matches json_extract project q w) (traces db)).

Lemma newest_first_total x y : newer_first x y = true ∨ newer_first y x = true.
Proof. apply pair_leb_total. Qed.

Lemma newest_first_trans x y z : newer_first x y = true → newer_first y z = true → newer_first x z = true.
Proof. unfold newer_first. intros ? ?. by eapply pair_leb_trans. Qed.

Lemma as_i64_small n : n ≤ 9223372036854775807 → as_i64 n = Z.of_N n.
Proof. intros Hn. unfold as_i64. by rewrite (proj2 (N.leb_le _ _) Hn). Qed.

Lemma row_before_key c x r :
  hc_time c = row_started_at_ms x → hc_sequence c = position x →
  row_started_at_ms x ≤ MAX_TIMESTAMP_MS → position x ≤ 9223372036854775807 →
  row_before c r = pair_ltb (row_key r) (row_key x).
Proof.
  intros Ht Hp Hm Hs. unfold row_before. rewrite Ht, Hp, !as_i64_small by (unfold MAX_TIMESTAMP_MS in Hm; lia).
  apply eq_true_iff_eq. rewrite pair_ltb_spec, orb_true_iff, andb_true_iff, !Z.ltb_lt, Z.eqb_eq. simpl. lia.
Qed.

(** No two rows have the same key, so the order is strict. *)
Lemma matching_strict xs w db :
  db_ok xs db → StronglySorted (λ x y, pair_ltb (row_key y) (row_key x) = true) (matching w db).
Proof.
  intros Hok. assert (NoDup (position <$> matching w db)) as Hnd.
  { unfold matching. rewrite sort_by_perm. pose proof (filter_sorted _ (row_matches json_extract project q w) _ (ok_sorted _ _ Hok)) as Hs.
    induction Hs as [|x l _ IH Hx]; simpl; [constructor|]. constructor; [|done].
    intros (y & Hy & Hin)%list_elem_of_fmap. pose proof (proj1 (Forall_forall _ _) Hx y Hin). simpl in *. lia. }
  pose proof (sort_by_sorted newer_first newest_first_total newest_first_trans
                (List.filter (row_matches json_extract project q w) (traces db))) as Hs.
  fold (matching w db) in Hs. induction Hs as [|x l _ IH Hx]; [constructor|].
  apply NoDup_cons in Hnd as [Hni Hnd]. constructor; [by apply IH|]. apply Forall_forall. intros y Hy.
  pose proof (proj1 (Forall_forall _ _) Hx y Hy) as Hle. unfold leP, newer_first in Hle.
  rewrite pair_ltb_leb. apply negb_true_iff, not_true_iff_false. intros Hge. apply Hni, list_elem_of_fmap.
  exists y. split; [|done]. by pose proof (f_equal snd (pair_leb_antisym _ _ Hle Hge)).
Qed.

(** What is left after the last row that was shown. *)
Lemma matching_after xs w db E1 x E2 c :
  db_ok xs db → matching w db = E1 ++ x :: E2 → hc_time c = row_started_at_ms x → hc_sequence c = position x →
  row_started_at_ms x ≤ MAX_TIMESTAMP_MS → position x ≤ 9223372036854775807 →
  List.filter (row_before c) (matching w db) = E2.
Proof.
  intros Hok HE Ht Hp Hm Hs. pose proof (matching_strict xs w db Hok) as Hst. rewrite HE in Hst |- *.
  rewrite List.filter_app. simpl. rewrite (filter_none _ E1), (filter_all _ E2).
  - by rewrite (row_before_key c x), pair_ltb_leb, (proj2 (pair_leb_spec _ _)) by (done || (right; split; [done|lia])).
  - apply StronglySorted_app_1_r in Hst. apply StronglySorted_inv in Hst as [_ Hf].
    eapply Forall_impl; [exact Hf|]. simpl. intros y Hy. by rewrite (row_before_key c x).
  - apply Forall_forall. intros y Hy. rewrite (row_before_key c x), pair_ltb_leb by done. apply negb_false_iff.
    pose proof (StronglySorted_app_1_elem_of _ _ _ y x Hst Hy ltac:(by left)) as Hlt. simpl in Hlt.
    apply pair_ltb_spec in Hlt. apply pair_leb_spec. lia.
Qed.

(** Appends do not change what matches up to a position, as long as nothing of the
    project is pruned. *)
Lemma matching_later w db db' :
  w ≤ last_position db → w ≤ 9223372036854775807 → later project db db' →
  md_pruned (metadata db' project) = md_pruned (metadata db project) → matching w db' = matching w db.
Proof.
  intros Hw Hi (_ & _ & _ & _ & Hf) E. unfold matching. f_equal. specialize (Hf E w Hw).
  pose proof (λ l, filter_narrow (row_matches json_extract project q w) (λ r, (row_project_id r == project) && (position r <=? w)) l) as Hn.
  rewrite <- Hn, Hf, Hn; [done|..]; apply Forall_forall; intros r _ Hr; unfold row_matches in Hr;
    rewrite !andb_true_iff in Hr; destruct Hr as [[[[[[[[Hp Hr] _] _] _] _] _] _] _]; rewrite Hp; simpl;
    apply Z.leb_le in Hr; rewrite as_i64_small in Hr by done; apply N.leb_le; lia.
Qed.

(** The cursor after the rows shown so far. *)
Definition cursor_at (db0 : TraceDb) (x : TraceRow) : HistoryCursor :=
  {| hc_project_id := project; hc_generation := generation db0;
     hc_watermark := md_head (metadata db0 project); hc_pruned := md_pruned (metadata db0 project);
     hc_time := row_started_at_ms x; hc_sequence := position x; hc_filters := filter_key q |}.

Definition after_rows (db0 : TraceDb) (E1 : list TraceRow) : option HistoryCursor := cursor_at db0 <$> list.last E1.

Lemma metadata_ok xs db p :
  db_ok xs db → md_pruned (metadata db p) ≤ md_head (metadata db p) ≤ last_position db.
Proof.
  intros Hok. unfold metadata. simpl. destruct (trace_projects db !! p) as [tp|] eqn:E; simpl; [|lia].
  by apply (ok_projects _ _ Hok) in E as [_ ?].
Qed.

Lemma matching_row xs db0 x :
  db_ok xs db0 → x ∈ matching (md_head (metadata db0 project)) db0 →
  0 < position x ≤ md_head (metadata db0 project) ∧ row_started_at_ms x ≤ MAX_TIMESTAMP_MS ∧ row_project_id x = project ∧
  ∃ e, row_record x = Ok {| sequence := position x; tc_event := e |} ∧ traced xs e ∧
    tr_started_at_ms (te_trace e) = row_started_at_ms x ∧ tr_project_id (te_trace e) = project.
Proof.
  intros Hok Hx. unfold matching in Hx. rewrite elem_of_sort_by in Hx.
  apply list_elem_of_In, filter_In in Hx as [Hin%list_elem_of_In Hr]. unfold row_matches in Hr.
  rewrite !andb_true_iff in Hr. destruct Hr as [[[[[[[[Hp%bool_decide_eq_true Hr] _] _] _] _] _] _] _].
  pose proof (proj1 (Forall_forall _ _) (ok_rows _ _ Hok) x Hin) as [? (e & Hj & Htr & Hst & Hpr)].
  pose proof (metadata_ok xs db0 project Hok) as Hmd. pose proof (ok_last _ _ Hok).
  apply Z.leb_le in Hr. rewrite as_i64_small in Hr by lia.
  assert (tr_started_at_ms (te_trace e) ≤ MAX_TIMESTAMP_MS) as Hms.
  { destruct Htr as (x0 & e0 & _ & _ & Hpl & _ & Hm). unfold plain in Hpl.
    injection Hpl as ? ? ? ? ? ? ? ? ? ? ? Hs ? ?. by rewrite Hs. }
  split_and!; [lia|lia|by rewrite Hst|done|]. exists e. unfold row_record. rewrite Hj. split_and!; [done|done|congruence..].
Qed.

(** A cursor handed out is accepted as long as nothing was lost. *)
Lemma cursor_accepted xs db0 xs' db x :
  db_ok xs db0 → db_ok xs' db → later project db0 db → x ∈ matching (md_head (metadata db0 project)) db0 →
  history_cursor_decode (cursor_encode (cursor_at db0 x)) project (filter_key q) (metadata db project) = Ok (cursor_at db0 x).
Proof.
  intros Hok Hok' (Hg & Hl & Hh & Hp & _) Hx. destruct (matching_row xs db0 x Hok Hx) as (Hpos & Hms & _).
  pose proof (metadata_ok xs db0 project Hok) as Hmd. pose proof (ok_last _ _ Hok). destruct (ok_generation _ _ Hok) as [Hg1 Hg2].
  unfold history_cursor_decode, cursor_decode, cursor_encode. rewrite b64_decode_encode. simpl. rewrite from_to_json. simpl.
  cbn [metadata md_head md_pruned] in *.
  assert (generation db0 ≠ []) as Hne by (intros E; unfold len in Hg1; rewrite E in Hg1; simpl in Hg1; lia).
  rewrite (bool_decide_true (project = project)), (bool_decide_true (filter_key q = filter_key q)) by done.
  rewrite (bool_decide_false _ Hne), (bool_decide_true (generation db0 = generation db)) by done. simpl.
  repeat match goal with |- context [(?a <? ?b)%N] => rewrite (proj2 (N.ltb_ge a b)) by lia end.
  rewrite (proj2 (N.eqb_neq (position x) 0)) by lia. done.
Qed.

Lemma lastN_app {A} (l k : list A) : k ≠ [] → list.last (l ++ k) = list.last k.
Proof. intros Hk. destruct (list.last k) as [y|] eqn:E; [by rewrite last_app, E|]. by apply last_None in E. Qed.

Section page.
Context (xs xs' : list export) (db0 db : TraceDb) (E1 E2 : list TraceRow).
Hypothesis (Hok : db_ok xs db0) (Hok' : db_ok xs' db) (Hlater : later project db0 db).
Hypothesis (Hpruned : md_pruned (metadata db project) = md_pruned (metadata db0 project)).
Hypothesis (Hfirst : E1 = [] → db = db0).
Hypothesis (Hmatch : matching (md_head (metadata db0 project)) db0 = E1 ++ E2).

Lemma last_matching x : list.last E1 = Some x → x ∈ matching (md_head (metadata db0 project)) db0.
Proof. intros (E & ->)%last_Some. rewrite Hmatch. set_solver. Qed.

Lemma page_new :
  history_page_new project (with_cursor (cursor_encode <$> after_rows db0 E1)) (metadata db project) =
  Ok {| hp_project_id := project; hp_metadata := metadata db project; hp_filters := filter_key q;
        hp_after := after_rows db0 E1; hp_watermark := md_head (metadata db0 project); hp_reset := false |}.
Proof.
  unfold history_page_new, after_rows. destruct (list.last E1) as [x|] eqn:El.
  - cbn [fmap option_fmap option_map with_cursor hq_cursor transpose].
    change (filter_key (with_cursor _)) with (filter_key q).
    rewrite (cursor_accepted xs db0 xs' db x Hok Hok' Hlater (last_matching x El)). simpl.
    destruct Hlater as (Hg & _). rewrite bool_decide_true by done.
    cbn [metadata md_pruned] in Hpruned. rewrite Hpruned, N.ltb_irrefl. done.
  - apply last_None in El. rewrite <- (Hfirst El). done.
Qed.

Lemma page_select rs c :
  mapR row_record E2 = Ok rs →
  history_select json_extract db project (with_cursor c) (md_head (metadata db0 project)) (after_rows db0 E1) =
  Ok (takeN (hq_limit q + 1) rs).
Proof.
  intros Hrs. unfold history_select. change (hq_limit (with_cursor c)) with (hq_limit q). apply mapR_takeN.
  change (row_matches json_extract project (with_cursor c)) with (row_matches json_extract project q).
  rewrite filter_andb, (sort_by_filter _ newest_first_total newest_first_trans).
  pose proof (metadata_ok xs db0 project Hok) as Hmd. pose proof (ok_last _ _ Hok) as Hl.
  fold (matching (md_head (metadata db0 project)) db).
  unfold after_rows. destruct (list.last E1) as [x|] eqn:El; cbn [fmap option_fmap option_map all_of].
  - destruct (matching_row xs db0 x Hok (last_matching x El)) as ((_ & Hpos) & Hms & _).
    apply last_Some in El as (E & HE). rewrite (matching_after xs' _ db E x E2 (cursor_at db0 x)); try done; [|lia].
    rewrite (matching_later _ db0); try done; [|lia..]. by rewrite Hmatch, HE, <- app_assoc.
  - rewrite filter_all by (apply Forall_true; done). apply last_None in El. rewrite (Hfirst El), Hmatch, El. done.
Qed.

Lemma page_finish rs :
  mapR row_record E2 = Ok rs → 1 ≤ hq_limit q →
  let page := history_page_finish
    {| hp_project_id := project; hp_metadata := metadata db project; hp_filters := filter_key q;
       hp_after := after_rows db0 E1; hp_watermark := md_head (metadata db0 project); hp_reset := false |}
    (hq_limit q) (takeN (hq_limit q + 1) rs) in
  records page = takeN (hq_limit q) rs ∧
  next_cursor page = if hq_limit q <? len E2
    then cursor_encode <$> after_rows db0 (E1 ++ takeN (hq_limit q) E2) else None.
Proof.
  intros Hrs Hlim. unfold history_page_finish. cbn [records next_cursor].
  rewrite takeN_takeN by lia. split; [done|]. rewrite len_takeN, (mapR_len _ _ _ Hrs).
  destruct (N.ltb_spec (hq_limit q) (len E2)) as [Hlt|Hge].
  2: by rewrite (proj2 (N.ltb_ge _ _)) by lia.
  rewrite (proj2 (N.ltb_lt _ _)) by lia.
  assert (takeN (hq_limit q) E2 ≠ []) as Hne.
  { intros E. apply (f_equal len) in E. rewrite len_takeN, len_nil in E. lia. }
  unfold after_rows. rewrite lastN_app by done.
  destruct (list.last (takeN (hq_limit q) E2)) as [x|] eqn:El; [|by apply last_None in El].
  destruct (mapR_last _ _ _ x (mapR_takeN _ (hq_limit q) _ _ Hrs) El) as (y & -> & Hy).
  assert (x ∈ matching (md_head (metadata db0 project)) db0) as Hx.
  { rewrite Hmatch, <- (takeN_dropN (hq_limit q) E2). apply last_Some in El as (E & ->). set_solver. }
  destruct (matching_row xs db0 x Hok Hx) as (_ & _ & _ & e & He & _ & Hst & _).
  rewrite He in Hy. injection Hy as <-. destruct Hlater as (Hg & _). simpl in Hpruned |- *.
  unfold cursor_at. simpl. by rewrite Hst, Hg, Hpruned.
Qed.

(** The page after the rows [E1] shows the next rows, and its cursor goes on after
    them. *)
Lemma history_page rs :
  mapR row_record E2 = Ok rs → 1 ≤ hq_limit q →
  ∃ page, history_query json_extract db project (with_cursor (cursor_encode <$> after_rows db0 E1)) = Ok page ∧
    reset page = false ∧ records page = takeN (hq_limit q) rs ∧
    next_cursor page = if hq_limit q <? len E2
      then cursor_encode <$> after_rows db0 (E1 ++ takeN (hq_limit q) E2) else None.
Proof.
  intros Hrs Hlim. unfold history_query. rewrite page_new. cbn [mbind result_bind hp_watermark hp_after].
  rewrite (page_select rs) by done. cbn [mbind result_bind].
  eexists. split; [reflexivity|]. split; [done|]. by apply page_finish.
Qed.
End page.

(** ** Following the cursors *)

(** How a client's walk through the pages ends: after the last page, while there is
    more, with a page that tells it to start over, or with a cursor that is refused. *)
Inductive ending := Finished | Unfinished | StartOver | Refused (c : option bytes).

(** The client asks for the first page, then follows the cursor of each page; the
    database may have changed between two calls. *)
Fixpoint follow (c : option bytes) (dbs : list TraceDb) : list TracePage * ending :=
  match dbs with
  | [] => ([], Unfinished)
  | db :: dbs =>
      match store_history json_extract db project (with_cursor c) with
      | Err _ => ([], Refused c)
      | Ok page =>
          if reset page then ([], StartOver)
          else match next_cursor page with
               | None => ([page], Finished)
               | Some c => let '(pages, e) := follow (Some c) dbs in (page :: pages, e)
               end
      end
  end.

Lemma follow_cons c db dbs :
  follow c (db :: dbs) =
  match store_history json_extract db project (with_cursor c) with
  | Err _ => ([], Refused c)
  | Ok page =>
      if reset page then ([], StartOver)
      else match next_cursor page with
           | None => ([page], Finished)
           | Some c => let '(pages, e) := follow (Some c) dbs in (page :: pages, e)
           end
  end.
Proof. done. Qed.

(** Databases a client may meet one after the other. *)
Inductive exports_to (xs : list export) (db : TraceDb) : list export → TraceDb → Prop :=
| exports_none : exports_to xs db xs db
| exports_one ys db1 x db2 :
    exports_to xs db ys db1 → export_ok x → export_spans skipped retention x.1 x.2 db1 = Ok db2 →
    exports_to xs db (ys ++ [x]) db2.

Inductive met : list export → TraceDb → list TraceDb → Prop :=
| met_none xs db : met xs db []
| met_next xs db ys db' dbs : exports_to xs db ys db' → met ys db' dbs → met xs db (db' :: dbs).

Lemma exports_to_ok xs db ys db' :
  project ≠ [] → db_ok xs db → exports_to xs db ys db' → db_ok ys db' ∧ later project db db'.
Proof.
  intros Hp Hok. induction 1 as [|ys db1 x db2 _ [Hok1 Hl1] Hx He]; [split; [done|apply later_refl]|].
  destruct (export_grows ys db1 x db2 Hok1 Hx He) as [Hok2 Hl2]. split; [done|].
  eapply later_trans; [done|]. by apply Hl2.
Qed.

Definition cursor_length_ok (c : option bytes) : bool := all_of (λ c, (c != []) && (len c <=? 4096)) c.

Lemma validate_with_cursor c :
  is_ok (history_validate q) = true → is_ok (history_validate (with_cursor c)) = cursor_length_ok c.
Proof.
  unfold history_validate, cursor_length_ok. cbn [with_cursor hq_request_id hq_connection_id hq_limit hq_cursor hq_from_ms hq_to_ms hq_actor_name hq_actor_id].
  unfold ensure. intros Hv.
  repeat match type of Hv with context [if ?b then _ else _] => destruct b; [|done] end.
  destruct (all_of _ c); [|done]. done.
Qed.

(** When something of the project is gone the page says so. *)
Lemma lost_page xs xs' db0 db E1 E2 :
  project ≠ [] → db_ok xs db0 → db_ok xs' db → later project db0 db →
  md_pruned (metadata db project) ≠ md_pruned (metadata db0 project) → E1 ≠ [] →
  matching (md_head (metadata db0 project)) db0 = E1 ++ E2 →
  ∃ page, history_query json_extract db project (with_cursor (cursor_encode <$> after_rows db0 E1)) = Ok page ∧
    reset page = true.
Proof.
  intros Hp Hok Hok' Hl Hne HE1 Hm. unfold history_query, history_page_new, after_rows.
  destruct (list.last E1) as [x|] eqn:El; [|by apply last_None in El].
  assert (x ∈ matching (md_head (metadata db0 project)) db0) as Hx.
  { rewrite Hm. apply last_Some in El as (E & ->). set_solver. }
  cbn [fmap option_fmap option_map with_cursor hq_cursor transpose].
  change (filter_key (with_cursor _)) with (filter_key q).
  rewrite (cursor_accepted xs db0 xs' db x Hok Hok' Hl Hx). cbn [mbind result_bind cursor_at hc_generation hc_pruned].
  destruct Hl as (Hg & _ & _ & Hle & _).
  rewrite (proj2 (N.ltb_lt _ _)) by lia. rewrite orb_true_r. cbn [hp_watermark hp_after].
  destruct (mapR_total row_record
    (takeN (hq_limit (with_cursor (Some (cursor_encode (cursor_at db0 x)))) + 1) (sort_by newer_first
      (List.filter (λ r, row_matches json_extract project (with_cursor (Some (cursor_encode (cursor_at db0 x))))
         (md_head (metadata db project)) r && true) (traces db))))) as [rs Hrs].
  - apply Forall_take, Forall_forall. intros r Hr. rewrite elem_of_sort_by in Hr.
    apply list_elem_of_In, filter_In in Hr as [Hr%list_elem_of_In _].
    pose proof (proj1 (Forall_forall _ _) (ok_rows _ _ Hok') r Hr) as [_ (e & Hj & _)]. unfold row_record. rewrite Hj. by eexists.
  - unfold history_select. cbn [all_of]. rewrite Hrs. cbn [mbind result_bind]. eexists. by split.
Qed.

(** What a walk shows, as records that are still to come are [rs]. *)
Definition shows (db0 : TraceDb) (rs : list TraceRecord) (dbs : list TraceDb) (walk : list TracePage * ending) : Prop :=
  let '(pages, e) := walk in
  ∃ rest, rs = concat (records <$> pages) ++ rest ∧
  match e with
  | Finished => rest = []
  | Unfinished => length pages = length dbs ∧ Forall (λ p, len (records p) = hq_limit q) pages
  | StartOver => ∃ db, db ∈ dbs ∧ md_pruned (metadata db0 project) < md_pruned (metadata db project)
  | Refused c => cursor_length_ok c = false
  end.

Lemma limit_positive : is_ok (history_validate q) = true → 1 ≤ hq_limit q.
Proof. destruct (history_validate q) as [[]|] eqn:Ev; [|done]. unfold history_validate in Ev. by inv_ok. Qed.

Lemma after_rows_some db0 E1 E2 :
  is_ok (history_validate q) = true → hq_limit q < len E2 → E1 ++ takeN (hq_limit q) E2 ≠ [] ∧
  ∃ c, after_rows db0 (E1 ++ takeN (hq_limit q) E2) = Some c.
Proof.
  intros Hvq Hlt. assert (E1 ++ takeN (hq_limit q) E2 ≠ []) as Hne.
  { intros [_ E]%app_eq_nil. apply (f_equal len) in E. rewrite len_takeN, len_nil in E.
    pose proof (limit_positive Hvq). lia. }
  split; [done|]. unfold after_rows. destruct (list.last _) as [x|] eqn:El; [by eexists|]. by apply last_None in El.
Qed.

(** One call of the client. *)
Lemma follow_step xs db0 xs' db E1 E2 rs :
  is_ok (validate_component "project ID" project 64) = true → is_ok (history_validate q) = true →
  db_ok xs db0 → db_ok xs' db → later project db0 db → (E1 = [] → db = db0) →
  matching (md_head (metadata db0 project)) db0 = E1 ++ E2 → mapR row_record E2 = Ok rs →
  match store_history json_extract db project (with_cursor (cursor_encode <$> after_rows db0 E1)) with
  | Err _ => cursor_length_ok (cursor_encode <$> after_rows db0 E1) = false
  | Ok page =>
      if reset page then md_pruned (metadata db0 project) < md_pruned (metadata db project)
      else records page = takeN (hq_limit q) rs ∧
        next_cursor page = if hq_limit q <? len E2
          then cursor_encode <$> after_rows db0 (E1 ++ takeN (hq_limit q) E2) else None
  end.
Proof.
  intros Hvp Hvq Hok Hok' Hl Hfirst Hm Hrs.
  assert (project ≠ []) as Hne by (intros E; by rewrite E in Hvp).
  pose proof (limit_positive Hvq) as Hlim.
  unfold store_history. rewrite Hvp, validate_with_cursor by done. cbn [andb].
  destruct (cursor_length_ok _) eqn:Ec; [|done].
  destruct (decide (md_pruned (metadata db project) = md_pruned (metadata db0 project))) as [Hp|Hp].
  - destruct (history_page xs xs' db0 db E1 E2 Hok Hok' Hl Hp Hfirst Hm rs Hrs Hlim) as (page & -> & -> & Hr & Hn). done.
  - destruct (lost_page xs xs' db0 db E1 E2) as (page & -> & ->); try done; [by intros ->%Hfirst|].
    destruct Hl as (_ & _ & _ & ? & _). lia.
Qed.

Lemma follow_shows xs db0 dbs :
  is_ok (validate_component "project ID" project 64) = true → is_ok (history_validate q) = true →
  db_ok xs db0 → ∀ xs' db E1 E2 rs,
  db_ok xs' db → later project db0 db → (E1 = [] → db = db0) → met xs' db dbs →
  matching (md_head (metadata db0 project)) db0 = E1 ++ E2 → mapR row_record E2 = Ok rs →
  shows db0 rs (db :: dbs) (follow (cursor_encode <$> after_rows db0 E1) (db :: dbs)).
Proof.
  intros Hvp Hvq Hok. assert (project ≠ []) as Hne by (intros E; by rewrite E in Hvp).
  induction dbs as [|db' dbs IH]; intros xs' db E1 E2 rs Hok' Hl Hfirst Hmet Hm Hrs;
    pose proof (follow_step xs db0 xs' db E1 E2 rs Hvp Hvq Hok Hok' Hl Hfirst Hm Hrs) as Hstep;
    rewrite follow_cons; destruct (store_history _ _ _ _) as [page|]; try by exists rs.
  all: destruct (reset page); [exists rs; split; [done|exists db; split; [by left|done]]|].
  all: destruct Hstep as [Hr Hn].
  all: rewrite Hn; destruct (N.ltb_spec (hq_limit q) (len E2)) as [Hlt|Hge];
    [|exists []; simpl; split; [|done]; rewrite Hr, !app_nil_r; symmetry; apply takeN_all; by rewrite (mapR_len _ _ _ Hrs)].
  all: assert (len (records page) = hq_limit q) as Hfull by (rewrite Hr, len_takeN, (mapR_len _ _ _ Hrs); lia).
  all: destruct (after_rows_some db0 E1 E2 Hvq Hlt) as [Hne1 [c Hc]]; rewrite Hc; cbn [fmap option_fmap option_map].
  - exists (dropN (hq_limit q) rs). simpl. rewrite Hr, app_nil_r, takeN_dropN. split; [done|]. split; [done|by constructor].
  - inversion Hmet as [|? ? ys ? ? Hto Hmet']; subst. destruct (exports_to_ok xs' db ys db' Hne Hok' Hto) as [Hok2 Hl2].
    specialize (IH ys db' (E1 ++ takeN (hq_limit q) E2) (dropN (hq_limit q) E2) (dropN (hq_limit q) rs) Hok2
                  (later_trans _ _ _ _ Hl Hl2)).
    rewrite Hc in IH. cbn [fmap option_fmap option_map] in IH.
    destruct (follow (Some (cursor_encode c)) (db' :: dbs)) as [pages e]. unfold shows in IH |- *.
    destruct IH as (rest & Hrest & He); [done|done|rewrite <- app_assoc, takeN_dropN; exact Hm|by apply mapR_drop|].
    exists rest. rewrite fmap_cons. cbn [concat length]. rewrite Hr, <- app_assoc, <- Hrest, takeN_dropN.
    split; [done|]. destruct e; [done| | |done].
    + destruct He as [-> ?]. split; [done|by constructor].
    + destruct He as (d & Hd & ?). exists d. split; [by right|done].
Qed.

(** C35. However many traces are exported between two calls, a client that follows
    the cursors of a valid query is shown the matching traces that were stored when
    it began, newest first and each exactly once: all of them when the last page has
    no cursor, and before that a prefix of them in full pages. It is told to start
    over only if traces of its project were pruned meanwhile, and refused only a
    cursor whose length the interface does not take. Everything it is shown was
    exported by a host of that project, under the identity that host had proved. *)
Theorem history_pages_complete (xs : list export) (db : TraceDb) (dbs : list TraceDb) :
  is_ok (validate_component "project ID" project 64) = true → is_ok (history_validate q) = true →
  stored xs db → met xs db dbs →
  ∃ all, mapR row_record (matching (md_head (metadata db project)) db) = Ok all ∧
    Forall (λ r, ∃ x e, x ∈ xs ∧ e ∈ exported x ∧ plain (tc_event r) = plain e ∧
                   sender_of x.1 e ∧ project_id (pr_actor x.1) = project) all ∧
    let '(pages, e) := follow None (db :: dbs) in
    ∃ rest, all = concat (records <$> pages) ++ rest ∧
    match e with
    | Finished => rest = []
    | Unfinished => length pages = length (db :: dbs) ∧ Forall (λ p, len (records p) = hq_limit q) pages
    | StartOver => ∃ d, d ∈ db :: dbs ∧ md_pruned (metadata db project) < md_pruned (metadata d project)
    | Refused c => cursor_length_ok c = false
    end.
Proof.
  intros Hvp Hvq Hst%stored_ok Hmet.
  destruct (mapR_total row_record (matching (md_head (metadata db project)) db)) as [all Hall].
  { apply Forall_forall. intros r Hr. destruct (matching_row xs db r Hst Hr) as (_ & _ & _ & e & He & _). by eexists. }
  exists all. split_and!; [done| |].
  - apply mapR_Ok in Hall. apply Forall_forall. intros r Hr.
    apply list_elem_of_lookup_1 in Hr as [i Hi]. destruct (Forall2_lookup_r _ _ _ _ _ Hall Hi) as (row & Hrow & Hrec).
    apply list_elem_of_lookup_2 in Hrow. destruct (matching_row xs db row Hst Hrow) as (_ & _ & _ & e & He & Htr & _ & Hp).
    rewrite He in Hrec. injection Hrec as <-. destruct Htr as (x & e0 & Hx & He0 & Hpl & Hs & _).
    exists x, e0. split_and!; try done. destruct Hs as (_ & _ & <- & _).
    unfold plain in Hpl. injection Hpl as ? ? ? ? Hpr ? ? ? ? ? ? ? ? ?. congruence.
  - by apply (follow_shows xs db dbs Hvp Hvq Hst xs db [] (matching (md_head (metadata db project)) db) all).
Qed.

End pages.
End history.

(** ** The histogram of the logs *)

Definition lines_at (l : LogLevel) (c : LevelCounts) : N :=
  match l with
  | DebugLevel => debug_lines c
  | InfoLevel => info_lines c
  | WarnLevel => warn_lines c
  | ErrorLevel => error_lines c
  end.

Lemma lines_at_add l level n c : lines_at l (counts_add level n c) = lines_at l c + (if level == level_str l then n else 0).
Proof. by destruct l. Qed.

Section histogram.
Context (count : Z * bytes → N).

Definition add_group (h : LogHistogram) (g : Z * bytes) : result LogHistogram :=
  ensure (0 <=? g.1)%Z "out of range integral type conversion attempted";;
  Ok (histogram_add h (Z.to_N g.1) g.2 (count g)).

(** Every group is counted in its own bucket and level. *)
Lemma add_groups gs h h' i l c :
  NoDup gs → foldM add_group h gs = Ok h' → lh_buckets h !! i = Some c →
  ∃ c', lh_buckets h' !! i = Some c' ∧
    lines_at l c' = lines_at l c + (if bool_decide ((Z.of_nat i, level_str l) ∈ gs) then count (Z.of_nat i, level_str l) else 0).
Proof.
  intros Hnd. revert h c. induction Hnd as [|[z level] gs Hni _ IH]; intros h c; cbn [foldM].
  - intros [= <-] Hc. exists c. split; [done|]. rewrite bool_decide_false by set_solver. lia.
  - intros (h1 & Hh1 & Hf)%bind_Ok Hc. unfold add_group in Hh1. inv_ok. simpl in *. apply Z.leb_le in H. subst h1.
    destruct (decide (i = N.to_nat (Z.to_N z))) as [->|Hi].
    + destruct (IH _ (counts_add level (count (z, level)) c) Hf) as (c' & Hc' & Hl).
      { simpl. rewrite list_lookup_alter_eq, Hc. done. }
      exists c'. split; [done|]. rewrite Hl, lines_at_add. replace (Z.of_nat (N.to_nat (Z.to_N z))) with z by lia.
      destruct (decide (level = level_str l)) as [->|Hne].
      * rewrite (bool_decide_true (level_str l = _)), (bool_decide_false _ Hni), bool_decide_true by set_solver. lia.
      * rewrite (bool_decide_false _ Hne), N.add_0_r.
        rewrite (bool_decide_ext ((z, level_str l) ∈ (z, level) :: gs) ((z, level_str l) ∈ gs)); [done|].
        rewrite elem_of_cons. naive_solver.
    + destruct (IH _ c Hf) as (c' & Hc' & Hl); [simpl; by rewrite list_lookup_alter_ne|].
      exists c'. split; [done|]. rewrite Hl.
      rewrite (bool_decide_ext ((Z.of_nat i, level_str l) ∈ (z, level) :: gs) ((Z.of_nat i, level_str l) ∈ gs)); [done|].
      rewrite elem_of_cons. split; [|by right]. intros [[= <- _]|?]; [|done]. destruct Hi. lia.
Qed.
End histogram.

Lemma groups_counted {A B} `{EqDecision B} (f : A → result B) l gs g :
  mapR f l = Ok gs → len (List.filter (λ g', g' == g) gs) = len (List.filter (λ r, ok (f r) == Some g) l).
Proof.
  rewrite mapR_Ok. induction 1 as [|x y l gs Hy _ IH]; simpl; [done|]. rewrite Hy. simpl.
  destruct (decide (y = g)) as [->|Hne].
  - rewrite !bool_decide_true by done. by rewrite !len_cons, IH.
  - rewrite !bool_decide_false by congruence. done.
Qed.

(** A bucket of the histogram counts the matching lines of its span of time, level
    by level. *)
Lemma histogram_counts json_extract db project q h (i : nat) l :
  store_histogram json_extract db project q = Ok h → (i < N.to_nat (buckets_of q))%nat →
  ∃ c, lh_buckets h !! i = Some c ∧
    lines_at l c = len (List.filter (λ r,
      log_matches json_extract project (lines_of q) r &&
      (ok (line_group json_extract q r) == Some (Z.of_nat i, level_str l))) (log_rows db)).
Proof.
  unfold store_histogram, log_histogram. destruct (_ && _); [|done]. intros (groups & Hg & Hf)%bind_Ok Hi.
  destruct (add_groups (λ g, len (List.filter (λ g', g' == g) groups)) _ _ _ i l
              {| debug_lines := 0; info_lines := 0; warn_lines := 0; error_lines := 0 |}
              (NoDup_remove_dups groups) Hf) as (c & Hc & Hl).
  { simpl. by apply lookup_replicate_2. }
  exists c. split; [done|]. rewrite Hl, filter_andb, <- (groups_counted _ _ groups _ Hg).
  destruct (decide ((Z.of_nat i, level_str l) ∈ groups)) as [Hin|Hni].
  - rewrite bool_decide_true by (by apply elem_of_remove_dups). by destruct l.
  - rewrite bool_decide_false by (by rewrite elem_of_remove_dups). rewrite filter_none; [by destruct l|].
    apply Forall_forall. intros g Hgin. apply bool_decide_eq_false. by intros ->.
Qed.

(** The search of stored logs ignores the case of ASCII letters only: it finds [a]
    with [A] but not the small [e] with an acute accent with its capital. *)
Example stored_search_is_ascii :
  contains (to_ascii_lowercase (b"A")) (to_ascii_lowercase (b"banana")) = true ∧
  contains (to_ascii_lowercase [xc3; x89]) (to_ascii_lowercase [xc3; xa9]) = false.
Proof. by vm_compute. Qed.

(** ** A client at work

    Stand-ins for JSON, and two hosts of two projects that export traces while a
    client pages through those of one of them. *)

Module Stand_in_telemetry.
Import Stand_ins Stand_in_commits.

#[export] Instance ser_RequestKind : Ser RequestKind :=
  ser_iso (λ k, match k with Method => true | Websocket => false end) (λ c : bool, if c then Method else Websocket)
    ltac:(by intros []).
#[export] Instance ser_HostState : Ser HostState :=
  ser_iso (λ k, match k with Cold => true | Warm => false end) (λ c : bool, if c then Cold else Warm) ltac:(by intros []).
#[export] Instance ser_RequestOutcome : Ser RequestOutcome :=
  ser_iso (λ o, match o with Completed => 0 | Failed => 1 | Rejected => 2 | Rerouted => 3 | Interrupted => 4 end)
    (λ n, match n with 0 => Completed | 1 => Failed | 2 => Rejected | 3 => Rerouted | _ => Interrupted end)
    ltac:(by intros []).
#[export] Instance ser_HistoryCursor : Ser HistoryCursor :=
  ser_iso (λ c, (hc_project_id c, hc_generation c, hc_watermark c, hc_pruned c, hc_time c, hc_sequence c, hc_filters c))
    (λ '(p, g, w, u, t, s, f), Build_HistoryCursor p g w u t s f) ltac:(by intros []).
#[export] Instance ser_ReplayCursor : Ser ReplayCursor :=
  ser_iso (λ c, (rp_project_id c, rp_generation c, rp_position c)) (λ '(p, g, n), Build_ReplayCursor p g n) ltac:(by intros []).

(** An event is stored without its times and metadata. *)
Definition event_of (t : bytes * bytes * bytes * (option N * bytes * bytes * bytes * bytes) *
                         (RequestKind * bytes * option bytes * N * HostState * RequestOutcome)) : TraceEvent :=
  let '(id, host, session, (v, p, r, n, a), (k, o, c, at_ms, hs, out)) := t in
  {| event_id := id; te_host_id := host; te_session_id := session;
     te_trace := {| tr_state_version := v; tr_project_id := p; tr_request_id := r; tr_actor_name := n; tr_actor_id := a;
                    tr_kind := k; tr_operation := o; tr_connection_id := c; tr_started_at_ms := at_ms;
                    tr_routing_ms := f64_from 0; tr_duration_ms := f64_from 0; tr_queue_wait_ms := None;
                    tr_host_state := hs; tr_outcome := out; tr_metadata := None |} |}.

#[export] Instance event_json : Json TraceEvent :=
  {| to_json e := to_json (plain e); from_json s := event_of <$> from_json s |}.

Lemma demo_readable e : readable e.
Proof.
  exists (event_of (plain e)). split; [|by destruct e as [? ? ? []]].
  unfold from_json at 1, to_json at 1, event_json. by rewrite from_to_json.
Qed.
End Stand_in_telemetry.

Import Stand_ins Stand_in_commits Stand_in_telemetry.

Definition demo_host (project host : string) : ActorPrincipal :=
  {| pr_organization_id := None; pr_actor := {| project_id := b project; actor_name := b"Chat"; actor_id := b"a" |};
     pr_host_id := b host; pr_session_id := b"s"; pr_region := b"r"; pr_host_config_key := None; pr_invocation := None |}.

(** A span that claims to be of another project. *)
Definition demo_span (id : string) (seconds : N) : Span :=
  {| span_id := b id; span_name := b"send";
     span_attributes := [string_attribute PROJECT_ID (b"other"); string_attribute REQUEST_ID (b id);
                         string_attribute KIND (b"method"); string_attribute OUTCOME (b"completed")];
     start_time_unix_nano := seconds * 1000000000; end_time_unix_nano := seconds * 1000000000 + 5000000 |}.

Definition demo_export (project host : string) (spans : list Span) : export :=
  (demo_host project host, [{| rs_resource := Some [string_attribute PROJECT_ID (b"other")]; scope_spans := [spans] |}]).

Definition demo_first : export := demo_export "p1" "h1" [demo_span "a" 3; demo_span "b" 1].
Definition demo_other : export := demo_export "p2" "h2" [demo_span "c" 2].
Definition demo_third : export := demo_export "p1" "h1" [demo_span "d" 2].
Definition demo_exports : list export := [demo_first; demo_other; demo_third].

Definition demo_store (x : export) (db : TraceDb) : TraceDb :=
  default db (ok (export_spans (λ _, 0) 10 x.1 x.2 db)).

Definition demo_db0 : TraceDb := demo_store demo_first (trace_db_new (b"g")).
Definition demo_db1 : TraceDb := demo_store demo_other demo_db0.
Definition demo_db : TraceDb := demo_store demo_third demo_db1.
Definition demo_db2 : TraceDb := demo_store (demo_export "p1" "h1" [demo_span "e" 2]) demo_db.

Definition demo_history : HistoryQuery :=
  {| hq_request_id := None; hq_connection_id := None; hq_actor_name := Some (b"Chat"); hq_actor_id := None;
     hq_outcome := Some Completed; hq_from_ms := None; hq_to_ms := None; hq_limit := 2; hq_cursor := None |}.

Abbreviation demo_follow := (follow (λ _ _, None) (b"p1") demo_history None).

(** The third trace is on a second page; the one exported meanwhile is not shown. *)
Example demo_follow_pages :
  (λ '(pages, e), ((λ p, sequence <$> records p) <$> pages, e)) (demo_follow [demo_db; demo_db2]) =
  ([[1; 4]; [2]], Finished).
Proof. vm_compute. reflexivity. Qed.

Lemma demo_export_ok project host spans :
  Forall (λ s, start_time_unix_nano s ≤ u64_max) spans → export_ok (demo_export project host spans).
Proof.
  intros Hs. split; [by apply Forall_true; intros; apply demo_readable|]. simpl. constructor; [|done]. simpl. by rewrite app_nil_r.
Qed.

Lemma demo_store_ok x db :
  is_ok (export_spans (λ _, 0) 10 x.1 x.2 db) = true → export_spans (λ _, 0) 10 x.1 x.2 db = Ok (demo_store x db).
Proof. unfold demo_store. by destruct (export_spans _ _ _ _ _). Qed.

Lemma demo_stored : stored (λ _, 0) 10 demo_exports demo_db.
Proof.
  assert (∀ xs db x, stored (λ _, 0) 10 xs db → export_ok x → is_ok (export_spans (λ _, 0) 10 x.1 x.2 db) = true →
    stored (λ _, 0) 10 (xs ++ [x]) (demo_store x db)) as Hstep.
  { intros xs db x Hst Hx Hok. eapply stored_export; [done..|]. by apply demo_store_ok. }
  refine (Hstep [demo_first; demo_other] demo_db1 demo_third
           (Hstep [demo_first] demo_db0 demo_other (Hstep [] _ demo_first (stored_new _ _ (b"g") _ _) _ _) _ _) _ _);
    match goal with
    | |- export_ok _ => apply demo_export_ok; repeat constructor; by vm_compute
    | |- is_ok _ = true => vm_compute; reflexivity
    | |- _ => by vm_compute
    end.
Qed.

Lemma history_pages_complete_witness :
  ∃ all, mapR row_record (matching (λ _ _, None) (b"p1") demo_history (md_head (metadata demo_db (b"p1"))) demo_db) = Ok all ∧
    Forall (λ r, ∃ x e, x ∈ demo_exports ∧ e ∈ exported (H:=demo_value) x ∧ plain (tc_event r) = plain e ∧
                   sender_of x.1 e ∧ project_id (pr_actor x.1) = b"p1") all ∧
    let '(pages, e) := demo_follow [demo_db; demo_db2] in
    ∃ rest, all = concat (records <$> pages) ++ rest ∧
    match e with
    | Finished => rest = []
    | Unfinished => length pages = length [demo_db; demo_db2] ∧ Forall (λ p, len (records p) = hq_limit demo_history) pages
    | StartOver => ∃ d, d ∈ [demo_db; demo_db2] ∧ md_pruned (metadata demo_db (b"p1")) < md_pruned (metadata d (b"p1"))
    | Refused c => cursor_length_ok c = false
    end.
Proof.
  apply (history_pages_complete (λ _, 0) 10 (λ _ _, None) (b"p1") demo_history demo_exports demo_db [demo_db2]).
  - vm_compute. reflexivity.
  - vm_compute. reflexivity.
  - apply demo_stored.
  - eapply met_next; [|constructor]. apply (exports_one (λ _, 0) 10 demo_exports demo_db demo_exports demo_db
      (demo_export "p1" "h1" [demo_span "e" 2]) demo_db2); [constructor| |].
    + apply demo_export_ok. repeat constructor. by vm_compute.
    + apply demo_store_ok. vm_compute. reflexivity.
Defined.
